(* ===== verification/_CoqProject ===== *)
-Q . S2P
Prelude.v
Text.v
External.v
Float64.v
BTree.v
Values.v
SortedSet.v
SortedSetFacts.v
Stream.v
Keyspace.v
ShardedMap.v
Storage.v
StorageTypes.v
StorageFacts.v
ListFacts.v
SetFacts.v
Resp.v
RespFacts.v
Framing.v
Command.v
CommandFacts.v
Apply.v
ApplyFacts.v
ReplayClocks.v
Ring.v
Transactions.v
Security.v
PubSub.v
Scripting.v
Server.v
ServerFacts.v
Concurrency.v
ConcurrencyFacts.v
Serializability.v
Walks.v
Connection.v
ConnectionFacts.v
FileSystem.v
Wal.v
WalFacts.v
Snapshot.v
SnapshotFacts.v
Gossip.v
Replication.v
Config.v
ConfigFacts.v
Client.v
Startup.v
UnitTests.v
ProtocolTheorems.v
StorageTheorems.v
ReplayTheorems.v
ServerTheorems.v
SweepTheorems.v
ConcurrencyTheorems.v
Isolation.v
ClusterTheorems.v
ConnectionTheorems.v
PersistenceTheorems.v
GossipTheorems.v
ReplicationTheorems.v
RecoveryTheorems.v
StartupTheorems.v
WalkTheorems.v
