(* ===== verification/Prelude.v ===== *)
(** * ferric-cache: a verification library

    ferric-cache ([src/cache/src]) is an in-memory cache server that speaks the
    protocol of Redis.  A connection reads bytes, cuts them into frames, parses
    each frame into a command and executes it; the command passes the gates of
    the server (transaction queue, cluster routing, authentication), is logged,
    replicated and counted if it is a write, and acts on the storage, on the
    registry of subscribers or on the connection's own state; its reply is
    serialized and sent.  The log goes to a file, with periodic snapshots of
    the storage beside it; a process that starts loads the snapshot and replays
    the log.  Nodes of a cluster find each other by gossip and share the keys on
    a hash ring; a master streams its writes to replicas.  A configuration file
    says which of these parts a server has.

    ** Components and files

    Each file requires the ones of the components it calls.

    - [Prelude], [Text], [Float64], [BTree]: bytes, results, machine integers,
      proof automation; what the sources use of [str], [f64] and [BTreeMap].
    - [External]: hashing ([Xxh3]), the order of hash tables ([HashOrder]),
      random choices ([Rng]) and sizes of types ([Layout]), as type classes with
      their documented laws and an instance each.  Every execution of an
      operation has an order and random choices of its own.
    - [Values], [SortedSet], [Stream] ([data_structures/*.rs]): the values of
      keys.  [SortedSetFacts] has the invariant of sorted sets; [Stream] has
      that of streams.
    - [Keyspace] ([data_structures/mod.rs], end of [storage.rs]): [CacheValue],
      the expiry slot, and the interface [KeyMap]/[KeyMapLaws] between the
      storage operations and the map that holds the keys.
    - [ShardedMap] ([storage.rs]): the 64 hash tables; an instance of the
      interface, like a single finite map ([table]).
    - [Storage], [StorageTypes] ([storage.rs], [impl CacheStorage]): all
      operations, written and proved against [KeyMap]; lemmas in
      [StorageFacts], [ListFacts], [SetFacts].
    - [Resp] ([protocol.rs]): parser and writer of the wire format, lemmas in
      [RespFacts].  [Framing] ([server.rs], [handle_connection]): the read loop
      over any handler.  [Command] ([protocol.rs]): commands, replies,
      [parse_command] and the client's side, lemmas in [CommandFacts].
    - [Apply] ([commands.rs]): [apply_write_command], [is_write_command] and the
      replay of a log.  A log is a list of commands; a [log_entry] is a command
      with what its application meets (clocks, order of hash tables, random
      choices), a [Reading] is what one application meets whatever the command.
      Lemmas in [ApplyFacts].
    - [Ring] ([cluster/ring.rs], [cluster/node.rs]), [Transactions]
      ([transactions.rs]), [Security] ([security/*.rs]), [PubSub]
      ([pubsub.rs]), [Scripting] ([scripting.rs]): the components behind the
      server.  Password hashing ([Argon2]), mailboxes ([Mpsc], [Receiver]), the
      Lua interpreter ([Lua]), SHA-1 ([Sha1]) and the case tables of Unicode
      ([UnicodeCase]) are classes with laws.
    - [Server] ([server.rs]): [execute_command], whole: gates, recording of
      writes, all arms, reply texts.  [ServerFacts] shows that every step is
      accounted for by the log; [ReplayClocks] says which commands ([timeless])
      replay the same whatever the replay meets.
    - [Concurrency] (the recording of writes and the arms of [execute_command]
      in [server.rs], the lock scopes in [storage.rs]): a command as the steps
      between which other connections run (log, replicas, counters, one step
      per lock of a shard), and [EXEC] as the sequence of its commands.
      [ConcurrencyFacts] relates the scopes to [execute_storage];
      [Serializability] has the invariant of runs without races.  [Walks]
      ([storage.rs]): the operations that visit the shards one after the other
      while other tasks run.
    - [UnitTests]: the unit tests in the sources as boolean definitions, which
      evaluate to [true].
    - [Connection] ([server.rs], [handle_connection], [handle_tls_connection]
      and the accept loops of [run]): both arms of a connection's loop and the
      turns of all connections in any order; lemmas in [ConnectionFacts].
    - [FileSystem]: what the sources use of [std::fs] and [std::io], with
      [bincode] and [crc32fast] as the classes [Bincode] and [Crc32].
      [Wal] ([persistence/wal.rs], [persistence/mod.rs]): entries, the log with
      its buffer, rotation, truncation and replay; [WalFacts] relates the files
      to the list of entries they hold.  [Snapshot] ([persistence/snapshot.rs],
      [load_from_persistence] of [server.rs]); lemmas in [SnapshotFacts].
    - [Gossip] ([cluster/gossip.rs], the encoding in [cluster/node.rs]): the
      handlers, the rounds and the health check as functions of the protocol's
      state; the class [Json] is [serde_json].
    - [Replication] ([replication/*.rs]): greeting, registration, channels,
      frames and the replica.
    - [Config] ([config.rs]): the records, their defaults, loading and saving
      and the conversions; lemmas in [ConfigFacts].  The class [SerdeJson] is
      what [serde] and [serde_json] make of a text.
    - [Client] ([client.rs]): the client over the chunks it reads.
    - [Startup] ([main.rs], [tls/mod.rs], the constructors and [run] of
      [server.rs]): from arguments and configuration file to the server that the
      connections see; the class [Rustls] is [rustls].

    ** Conventions

    A Rust function that takes a write lock is a function from the state to the
    new state and the result; one that takes a read lock is a function of the
    state.  A [Result] is [res], whose third case [Panic] is a thread panic:
    the release profile has [panic = "abort"] and no overflow checks, so a panic
    ends the process and integer arithmetic wraps; integers are [Z] with the
    wrapping written out ([wrap_i64], [as_usize], ...).  Indexing and slicing
    out of range, [Instant] overflow, reversed [BTreeMap::range] bounds and
    capacity overflow are [Panic].

    The monotonic clock is a number of nanoseconds, the wall clock a number of
    milliseconds; an operation reads each at most once, as an argument.  The
    order of a hash table and the random choices are given to an operation in the
    same way: a command carries its own in [Env], an entry of a log that is
    replayed or a frame that a replica applies in its [Reading], a health check
    in its event.  So the server, its replay and its replicas agree on none of
    them, and theorems about replay ask for commands that do not depend on them
    ([timeless]) or speak of the same application ([execution_agrees_with_replay]).
    The locks are the atomicity of one operation on one shard; operations with
    several lock scopes ([RENAME], [RPOPLPUSH], [SMOVE]) are built from the
    scopes.  In [Server] and [Connection] a command is one step;
    [Concurrency] cuts it into the steps that other tasks can come between.  The
    commands of [EXEC] each read the clocks anew, and so do the frames of one
    read.  An operation on
    files is one step; a crash is the loss of everything but the file system.
    [outcome] is a [Result] with an error type of its own.

    ** Bounds and fuel

    [parse_resp] recurses on [2 * length + 2] units of fuel, which is always
    enough since a value takes a byte ([parse_resp_terminates]).  The loop of
    the connection has the length of its buffer, which is enough since a frame
    takes a byte.  The pop loops of sorted sets have one more than the size.
    [execute_command] has a depth of two, which is enough since only [EXEC]
    recurses and no queued command is [EXEC] ([execute_fuel_enough]).  Number
    printing has as many digits as the width allows.  The readers of the log
    have the length of the file, which is enough since an entry takes 24 bytes;
    the replica has one more than the length of its input, since a frame takes
    four bytes.  All definitions compute; the witnesses evaluate them.

    ** Theorems

    - [ProtocolTheorems] (C1-C4): the codec is lossless, parsing terminates and
      consumes a prefix, frames do not depend on how the bytes arrive,
      [parse_command] never panics.  Also that requests and replies of the
      client survive the wire, and that an error text with a line break does
      not.
    - [ReplayTheorems] (C8, C9): replay into the shards is replay into one
      table; it keeps sorted sets and streams well formed.  Also that wrong
      types change nothing and that what is not a write is not replayed.
    - [StorageTheorems] (C13, C16, C20, C23, C25, C26, C27): the life of a
      deadline, lists as double-ended queues, counters, set algebra, ranges of
      sorted sets, append-only streams.  The theorems without a number state more
      operations, several of them what the code does where it differs from Redis ([lrange_past_end],
      [incr_wraps_around], [rpoplpush_loses_element]).
    - [SweepTheorems] (C11): the reads whose answers the sweep of expired keys
      keeps, and two that it changes.
    - [ServerTheorems] (C30-C35): live execution agrees with replay, so the log
      of a history of replayable and timeless commands restores the storage; a
      connection that has not authenticated changes nothing; a changed key was
      changed by a write that the user's rules allow, as far as the code checks
      keys; [EXEC] runs its queue or nothing, and aborts when a watched key
      changed between whole commands.  Also that [PUBLISH]
      reaches the registered mailboxes.
    - [ConcurrencyTheorems] (C10, C18, C24), [Isolation] (C22), for commands other
      than scripts: runs without races are linearizable, and after a crash at
      any moment the log and the replicas have what was recorded; a watched key whose counter stands still is
      unchanged; a transaction nobody conflicts with is atomic.  Also that a task
      which is not interrupted is [execute_command].  The other theorems
      without a number are executions in which races do harm
      ([racing_writes_diverge], [exec_overwrites_watched_key],
      [watch_misses_counted_write], [rename_loses_sight]).
    - [ClusterTheorems] (C37): nodes that join or leave the ring move few keys.
      Also that replicas are distinct.
    - [ConnectionTheorems] (C5, C6, C12): a client's SET and GET end to end;
      recovery from the network's side, for replayable and timeless commands; published messages
      reach the sockets in order, before further input is read.
    - [PersistenceTheorems] (C15, C39, C40): the log gives back a run of
      what was appended, all of it when synced and not rotated away; a torn entry
      stops it; a snapshot restores every live key but emptied collections.
      Also that a restart after a snapshot finds the storage that was collected, and what a snapshot does
      to rotated segments and to entries that are still buffered.
    - [WalkTheorems] (C36, C38): a walk over the shards sees every key as it was at
      one moment, so a snapshot collected under load restores such states, and
      untouched keys exactly; so do [KEYS] and [DBSIZE].  The theorems without a
      number say what [FLUSHALL] and the sweep leave, and show executions in which
      a value escapes a snapshot or a FLUSHALL parts the log from the storage.
    - [GossipTheorems] (C7, C19, C29): a silent node is removed, a node that
      is heard in time is not, and a removed one does not come back.
    - [ReplicationTheorems] (C21), [RecoveryTheorems] (C14): a replica applies a
      prefix of the master's writes, and equals the master when it has caught
      up and the commands are replayable and timeless.
    - [StartupTheorems] (C17, C28): a restart through the process entry
      serves the storage the server had; the security section is enforced.  Also that a corrupt
      snapshot hides the log, which the first background snapshot then empties.

    ** Not modelled

    The depth of the parser's stack; memory exhaustion below the capacity
    overflow of [Vec]; errors of devices and of socket writes; the handshake and
    the cipher of TLS; the parsing of the command line; what is printed; scripts
    that do not terminate; the interleaving of [RANDOMKEY] and of scripts with
    other tasks, which are single steps.  [serde], [serde_json], [bincode], [rustls] and
    the text of socket addresses are parameters.  Of the unit tests, those of the
    Lua interpreter, of SHA-1 and of the JSON of gossip messages are left out,
    and the two that count on statistics or on threads.  Next in order: scripts
    as steps of their calls, and the time to live of keys across a restart. *)

From stdpp Require Export prelude gmap strings list sorting.
From Stdlib Require Export ZArith Lia.
From Stdlib Require Export Strings.Byte.


#[export] Set Default Goal Selector "!".
#[local] Open Scope Z_scope.

(** ** Bytes

    [bytes::Bytes], [&[u8]] and Rust's [String] (which is its UTF-8 encoding)
    are all lists of bytes. *)

Abbreviation bytes := (list byte).

#[global] Instance byte_eq_dec : EqDecision byte := Byte.byte_eq_dec.

#[global] Program Instance byte_countable : Countable byte :=
  inj_countable Byte.to_N Byte.of_N _.
Next Obligation. apply Byte.of_to_N. Qed.

(** [b"..."] and ["...".to_string()] of the sources. *)
Definition bs (s : string) : bytes := String.list_byte_of_string s.
Arguments bs _%_string_scope.

(** The numeric value of a byte and the byte of a value ([x as u8]). *)
Definition u8 (b : byte) : Z := Z.of_N (Byte.to_N b).
Definition as_u8 (z : Z) : byte := default x00 (Byte.of_N (Z.to_N (z mod 256))).

Lemma u8_range b : 0 <= u8 b < 256.
Proof. unfold u8. pose proof (Byte.to_N_bounded b). lia. Qed.

Lemma as_u8_u8 b : as_u8 (u8 b) = b.
Proof.
  unfold as_u8. rewrite Z.mod_small by apply u8_range.
  unfold u8. by rewrite N2Z.id, Byte.of_to_N.
Qed.

Lemma u8_as_u8 z : u8 (as_u8 z) = z mod 256.
Proof.
  unfold as_u8. pose proof (Z.mod_pos_bound z 256 ltac:(lia)) as Hz.
  destruct (Byte.of_N (Z.to_N (z mod 256))) as [b|] eqn:E; simpl.
  - apply Byte.to_of_N in E. unfold u8. rewrite E. lia.
  - apply Byte.of_N_None_iff in E. lia.
Qed.

Lemma u8_inj a b : u8 a = u8 b -> a = b.
Proof. intros H. by rewrite <- (as_u8_u8 a), H, as_u8_u8. Qed.

(** ** Results

    A [Result<T, String>] of the sources, with one more outcome: [Panic] is a
    thread panic.  The release profile sets [panic = "abort"], so a panic ends
    the process. *)

Inductive res (A : Type) : Type :=
| Ok (a : A)
| Err (e : bytes)
| Panic.
Arguments Ok {A} a.
Arguments Err {A} e.
Arguments Panic {A}.

#[global] Instance res_ret : MRet res := fun _ a => Ok a.
#[global] Instance res_bind : MBind res := fun _ _ f m =>
  match m with Ok a => f a | Err e => Err e | Panic => Panic end.

(** [Option::ok_or]. *)
Definition ok_or {A} (e : bytes) (o : option A) : res A :=
  match o with Some a => Ok a | None => Err e end.

(** [iter.map(f).collect::<Result<Vec<_>, _>>()]. *)
Fixpoint collect {A B} (f : A -> res B) (l : list A) : res (list B) :=
  match l with
  | [] => Ok []
  | x :: l => y ← f x; ys ← collect f l; Ok (y :: ys)
  end.

Definition is_ok {A} (r : res A) : bool :=
  match r with Ok _ => true | _ => false end.

#[global] Instance res_eq_dec {A} `{EqDecision A} : EqDecision (res A).
Proof. solve_decision. Defined.

(** ** Machine integers

    A w-bit integer is a [Z]; the release profile compiles [+], [-] and
    negation without overflow checks, so they wrap around. *)

Definition i64_min : Z := - 2 ^ 63.
Definition i64_max : Z := 2 ^ 63 - 1.
Definition u32_max : Z := 2 ^ 32 - 1.
Definition u64_max : Z := 2 ^ 64 - 1.
Definition usize_max : Z := u64_max.
Definition isize_max : Z := i64_max.

Definition in_i64 (z : Z) : bool := (i64_min <=? z) && (z <=? i64_max).
Definition in_u64 (z : Z) : bool := (0 <=? z) && (z <=? u64_max).
Definition in_u32 (z : Z) : bool := (0 <=? z) && (z <=? u32_max).

Definition wrap_i64 (z : Z) : Z := (z + 2 ^ 63) mod 2 ^ 64 - 2 ^ 63.
Definition wrap_u64 (z : Z) : Z := z mod 2 ^ 64.
(** [x as usize] and [x as u32]. *)
Definition as_usize (z : Z) : Z := z mod 2 ^ 64.
Definition as_u32 (z : Z) : Z := z mod 2 ^ 32.

(** [i64::checked_add]. *)
Definition checked_add_i64 (a b : Z) : option Z :=
  if in_i64 (a + b) then Some (a + b) else None.

(** [u64::try_from(i64)]. *)
Definition u64_try_from (z : Z) : option Z := if 0 <=? z then Some z else None.

(** A length as an integer. *)
Definition len {A} (l : list A) : Z := Z.of_nat (length l).

Lemma in_i64_spec z : in_i64 z = true <-> i64_min <= z <= i64_max.
Proof. unfold in_i64. rewrite andb_true_iff, !Z.leb_le. tauto. Qed.

Lemma in_u64_spec z : in_u64 z = true <-> 0 <= z <= u64_max.
Proof. unfold in_u64. rewrite andb_true_iff, !Z.leb_le. tauto. Qed.

Lemma in_u32_spec z : in_u32 z = true <-> 0 <= z <= u32_max.
Proof. unfold in_u32. rewrite andb_true_iff, !Z.leb_le. tauto. Qed.

Lemma wrap_i64_range z : i64_min <= wrap_i64 z <= i64_max.
Proof.
  unfold wrap_i64, i64_min, i64_max.
  pose proof (Z.mod_pos_bound (z + 2 ^ 63) (2 ^ 64) ltac:(lia)). lia.
Qed.

Lemma wrap_i64_id z : i64_min <= z <= i64_max -> wrap_i64 z = z.
Proof. unfold wrap_i64, i64_min, i64_max. intros. rewrite Z.mod_small; lia. Qed.

Lemma as_usize_id z : 0 <= z <= usize_max -> as_usize z = z.
Proof. unfold as_usize, usize_max, u64_max. intros. apply Z.mod_small. lia. Qed.

Lemma len_nonneg {A} (l : list A) : 0 <= len l.
Proof. unfold len. lia. Qed.

Lemma len_cons {A} (x : A) l : len (x :: l) = 1 + len l.
Proof. unfold len. simpl. lia. Qed.

Lemma len_app {A} (l k : list A) : len (l ++ k) = len l + len k.
Proof. unfold len. rewrite length_app. lia. Qed.

(** ** Proof automation *)

Create HintDb ferric.
Create Rewrite HintDb ferric.
#[export] Hint Resolve u8_range wrap_i64_range len_nonneg : ferric.
#[export] Hint Rewrite @len_cons @len_app as_u8_u8 : ferric.

(** Unfold the widths, so that [lia] sees numerals. *)
Ltac widths :=
  unfold isize_max, usize_max, in_i64, in_u64, in_u32 in *;
  unfold i64_min, i64_max, u32_max, u64_max in *.

(** Case analysis on the scrutinee of a [match] or [if] of the goal. *)
Ltac case_goal :=
  match goal with
  | |- context [match ?x with _ => _ end] =>
      let E := fresh "E" in destruct x eqn:E
  end.
Ltac case_hyp H :=
  match type of H with
  | context [match ?x with _ => _ end] =>
      let E := fresh "E" in destruct x eqn:E
  end.

(** Inversion of a successful [x ← m; k]. *)
Lemma bind_Ok {A B} (m : res A) (f : A -> res B) b :
  (x ← m; f x) = Ok b <-> exists a, m = Ok a /\ f a = Ok b.
Proof. destruct m; simpl; split; naive_solver. Qed.

Ltac inv_bind H :=
  apply bind_Ok in H;
  let a := fresh "a" in let Ha := fresh "Ha" in destruct H as (a & Ha & H).

(** ** Lists *)

Lemma collect_Ok {A B} (f : A -> res B) l k :
  collect f l = Ok k <-> Forall2 (fun x y => f x = Ok y) l k.
Proof.
  revert k; induction l as [|x l IH]; intros k; simpl.
  - split; [intros [= <-]; constructor | inversion 1; done].
  - split.
    + intros H. inv_bind H. inv_bind H. injection H as <-.
      constructor; [done | by apply IH].
    + inversion 1 as [|x' y l' k' Hy Hk]; subst. rewrite Hy. simpl.
      apply IH in Hk. by rewrite Hk.
Qed.

Lemma collect_map {A B C} (g : A -> B) (f : B -> res C) (h : A -> C) l :
  (forall x, f (g x) = Ok (h x)) -> collect f (map g l) = Ok (map h l).
Proof.
  intros Hf. induction l as [|x l IH]; simpl; [done|].
  by rewrite Hf; simpl; rewrite IH.
Qed.

Lemma Forall_filter {A} (P Q : A -> Prop) `{!forall x, Decision (Q x)} l :
  Forall P l -> Forall P (filter Q l).
Proof.
  rewrite !Forall_forall. intros HP x Hx. apply list_elem_of_filter in Hx as [_ Hx]. by apply HP.
Qed.

Lemma filter_none {A} (P : A -> Prop) `{!forall x, Decision (P x)} l :
  (forall x, x ∈ l -> ~ P x) -> filter P l = [].
Proof.
  induction l as [|x l IH]; intros HP; [done|].
  rewrite filter_cons_False by (apply HP; constructor).
  apply IH. intros y Hy. apply HP. by constructor.
Qed.

(** ** Maps *)

Lemma map_to_list_union {V} (t u : gmap bytes V) : t ##ₘ u ->
  map_to_list (t ∪ u) ≡ₚ map_to_list t ++ map_to_list u.
Proof.
  intros Hd. apply NoDup_Permutation; [apply NoDup_map_to_list | |].
  - apply NoDup_app. split; [apply NoDup_map_to_list|]. split; [|apply NoDup_map_to_list].
    intros [k v] Ht Hu. apply elem_of_map_to_list in Ht, Hu.
    by eapply map_disjoint_spec in Hd.
  - intros [k v]. rewrite elem_of_app, !elem_of_map_to_list. by apply lookup_union_Some.
Qed.
