(* ===== verification/Text.v ===== *)
(** * Text: what the sources use of [str] and [String]

    ASCII case mapping, [String::from_utf8_lossy], and the decimal printing
    and parsing of integers ([i64::to_string], [str::parse::<i64>],
    [str::parse::<u64>]).  A Rust [String] is its UTF-8 encoding, a list of
    bytes. *)

From S2P Require Import Prelude.
#[local] Open Scope Z_scope.

(** ** ASCII case *)

Definition ascii_upper (b : byte) : byte :=
  if (97 <=? u8 b) && (u8 b <=? 122) then as_u8 (u8 b - 32) else b.
Definition ascii_lower (b : byte) : byte :=
  if (65 <=? u8 b) && (u8 b <=? 90) then as_u8 (u8 b + 32) else b.

Definition to_ascii_uppercase (s : bytes) : bytes := map ascii_upper s.
Definition to_ascii_lowercase (s : bytes) : bytes := map ascii_lower s.
Definition eq_ignore_ascii_case (s t : bytes) : bool :=
  bool_decide (to_ascii_lowercase s = to_ascii_lowercase t).

(** ** UTF-8

    [utf8_step (b :: r)] is one step of the decoder behind
    [String::from_utf8_lossy] ([core::str::lossy::Utf8Chunks]): [(true, n)]
    when the first [n] bytes are a scalar value, [(false, n)] when they are a
    maximal ill-formed prefix, which the lossy conversion replaces by U+FFFD. *)

Definition is_cont (b : byte) : bool := (128 <=? u8 b) && (u8 b <=? 191).

Definition ok_second3 (c : Z) (b : byte) : bool :=
  let lo := if c =? 224 then 160 else 128 in
  let hi := if c =? 237 then 159 else 191 in
  (lo <=? u8 b) && (u8 b <=? hi).

Definition ok_second4 (c : Z) (b : byte) : bool :=
  let lo := if c =? 240 then 144 else 128 in
  let hi := if c =? 244 then 143 else 191 in
  (lo <=? u8 b) && (u8 b <=? hi).

Definition utf8_step (b0 : byte) (r : bytes) : bool * nat :=
  let c := u8 b0 in
  if c <? 128 then (true, 1%nat)
  else if (194 <=? c) && (c <=? 223) then
    match r with
    | b1 :: _ => if is_cont b1 then (true, 2%nat) else (false, 1%nat)
    | [] => (false, 1%nat)
    end
  else if (224 <=? c) && (c <=? 239) then
    match r with
    | b1 :: r1 =>
        if ok_second3 c b1 then
          match r1 with
          | b2 :: _ => if is_cont b2 then (true, 3%nat) else (false, 2%nat)
          | [] => (false, 2%nat)
          end
        else (false, 1%nat)
    | [] => (false, 1%nat)
    end
  else if (240 <=? c) && (c <=? 244) then
    match r with
    | b1 :: r1 =>
        if ok_second4 c b1 then
          match r1 with
          | b2 :: r2 =>
              if is_cont b2 then
                match r2 with
                | b3 :: _ => if is_cont b3 then (true, 4%nat) else (false, 3%nat)
                | [] => (false, 3%nat)
                end
              else (false, 2%nat)
          | [] => (false, 2%nat)
          end
        else (false, 1%nat)
    | [] => (false, 1%nat)
    end
  else (false, 1%nat).

Definition replacement_char : bytes := [xef; xbf; xbd].

Fixpoint utf8_lossy (fuel : nat) (l : bytes) : bytes :=
  match fuel, l with
  | S fuel, b :: r =>
      let '(ok, n) := utf8_step b r in
      (if ok then take n l else replacement_char) ++ utf8_lossy fuel (drop n l)
  | _, _ => []
  end.

(** Every step consumes a byte, so the length is enough fuel. *)
Definition from_utf8_lossy (l : bytes) : bytes := utf8_lossy (length l) l.

Fixpoint utf8_check (fuel : nat) (l : bytes) : bool :=
  match fuel, l with
  | _, [] => true
  | S fuel, b :: r =>
      let '(ok, n) := utf8_step b r in ok && utf8_check fuel (drop n l)
  | O, _ => false
  end.

(** What every Rust [String] satisfies. *)
Definition utf8_valid (l : bytes) : bool := utf8_check (length l) l.

Definition is_ascii (l : bytes) : bool := forallb (fun b => u8 b <? 128) l.

Lemma utf8_step_pos b r : (1 <= snd (utf8_step b r))%nat.
Proof. unfold utf8_step. repeat case_match; simpl; lia. Qed.

Lemma from_utf8_lossy_valid l : utf8_valid l = true -> from_utf8_lossy l = l.
Proof.
  unfold utf8_valid, from_utf8_lossy. generalize (length l) as fuel. intros fuel.
  revert l; induction fuel as [|fuel IH]; intros [|b r]; simpl; try done.
  destruct (utf8_step b r) as [ok n] eqn:E. intros [-> H]%andb_true_iff.
  rewrite IH by done. apply take_drop.
Qed.

Lemma utf8_check_ascii fuel l :
  (length l <= fuel)%nat -> is_ascii l = true -> utf8_check fuel l = true.
Proof.
  revert l; induction fuel as [|fuel IH]; intros [|b r]; simpl; try done; try lia.
  intros Hl [Hb Hr]%andb_true_iff. unfold utf8_step. rewrite Hb. simpl.
  rewrite drop_0. apply IH; [lia | done].
Qed.

Lemma is_ascii_valid l : is_ascii l = true -> utf8_valid l = true.
Proof. by apply utf8_check_ascii. Qed.

Lemma from_utf8_lossy_ascii l : is_ascii l = true -> from_utf8_lossy l = l.
Proof. auto using from_utf8_lossy_valid, is_ascii_valid. Qed.

#[export] Hint Resolve is_ascii_valid from_utf8_lossy_ascii : ferric.

(** ** Integers in decimal *)

Definition digit_byte (d : Z) : byte := as_u8 (48 + d).
Definition byte_digit (b : byte) : option Z :=
  if (48 <=? u8 b) && (u8 b <=? 57) then Some (u8 b - 48) else None.
Definition is_digit (b : byte) : bool := (48 <=? u8 b) && (u8 b <=? 57).

Fixpoint parse_digits (acc : Z) (l : bytes) : option Z :=
  match l with
  | [] => Some acc
  | c :: l =>
      match byte_digit c with
      | Some d => parse_digits (acc * 10 + d) l
      | None => None
      end
  end.

(** One digit at least. *)
Definition parse_unsigned (l : bytes) : option Z :=
  match l with [] => None | _ :: _ => parse_digits 0 l end.

Definition in_range (ok : Z -> bool) (o : option Z) : option Z :=
  match o with Some z => if ok z then Some z else None | None => None end.

(** [str::parse::<i64>]: an optional sign, digits, and the range. *)
Definition parse_i64 (s : bytes) : option Z :=
  in_range in_i64
    match s with
    | x2b :: r => parse_unsigned r
    | x2d :: r => Z.opp <$> parse_unsigned r
    | _ => parse_unsigned s
    end.

(** [str::parse::<u64>]: a [-] is an invalid digit. *)
Definition parse_u64 (s : bytes) : option Z :=
  in_range in_u64
    match s with
    | x2b :: r => parse_unsigned r
    | _ => parse_unsigned s
    end.

Fixpoint digits (fuel : nat) (z : Z) (acc : bytes) : bytes :=
  match fuel with
  | O => acc
  | S fuel =>
      let acc := digit_byte (z mod 10) :: acc in
      if z <? 10 then acc else digits fuel (z / 10) acc
  end.

Definition show_nonneg (z : Z) : bytes := digits (S (Z.to_nat (Z.log2 z))) z [].

(** [ToString] of the integer types. *)
Definition show_int (z : Z) : bytes :=
  if z <? 0 then x2d :: show_nonneg (- z) else show_nonneg z.

Lemma byte_digit_digit_byte d : 0 <= d < 10 -> byte_digit (digit_byte d) = Some d.
Proof.
  intros Hd. unfold byte_digit, digit_byte. rewrite u8_as_u8, Z.mod_small by lia.
  replace (48 <=? 48 + d) with true by lia.
  replace (48 + d <=? 57) with true by lia. simpl. f_equal. lia.
Qed.

Lemma is_digit_digit_byte d : 0 <= d < 10 -> is_digit (digit_byte d) = true.
Proof.
  intros Hd. unfold is_digit, digit_byte. rewrite u8_as_u8, Z.mod_small by lia. lia.
Qed.

Lemma digits_spec fuel z acc :
  0 <= z < 10 ^ Z.of_nat fuel -> (0 < fuel)%nat ->
  exists d ds, digits fuel z acc = (d :: ds) ++ acc
    /\ Forall (fun b => is_digit b = true) (d :: ds)
    /\ forall a k, parse_digits a ((d :: ds) ++ k) =
         parse_digits (a * 10 ^ len (d :: ds) + z) k.
Proof.
  revert z acc; induction fuel as [|fuel IH]; intros z acc Hz Hf; [lia|]. simpl digits.
  pose proof (Z.mod_pos_bound z 10 ltac:(lia)) as Hm.
  destruct (z <? 10) eqn:E.
  - exists (digit_byte (z mod 10)), []. split; [done|]. split.
    + constructor; [by apply is_digit_digit_byte | constructor].
    + intros a k. simpl. rewrite byte_digit_digit_byte by done.
      rewrite Z.mod_small by lia. done.
  - rewrite Nat2Z.inj_succ, Z.pow_succ_r in Hz by lia.
    destruct (IH (z / 10) (digit_byte (z mod 10) :: acc)) as (d & ds & Heq & Hd & Hp).
    + split; [apply Z.div_pos; lia | apply Z.div_lt_upper_bound; lia].
    + destruct fuel; simpl in Hz; lia.
    + exists d, (ds ++ [digit_byte (z mod 10)]). split; [|split].
      * rewrite Heq. simpl. by rewrite <- app_assoc.
      * rewrite app_comm_cons. apply Forall_app. split; [done|].
        constructor; [by apply is_digit_digit_byte | constructor].
      * intros a k.
        replace ((d :: ds ++ [digit_byte (z mod 10)]) ++ k)
          with ((d :: ds) ++ digit_byte (z mod 10) :: k)
          by (simpl; by rewrite <- app_assoc).
        rewrite Hp. simpl. rewrite byte_digit_digit_byte by done. f_equal.
        rewrite !len_cons, len_app, len_cons. change (len []) with 0.
        replace (1 + (len ds + (1 + 0))) with (Z.succ (1 + len ds)) by lia.
        rewrite Z.pow_succ_r by (pose proof (len_nonneg ds); lia).
        pose proof (Z_div_mod_eq_full z 10). lia.
Qed.

Lemma show_nonneg_spec z : 0 <= z ->
  exists d ds, show_nonneg z = d :: ds
    /\ Forall (fun b => is_digit b = true) (d :: ds)
    /\ parse_digits 0 (d :: ds) = Some z.
Proof.
  intros Hz. unfold show_nonneg.
  destruct (digits_spec (S (Z.to_nat (Z.log2 z))) z []) as (d & ds & Heq & Hd & Hp).
  - split; [done|]. rewrite Nat2Z.inj_succ, Z2Nat.id by apply Z.log2_nonneg.
    destruct (Z.eq_dec z 0) as [->|]; [done|].
    pose proof (Z.log2_spec z ltac:(lia)) as [_ Hlt].
    eapply Z.lt_le_trans; [exact Hlt|].
    apply Z.pow_le_mono_l. lia.
  - lia.
  - exists d, ds. rewrite Heq, app_nil_r. split; [done|]. split; [done|].
    specialize (Hp 0 []). rewrite app_nil_r in Hp. rewrite Hp. simpl.
    f_equal.
Qed.

Lemma digit_not_sign d : is_digit d = true -> d <> x2b /\ d <> x2d.
Proof. intros H; split; intros ->; done. Qed.

Lemma parse_unsigned_show z : 0 <= z -> parse_unsigned (show_nonneg z) = Some z.
Proof. intros Hz. destruct (show_nonneg_spec z Hz) as (d & ds & -> & _ & Hp). done. Qed.

Lemma parse_signed_show z f : 0 <= z ->
  match show_nonneg z with
  | x2b :: r => parse_unsigned r
  | x2d :: r => f <$> parse_unsigned r
  | _ => parse_unsigned (show_nonneg z)
  end = Some z.
Proof.
  intros Hz. pose proof (parse_unsigned_show z Hz) as Hp.
  destruct (show_nonneg_spec z Hz) as (d & ds & E & Hd & _). rewrite E in *.
  inversion Hd as [|? ? Hdd _]. by destruct (digit_not_sign d Hdd); destruct d.
Qed.

Lemma parse_i64_show z : in_i64 z = true -> parse_i64 (show_int z) = Some z.
Proof.
  intros Hz. unfold parse_i64, show_int. destruct (z <? 0) eqn:E.
  - rewrite parse_unsigned_show by lia. simpl. rewrite Z.opp_involutive, Hz. done.
  - rewrite parse_signed_show by lia. simpl. by rewrite Hz.
Qed.

Lemma parse_u64_show z : in_u64 z = true -> parse_u64 (show_int z) = Some z.
Proof.
  intros Hz. pose proof Hz as Hb. apply in_u64_spec in Hb.
  unfold parse_u64, show_int. replace (z <? 0) with false by lia.
  pose proof (parse_signed_show z Z.opp ltac:(lia)) as Hs.
  destruct (show_nonneg_spec z ltac:(lia)) as (d & ds & E & Hd & _). rewrite E in *.
  inversion Hd as [|? ? Hdd _]. destruct (digit_not_sign d Hdd).
  destruct d; try congruence; simpl in *; rewrite Hs; simpl; by rewrite ?Hz.
Qed.

Lemma parse_i64_range s z : parse_i64 s = Some z -> i64_min <= z <= i64_max.
Proof.
  unfold parse_i64, in_range. intros H. repeat case_match; simplify_eq;
    by apply in_i64_spec.
Qed.

(** Printed integers are ASCII, hence valid UTF-8. *)
Lemma is_ascii_digits l : Forall (fun b => is_digit b = true) l -> is_ascii l = true.
Proof.
  induction 1 as [|b l Hb _ IH]; [done|]. simpl. unfold is_digit in Hb.
  rewrite IH. lia.
Qed.

Lemma show_int_ascii z : is_ascii (show_int z) = true.
Proof.
  unfold show_int. destruct (z <? 0) eqn:E.
  - destruct (show_nonneg_spec (- z)) as (d & ds & -> & Hd & _); [lia|].
    simpl. by apply (is_ascii_digits (d :: ds)).
  - destruct (show_nonneg_spec z) as (d & ds & -> & Hd & _); [lia|].
    by apply is_ascii_digits.
Qed.

Lemma show_int_lossy z : from_utf8_lossy (show_int z) = show_int z.
Proof. apply from_utf8_lossy_ascii, show_int_ascii. Qed.

#[export] Hint Resolve show_int_ascii : ferric.
#[export] Hint Rewrite show_int_lossy : ferric.

Lemma length_digits fuel z acc : (length (digits fuel z acc) <= fuel + length acc)%nat.
Proof.
  revert z acc. induction fuel as [|fuel IH]; intros z acc; simpl; [lia|].
  case_match; simpl; [lia|]. etrans; [apply IH|]. simpl. lia.
Qed.

Lemma length_show_u32 z : in_u32 z = true -> len (show_int z) <= 33.
Proof.
  intros Hz%in_u32_spec. unfold show_int. replace (z <? 0) with false by lia.
  unfold show_nonneg, len. pose proof (length_digits (S (Z.to_nat (Z.log2 z))) z []) as Hl.
  pose proof (Z.log2_nonneg z). assert (Z.log2 z <= 32); [|change (length []) with 0%nat in Hl; lia].
  apply (Z.log2_le_mono z (2 ^ 32)). widths. lia.
Qed.

(** ** Case mapping of any text

    [str::to_uppercase] and [str::to_lowercase] map every character by the
    tables of Unicode; on ASCII text they are the ASCII mappings. *)

Class UnicodeCase := {
  to_uppercase : bytes -> bytes;
  to_lowercase : bytes -> bytes;
  to_uppercase_ascii : forall s, is_ascii s = true -> to_uppercase s = to_ascii_uppercase s;
  to_lowercase_ascii : forall s, is_ascii s = true -> to_lowercase s = to_ascii_lowercase s;
}.

(** To evaluate examples with. *)
#[export] Program Instance ascii_case : UnicodeCase := {|
  to_uppercase := to_ascii_uppercase; to_lowercase := to_ascii_lowercase |}.
Solve All Obligations with done.
