(* ===== verification/External.v ===== *)
(** * External: what the code relies on and does not define

    Third-party crates and unspecified behaviour of the standard library are
    type classes: their operations are arguments of every definition that uses
    them, their laws are documented behaviour.  Each class has an instance, so
    that the theorems stated over it can be applied.  An instance of
    [HashOrder] and [Rng] is what one operation meets: the standard library
    seeds every table anew and random numbers differ from call to call, so the
    operations of a history, of a replay and of a replica each have their own.

    - [Xxh3]: [xxhash_rust::xxh3::xxh3_64];
    - [HashOrder]: the iteration order of [HashMap] and [HashSet], which the
      standard library leaves unspecified;
    - [Rng]: the random choices of the [rand] crate;
    - [Layout]: the sizes of types whose layout the compiler chooses, which
      decide when [Vec::with_capacity] panics. *)

From S2P Require Import Prelude.
#[local] Open Scope Z_scope.

(** ** Hashing *)

Class Xxh3 := {
  xxh3_64 : bytes -> Z;
  xxh3_64_range : forall k, 0 <= xxh3_64 k <= u64_max;
}.

(** A 64-bit hash to evaluate examples with: FNV-1a. *)
Definition fnv1a (k : bytes) : Z :=
  fold_left (fun h b => (Z.lxor h (u8 b) * 1099511628211) mod 2 ^ 64) k
    14695981039346656037.

#[export] Program Instance fnv_hash : Xxh3 := {| xxh3_64 := fun k => fnv1a k mod 2 ^ 64 |}.
Next Obligation.
  intros k. simpl. pose proof (Z.mod_pos_bound (fnv1a k) (2 ^ 64) ltac:(lia)). widths. lia.
Qed.

(** ** Iteration order of hash tables *)

Class HashOrder := {
  hm_iter : forall V, gmap bytes V -> list (bytes * V);
  hm_iter_perm : forall V (m : gmap bytes V), hm_iter V m ≡ₚ map_to_list m;
  hs_iter : gset bytes -> list bytes;
  hs_iter_perm : forall s : gset bytes, hs_iter s ≡ₚ elements s;
}.
Arguments hm_iter {_ _} m.
Arguments hm_iter_perm {_ _} m.

Program Definition default_order : HashOrder :=
  {| hm_iter := fun _ m => map_to_list m; hs_iter := fun s => elements s |}.
Solve All Obligations with done.

Section hash_order.
Context `{HashOrder}.

Lemma elem_of_hm_iter {V} (m : gmap bytes V) k v :
  (k, v) ∈ hm_iter m <-> m !! k = Some v.
Proof. rewrite hm_iter_perm. apply elem_of_map_to_list. Qed.

Lemma length_hm_iter {V} (m : gmap bytes V) : length (hm_iter m) = size m.
Proof. rewrite hm_iter_perm. apply length_map_to_list. Qed.

Lemma NoDup_hm_iter_keys {V} (m : gmap bytes V) : NoDup (hm_iter m).*1.
Proof. rewrite hm_iter_perm. apply NoDup_fst_map_to_list. Qed.

Lemma elem_of_hs_iter (s : gset bytes) x : x ∈ hs_iter s <-> x ∈ s.
Proof. rewrite hs_iter_perm. apply elem_of_elements. Qed.

Lemma NoDup_hs_iter (s : gset bytes) : NoDup (hs_iter s).
Proof. rewrite hs_iter_perm. apply NoDup_elements. Qed.

Lemma length_hs_iter (s : gset bytes) : length (hs_iter s) = size s.
Proof. rewrite hs_iter_perm. done. Qed.

Lemma list_to_map_hm_iter {V} (m : gmap bytes V) : list_to_map (hm_iter m) = m.
Proof.
  etrans; [|apply list_to_map_to_list].
  apply list_to_map_proper; [apply NoDup_hm_iter_keys | apply hm_iter_perm].
Qed.

Lemma list_to_set_hs_iter (s : gset bytes) : list_to_set (hs_iter s) = s.
Proof. apply set_eq. intros x. rewrite elem_of_list_to_set. apply elem_of_hs_iter. Qed.
End hash_order.

(** ** Random choices

    [sample n k] is [rand::seq::index::sample(rng, n, k)], the indices
    [SliceRandom::choose_multiple] picks for an amount already capped by the
    length; [gen_index i n] is the index of the [i]-th [choose] of an
    operation; [shuffled n] is [0..n] after [shuffle]. *)

Class Rng := {
  sample : nat -> nat -> list nat;
  sample_NoDup : forall n k, NoDup (sample n k);
  sample_lt : forall n k i, (i ∈ sample n k -> i < n)%nat;
  sample_length : forall n k, (k <= n)%nat -> length (sample n k) = k;
  gen_index : nat -> nat -> nat;
  gen_index_lt : forall i n, (0 < n -> gen_index i n < n)%nat;
  shuffled : nat -> list nat;
  shuffled_perm : forall n, shuffled n ≡ₚ seq 0 n;
}.

Definition first_choice : Rng.
Proof.
  refine {|
    sample := fun n k => seq 0 (Nat.min k n);
    gen_index := fun _ _ => 0%nat;
    shuffled := fun n => seq 0 n;
  |}; intros.
  - apply NoDup_seq.
  - match goal with H : _ ∈ seq _ _ |- _ => apply elem_of_seq in H end. lia.
  - rewrite length_seq. lia.
  - done.
  - done.
Defined.

(** The elements [choose_multiple(&mut rng, amount)] yields. *)
Definition choose_multiple `{Rng} {A} (l : list A) (amount : Z) : list A :=
  omap (fun i => l !! i) (sample (length l) (Z.to_nat (Z.min amount (len l)))).

(** The [i]-th [choose(&mut rng)] of an operation. *)
Definition choose `{Rng} {A} (i : nat) (l : list A) : option A :=
  l !! gen_index i (length l).

Lemma elem_of_choose_multiple `{Rng} {A} (l : list A) n x :
  x ∈ choose_multiple l n -> x ∈ l.
Proof.
  unfold choose_multiple. rewrite list_elem_of_omap. intros (i & _ & Hi).
  by eapply list_elem_of_lookup_2.
Qed.

Lemma length_choose_multiple `{Rng} {A} (l : list A) n :
  0 <= n -> len (choose_multiple l n) = Z.min n (len l).
Proof.
  intros Hn. unfold choose_multiple.
  set (k := Z.to_nat (Z.min n (len l))).
  assert (Hk : (k <= length l)%nat) by (unfold k, len; lia).
  rewrite <- (Z2Nat.id (Z.min n (len l))) by (unfold len; lia). fold k.
  rewrite <- (sample_length (length l) k Hk) at 2. unfold len. f_equal.
  pose proof (sample_lt (length l) k) as Hlt.
  induction (sample (length l) k) as [|i js IH]; [done|]. simpl.
  destruct (lookup_lt_is_Some_2 l i) as [x ->].
  { apply Hlt. constructor. }
  simpl. f_equal. apply IH. intros j Hj. apply Hlt. by constructor.
Qed.

Lemma NoDup_choose_multiple `{Rng} {A} (l : list A) n :
  NoDup l -> NoDup (choose_multiple l n).
Proof.
  intros Hl. unfold choose_multiple.
  generalize (sample_NoDup (length l) (Z.to_nat (Z.min n (len l)))).
  induction (sample _ _) as [|i js IH]; intros Hs; simpl; [constructor|].
  apply NoDup_cons in Hs as [Hi Hs]. destruct (l !! i) as [x|] eqn:E; [|by apply IH].
  constructor; [|by apply IH]. rewrite list_elem_of_omap. intros (j & Hj & E').
  assert (i = j) as -> by exact (NoDup_lookup l i j x Hl E E'). done.
Qed.

(** To evaluate examples with. *)
Module Defaults.
#[export] Existing Instance default_order.
#[export] Existing Instance first_choice.
End Defaults.

(** ** Allocation

    [Vec::with_capacity(n)] panics with "capacity overflow" when [n] elements
    take more than [isize::MAX] bytes.  Smaller requests are taken to
    succeed. *)

Class Layout := {
  sizeof_RespValue : Z;
  sizeof_Bytes : Z;
  sizeof_Bytes_f64 : Z;
  sizeof_RespValue_pos : 1 < sizeof_RespValue;
  sizeof_RespValue_small : sizeof_RespValue <= 1024;
  sizeof_Bytes_pos : 1 < sizeof_Bytes;
  sizeof_Bytes_f64_pos : 1 < sizeof_Bytes_f64;
}.

#[export] Program Instance x86_64_layout : Layout := {|
  sizeof_RespValue := 40; sizeof_Bytes := 32; sizeof_Bytes_f64 := 40;
|}.
Solve All Obligations with (simpl; lia).

Definition with_capacity (size n : Z) : res unit :=
  if size * n <=? isize_max then Ok tt else Panic.
