(* ===== verification/Float64.v ===== *)
(** * Float64: [f64] as IEEE 754 binary64

    Scores and [INCRBYFLOAT] deltas are [f64].  The model is the Standard
    Library's [spec_float] at precision 53 and exponent bound 1024, which
    computes; NaN payloads are not distinguished.  Comparison, addition,
    decimal parsing ([str::parse::<f64>]: correctly rounded) and printing
    ([f64::to_string]: shortest digits that parse back, the closest of them,
    no exponent) follow the standard library. *)

From S2P Require Import Prelude Text.
From Stdlib Require Import Floats.SpecFloat.
#[local] Open Scope Z_scope.

Definition f64 : Type := spec_float.

#[global] Instance f64_eq_dec : EqDecision f64.
Proof. unfold f64. solve_decision. Defined.

Definition f64_zero : f64 := S754_zero false.
Definition f64_add (x y : f64) : f64 := SFadd 53 1024 x y.
(** [n as f64]. *)
Definition f64_of_Z (n : Z) : f64 := binary_normalize 53 1024 n 0 false.

Definition is_nan (x : f64) : bool := match x with S754_nan => true | _ => false end.
Definition is_finite (x : f64) : bool :=
  match x with S754_zero _ | S754_finite _ _ _ => true | _ => false end.

(** [PartialOrd for f64]: [None] when an operand is NaN. *)
Definition f64_partial_cmp (x y : f64) : option comparison := SFcompare x y.
Definition f64_lt (x y : f64) : bool :=
  match f64_partial_cmp x y with Some Lt => true | _ => false end.
Definition f64_eqb (x y : f64) : bool :=
  match f64_partial_cmp x y with Some Eq => true | _ => false end.

(** ** The order of the non-NaN values

    [frank] maps a non-NaN value to a triple whose lexicographic order is the
    comparison: the order is a total preorder in which [-0.0] and [0.0] are
    equivalent. *)

Definition frank (x : f64) : Z * Z * Z :=
  match x with
  | S754_infinity true => (-2, 0, 0)
  | S754_finite true m e => (-1, - e, - Zpos m)
  | S754_zero _ => (0, 0, 0)
  | S754_finite false m e => (1, e, Zpos m)
  | S754_infinity false => (2, 0, 0)
  | S754_nan => (3, 0, 0)
  end.

Definition lex3 (a b : Z * Z * Z) : comparison :=
  let '(a1, a2, a3) := a in
  let '(b1, b2, b3) := b in
  match a1 ?= b1 with Eq => match a2 ?= b2 with Eq => a3 ?= b3 | c => c end | c => c end.

Lemma partial_cmp_frank x y : is_nan x = false -> is_nan y = false ->
  f64_partial_cmp x y = Some (lex3 (frank x) (frank y)).
Proof.
  unfold f64_partial_cmp.
  destruct x as [sx|sx| |sx mx ex], y as [sy|sy| |sy my ey]; try done;
    intros _ _; destruct sx, sy; simpl; try done; f_equal.
  rewrite Z.compare_opp, (Z.compare_antisym ex ey). by destruct (ex ?= ey).
Qed.

Lemma lex3_Eq a b : lex3 a b = Eq <-> a = b.
Proof.
  destruct a as [[a1 a2] a3], b as [[b1 b2] b3]. simpl.
  destruct (Z.compare_spec a1 b1), (Z.compare_spec a2 b2); simplify_eq;
    split; intros; simplify_eq; try done; try lia; f_equal; try lia;
    try (apply Z.compare_eq_iff; done); by apply Z.compare_eq_iff.
Qed.

Lemma lex3_antisym a b : lex3 b a = CompOpp (lex3 a b).
Proof.
  destruct a as [[a1 a2] a3], b as [[b1 b2] b3]. simpl.
  rewrite (Z.compare_antisym a1), (Z.compare_antisym a2), (Z.compare_antisym a3).
  by destruct (a1 ?= b1), (a2 ?= b2).
Qed.

Lemma lex3_trans a b c : lex3 a b = Lt -> lex3 b c = Lt -> lex3 a c = Lt.
Proof.
  destruct a as [[a1 a2] a3], b as [[b1 b2] b3], c as [[c1 c2] c3]. simpl.
  destruct (Z.compare_spec a1 b1), (Z.compare_spec b1 c1), (Z.compare_spec a1 c1);
    try done; try lia; subst;
  destruct (Z.compare_spec a2 b2), (Z.compare_spec b2 c2), (Z.compare_spec a2 c2);
    try done; try lia; subst; rewrite !Z.compare_lt_iff; lia.
Qed.

(** ** Decimal to binary *)

(** [m * 10 ^ e10], correctly rounded.  Outside of the guarded range the value
    overflows or underflows, whatever [m]'s digits. *)
Definition f64_of_decimal (sx : bool) (m : Z) (ndigits e10 : Z) : f64 :=
  if m =? 0 then S754_zero sx
  else if 400 <? e10 + ndigits then S754_infinity sx
  else if e10 + ndigits <? -400 then S754_zero sx
  else if 0 <=? e10 then
    binary_normalize 53 1024 (cond_Zopp sx (m * 10 ^ e10)) 0 sx
  else
    let '(mz, ez, lz) := SFdiv_core_binary 53 1024 m 0 (10 ^ (- e10)) 0 in
    binary_round_aux 53 1024 sx mz ez lz.

Fixpoint span_digits (l : bytes) : bytes * bytes :=
  match l with
  | c :: r => if is_digit c then let '(ds, k) := span_digits r in (c :: ds, k) else ([], l)
  | [] => ([], [])
  end.

(** The exponent accumulates while it is below [0x10000], as in
    [core::num::dec2flt::parse::parse_scientific]. *)
Fixpoint exp_digits (acc : Z) (l : bytes) : Z :=
  match l with
  | c :: r => exp_digits (if acc <? 65536 then acc * 10 + (u8 c - 48) else acc) r
  | [] => acc
  end.

Definition parse_exponent (l : bytes) : option Z :=
  match l with
  | [] => Some 0
  | c :: r =>
      if (u8 c =? 101) || (u8 c =? 69) then
        let '(neg, ds) := match r with
          | x2d :: r => (true, r) | x2b :: r => (false, r) | _ => (false, r) end in
        match span_digits ds with
        | (d :: ds, []) =>
            let e := exp_digits 0 (d :: ds) in Some (if neg then - e else e)
        | _ => None
        end
      else None
  end.

Definition parse_f64_unsigned (sx : bool) (s : bytes) : option f64 :=
  let '(ip, r) := span_digits s in
  let '(fp, r) := match r with x2e :: r => span_digits r | _ => ([], r) end in
  match ip ++ fp, parse_digits 0 (ip ++ fp), parse_exponent r with
  | _ :: _, Some m, Some e =>
      Some (f64_of_decimal sx m (len (ip ++ fp)) (e - len fp))
  | _, _, _ =>
      let l := to_ascii_lowercase s in
      if bool_decide (l = bs "inf") || bool_decide (l = bs "infinity")
      then Some (S754_infinity sx)
      else if bool_decide (l = bs "nan") then Some S754_nan
      else None
  end.

Definition parse_f64 (s : bytes) : option f64 :=
  match s with
  | x2d :: r => parse_f64_unsigned true r
  | x2b :: r => parse_f64_unsigned false r
  | _ => parse_f64_unsigned false s
  end.

(** ** Binary to decimal *)

(** [floor (log10 (m * 2 ^ e))]. *)
Fixpoint neg_log10 (fuel : nat) (m d k : Z) : Z :=
  match fuel with
  | O => k
  | S fuel => if d <=? m then k else neg_log10 fuel (10 * m) d (k - 1)
  end.

Definition log10_floor (m e : Z) : Z :=
  let num := if 0 <=? e then m * 2 ^ e else m in
  let den := if 0 <=? e then 1 else 2 ^ (- e) in
  if den <=? num then len (show_nonneg (num / den)) - 1
  else neg_log10 400 num den 0.

(** The candidates of [n] digits below and above [x]; the first [n] at which
    one of them parses back to [x] is the shortest output. *)
Fixpoint shortest (fuel : nat) (x : f64) (m e e10 n : Z) : Z * Z :=
  let p := e10 - (n - 1) in
  let num := m * (if 0 <=? e then 2 ^ e else 1) * (if 0 <=? p then 1 else 10 ^ (- p)) in
  let den := (if 0 <=? e then 1 else 2 ^ (- e)) * (if 0 <=? p then 10 ^ p else 1) in
  let q := num / den in
  let r := num mod den in
  let back k := bool_decide (f64_of_decimal false k (len (show_nonneg k)) p = x) in
  let down := back q in
  let up := back (q + 1) in
  match fuel with
  | O => (q, p)
  | S fuel =>
      if down && up then (if den <=? 2 * r then q + 1 else q, p)
      else if down then (q, p)
      else if up then (q + 1, p)
      else shortest fuel x m e e10 (n + 1)
  end.

Fixpoint strip_zeros (fuel : nat) (q p : Z) : Z * Z :=
  match fuel with
  | O => (q, p)
  | S fuel => if (q mod 10 =? 0) && negb (q =? 0) then strip_zeros fuel (q / 10) (p + 1) else (q, p)
  end.

Definition zeros (n : Z) : bytes := replicate (Z.to_nat n) x30.

(** [flt2dec::digits_to_dec_str] with no minimal fraction. *)
Definition place_point (ds : bytes) (p : Z) : bytes :=
  if 0 <=? p then ds ++ zeros p
  else
    let k := len ds + p in
    if k <=? 0 then bs "0." ++ zeros (- k) ++ ds
    else take (Z.to_nat k) ds ++ bs "." ++ drop (Z.to_nat k) ds.

Definition f64_to_string (x : f64) : bytes :=
  match x with
  | S754_nan => bs "NaN"
  | S754_infinity s => if s then bs "-inf" else bs "inf"
  | S754_zero s => if s then bs "-0" else bs "0"
  | S754_finite s m e =>
      let x := S754_finite false m e in
      let '(q, p) := shortest 17 x (Zpos m) e (log10_floor (Zpos m) e) 1 in
      let '(q, p) := strip_zeros 20 q p in
      (if s then bs "-" else []) ++ place_point (show_nonneg q) p
  end.

Example f64_text_examples :
  map (fun s => f64_to_string <$> parse_f64 (bs s))
    ["0.1"; "1e21"; "-2.50"; "1e-7"; "100"; "9007199254740993"; "-0"; "nan";
     "1e999"; ".5"; "3."; "0.30000000000000004"; "1e23"; "."; "1e"; ""]%string
  = map (option_map bs)
    [Some "0.1"; Some "1000000000000000000000"; Some "-2.5"; Some "0.0000001";
     Some "100"; Some "9007199254740992"; Some "-0"; Some "NaN"; Some "inf";
     Some "0.5"; Some "3"; Some "0.30000000000000004";
     Some "100000000000000000000000"; None; None; None]%string.
Proof. vm_compute. reflexivity. Qed.

(** [f as i64]: towards zero, saturating, 0 for NaN. *)
Definition f64_as_i64 (x : f64) : Z :=
  match x with
  | S754_zero _ | S754_nan => 0
  | S754_infinity s => if s then i64_min else i64_max
  | S754_finite s m e =>
      let a := if 0 <=? e then Z.pos m * 2 ^ e else Z.pos m / 2 ^ (- e) in
      Z.max i64_min (Z.min i64_max (if s then - a else a))
  end.
