(* ===== verification/BTree.v ===== *)
(** * BTree: [std::collections::BTreeMap]

    An ordered map is the list of its entries in key order.  Keys are compared
    with the type's [Ord::cmp] only, so the laws are stated over a comparison
    function: [CmpLaws cmp P] says that [cmp] is a total preorder on the keys
    that satisfy [P].  [BTreeMap] leaves its behaviour unspecified when [cmp]
    is not one. *)

From S2P Require Import Prelude.
#[local] Open Scope Z_scope.

Section ops.
Context {K V : Type} (cmp : K -> K -> comparison).
Implicit Types (l : list (K * V)).

Fixpoint bt_get (k : K) (l : list (K * V)) : option V :=
  match l with
  | [] => None
  | (k', v) :: l => match cmp k k' with Eq => Some v | _ => bt_get k l end
  end.

(** [insert]: an equal key keeps the key that is stored. *)
Fixpoint bt_insert (k : K) (v : V) (l : list (K * V)) : list (K * V) :=
  match l with
  | [] => [(k, v)]
  | (k', v') :: l' =>
      match cmp k k' with
      | Lt => (k, v) :: l
      | Eq => (k', v) :: l'
      | Gt => (k', v') :: bt_insert k v l'
      end
  end.

Fixpoint bt_remove (k : K) (l : list (K * V)) : list (K * V) :=
  match l with
  | [] => []
  | (k', v') :: l' =>
      match cmp k k' with Eq => l' | _ => (k', v') :: bt_remove k l' end
  end.

(** [range(lo..)]. *)
Definition bt_range_from (lo : K) (l : list (K * V)) : list (K * V) :=
  filter (fun '(k, _) => cmp lo k <> Gt) l.

(** [range(lo..=hi)] panics when [lo > hi]. *)
Definition bt_range (lo hi : K) (l : list (K * V)) : res (list (K * V)) :=
  match cmp lo hi with
  | Gt => Panic
  | _ => Ok (filter (fun '(k, _) => cmp lo k <> Gt /\ cmp k hi <> Gt) l)
  end.

Definition bt_lt (a b : K * V) : Prop := cmp a.1 b.1 = Lt.
End ops.

(** ** Comparison functions *)

Class CmpLaws {K} (cmp : K -> K -> comparison) (P : K -> Prop) := {
  cmp_antisym : forall a b, P a -> P b -> cmp b a = CompOpp (cmp a b);
  cmp_Eq_trans : forall a b c, P a -> P b -> P c -> cmp a b = Eq -> cmp a c = cmp b c;
  cmp_Lt_trans : forall a b c, P a -> P b -> P c ->
    cmp a b = Lt -> cmp b c = Lt -> cmp a c = Lt;
}.

Section laws.
Context {K V : Type} (cmp : K -> K -> comparison) (P : K -> Prop) {C : CmpLaws cmp P}.
Implicit Types (l : list (K * V)).

Lemma cmp_refl a : P a -> cmp a a = Eq.
Proof. intros Ha. pose proof (cmp_antisym a a Ha Ha). by destruct (cmp a a). Qed.

Lemma cmp_Eq_sym a b : P a -> P b -> cmp a b = Eq -> cmp b a = Eq.
Proof. intros Ha Hb H. by rewrite (cmp_antisym a b), H. Qed.

Lemma cmp_Gt_Lt a b : P a -> P b -> cmp a b = Gt -> cmp b a = Lt.
Proof. intros Ha Hb H. by rewrite (cmp_antisym a b), H. Qed.

Lemma cmp_Eq_r a b c : P a -> P b -> P c -> cmp b c = Eq -> cmp a b = cmp a c.
Proof.
  intros Ha Hb Hc H. rewrite (cmp_antisym b a), (cmp_antisym c a) by done.
  by rewrite (cmp_Eq_trans b c a).
Qed.

(** Sorted entries whose keys are ordered by [cmp]. *)
Definition bt_wf (l : list (K * V)) : Prop :=
  Forall (fun e => P e.1) l /\ StronglySorted (bt_lt cmp) l.

Lemma bt_wf_nil : bt_wf [].
Proof. split; constructor. Qed.

Lemma bt_wf_cons k v l :
  bt_wf ((k, v) :: l) <->
  P k /\ Forall (fun e => P e.1 /\ cmp k e.1 = Lt) l /\ bt_wf l.
Proof.
  unfold bt_wf. rewrite Forall_cons, Forall_and. simpl. split.
  - intros [[Hk Hl] Hs]. inversion Hs; subst. done.
  - intros (Hk & [Hl Hlt] & _ & Hs). split; [done|]. by constructor.
Qed.

(** The keys above a bound stay above it. *)
Lemma bt_above_insert k0 k v l : P k0 ->
  P k -> cmp k0 k = Lt -> Forall (fun e => P e.1 /\ cmp k0 e.1 = Lt) l ->
  Forall (fun e => P e.1 /\ cmp k0 e.1 = Lt) (bt_insert cmp k v l).
Proof.
  intros Hk0 Hk Hlt. induction 1 as [|[k' v'] l [HP Hl] HF IH]; simpl.
  - by repeat constructor.
  - destruct (cmp k k') eqn:E; repeat constructor; done.
Qed.

Lemma bt_insert_wf k v l : P k -> bt_wf l -> bt_wf (bt_insert cmp k v l).
Proof.
  intros Hk. induction l as [|[k' v'] l IH]; simpl.
  - intros _. apply bt_wf_cons. split; [done|]. split; [constructor | apply bt_wf_nil].
  - intros (Hk' & HF & Hwf)%bt_wf_cons. destruct (cmp k k') eqn:E.
    + apply bt_wf_cons. done.
    + apply bt_wf_cons. split; [done|]. split; [|apply bt_wf_cons; done].
      constructor; [done|]. eapply Forall_impl; [exact HF|]. intros [k2 v2] [H2 Hlt]. simpl in *.
      split; [done|]. by apply (cmp_Lt_trans k k' k2).
    + apply bt_wf_cons. split; [done|]. split; [|by apply IH].
      apply bt_above_insert; try done. by apply cmp_Gt_Lt.
Qed.

Lemma bt_remove_wf k l : bt_wf l -> bt_wf (bt_remove cmp k l).
Proof.
  induction l as [|[k' v'] l IH]; simpl; [done|].
  intros (Hk' & HF & Hwf)%bt_wf_cons.
  destruct (cmp k k'); [done| |]; apply bt_wf_cons; (split; [done|]);
    (split; [|by apply IH]); clear -HF;
    induction HF as [|[k2 v2] l H2 HF IH]; simpl; try constructor;
    destruct (cmp k k2); try constructor; done.
Qed.

Lemma bt_filter_wf (Q : K * V -> Prop) `{!forall e, Decision (Q e)} l :
  bt_wf l -> bt_wf (filter Q l).
Proof.
  intros [HP HS]. split.
  - by apply Forall_filter.
  - induction HS as [|e k Hk IH HF]; [constructor|]. apply Forall_cons in HP as [_ HP].
    rewrite filter_cons. case_decide; [|by apply IH]. constructor; [by apply IH|].
    by apply Forall_filter.
Qed.

Lemma bt_get_above k l :
  Forall (fun e => P e.1 /\ cmp k e.1 = Lt) l -> bt_get cmp k l = None.
Proof.
  induction 1 as [|[k' v'] l [_ H] _ IH]; simpl in *; [done|]. by rewrite H.
Qed.

Lemma bt_get_insert j k v l : P j -> P k -> bt_wf l ->
  bt_get cmp j (bt_insert cmp k v l) =
  match cmp j k with Eq => Some v | _ => bt_get cmp j l end.
Proof.
  intros Hj Hk. induction l as [|[k' v'] l IH]; simpl; [done|].
  intros (Hk' & HF & Hwf)%bt_wf_cons. specialize (IH Hwf).
  destruct (cmp k k') eqn:E; simpl.
  - rewrite (cmp_Eq_r j k k') by done. by destruct (cmp j k').
  - done.
  - rewrite IH. destruct (cmp j k') eqn:E'; try done.
    rewrite (cmp_Eq_trans j k' k), (cmp_antisym k k'), E by done. done.
Qed.

Lemma bt_get_remove j k l : P j -> P k -> bt_wf l ->
  bt_get cmp j (bt_remove cmp k l) =
  match cmp j k with Eq => None | _ => bt_get cmp j l end.
Proof.
  intros Hj Hk. induction l as [|[k' v'] l IH]; simpl; [by destruct (cmp j k)|].
  intros (Hk' & HF & Hwf)%bt_wf_cons. specialize (IH Hwf).
  destruct (cmp k k') eqn:E; simpl.
  - rewrite <- (cmp_Eq_r j k k') by done. destruct (cmp j k) eqn:E'; try done.
    apply bt_get_above. eapply Forall_impl; [exact HF|].
    intros [k2 v2] [H2 Hlt]. simpl in *. split; [done|].
    by rewrite (cmp_Eq_trans j k k2), (cmp_Eq_trans k k' k2).
  - rewrite IH. destruct (cmp j k') eqn:E'; try done.
    rewrite (cmp_Eq_trans j k' k), (cmp_antisym k k'), E by done. done.
  - rewrite IH. destruct (cmp j k') eqn:E'; try done.
    rewrite (cmp_Eq_trans j k' k), (cmp_antisym k k'), E by done. done.
Qed.

Lemma bt_get_elem k v l : P k -> bt_wf l -> (k, v) ∈ l -> bt_get cmp k l = Some v.
Proof.
  intros Hk. induction l as [|[k' v'] l IH]; intros Hwf Hin.
  - by apply elem_of_nil in Hin.
  - apply bt_wf_cons in Hwf as (Hk' & HF & Hwf). simpl.
    apply elem_of_cons in Hin as [[= <- <-]|Hin].
    + by rewrite cmp_refl.
    + rewrite Forall_forall in HF. destruct (HF _ Hin) as [_ Hlt]. simpl in Hlt.
      rewrite (cmp_antisym k' k), Hlt by done. simpl. by apply IH.
Qed.

Lemma bt_get_Some k v l : bt_get cmp k l = Some v ->
  exists k', (k', v) ∈ l /\ cmp k k' = Eq.
Proof.
  induction l as [|[k' v'] l IH]; simpl; [done|].
  destruct (cmp k k') eqn:E.
  - intros [= <-]. exists k'. split; [constructor | done].
  - intros (k2 & ? & ?)%IH. exists k2. split; [by constructor | done].
  - intros (k2 & ? & ?)%IH. exists k2. split; [by constructor | done].
Qed.

(** Inserting above every key appends. *)
Lemma bt_insert_last k v l : Forall (fun e => cmp k e.1 = Gt) l ->
  bt_insert cmp k v l = l ++ [(k, v)].
Proof.
  induction 1 as [|[k' v'] l H _ IH]; simpl in *; [done|]. by rewrite H, IH.
Qed.
End laws.

#[export] Hint Resolve bt_wf_nil bt_insert_wf bt_remove_wf : ferric.
