(* ===== verification/Values.v ===== *)
(** * Values: the hash, list and set values

    [src/cache/src/data_structures/{hash,list,set}.rs], one Module per file.
    An [Instant] is a number of nanoseconds of the monotonic clock; the clock
    is read through a [now] argument, one reading per operation. *)

From S2P Require Import Prelude Text External.
#[local] Open Scope Z_scope.

(** ** Time *)

Definition ns_per_sec : Z := 1000000000.
Definition ns_per_ms : Z := 1000000.

(** The largest [Instant]: a signed 64-bit second and its nanoseconds. *)
Definition instant_max : Z := i64_max * ns_per_sec + 999999999.

(** [Instant + Duration] panics on overflow. *)
Definition instant_add (now d : Z) : res Z :=
  if now + d <=? instant_max then Ok (now + d) else Panic.

(** [slot.map_or(false, |e| Instant::now() > e)]. *)
Definition past (now : Z) (slot : option Z) : bool :=
  match slot with Some e => e <? now | None => false end.

(** ** Hash values *)

Module HashValue.
Record t := mk { fields : gmap bytes bytes; expires_at : option Z }.

Definition new : t := mk ∅ None.
Definition with_ttl (now ttl : Z) : res t := at' ← instant_add now ttl; Ok (mk ∅ (Some at')).
Definition set_field (field value : bytes) (h : t) : t * option bytes :=
  (mk (<[field := value]> (fields h)) (expires_at h), fields h !! field).
Definition get_field (field : bytes) (h : t) : option bytes := fields h !! field.
Definition delete_field (field : bytes) (h : t) : t * bool :=
  (mk (delete field (fields h)) (expires_at h), bool_decide (is_Some (fields h !! field))).
Definition get_all `{HashOrder} (h : t) : list (bytes * bytes) := hm_iter (fields h).
Definition len (h : t) : Z := Z.of_nat (size (fields h)).
Definition is_expired (now : Z) (h : t) : bool := past now (expires_at h).
End HashValue.

(** ** List values

    The [VecDeque] is the list of its elements, front first. *)

Module ListValue.
Record t := mk { items : list bytes; expires_at : option Z }.

Definition new : t := mk [] None.
Definition with_ttl (now ttl : Z) : res t := at' ← instant_add now ttl; Ok (mk [] (Some at')).
Definition push_left (v : bytes) (l : t) : t := mk (v :: items l) (expires_at l).
Definition push_right (v : bytes) (l : t) : t := mk (items l ++ [v]) (expires_at l).
Definition pop_left (l : t) : t * option bytes :=
  match items l with
  | [] => (l, None)
  | x :: r => (mk r (expires_at l), Some x)
  end.
Definition pop_right (l : t) : t * option bytes :=
  match rev (items l) with
  | [] => (l, None)
  | x :: r => (mk (rev r) (expires_at l), Some x)
  end.

(** The index arithmetic is on [i64]; only [stop + 1] can overflow. *)
Definition get_range (start stop : Z) (l : t) : list bytes :=
  let n := len (items l) in
  let start_idx :=
    if start <? 0 then Z.max (n + start) 0 else Z.max (Z.min start (n - 1)) 0 in
  let stop_idx :=
    if stop <? 0 then Z.max (n + stop + 1) 0
    else Z.max (Z.min (wrap_i64 (stop + 1)) n) 0 in
  if stop_idx <=? start_idx then []
  else take (Z.to_nat (stop_idx - start_idx)) (drop (Z.to_nat start_idx) (items l)).

Definition len (l : t) : Z := len (items l).
Definition is_expired (now : Z) (l : t) : bool := past now (expires_at l).
End ListValue.

(** ** Set values *)

Module SetValue.
Record t := mk { members : gset bytes; expires_at : option Z }.

Definition new : t := mk ∅ None.
Definition with_ttl (now ttl : Z) : res t := at' ← instant_add now ttl; Ok (mk ∅ (Some at')).
Definition add (m : bytes) (s : t) : t * bool :=
  (mk ({[m]} ∪ members s) (expires_at s), bool_decide (m ∉ members s)).
Definition remove (m : bytes) (s : t) : t * bool :=
  (mk (members s ∖ {[m]}) (expires_at s), bool_decide (m ∈ members s)).
Definition contains (m : bytes) (s : t) : bool := bool_decide (m ∈ members s).
Definition len (s : t) : Z := Z.of_nat (size (members s)).
Definition is_expired (now : Z) (s : t) : bool := past now (expires_at s).

Section iter.
Context `{HashOrder}.
Definition get_all (s : t) : list bytes := hs_iter (members s).
(** [HashSet::intersection] iterates over the smaller set. *)
Definition intersection (s o : t) : list bytes :=
  if (size (members s) <=? size (members o))%nat
  then filter (.∈ members o) (hs_iter (members s))
  else filter (.∈ members s) (hs_iter (members o)).
Definition difference (s o : t) : list bytes :=
  filter (.∉ members o) (hs_iter (members s)).
(** [HashSet::union] iterates over the larger set, then over the rest of the other. *)
Definition union (s o : t) : list bytes :=
  if (size (members o) <=? size (members s))%nat
  then hs_iter (members s) ++ difference o s
  else hs_iter (members o) ++ difference s o.
End iter.
End SetValue.

(** ** Lemmas: loops over sets *)

(** The set a loop of [add] builds. *)
Definition add_all (l : list bytes) (s : SetValue.t) : SetValue.t :=
  fold_left (fun s m => fst (SetValue.add m s)) l s.

Lemma add_all_members l s :
  SetValue.members (add_all l s) = list_to_set l ∪ SetValue.members s.
Proof.
  unfold add_all. revert s; induction l as [|x l IH]; intros s; simpl; [set_solver|].
  rewrite IH. simpl. set_solver.
Qed.

Lemma add_all_expires_at l s :
  SetValue.expires_at (add_all l s) = SetValue.expires_at s.
Proof. unfold add_all. revert s; induction l as [|x l IH]; intros s; simpl; [done|]. by rewrite IH. Qed.

Section set_lemmas.
Context `{HashOrder}.

Lemma intersection_members s o :
  list_to_set (SetValue.intersection s o) = SetValue.members s ∩ SetValue.members o.
Proof.
  unfold SetValue.intersection. apply set_eq. intros x. rewrite elem_of_list_to_set.
  case_match; rewrite list_elem_of_filter, elem_of_hs_iter; set_solver.
Qed.

Lemma difference_members s o :
  list_to_set (SetValue.difference s o) = SetValue.members s ∖ SetValue.members o.
Proof.
  unfold SetValue.difference. apply set_eq. intros x.
  rewrite elem_of_list_to_set, list_elem_of_filter, elem_of_hs_iter. set_solver.
Qed.

Lemma get_all_members s : list_to_set (SetValue.get_all s) = SetValue.members s.
Proof. apply list_to_set_hs_iter. Qed.
End set_lemmas.

(** ** Lemmas: list ranges *)

(** The elements between two indices, both included; negative indices count
    from the end.  What [LRANGE] means. *)
Definition range_spec (start stop : Z) (l : list bytes) : list bytes :=
  let n := len l in
  let s := Z.max 0 (if start <? 0 then n + start else start) in
  let e := if stop <? 0 then n + stop else stop in
  take (Z.to_nat (e + 1 - s)) (drop (Z.to_nat s) l).

Lemma get_range_in_bounds start stop l : stop < i64_max ->
  start < len (ListValue.items l) \/ ListValue.items l = [] ->
  ListValue.get_range start stop l = range_spec start stop (ListValue.items l).
Proof.
  intros Hstop Hstart. unfold ListValue.get_range, range_spec.
  set (n := len (ListValue.items l)) in *.
  assert (Hn : 0 <= n) by (unfold n; auto with ferric).
  destruct Hstart as [Hstart|E]; cycle 1.
  { subst n. rewrite E. change (len []) with 0. rewrite !drop_nil, !take_nil.
    match goal with |- (if ?c then _ else _) = _ => by destruct c end. }
  replace (if start <? 0 then Z.max (n + start) 0 else Z.max (Z.min start (n - 1)) 0)
    with (Z.max 0 (if start <? 0 then n + start else start))
    by (destruct (start <? 0) eqn:E; lia).
  set (s := Z.max 0 _).
  destruct (stop <? 0) eqn:E.
  - destruct (_ <=? s) eqn:Hle.
    + replace (Z.to_nat (n + stop + 1 - s)) with 0%nat by lia. by rewrite take_0.
    + do 2 f_equal; lia.
  - rewrite wrap_i64_id by (widths; lia).
    destruct (_ <=? s) eqn:Hle.
    + destruct (Z.le_gt_cases n s).
      * rewrite drop_ge by (unfold n, len in *; lia). by rewrite take_nil.
      * replace (Z.to_nat (stop + 1 - s)) with 0%nat by lia. by rewrite take_0.
    + destruct (Z.le_gt_cases (stop + 1) n).
      * do 2 f_equal; lia.
      * rewrite !take_ge; [done| |]; rewrite length_drop; unfold n, len in *; lia.
Qed.

(** Past the end, [start] is clamped to the last index. *)
Lemma get_range_past_end start stop l x :
  len (ListValue.items l) <= start -> start <= stop < i64_max ->
  last (ListValue.items l) = Some x ->
  ListValue.get_range start stop l = [x].
Proof.
  intros Hstart Hstop Hlast.
  destruct (ListValue.items l) as [|y r] eqn:E using rev_ind; [done|]. clear IHr.
  rewrite last_snoc in Hlast. injection Hlast as ->.
  unfold ListValue.get_range. rewrite E. rewrite len_app, len_cons in *.
  change (len []) with 0 in *. pose proof (len_nonneg r).
  replace (start <? 0) with false by lia. replace (stop <? 0) with false by lia.
  rewrite wrap_i64_id by (widths; lia).
  rewrite (Z.min_r start), Z.min_r, !Z.max_l by lia.
  replace (_ <=? _) with false by lia.
  replace (Z.to_nat (_ - _)) with 1%nat by lia.
  rewrite drop_app_length'; [done|]. unfold len. lia.
Qed.
