(* ===== verification/SortedSet.v ===== *)
(** * SortedSet: the sorted-set value

    [src/cache/src/data_structures/sorted_set.rs]: a map from scores to the
    members that have them, and a map from members to scores.  The invariant
    [zset_wf] says that the two agree; it is what the operations rely on and keep,
    as long as no score is NaN. *)

From S2P Require Import Prelude Text External Float64 BTree Values.
From Stdlib Require Import Floats.SpecFloat.
#[local] Open Scope Z_scope.

(** ** Keys *)

(** [Ord for OrderedFloat]. *)
Definition ocmp (a b : f64) : comparison := default Eq (f64_partial_cmp a b).

Abbreviation num x := (is_nan x = false).

#[global] Instance ocmp_laws : CmpLaws ocmp (fun x => num x).
Proof.
  assert (Hr : forall a b, num a -> num b -> ocmp a b = lex3 (frank a) (frank b)).
  { intros a b Ha Hb. unfold ocmp. by rewrite partial_cmp_frank. }
  split.
  - intros a b Ha Hb. rewrite !Hr by done. apply lex3_antisym.
  - intros a b c Ha Hb Hc. rewrite !Hr by done. by intros ->%lex3_Eq.
  - intros a b c Ha Hb Hc. rewrite !Hr by done. apply lex3_trans.
Qed.

(** [Ord for Bytes]: lexicographic. *)
Fixpoint bytes_cmp (a b : bytes) : comparison :=
  match a, b with
  | [], [] => Eq
  | [], _ :: _ => Lt
  | _ :: _, [] => Gt
  | x :: a, y :: b => match u8 x ?= u8 y with Eq => bytes_cmp a b | c => c end
  end.
Definition bytes_le (a b : bytes) : Prop := bytes_cmp a b <> Gt.
#[global] Instance bytes_le_dec : RelDecision bytes_le.
Proof. intros a b. unfold bytes_le. apply _. Defined.

(** [sort()] of the members. *)
Definition sort_bytes (l : list bytes) : list bytes := merge_sort bytes_le l.

Module SortedSetValue.
Record t := mk {
  members_by_score : list (f64 * gset bytes);
  member_scores : gmap bytes f64;
  expires_at : option Z;
}.

Definition new : t := mk [] ∅ None.
Definition with_ttl (now ttl : Z) : res t := at' ← instant_add now ttl; Ok (mk [] ∅ (Some at')).

(** The code [add] and [remove] share: drop [member] from the bucket of
    [score], and the bucket when it is empty. *)
Definition detach (score : f64) (member : bytes) (l : list (f64 * gset bytes))
  : list (f64 * gset bytes) :=
  match bt_get ocmp score l with
  | Some members =>
      let members := members ∖ {[member]} in
      if bool_decide (members = ∅) then bt_remove ocmp score l
      else bt_insert ocmp score members l
  | None => l
  end.

(** [entry(score).or_insert_with(HashSet::new).insert(member)]. *)
Definition attach (score : f64) (member : bytes) (l : list (f64 * gset bytes))
  : list (f64 * gset bytes) :=
  bt_insert ocmp score ({[member]} ∪ default ∅ (bt_get ocmp score l)) l.

Definition add (score : f64) (member : bytes) (z : t) : t * bool :=
  let by_score :=
    match member_scores z !! member with
    | Some old_score => detach old_score member (members_by_score z)
    | None => members_by_score z
    end in
  (mk (attach score member by_score) (<[member := score]> (member_scores z)) (expires_at z),
   true).

Definition remove (member : bytes) (z : t) : t * bool :=
  match member_scores z !! member with
  | Some score =>
      (mk (detach score member (members_by_score z)) (delete member (member_scores z))
         (expires_at z), true)
  | None => (z, false)
  end.

Definition get_score (member : bytes) (z : t) : option f64 := member_scores z !! member.
Definition len (z : t) : Z := Z.of_nat (size (member_scores z)).
Definition is_expired (now : Z) (z : t) : bool := past now (expires_at z).

(** *** Ranges *)

Section iter.
Context `{HashOrder}.

Definition flatten (l : list (f64 * gset bytes)) : list (bytes * f64) :=
  flat_map (fun '(score, members) => map (fun m => (m, score)) (hs_iter members)) l.

(** The order in which the nested loops visit the members. *)
Definition flat (z : t) : list (bytes * f64) := flatten (members_by_score z).

Definition with_score (ws : bool) (e : bytes * f64) : bytes * option f64 :=
  (e.1, if ws then Some e.2 else None).

Fixpoint range_loop (count start stop : Z) (ws : bool) (l : list (bytes * f64))
  : list (bytes * option f64) :=
  match l with
  | [] => []
  | e :: l =>
      let out := if (start <=? count) && (count <=? stop) then [with_score ws e] else [] in
      let count := count + 1 in
      if stop <? count then out else out ++ range_loop count start stop ws l
  end.

Definition get_range (start stop : Z) (ws : bool) (z : t) : list (bytes * option f64) :=
  range_loop 0 start stop ws (flat z).

Definition get_range_by_score (min max : f64) (ws : bool) (z : t)
  : res (list (bytes * option f64)) :=
  r ← bt_range ocmp min max (members_by_score z);
  Ok (map (with_score ws) (flatten r)).

(** *** Ranks *)

(** The inner loop: [Ok rank] when the member is found at [rank], otherwise
    the rank after the bucket. *)
Fixpoint rank_in (member : bytes) (rank : Z) (l : list bytes) : Z + Z :=
  match l with
  | [] => inr rank
  | m :: l => if bool_decide (m = member) then inl rank else rank_in member (rank + 1) l
  end.

Fixpoint rank_loop (target : f64) (member : bytes) (rank : Z) (l : list (f64 * gset bytes))
  : option Z :=
  match l with
  | [] => None
  | (score, members) :: l =>
      if f64_lt score target then
        rank_loop target member (rank + Z.of_nat (size members)) l
      else if f64_eqb score target then
        match rank_in member rank (sort_bytes (hs_iter members)) with
        | inl r => Some r
        | inr rank => rank_loop target member rank l
        end
      else None
  end.

Definition get_rank (member : bytes) (z : t) : option Z :=
  match member_scores z !! member with
  | Some target_score => rank_loop target_score member 0 (members_by_score z)
  | None => None
  end.

(** *** Pops *)

Definition first_of (b : option (f64 * gset bytes)) : option (bytes * f64) :=
  match b with
  | Some (s, members) => match hs_iter members with m :: _ => Some (m, s) | [] => None end
  | None => None
  end.

(** [pick] is [iter().next()] or [iter().next_back()] on the buckets. *)
Fixpoint pop_loop (pick : list (f64 * gset bytes) -> option (f64 * gset bytes))
    (fuel : nat) (count : Z) (z : t) (out : list (bytes * f64)) : t * list (bytes * f64) :=
  match fuel with
  | O => (z, out)
  | S fuel =>
      if Prelude.len out <? count then
        match first_of (pick (members_by_score z)) with
        | Some (member, score) =>
            pop_loop pick fuel count (fst (remove member z)) (out ++ [(member, score)])
        | None => (z, out)
        end
      else (z, out)
  end.

(** Every iteration removes a member, so their number is enough fuel. *)
Definition pop_min `{Layout} (count : Z) (z : t) : t * res (list (bytes * f64)) :=
  match with_capacity sizeof_Bytes_f64 count with
  | Ok _ => let '(z, out) := pop_loop head (S (size (member_scores z))) count z [] in (z, Ok out)
  | Err e => (z, Err e)
  | Panic => (z, Panic)
  end.

Definition pop_max `{Layout} (count : Z) (z : t) : t * res (list (bytes * f64)) :=
  match with_capacity sizeof_Bytes_f64 count with
  | Ok _ => let '(z, out) := pop_loop last (S (size (member_scores z))) count z [] in (z, Ok out)
  | Err e => (z, Err e)
  | Panic => (z, Panic)
  end.
End iter.
End SortedSetValue.
