(* ===== verification/SortedSetFacts.v ===== *)
(** * SortedSetFacts: the invariant of sorted sets and what it gives

    [zset_wf] is kept by [add], [remove] and the pops; under it the nested loops
    visit every member once, in score order. *)

From S2P Require Import Prelude Text External Float64 BTree Values SortedSet.
Import SortedSetValue.
#[local] Open Scope Z_scope.

(** The members with a score. *)
Definition bucket (s : f64) (l : list (f64 * gset bytes)) : gset bytes :=
  default ∅ (bt_get ocmp s l).

Abbreviation zsorted := (bt_wf (V := gset bytes) ocmp (fun x => num x)).

Record zset_wf (z : t) : Prop := {
  wf_sorted : zsorted (members_by_score z);
  wf_nonempty : forall s, num s -> bt_get ocmp s (members_by_score z) <> Some ∅;
  wf_scores : forall m s, member_scores z !! m = Some s -> num s;
  wf_agree : forall s m, num s ->
    m ∈ bucket s (members_by_score z) <->
    exists s', member_scores z !! m = Some s' /\ ocmp s s' = Eq;
}.

Lemma bucket_insert j k v l : num j -> num k -> zsorted l ->
  bucket j (bt_insert ocmp k v l) = match ocmp j k with Eq => v | _ => bucket j l end.
Proof.
  intros Hj Hk Hl. unfold bucket. rewrite (bt_get_insert ocmp (fun x => num x)) by done.
  by destruct (ocmp j k).
Qed.

Lemma bucket_remove j k l : num j -> num k -> zsorted l ->
  bucket j (bt_remove ocmp k l) = match ocmp j k with Eq => ∅ | _ => bucket j l end.
Proof.
  intros Hj Hk Hl. unfold bucket. rewrite (bt_get_remove ocmp (fun x => num x)) by done.
  by destruct (ocmp j k).
Qed.

Lemma bt_get_congr j k l : num j -> num k -> zsorted l -> ocmp j k = Eq ->
  bt_get ocmp j l = bt_get ocmp k l.
Proof.
  intros Hj Hk [Hl _] E. induction Hl as [|[k' v] l Hk' _ IH]; simpl in *; [done|].
  rewrite (cmp_Eq_trans (P := fun x => num x) j k k') by done. by destruct (ocmp k k').
Qed.

(** ** Detaching and attaching a member *)

Lemma detach_sorted s m l : num s -> zsorted l -> zsorted (detach s m l).
Proof.
  intros Hs Hl. unfold detach. repeat case_match; try done.
  - by apply (bt_remove_wf ocmp (fun x => num x)).
  - by apply (bt_insert_wf ocmp (fun x => num x)).
Qed.

Lemma bucket_detach j s m l : num j -> num s -> zsorted l ->
  bucket j (detach s m l) =
  match ocmp j s with Eq => bucket j l ∖ {[m]} | _ => bucket j l end.
Proof.
  intros Hj Hs Hl. unfold detach.
  destruct (bt_get ocmp s l) as [ms|] eqn:E.
  - destruct (bool_decide_reflect (ms ∖ {[m]} = ∅)) as [He|He].
    + rewrite bucket_remove by done. destruct (ocmp j s) eqn:Ej; try done.
      unfold bucket. by rewrite (bt_get_congr j s), E.
    + rewrite bucket_insert by done. destruct (ocmp j s) eqn:Ej; try done.
      unfold bucket. by rewrite (bt_get_congr j s), E.
  - destruct (ocmp j s) eqn:Ej; try done.
    unfold bucket. rewrite (bt_get_congr j s), E by done. set_solver.
Qed.

Lemma detach_nonempty s m l : num s -> zsorted l ->
  (forall j, num j -> bt_get ocmp j l <> Some ∅) ->
  forall j, num j -> bt_get ocmp j (detach s m l) <> Some ∅.
Proof.
  intros Hs Hl Hne j Hj. unfold detach. repeat case_match; try by apply Hne.
  - rewrite (bt_get_remove ocmp (fun x => num x)) by done.
    destruct (ocmp j s); [done | by apply Hne | by apply Hne].
  - rewrite (bt_get_insert ocmp (fun x => num x)) by done.
    case_bool_decide; [done|].
    destruct (ocmp j s); [congruence | by apply Hne | by apply Hne].
Qed.

(** A member taken out of the buckets, as both [add] and [remove] do first. *)
Definition unlink (m : bytes) (z : t) : list (f64 * gset bytes) :=
  match member_scores z !! m with
  | Some old => detach old m (members_by_score z)
  | None => members_by_score z
  end.

Lemma unlink_spec m z : zset_wf z ->
  zsorted (unlink m z) /\
  (forall j, num j -> bt_get ocmp j (unlink m z) <> Some ∅) /\
  forall s x, num s ->
    x ∈ bucket s (unlink m z) <->
    x <> m /\ exists s', member_scores z !! x = Some s' /\ ocmp s s' = Eq.
Proof.
  intros [Hs Hne Hn Ha]. unfold unlink.
  destruct (member_scores z !! m) as [old|] eqn:E.
  - pose proof (Hn _ _ E) as Hold. split; [by apply detach_sorted|].
    split; [by apply detach_nonempty|].
    intros s x Hns. rewrite bucket_detach by done. destruct (ocmp s old) eqn:Eo.
    + rewrite elem_of_difference, Ha by done. set_solver.
    + rewrite Ha by done. split; [|tauto]. intros (s' & Hx & Hs').
      split; [|by exists s']. intros ->. congruence.
    + rewrite Ha by done. split; [|tauto]. intros (s' & Hx & Hs').
      split; [|by exists s']. intros ->. congruence.
  - split; [done|]. split; [done|]. intros s x Hns. rewrite Ha by done.
    split; [|tauto]. intros (s' & Hx & Hs'). split; [|by exists s'].
    intros ->. congruence.
Qed.

(** ** The invariant is kept *)

Lemma zset_wf_new : zset_wf new.
Proof.
  split; simpl; try done.
  - apply bt_wf_nil.
  - intros s m _. unfold bucket. simpl. rewrite lookup_empty. set_solver.
Qed.

Lemma zset_add_wf s m z : num s -> zset_wf z -> zset_wf (fst (add s m z)).
Proof.
  intros Hs Hwf. destruct (unlink_spec m z Hwf) as (Hl & Hne & Ha).
  unfold add. fold (unlink m z). unfold attach.
  change (default ∅ (bt_get ocmp s (unlink m z))) with (bucket s (unlink m z)).
  split; simpl.
  - by apply (bt_insert_wf ocmp (fun x => num x)).
  - intros j Hj. rewrite (bt_get_insert ocmp (fun x => num x)) by done.
    destruct (ocmp j s); [|by apply Hne|by apply Hne].
    intros [= E]. set_solver.
  - intros x s'. rewrite lookup_insert. case_decide; [naive_solver|]. apply Hwf.
  - intros j x Hj. rewrite bucket_insert by done.
    destruct (decide (x = m)) as [->|Hx].
    + rewrite lookup_insert_eq. destruct (ocmp j s) eqn:E.
      * split; [intros _; by exists s | set_solver].
      * split; [rewrite Ha by done; tauto | intros (? & [= <-] & ?); congruence].
      * split; [rewrite Ha by done; tauto | intros (? & [= <-] & ?); congruence].
    + rewrite lookup_insert_ne by done. destruct (ocmp j s) eqn:E.
      * rewrite elem_of_union, elem_of_singleton, Ha by done.
        split.
        -- intros [?|(_ & s' & ? & ?)]; [done|]. exists s'. split; [done|].
           rewrite (cmp_Eq_trans (P := fun x => num x) j s s'); try done.
           by eapply wf_scores.
        -- intros (s' & ? & ?). right. split; [done|]. exists s'. split; [done|].
           rewrite <- (cmp_Eq_trans (P := fun x => num x) j s s'); try done.
           by eapply wf_scores.
      * rewrite Ha by done. tauto.
      * rewrite Ha by done. tauto.
Qed.

Lemma zset_remove_wf m z : zset_wf z -> zset_wf (fst (remove m z)).
Proof.
  intros Hwf. destruct (unlink_spec m z Hwf) as (Hl & Hne & Ha). unfold remove.
  unfold unlink in *. destruct (member_scores z !! m) as [old|] eqn:E; [|done].
  split; simpl; try done.
  - intros x s. rewrite lookup_delete. case_decide; [done|]. apply Hwf.
  - intros s x Hs. rewrite Ha by done. rewrite lookup_delete.
    case_decide; naive_solver.
Qed.

Lemma remove_scores m z : member_scores (fst (remove m z)) = delete m (member_scores z).
Proof.
  unfold remove. destruct (member_scores z !! m) eqn:E; simpl; [done|].
  by rewrite delete_id.
Qed.

Lemma remove_expires_at m z : expires_at (fst (remove m z)) = expires_at z.
Proof. unfold remove. by case_match. Qed.

#[export] Hint Resolve zset_wf_new zset_add_wf zset_remove_wf : ferric.

(** ** The visiting order *)

Section iter.
Context `{HashOrder}.

Lemma elem_of_flatten m s l :
  (m, s) ∈ flatten l <-> exists ms, (s, ms) ∈ l /\ m ∈ ms.
Proof.
  unfold flatten. induction l as [|[s0 ms0] l IH]; simpl; [set_solver|].
  rewrite elem_of_app, IH. setoid_rewrite elem_of_cons. split.
  - intros [Hin|(ms & ? & ?)]; [|naive_solver].
    apply list_elem_of_fmap in Hin as (x & [= -> ->] & Hx).
    apply elem_of_hs_iter in Hx. naive_solver.
  - intros (ms & [[= -> ->]|?] & ?); [|naive_solver]. left.
    apply list_elem_of_fmap. exists m. by rewrite elem_of_hs_iter.
Qed.

(** Later in the order means a score that is not smaller. *)
Definition score_le (a b : bytes * f64) : Prop := ocmp a.2 b.2 <> Gt.

Lemma flatten_sorted l : zsorted l -> StronglySorted score_le (flatten l).
Proof.
  induction l as [|[s ms] l IH]; intros Hl; simpl; [constructor|].
  apply bt_wf_cons in Hl as (Hs & HF & Hl).
  apply StronglySorted_app_2.
  - intros x y Hx Hy. apply list_elem_of_fmap in Hx as (a & -> & _).
    destruct y as [b s']. apply elem_of_flatten in Hy as (ms' & Hin & _).
    rewrite Forall_forall in HF. destruct (HF _ Hin) as [_ E].
    unfold score_le. simpl in *. by rewrite E.
  - induction (hs_iter ms) as [|a k IHk]; simpl; constructor; [done|].
    apply Forall_forall. intros y Hy. apply list_elem_of_fmap in Hy as (b & -> & _).
    unfold score_le. simpl. by rewrite (cmp_refl ocmp (fun x => num x)).
  - by apply IH.
Qed.

Context (z : t) (Hwf : zset_wf z).

Lemma bucket_elem s ms : (s, ms) ∈ members_by_score z -> num s /\ bucket s (members_by_score z) = ms.
Proof.
  intros Hin. destruct Hwf as [[HP Hs] _ _ _].
  assert (Hns : num s) by (rewrite Forall_forall in HP; exact (HP _ Hin)).
  split; [done|]. unfold bucket. by rewrite (bt_get_elem ocmp (fun x => num x) s ms).
Qed.

Lemma flat_score m s : (m, s) ∈ flat z ->
  exists s', member_scores z !! m = Some s' /\ ocmp s s' = Eq.
Proof.
  intros (ms & Hin & Hm)%elem_of_flatten.
  destruct (bucket_elem s ms Hin) as [Hs Hb]. apply wf_agree; [done..|]. by rewrite Hb.
Qed.

Lemma flat_complete m s' : member_scores z !! m = Some s' ->
  exists s, (m, s) ∈ flat z /\ ocmp s s' = Eq.
Proof.
  intros Hm. pose proof (wf_scores z Hwf _ _ Hm) as Hs'.
  assert (Hb : m ∈ bucket s' (members_by_score z)).
  { apply wf_agree; [done..|]. exists s'. split; [done|].
    by apply (cmp_refl ocmp (fun x => num x)). }
  unfold bucket in Hb. destruct (bt_get ocmp s' (members_by_score z)) as [ms|] eqn:E;
    simpl in Hb; [|set_solver].
  apply bt_get_Some in E as (s & Hin & E).
  exists s. split; [apply elem_of_flatten; by exists ms|].
  apply (cmp_Eq_sym ocmp (fun x => num x)); [done| |done].
  by apply (bucket_elem s ms).
Qed.

Lemma NoDup_flatten l : zsorted l ->
  (forall s1 ms1 s2 ms2 m, (s1, ms1) ∈ l -> (s2, ms2) ∈ l -> m ∈ ms1 -> m ∈ ms2 ->
    ocmp s1 s2 = Eq) -> NoDup (flatten l).*1.
Proof.
  induction l as [|[s ms] l IH]; intros Hl Hdisj; simpl; [constructor|].
  apply bt_wf_cons in Hl as (Hs & HF & Hl). rewrite fmap_app.
  rewrite <- list_fmap_compose. change (fst ∘ _) with (@id bytes). rewrite list_fmap_id.
  apply NoDup_app. split; [apply NoDup_hs_iter|]. split.
  - intros m Hm Hin. apply elem_of_hs_iter in Hm.
    apply list_elem_of_fmap in Hin as ([m' s'] & -> & Hin).
    apply elem_of_flatten in Hin as (ms' & Hin & Hm').
    rewrite Forall_forall in HF. destruct (HF _ Hin) as [_ E]. simpl in *.
    rewrite (Hdisj s ms s' ms' m') in E; [done | | | done | done]; by constructor.
  - apply IH; [done|]. intros s1 ms1 s2 ms2 m H1 H2. by apply Hdisj; constructor.
Qed.

Lemma NoDup_flat : NoDup (flat z).*1.
Proof.
  apply NoDup_flatten; [apply Hwf|]. intros s1 ms1 s2 ms2 m H1 H2 Hm1 Hm2.
  destruct (flat_score m s1) as (s' & Hs' & E1); [apply elem_of_flatten; by exists ms1|].
  destruct (flat_score m s2) as (s2' & Hs2' & E2); [apply elem_of_flatten; by exists ms2|].
  rewrite Hs' in Hs2'. injection Hs2' as <-.
  pose proof (wf_scores z Hwf _ _ Hs') as Hn.
  destruct (bucket_elem _ _ H1) as [Hn1 _], (bucket_elem _ _ H2) as [Hn2 _].
  rewrite (cmp_Eq_trans (P := fun x => num x) s1 s' s2) by done.
  by apply (cmp_Eq_sym ocmp (fun x => num x)).
Qed.

Lemma flat_members : (flat z).*1 ≡ₚ elements (dom (member_scores z)).
Proof.
  apply NoDup_Permutation; [apply NoDup_flat | apply NoDup_elements|].
  intros m. rewrite elem_of_elements, elem_of_dom, list_elem_of_fmap. split.
  - intros ([m' s] & -> & Hin). destruct (flat_score _ _ Hin) as (s' & Hs' & _). by exists s'.
  - intros [s' Hs']. destruct (flat_complete _ _ Hs') as (s & Hin & _). by exists (m, s).
Qed.

Lemma length_flat : Prelude.len (flat z) = len z.
Proof.
  unfold Prelude.len, len. f_equal. rewrite <- (length_fmap fst (flat z)).
  rewrite flat_members. change (length (elements ?X)) with (size X). apply size_dom.
Qed.

Lemma flat_sorted : StronglySorted score_le (flat z).
Proof. apply flatten_sorted, Hwf. Qed.
End iter.

(** ** Ranges are slices *)

Section ranges.
Context `{HashOrder}.

Lemma range_loop_slice count start stop ws l : 0 <= start -> count <= stop ->
  range_loop count start stop ws l =
  map (with_score ws)
    (take (Z.to_nat (stop + 1 - Z.max start count)) (drop (Z.to_nat (start - count)) l)).
Proof.
  intros Hstart. revert count. induction l as [|e l IH]; intros count Hc; simpl.
  { by rewrite drop_nil, take_nil. }
  destruct (start <=? count) eqn:E.
  - replace (Z.to_nat (start - count)) with 0%nat by lia. rewrite Z.max_r by lia.
    replace (count <=? stop) with true by lia. simpl.
    replace (Z.to_nat (stop + 1 - count)) with (S (Z.to_nat (stop - count))) by lia. simpl.
    destruct (stop <? count + 1) eqn:E2.
    + replace (Z.to_nat (stop - count)) with 0%nat by lia. by rewrite take_0.
    + f_equal. rewrite IH by lia. rewrite Z.max_r by lia.
      replace (Z.to_nat (start - (count + 1))) with 0%nat by lia.
      replace (stop + 1 - (count + 1)) with (stop - count) by lia. done.
  - simpl. replace (Z.to_nat (start - count)) with (S (Z.to_nat (start - (count + 1)))) by lia.
    simpl. rewrite Z.max_l by lia. destruct (stop <? count + 1) eqn:E2.
    + replace (Z.to_nat (stop + 1 - start)) with 0%nat by lia. by rewrite take_0.
    + rewrite IH by lia. by rewrite Z.max_l by lia.
Qed.

Lemma get_range_slice start stop ws z : 0 <= start -> 0 <= stop ->
  get_range start stop ws z =
  map (with_score ws) (take (Z.to_nat (stop + 1 - start)) (drop (Z.to_nat start) (flat z))).
Proof.
  intros Hs Hp. unfold get_range. rewrite range_loop_slice by lia.
  by rewrite Z.max_l, Z.sub_0_r by lia.
Qed.

Lemma get_range_all stop ws z : zset_wf z -> len z <= stop ->
  get_range 0 stop ws z = map (with_score ws) (flat z).
Proof.
  intros Hwf Hs. rewrite get_range_slice by (unfold len in *; lia).
  rewrite drop_0, take_ge; [done|].
  pose proof (length_flat z Hwf) as Hl. unfold Prelude.len in *. lia.
Qed.

(** ** Ranks are indices *)

(** The members in (score, member) order. *)
Definition ranked (l : list (f64 * gset bytes)) : list bytes :=
  flat_map (fun e => sort_bytes (hs_iter e.2)) l.

Lemma rank_in_spec m r l :
  match rank_in m r l with
  | inl i => exists j, i = r + Z.of_nat j /\ l !! j = Some m
  | inr i => i = r + Prelude.len l /\ m ∉ l
  end.
Proof.
  revert r; induction l as [|x l IH]; intros r; simpl.
  - change (Prelude.len []) with 0. split; [lia | by apply not_elem_of_nil].
  - case_bool_decide as E.
    + subst. exists 0%nat. split; [lia|done].
    + specialize (IH (r + 1)). destruct (rank_in m (r + 1) l).
      * destruct IH as (j & -> & Hj). exists (S j). split; [lia|done].
      * destruct IH as [-> Hm]. rewrite len_cons. split; [lia|].
        rewrite elem_of_cons. naive_solver.
Qed.

Lemma elem_of_sort (m : bytes) (ms : gset bytes) : m ∈ sort_bytes (hs_iter ms) <-> m ∈ ms.
Proof. unfold sort_bytes. rewrite merge_sort_Permutation. apply elem_of_hs_iter. Qed.

Lemma length_sort (ms : gset bytes) : length (sort_bytes (hs_iter ms)) = size ms.
Proof. unfold sort_bytes. rewrite merge_sort_Permutation. apply length_hs_iter. Qed.

Lemma f64_lt_ocmp a b : num a -> num b -> f64_lt a b = bool_decide (ocmp a b = Lt).
Proof.
  intros Ha Hb. unfold f64_lt, ocmp. rewrite partial_cmp_frank by done. simpl.
  by destruct (lex3 _ _).
Qed.

Lemma f64_eqb_ocmp a b : num a -> num b -> f64_eqb a b = bool_decide (ocmp a b = Eq).
Proof.
  intros Ha Hb. unfold f64_eqb, ocmp. rewrite partial_cmp_frank by done. simpl.
  by destruct (lex3 _ _).
Qed.

Lemma rank_loop_spec s m r l : num s -> zsorted l -> m ∈ bucket s l ->
  (forall s' ms, (s', ms) ∈ l -> m ∈ ms -> ocmp s' s = Eq) ->
  exists j, rank_loop s m r l = Some (r + Z.of_nat j) /\ ranked l !! j = Some m.
Proof.
  intros Hs. revert r. induction l as [|[s0 ms] l IH]; intros r Hl Hm Huniq; [set_solver|].
  apply bt_wf_cons in Hl as (Hs0 & HF & Hl). simpl.
  rewrite f64_lt_ocmp, f64_eqb_ocmp by done. unfold bucket in Hm. simpl in Hm.
  rewrite (cmp_antisym (P := fun x => num x) s0 s) in Hm by done.
  destruct (ocmp s0 s) eqn:E; simpl in Hm |- *.
  - pose proof (rank_in_spec m r (sort_bytes (hs_iter ms))) as Hr.
    destruct (rank_in m r _) as [i|i].
    + destruct Hr as (j & -> & Hj). exists j. split; [done|]. by apply lookup_app_l_Some.
    + destruct Hr as [_ Hr]. rewrite elem_of_sort in Hr. done.
  - destruct (IH (r + Z.of_nat (size ms)) Hl Hm) as (j & Hj & Hlook).
    { intros s' ms' Hin. apply Huniq. by constructor. }
    exists (size ms + j)%nat. split.
    + rewrite Hj. f_equal. lia.
    + rewrite lookup_app_r by (rewrite length_sort; lia). rewrite length_sort.
      by replace (size ms + j - size ms)%nat with j by lia.
  - exfalso. change (m ∈ bucket s l) in Hm. unfold bucket in Hm.
    rewrite (bt_get_above ocmp (fun x => num x)) in Hm; [set_solver|].
    eapply Forall_impl; [exact HF|]. intros [s1 ms1] [H1 E1]. simpl in *. split; [done|].
    apply (cmp_Lt_trans (P := fun x => num x) s s0 s1); try done.
    by apply (cmp_Gt_Lt ocmp (fun x => num x)).
Qed.

Lemma get_rank_spec m z : zset_wf z -> is_Some (member_scores z !! m) ->
  exists j, get_rank m z = Some (Z.of_nat j) /\ ranked (members_by_score z) !! j = Some m.
Proof.
  intros Hwf [s Hm]. unfold get_rank. rewrite Hm.
  pose proof (wf_scores z Hwf _ _ Hm) as Hs.
  destruct (rank_loop_spec s m 0 (members_by_score z)) as (j & Hj & Hlook);
    [done | apply Hwf | | | by exists j].
  - apply wf_agree; [done..|]. exists s. split; [done|].
    by apply (cmp_refl ocmp (fun x => num x)).
  - intros s' ms Hin Hms. destruct (flat_score z Hwf m s') as (s2 & Hs2 & E).
    { apply elem_of_flatten. by exists ms. }
    by rewrite Hm in Hs2; injection Hs2 as ->.
Qed.
End ranges.

(** *** The order of the ranks *)

Lemma bytes_cmp_opp a b : bytes_cmp b a = CompOpp (bytes_cmp a b).
Proof.
  revert b. induction a as [|x a IH]; intros [|y b]; simpl; try done.
  rewrite (Z.compare_antisym (u8 x) (u8 y)). by destruct (u8 x ?= u8 y); simpl.
Qed.

#[global] Instance bytes_le_total : Total bytes_le.
Proof.
  intros a b. unfold bytes_le. rewrite (bytes_cmp_opp a b). destruct (bytes_cmp a b); simpl; auto.
Qed.

#[global] Instance bytes_le_trans : Transitive bytes_le.
Proof.
  unfold bytes_le. intros a. induction a as [|x a IH]; intros [|y b] [|z c]; simpl; try done.
  destruct (Z.compare_spec (u8 x) (u8 y)); destruct (Z.compare_spec (u8 y) (u8 z));
    destruct (Z.compare_spec (u8 x) (u8 z)); try done; try lia. by apply IH.
Qed.

(** By score, then by member. *)
Definition rank_le (z : t) (a b : bytes) : Prop :=
  exists s r, member_scores z !! a = Some s /\ member_scores z !! b = Some r /\
    (ocmp s r = Lt \/ (ocmp s r = Eq /\ bytes_le a b)).

Section ranked.
Context `{HashOrder} (z : t) (Hwf : zset_wf z).

Lemma elem_of_ranked (m : bytes) l : m ∈ ranked l <-> exists s ms, (s, ms) ∈ l /\ m ∈ ms.
Proof.
  unfold ranked. induction l as [|[s ms] l IH]; simpl; [set_solver|].
  rewrite elem_of_app, elem_of_sort, IH. set_solver.
Qed.

Lemma ranked_sorted_of l : zsorted l ->
  (forall s ms m, (s, ms) ∈ l -> m ∈ ms -> exists s', member_scores z !! m = Some s' /\ ocmp s s' = Eq) ->
  StronglySorted (rank_le z) (ranked l).
Proof.
  induction l as [|[s ms] l IH]; intros Hl Hsc; simpl; [constructor|].
  apply bt_wf_cons in Hl as (Hs & HF & Hl). rewrite Forall_forall in HF.
  apply StronglySorted_app_2.
  - intros a b Ha Hb. apply elem_of_sort in Ha. apply elem_of_ranked in Hb as (s2 & ms2 & Hin & Hb).
    destruct (Hsc s ms a) as (sa & Hsa & Ea); [by constructor|done|].
    destruct (Hsc s2 ms2 b) as (sb & Hsb & Eb); [by constructor|done|].
    destruct (HF _ Hin) as [Hs2 Hlt]. simpl in *. exists sa, sb. split; [done|]. split; [done|]. left.
    pose proof (wf_scores z Hwf _ _ Hsa). pose proof (wf_scores z Hwf _ _ Hsb).
    rewrite <- (cmp_Eq_trans (cmp := ocmp) (P := fun x => num x) s sa sb) by done.
    by rewrite <- (cmp_Eq_r ocmp (fun x => num x) s s2 sb).
  - assert (Hss : StronglySorted bytes_le (sort_bytes (hs_iter ms)))
      by apply (StronglySorted_merge_sort bytes_le).
    assert (Hin : forall a, a ∈ sort_bytes (hs_iter ms) -> a ∈ ms) by (intros a; apply elem_of_sort).
    induction Hss as [|a k Hk IHk HFk]; constructor.
    + apply IHk. intros b Hb. apply Hin. by constructor.
    + rewrite Forall_forall in HFk |- *. intros b Hb.
      destruct (Hsc s ms a) as (sa & Hsa & Ea); [by constructor|apply Hin; by constructor|].
      destruct (Hsc s ms b) as (sb & Hsb & Eb); [by constructor|apply Hin; by constructor|].
      exists sa, sb. split; [done|]. split; [done|]. right. split; [|by apply HFk].
      pose proof (wf_scores z Hwf _ _ Hsa). pose proof (wf_scores z Hwf _ _ Hsb).
      by rewrite <- (cmp_Eq_trans (cmp := ocmp) (P := fun x => num x) s sa sb).
  - apply IH; [done|]. intros s' ms' m Hin. apply Hsc. by constructor.
Qed.

Lemma ranked_sorted : StronglySorted (rank_le z) (ranked (members_by_score z)).
Proof.
  apply ranked_sorted_of; [apply Hwf|]. intros s ms m Hin Hm.
  apply (flat_score z Hwf), elem_of_flatten. by exists ms.
Qed.

Lemma ranked_perm : ranked (members_by_score z) ≡ₚ elements (dom (member_scores z)).
Proof.
  rewrite <- (flat_members z Hwf). unfold flat. clear Hwf.
  induction (members_by_score z) as [|[s ms] l IH]; simpl; [done|].
  rewrite fmap_app, IH. f_equiv. unfold sort_bytes. rewrite merge_sort_Permutation.
  rewrite <- list_fmap_compose. change (fst ∘ _) with (@id bytes). by rewrite list_fmap_id.
Qed.
End ranked.

(** ** Ranges by score *)

Lemma get_range_by_score_spec `{HashOrder} lo hi ws z : zset_wf z -> num lo -> num hi ->
  if decide (ocmp lo hi = Gt) then get_range_by_score lo hi ws z = Panic
  else exists l, get_range_by_score lo hi ws z = Ok (map (with_score ws) l) /\
    StronglySorted score_le l /\ NoDup l.*1 /\
    forall m, m ∈ l.*1 <-> exists s, member_scores z !! m = Some s /\
      ocmp lo s <> Gt /\ ocmp s hi <> Gt.
Proof.
  intros Hwf Hlo Hhi. unfold get_range_by_score, bt_range.
  case_decide as E; [by rewrite E|].
  set (P := fun '(k, _) => ocmp lo k <> Gt /\ ocmp k hi <> Gt).
  set (l := filter P (members_by_score z)).
  assert (Hsub : forall e, e ∈ l <-> P e /\ e ∈ members_by_score z) by (intros e; apply list_elem_of_filter).
  assert (Hl : zsorted l) by apply bt_filter_wf, Hwf.
  exists (flatten l). split; [by destruct (ocmp lo hi)|]. split; [by apply flatten_sorted|].
  assert (Hscore : forall m s, (m, s) ∈ flatten l <->
    (m, s) ∈ flat z /\ ocmp lo s <> Gt /\ ocmp s hi <> Gt).
  { intros m s. unfold flat. rewrite !elem_of_flatten. split.
    - intros (ms & [HP Hin]%Hsub & Hm). split; [by exists ms | done].
    - intros ((ms & Hin & Hm) & HP). exists ms. rewrite Hsub. done. }
  split.
  - apply NoDup_flatten; [done|]. intros s1 ms1 s2 ms2 m [_ H1]%Hsub [_ H2]%Hsub Hm1 Hm2.
    destruct (flat_score z Hwf m s1) as (r1 & Hr1 & E1); [apply elem_of_flatten; by exists ms1|].
    destruct (flat_score z Hwf m s2) as (r2 & Hr2 & E2); [apply elem_of_flatten; by exists ms2|].
    destruct (bucket_elem z Hwf _ _ H1) as [Hn1 _], (bucket_elem z Hwf _ _ H2) as [Hn2 _].
    pose proof (wf_scores z Hwf _ _ Hr1) as Hn. assert (r2 = r1) as -> by congruence.
    rewrite (cmp_Eq_trans (P := fun x => num x) s1 r1 s2) by done.
    by apply (cmp_Eq_sym ocmp (fun x => num x)).
  - intros m. rewrite list_elem_of_fmap. split.
    + intros ([m' s] & -> & [Hin [H1 H2]]%Hscore). simpl.
      destruct (flat_score z Hwf _ _ Hin) as (s' & Hs' & Es).
      apply elem_of_flatten in Hin as (ms & Hin & _). destruct (bucket_elem z Hwf _ _ Hin) as [Hns _].
      pose proof (wf_scores z Hwf _ _ Hs'). exists s'. split; [done|].
      rewrite <- (cmp_Eq_r ocmp (fun x => num x) lo s s') by done.
      by rewrite <- (cmp_Eq_trans (cmp := ocmp) (P := fun x => num x) s s' hi).
    + intros (s' & Hs' & H1 & H2). destruct (flat_complete z Hwf _ _ Hs') as (s & Hin & Es).
      pose proof (wf_scores z Hwf _ _ Hs') as Hns'.
      assert (Hns : num s).
      { apply elem_of_flatten in Hin as (ms & Hin & _). by apply (bucket_elem z Hwf s ms). }
      exists (m, s). split; [done|]. apply Hscore. split; [done|].
      rewrite (cmp_Eq_r ocmp (fun x => num x) lo s s') by done.
      by rewrite (cmp_Eq_trans (cmp := ocmp) (P := fun x => num x) s s' hi).
Qed.

(** ** Pops take extremal members *)

(** [pops before z out z']: [out] was taken out of [z] one member at a time,
    each of them [before] every member present when it was taken. *)
Inductive pops (before : f64 -> f64 -> Prop) : t -> list (bytes * f64) -> t -> Prop :=
| pops_nil z : pops before z [] z
| pops_cons m s s' z out z' :
    member_scores z !! m = Some s' -> num s -> ocmp s s' = Eq ->
    (forall m1 s1, member_scores z !! m1 = Some s1 -> before s s1) ->
    pops before (fst (remove m z)) out z' ->
    pops before z ((m, s) :: out) z'.

Definition not_above (a b : f64) : Prop := ocmp a b <> Gt.
Definition not_below (a b : f64) : Prop := ocmp b a <> Gt.

Lemma pops_wf before z out z' : pops before z out z' -> zset_wf z -> zset_wf z'.
Proof. induction 1; auto with ferric. Qed.

Lemma pops_scores before z out z' : pops before z out z' ->
  member_scores z' = foldr delete (member_scores z) (reverse out.*1).
Proof.
  induction 1 as [|m s s' z out z' Hm Hs E Hb Hp IH]; [done|].
  rewrite IH, remove_scores. simpl. rewrite reverse_cons, foldr_app. done.
Qed.

Lemma pops_lookup before z out z' m : pops before z out z' ->
  member_scores z' !! m = if decide (m ∈ out.*1) then None else member_scores z !! m.
Proof.
  induction 1 as [|x s s' z out z' Hm Hs E Hb Hp IH].
  - rewrite decide_False; [done|]. simpl. apply not_elem_of_nil.
  - rewrite IH, remove_scores. simpl. rewrite lookup_delete.
    repeat case_decide; set_solver.
Qed.

Lemma pops_NoDup before z out z' : pops before z out z' -> NoDup out.*1.
Proof.
  induction 1 as [|m s s' z out z' Hm Hs E Hb Hp IH]; simpl; constructor; [|done].
  intros ([m1 s1] & -> & Hin)%list_elem_of_fmap. simpl in *.
  assert (Hin' : is_Some (member_scores (fst (remove m1 z)) !! m1)).
  { clear -Hp Hin. remember (fst (remove m1 z)) as z0. revert Hin. clear Heqz0.
    induction Hp as [|x s s' z1 out z' Hx Hs E Hb Hp IH]; intros Hin; [by apply not_elem_of_nil in Hin|].
    apply elem_of_cons in Hin as [[= <- <-]|Hin]; [by exists s'|].
    specialize (IH Hin). rewrite remove_scores, lookup_delete in IH.
    case_decide; [by destruct IH | done]. }
  rewrite remove_scores, lookup_delete_eq in Hin'. by destruct Hin'.
Qed.

Lemma pops_len before z out z' : pops before z out z' -> len z = Prelude.len out + len z'.
Proof.
  induction 1 as [|m s s' z out z' Hm Hs E Hb Hp IH]; [unfold Prelude.len; simpl; lia|].
  rewrite len_cons. unfold len in *. rewrite remove_scores in IH.
  rewrite map_size_delete, Hm in IH.
  assert (size (member_scores z) <> 0%nat) by (by apply map_size_ne_0_lookup; exists m, s'). lia.
Qed.

(** Every popped member precedes every member left. *)
Lemma pops_before before z out z' m s m1 s1 : pops before z out z' ->
  (m, s) ∈ out -> member_scores z' !! m1 = Some s1 -> before s s1.
Proof.
  induction 1 as [|x s0 s' z out z' Hm Hs E Hb Hp IH]; intros Hin Hm1;
    [by apply not_elem_of_nil in Hin|].
  apply elem_of_cons in Hin as [[= -> ->]|Hin]; [|by apply IH].
  rewrite (pops_lookup _ _ _ _ _ Hp) in Hm1. case_decide; [done|].
  rewrite remove_scores, lookup_delete in Hm1. case_decide; [done|]. by eapply Hb.
Qed.

Section pops.
Context `{HashOrder} (before : f64 -> f64 -> Prop)
  (pick : list (f64 * gset bytes) -> option (f64 * gset bytes)).
Hypothesis pick_None : forall l, pick l = None -> l = [].
Hypothesis pick_Some : forall l s ms, zsorted l -> pick l = Some (s, ms) ->
  (s, ms) ∈ l /\ forall s1 ms1 s2, (s1, ms1) ∈ l -> num s2 -> ocmp s1 s2 = Eq -> before s s2.

Lemma first_of_pick z m s : zset_wf z -> first_of (pick (members_by_score z)) = Some (m, s) ->
  exists s', member_scores z !! m = Some s' /\ num s /\ ocmp s s' = Eq /\
    forall m1 s1, member_scores z !! m1 = Some s1 -> before s s1.
Proof.
  intros Hwf Hf. destruct (pick (members_by_score z)) as [[s0 ms]|] eqn:E; [|done].
  simpl in Hf. destruct (hs_iter ms) as [|m0 k] eqn:Ei; [done|]. injection Hf as -> ->.
  apply pick_Some in E as [Hin Hbefore]; [|apply Hwf].
  assert (Hm : m ∈ ms) by (rewrite <- elem_of_hs_iter, Ei; constructor).
  destruct (flat_score z Hwf m s) as (s' & Hs' & Es); [apply elem_of_flatten; by exists ms|].
  exists s'. split; [done|]. split; [by apply (bucket_elem z Hwf s ms)|]. split; [done|].
  intros m1 s1 Hm1. destruct (flat_complete z Hwf m1 s1 Hm1) as (s2 & Hin2 & E2).
  apply elem_of_flatten in Hin2 as (ms2 & Hin2 & _). eapply Hbefore; [done| |done].
  by apply (wf_scores z Hwf _ _ Hm1).
Qed.

Lemma first_of_None z : zset_wf z -> first_of (pick (members_by_score z)) = None ->
  member_scores z = ∅.
Proof.
  intros Hwf Hf. destruct (pick (members_by_score z)) as [[s0 ms]|] eqn:E.
  - simpl in Hf. apply pick_Some in E as [Hin _]; [|apply Hwf].
    destruct (hs_iter ms) as [|? ?] eqn:Ei; [|done].
    destruct (bucket_elem z Hwf _ _ Hin) as [Hs Hb]. exfalso.
    apply (wf_nonempty z Hwf s0 Hs). unfold bucket in Hb.
    assert (ms = ∅) as ->.
    { apply set_eq. intros x. rewrite <- elem_of_hs_iter, Ei. set_solver. }
    destruct Hwf as [[HP Hso] _ _ _]. by apply (bt_get_elem ocmp (fun x => num x)).
  - apply pick_None in E. apply map_eq. intros m. rewrite lookup_empty.
    destruct (member_scores z !! m) as [s|] eqn:Em; [|done].
    destruct (flat_complete z Hwf m s Em) as (s' & Hin & _).
    unfold flat in Hin. rewrite E in Hin. by apply not_elem_of_nil in Hin.
Qed.

Lemma pop_loop_spec fuel count z out0 : zset_wf z -> (size (member_scores z) < fuel)%nat ->
  exists out, snd (pop_loop pick fuel count z out0) = out0 ++ out /\
    pops before z out (fst (pop_loop pick fuel count z out0)) /\
    Prelude.len out = Z.min (len z) (Z.max 0 (count - Prelude.len out0)).
Proof.
  revert z out0. induction fuel as [|fuel IH]; intros z out0 Hwf Hf; [lia|]. simpl.
  destruct (Prelude.len out0 <? count) eqn:Ec; cycle 1.
  { exists []. rewrite app_nil_r. split; [done|]. split; [constructor|].
    unfold len. change (Prelude.len []) with 0. lia. }
  destruct (first_of (pick (members_by_score z))) as [[m s]|] eqn:E; cycle 1.
  { exists []. rewrite app_nil_r. split; [done|]. split; [constructor|].
    unfold len. rewrite (first_of_None z Hwf E), map_size_empty.
    change (Prelude.len []) with 0. lia. }
  destruct (first_of_pick z m s Hwf E) as (s' & Hm & Hs & Hss & Hb).
  assert (Hsz : size (member_scores z) <> 0%nat) by (by apply map_size_ne_0_lookup; exists m, s').
  assert (Hsize : size (member_scores (fst (remove m z))) = pred (size (member_scores z))).
  { by rewrite remove_scores, map_size_delete, Hm. }
  destruct (IH (fst (remove m z)) (out0 ++ [(m, s)])) as (out & Ho & Hp & Hl);
    [by apply zset_remove_wf | lia |].
  exists ((m, s) :: out). rewrite Ho, <- app_assoc. split; [done|].
  split; [by eapply pops_cons|].
  autorewrite with ferric in *. unfold len in *. change (Prelude.len []) with 0 in Hl. lia.
Qed.
End pops.

Section extremes.
Context `{HashOrder}.

Lemma head_pick l s ms : zsorted l -> head l = Some (s, ms) ->
  (s, ms) ∈ l /\ forall s1 ms1 s2, (s1, ms1) ∈ l -> num s2 -> ocmp s1 s2 = Eq -> not_above s s2.
Proof.
  intros Hl Hh. destruct l as [|[s0 ms0] l]; [done|]. injection Hh as -> ->.
  split; [constructor|]. apply bt_wf_cons in Hl as (Hs & HF & Hl).
  rewrite Forall_forall in HF. intros s1 ms1 s2 Hin Hn E. unfold not_above.
  apply elem_of_cons in Hin as [[= -> ->]|Hin]; [by rewrite E|].
  destruct (HF _ Hin) as [Hs1 Hlt]. simpl in *.
  by rewrite <- (cmp_Eq_r ocmp (fun x => num x) s s1 s2), Hlt by done.
Qed.

Lemma last_pick l s ms : zsorted l -> last l = Some (s, ms) ->
  (s, ms) ∈ l /\ forall s1 ms1 s2, (s1, ms1) ∈ l -> num s2 -> ocmp s1 s2 = Eq -> not_below s s2.
Proof.
  intros [HP Hl] Hh. apply last_Some in Hh as (k & ->). rewrite Forall_forall in HP.
  split; [set_solver|]. intros s1 ms1 s2 Hin Hn E. unfold not_below.
  assert (Hs1 : num s1) by exact (HP _ Hin).
  assert (Hs : num s) by (apply (HP (s, ms)); set_solver).
  rewrite <- (cmp_Eq_trans (cmp := ocmp) (P := fun x => num x) s1 s2 s) by done.
  apply elem_of_app in Hin as [Hin|Hin].
  - eapply StronglySorted_app_1_elem_of in Hl; [|exact Hin|by apply list_elem_of_singleton].
    unfold bt_lt in Hl. simpl in Hl. by rewrite Hl.
  - apply list_elem_of_singleton in Hin as [= -> ->]. by rewrite (cmp_refl ocmp (fun x => num x)).
Qed.

(** [pop_min] and [pop_max] take the [count] least and greatest members, or
    all of them when there are fewer. *)
Lemma pop_min_spec `{Layout} count z : zset_wf z -> with_capacity sizeof_Bytes_f64 count = Ok tt ->
  exists out, snd (pop_min count z) = Ok out /\
    pops not_above z out (fst (pop_min count z)) /\
    Prelude.len out = Z.min (len z) (Z.max 0 count).
Proof.
  intros Hwf Hc. unfold pop_min. rewrite Hc.
  destruct (pop_loop_spec not_above head) with (fuel := S (size (member_scores z)))
    (count := count) (z := z) (out0 := @nil (bytes * f64)) as (out & Ho & Hp & Hl).
  - by intros [|].
  - apply head_pick.
  - done.
  - lia.
  - destruct (pop_loop _ _ _ _ _) as [z' o]. simpl in *. subst o. exists out.
    change (Prelude.len []) with 0 in Hl. rewrite Z.sub_0_r in Hl. done.
Qed.

Lemma pop_max_spec `{Layout} count z : zset_wf z -> with_capacity sizeof_Bytes_f64 count = Ok tt ->
  exists out, snd (pop_max count z) = Ok out /\
    pops not_below z out (fst (pop_max count z)) /\
    Prelude.len out = Z.min (len z) (Z.max 0 count).
Proof.
  intros Hwf Hc. unfold pop_max. rewrite Hc.
  destruct (pop_loop_spec not_below last) with (fuel := S (size (member_scores z)))
    (count := count) (z := z) (out0 := @nil (bytes * f64)) as (out & Ho & Hp & Hl).
  - intros l. by rewrite last_None.
  - apply last_pick.
  - done.
  - lia.
  - destruct (pop_loop _ _ _ _ _) as [z' o]. simpl in *. subst o. exists out.
    change (Prelude.len []) with 0 in Hl. rewrite Z.sub_0_r in Hl. done.
Qed.
End extremes.
