(* ===== verification/Stream.v ===== *)
(** * Stream: the stream value and its entry ids

    [src/cache/src/data_structures/stream.rs].  The invariant [stream_wf] says that
    the entries are in id order and that none is above [last_id]; it is what
    makes ids unique and the log append-only. *)

From S2P Require Import Prelude Text BTree Values.
#[local] Open Scope Z_scope.

(** ** Ids *)

Module StreamId.
Record t := mk { ms : Z; seq : Z }.

#[global] Instance t_eq_dec : EqDecision t.
Proof. solve_decision. Defined.

Definition MIN : t := mk 0 0.
Definition MAX : t := mk u64_max u64_max.

(** The derived [Ord]. *)
Definition cmp (a b : t) : comparison :=
  match ms a ?= ms b with Eq => seq a ?= seq b | c => c end.
Definition leb (a b : t) : bool := match cmp a b with Gt => false | _ => true end.

Definition to_string (i : t) : bytes := show_int (ms i) ++ [x2d] ++ show_int (seq i).

(** [str::split_once('-')]. *)
Fixpoint split_once_dash (s : bytes) : option (bytes * bytes) :=
  match s with
  | [] => None
  | x2d :: r => Some ([], r)
  | b :: r => match split_once_dash r with
              | Some (p, q) => Some (b :: p, q)
              | None => None
              end
  end.

Definition invalid (s : bytes) : bytes := bs "invalid stream id: " ++ s.

Definition parse (s : bytes) (is_upper : bool) : res t :=
  if bool_decide (s = bs "-") then Ok MIN
  else if bool_decide (s = bs "+") then Ok MAX
  else if bool_decide (s = bs "$") then Ok MAX
  else match split_once_dash s with
  | Some (ms_s, seq_s) =>
      ms ← ok_or (invalid s) (parse_u64 ms_s);
      seq ← ok_or (invalid s) (parse_u64 seq_s);
      Ok (mk ms seq)
  | None =>
      ms ← ok_or (invalid s) (parse_u64 s);
      Ok (mk ms (if is_upper then u64_max else 0))
  end.
End StreamId.

(** ** Values *)

Abbreviation fields := (list (bytes * bytes)).

Module StreamValue.
Record t := mk {
  entries : list (StreamId.t * fields);
  last_id : StreamId.t;
  expires_at : option Z;
}.

Definition new : t := mk [] StreamId.MIN None.
Definition is_expired (now : Z) (s : t) : bool := past now (expires_at s).
Definition len (s : t) : Z := len (entries s).

Definition not_greater : bytes :=
  bs "ERR The ID specified in XADD is equal or smaller than the target stream top item".

(** [SystemTime::now()] as milliseconds of the epoch, 0 before it. *)
Definition now_ms (wall : Z) : Z := if 0 <=? wall then wrap_u64 wall else 0.

(** [wall] is the wall clock in milliseconds; [seq + 1] wraps. *)
Definition add (wall : Z) (requested : option StreamId.t) (fs : fields) (s : t)
  : t * res StreamId.t :=
  let id : res StreamId.t :=
    match requested with
    | Some id => if StreamId.leb id (last_id s) then Err not_greater else Ok id
    | None =>
        if StreamId.ms (last_id s) <? now_ms wall then Ok (StreamId.mk (now_ms wall) 0)
        else Ok (StreamId.mk (StreamId.ms (last_id s)) (wrap_u64 (StreamId.seq (last_id s) + 1)))
    end in
  match id with
  | Ok id => (mk (bt_insert StreamId.cmp id fs (entries s)) id (expires_at s), Ok id)
  | Err e => (s, Err e)
  | Panic => (s, Panic)
  end.

(** The loops of [range] and [read_after]: push, then stop at the limit. *)
Fixpoint take_limit (limit : option Z) (n : Z) (l : list (StreamId.t * fields))
  : list (StreamId.t * fields) :=
  match l with
  | [] => []
  | e :: l =>
      let n := n + 1 in
      e :: match limit with
           | Some m => if m <=? n then [] else take_limit limit n l
           | None => take_limit limit n l
           end
  end.

Definition range (start end' : StreamId.t) (limit : option Z) (s : t)
  : res (list (StreamId.t * fields)) :=
  r ← bt_range StreamId.cmp start end' (entries s); Ok (take_limit limit 0 r).

Definition read_after (cursor : StreamId.t) (limit : option Z) (s : t)
  : list (StreamId.t * fields) :=
  take_limit limit 0
    (filter (fun e => StreamId.leb e.1 cursor = false)
       (bt_range_from StreamId.cmp cursor (entries s))).
End StreamValue.

(** ** Laws *)

Abbreviation any_id := (fun _ : StreamId.t => True).

#[global] Instance stream_cmp_laws : CmpLaws StreamId.cmp any_id.
Proof.
  split; unfold StreamId.cmp.
  - intros [a1 a2] [b1 b2] _ _; simpl.
    rewrite (Z.compare_antisym a1 b1), (Z.compare_antisym a2 b2).
    by destruct (a1 ?= b1), (a2 ?= b2).
  - intros [a1 a2] [b1 b2] [c1 c2] _ _ _; simpl.
    destruct (Z.compare_spec a1 b1); try done.
    destruct (Z.compare_spec a2 b2); try done. by subst.
  - intros [a1 a2] [b1 b2] [c1 c2] _ _ _; simpl.
    destruct (Z.compare_spec a1 b1); try done; intros;
      destruct (Z.compare_spec b1 c1); try done; subst.
    + destruct (Z.compare_spec c1 c1); try lia; [|done..].
      destruct (Z.compare_spec a2 b2); try done.
      destruct (Z.compare_spec b2 c2); try done.
      apply Z.compare_lt_iff. lia.
    + destruct (Z.compare_spec b1 c1); try lia. done.
    + destruct (Z.compare_spec a1 c1); try lia. done.
    + destruct (Z.compare_spec a1 c1); try lia. done.
Qed.

Lemma stream_cmp_Eq a b : StreamId.cmp a b = Eq <-> a = b.
Proof.
  destruct a as [a1 a2], b as [b1 b2]. unfold StreamId.cmp; simpl. split.
  - destruct (Z.compare_spec a1 b1); try done.
    destruct (Z.compare_spec a2 b2); try done. by subst.
  - intros [= -> ->]. by rewrite !Z.compare_refl.
Qed.

Lemma stream_leb_Gt a b : StreamId.leb a b = false <-> StreamId.cmp a b = Gt.
Proof. unfold StreamId.leb. by destruct (StreamId.cmp a b). Qed.

(** *** Ids print and parse *)

Lemma split_once_dash_digits ds r :
  Forall (fun b => is_digit b = true) ds ->
  StreamId.split_once_dash (ds ++ x2d :: r) = Some (ds, r).
Proof.
  induction 1 as [|b ds Hb _ IH]; simpl; [done|].
  rewrite IH. destruct (digit_not_sign b Hb) as [_ Hd]. by destruct b.
Qed.

Lemma show_int_digits z : 0 <= z ->
  exists d ds, show_int z = d :: ds /\ Forall (fun b => is_digit b = true) (d :: ds).
Proof.
  intros Hz. unfold show_int. replace (z <? 0) with false by lia.
  destruct (show_nonneg_spec z Hz) as (d & ds & E & HF & _). by exists d, ds.
Qed.

Lemma parse_to_string i up :
  in_u64 (StreamId.ms i) = true -> in_u64 (StreamId.seq i) = true ->
  StreamId.parse (StreamId.to_string i) up = Ok i.
Proof.
  destruct i as [a b]. simpl. intros Ha Hb.
  destruct (show_int_digits a) as (d & ds & E & HF); [apply in_u64_spec in Ha; lia|].
  assert (Hs : forall x, StreamId.to_string (StreamId.mk a b) = [x] -> False).
  { intros x. unfold StreamId.to_string. simpl. rewrite E. intros [= _ Hn]. by destruct ds. }
  unfold StreamId.parse.
  rewrite !(bool_decide_eq_false_2 (StreamId.to_string _ = _)) by exact (Hs _).
  replace (StreamId.split_once_dash _) with (Some (show_int a, show_int b)).
  - by rewrite !parse_u64_show by done.
  - symmetry. unfold StreamId.to_string. simpl. apply split_once_dash_digits. by rewrite E.
Qed.

(** ** The invariant *)

Definition stream_wf (s : StreamValue.t) : Prop :=
  bt_wf StreamId.cmp any_id (StreamValue.entries s) /\
  Forall (fun e => StreamId.cmp (StreamValue.last_id s) e.1 <> Lt) (StreamValue.entries s).

Lemma stream_wf_new : stream_wf StreamValue.new.
Proof. split; [apply bt_wf_nil | constructor]. Qed.

Lemma last_id_bound s e :
  stream_wf s -> e ∈ StreamValue.entries s -> StreamId.cmp (StreamValue.last_id s) e.1 <> Lt.
Proof. intros [_ HF]. rewrite Forall_forall in HF. apply HF. Qed.

Lemma gt_last_gt_all s id : stream_wf s -> StreamId.cmp id (StreamValue.last_id s) = Gt ->
  Forall (fun e => StreamId.cmp id e.1 = Gt) (StreamValue.entries s).
Proof.
  intros [_ HF] Hid. eapply Forall_impl; [exact HF|]. intros [k v]; simpl. intros Hk.
  apply (cmp_Gt_Lt StreamId.cmp any_id) in Hid; [|done..].
  rewrite (cmp_antisym (P := any_id) k id) by done.
  destruct (StreamId.cmp (StreamValue.last_id s) k) eqn:E; [|done|].
  - apply stream_cmp_Eq in E as <-. by rewrite Hid.
  - apply (cmp_Gt_Lt StreamId.cmp any_id) in E; [|done..].
    by rewrite (cmp_Lt_trans (P := any_id) k (StreamValue.last_id s) id).
Qed.

(** The id an [add] settles on, when it is above the last one. *)
Definition fresh (wall : Z) (requested : option StreamId.t) (s : StreamValue.t) : Prop :=
  match requested with
  | Some id => StreamId.cmp id (StreamValue.last_id s) = Gt
  | None => 0 <= StreamId.seq (StreamValue.last_id s) < u64_max
  end.

#[global] Instance fresh_dec wall requested s : Decision (fresh wall requested s).
Proof. unfold fresh. destruct requested; apply _. Defined.

Lemma add_fresh wall requested fs s : stream_wf s -> fresh wall requested s ->
  exists id, StreamId.cmp id (StreamValue.last_id s) = Gt /\
    (forall r, requested = Some r -> id = r) /\
    StreamValue.add wall requested fs s =
      (StreamValue.mk (StreamValue.entries s ++ [(id, fs)]) id (StreamValue.expires_at s), Ok id).
Proof.
  intros Hwf Hf. unfold StreamValue.add.
  assert (Happ : forall id, StreamId.cmp id (StreamValue.last_id s) = Gt ->
    bt_insert StreamId.cmp id fs (StreamValue.entries s) = StreamValue.entries s ++ [(id, fs)]).
  { intros id Hid. by apply bt_insert_last, gt_last_gt_all. }
  destruct requested as [id|]; simpl in Hf.
  - rewrite (proj2 (stream_leb_Gt _ _)) by done. exists id. rewrite Happ by done.
    split; [done|]. split; [naive_solver|done].
  - destruct (StreamValue.last_id s) as [m q] eqn:E; simpl in *.
    destruct (m <? StreamValue.now_ms wall) eqn:Em.
    + exists (StreamId.mk (StreamValue.now_ms wall) 0). unfold StreamId.cmp; simpl.
      assert (Hc : (StreamValue.now_ms wall ?= m) = Gt) by (apply Z.compare_gt_iff; lia).
      rewrite Hc. split; [done|]. split; [done|]. rewrite Happ; [done|].
      unfold StreamId.cmp; simpl. by rewrite Hc.
    + exists (StreamId.mk m (wrap_u64 (q + 1))).
      assert (Hc : StreamId.cmp (StreamId.mk m (wrap_u64 (q + 1))) (StreamId.mk m q) = Gt).
      { unfold StreamId.cmp, wrap_u64; simpl. rewrite Z.compare_refl, Z.mod_small by (widths; lia).
        apply Z.compare_gt_iff. lia. }
      split; [done|]. split; [done|]. by rewrite Happ.
Qed.

Lemma stream_add_wf wall requested fs s : stream_wf s -> fresh wall requested s ->
  stream_wf (fst (StreamValue.add wall requested fs s)).
Proof.
  intros Hwf Hf. destruct (add_fresh wall requested fs s Hwf Hf) as (id & Hid & _ & ->).
  pose proof (gt_last_gt_all s id Hwf Hid) as Hall. simpl. split; simpl.
  - rewrite <- (bt_insert_last StreamId.cmp) by done.
    apply (bt_insert_wf StreamId.cmp any_id); [done | apply Hwf].
  - apply Forall_app. split; [|constructor; [|constructor]].
    + eapply Forall_impl; [exact Hall|]. by intros [k v] Hk; rewrite Hk.
    + simpl. by rewrite (cmp_refl StreamId.cmp any_id).
Qed.

Lemma add_rejected wall id fs s :
  StreamId.cmp id (StreamValue.last_id s) <> Gt ->
  StreamValue.add wall (Some id) fs s = (s, Err StreamValue.not_greater).
Proof.
  intros Hid. unfold StreamValue.add. unfold StreamId.leb.
  by destruct (StreamId.cmp id (StreamValue.last_id s)).
Qed.

(** At the last sequence number the next automatic id of the same millisecond
    wraps to sequence 0, below the last id. *)
Lemma add_auto_wraps wall fs s :
  StreamId.seq (StreamValue.last_id s) = u64_max ->
  StreamValue.now_ms wall <= StreamId.ms (StreamValue.last_id s) ->
  exists id, snd (StreamValue.add wall None fs s) = Ok id /\
    StreamId.cmp id (StreamValue.last_id s) = Lt.
Proof.
  intros Hs Hw. unfold StreamValue.add. destruct (StreamValue.last_id s) as [m q]; simpl in *.
  subst q. replace (m <? StreamValue.now_ms wall) with false by lia. simpl.
  eexists. split; [done|]. unfold StreamId.cmp; simpl. by rewrite Z.compare_refl.
Qed.

(** ** Reading *)

(** The first entries up to a limit; a limit of 0 still lets one through. *)
Definition limited (limit : option Z) (l : list (StreamId.t * fields)) :=
  match limit with
  | Some n => take (Z.to_nat (Z.max 1 n)) l
  | None => l
  end.

Lemma take_limit_spec limit k l : 0 <= k ->
  StreamValue.take_limit limit k l =
  match limit with
  | Some n => take (Z.to_nat (Z.max 1 (n - k))) l
  | None => l
  end.
Proof.
  revert k. induction l as [|e l IH]; intros k Hk; simpl.
  { destruct limit; [by rewrite take_nil | done]. }
  destruct limit as [n|]; [|by rewrite IH by lia].
  destruct (n <=? k + 1) eqn:E.
  - by replace (Z.to_nat (Z.max 1 (n - k))) with 1%nat by lia.
  - rewrite IH by lia.
    replace (Z.to_nat (Z.max 1 (n - k))) with (S (Z.to_nat (Z.max 1 (n - (k + 1))))) by lia. done.
Qed.

Lemma take_limit_limited limit l : StreamValue.take_limit limit 0 l = limited limit l.
Proof. rewrite take_limit_spec by lia. unfold limited. destruct limit; by rewrite ?Z.sub_0_r. Qed.

Lemma stream_range_spec start end' limit s :
  StreamValue.range start end' limit s =
  if StreamId.leb start end' then
    Ok (limited limit
      (filter (fun e => StreamId.leb start e.1 && StreamId.leb e.1 end' = true)
         (StreamValue.entries s)))
  else Panic.
Proof.
  unfold StreamValue.range, bt_range. unfold StreamId.leb at 1.
  assert (Hf : filter (fun '(k, _) => StreamId.cmp start k <> Gt /\ StreamId.cmp k end' <> Gt)
    (StreamValue.entries s) =
    filter (fun e => StreamId.leb start e.1 && StreamId.leb e.1 end' = true)
         (StreamValue.entries s)).
  { apply list_filter_iff. intros [k v]. simpl. unfold StreamId.leb.
    destruct (StreamId.cmp start k), (StreamId.cmp k end'); simpl; intuition congruence. }
  destruct (StreamId.cmp start end'); simpl; by rewrite ?take_limit_limited, ?Hf.
Qed.

Lemma read_after_spec cursor limit s :
  StreamValue.read_after cursor limit s =
  limited limit (filter (fun e => StreamId.leb e.1 cursor = false) (StreamValue.entries s)).
Proof.
  unfold StreamValue.read_after. rewrite take_limit_limited. f_equal.
  unfold bt_range_from. rewrite list_filter_filter. apply list_filter_iff.
  intros [k v]. simpl. rewrite stream_leb_Gt. split; [tauto|]. intros Hk. split; [done|].
  by rewrite (cmp_Gt_Lt StreamId.cmp any_id k cursor).
Qed.

(** What was appended since [last_id] is what a reader at [last_id] gets. *)
Lemma read_after_add wall requested fs s limit : stream_wf s -> fresh wall requested s ->
  exists id, snd (StreamValue.add wall requested fs s) = Ok id /\
    StreamValue.read_after (StreamValue.last_id s) limit
      (fst (StreamValue.add wall requested fs s)) = [(id, fs)].
Proof.
  intros Hwf Hf. destruct (add_fresh wall requested fs s Hwf Hf) as (id & Hid & _ & ->).
  exists id. split; [done|]. rewrite read_after_spec. simpl. rewrite filter_app.
  rewrite filter_cons_True by (by apply stream_leb_Gt). rewrite filter_nil.
  replace (filter _ (StreamValue.entries s)) with (@nil (StreamId.t * fields)).
  - simpl. unfold limited. destruct limit as [n|]; [|done].
    replace (Z.to_nat (Z.max 1 n)) with (S (Z.to_nat (Z.max 0 (n - 1)))) by lia.
    simpl. by rewrite take_nil.
  - symmetry. apply filter_none. intros e He Hb.
    apply (last_id_bound s e Hwf He). rewrite stream_leb_Gt in Hb.
    by apply (cmp_Gt_Lt StreamId.cmp any_id).
Qed.

#[export] Hint Resolve stream_wf_new stream_add_wf : ferric.
