(* ===== verification/Keyspace.v ===== *)
(** * Keyspace: the values under keys, and what a map of them promises

    [CacheValue] is [src/cache/src/data_structures/mod.rs]; the accessors of
    the expiry slot are at the end of [src/cache/src/storage.rs].

    [CacheStorage] sees its data through the shards of a [ShardedMap]: every
    operation on a key locks the shard of the key, looks the key up and
    inserts, changes or removes it; the operations on the whole database visit
    the shards one after the other.  [KeyMap] is that interface and
    [KeyMapLaws] what it promises: [abs] reads a map of shards as one finite
    map.  The operations of [Storage] are written against the interface and
    their theorems are proved from the laws. *)

From S2P Require Import Prelude Text External Float64 Values SortedSet Stream.
#[local] Open Scope Z_scope.

(** ** Values *)

Inductive CacheValue :=
| CString (value : bytes) (expires_at : option Z)
| CHash (h : HashValue.t)
| CList (l : ListValue.t)
| CSet (s : SetValue.t)
| CSortedSet (z : SortedSetValue.t)
| CStream (s : StreamValue.t).

Definition is_expired (now : Z) (v : CacheValue) : bool :=
  match v with
  | CString _ (Some expires_at) => expires_at <? now
  | CHash h => HashValue.is_expired now h
  | CList l => ListValue.is_expired now l
  | CSet s => SetValue.is_expired now s
  | CSortedSet z => SortedSetValue.is_expired now z
  | CStream s => StreamValue.is_expired now s
  | CString _ None => false
  end.

Definition expires_at_ref (v : CacheValue) : option Z :=
  match v with
  | CString _ slot => slot
  | CHash h => HashValue.expires_at h
  | CList l => ListValue.expires_at l
  | CSet s => SetValue.expires_at s
  | CSortedSet z => SortedSetValue.expires_at z
  | CStream s => StreamValue.expires_at s
  end.

(** [*expires_at_mut(value) = slot]. *)
Definition expires_at_mut (slot : option Z) (v : CacheValue) : CacheValue :=
  match v with
  | CString b _ => CString b slot
  | CHash h => CHash (HashValue.mk (HashValue.fields h) slot)
  | CList l => CList (ListValue.mk (ListValue.items l) slot)
  | CSet s => CSet (SetValue.mk (SetValue.members s) slot)
  | CSortedSet z =>
      CSortedSet (SortedSetValue.mk (SortedSetValue.members_by_score z)
                    (SortedSetValue.member_scores z) slot)
  | CStream s => CStream (StreamValue.mk (StreamValue.entries s) (StreamValue.last_id s) slot)
  end.

(** One notion of expiry for the six types. *)
Lemma is_expired_past now v : is_expired now v = past now (expires_at_ref v).
Proof. by destruct v as [? []| | | | |]. Qed.

Lemma expires_at_ref_mut slot v : expires_at_ref (expires_at_mut slot v) = slot.
Proof. by destruct v. Qed.

Lemma expires_at_mut_mut s1 s2 v : expires_at_mut s1 (expires_at_mut s2 v) = expires_at_mut s1 v.
Proof. by destruct v. Qed.

Lemma expires_at_mut_ref v : expires_at_mut (expires_at_ref v) v = v.
Proof. by destruct v as [| [] | [] | [] | [] | []]. Qed.

#[export] Hint Rewrite is_expired_past expires_at_ref_mut expires_at_mut_mut : ferric.

(** An entry that is there and has not expired. *)
Definition live (now : Z) (e : option CacheValue) : option CacheValue :=
  match e with
  | Some v => if is_expired now v then None else Some v
  | None => None
  end.

(** ** The interface *)

Abbreviation table := (gmap bytes CacheValue).

Class KeyMap (M : Type) := {
  empty_map : M;
  (** [shard(key).read().get(key)]. *)
  entry : bytes -> M -> option CacheValue;
  (** [insert], [remove] and assignment through [get_mut], under the write lock. *)
  set_entry : bytes -> option CacheValue -> M -> M;
  (** [shards()]: the tables, and an update of each. *)
  shards : M -> list table;
  map_shards : (table -> table) -> M -> M;
}.

Class KeyMapLaws (M : Type) `{KeyMap M} := {
  inv : M -> Prop;
  abs : M -> table;
  empty_inv : inv empty_map;
  empty_abs : abs empty_map = ∅;
  entry_abs : forall k m, inv m -> entry k m = abs m !! k;
  set_entry_inv : forall k e m, inv m -> inv (set_entry k e m);
  set_entry_abs : forall k e m, inv m -> abs (set_entry k e m) = partial_alter (fun _ => e) k (abs m);
  set_entry_id : forall k m, inv m -> set_entry k (entry k m) m = m;
  (** Shards that drop entries, each by a test of the entry alone. *)
  filter_inv : forall (P : CacheValue -> bool) m, inv m ->
    inv (map_shards (filter (fun kv => P kv.2 = true)) m);
  filter_abs : forall (P : CacheValue -> bool) m, inv m ->
    abs (map_shards (filter (fun kv => P kv.2 = true)) m) =
    filter (fun kv => P kv.2 = true) (abs m);
  clear_inv : forall m, inv m -> inv (map_shards (fun _ => ∅) m);
  clear_abs : forall m, inv m -> abs (map_shards (fun _ => ∅) m) = ∅;
  (** The shards hold every entry once. *)
  shards_perm : forall m, inv m -> concat (map_to_list <$> shards m) ≡ₚ map_to_list (abs m);
}.
#[global] Hint Mode KeyMapLaws ! - : typeclass_instances.

(** A finite map is the simplest map of keys: one shard. *)
#[export] Instance table_map : KeyMap table := {|
  empty_map := ∅;
  entry k m := m !! k;
  set_entry k e m := partial_alter (fun _ => e) k m;
  shards m := [m];
  map_shards f m := f m;
|}.

#[export] Program Instance table_laws : KeyMapLaws table := {|
  inv _ := True;
  abs m := m;
|}.
Solve All Obligations with done.
Next Obligation.
  intros k m _. simpl. apply map_eq. intros j. destruct (decide (j = k)) as [->|Hj].
  - by rewrite lookup_partial_alter_eq.
  - by rewrite lookup_partial_alter_ne.
Qed.
Next Obligation. intros m _. simpl. by rewrite app_nil_r. Qed.

(** ** Operations on one key

    The body of an operation that holds the write lock of one shard: from the
    entry of the key to the new entry and the result. *)

Definition with_entry `{KeyMap M} {A} (k : bytes)
    (f : option CacheValue -> option CacheValue * A) (m : M) : M * A :=
  let '(e, a) := f (entry k m) in (set_entry k e m, a).

Section with_entry.
Context `{KeyMapLaws M}.

Lemma entry_set_entry k e m j : inv m ->
  entry j (set_entry k e m) = if decide (j = k) then e else entry j m.
Proof.
  intros Hm. rewrite !entry_abs, set_entry_abs by auto using set_entry_inv.
  case_decide; subst; [apply lookup_partial_alter_eq | by apply lookup_partial_alter_ne].
Qed.

Lemma with_entry_inv {A} k (f : _ -> _ * A) m : inv m -> inv (fst (with_entry k f m)).
Proof. intros Hm. unfold with_entry. destruct (f _). by apply set_entry_inv. Qed.

Lemma with_entry_result {A} k (f : _ -> _ * A) m : snd (with_entry k f m) = snd (f (entry k m)).
Proof. unfold with_entry. by destruct (f _). Qed.

Lemma with_entry_entry {A} k (f : _ -> _ * A) m j : inv m ->
  entry j (fst (with_entry k f m)) = if decide (j = k) then fst (f (entry k m)) else entry j m.
Proof. intros Hm. unfold with_entry. destruct (f _) eqn:E. simpl. by rewrite entry_set_entry. Qed.

(** An operation that leaves the entry as it is leaves the map as it is. *)
Lemma with_entry_same {A} k (f : _ -> _ * A) m : inv m ->
  fst (f (entry k m)) = entry k m -> fst (with_entry k f m) = m.
Proof.
  intros Hm Hf. unfold with_entry. destruct (f _) as [e a]; simpl in *. subst e.
  by apply set_entry_id.
Qed.

(** The same operation on the finite map the shards stand for. *)
Lemma with_entry_abs {A} k (f : _ -> _ * A) m : inv m ->
  abs (fst (with_entry k f m)) = fst (with_entry k f (abs m)) /\
  snd (with_entry k f m) = snd (with_entry k f (abs m)).
Proof.
  intros Hm. unfold with_entry. rewrite entry_abs by done. simpl.
  destruct (f _) as [e a]. simpl. by rewrite set_entry_abs.
Qed.
End with_entry.

#[export] Hint Resolve empty_inv set_entry_inv with_entry_inv filter_inv clear_inv : ferric.
