(* ===== verification/ShardedMap.v ===== *)
(** * ShardedMap: the 64 hash tables behind the storage

    [ShardedMap] of [src/cache/src/storage.rs].  A key lives in the shard that
    the low bits of its hash select.  The invariant says so of every key that
    is stored; from it follow the laws of [KeyMap], so that no operation can
    tell 64 tables from one. *)

From S2P Require Import Prelude External Values Keyspace.
#[local] Open Scope Z_scope.

Definition SHARD_COUNT : Z := 64.
Definition SHARD_MASK : Z := SHARD_COUNT - 1.

Record ShardedMap := mk { tables : list table }.

Definition new : ShardedMap := mk (replicate (Z.to_nat SHARD_COUNT) ∅).

Section sharded.
Context `{Xxh3}.

(** The index of the shard that owns a key. *)
Definition shard_index (key : bytes) : nat := Z.to_nat (Z.land (xxh3_64 key) SHARD_MASK).

(** [shard(key)], the table itself. *)
Definition shard (key : bytes) (m : ShardedMap) : table :=
  default ∅ (tables m !! shard_index key).

Definition shard_set (key : bytes) (e : option CacheValue) (m : ShardedMap) : ShardedMap :=
  mk (alter (partial_alter (fun _ => e) key) (shard_index key) (tables m)).

#[global] Instance sharded_map : KeyMap ShardedMap := {|
  empty_map := new;
  entry k m := shard k m !! k;
  set_entry := shard_set;
  shards := tables;
  map_shards f m := mk (f <$> tables m);
|}.

(** ** The invariant *)

Record sharded_inv (m : ShardedMap) : Prop := {
  inv_count : length (tables m) = Z.to_nat SHARD_COUNT;
  inv_home : forall i t k, tables m !! i = Some t -> is_Some (t !! k) -> i = shard_index k;
}.

Lemma shard_index_lt k : (shard_index k < Z.to_nat SHARD_COUNT)%nat.
Proof.
  unfold shard_index. assert (Hl : 0 <= Z.land (xxh3_64 k) SHARD_MASK < 64).
  { change SHARD_MASK with (Z.ones 6). rewrite Z.land_ones by lia.
    apply Z.mod_pos_bound. lia. }
  unfold SHARD_COUNT. lia.
Qed.

Lemma shard_lookup k m : sharded_inv m -> tables m !! shard_index k = Some (shard k m).
Proof.
  intros [Hc _]. unfold shard. pose proof (shard_index_lt k).
  destruct (lookup_lt_is_Some_2 (tables m) (shard_index k)) as [t ->]; [lia|]. done.
Qed.

(** A shard-wise update keeps every key home when it adds no key to a shard
    but one that the shard owns. *)
Lemma fmap_inv f m : (forall t k, is_Some (f t !! k) -> is_Some (t !! k)) ->
  sharded_inv m -> sharded_inv (mk (f <$> tables m)).
Proof.
  intros Hf [Hc Hh]. split; simpl.
  - by rewrite length_fmap.
  - intros i t k Hi Hk. rewrite list_lookup_fmap in Hi.
    apply fmap_Some in Hi as (t0 & Hi & ->). eapply Hh; [done|]. by apply Hf.
Qed.

Lemma shard_set_inv k e m : sharded_inv m -> sharded_inv (shard_set k e m).
Proof.
  intros [Hc Hh]. split; simpl.
  - by rewrite length_alter.
  - intros i t j Hi Hj. destruct (decide (i = shard_index k)) as [->|Hi'].
    + rewrite list_lookup_alter_eq in Hi. apply fmap_Some in Hi as (t0 & Hi & ->).
      destruct (decide (j = k)) as [->|Hjk]; [done|].
      rewrite lookup_partial_alter_ne in Hj by done. by eapply Hh.
    + rewrite list_lookup_alter_ne in Hi by done. by eapply Hh.
Qed.

Lemma new_inv : sharded_inv new.
Proof.
  split; [done|]. intros i t k Hi. apply lookup_replicate in Hi as [-> _].
  rewrite lookup_empty. by intros [].
Qed.

(** ** The finite map the shards stand for *)

Definition sharded_abs (m : ShardedMap) : table := ⋃ (tables m).

Lemma lookup_union_list (ts : list table) k v :
  (forall i j t u, ts !! i = Some t -> ts !! j = Some u ->
    is_Some (t !! k) -> is_Some (u !! k) -> i = j) ->
  (⋃ ts) !! k = Some v <-> exists i t, ts !! i = Some t /\ t !! k = Some v.
Proof.
  induction ts as [|t ts IH]; intros Hd; simpl.
  { rewrite lookup_empty. split; [done|]. by intros (? & ? & ? & _). }
  rewrite lookup_union, union_Some, IH; cycle 1.
  { intros i j t1 u Hi Hj Ht Hu. specialize (Hd (S i) (S j) t1 u Hi Hj Ht Hu). lia. }
  split.
  - intros [Ht|[_ (i & u & Hi & Hu)]]; [by exists 0%nat, t | by exists (S i), u].
  - intros ([|i] & u & Hi & Hu); simpl in Hi; [naive_solver|]. right. split; [|naive_solver].
    destruct (t !! k) eqn:E; [|done].
    specialize (Hd 0%nat (S i) t u eq_refl Hi ltac:(by rewrite E) ltac:(by rewrite Hu)). done.
Qed.

Lemma lookup_sharded_abs m k : sharded_inv m -> sharded_abs m !! k = shard k m !! k.
Proof.
  intros Hm. apply option_eq. intros v. unfold sharded_abs. rewrite lookup_union_list.
  - split.
    + intros (i & t & Hi & Hv).
      assert (i = shard_index k) as -> by (eapply inv_home; [done..|]; by rewrite Hv).
      rewrite shard_lookup in Hi by done. by injection Hi as ->.
    + intros Hv. exists (shard_index k), (shard k m). auto using shard_lookup.
  - intros i j t u Hi Hj Ht Hu. trans (shard_index k); [|symmetry]; by eapply inv_home.
Qed.

Lemma shard_fmap f m k : sharded_inv m -> f ∅ = ∅ -> shard k (mk (f <$> tables m)) = f (shard k m).
Proof.
  intros Hm Hf. unfold shard. simpl. rewrite list_lookup_fmap.
  by destruct (tables m !! shard_index k).
Qed.

Lemma sharded_abs_filter (P : CacheValue -> bool) m : sharded_inv m ->
  sharded_inv (mk (filter (fun kv => P kv.2 = true) <$> tables m)) /\
  sharded_abs (mk (filter (fun kv => P kv.2 = true) <$> tables m)) =
  filter (fun kv => P kv.2 = true) (sharded_abs m).
Proof.
  intros Hm. assert (Hi : sharded_inv (mk (filter (fun kv => P kv.2 = true) <$> tables m))).
  { apply fmap_inv; [|done]. intros t k [v Hv]. apply map_lookup_filter_Some in Hv as [Hv _].
    by exists v. }
  split; [done|]. apply map_eq. intros k.
  rewrite lookup_sharded_abs, shard_fmap by (done || apply map_filter_empty).
  by rewrite !map_lookup_filter, lookup_sharded_abs.
Qed.

Lemma shard_set_id k m : sharded_inv m -> shard_set k (shard k m !! k) m = m.
Proof.
  intros Hm. destruct m as [ts]. unfold shard_set. f_equal. simpl.
  pose proof (shard_lookup k _ Hm) as Hs. simpl in Hs.
  apply list_eq. intros i. rewrite list_lookup_alter. case_decide; [subst i|done].
  rewrite Hs. simpl. f_equal. apply partial_alter_self.
Qed.

Lemma sharded_abs_set k e m : sharded_inv m ->
  sharded_abs (shard_set k e m) = partial_alter (fun _ => e) k (sharded_abs m).
Proof.
  intros Hm. apply map_eq. intros j.
  rewrite lookup_sharded_abs by by apply shard_set_inv.
  destruct (decide (j = k)) as [->|Hj].
  - rewrite lookup_partial_alter_eq. unfold shard, shard_set. simpl.
    rewrite list_lookup_alter_eq, shard_lookup by done. simpl. apply lookup_partial_alter_eq.
  - rewrite lookup_partial_alter_ne, lookup_sharded_abs by done. unfold shard, shard_set. simpl.
    destruct (decide (shard_index j = shard_index k)) as [E|E].
    + rewrite E, list_lookup_alter_eq. destruct (tables m !! _); simpl; [|done].
      by apply lookup_partial_alter_ne.
    + by rewrite list_lookup_alter_ne.
Qed.

Lemma union_list_perm (ts : list table) :
  (forall k i j t u, ts !! i = Some t -> ts !! j = Some u ->
    is_Some (t !! k) -> is_Some (u !! k) -> i = j) ->
  concat (map_to_list <$> ts) ≡ₚ map_to_list (⋃ ts).
Proof.
  induction ts as [|t ts IH]; intros Hd; simpl; [done|].
  assert (Hd' : forall k i j t1 u, ts !! i = Some t1 -> ts !! j = Some u ->
    is_Some (t1 !! k) -> is_Some (u !! k) -> i = j).
  { intros k i j t1 u Hi Hj Ht Hu. specialize (Hd k (S i) (S j) t1 u Hi Hj Ht Hu). lia. }
  rewrite IH by done. symmetry. apply map_to_list_union.
  apply map_disjoint_spec. intros k x y Hx Hy.
  apply lookup_union_list in Hy as (i & u & Hi & Hu); [|by apply Hd'].
  specialize (Hd k 0%nat (S i) t u eq_refl Hi ltac:(by rewrite Hx) ltac:(by rewrite Hu)). done.
Qed.

#[global] Program Instance sharded_laws : KeyMapLaws ShardedMap := {|
  inv := sharded_inv;
  abs := sharded_abs;
|}.
Next Obligation. exact new_inv. Qed.
Next Obligation.
  apply map_eq. intros k. change (sharded_abs new !! k = (∅ : table) !! k).
  rewrite lookup_sharded_abs by exact new_inv. unfold shard, new, tables. rewrite lookup_empty.
  destruct (replicate _ _ !! _) eqn:E; [|done]. by apply lookup_replicate in E as [-> _].
Qed.
Next Obligation. intros k m Hm. simpl. by rewrite lookup_sharded_abs. Qed.
Next Obligation. intros. by apply shard_set_inv. Qed.
Next Obligation. intros. by apply sharded_abs_set. Qed.
Next Obligation. intros. by apply shard_set_id. Qed.
Next Obligation. intros. by apply sharded_abs_filter. Qed.
Next Obligation. intros. by apply sharded_abs_filter. Qed.
Next Obligation.
  intros m Hm. apply fmap_inv; [|done]. intros t k. rewrite lookup_empty. by intros [].
Qed.
Next Obligation.
  intros m Hm. simpl. apply map_eq. intros k. rewrite lookup_sharded_abs.
  - by rewrite shard_fmap, !lookup_empty.
  - apply fmap_inv; [|done]. intros t j. rewrite lookup_empty. by intros [].
Qed.
Next Obligation.
  intros m Hm. apply union_list_perm. intros k i j t u Hi Hj Ht Hu.
  trans (shard_index k); [|symmetry]; by eapply inv_home.
Qed.

Lemma abs_new : abs new = ∅.
Proof. exact (empty_abs (M := ShardedMap)). Qed.

Lemma entry_new k : entry k new = None.
Proof.
  assert (Hn : inv new) by exact new_inv. by rewrite entry_abs, abs_new, lookup_empty.
Qed.
End sharded.
