(* ===== verification/Storage.v ===== *)
(** * Storage: strings, expiry and the whole database

    [impl CacheStorage] of [src/cache/src/storage.rs], the operations on string
    values, on the expiry slot and on the keyspace; [StorageTypes] has the
    operations on the other types.  A method that takes a write lock is a
    function from the map to the map and the method's result; one that takes
    a read lock is a function of the map.  [now] is the monotonic clock. *)

From S2P Require Import Prelude Text External Float64 Values SortedSet Stream Keyspace.
#[local] Open Scope Z_scope.

Definition WRONGTYPE : bytes :=
  bs "WRONGTYPE Operation against a key holding the wrong kind of value".
Definition not_an_integer : bytes := bs "Value is not an integer".
Definition no_such_key : bytes := bs "ERR no such key".

(** [String::from_utf8_lossy(bytes).parse::<i64>()]. *)
Definition parse_stored_i64 (b : bytes) : option Z := parse_i64 (from_utf8_lossy b).

(** The clamping of an index pair that [LTRIM] and [ZREVRANGE] share: a
    half-open range of [usize]; [stop + 1] is an [i64] and wraps. *)
Definition clamp_start (len start : Z) : Z :=
  as_usize (if start <? 0 then Z.max (len + start) 0 else Z.min start len).
Definition clamp_stop (len stop : Z) : Z :=
  as_usize (if stop <? 0 then Z.max (len + stop) (-1) + 1
            else Z.min (wrap_i64 (stop + 1)) len).

(** [&v[s..e]], [v.slice(s..e)]: a slice that is out of range panics. *)
Definition slice {A} (s e : Z) (l : list A) : res (list A) :=
  if (s <=? e) && (e <=? len l) then Ok (take (Z.to_nat (e - s)) (drop (Z.to_nat s) l))
  else Panic.

Section storage.
Context `{KeyMap M}.

(** ** Strings *)

Definition get (now : Z) (key : bytes) (m : M) : option bytes :=
  match entry key m with
  | None => None
  | Some v =>
      if is_expired now v then None
      else match v with CString value _ => Some value | _ => None end
  end.

Definition set (now : Z) (key value : bytes) (ttl : option Z) (m : M) : M * res bool :=
  let expires_at : res (option Z) :=
    match ttl with
    | Some d => at' ← instant_add now d; Ok (Some at')
    | None => Ok None
    end in
  match expires_at with
  | Ok expires_at => (set_entry key (Some (CString value expires_at)) m, Ok true)
  | Err e => (m, Err e)
  | Panic => (m, Panic)
  end.

Definition delete (key : bytes) : M -> M * bool :=
  with_entry key (fun e => (None, bool_decide (is_Some e))).

(** [current + 1] is not checked: it wraps. *)
Definition incr (key : bytes) : M -> M * res Z :=
  with_entry key (fun e =>
    match e with
    | Some (CString b at') =>
        match parse_stored_i64 b with
        | Some current =>
            let new_value := wrap_i64 (current + 1) in
            (Some (CString (show_int new_value) at'), Ok new_value)
        | None => (e, Err not_an_integer)
        end
    | Some _ => (e, Err WRONGTYPE)
    | None => (Some (CString (bs "1") None), Ok 1)
    end).

Definition decr (key : bytes) : M -> M * res Z :=
  with_entry key (fun e =>
    match e with
    | Some (CString b at') =>
        match parse_stored_i64 b with
        | Some current =>
            let new_value := wrap_i64 (current - 1) in
            (Some (CString (show_int new_value) at'), Ok new_value)
        | None => (e, Err not_an_integer)
        end
    | Some _ => (e, Err WRONGTYPE)
    | None => (Some (CString (bs "-1") None), Ok (-1))
    end).

Definition append (key value : bytes) : M -> M * res Z :=
  with_entry key (fun e =>
    match e with
    | Some (CString existing at') =>
        let combined := existing ++ value in
        (Some (CString combined at'), Ok (len combined))
    | Some _ => (e, Err WRONGTYPE)
    | None => (Some (CString value None), Ok (len value))
    end).

Definition strlen (key : bytes) (m : M) : res Z :=
  match entry key m with
  | Some (CString b _) => Ok (len b)
  | Some _ => Err WRONGTYPE
  | None => Ok 0
  end.

Definition set_nx (now : Z) (key value : bytes) : M -> M * bool :=
  with_entry key (fun e =>
    match e with
    | Some v => if negb (is_expired now v) then (e, false) else (Some (CString value None), true)
    | None => (Some (CString value None), true)
    end).

Definition set_ex (now : Z) (key value : bytes) (ttl : Z) (m : M) : M * res unit :=
  match instant_add now ttl with
  | Ok expires_at => (set_entry key (Some (CString value (Some expires_at))) m, Ok tt)
  | Err e => (m, Err e)
  | Panic => (m, Panic)
  end.

Definition get_set (now : Z) (key value : bytes) : M -> M * res (option bytes) :=
  with_entry key (fun e =>
    match e with
    | Some (CString b _) => (Some (CString value None), Ok (Some b))
    | Some v =>
        if negb (is_expired now v) then (e, Err WRONGTYPE)
        else (Some (CString value None), Ok None)
    | None => (Some (CString value None), Ok None)
    end).

Definition incr_by (key : bytes) (delta : Z) : M -> M * res Z :=
  with_entry key (fun e =>
    match e with
    | Some (CString b at') =>
        match parse_stored_i64 b with
        | Some current =>
            match checked_add_i64 current delta with
            | Some new_value => (Some (CString (show_int new_value) at'), Ok new_value)
            | None => (e, Err (bs "ERR increment or decrement would overflow"))
            end
        | None => (e, Err not_an_integer)
        end
    | Some _ => (e, Err WRONGTYPE)
    | None => (Some (CString (show_int delta) None), Ok delta)
    end).

Definition incr_by_float (key : bytes) (delta : f64) : M -> M * res f64 :=
  with_entry key (fun e =>
    match e with
    | Some (CString b at') =>
        match parse_f64 (from_utf8_lossy b) with
        | Some current =>
            let new_value := f64_add current delta in
            if negb (is_finite new_value)
            then (e, Err (bs "ERR increment would produce NaN or Infinity"))
            else (Some (CString (f64_to_string new_value) at'), Ok new_value)
        | None => (e, Err (bs "Value is not a valid float"))
        end
    | Some _ => (e, Err WRONGTYPE)
    | None => (Some (CString (f64_to_string delta) None), Ok delta)
    end).

Definition get_range (key : bytes) (start end' : Z) (m : M) : res (option bytes) :=
  match entry key m with
  | Some (CString b _) =>
      let n := len b in
      if n =? 0 then Ok (Some [])
      else
        let s := as_usize (if start <? 0 then Z.max (n + start) 0 else Z.min start n) in
        let e := as_usize (if end' <? 0 then Z.max (n + end') 0 else Z.min end' (n - 1)) in
        if e <? s then Ok (Some [])
        else r ← slice s (Z.min e (n - 1) + 1) b; Ok (Some r)
  | Some _ => Ok None
  | None => Ok None
  end.

(** ** The whole database *)

Definition exists' (now : Z) (keys : list bytes) (m : M) : Z :=
  len (filter (fun key => match entry key m with
                          | Some v => negb (is_expired now v)
                          | None => false
                          end = true) keys).

(** [str::contains], and [pattern.replace('*', "")]. *)
Fixpoint starts_with (p s : bytes) : bool :=
  match p, s with
  | [], _ => true
  | a :: p, b :: s => bool_decide (a = b) && starts_with p s
  | _ :: _, [] => false
  end.
Fixpoint contains (p s : bytes) : bool :=
  starts_with p s || match s with [] => false | _ :: s => contains p s end.
Definition matches_pattern_static (key pattern : bytes) : bool :=
  if bool_decide (pattern = bs "*") then true
  else contains (filter (fun b => b <> x2a) pattern) key.

Definition keys `{HashOrder} (now : Z) (pattern : bytes) (m : M) : list bytes :=
  concat (map (fun t : table =>
    if bool_decide (pattern = bs "*") then
      map fst (filter (fun kv => negb (is_expired now kv.2) = true) (hm_iter t))
    else
      map fst (filter (fun kv => negb (is_expired now kv.2) &&
                                 matches_pattern_static (from_utf8_lossy kv.1) pattern = true)
                 (hm_iter t))) (shards m)).

Definition flushall : M -> M := map_shards (fun _ => ∅).

Definition dbsize `{HashOrder} (now : Z) (m : M) : Z :=
  foldr Z.add 0 (map (fun t : table =>
    len (filter (fun kv => negb (is_expired now kv.2) = true) (hm_iter t))) (shards m)).

(** ** Expiry *)

Definition set_expiry (now : Z) (key : bytes) (expires_at : Z) : M -> M * bool :=
  with_entry key (fun e =>
    match e with
    | Some value =>
        if negb (is_expired now value) then (Some (expires_at_mut (Some expires_at) value), true)
        else (e, false)
    | None => (e, false)
    end).

(** [Duration::as_millis() as i64]. *)
Definition as_millis_i64 (d : Z) : Z := wrap_i64 (d / ns_per_ms).

Definition pttl_millis (now : Z) (key : bytes) (m : M) : option Z :=
  match entry key m with
  | None => None
  | Some value =>
      if is_expired now value then None
      else match expires_at_ref value with
           | None => Some (-1)
           | Some at' => if at' <=? now then Some 0 else Some (as_millis_i64 (at' - now))
           end
  end.

Definition persist (now : Z) (key : bytes) : M -> M * bool :=
  with_entry key (fun e =>
    match e with
    | Some value =>
        if negb (is_expired now value) then
          match expires_at_ref value with
          | Some _ => (Some (expires_at_mut None value), true)
          | None => (e, false)
          end
        else (e, false)
    | None => (e, false)
    end).

Definition cleanup_expired (now : Z) : M -> M :=
  map_shards (filter (fun kv => negb (is_expired now kv.2) = true)).

Definition get_all_entries `{HashOrder} (m : M) : list (bytes * CacheValue) :=
  concat (map (fun t : table => hm_iter t) (shards m)).

(** ** Keys of any type *)

Definition type_of (now : Z) (key : bytes) (m : M) : bytes :=
  match entry key m with
  | Some v =>
      if negb (is_expired now v) then
        match v with
        | CString _ _ => bs "string"
        | CHash _ => bs "hash"
        | CList _ => bs "list"
        | CSet _ => bs "set"
        | CSortedSet _ => bs "zset"
        | CStream _ => bs "stream"
        end
      else bs "none"
  | None => bs "none"
  end.

(** The two lock scopes of [rename]: the source is removed, then the
    destination is inserted. *)
Definition rename_take (now : Z) (key : bytes) : M -> M * res CacheValue :=
  with_entry key (fun e =>
    (None, match e with
           | Some v => if negb (is_expired now v) then Ok v else Err no_such_key
           | None => Err no_such_key
           end)).
Definition rename (now : Z) (key new_key : bytes) (m : M) : M * res unit :=
  let '(m, value) := rename_take now key m in
  match value with
  | Ok value => (set_entry new_key (Some value) m, Ok tt)
  | Err e => (m, Err e)
  | Panic => (m, Panic)
  end.

(** The first shard, in a random order, that has a live entry supplies the key. *)
Fixpoint random_key_loop `{HashOrder, Rng} (now : Z) (i : nat) (order : list nat)
    (ts : list table) : option bytes :=
  match order with
  | [] => None
  | j :: order =>
      match choose i (filter (fun kv => negb (is_expired now kv.2) = true)
                        (hm_iter (default ∅ (ts !! j)))) with
      | Some (k, _) => Some k
      | None => random_key_loop now (S i) order ts
      end
  end.
Definition random_key `{HashOrder, Rng} (now : Z) (m : M) : option bytes :=
  random_key_loop now 0 (shuffled (length (shards m))) (shards m).
End storage.
