(* ===== verification/StorageTypes.v ===== *)
(** * StorageTypes: hashes, lists, sets, sorted sets and streams

    [impl CacheStorage] of [src/cache/src/storage.rs], the operations on the
    values of [data_structures]. *)

From S2P Require Import Prelude Text External Float64 Values SortedSet Stream Keyspace Storage.
#[local] Open Scope Z_scope.

(** [for x in l { if f(x) { count += 1 } }]. *)
Definition count_loop {V} (f : bytes -> V -> V * bool) (l : list bytes) (v : V) : V * Z :=
  fold_left (fun '(v, count) x =>
    let '(v, b) := f x v in (v, if b : bool then count + 1 else count)) l (v, 0).

(** [VecDeque::drain(..s)] and [drain(s..)]. *)
Definition drain_to (s : Z) (l : list bytes) : res (list bytes) :=
  if s <=? len l then Ok (drop (Z.to_nat s) l) else Panic.
Definition drain_from (s : Z) (l : list bytes) : res (list bytes) :=
  if s <=? len l then Ok (take (Z.to_nat s) l) else Panic.

Section storage.
Context `{KeyMap M}.

(** ** Hashes *)

Definition hget (now : Z) (key field : bytes) (m : M) : option bytes :=
  match entry key m with
  | Some (CHash h) => if negb (HashValue.is_expired now h) then HashValue.get_field field h else None
  | _ => None
  end.

Definition hset (key field value : bytes) : M -> M * res bool :=
  with_entry key (fun e =>
    match e with
    | Some (CHash h) =>
        let '(h, old) := HashValue.set_field field value h in
        (Some (CHash h), Ok (bool_decide (old = None)))
    | Some _ => (e, Err WRONGTYPE)
    | None => (Some (CHash (fst (HashValue.set_field field value HashValue.new))), Ok true)
    end).

Definition hdel (key : bytes) (fields : list bytes) : M -> M * res Z :=
  with_entry key (fun e =>
    match e with
    | Some (CHash h) =>
        let '(h, count) := count_loop HashValue.delete_field fields h in
        (Some (CHash h), Ok count)
    | Some _ => (e, Err WRONGTYPE)
    | None => (e, Ok 0)
    end).

(** The shape of the read operations: [f] on a live value of the type,
    [none] when it is expired or missing. *)
Definition read_hash {A} (now : Z) (key : bytes) (f : HashValue.t -> A) (none : A) (m : M) : res A :=
  match entry key m with
  | Some (CHash h) => if negb (HashValue.is_expired now h) then Ok (f h) else Ok none
  | Some _ => Err WRONGTYPE
  | None => Ok none
  end.

Definition hgetall `{HashOrder} (now : Z) (key : bytes) : M -> res (list (bytes * bytes)) :=
  read_hash now key HashValue.get_all [].
Definition hkeys `{HashOrder} (now : Z) (key : bytes) : M -> res (list bytes) :=
  read_hash now key (fun h => map fst (HashValue.get_all h)) [].
Definition hvals `{HashOrder} (now : Z) (key : bytes) : M -> res (list bytes) :=
  read_hash now key (fun h => map snd (HashValue.get_all h)) [].
Definition hlen (now : Z) (key : bytes) : M -> res Z := read_hash now key HashValue.len 0.
Definition hexists (now : Z) (key field : bytes) : M -> res bool :=
  read_hash now key (fun h => bool_decide (is_Some (HashValue.get_field field h))) false.

Definition hset_nx (now : Z) (key field value : bytes) : M -> M * res bool :=
  with_entry key (fun e =>
    let fresh := (Some (CHash (fst (HashValue.set_field field value HashValue.new))), Ok true) in
    match e with
    | Some (CHash h) =>
        if negb (HashValue.is_expired now h) then
          if bool_decide (is_Some (HashValue.get_field field h)) then (e, Ok false)
          else (Some (CHash (fst (HashValue.set_field field value h))), Ok true)
        else fresh
    | None => fresh
    | Some _ => (e, Err WRONGTYPE)
    end).

Definition hincr_by (now : Z) (key field : bytes) (delta : Z) : M -> M * res Z :=
  with_entry key (fun e =>
    let fresh :=
      (Some (CHash (fst (HashValue.set_field field (show_int delta) HashValue.new))), Ok delta) in
    match e with
    | Some (CHash h) =>
        if negb (HashValue.is_expired now h) then
          let current : res Z :=
            match HashValue.get_field field h with
            | Some b => ok_or not_an_integer (parse_stored_i64 b)
            | None => Ok 0
            end in
          match (c ← current; ok_or (bs "ERR increment would overflow") (checked_add_i64 c delta)) with
          | Ok new_value =>
              (Some (CHash (fst (HashValue.set_field field (show_int new_value) h))), Ok new_value)
          | Err msg => (e, Err msg)
          | Panic => (e, Panic)
          end
        else fresh
    | None => fresh
    | Some _ => (e, Err WRONGTYPE)
    end).

(** ** Lists *)

Definition lpush (key : bytes) (values : list bytes) : M -> M * res Z :=
  with_entry key (fun e =>
    let push l := fold_left (fun l v => ListValue.push_left v l) values l in
    match e with
    | Some (CList l) => let l := push l in (Some (CList l), Ok (ListValue.len l))
    | Some _ => (e, Err WRONGTYPE)
    | None => let l := push ListValue.new in (Some (CList l), Ok (ListValue.len l))
    end).

Definition rpush (key : bytes) (values : list bytes) : M -> M * res Z :=
  with_entry key (fun e =>
    let push l := fold_left (fun l v => ListValue.push_right v l) values l in
    match e with
    | Some (CList l) => let l := push l in (Some (CList l), Ok (ListValue.len l))
    | Some _ => (e, Err WRONGTYPE)
    | None => let l := push ListValue.new in (Some (CList l), Ok (ListValue.len l))
    end).

Definition lpop (key : bytes) : M -> M * res (option bytes) :=
  with_entry key (fun e =>
    match e with
    | Some (CList l) => let '(l, x) := ListValue.pop_left l in (Some (CList l), Ok x)
    | Some _ => (e, Err WRONGTYPE)
    | None => (e, Ok None)
    end).

Definition rpop (key : bytes) : M -> M * res (option bytes) :=
  with_entry key (fun e =>
    match e with
    | Some (CList l) => let '(l, x) := ListValue.pop_right l in (Some (CList l), Ok x)
    | Some _ => (e, Err WRONGTYPE)
    | None => (e, Ok None)
    end).

Definition read_list {A} (now : Z) (key : bytes) (f : ListValue.t -> A) (none : A) (m : M) : res A :=
  match entry key m with
  | Some (CList l) => if negb (ListValue.is_expired now l) then Ok (f l) else Ok none
  | Some _ => Err WRONGTYPE
  | None => Ok none
  end.

Definition lrange (now : Z) (key : bytes) (start stop : Z) : M -> res (list bytes) :=
  read_list now key (ListValue.get_range start stop) [].
Definition llen (now : Z) (key : bytes) : M -> res Z := read_list now key ListValue.len 0.
Definition lindex (now : Z) (key : bytes) (index : Z) : M -> res (option bytes) :=
  read_list now key (fun l => head (ListValue.get_range index index l)) None.

Definition lset (now : Z) (key : bytes) (index : Z) (value : bytes) : M -> M * res unit :=
  with_entry key (fun e =>
    match e with
    | Some (CList l) =>
        if negb (ListValue.is_expired now l) then
          let n := len (ListValue.items l) in
          let real := if index <? 0 then n + index else index in
          if (real <? 0) || (n <=? real) then (e, Err (bs "ERR index out of range"))
          else (Some (CList (ListValue.mk (<[Z.to_nat real := value]> (ListValue.items l))
                               (ListValue.expires_at l))), Ok tt)
        else (e, Err no_such_key)
    | None => (e, Err no_such_key)
    | Some _ => (e, Err WRONGTYPE)
    end).

(** The [retain] loop: drop the first [limit] occurrences of [value]. *)
Fixpoint retain (value : bytes) (limit removed : Z) (l : list bytes) : list bytes * Z :=
  match l with
  | [] => ([], removed)
  | v :: l =>
      if (removed <? limit) && bool_decide (v = value) then retain value limit (removed + 1) l
      else let '(keep, removed) := retain value limit removed l in (v :: keep, removed)
  end.

Definition lrem (now : Z) (key : bytes) (count : Z) (value : bytes) : M -> M * res Z :=
  with_entry key (fun e =>
    match e with
    | Some (CList l) =>
        if negb (ListValue.is_expired now l) then
          let '(items, removed) :=
            if 0 <=? count then
              let limit := if count =? 0 then usize_max else as_usize count in
              retain value limit 0 (ListValue.items l)
            else
              let limit := as_usize (wrap_i64 (- count)) in
              let '(keep, removed) := retain value limit 0 (rev (ListValue.items l)) in
              (rev keep, removed) in
          (Some (CList (ListValue.mk items (ListValue.expires_at l))), Ok removed)
        else (e, Ok 0)
    | _ => (e, Ok 0)
    end).

Definition ltrim (now : Z) (key : bytes) (start stop : Z) : M -> M * res unit :=
  with_entry key (fun e =>
    match e with
    | Some (CList l) =>
        if negb (ListValue.is_expired now l) then
          let n := len (ListValue.items l) in
          let s := clamp_start n start in
          let e' := clamp_stop n stop in
          let items : res (list bytes) :=
            if e' <=? s then Ok []
            else i ← drain_to s (ListValue.items l); drain_from (e' - s) i in
          match items with
          | Ok items => (Some (CList (ListValue.mk items (ListValue.expires_at l))), Ok tt)
          | Err msg => (e, Err msg)
          | Panic => (e, Panic)
          end
        else (e, Err WRONGTYPE)
    | Some _ => (e, Err WRONGTYPE)
    | None => (e, Ok tt)
    end).

(** The two lock scopes of [rpoplpush]. *)
Definition rpoplpush_pop (now : Z) (source : bytes) : M -> M * res (option bytes) :=
  with_entry source (fun e =>
    match e with
    | Some (CList l) =>
        if negb (ListValue.is_expired now l)
        then let '(l, x) := ListValue.pop_right l in (Some (CList l), Ok x)
        else (e, Err WRONGTYPE)
    | Some _ => (e, Err WRONGTYPE)
    | None => (e, Ok None)
    end).
Definition rpoplpush_push (now : Z) (destination v : bytes) : M -> M * res unit :=
  with_entry destination (fun e =>
    let fresh := (Some (CList (ListValue.push_left v ListValue.new)), Ok tt) in
    match e with
    | Some (CList l) =>
        if negb (ListValue.is_expired now l) then (Some (CList (ListValue.push_left v l)), Ok tt)
        else fresh
    | None => fresh
    | Some _ => (e, Err WRONGTYPE)
    end).
Definition rpoplpush (now : Z) (source destination : bytes) (m : M) : M * res (option bytes) :=
  let '(m, popped) := rpoplpush_pop now source m in
  match popped with
  | Ok (Some v) =>
      let '(m, r) := rpoplpush_push now destination v m in (m, _ ← r; Ok (Some v))
  | Ok None => (m, Ok None)
  | Err e => (m, Err e)
  | Panic => (m, Panic)
  end.

(** ** Sets *)

Definition sadd (key : bytes) (members : list bytes) : M -> M * res Z :=
  with_entry key (fun e =>
    match e with
    | Some (CSet s) =>
        let '(s, count) := count_loop SetValue.add members s in (Some (CSet s), Ok count)
    | Some _ => (e, Err WRONGTYPE)
    | None =>
        let '(s, count) := count_loop SetValue.add members SetValue.new in
        (Some (CSet s), Ok count)
    end).

Definition srem (key : bytes) (members : list bytes) : M -> M * res Z :=
  with_entry key (fun e =>
    match e with
    | Some (CSet s) =>
        let '(s, count) := count_loop SetValue.remove members s in (Some (CSet s), Ok count)
    | Some _ => (e, Err WRONGTYPE)
    | None => (e, Ok 0)
    end).

Definition read_set {A} (now : Z) (key : bytes) (f : SetValue.t -> A) (none : A) (m : M) : res A :=
  match entry key m with
  | Some (CSet s) => if negb (SetValue.is_expired now s) then Ok (f s) else Ok none
  | Some _ => Err WRONGTYPE
  | None => Ok none
  end.

Definition smembers `{HashOrder} (now : Z) (key : bytes) : M -> res (list bytes) :=
  read_set now key SetValue.get_all [].
Definition sismember (now : Z) (key member : bytes) : M -> res bool :=
  read_set now key (SetValue.contains member) false.
Definition scard (now : Z) (key : bytes) : M -> res Z := read_set now key SetValue.len 0.
Definition snapshot_set (now : Z) (key : bytes) : M -> res (option SetValue.t) :=
  read_set now key Some None.

Section algebra.
Context `{HashOrder}.

Fixpoint sinter_loop (now : Z) (keys : list bytes) (result : option SetValue.t) (m : M)
  : res (list bytes) :=
  match keys with
  | [] => Ok (match result with Some s => SetValue.get_all s | None => [] end)
  | key :: keys =>
      snap ← snapshot_set now key m;
      match snap with
      | Some set =>
          let result :=
            match result with
            | None => set
            | Some res' => add_all (SetValue.intersection res' set) SetValue.new
            end in
          sinter_loop now keys (Some result) m
      | None => Ok []
      end
  end.
Definition sinter (now : Z) (keys : list bytes) (m : M) : res (list bytes) :=
  sinter_loop now keys None m.

Fixpoint sunion_loop (now : Z) (keys : list bytes) (result : SetValue.t) (m : M)
  : res SetValue.t :=
  match keys with
  | [] => Ok result
  | key :: keys =>
      snap ← snapshot_set now key m;
      sunion_loop now keys
        match snap with
        | Some set => add_all (SetValue.get_all set) result
        | None => result
        end m
  end.
Definition sunion (now : Z) (keys : list bytes) (m : M) : res (list bytes) :=
  match keys with
  | [] => Ok []
  | _ :: _ => r ← sunion_loop now keys SetValue.new m; Ok (SetValue.get_all r)
  end.

Fixpoint sdiff_loop (now : Z) (keys : list bytes) (result : SetValue.t) (m : M)
  : res SetValue.t :=
  match keys with
  | [] => Ok result
  | key :: keys =>
      snap ← snapshot_set now key m;
      sdiff_loop now keys
        match snap with
        | Some set => add_all (SetValue.difference result set) SetValue.new
        | None => result
        end m
  end.
Definition sdiff (now : Z) (keys : list bytes) (m : M) : res (list bytes) :=
  match keys with
  | [] => Ok []
  | key :: keys =>
      snap ← snapshot_set now key m;
      match snap with
      | Some set => r ← sdiff_loop now keys set m; Ok (SetValue.get_all r)
      | None => Ok []
      end
  end.

Definition spop `{Rng, Layout} (now : Z) (key : bytes) (count : Z) : M -> M * res (list bytes) :=
  with_entry key (fun e =>
    match e with
    | Some (CSet s) =>
        if negb (SetValue.is_expired now s) then
          match with_capacity sizeof_Bytes count with
          | Ok _ =>
              let chosen := choose_multiple (SetValue.get_all s) count in
              (Some (CSet (fold_left (fun s x => fst (SetValue.remove x s)) chosen s)), Ok chosen)
          | Err msg => (e, Err msg)
          | Panic => (e, Panic)
          end
        else (e, Err WRONGTYPE)
    | Some _ => (e, Err WRONGTYPE)
    | None => (e, Ok [])
    end).

Definition srand_member `{Rng, Layout} (now : Z) (key : bytes) (count : Z) (m : M)
  : res (list bytes) :=
  match entry key m with
  | Some (CSet s) =>
      if negb (SetValue.is_expired now s) then
        let all := SetValue.get_all s in
        if 0 <=? count then Ok (choose_multiple all count)
        else
          let n := as_usize (wrap_i64 (- count)) in
          _ ← with_capacity sizeof_Bytes n;
          Ok (omap (fun i => choose i all) (seq 0 (Z.to_nat n)))
      else Err WRONGTYPE
  | Some _ => Err WRONGTYPE
  | None => Ok []
  end.
End algebra.

(** The two lock scopes of [smove]. *)
Definition smove_remove (now : Z) (source member : bytes) : M -> M * res bool :=
  with_entry source (fun e =>
    match e with
    | Some (CSet s) =>
        if negb (SetValue.is_expired now s)
        then let '(s, b) := SetValue.remove member s in (Some (CSet s), Ok b)
        else (e, Err WRONGTYPE)
    | Some _ => (e, Err WRONGTYPE)
    | None => (e, Ok false)
    end).
Definition smove_add (now : Z) (destination member : bytes) : M -> M * res unit :=
  with_entry destination (fun e =>
    let fresh := (Some (CSet (fst (SetValue.add member SetValue.new))), Ok tt) in
    match e with
    | Some (CSet s) =>
        if negb (SetValue.is_expired now s) then (Some (CSet (fst (SetValue.add member s))), Ok tt)
        else fresh
    | None => fresh
    | Some _ => (e, Err WRONGTYPE)
    end).
Definition smove (now : Z) (source destination member : bytes) (m : M) : M * res bool :=
  let '(m, removed) := smove_remove now source member m in
  match removed with
  | Ok true => let '(m, r) := smove_add now destination member m in (m, _ ← r; Ok true)
  | Ok false => (m, Ok false)
  | Err e => (m, Err e)
  | Panic => (m, Panic)
  end.

(** ** Sorted sets *)

Definition add_members (members : list (f64 * bytes)) (z : SortedSetValue.t) : SortedSetValue.t :=
  fold_left (fun z '(score, member) => fst (SortedSetValue.add score member z)) members z.

Definition zadd (key : bytes) (members : list (f64 * bytes)) : M -> M * res Z :=
  with_entry key (fun e =>
    match e with
    | Some (CSortedSet z) => (Some (CSortedSet (add_members members z)), Ok (len members))
    | Some _ => (e, Err WRONGTYPE)
    | None => (Some (CSortedSet (add_members members SortedSetValue.new)), Ok (len members))
    end).

Definition zrem (key : bytes) (members : list bytes) : M -> M * res Z :=
  with_entry key (fun e =>
    match e with
    | Some (CSortedSet z) =>
        let '(z, count) := count_loop SortedSetValue.remove members z in
        (Some (CSortedSet z), Ok count)
    | Some _ => (e, Err WRONGTYPE)
    | None => (e, Ok 0)
    end).

Definition read_zset {A} (now : Z) (key : bytes) (f : SortedSetValue.t -> res A) (none : A) (m : M)
  : res A :=
  match entry key m with
  | Some (CSortedSet z) => if negb (SortedSetValue.is_expired now z) then f z else Ok none
  | Some _ => Err WRONGTYPE
  | None => Ok none
  end.

(** An index of [ZRANGE] as a [usize]. *)
Definition zindex (n i : Z) : Z := if i <? 0 then as_usize (Z.max (n + i) 0) else as_usize i.

Definition zrange `{HashOrder} (now : Z) (key : bytes) (start stop : Z) (with_scores : bool)
  : M -> res (list (bytes * option f64)) :=
  read_zset now key (fun z =>
    let n := SortedSetValue.len z in
    Ok (SortedSetValue.get_range (zindex n start) (zindex n stop) with_scores z)) [].
Definition zrank `{HashOrder} (now : Z) (key member : bytes) : M -> res (option Z) :=
  read_zset now key (fun z => Ok (SortedSetValue.get_rank member z)) None.
Definition zscore (now : Z) (key member : bytes) : M -> res (option f64) :=
  read_zset now key (fun z => Ok (SortedSetValue.get_score member z)) None.
Definition zcard (now : Z) (key : bytes) : M -> res Z :=
  read_zset now key (fun z => Ok (SortedSetValue.len z)) 0.
Definition zcount `{HashOrder} (now : Z) (key : bytes) (min max : f64) : M -> res Z :=
  read_zset now key (fun z =>
    r ← SortedSetValue.get_range_by_score min max false z; Ok (len r)) 0.

Definition zincr_by (now : Z) (key : bytes) (delta : f64) (member : bytes) : M -> M * res f64 :=
  with_entry key (fun e =>
    let fresh :=
      (Some (CSortedSet (fst (SortedSetValue.add delta member SortedSetValue.new))), Ok delta) in
    match e with
    | Some (CSortedSet z) =>
        if negb (SortedSetValue.is_expired now z) then
          let new_score :=
            f64_add (default f64_zero (SortedSetValue.get_score member z)) delta in
          (Some (CSortedSet (fst (SortedSetValue.add new_score member z))), Ok new_score)
        else fresh
    | None => fresh
    | Some _ => (e, Err WRONGTYPE)
    end).

Definition zrange_by_score `{HashOrder} (now : Z) (key : bytes) (min max : f64)
    (with_scores : bool) (m : M) : res (list (bytes * option f64)) :=
  match entry key m with
  | Some (CSortedSet z) =>
      if negb (SortedSetValue.is_expired now z)
      then SortedSetValue.get_range_by_score min max with_scores z
      else Err WRONGTYPE
  | Some _ => Err WRONGTYPE
  | None => Ok []
  end.

Definition zrevrange `{HashOrder} (now : Z) (key : bytes) (start stop : Z) (with_scores : bool)
    (m : M) : res (list (bytes * option f64)) :=
  all ← zrange now key 0 (-1) with_scores m;
  let all := rev all in
  let n := len all in
  let s := clamp_start n start in
  let e := clamp_stop n stop in
  if e <=? s then Ok [] else slice s e all.

Definition zpop_min `{HashOrder, Layout} (now : Z) (key : bytes) (count : Z)
  : M -> M * res (list (bytes * f64)) :=
  with_entry key (fun e =>
    match e with
    | Some (CSortedSet z) =>
        if negb (SortedSetValue.is_expired now z)
        then let '(z, r) := SortedSetValue.pop_min count z in (Some (CSortedSet z), r)
        else (e, Err WRONGTYPE)
    | Some _ => (e, Err WRONGTYPE)
    | None => (e, Ok [])
    end).

Definition zpop_max `{HashOrder, Layout} (now : Z) (key : bytes) (count : Z)
  : M -> M * res (list (bytes * f64)) :=
  with_entry key (fun e =>
    match e with
    | Some (CSortedSet z) =>
        if negb (SortedSetValue.is_expired now z)
        then let '(z, r) := SortedSetValue.pop_max count z in (Some (CSortedSet z), r)
        else (e, Err WRONGTYPE)
    | Some _ => (e, Err WRONGTYPE)
    | None => (e, Ok [])
    end).

(** ** Streams *)

Definition xadd (now wall : Z) (key : bytes) (requested_id : option StreamId.t) (fs : fields)
  : M -> M * res StreamId.t :=
  with_entry key (fun e =>
    let fresh :=
      let '(s, id) := StreamValue.add wall requested_id fs StreamValue.new in
      match id with
      | Ok id => (Some (CStream s), Ok id)
      | Err msg => (e, Err msg)
      | Panic => (e, Panic)
      end in
    match e with
    | Some (CStream s) =>
        if negb (StreamValue.is_expired now s) then
          let '(s, id) := StreamValue.add wall requested_id fs s in (Some (CStream s), id)
        else fresh
    | None => fresh
    | Some _ => (e, Err WRONGTYPE)
    end).

Definition read_stream {A} (now : Z) (key : bytes) (f : StreamValue.t -> res A) (none : A) (m : M)
  : res A :=
  match entry key m with
  | Some (CStream s) => if negb (StreamValue.is_expired now s) then f s else Err WRONGTYPE
  | Some _ => Err WRONGTYPE
  | None => Ok none
  end.

Definition xlen (now : Z) (key : bytes) : M -> res Z :=
  read_stream now key (fun s => Ok (StreamValue.len s)) 0.
Definition xrange (now : Z) (key : bytes) (start end' : StreamId.t) (count : option Z)
  : M -> res (list (StreamId.t * fields)) :=
  read_stream now key (StreamValue.range start end' count) [].
Definition xread (now : Z) (key : bytes) (cursor : StreamId.t) (count : option Z)
  : M -> res (list (StreamId.t * fields)) :=
  read_stream now key (fun s => Ok (StreamValue.read_after cursor count s)) [].
End storage.
