(* ===== verification/StorageFacts.v ===== *)
(** * StorageFacts: strings, expiry and the keyspace

    What the operations of [Storage] promise, proved from the laws of
    [KeyMap]: they hold for the sharded map and for a single table. *)

From S2P Require Import Prelude Text External Float64 Values SortedSet Stream Keyspace Storage.
#[local] Open Scope Z_scope.

(** ** Lists of live entries *)

Definition live_kv (now : Z) (kv : bytes * CacheValue) : Prop := negb (is_expired now kv.2) = true.
#[global] Instance live_kv_dec now kv : Decision (live_kv now kv).
Proof. unfold live_kv. apply _. Defined.

Lemma live_Some now e v : live now e = Some v <-> e = Some v /\ is_expired now v = false.
Proof.
  unfold live. destruct e as [w|]; [|by split; [|intros []]].
  destruct (is_expired now w) eqn:E; split; intuition congruence.
Qed.

Lemma past_mono now now' slot : now <= now' -> past now slot = true -> past now' slot = true.
Proof. unfold past. destruct slot; [lia|done]. Qed.

Lemma is_expired_mono now now' v :
  now <= now' -> is_expired now v = true -> is_expired now' v = true.
Proof. rewrite !is_expired_past. apply past_mono. Qed.

Section facts.
Context `{KeyMapLaws M}.
Implicit Types m : M.

(** ** Strings *)

Lemma get_live now k m :
  get now k m = match live now (entry k m) with Some (CString b _) => Some b | _ => None end.
Proof.
  unfold get, live. destruct (entry k m) as [v|]; [|done]. by destruct (is_expired now v).
Qed.

Lemma set_Ok now k v ttl m m' b : set now k v ttl m = (m', Ok b) ->
  b = true /\ m' = set_entry k (Some (CString v (fmap (fun d => now + d) ttl))) m.
Proof.
  unfold set. destruct ttl as [d|]; simpl; [|by intros [= <- <-]].
  unfold instant_add. destruct (now + d <=? instant_max); simpl; by intros [= <- <-].
Qed.

(** ** The integers of INCR and INCRBY *)

(** The integer a key holds: 0 when it is missing, none when it is not one. *)
Definition counter (k : bytes) (m : M) : res Z :=
  match entry k m with
  | Some (CString b _) => ok_or not_an_integer (parse_stored_i64 b)
  | Some _ => Err WRONGTYPE
  | None => Ok 0
  end.

Lemma parse_stored_show z : in_i64 z = true -> parse_stored_i64 (show_int z) = Some z.
Proof. intros Hz. unfold parse_stored_i64. by rewrite show_int_lossy, parse_i64_show. Qed.

Lemma parse_stored_range b z : parse_stored_i64 b = Some z -> in_i64 z = true.
Proof. intros Hz. by apply in_i64_spec, (parse_i64_range _ _ Hz). Qed.

Lemma wrap_in_i64 z : in_i64 (wrap_i64 z) = true.
Proof. apply in_i64_spec, wrap_i64_range. Qed.

Lemma counter_range k m c : counter k m = Ok c -> in_i64 c = true.
Proof.
  unfold counter. destruct (entry k m) as [[b ?| | | | |]|]; try done; [|by intros [= <-]].
  destruct (parse_stored_i64 b) eqn:E; [|done]. simpl. intros [= <-]. by eapply parse_stored_range.
Qed.

Lemma counter_set_entry k m z at' : inv m -> in_i64 z = true ->
  counter k (set_entry k (Some (CString (show_int z) at')) m) = Ok z.
Proof.
  intros Hm Hz. unfold counter. rewrite entry_set_entry by done.
  rewrite decide_True by done. by rewrite parse_stored_show.
Qed.

Lemma incr_by_spec k d m : inv m -> in_i64 d = true ->
  match counter k m with
  | Ok c =>
      if in_i64 (c + d) then
        snd (incr_by k d m) = Ok (c + d) /\ counter k (fst (incr_by k d m)) = Ok (c + d)
      else is_ok (snd (incr_by k d m)) = false /\ fst (incr_by k d m) = m
  | r => snd (incr_by k d m) = r /\ fst (incr_by k d m) = m
  end.
Proof.
  intros Hm Hd. pose proof (counter_range k m) as Hr. unfold counter in *.
  unfold incr_by, with_entry. pose proof (set_entry_id k m Hm) as Hid.
  destruct (entry k m) as [[b at'| | | | |]|] eqn:E; simpl; try done.
  - destruct (parse_stored_i64 b) as [c|] eqn:Eb; simpl; [|done].
    unfold checked_add_i64. destruct (in_i64 (c + d)) eqn:Es; simpl; [|done].
    split; [done|]. apply (counter_set_entry k m _ at' Hm Es).
  - rewrite Z.add_0_l, Hd. split; [done|]. by apply (counter_set_entry k m _ None Hm).
Qed.

Lemma incr_spec k m : inv m ->
  match counter k m with
  | Ok c =>
      snd (incr k m) = Ok (wrap_i64 (c + 1)) /\ counter k (fst (incr k m)) = Ok (wrap_i64 (c + 1))
  | r => snd (incr k m) = r /\ fst (incr k m) = m
  end.
Proof.
  intros Hm. unfold counter at 1. unfold incr, with_entry. pose proof (set_entry_id k m Hm) as Hid.
  destruct (entry k m) as [[b at'| | | | |]|] eqn:E; simpl; try done.
  - destruct (parse_stored_i64 b) as [c|] eqn:Eb; simpl; [|done].
    split; [done|]. apply counter_set_entry; [done|]. apply wrap_in_i64.
  - split; [done|]. exact (counter_set_entry k m 1 None Hm eq_refl).
Qed.

Lemma decr_spec k m : inv m ->
  match counter k m with
  | Ok c =>
      snd (decr k m) = Ok (wrap_i64 (c - 1)) /\ counter k (fst (decr k m)) = Ok (wrap_i64 (c - 1))
  | r => snd (decr k m) = r /\ fst (decr k m) = m
  end.
Proof.
  intros Hm. unfold counter at 1. unfold decr, with_entry. pose proof (set_entry_id k m Hm) as Hid.
  destruct (entry k m) as [[b at'| | | | |]|] eqn:E; simpl; try done.
  - destruct (parse_stored_i64 b) as [c|] eqn:Eb; simpl; [|done].
    split; [done|]. apply counter_set_entry; [done|]. apply wrap_in_i64.
  - split; [done|]. exact (counter_set_entry k m (-1) None Hm eq_refl).
Qed.

(** ** GETRANGE *)

(** The bytes between two inclusive indices, negative ones from the end; an
    end before the first byte counts as the first byte. *)
Definition substring (start end' : Z) (b : bytes) : bytes :=
  let n := len b in
  let s := if start <? 0 then Z.max 0 (n + start) else start in
  let e := if end' <? 0 then Z.max 0 (n + end') else end' in
  take (Z.to_nat (e + 1 - s)) (drop (Z.to_nat s) b).

Lemma get_range_spec k start end' m b at' :
  entry k m = Some (CString b at') -> len b <= isize_max ->
  get_range k start end' m = Ok (Some (substring start end' b)).
Proof.
  intros He Hb. unfold get_range. rewrite He. unfold substring.
  set (n := len b) in *. assert (Hn : 0 <= n) by (unfold n; auto with ferric).
  destruct (n =? 0) eqn:E0.
  { destruct b; [|unfold n, len in *; simpl in *; lia]. by rewrite drop_nil, take_nil. }
  rewrite (as_usize_id (if start <? 0 then _ else _))
    by (widths; destruct (start <? 0) eqn:?; lia).
  rewrite (as_usize_id (if end' <? 0 then _ else _))
    by (widths; destruct (end' <? 0) eqn:?; lia).
  set (s := if start <? 0 then Z.max 0 (n + start) else start).
  set (e := if end' <? 0 then Z.max 0 (n + end') else end').
  replace (if start <? 0 then Z.max (n + start) 0 else Z.min start n) with (Z.min s n)
    by (unfold s; destruct (start <? 0) eqn:?; lia).
  replace (if end' <? 0 then Z.max (n + end') 0 else Z.min end' (n - 1)) with (Z.min e (n - 1))
    by (unfold e; destruct (end' <? 0) eqn:?; lia).
  assert (0 <= s) by (unfold s; destruct (start <? 0) eqn:?; lia).
  destruct (Z.min e (n - 1) <? Z.min s n) eqn:Ec.
  - destruct (Z.le_gt_cases n s).
    + rewrite drop_ge by (unfold n, len in *; lia). by rewrite take_nil.
    + replace (Z.to_nat (e + 1 - s)) with 0%nat by lia. by rewrite take_0.
  - unfold slice. replace (_ && _) with true by (fold n; lia). simpl. do 2 f_equal.
    rewrite (Z.min_l s n) by lia. destruct (Z.le_gt_cases e (n - 1)).
    + do 2 f_equal. lia.
    + rewrite !take_ge; [done| |]; rewrite length_drop; unfold n, len in *; lia.
Qed.

(** ** Expiry *)

Lemma pttl_spec now k m :
  pttl_millis now k m =
  match live now (entry k m) with
  | None => None
  | Some v => Some match expires_at_ref v with
                   | None => -1
                   | Some at' => as_millis_i64 (Z.max 0 (at' - now))
                   end
  end.
Proof.
  unfold pttl_millis, live. destruct (entry k m) as [v|]; [|done].
  destruct (is_expired now v); [done|]. destruct (expires_at_ref v) as [at'|]; [|done].
  destruct (at' <=? now) eqn:E; do 2 f_equal; [|lia].
  by rewrite Z.max_l by lia.
Qed.

Lemma set_expiry_entry now k at' m j : inv m ->
  entry j (fst (set_expiry now k at' m)) =
  if decide (j = k) then
    match live now (entry k m) with
    | Some v => Some (expires_at_mut (Some at') v)
    | None => entry k m
    end
  else entry j m.
Proof.
  intros Hm. unfold set_expiry. rewrite with_entry_entry by done. case_decide; [|done].
  unfold live. destruct (entry k m) as [v|]; [|done]. by destruct (is_expired now v).
Qed.

Lemma set_expiry_result now k at' m :
  snd (set_expiry now k at' m) = bool_decide (is_Some (live now (entry k m))).
Proof.
  unfold set_expiry. rewrite with_entry_result. unfold live.
  destruct (entry k m) as [v|]; [|done]. by destruct (is_expired now v).
Qed.

Lemma persist_entry now k m j : inv m ->
  entry j (fst (persist now k m)) =
  if decide (j = k) then
    match live now (entry k m) with
    | Some v => Some (expires_at_mut None v)
    | None => entry k m
    end
  else entry j m.
Proof.
  intros Hm. unfold persist. rewrite with_entry_entry by done. case_decide; [|done].
  unfold live. destruct (entry k m) as [v|]; [|done]. destruct (is_expired now v); [done|]. simpl.
  destruct (expires_at_ref v) as [a|] eqn:E; [done|]. simpl. f_equal.
  rewrite <- E. symmetry. apply expires_at_mut_ref.
Qed.

(** ** The whole database *)

Lemma cleanup_entry now k m : inv m -> entry k (cleanup_expired now m) = live now (entry k m).
Proof.
  intros Hm. unfold cleanup_expired.
  pose proof (filter_inv (fun v => negb (is_expired now v)) m Hm) as Hi.
  pose proof (filter_abs (fun v => negb (is_expired now v)) m Hm) as Ha.
  rewrite !entry_abs by done. rewrite Ha, map_lookup_filter.
  unfold live. destruct (abs m !! k) as [v|]; simpl; [|done].
  by destruct (is_expired now v); simpl; repeat case_guard.
Qed.

Context `{HashOrder}.

Lemma hm_iter_shards m : inv m ->
  concat (map (fun t : table => hm_iter t) (shards m)) ≡ₚ map_to_list (abs m).
Proof.
  intros Hm. rewrite <- shards_perm by done. induction (shards m) as [|t ts IH]; simpl; [done|].
  by rewrite IH, hm_iter_perm.
Qed.

Lemma filter_concat {A} (P : A -> Prop) `{!forall x, Decision (P x)} (ls : list (list A)) :
  filter P (concat ls) = concat (map (fun l => filter P l) ls).
Proof. induction ls as [|l ls IH]; simpl; [done|]. by rewrite filter_app, IH. Qed.

(** The entries that [keys] and [dbsize] count. *)
Definition live_entries (now : Z) (m : M) : list (bytes * CacheValue) :=
  filter (live_kv now) (get_all_entries m).

Lemma elem_of_live_entries now m k v : inv m ->
  (k, v) ∈ live_entries now m <-> live now (entry k m) = Some v.
Proof.
  intros Hm. unfold live_entries, get_all_entries.
  rewrite list_elem_of_filter, hm_iter_shards, elem_of_map_to_list, live_Some, entry_abs by done.
  unfold live_kv. simpl. destruct (is_expired now v); naive_solver.
Qed.

Lemma NoDup_live_entries now m : inv m -> NoDup (live_entries now m).*1.
Proof.
  intros Hm. assert (Hn : NoDup (get_all_entries m).*1).
  { unfold get_all_entries. rewrite hm_iter_shards by done. apply NoDup_fst_map_to_list. }
  unfold live_entries. induction (get_all_entries m) as [|[k v] l IH]; [constructor|].
  apply NoDup_cons in Hn as [Hk Hn]. rewrite filter_cons. case_decide; [|by apply IH].
  simpl. constructor; [|by apply IH]. contradict Hk.
  apply list_elem_of_fmap in Hk as (x & -> & Hx). apply list_elem_of_filter in Hx as [_ Hx].
  apply list_elem_of_fmap. by exists x.
Qed.

Lemma keys_star now m : keys now (bs "*") m = (live_entries now m).*1.
Proof.
  unfold keys, live_entries, get_all_entries. rewrite bool_decide_eq_true_2 by done.
  induction (shards m) as [|t ts IH]; simpl; [done|].
  by rewrite filter_app, fmap_app, IH.
Qed.

Lemma dbsize_live now m : dbsize now m = len (live_entries now m).
Proof.
  unfold dbsize, live_entries, get_all_entries.
  induction (shards m) as [|t ts IH]; simpl; [done|].
  by rewrite filter_app, len_app, IH.
Qed.

Lemma elem_of_keys now p m k : inv m -> p <> bs "*" ->
  k ∈ keys now p m <->
  is_Some (live now (entry k m)) /\ matches_pattern_static (from_utf8_lossy k) p = true.
Proof.
  intros Hm Hp. trans (k ∈ map fst (filter (fun kv => negb (is_expired now kv.2) &&
     matches_pattern_static (from_utf8_lossy kv.1) p = true) (get_all_entries m))).
  - unfold keys, get_all_entries. rewrite bool_decide_eq_false_2 by done.
    induction (shards m) as [|t ts IH]; simpl; [done|].
    by rewrite filter_app, fmap_app, !elem_of_app, IH.
  - unfold get_all_entries. rewrite list_elem_of_fmap. setoid_rewrite list_elem_of_filter.
    setoid_rewrite hm_iter_shards; [|done]. split.
    + intros ([k' v] & -> & Hb & Hin). apply elem_of_map_to_list in Hin. simpl in *.
      apply andb_true_iff in Hb as [Hl Hmt]. split; [|done]. exists v.
      apply live_Some. rewrite entry_abs by done. split; [done|]. by destruct (is_expired now v).
    + intros [[v Hv] Hmt]. apply live_Some in Hv as [Hv Hl]. rewrite entry_abs in Hv by done.
      exists (k, v). split; [done|]. simpl. rewrite Hl, Hmt. split; [done|].
      by apply elem_of_map_to_list.
Qed.

(** ** RANDOMKEY *)

Lemma random_key_loop_spec `{Rng} now i order ts :
  match random_key_loop now i order ts with
  | Some k => exists j t v, j ∈ order /\ ts !! j = Some t /\ t !! k = Some v /\ is_expired now v = false
  | None => forall j t k v, j ∈ order -> ts !! j = Some t -> t !! k = Some v -> is_expired now v = true
  end.
Proof.
  revert i. induction order as [|j order IH]; intros i; simpl; [set_solver|].
  set (l := filter _ _). unfold choose. destruct (l !! gen_index i (length l)) as [[k v]|] eqn:E.
  - apply list_elem_of_lookup_2, list_elem_of_filter in E as [Hl Hin]. simpl in Hl.
    apply elem_of_hm_iter in Hin. destruct (ts !! j) as [t|] eqn:Et; simpl in Hin;
      [|by rewrite lookup_empty in Hin].
    exists j, t, v. split; [constructor|]. split; [done|]. split; [done|].
    by destruct (is_expired now v).
  - assert (Hnil : l = []).
    { destruct l as [|x l']; [done|]. apply lookup_ge_None in E.
      pose proof (gen_index_lt i (length (x :: l'))). simpl in *. lia. }
    specialize (IH (S i)). destruct (random_key_loop now (S i) order ts).
    + destruct IH as (j' & t & v & ? & ?). exists j', t, v. split; [by constructor|done].
    + intros j' t k v [->|Hj]%elem_of_cons Ht Hk; [|by eapply IH].
      destruct (is_expired now v) eqn:Ex; [done|]. exfalso.
      assert (Hin : (k, v) ∈ l); [|rewrite Hnil in Hin; by apply not_elem_of_nil in Hin].
      apply list_elem_of_filter. simpl. rewrite Ex, Ht. split; [done|]. by apply elem_of_hm_iter.
Qed.
End facts.
