(* ===== verification/ListFacts.v ===== *)
(** * ListFacts: lists in the storage

    A list key refines a double-ended queue ([deque]); [LTRIM], [LREM] and
    [LSET] are described on the elements. *)

From S2P Require Import Prelude Text External Float64 Values SortedSet Stream Keyspace Storage.
From S2P Require Import StorageTypes.
#[local] Open Scope Z_scope.

(** ** The abstract deque *)

Inductive deque_op :=
| PushLeft (values : list bytes)
| PushRight (values : list bytes)
| PopLeft
| PopRight.

Inductive deque_reply :=
| Length (n : Z)
| Element (x : option bytes).

Definition deque_step (op : deque_op) (q : list bytes) : list bytes * deque_reply :=
  match op with
  | PushLeft values => (rev values ++ q, Length (len (rev values ++ q)))
  | PushRight values => (q ++ values, Length (len (q ++ values)))
  | PopLeft => (tail q, Element (head q))
  | PopRight => (take (pred (length q)) q, Element (last q))
  end.

Fixpoint deque_run (ops : list deque_op) (q : list bytes) : list bytes * list deque_reply :=
  match ops with
  | [] => (q, [])
  | op :: ops =>
      let '(q, r) := deque_step op q in
      let '(q, rs) := deque_run ops q in (q, r :: rs)
  end.

Section lists.
Context `{KeyMapLaws M}.
Implicit Types m : M.

(** The same operations on a key of the storage. *)
Definition storage_step (k : bytes) (op : deque_op) (m : M) : M * res deque_reply :=
  match op with
  | PushLeft values => let '(m, r) := lpush k values m in (m, n ← r; Ok (Length n))
  | PushRight values => let '(m, r) := rpush k values m in (m, n ← r; Ok (Length n))
  | PopLeft => let '(m, r) := lpop k m in (m, x ← r; Ok (Element x))
  | PopRight => let '(m, r) := rpop k m in (m, x ← r; Ok (Element x))
  end.

Fixpoint storage_run (k : bytes) (ops : list deque_op) (m : M) : M * list (res deque_reply) :=
  match ops with
  | [] => (m, [])
  | op :: ops =>
      let '(m, r) := storage_step k op m in
      let '(m, rs) := storage_run k ops m in (m, r :: rs)
  end.

(** The elements under a key; a missing key is an empty list. *)
Definition items_at (k : bytes) (m : M) : option (list bytes) :=
  match entry k m with
  | Some (CList l) => Some (ListValue.items l)
  | Some _ => None
  | None => Some []
  end.

Lemma fold_push_left values l :
  fold_left (fun l v => ListValue.push_left v l) values l =
  ListValue.mk (rev values ++ ListValue.items l) (ListValue.expires_at l).
Proof.
  revert l. induction values as [|v values IH]; intros [i e]; simpl; [done|].
  rewrite IH. simpl. by rewrite <- app_assoc.
Qed.

Lemma fold_push_right values l :
  fold_left (fun l v => ListValue.push_right v l) values l =
  ListValue.mk (ListValue.items l ++ values) (ListValue.expires_at l).
Proof.
  revert l. induction values as [|v values IH]; intros [i e]; simpl; [by rewrite app_nil_r|].
  rewrite IH. simpl. by rewrite <- app_assoc.
Qed.

Lemma pop_left_spec l :
  ListValue.pop_left l =
  (ListValue.mk (tail (ListValue.items l)) (ListValue.expires_at l), head (ListValue.items l)).
Proof. by destruct l as [[|x i] e]. Qed.

Lemma pop_right_spec l :
  ListValue.pop_right l =
  (ListValue.mk (take (pred (length (ListValue.items l))) (ListValue.items l))
     (ListValue.expires_at l), last (ListValue.items l)).
Proof.
  destruct l as [i e]. unfold ListValue.pop_right. simpl.
  induction i as [|x i _] using rev_ind; [done|].
  rewrite rev_app_distr. simpl. rewrite rev_involutive, last_snoc, length_app, take_app_length'.
  - done.
  - simpl. lia.
Qed.

Lemma storage_step_spec k op m q : inv m -> items_at k m = Some q ->
  let '(q', r) := deque_step op q in
  items_at k (fst (storage_step k op m)) = Some q' /\
  snd (storage_step k op m) = Ok r /\ inv (fst (storage_step k op m)) /\
  forall j, j <> k -> entry j (fst (storage_step k op m)) = entry j m.
Proof.
  intros Hm Hq. unfold items_at in Hq.
  assert (Hset : forall e q', match e with
      | Some (CList l) => Some (ListValue.items l) | Some _ => None | None => Some [] end = Some q' ->
    items_at k (set_entry k e m) = Some q' /\ inv (set_entry k e m) /\
    forall j, j <> k -> entry j (set_entry k e m) = entry j m).
  { intros e q' He. unfold items_at. rewrite entry_set_entry, decide_True by done.
    split; [done|]. split; [by apply set_entry_inv|].
    intros j Hj. by rewrite entry_set_entry, decide_False by done. }
  destruct op as [vs|vs| |]; simpl; unfold lpush, rpush, lpop, rpop, with_entry;
    destruct (entry k m) as [[| |l| | |]|] eqn:E; try done; injection Hq as <-;
    rewrite ?fold_push_left, ?fold_push_right, ?pop_left_spec, ?pop_right_spec;
    unfold ListValue.len; simpl; rewrite ?app_nil_r;
    edestruct Hset as (H1 & H2 & H3); try done; by eauto.
Qed.

Lemma storage_run_spec k ops m q : inv m -> items_at k m = Some q ->
  items_at k (fst (storage_run k ops m)) = Some (fst (deque_run ops q)) /\
  snd (storage_run k ops m) = map Ok (snd (deque_run ops q)) /\
  forall j, j <> k -> entry j (fst (storage_run k ops m)) = entry j m.
Proof.
  revert m q. induction ops as [|op ops IH]; intros m q Hm Hq; simpl; [done|].
  pose proof (storage_step_spec k op m q Hm Hq) as Hs.
  destruct (deque_step op q) as [q1 r1], (storage_step k op m) as [m1 r]. simpl in Hs.
  destruct Hs as (Hq1 & -> & Hm1 & Hf1). destruct (IH m1 q1 Hm1 Hq1) as (IH1 & IH2 & IH3).
  destruct (deque_run ops q1), (storage_run k ops m1). simpl in *. subst.
  split; [done|]. split; [done|]. intros j Hj. rewrite IH3, Hf1 by done. done.
Qed.

(** ** LTRIM *)

Lemma clamp_start_spec n start : 0 <= n <= isize_max ->
  clamp_start n start = Z.min (Z.max 0 (if start <? 0 then n + start else start)) n.
Proof.
  intros Hn. unfold clamp_start. destruct (start <? 0) eqn:E; rewrite as_usize_id by (widths; lia); lia.
Qed.

Lemma clamp_stop_spec n stop : 0 <= n <= isize_max -> stop < i64_max ->
  clamp_stop n stop = Z.max 0 (Z.min ((if stop <? 0 then n + stop else stop) + 1) n).
Proof.
  intros Hn Hs. unfold clamp_stop. destruct (stop <? 0) eqn:E.
  - rewrite as_usize_id by (widths; lia). lia.
  - rewrite wrap_i64_id by (widths; lia). rewrite as_usize_id by (widths; lia). lia.
Qed.

(** A half-open range of clamped indices is the range of the indices. *)
Lemma clamped_range start stop (l : list bytes) : len l <= isize_max -> stop < i64_max ->
  let s := clamp_start (len l) start in
  let e := clamp_stop (len l) stop in
  (if e <=? s then Ok [] else i ← drain_to s l; drain_from (e - s) i) =
  Ok (range_spec start stop l).
Proof.
  intros Hl Hstop. simpl. pose proof (len_nonneg l) as Hn.
  rewrite clamp_start_spec, clamp_stop_spec by lia. unfold range_spec.
  set (n := len l) in *.
  set (s := Z.max 0 (if start <? 0 then n + start else start)).
  set (e := if stop <? 0 then n + stop else stop).
  assert (0 <= s) by (unfold s; lia).
  destruct (Z.max 0 (Z.min (e + 1) n) <=? Z.min s n) eqn:E.
  - f_equal. destruct (Z.le_gt_cases n s).
    + rewrite drop_ge by (unfold n, len in *; lia). by rewrite take_nil.
    + replace (Z.to_nat (e + 1 - s)) with 0%nat by lia. by rewrite take_0.
  - unfold drain_to, drain_from. fold n. replace (_ <=? n) with true by lia. simpl.
    replace (len (drop _ l)) with (n - s)
      by (unfold len; rewrite length_drop; unfold n, len in *; lia).
    replace (_ <=? _) with true by lia. rewrite (Z.min_l s n) by lia. f_equal.
    destruct (Z.le_gt_cases (e + 1) n).
    + f_equal. lia.
    + rewrite !take_ge; [done| |]; rewrite length_drop; unfold n, len in *; lia.
Qed.

Lemma ltrim_live now k start stop m l : inv m ->
  entry k m = Some (CList l) -> ListValue.is_expired now l = false ->
  len (ListValue.items l) <= isize_max -> stop < i64_max ->
  snd (ltrim now k start stop m) = Ok tt /\
  items_at k (fst (ltrim now k start stop m)) = Some (range_spec start stop (ListValue.items l)).
Proof.
  intros Hm He Hx Hl Hs. unfold items_at. unfold ltrim at 1 2.
  rewrite with_entry_result, with_entry_entry, decide_True, He by done. simpl. rewrite Hx. simpl.
  by rewrite clamped_range.
Qed.

(** [stop + 1] wraps at the largest index and the drain is out of range. *)
Lemma ltrim_wraps now k start m l :
  entry k m = Some (CList l) -> ListValue.is_expired now l = false ->
  len (ListValue.items l) <= isize_max - 1 ->
  snd (ltrim now k start i64_max m) = Panic.
Proof.
  intros He Hx Hl. unfold ltrim. rewrite with_entry_result, He. simpl. rewrite Hx. simpl.
  pose proof (len_nonneg (ListValue.items l)) as Hn.
  assert (Es : clamp_stop (len (ListValue.items l)) i64_max = 2 ^ 63).
  { unfold clamp_stop. change (i64_max <? 0) with false. cbn iota.
    change (wrap_i64 (i64_max + 1)) with (- 2 ^ 63). rewrite Z.min_l by lia. done. }
  rewrite Es, clamp_start_spec by (widths; lia).
  set (s := Z.min _ _). assert (0 <= s <= len (ListValue.items l)) by (unfold s; lia).
  replace (2 ^ 63 <=? s) with false by (widths; lia).
  unfold drain_to. replace (s <=? _) with true by lia. simpl. unfold drain_from.
  replace (_ <=? _) with false; [done|]. symmetry. apply Z.leb_gt.
  unfold len in *. rewrite length_drop. widths. lia.
Qed.

(** ** LREM *)

Abbreviation occurrences v l := (len (filter (fun x : bytes => x = v) l)).

(** The loop cuts the list where the limit is reached: before the cut every
    occurrence goes, after it everything stays. *)
Lemma retain_spec v limit r l :
  r <= limit ->
  exists l1 l2, l = l1 ++ l2 /\
    retain v limit r l = (filter (fun x => x <> v) l1 ++ l2, r + occurrences v l1) /\
    r + occurrences v l1 <= limit /\
    (l2 = [] \/ r + occurrences v l1 = limit).
Proof.
  revert r. induction l as [|x l IH]; intros r Hr; simpl.
  { exists [], []. simpl. change (len []) with 0. rewrite Z.add_0_r. naive_solver. }
  destruct (r <? limit) eqn:E; simpl.
  - destruct (decide (x = v)) as [->|Hx].
    + rewrite bool_decide_eq_true_2 by done. destruct (IH (r + 1)) as (l1 & l2 & -> & Hret & Hb & Hc); [lia|].
      exists (v :: l1), l2. rewrite Hret, filter_cons_False, filter_cons_True by naive_solver.
      rewrite len_cons. split; [done|]. split; [f_equal; lia|]. split; [lia|].
      destruct Hc; [by left | right; lia].
    + rewrite bool_decide_eq_false_2 by done. destruct (IH r) as (l1 & l2 & -> & Hret & Hb & Hc); [lia|].
      exists (x :: l1), l2. rewrite Hret, filter_cons_True, filter_cons_False by done. done.
  - assert (r = limit) as -> by lia.
    assert (Hall : forall l, retain v limit limit l = (l, limit)).
    { clear. induction l as [|x l IH]; simpl; [done|].
      rewrite Z.ltb_irrefl. simpl. by rewrite IH. }
    exists [], (x :: l). rewrite Hall. simpl. change (len []) with 0. rewrite Z.add_0_r. naive_solver.
Qed.

(** How many occurrences a count stands for: all of them at 0. *)
Definition lrem_limit (count : Z) : Z := if count =? 0 then usize_max else Z.abs count.

(** What [LREM] leaves of a list: occurrences go from the front when the count
    is positive or zero, from the back when it is negative. *)
Definition lrem_post (count : Z) (v : bytes) (l l' : list bytes) (removed : Z) : Prop :=
  exists l1 l2, l = l1 ++ l2 /\ removed <= lrem_limit count /\
    if 0 <=? count then
      l' = filter (fun x => x <> v) l1 ++ l2 /\ removed = occurrences v l1 /\
      (l2 = [] \/ removed = lrem_limit count)
    else
      l' = l1 ++ filter (fun x => x <> v) l2 /\ removed = occurrences v l2 /\
      (l1 = [] \/ removed = lrem_limit count).

Lemma filter_rev' {A} (P : A -> Prop) `{!forall x, Decision (P x)} l :
  filter P (rev l) = rev (filter P l).
Proof. rewrite !rev_alt. change (rev_append ?l []) with (reverse l). apply filter_reverse. Qed.

Lemma lrem_live now k count v m l : inv m ->
  entry k m = Some (CList l) -> ListValue.is_expired now l = false -> in_i64 count = true ->
  exists l' removed, snd (lrem now k count v m) = Ok removed /\
    items_at k (fst (lrem now k count v m)) = Some l' /\
    lrem_post count v (ListValue.items l) l' removed.
Proof.
  intros Hm He Hx Hc. apply in_i64_spec in Hc. unfold items_at. unfold lrem at 1 2.
  rewrite with_entry_result, with_entry_entry, decide_True, He by done. simpl. rewrite Hx. simpl.
  unfold lrem_post. destruct (0 <=? count) eqn:E.
  - replace (if count =? 0 then usize_max else as_usize count) with (lrem_limit count).
    2:{ unfold lrem_limit. destruct (count =? 0); [done|].
        rewrite as_usize_id by (widths; lia). lia. }
    destruct (retain_spec v (lrem_limit count) 0 (ListValue.items l)) as (l1 & l2 & Hl & -> & Hb & Hd).
    { unfold lrem_limit. destruct (count =? 0); widths; lia. }
    simpl. eexists _, _. split; [done|]. split; [done|]. exists l1, l2. rewrite Z.add_0_l in *. done.
  - replace (as_usize (wrap_i64 (- count))) with (lrem_limit count).
    2:{ unfold lrem_limit. replace (count =? 0) with false by lia.
        destruct (decide (count = i64_min)) as [->|]; [done|].
        rewrite wrap_i64_id by (widths; lia). rewrite as_usize_id by (widths; lia). lia. }
    destruct (retain_spec v (lrem_limit count) 0 (rev (ListValue.items l))) as (l1 & l2 & Hl & -> & Hb & Hd).
    { unfold lrem_limit. replace (count =? 0) with false by lia. lia. }
    simpl. eexists _, _. split; [done|]. split; [done|]. rewrite Z.add_0_l in *.
    exists (rev l2), (rev l1). rewrite <- rev_app_distr, <- Hl, rev_involutive.
    split; [done|]. split; [done|]. rewrite !filter_rev', rev_app_distr.
    split; [done|]. split; [unfold len; by rewrite length_rev|].
    destruct Hd as [->|Hd]; [by left | by right].
Qed.

(** ** LSET *)

Lemma lset_live now k i v m l : inv m ->
  entry k m = Some (CList l) -> ListValue.is_expired now l = false ->
  let n := len (ListValue.items l) in
  let j := if i <? 0 then n + i else i in
  if (0 <=? j) && (j <? n) then
    snd (lset now k i v m) = Ok tt /\
    items_at k (fst (lset now k i v m)) = Some (<[Z.to_nat j := v]> (ListValue.items l))
  else is_ok (snd (lset now k i v m)) = false /\ fst (lset now k i v m) = m.
Proof.
  intros Hm He Hx n j. unfold items_at. pose proof (set_entry_id k m Hm) as Hid.
  destruct ((0 <=? j) && (j <? n)) eqn:E.
  - unfold lset. rewrite with_entry_result, with_entry_entry, decide_True, He by done.
    simpl. rewrite Hx. simpl. fold n. fold j.
    by replace ((j <? 0) || (n <=? j)) with false by lia.
  - unfold lset, with_entry. rewrite He. simpl. rewrite Hx. simpl. fold n. fold j.
    replace ((j <? 0) || (n <=? j)) with true by lia. simpl. by rewrite <- He, Hid.
Qed.
End lists.
