(* ===== verification/SetFacts.v ===== *)
(** * SetFacts: sets, hashes, sorted sets and streams in the storage *)

From S2P Require Import Prelude Text External Float64 BTree Values SortedSet SortedSetFacts.
From S2P Require Import Stream Keyspace Storage StorageTypes StorageFacts.
#[local] Open Scope Z_scope.

Section sets.
Context `{KeyMapLaws M}.
Implicit Types m : M.

(** ** Set algebra *)

(** The members a set command sees under a key: none when the key is missing
    or expired, an error when it has another type. *)
Definition set_at (now : Z) (k : bytes) (m : M) : res (gset bytes) :=
  match entry k m with
  | Some (CSet s) => Ok (if past now (SetValue.expires_at s) then ∅ else SetValue.members s)
  | Some _ => Err WRONGTYPE
  | None => Ok ∅
  end.

Lemma snapshot_set_at now k m :
  match snapshot_set now k m with
  | Ok (Some s) => set_at now k m = Ok (SetValue.members s)
  | Ok None => set_at now k m = Ok ∅
  | Err e => set_at now k m = Err e
  | Panic => False
  end.
Proof.
  unfold snapshot_set, read_set, set_at. destruct (entry k m) as [[| | |s| |]|]; try done.
  unfold SetValue.is_expired. by destruct (past now (SetValue.expires_at s)).
Qed.

Context `{HashOrder}.

Lemma sunion_loop_spec now ks r m sets : collect (fun k => set_at now k m) ks = Ok sets ->
  exists s, sunion_loop now ks r m = Ok s /\ SetValue.members s = SetValue.members r ∪ ⋃ sets.
Proof.
  revert r sets. induction ks as [|k ks IH]; intros r sets Hs; simpl in *.
  { injection Hs as <-. exists r. split; [done|]. set_solver. }
  inv_bind Hs. inv_bind Hs. injection Hs as <-.
  pose proof (snapshot_set_at now k m) as Hk.
  destruct (snapshot_set now k m) as [[s|]| |]; simpl; [| |congruence|done].
  - destruct (IH (add_all (SetValue.get_all s) r) _ Ha0) as (s' & -> & Hs'). exists s'.
    split; [done|]. rewrite Hs', add_all_members, get_all_members.
    assert (a = SetValue.members s) as -> by congruence. set_solver.
  - destruct (IH r _ Ha0) as (s' & -> & Hs'). exists s'. split; [done|].
    assert (a = ∅) as -> by congruence. set_solver.
Qed.

Lemma sdiff_loop_spec now ks r m sets : collect (fun k => set_at now k m) ks = Ok sets ->
  exists s, sdiff_loop now ks r m = Ok s /\ SetValue.members s = SetValue.members r ∖ ⋃ sets.
Proof.
  revert r sets. induction ks as [|k ks IH]; intros r sets Hs; simpl in *.
  { injection Hs as <-. exists r. split; [done|]. set_solver. }
  inv_bind Hs. inv_bind Hs. injection Hs as <-.
  pose proof (snapshot_set_at now k m) as Hk.
  destruct (snapshot_set now k m) as [[s|]| |]; simpl; [| |congruence|done].
  - destruct (IH (add_all (SetValue.difference r s) SetValue.new) _ Ha0) as (s' & -> & Hs').
    exists s'. split; [done|]. rewrite Hs', add_all_members, difference_members. simpl.
    assert (a = SetValue.members s) as -> by congruence. set_solver.
  - destruct (IH r _ Ha0) as (s' & -> & Hs'). exists s'. split; [done|].
    assert (a = ∅) as -> by congruence. set_solver.
Qed.

Lemma sinter_loop_spec now ks r m sets : collect (fun k => set_at now k m) ks = Ok sets ->
  exists l, sinter_loop now ks (Some r) m = Ok l /\ NoDup l /\
    forall x, x ∈ l <-> x ∈ SetValue.members r /\ Forall (fun X : gset bytes => x ∈ X) sets.
Proof.
  revert r sets. induction ks as [|k ks IH]; intros r sets Hs; simpl in *.
  { injection Hs as <-. eexists. split; [done|]. split; [apply NoDup_hs_iter|].
    intros x. unfold SetValue.get_all. rewrite elem_of_hs_iter. by split; [|intros []]. }
  inv_bind Hs. inv_bind Hs. injection Hs as <-.
  pose proof (snapshot_set_at now k m) as Hk.
  destruct (snapshot_set now k m) as [[s|]| |]; simpl; [| |congruence|done].
  - destruct (IH (add_all (SetValue.intersection r s) SetValue.new) _ Ha0) as (l & -> & Hn & Hl).
    exists l. split; [done|]. split; [done|]. intros x.
    rewrite Hl, add_all_members, intersection_members, Forall_cons. simpl.
    assert (a = SetValue.members s) as -> by congruence. set_solver.
  - exists []. split; [done|]. split; [constructor|]. intros x. rewrite Forall_cons.
    assert (a = ∅) as -> by congruence. set_solver.
Qed.

(** ** Loops that add and remove *)

Lemma count_loop_app {V} (f : bytes -> V -> V * bool) l v c0 :
  fold_left (fun '(v, count) x => let '(v, b) := f x v in (v, if b : bool then count + 1 else count))
    l (v, c0) = (fst (count_loop f l v), c0 + snd (count_loop f l v)).
Proof.
  unfold count_loop. revert v c0. induction l as [|x l IH]; intros v c0; simpl.
  { by rewrite Z.add_0_r. }
  destruct (f x v) as [v' b]. rewrite IH, (IH v' (if b then 0 + 1 else 0)). simpl.
  f_equal. destruct b; lia.
Qed.

Lemma count_loop_cons {V} (f : bytes -> V -> V * bool) x l v :
  count_loop f (x :: l) v =
  let '(v, b) := f x v in
  (fst (count_loop f l v), (if b : bool then 1 else 0) + snd (count_loop f l v)).
Proof. unfold count_loop at 1. simpl. destruct (f x v) as [v' b]. rewrite count_loop_app. done. Qed.

Lemma sadd_loop l s :
  let s' := fst (count_loop SetValue.add l s) in
  SetValue.members s' = list_to_set l ∪ SetValue.members s /\
  SetValue.expires_at s' = SetValue.expires_at s /\
  snd (count_loop SetValue.add l s) = SetValue.len s' - SetValue.len s.
Proof.
  revert s. induction l as [|x l IH]; intros s; simpl.
  { unfold count_loop; simpl. split; [set_solver|]. split; [done|lia]. }
  rewrite count_loop_cons. simpl. destruct (IH (fst (SetValue.add x s))) as (Hm & He & Hc).
  simpl in *. rewrite Hc, Hm, He. split; [set_solver|]. split; [done|].
  assert (Hl : SetValue.len (fst (SetValue.add x s)) =
    SetValue.len s + if bool_decide (x ∉ SetValue.members s) then 1 else 0); [|simpl in Hl; lia].
  unfold SetValue.len. simpl. case_bool_decide as Hx.
  - rewrite size_union by set_solver. rewrite size_singleton. lia.
  - replace ({[x]} ∪ SetValue.members s) with (SetValue.members s) by set_solver. lia.
Qed.

Lemma srem_loop l s :
  let s' := fst (count_loop SetValue.remove l s) in
  SetValue.members s' = SetValue.members s ∖ list_to_set l /\
  SetValue.expires_at s' = SetValue.expires_at s /\
  snd (count_loop SetValue.remove l s) = SetValue.len s - SetValue.len s'.
Proof.
  revert s. induction l as [|x l IH]; intros s; simpl.
  { unfold count_loop; simpl. split; [set_solver|]. split; [done|lia]. }
  rewrite count_loop_cons. simpl. destruct (IH (fst (SetValue.remove x s))) as (Hm & He & Hc).
  simpl in *. rewrite Hc, Hm, He. split; [set_solver|]. split; [done|].
  assert (Hl : SetValue.len s = SetValue.len (fst (SetValue.remove x s)) +
    if bool_decide (x ∈ SetValue.members s) then 1 else 0); [|simpl in Hl; lia].
  unfold SetValue.len. simpl. case_bool_decide as Hx.
  - rewrite size_difference by set_solver. rewrite size_singleton.
    assert (size (SetValue.members s) <> 0%nat); [|lia].
    intros E. apply size_empty_inv in E. set_solver.
  - replace (SetValue.members s ∖ {[x]}) with (SetValue.members s) by set_solver. lia.
Qed.

Lemma remove_chosen_members l s :
  SetValue.members (fold_left (fun s x => fst (SetValue.remove x s)) l s) =
  SetValue.members s ∖ list_to_set l.
Proof. revert s. induction l as [|x l IH]; intros s; simpl; [set_solver|]. rewrite IH. set_solver. Qed.

(** ** Sorted sets *)

Lemma add_members_wf members z : Forall (fun e => is_nan e.1 = false) members ->
  zset_wf z -> zset_wf (add_members members z).
Proof.
  unfold add_members. intros HF. revert z.
  induction HF as [|[s x] l Hs _ IH]; intros z Hz; simpl; [done|].
  by apply IH, zset_add_wf.
Qed.

Lemma zrem_loop_wf l z : zset_wf z -> zset_wf (fst (count_loop SortedSetValue.remove l z)).
Proof.
  revert z. induction l as [|x l IH]; intros z Hz; [done|].
  rewrite count_loop_cons. destruct (SortedSetValue.remove x z) as [z' b] eqn:E. simpl.
  apply IH. replace z' with (fst (SortedSetValue.remove x z)) by by rewrite E.
  by apply zset_remove_wf.
Qed.

Lemma zindex_nonneg n i : 0 <= n -> in_i64 i = true -> 0 <= zindex n i.
Proof.
  intros Hn Hi. unfold zindex, as_usize.
  destruct (i <? 0); apply Z.mod_pos_bound; lia.
Qed.

Lemma zindex_spec n i : 0 <= n <= isize_max -> in_i64 i = true ->
  zindex n i = Z.max 0 (if i <? 0 then n + i else i).
Proof.
  intros Hn Hi. apply in_i64_spec in Hi. unfold zindex.
  destruct (i <? 0) eqn:E; rewrite as_usize_id by (widths; lia); lia.
Qed.
End sets.
