(* ===== verification/Resp.v ===== *)
(** * Resp: the wire protocol

    [RespValue], [parse_resp] and [write_resp] of [src/cache/src/protocol.rs].
    The parser reads a [Cursor]; here it takes the bytes from the cursor on and
    returns the value with the bytes that are left, which its callers use as
    the new position.  A panic is possible at one place only:
    [Vec::with_capacity(count)] in [parse_array].

    [parse_resp_fuel] recurses on fuel; a value takes at least one byte, so
    twice the length is enough ([parse_fuel_enough]) and [parse_resp] is a
    total function. *)

From S2P Require Import Prelude Text External.
#[local] Open Scope Z_scope.

Inductive RespValue :=
| SimpleString (s : bytes)
| Error (s : bytes)
| Integer (n : Z)
| BulkString (b : option bytes)
| Array (items : list RespValue).

Definition crlf : bytes := [x0d; x0a].

(** ** Parsing *)

(** The window loop of [read_line]: the bytes before the first CRLF and those
    after it. *)
Fixpoint split_crlf (buf : bytes) : option (bytes * bytes) :=
  match buf with
  | [] => None
  | x0d :: x0a :: rest => Some ([], rest)
  | b :: buf => match split_crlf buf with
                | Some (l, rest) => Some (b :: l, rest)
                | None => None
                end
  end.

Definition read_line (buf : bytes) : res (bytes * bytes) :=
  match split_crlf buf with
  | Some (line, rest) => Ok (from_utf8_lossy line, rest)
  | None => Err (bs "Incomplete line")
  end.

Definition parse_simple_string (buf : bytes) : res (RespValue * bytes) :=
  '(line, buf) ← read_line buf; Ok (SimpleString line, buf).

Definition parse_error (buf : bytes) : res (RespValue * bytes) :=
  '(line, buf) ← read_line buf; Ok (Error line, buf).

Definition parse_integer (buf : bytes) : res (RespValue * bytes) :=
  '(line, buf) ← read_line buf;
  num ← ok_or (bs "Invalid integer: " ++ line) (parse_i64 line);
  Ok (Integer num, buf).

Definition parse_bulk_string (buf : bytes) : res (RespValue * bytes) :=
  '(line, buf) ← read_line buf;
  n ← ok_or (bs "Invalid bulk string length: " ++ line) (parse_i64 line);
  if n =? -1 then Ok (BulkString None, buf)
  else if n <? 0 then Err (bs "Invalid bulk string length: " ++ show_int n)
  else if len buf <? n + 2 then Err (bs "Incomplete bulk string")
  else
    let data := take (Z.to_nat n) buf in
    match drop (Z.to_nat n) buf with
    | cr :: lf :: buf =>
        if bool_decide (cr = x0d /\ lf = x0a) then Ok (BulkString (Some data), buf)
        else Err (bs "Invalid CRLF after bulk string")
    | _ => Err (bs "Missing CRLF after bulk string")
    end.

(** [marker as char], printed: Latin-1 to UTF-8. *)
Definition char_of_u8 (b : byte) : bytes :=
  if u8 b <? 128 then [b] else [as_u8 (192 + u8 b / 64); as_u8 (128 + u8 b mod 64)].

Section parse.
Context `{Layout}.

(** [None]: out of fuel. *)
Fixpoint parse_resp_fuel (fuel : nat) (buf : bytes) : option (res (RespValue * bytes)) :=
  match fuel with
  | O => None
  | S fuel =>
      match buf with
      | [] => Some (Err (bs "Empty buffer"))
      | x2b :: buf => Some (parse_simple_string buf)
      | x2d :: buf => Some (parse_error buf)
      | x3a :: buf => Some (parse_integer buf)
      | x24 :: buf => Some (parse_bulk_string buf)
      | x2a :: buf =>
          (* parse_array *)
          match ('(line, buf) ← read_line buf;
                 count ← ok_or (bs "Invalid array length: " ++ line) (parse_i64 line);
                 Ok (count, buf)) with
          | Ok (count, buf) =>
              if count <? 0 then Some (Ok (Array [], buf))
              else match with_capacity sizeof_RespValue count with
              | Ok _ =>
                  match parse_items_fuel fuel count buf with
                  | Some (Ok (items, buf)) => Some (Ok (Array items, buf))
                  | Some (Err e) => Some (Err e)
                  | Some Panic => Some Panic
                  | None => None
                  end
              | Err e => Some (Err e)
              | Panic => Some Panic
              end
          | Err e => Some (Err e)
          | Panic => Some Panic
          end
      | marker :: _ => Some (Err (bs "Unknown RESP type marker: " ++ char_of_u8 marker))
      end
  end
(** The loop [for _ in 0..count { array.push(parse_resp(buf)?) }]. *)
with parse_items_fuel (fuel : nat) (count : Z) (buf : bytes)
  : option (res (list RespValue * bytes)) :=
  match fuel with
  | O => None
  | S fuel =>
      if count <=? 0 then Some (Ok ([], buf))
      else match parse_resp_fuel fuel buf with
      | Some (Ok (v, buf)) =>
          match parse_items_fuel fuel (count - 1) buf with
          | Some (Ok (vs, buf)) => Some (Ok (v :: vs, buf))
          | Some (Err e) => Some (Err e)
          | Some Panic => Some Panic
          | None => None
          end
      | Some (Err e) => Some (Err e)
      | Some Panic => Some Panic
      | None => None
      end
  end.

Definition resp_fuel (buf : bytes) : nat := 2 * length buf + 2.

Definition parse_resp (buf : bytes) : res (RespValue * bytes) :=
  default Panic (parse_resp_fuel (resp_fuel buf) buf).
End parse.

(** ** Writing *)

Fixpoint write_resp (v : RespValue) : bytes :=
  match v with
  | SimpleString s => x2b :: s ++ crlf
  | Error s => x2d :: s ++ crlf
  | Integer n => x3a :: show_int n ++ crlf
  | BulkString (Some b) => x24 :: show_int (len b) ++ crlf ++ b ++ crlf
  | BulkString None => bs "$-1" ++ crlf
  | Array items => x2a :: show_int (len items) ++ crlf ++ concat (map write_resp items)
  end.

Definition serialize_resp (v : RespValue) : bytes := write_resp v.

(** ** Values that have an encoding *)

Definition no_crlf (l : bytes) : bool :=
  match split_crlf l with Some _ => false | None => true end.

(** Lines are text without a line break, integers and lengths fit. *)
Fixpoint wf_resp `{Layout} (v : RespValue) : bool :=
  match v with
  | SimpleString s | Error s => no_crlf s && utf8_valid s
  | Integer n => in_i64 n
  | BulkString None => true
  | BulkString (Some b) => len b <=? isize_max
  | Array items => (sizeof_RespValue * len items <=? isize_max) && forallb wf_resp items
  end.

(** Induction through the items of arrays. *)
Lemma RespValue_ind' (P : RespValue -> Prop) :
  (forall s, P (SimpleString s)) -> (forall s, P (Error s)) -> (forall n, P (Integer n)) ->
  (forall b, P (BulkString b)) -> (forall items, Forall P items -> P (Array items)) ->
  forall v, P v.
Proof.
  intros Hs He Hi Hb Ha. fix IH 1. intros [s|s|n|b|items]; [done|done|done|done|].
  apply Ha. induction items as [|v items IHi]; constructor; [apply IH | exact IHi].
Qed.

#[global] Instance RespValue_eq_dec : EqDecision RespValue.
Proof.
  refine (fix go (v w : RespValue) : Decision (v = w) :=
    match v, w with
    | SimpleString s, SimpleString t => cast_if (decide (s = t))
    | Error s, Error t => cast_if (decide (s = t))
    | Integer n, Integer k => cast_if (decide (n = k))
    | BulkString a, BulkString b => cast_if (decide (a = b))
    | Array l, Array k =>
        cast_if ((fix list_go (l k : list RespValue) : Decision (l = k) :=
          match l, k with
          | [], [] => left eq_refl
          | x :: l, y :: k => cast_if_and (go x y) (list_go l k)
          | _, _ => right _
          end) l k)
    | _, _ => right _
    end); try done; congruence.
Defined.
