(* ===== verification/RespFacts.v ===== *)
(** * RespFacts: the parser reads back what the writer writes

    Termination and consumption of the parser, the round trip, and its
    behaviour on incomplete input, which is what lets a connection wait for
    more bytes. *)

From S2P Require Import Prelude Text External Resp.
#[local] Open Scope Z_scope.

(** [simpl] computes [crlf ++ l]; put it back. *)
Ltac fold_crlf :=
  repeat match goal with
  | |- context [x0d :: x0a :: ?r] => change (x0d :: x0a :: r) with (crlf ++ r)
  end.

Ltac fold_crlf_in H :=
  repeat match type of H with
  | context [x0d :: x0a :: ?r] => change (x0d :: x0a :: r) with (crlf ++ r) in H
  end.

(** ** Lines *)

Lemma split_crlf_cons b buf :
  split_crlf (b :: buf) =
  if decide (b = x0d /\ head buf = Some x0a) then Some ([], tail buf)
  else match split_crlf buf with Some (l, rest) => Some (b :: l, rest) | None => None end.
Proof.
  destruct (decide (b = x0d)) as [->|Hb].
  - destruct buf as [|c buf]; [done|]. destruct (decide (c = x0a)) as [->|Hc].
    + by rewrite decide_True.
    + rewrite decide_False by naive_solver. by destruct c.
  - rewrite decide_False by naive_solver. by destruct b.
Qed.

Lemma no_crlf_cons b l : no_crlf (b :: l) = true <->
  ~ (b = x0d /\ head l = Some x0a) /\ no_crlf l = true.
Proof.
  unfold no_crlf. rewrite split_crlf_cons. case_decide; [naive_solver|].
  destruct (split_crlf l) as [[]|]; naive_solver.
Qed.

Lemma split_crlf_line l rest : no_crlf l = true -> split_crlf (l ++ crlf ++ rest) = Some (l, rest).
Proof.
  induction l as [|b l IH]; intros Hl; [done|].
  apply no_crlf_cons in Hl as [Hb Hl]. rewrite <- app_comm_cons, split_crlf_cons.
  rewrite decide_False; [by rewrite IH|]. contradict Hb. destruct Hb as [-> Hh].
  split; [done|]. by destruct l.
Qed.

(** Before the line feed there is no line yet. *)
Lemma split_crlf_prefix l p s : no_crlf l = true -> p ++ s = l ++ crlf -> s <> [] ->
  split_crlf p = None.
Proof.
  revert l. induction p as [|b p IH]; intros l Hl Hp Hs; [done|].
  rewrite split_crlf_cons. destruct l as [|c l].
  - injection Hp as -> Hp. destruct p as [|c p].
    + by rewrite decide_False by naive_solver.
    + exfalso. apply (f_equal length) in Hp. rewrite length_app in Hp. simpl in Hp.
      destruct s; [done|]. simpl in Hp. lia.
  - injection Hp as -> Hp. apply no_crlf_cons in Hl as [Hb Hl].
    rewrite (IH l Hl Hp Hs), decide_False; [done|]. intros [-> Hh]. apply Hb. split; [done|].
    destruct p as [|d p]; [done|]. injection Hh as ->. destruct l; [discriminate Hp|]. simpl in Hp |- *. by injection Hp as <- _.
Qed.

Lemma split_crlf_length buf l rest : split_crlf buf = Some (l, rest) ->
  buf = l ++ crlf ++ rest.
Proof.
  revert l rest. induction buf as [|b buf IH]; intros l rest; [done|].
  rewrite split_crlf_cons. case_decide as E.
  - destruct E as [-> E]. destruct buf; [done|]. injection E as ->. by intros [= <- <-].
  - destruct (split_crlf buf) as [[l' r']|]; [|done]. intros [= <- <-]. by rewrite (IH l' r').
Qed.

Lemma no_crlf_digits l : Forall (fun b => is_digit b = true) l -> no_crlf l = true.
Proof.
  induction 1 as [|b l Hb _ IH]; [done|]. apply no_crlf_cons. split; [|done]. by intros [-> _].
Qed.

Lemma no_crlf_show z : no_crlf (show_int z) = true.
Proof.
  unfold show_int. destruct (z <? 0) eqn:E.
  - destruct (show_nonneg_spec (- z)) as (d & ds & -> & HF & _); [lia|].
    apply no_crlf_cons. split; [by intros []|]. by apply no_crlf_digits.
  - destruct (show_nonneg_spec z) as (d & ds & -> & HF & _); [lia|]. by apply no_crlf_digits.
Qed.

Lemma read_line_line l rest : no_crlf l = true -> utf8_valid l = true ->
  read_line (l ++ crlf ++ rest) = Ok (l, rest).
Proof.
  intros Hl Hu. unfold read_line. rewrite split_crlf_line by done.
  by rewrite from_utf8_lossy_valid.
Qed.

Lemma read_line_show z rest : read_line (show_int z ++ crlf ++ rest) = Ok (show_int z, rest).
Proof. apply read_line_line; [apply no_crlf_show | apply is_ascii_valid, show_int_ascii]. Qed.

Lemma read_line_prefix l p s : no_crlf l = true -> p ++ s = l ++ crlf -> s <> [] ->
  exists e, read_line p = Err e.
Proof. intros Hl Hp Hs. unfold read_line. rewrite (split_crlf_prefix l p s); eauto. Qed.

Lemma read_line_rest buf l rest : read_line buf = Ok (l, rest) ->
  exists used, buf = used ++ rest /\ (2 <= length used)%nat.
Proof.
  unfold read_line. destruct (split_crlf buf) as [[l' r']|] eqn:E; [|done].
  intros [= _ <-]. apply split_crlf_length in E. exists (l' ++ crlf).
  rewrite <- app_assoc. split; [done|]. rewrite length_app. simpl. lia.
Qed.

(** ** One step of the parser *)

Section facts.
Context `{Layout}.

(** The header of an array: its count. *)
Definition array_count (buf : bytes) : res (Z * bytes) :=
  '(line, buf) ← read_line buf;
  count ← ok_or (bs "Invalid array length: " ++ line) (parse_i64 line);
  Ok (count, buf).

Definition parse_array_fuel (fuel : nat) (buf : bytes) : option (res (RespValue * bytes)) :=
  match array_count buf with
  | Ok (count, buf) =>
      if count <? 0 then Some (Ok (Array [], buf))
      else match with_capacity sizeof_RespValue count with
      | Ok _ =>
          match parse_items_fuel fuel count buf with
          | Some (Ok (items, buf)) => Some (Ok (Array items, buf))
          | Some (Err e) => Some (Err e)
          | Some Panic => Some Panic
          | None => None
          end
      | Err e => Some (Err e)
      | Panic => Some Panic
      end
  | Err e => Some (Err e)
  | Panic => Some Panic
  end.

(** The values that are not arrays; [None] for an array. *)
Definition parse_scalar (buf : bytes) : option (res (RespValue * bytes)) :=
  match buf with
  | [] => Some (Err (bs "Empty buffer"))
  | b :: rest =>
      if decide (b = x2b) then Some (parse_simple_string rest)
      else if decide (b = x2d) then Some (parse_error rest)
      else if decide (b = x3a) then Some (parse_integer rest)
      else if decide (b = x24) then Some (parse_bulk_string rest)
      else if decide (b = x2a) then None
      else Some (Err (bs "Unknown RESP type marker: " ++ char_of_u8 b))
  end.

Lemma parse_resp_step fuel buf :
  parse_resp_fuel (S fuel) buf =
  match parse_scalar buf with
  | Some r => Some r
  | None => parse_array_fuel fuel (tail buf)
  end.
Proof. destruct buf as [|b buf]; [done|]. by destruct b. Qed.

Lemma parse_items_step fuel count buf :
  parse_items_fuel (S fuel) count buf =
  if count <=? 0 then Some (Ok ([], buf))
  else match parse_resp_fuel fuel buf with
  | Some (Ok (v, buf)) =>
      match parse_items_fuel fuel (count - 1) buf with
      | Some (Ok (vs, buf)) => Some (Ok (v :: vs, buf))
      | Some (Err e) => Some (Err e)
      | Some Panic => Some Panic
      | None => None
      end
  | Some (Err e) => Some (Err e)
  | Some Panic => Some Panic
  | None => None
  end.
Proof. done. Qed.

(** ** Consumption: a value is a non-empty prefix of the input *)

Definition consumes {A} (n : nat) (buf : bytes) (r : res (A * bytes)) : Prop :=
  forall a rest, r = Ok (a, rest) -> exists used, buf = used ++ rest /\ (n <= length used)%nat.

Lemma consumes_mono {A} n k buf (r : res (A * bytes)) : (k <= n)%nat -> consumes n buf r -> consumes k buf r.
Proof. intros Hk Hc a rest Hr. destruct (Hc a rest Hr) as (u & -> & Hu). exists u. split; [done|lia]. Qed.

Lemma parse_scalar_consumes buf r : parse_scalar buf = Some r -> consumes 1 buf r.
Proof.
  intros Hr v rest ->. destruct buf as [|b buf]; [done|]. simpl in Hr.
  assert (Hl : exists used, buf = used ++ rest).
  { repeat (case_decide; [|]); simplify_eq.
    - unfold parse_simple_string in *. inv_bind Hr. destruct a as [l r']. injection Hr as <- <-.
      apply read_line_rest in Ha as (u & -> & _). by exists u.
    - unfold parse_error in *. inv_bind Hr. destruct a as [l r']. injection Hr as <- <-.
      apply read_line_rest in Ha as (u & -> & _). by exists u.
    - unfold parse_integer in *. inv_bind Hr. destruct a as [l r']. inv_bind Hr.
      injection Hr as <- <-. apply read_line_rest in Ha as (u & -> & _). by exists u.
    - unfold parse_bulk_string in *. inv_bind Hr. destruct a as [l r']. inv_bind Hr.
      apply read_line_rest in Ha as (u & -> & _).
      repeat case_match; simplify_eq; [by exists u|].
      exists (u ++ take (Z.to_nat a) r' ++ crlf). rewrite <- !app_assoc. f_equal.
      etrans; [symmetry; apply (take_drop (Z.to_nat a) r')|]. f_equal.
      match goal with E : bool_decide _ = true |- _ => apply bool_decide_eq_true in E as [-> ->] end.
      done. }
  destruct Hl as [used ->]. exists (b :: used). split; [done|]. simpl. lia.
Qed.

Lemma array_count_rest buf c rest : array_count buf = Ok (c, rest) ->
  exists used, buf = used ++ rest.
Proof.
  unfold array_count. intros Hc. inv_bind Hc. destruct a as [l r']. inv_bind Hc.
  injection Hc as <- <-. apply read_line_rest in Ha as (u & -> & _). by exists u.
Qed.

Lemma parse_consumes fuel :
  (forall buf r, parse_resp_fuel fuel buf = Some r -> consumes 1 buf r) /\
  (forall count buf r, parse_items_fuel fuel count buf = Some r -> consumes 0 buf r).
Proof.
  induction fuel as [|fuel [IHr IHi]]; [done|]. split.
  - intros buf r. rewrite parse_resp_step. destruct (parse_scalar buf) as [r'|] eqn:E.
    { intros [= <-]. by apply parse_scalar_consumes. }
    destruct buf as [|b buf]; [done|]. simpl. intros Hr v rest ->.
    unfold parse_array_fuel in Hr. destruct (array_count buf) as [[c buf1]|?|] eqn:Ec; [|done..].
    apply array_count_rest in Ec as (u & ->).
    assert (Hl : exists used, buf1 = used ++ rest).
    { destruct (c <? 0); [injection Hr as <- <-; by exists []|].
      destruct (with_capacity _ c); [|done..].
      destruct (parse_items_fuel fuel c buf1) as [[[items buf2]|?|]|] eqn:Ei; [|done..].
      injection Hr as <- <-. destruct (IHi _ _ _ Ei items buf2 eq_refl) as (u' & -> & _). by exists u'. }
    destruct Hl as [u' ->]. exists (b :: u ++ u'). rewrite <- app_comm_cons, <- app_assoc.
    split; [done|]. simpl. lia.
  - intros count buf r. rewrite parse_items_step.
    destruct (count <=? 0); [intros [= <-] vs rest [= <- <-]; exists []; split; [done|simpl; lia]|].
    destruct (parse_resp_fuel fuel buf) as [[[v buf1]|?|]|] eqn:Ev; [|by intros [= <-] ? ?|by intros [= <-] ? ?|done].
    destruct (IHr _ _ Ev v buf1 eq_refl) as (u & -> & _).
    destruct (parse_items_fuel fuel (count - 1) buf1) as [[[vs buf2]|?|]|] eqn:Ei; [|by intros [= <-] ? ?|by intros [= <-] ? ?|done].
    destruct (IHi _ _ _ Ei vs buf2 eq_refl) as (u' & -> & _).
    intros [= <-] ? ? [= <- <-]. exists (u ++ u'). rewrite <- app_assoc. split; [done|lia].
Qed.

(** ** Fuel *)

Lemma parse_fuel_mono fuel :
  (forall buf r, parse_resp_fuel fuel buf = Some r -> parse_resp_fuel (S fuel) buf = Some r) /\
  (forall count buf r, parse_items_fuel fuel count buf = Some r ->
    parse_items_fuel (S fuel) count buf = Some r).
Proof.
  induction fuel as [|fuel [IHr IHi]]; [done|]. split.
  - intros buf r. rewrite (parse_resp_step fuel), (parse_resp_step (S fuel)).
    destruct (parse_scalar buf); [done|]. unfold parse_array_fuel.
    destruct (array_count (tail buf)) as [[c buf1]|?|]; [|done..].
    destruct (c <? 0); [done|]. destruct (with_capacity _ c); [|done..].
    destruct (parse_items_fuel fuel c buf1) as [r'|] eqn:Ei; [|done].
    by rewrite (IHi _ _ _ Ei).
  - intros count buf r. rewrite (parse_items_step fuel), (parse_items_step (S fuel)).
    destruct (count <=? 0); [done|].
    destruct (parse_resp_fuel fuel buf) as [r'|] eqn:Er; [|done]. rewrite (IHr _ _ Er).
    destruct r' as [[v buf1]|?|]; [|done..].
    destruct (parse_items_fuel fuel (count - 1) buf1) as [r'|] eqn:Ei; [|done].
    by rewrite (IHi _ _ _ Ei).
Qed.

Lemma parse_fuel_le fuel fuel' buf r : (fuel <= fuel')%nat ->
  parse_resp_fuel fuel buf = Some r -> parse_resp_fuel fuel' buf = Some r.
Proof. induction 1; [done|]. intros Hr. by apply parse_fuel_mono, IHle. Qed.

Lemma parse_items_fuel_le fuel fuel' c buf r : (fuel <= fuel')%nat ->
  parse_items_fuel fuel c buf = Some r -> parse_items_fuel fuel' c buf = Some r.
Proof. induction 1; [done|]. intros Hr. by apply parse_fuel_mono, IHle. Qed.

(** A value takes a byte, so the number of bytes bounds the recursion. *)
Lemma parse_fuel_enough fuel :
  (forall buf, (2 * length buf + 2 <= fuel)%nat -> parse_resp_fuel fuel buf <> None) /\
  (forall count buf, (2 * length buf + 3 <= fuel)%nat -> parse_items_fuel fuel count buf <> None).
Proof.
  induction fuel as [|fuel [IHr IHi]]; [split; intros; lia|]. split.
  - intros buf Hf. rewrite parse_resp_step. destruct (parse_scalar buf) eqn:E; [done|].
    destruct buf as [|b buf]; [done|]. simpl in *. unfold parse_array_fuel.
    destruct (array_count buf) as [[c buf1]|?|] eqn:Ec; [|done..].
    apply array_count_rest in Ec as (u & ->). rewrite length_app in Hf.
    destruct (c <? 0); [done|]. destruct (with_capacity _ c); [|done..].
    destruct (parse_items_fuel fuel c buf1) as [[[]|?|]|] eqn:Ei; try done.
    exfalso. by apply (IHi c buf1); [lia|].
  - intros count buf Hf. rewrite parse_items_step. destruct (count <=? 0); [done|].
    destruct (parse_resp_fuel fuel buf) as [[[v buf1]|?|]|] eqn:Ev; try done.
    + destruct (proj1 (parse_consumes fuel) _ _ Ev v buf1 eq_refl) as (u & -> & Hu).
      rewrite length_app in Hf.
      destruct (parse_items_fuel fuel (count - 1) buf1) as [[[]|?|]|] eqn:Ei; try done.
      exfalso. by apply (IHi (count - 1) buf1); [lia|].
    + exfalso. by apply (IHr buf); [lia|].
Qed.

Lemma parse_resp_total buf : parse_resp_fuel (resp_fuel buf) buf = Some (parse_resp buf).
Proof.
  unfold parse_resp. destruct (parse_resp_fuel (resp_fuel buf) buf) eqn:E; [done|].
  exfalso. by apply (proj1 (parse_fuel_enough (resp_fuel buf)) buf).
Qed.

(** Any fuel that gives a result gives the result. *)
Lemma parse_resp_fuel_eq fuel buf r : parse_resp_fuel fuel buf = Some r -> parse_resp buf = r.
Proof.
  intros Hr. pose proof (parse_resp_total buf) as Ht.
  apply (parse_fuel_le _ (Nat.max fuel (resp_fuel buf))) in Hr; [|lia].
  apply (parse_fuel_le _ (Nat.max fuel (resp_fuel buf))) in Ht; [|lia].
  rewrite Ht in Hr. by injection Hr.
Qed.

(** ** The round trip *)

Lemma parse_bulk_write b rest : len b <= isize_max ->
  parse_bulk_string (show_int (len b) ++ crlf ++ b ++ crlf ++ rest) = Ok (BulkString (Some b), rest).
Proof.
  intros Hb. pose proof (len_nonneg b) as Hn. unfold parse_bulk_string.
  rewrite read_line_show. simpl.
  rewrite parse_i64_show by (apply in_i64_spec; widths; lia). simpl.
  replace (len b =? -1) with false by lia. replace (len b <? 0) with false by lia.
  rewrite !len_app. replace (_ <? _) with false; cycle 1.
  { symmetry. apply Z.ltb_ge. pose proof (len_nonneg rest). rewrite !len_cons. lia. }
  unfold len. rewrite Nat2Z.id, take_app_length, drop_app_length. done.
Qed.

Lemma parse_scalar_write v rest : wf_resp v = true ->
  (forall items, v <> Array items) ->
  parse_scalar (write_resp v ++ rest) = Some (Ok (v, rest)).
Proof.
  intros Hv Ha. destruct v as [s|s|n|[b|]|items]; simpl in *.
  - apply andb_true_iff in Hv as [Hl Hu]. rewrite <- app_assoc. unfold parse_simple_string.
    by rewrite read_line_line.
  - apply andb_true_iff in Hv as [Hl Hu]. rewrite <- app_assoc. unfold parse_error.
    by rewrite read_line_line.
  - rewrite <- app_assoc. unfold parse_integer. rewrite read_line_show. simpl.
    by rewrite parse_i64_show.
  - rewrite <- !app_assoc. fold_crlf. rewrite <- !app_assoc. apply Z.leb_le in Hv. by rewrite parse_bulk_write.
  - done.
  - by destruct (Ha items).
Qed.

Lemma array_count_write n rest : 0 <= n <= isize_max ->
  array_count (show_int n ++ crlf ++ rest) = Ok (n, rest).
Proof.
  intros Hn. unfold array_count. rewrite read_line_show. simpl.
  by rewrite parse_i64_show by (apply in_i64_spec; widths; lia).
Qed.

Lemma array_len_bound {A} (items : list A) :
  sizeof_RespValue * len items <= isize_max -> 0 <= len items <= isize_max.
Proof. intros Hs. pose proof (len_nonneg items). pose proof sizeof_RespValue_pos. nia. Qed.

Definition round_trips (v : RespValue) : Prop :=
  wf_resp v = true -> forall rest, exists fuel,
    parse_resp_fuel fuel (write_resp v ++ rest) = Some (Ok (v, rest)).

Lemma parse_items_write items : Forall round_trips items -> forallb wf_resp items = true ->
  forall rest, exists fuel,
    parse_items_fuel fuel (len items) (concat (map write_resp items) ++ rest) = Some (Ok (items, rest)).
Proof.
  induction 1 as [|v items Hv _ IH]; intros Hw rest; simpl in *.
  { by exists 1%nat. }
  apply andb_true_iff in Hw as [Hwv Hw]. rewrite <- app_assoc.
  destruct (Hv Hwv (concat (map write_resp items) ++ rest)) as (f1 & H1).
  destruct (IH Hw rest) as (f2 & H2). exists (S (Nat.max f1 f2)).
  rewrite parse_items_step, len_cons. pose proof (len_nonneg items).
  replace (1 + len items <=? 0) with false by lia.
  rewrite (parse_fuel_le f1 _ _ _ (Nat.le_max_l _ _) H1).
  replace (1 + len items - 1) with (len items) by lia.
  by rewrite (parse_items_fuel_le f2 _ _ _ _ (Nat.le_max_r _ _) H2).
Qed.

Lemma parse_write v : round_trips v.
Proof.
  induction v as [s|s|n|b|items IH] using RespValue_ind'; intros Hv rest;
    try by (exists 1%nat; rewrite parse_resp_step, parse_scalar_write).
  simpl in Hv. apply andb_true_iff in Hv as [Hs Hi]. apply Z.leb_le in Hs.
  destruct (parse_items_write items IH Hi rest) as (fuel & Hf). exists (S fuel).
  rewrite parse_resp_step. simpl. unfold parse_array_fuel. rewrite <- !app_assoc.
  pose proof (array_len_bound items Hs). fold_crlf. rewrite <- ?app_assoc. rewrite array_count_write by lia.
  replace (len items <? 0) with false by lia. unfold with_capacity.
  replace (_ <=? isize_max) with true by lia. by rewrite Hf.
Qed.

Lemma parse_resp_write v rest : wf_resp v = true ->
  parse_resp (write_resp v ++ rest) = Ok (v, rest).
Proof. intros Hv. destruct (parse_write v Hv rest) as (fuel & Hf). by eapply parse_resp_fuel_eq. Qed.

(** ** Incomplete input *)

(** A strict prefix of a concatenation ends in one of its parts. *)
Lemma prefix_app (p s l k : bytes) : p ++ s = l ++ k -> s <> [] ->
  (exists s1, p ++ s1 = l /\ s1 <> []) \/ (exists p1, p = l ++ p1 /\ p1 ++ s = k).
Proof.
  intros Heq Hs. apply app_eq_app in Heq as (r & [[-> Hk]|[-> Hk]]).
  - right. exists r. by split; [|symmetry].
  - destruct r as [|x r]; [right | left].
    + exists []. rewrite !app_nil_r. by subst.
    + by exists (x :: r).
Qed.

Lemma parse_scalar_prefix v p s : wf_resp v = true -> (forall items, v <> Array items) ->
  p ++ s = write_resp v -> s <> [] -> exists e, parse_scalar p = Some (Err e).
Proof.
  intros Hv Ha Hp Hs. destruct p as [|b p]; [by eexists|].
  assert (Hline : forall l, no_crlf l = true -> p ++ s = l ++ crlf -> exists e, read_line p = Err e).
  { intros l Hl Heq. by eapply read_line_prefix. }
  destruct v as [l|l|n|[d|]|items]; simpl in *; injection Hp as -> Hp.
  - apply andb_true_iff in Hv as [Hl _]. destruct (Hline l Hl Hp) as [e He].
    simpl. unfold parse_simple_string. rewrite He. by eexists.
  - apply andb_true_iff in Hv as [Hl _]. destruct (Hline l Hl Hp) as [e He].
    simpl. unfold parse_error. rewrite He. by eexists.
  - destruct (Hline _ (no_crlf_show n) Hp) as [e He].
    simpl. unfold parse_integer. rewrite He. by eexists.
  - simpl. fold_crlf_in Hp. rewrite app_assoc in Hp.
    apply prefix_app in Hp as [(s1 & Hp & Hs1)|(p1 & -> & Hp)]; [| |done].
    + destruct (read_line_prefix _ _ _ (no_crlf_show (len d)) Hp Hs1) as [e He].
      unfold parse_bulk_string. rewrite He. by eexists.
    + unfold parse_bulk_string. rewrite <- app_assoc, read_line_show. simpl.
      pose proof (len_nonneg d). apply Z.leb_le in Hv.
      rewrite parse_i64_show by (apply in_i64_spec; widths; lia). simpl.
      replace (len d =? -1) with false by lia. replace (len d <? 0) with false by lia.
      replace (len p1 <? len d + 2) with true; [by eexists|]. symmetry. apply Z.ltb_lt.
      apply (f_equal len) in Hp. rewrite !len_app in Hp. change (len crlf) with 2 in Hp.
      destruct s; [done|]. rewrite len_cons in Hp. pose proof (len_nonneg s). lia.
  - simpl. destruct (Hline (bs "-1") eq_refl Hp) as [e He].
    unfold parse_bulk_string. rewrite He. by eexists.
  - by destruct (Ha items).
Qed.

Definition waits (v : RespValue) : Prop :=
  wf_resp v = true -> forall p s, p ++ s = write_resp v -> s <> [] ->
    exists fuel e, parse_resp_fuel fuel p = Some (Err e).

Lemma parse_items_prefix items : Forall waits items -> forallb wf_resp items = true ->
  forall p s, p ++ s = concat (map write_resp items) -> s <> [] ->
    exists fuel e, parse_items_fuel fuel (len items) p = Some (Err e).
Proof.
  induction 1 as [|v items Hv _ IH]; intros Hw p s Hp Hs; simpl in *.
  { apply app_eq_nil in Hp as [_ ->]. done. }
  apply andb_true_iff in Hw as [Hwv Hw]. pose proof (len_nonneg items).
  apply prefix_app in Hp as [(s1 & Hp & Hs1)|(p1 & -> & Hp)]; [| |done].
  - destruct (Hv Hwv p s1 Hp Hs1) as (fuel & e & Hf). exists (S fuel), e.
    rewrite parse_items_step, len_cons. replace (1 + len items <=? 0) with false by lia.
    by rewrite Hf.
  - destruct (IH Hw p1 s Hp Hs) as (f2 & e & H2).
    destruct (parse_write v Hwv p1) as (f1 & H1). exists (S (Nat.max f1 f2)), e.
    rewrite parse_items_step, len_cons. replace (1 + len items <=? 0) with false by lia.
    rewrite (parse_fuel_le f1 _ _ _ (Nat.le_max_l _ _) H1).
    replace (1 + len items - 1) with (len items) by lia.
    by rewrite (parse_items_fuel_le f2 _ _ _ _ (Nat.le_max_r _ _) H2).
Qed.

Lemma parse_waits v : waits v.
Proof.
  induction v as [l|l|n|b|items IH] using RespValue_ind'; intros Hv p s Hp Hs;
    try by (match type of Hp with _ = write_resp ?w =>
              destruct (parse_scalar_prefix w p s) as [e He]; [done|done|done|done|] end;
            exists 1%nat, e; rewrite parse_resp_step, He).
  destruct p as [|b p]; [by exists 1%nat; eexists|].
  simpl in Hv, Hp. apply andb_true_iff in Hv as [Hsz Hi]. apply Z.leb_le in Hsz.
  injection Hp as -> Hp. fold_crlf_in Hp. rewrite app_assoc in Hp.
  pose proof (array_len_bound items Hsz) as Hn.
  apply prefix_app in Hp as [(s1 & Hp & Hs1)|(p1 & -> & Hp)]; [| |done].
  - destruct (read_line_prefix _ _ _ (no_crlf_show (len items)) Hp Hs1) as [e He].
    exists 1%nat, e. rewrite parse_resp_step. simpl. unfold parse_array_fuel, array_count.
    by rewrite He.
  - destruct (parse_items_prefix items IH Hi p1 s Hp Hs) as (fuel & e & Hf). exists (S fuel), e.
    rewrite parse_resp_step. simpl. unfold parse_array_fuel. rewrite <- app_assoc.
    fold_crlf. rewrite <- ?app_assoc. rewrite array_count_write by lia. replace (len items <? 0) with false by lia.
    unfold with_capacity. replace (_ <=? isize_max) with true by lia. by rewrite Hf.
Qed.

Lemma parse_resp_prefix v p s : wf_resp v = true -> p ++ s = write_resp v -> s <> [] ->
  exists e, parse_resp p = Err e.
Proof.
  intros Hv Hp Hs. destruct (parse_waits v Hv p s Hp Hs) as (fuel & e & Hf).
  exists e. by eapply parse_resp_fuel_eq.
Qed.

Lemma parse_resp_consumes buf v rest : parse_resp buf = Ok (v, rest) ->
  exists used, buf = used ++ rest /\ (1 <= length used)%nat.
Proof.
  intros Hp. pose proof (parse_resp_total buf) as Ht. rewrite Hp in Ht.
  by apply (proj1 (parse_consumes _) _ _ Ht v rest).
Qed.

Lemma write_resp_nonempty v : write_resp v <> [].
Proof. by destruct v as [| | |[]|]. Qed.
End facts.
