(* ===== verification/Framing.v ===== *)
(** * Framing: the read loop of a connection

    The socket arm of [handle_connection] in [src/cache/src/server.rs]: bytes
    that arrive are appended to a buffer, every complete frame in it is handled
    and its reply appended to one output.  The handler is a parameter: what is
    shown here is that frames are cut out of the byte stream the same way
    however the network splits it. *)

From S2P Require Import Prelude Text External Resp RespFacts.
#[local] Open Scope Z_scope.

Section framing.
Context `{Layout} {S : Type}.

(** [parse_command], [execute_command] and [serialize_response] of one frame:
    the connection's new state and the bytes of the reply; [None] when the
    process panics. *)
Variable handle : RespValue -> S -> option (S * bytes).

(** [while !buffer.is_empty() { ... }]. *)
Fixpoint drain_fuel (fuel : nat) (buffer : bytes) (s : S) (out : bytes)
  : res (S * bytes * bytes) :=
  match fuel with
  | O => Ok (s, buffer, out)
  | Datatypes.S fuel =>
      match buffer with
      | [] => Ok (s, buffer, out)
      | _ :: _ =>
          match parse_resp buffer with
          | Ok (v, rest) =>
              match handle v s with
              | Some (s, reply) => drain_fuel fuel rest s (out ++ reply)
              | None => Panic
              end
          | Err _ => Ok (s, buffer, out)
          | Panic => Panic
          end
      end
  end.

(** A frame takes a byte: the bytes of the buffer are enough fuel. *)
Definition drain (buffer : bytes) (s : S) : res (S * bytes * bytes) :=
  drain_fuel (length buffer) buffer s [].

(** What may stay in the buffer after a read: 1 MiB. *)
Definition buffer_limit : Z := 1024 * 1024.

(** The reads of a connection: the state, the buffer and all that was written.
    A read of no bytes is the end of the connection; a buffer that is too long
    after a read is an error that closes it. *)
Fixpoint reads (chunks : list bytes) (buffer : bytes) (s : S) : res (S * bytes * bytes) :=
  match chunks with
  | [] => Ok (s, buffer, [])
  | [] :: _ => Ok (s, buffer, [])
  | chunk :: chunks =>
      '(s, buffer, out) ← drain (buffer ++ chunk) s;
      if buffer_limit <? len buffer then Err (bs "Buffer overflow")
      else
        '(s, buffer, out') ← reads chunks buffer s;
        Ok (s, buffer, out ++ out')
  end.

(** The frames handled one after the other. *)
Fixpoint handle_all (vs : list RespValue) (s : S) : option (S * bytes) :=
  match vs with
  | [] => Some (s, [])
  | v :: vs =>
      '(s, o) ← handle v s;
      '(s, o') ← handle_all vs s;
      Some (s, o ++ o')
  end.

Abbreviation stream vs := (concat (map write_resp vs)).

(** What is left over is shorter than the frame it begins. *)
Definition begins (b : bytes) (vs : list RespValue) : Prop :=
  match vs with
  | [] => b = []
  | v :: _ => (length b < length (write_resp v))%nat
  end.

Lemma begins_nil vs : begins [] vs.
Proof.
  destruct vs as [|v vs]; [done|]. simpl. pose proof (write_resp_nonempty v).
  destruct (write_resp v); [done|]. simpl. lia.
Qed.

Lemma stream_nil vs : stream vs = [] -> vs = [].
Proof.
  destruct vs as [|v vs]; [done|]. simpl. intros [Hv _]%app_eq_nil.
  by apply write_resp_nonempty in Hv.
Qed.

Lemma drain_prefix fuel vs b r s out s' o : (length b <= fuel)%nat ->
  forallb wf_resp vs = true -> b ++ r = stream vs -> handle_all vs s = Some (s', o) ->
  exists vs2 s1 b1 o1 o2,
    drain_fuel fuel b s out = Ok (s1, b1, out ++ o1) /\ b1 ++ r = stream vs2 /\
    vs2 `suffix_of` vs /\ begins b1 vs2 /\
    handle_all vs2 s1 = Some (s', o2) /\ o = o1 ++ o2.
Proof.
  revert vs b s out o. induction fuel as [|fuel IH]; intros vs b s out o Hf Hw Hb Hh.
  { destruct b; [|simpl in Hf; lia]. exists vs, s, [], [], o. rewrite app_nil_r.
    repeat split; auto using begins_nil. }
  destruct b as [|x b]; simpl.
  { exists vs, s, [], [], o. rewrite app_nil_r. repeat split; auto using begins_nil. }
  destruct vs as [|v vs]; [done|]. simpl in Hw. apply andb_true_iff in Hw as [Hv Hw].
  assert (Hcases : (exists r1, (x :: b) ++ r1 = write_resp v /\ r1 <> []) \/
    exists p, x :: b = write_resp v ++ p /\ p ++ r = stream vs).
  { simpl in Hb. destruct r as [|y r].
    - right. exists (stream vs). by rewrite app_nil_r in *.
    - apply (prefix_app (x :: b)) in Hb as [(r1 & ? & ?)|(p & ? & ?)]; [| |done].
      + left. by exists r1.
      + right. by exists p. }
  destruct Hcases as [(r1 & Hr1 & Hne)|(p & Hp & Hr)].
  - destruct (parse_resp_prefix v (x :: b) r1 Hv Hr1 Hne) as [e ->].
    exists (v :: vs), s, (x :: b), [], o. rewrite app_nil_r. repeat split; try done.
    simpl. rewrite <- Hr1, length_app. destruct r1; [done|]. simpl. lia.
  - rewrite Hp, parse_resp_write by done. simpl in Hh.
    destruct (handle v s) as [[s1 o1]|] eqn:Eh; simpl in Hh; [|done].
    destruct (handle_all vs s1) as [[s2 o2]|] eqn:Eh2; simpl in Hh; [|done]. injection Hh as -> <-.
    destruct (IH vs p s1 (out ++ o1) o2) as (vs2 & s3 & b3 & o3 & o4 & Hd & Hb3 & Hw3 & Hn3 & Hh3 & ->);
      [|done..|].
    { apply (f_equal length) in Hp. rewrite length_app in Hp. simpl in Hp, Hf.
      pose proof (write_resp_nonempty v). destruct (write_resp v); [done|]. simpl in Hp. lia. }
    exists vs2, s3, b3, (o1 ++ o3), o4. rewrite Hd, <- !app_assoc.
    repeat split; try done. by apply suffix_cons_r.
Qed.

(** Frames that a connection accepts. *)
Definition accepted (v : RespValue) : bool := wf_resp v && (len (write_resp v) <=? buffer_limit).

Lemma accepted_wf vs : forallb accepted vs = true -> forallb wf_resp vs = true.
Proof.
  rewrite !forallb_forall. intros Ha v Hv. by apply Ha, andb_true_iff in Hv as [? _].
Qed.

Lemma accepted_suffix vs2 vs : vs2 `suffix_of` vs -> forallb accepted vs = true ->
  forallb accepted vs2 = true.
Proof. intros [k ->]. rewrite forallb_app, andb_true_iff. tauto. Qed.

Lemma begins_bound b vs : forallb accepted vs = true -> begins b vs -> len b <= buffer_limit.
Proof.
  destruct vs as [|v vs]; simpl; [by intros _ ->|].
  rewrite andb_true_iff. intros [Ha _]. apply andb_true_iff in Ha as [_ Ha%Z.leb_le].
  unfold len in *. lia.
Qed.

Lemma reads_frames chunks vs b s s' o :
  forallb accepted vs = true -> b ++ concat chunks = stream vs -> handle_all vs s = Some (s', o) ->
  Forall (fun c => c <> []) chunks -> begins b vs -> reads chunks b s = Ok (s', [], o).
Proof.
  revert vs b s o. induction chunks as [|chunk chunks IH]; intros vs b s o Hw Hb Hh Hne Hbg; simpl in *.
  { rewrite app_nil_r in Hb. destruct vs as [|v vs]; simpl in *; [by injection Hh as <- <-; subst|].
    exfalso. rewrite Hb, length_app in Hbg. lia. }
  apply Forall_cons in Hne as [Hc Hne]. rewrite app_assoc in Hb.
  destruct (drain_prefix (length (b ++ chunk)) vs (b ++ chunk) (concat chunks) s [] s' o)
    as (vs2 & s1 & b1 & o1 & o2 & Hd & Hb1 & Hsuf & Hbg1 & Hh1 & ->); [lia|by apply accepted_wf|done..|].
  pose proof (accepted_suffix vs2 vs Hsuf Hw) as Hw2.
  destruct chunk as [|x chunk]; [done|]. unfold drain. rewrite Hd. simpl.
  pose proof (begins_bound b1 vs2 Hw2 Hbg1). replace (buffer_limit <? len b1) with false by lia.
  by rewrite (IH vs2 b1 s1 o2) by done.
Qed.
End framing.
