(* ===== verification/Command.v ===== *)
(** * Command: commands and replies on the wire

    [Command], [Response], [parse_command], the [extract_*] functions and the
    client's side of the protocol, of [src/cache/src/protocol.rs].  The arms of
    the [match] in [parse_command] are grouped in tables from names to
    parsers.  Indexing an array past its end is a panic; [parse_command] never
    does. *)

From S2P Require Import Prelude Text External Float64 Resp.
#[local] Open Scope Z_scope.

Module Command.
Inductive t :=
| Get (key : bytes)
| Set' (key value : bytes) (ttl_secs : option Z)
| Delete (key : bytes)
| Incr (key : bytes)
| Decr (key : bytes)
| Append (key value : bytes)
| Strlen (key : bytes)
| HGet (key field : bytes)
| HSet (key field value : bytes)
| HDel (key : bytes) (fields : list bytes)
| HGetAll (key : bytes)
| HKeys (key : bytes)
| HVals (key : bytes)
| HLen (key : bytes)
| HExists (key field : bytes)
| LPush (key : bytes) (values : list bytes)
| RPush (key : bytes) (values : list bytes)
| LPop (key : bytes)
| RPop (key : bytes)
| LRange (key : bytes) (start stop : Z)
| LLen (key : bytes)
| LIndex (key : bytes) (index : Z)
| SAdd (key : bytes) (members : list bytes)
| SRem (key : bytes) (members : list bytes)
| SMembers (key : bytes)
| SIsMember (key member : bytes)
| SCard (key : bytes)
| SInter (keys : list bytes)
| SUnion (keys : list bytes)
| SDiff (keys : list bytes)
| ZAdd (key : bytes) (members : list (f64 * bytes))
| ZRem (key : bytes) (members : list bytes)
| ZRange (key : bytes) (start stop : Z) (with_scores : bool)
| ZRank (key member : bytes)
| ZScore (key member : bytes)
| ZCard (key : bytes)
| ZCount (key : bytes) (min max : f64)
| Ping
| Echo (message : bytes)
| Exists (keys : list bytes)
| Keys (pattern : bytes)
| FlushAll
| DbSize
| Expire (key : bytes) (seconds : Z)
| PExpire (key : bytes) (millis : Z)
| ExpireAt (key : bytes) (unix_secs : Z)
| Ttl (key : bytes)
| PTtl (key : bytes)
| Persist (key : bytes)
| Auth (username : option bytes) (password : bytes)
| SetNx (key value : bytes)
| SetEx (key : bytes) (seconds : Z) (value : bytes)
| GetSet (key value : bytes)
| MGet (keys : list bytes)
| MSet (pairs : list (bytes * bytes))
| GetRange (key : bytes) (start end' : Z)
| IncrBy (key : bytes) (delta : Z)
| DecrBy (key : bytes) (delta : Z)
| IncrByFloat (key : bytes) (delta : f64)
| HMGet (key : bytes) (fields : list bytes)
| HMSet (key : bytes) (pairs : list (bytes * bytes))
| HSetNx (key field value : bytes)
| HIncrBy (key field : bytes) (delta : Z)
| LSet (key : bytes) (index : Z) (value : bytes)
| LRem (key : bytes) (count : Z) (value : bytes)
| LTrim (key : bytes) (start stop : Z)
| RPopLPush (source destination : bytes)
| SPop (key : bytes) (count : option Z)
| SRandMember (key : bytes) (count : option Z)
| SMove (source destination member : bytes)
| ZIncrBy (key : bytes) (delta : f64) (member : bytes)
| ZRangeByScore (key : bytes) (min max : f64) (with_scores : bool)
| ZRevRange (key : bytes) (start stop : Z) (with_scores : bool)
| ZPopMin (key : bytes) (count : Z)
| ZPopMax (key : bytes) (count : Z)
| Type' (key : bytes)
| Rename (key new_key : bytes)
| RandomKey
| Publish (channel payload : bytes)
| Subscribe (channels : list bytes)
| Unsubscribe (channels : list bytes)
| Multi
| Exec
| Discard
| Watch (keys : list bytes)
| Unwatch
| XAdd (key : bytes) (id : option bytes) (fields : list (bytes * bytes))
| XLen (key : bytes)
| XRange (key : bytes) (start end' : bytes) (count : option Z)
| XRead (count : option Z) (keys : list bytes) (ids : list bytes)
| LuaEval (script : bytes) (keys argv : list bytes)
| LuaEvalSha (sha1 : bytes) (keys argv : list bytes).
End Command.

(** ** Arguments *)

(** The text [{:?}] prints for a value; it shows bytes with the [Debug] of the
    [bytes] crate. *)
Class RespDebug := { resp_debug : RespValue -> bytes }.

(** To evaluate examples with. *)
#[export] Instance silent_debug : RespDebug := {| resp_debug := fun _ => [] |}.

Section extract.
Context `{RespDebug}.

Definition extract_bulk_string (value : RespValue) : res bytes :=
  match value with
  | BulkString (Some b) => Ok b
  | BulkString None => Err (bs "Null bulk string")
  | SimpleString s => Ok s
  | _ => Err (bs "Expected bulk string, got " ++ resp_debug value)
  end.

Definition extract_integer (value : RespValue) : res Z :=
  match value with
  | Integer n => Ok n
  | BulkString (Some b) =>
      let s := from_utf8_lossy b in ok_or (bs "Invalid integer: " ++ s) (parse_i64 s)
  | _ => Err (bs "Expected integer, got " ++ resp_debug value)
  end.

Definition extract_float (value : RespValue) : res f64 :=
  match value with
  | BulkString (Some b) =>
      let s := from_utf8_lossy b in ok_or (bs "Invalid float: " ++ s) (parse_f64 s)
  | Integer n => Ok (f64_of_Z n)
  | _ => Err (bs "Expected float, got " ++ resp_debug value)
  end.

Definition ensure_arg_count (array : list RespValue) (expected : nat) : res unit :=
  if bool_decide (length array = expected) then Ok tt
  else Err (bs "Expected " ++ show_int (Z.of_nat expected) ++ bs " arguments, got "
            ++ show_int (len array)).

(** [array[i]] and [array[i..]]. *)
Definition at' (array : list RespValue) (i : nat) : res RespValue :=
  match array !! i with Some v => Ok v | None => Panic end.
Definition from (array : list RespValue) (i : nat) : res (list RespValue) :=
  if bool_decide (i <= length array)%nat then Ok (drop i array) else Panic.

Definition bulk_at (array : list RespValue) (i : nat) : res bytes :=
  v ← at' array i; extract_bulk_string v.
Definition int_at (array : list RespValue) (i : nat) : res Z :=
  v ← at' array i; extract_integer v.
Definition float_at (array : list RespValue) (i : nat) : res f64 :=
  v ← at' array i; extract_float v.
Definition text_at (array : list RespValue) (i : nat) : res bytes :=
  b ← bulk_at array i; Ok (from_utf8_lossy b).
(** [array[i..].iter().map(extract_bulk_string).collect()?]. *)
Definition bulks_from (array : list RespValue) (i : nat) : res (list bytes) :=
  l ← from array i; collect extract_bulk_string l.
(** [extract_integer(..)?.max(0) as usize]. *)
Definition count_at (array : list RespValue) (i : nat) : res Z :=
  n ← int_at array i; Ok (as_usize (Z.max n 0)).

(** [if cond { return Err(msg) }]. *)
Definition reject (cond : bool) (msg : string) : res unit :=
  if cond then Err (bs msg) else Ok tt.

(** The options of [SET], from the third argument on. *)
Fixpoint set_options (l : list RespValue) (ttl_secs : option Z) : res (option Z) :=
  match l with
  | [] => Ok ttl_secs
  | o :: l =>
      opt_bytes ← extract_bulk_string o;
      let opt := to_ascii_uppercase (from_utf8_lossy opt_bytes) in
      if bool_decide (opt = bs "EX") then
        match l with
        | [] => Err (bs "EX requires a value")
        | v :: l => secs ← extract_integer v; set_options l (Some (as_u32 secs))
        end
      else if bool_decide (opt = bs "PX") then
        match l with
        | [] => Err (bs "PX requires a value")
        | v :: l => millis ← extract_integer v; set_options l (Some (as_u32 millis / 1000))
        end
      else set_options l ttl_secs
  end.

(** [while i + 1 < array.len() { pairs.push((..)); i += 2 }]. *)
Fixpoint bulk_pairs (l : list RespValue) : res (list (bytes * bytes)) :=
  match l with
  | a :: b :: l =>
      x ← extract_bulk_string a; y ← extract_bulk_string b;
      r ← bulk_pairs l; Ok ((x, y) :: r)
  | _ => Ok []
  end.

(** The score and member pairs of [ZADD]. *)
Fixpoint score_pairs (l : list RespValue) : res (list (f64 * bytes)) :=
  match l with
  | [] => Ok []
  | a :: l =>
      score ← extract_float a;
      match l with
      | [] => Panic
      | b :: l =>
          member ← extract_bulk_string b;
          r ← score_pairs l; Ok ((score, member) :: r)
      end
  end.

(** The optional [WITHSCORES] of [ZRANGEBYSCORE] and [ZREVRANGE]. *)
Definition with_scores_at (array : list RespValue) : res bool :=
  if bool_decide (5 <= length array)%nat then
    t ← text_at array 4; Ok (eq_ignore_ascii_case t (bs "WITHSCORES"))
  else Ok false.

(** ** The arms of [parse_command] *)

Abbreviation arms := (list (string * (list RespValue -> res Command.t))).

(** Arms with fixed arguments. *)
Definition arm1 (f : bytes -> Command.t) (array : list RespValue) : res Command.t :=
  _ ← ensure_arg_count array 2; k ← bulk_at array 1; Ok (f k).
Definition arm2 (f : bytes -> bytes -> Command.t) (array : list RespValue) : res Command.t :=
  _ ← ensure_arg_count array 3; k ← bulk_at array 1; v ← bulk_at array 2; Ok (f k v).
Definition arm3 (f : bytes -> bytes -> bytes -> Command.t) (array : list RespValue) : res Command.t :=
  _ ← ensure_arg_count array 4;
  k ← bulk_at array 1; x ← bulk_at array 2; y ← bulk_at array 3; Ok (f k x y).
Definition arm_int (f : bytes -> Z -> Command.t) (array : list RespValue) : res Command.t :=
  _ ← ensure_arg_count array 3; k ← bulk_at array 1; n ← int_at array 2; Ok (f k n).
Definition arm_int2 (f : bytes -> Z -> Z -> Command.t) (array : list RespValue) : res Command.t :=
  _ ← ensure_arg_count array 4;
  k ← bulk_at array 1; a ← int_at array 2; b ← int_at array 3; Ok (f k a b).
(** A key and at least one more argument, or at least one key. *)
Definition arm_key_rest (msg : string) (f : bytes -> list bytes -> Command.t)
    (array : list RespValue) : res Command.t :=
  _ ← reject (bool_decide (length array < 3)%nat) msg;
  k ← bulk_at array 1; l ← bulks_from array 2; Ok (f k l).
Definition arm_keys (msg : string) (f : list bytes -> Command.t) (array : list RespValue)
  : res Command.t :=
  _ ← reject (bool_decide (length array < 2)%nat) msg;
  l ← bulks_from array 1; Ok (f l).
Definition arm0 (c : Command.t) (array : list RespValue) : res Command.t :=
  _ ← ensure_arg_count array 1; Ok c.
(** A key and an optional count. *)
Definition one_or_two (msg : string) (array : list RespValue) : res unit :=
  reject (bool_decide (length array < 2)%nat || bool_decide (3 < length array)%nat) msg.

Definition string_arms : arms := [
  ("GET"%string, arm1 Command.Get);
  ("SET"%string, fun array =>
     _ ← reject (bool_decide (length array < 3)%nat) "SET requires at least 2 arguments";
     key ← bulk_at array 1; value ← bulk_at array 2;
     opts ← from array 3; ttl_secs ← set_options opts None;
     Ok (Command.Set' key value ttl_secs));
  ("DEL"%string, arm1 Command.Delete);
  ("INCR"%string, arm1 Command.Incr);
  ("DECR"%string, arm1 Command.Decr);
  ("APPEND"%string, arm2 Command.Append);
  ("STRLEN"%string, arm1 Command.Strlen)].

Definition hash_arms : arms := [
  ("HGET"%string, arm2 Command.HGet);
  ("HSET"%string, arm3 Command.HSet);
  ("HDEL"%string, arm_key_rest "HDEL requires at least 2 arguments" Command.HDel);
  ("HGETALL"%string, arm1 Command.HGetAll);
  ("HKEYS"%string, arm1 Command.HKeys);
  ("HVALS"%string, arm1 Command.HVals);
  ("HLEN"%string, arm1 Command.HLen);
  ("HEXISTS"%string, arm2 Command.HExists)].

Definition list_arms : arms := [
  ("LPUSH"%string, arm_key_rest "LPUSH requires at least 2 arguments" Command.LPush);
  ("RPUSH"%string, arm_key_rest "RPUSH requires at least 2 arguments" Command.RPush);
  ("LPOP"%string, arm1 Command.LPop);
  ("RPOP"%string, arm1 Command.RPop);
  ("LRANGE"%string, arm_int2 Command.LRange);
  ("LLEN"%string, arm1 Command.LLen);
  ("LINDEX"%string, arm_int Command.LIndex)].

Definition set_arms : arms := [
  ("SADD"%string, arm_key_rest "SADD requires at least 2 arguments" Command.SAdd);
  ("SREM"%string, arm_key_rest "SREM requires at least 2 arguments" Command.SRem);
  ("SMEMBERS"%string, arm1 Command.SMembers);
  ("SISMEMBER"%string, arm2 Command.SIsMember);
  ("SCARD"%string, arm1 Command.SCard);
  ("SINTER"%string, arm_keys "SINTER requires at least 1 key" Command.SInter);
  ("SUNION"%string, arm_keys "SUNION requires at least 1 key" Command.SUnion);
  ("SDIFF"%string, arm_keys "SDIFF requires at least 1 key" Command.SDiff)].

Definition zset_arms : arms := [
  ("ZADD"%string, fun array =>
     _ ← reject (bool_decide (length array < 4)%nat || negb ((len array - 2) mod 2 =? 0))
           "ZADD requires key and score-member pairs";
     key ← bulk_at array 1;
     l ← from array 2; members ← score_pairs l;
     Ok (Command.ZAdd key members));
  ("ZREM"%string, arm_key_rest "ZREM requires at least 2 arguments" Command.ZRem);
  ("ZRANGE"%string, fun array =>
     _ ← reject (bool_decide (length array < 4)%nat) "ZRANGE requires at least 3 arguments";
     key ← bulk_at array 1; start ← int_at array 2; stop ← int_at array 3;
     with_scores ←
       (if bool_decide (4 < length array)%nat then
          t ← text_at array 4; Ok (bool_decide (to_ascii_uppercase t = bs "WITHSCORES"))
        else Ok false);
     Ok (Command.ZRange key start stop with_scores));
  ("ZRANK"%string, arm2 Command.ZRank);
  ("ZSCORE"%string, arm2 Command.ZScore);
  ("ZCARD"%string, arm1 Command.ZCard);
  ("ZCOUNT"%string, fun array =>
     _ ← ensure_arg_count array 4;
     key ← bulk_at array 1; min ← float_at array 2; max ← float_at array 3;
     Ok (Command.ZCount key min max))].

Definition server_arms : arms := [
  ("PING"%string, fun _ => Ok Command.Ping);
  ("ECHO"%string, arm1 Command.Echo);
  ("EXISTS"%string, arm_keys "EXISTS requires at least 1 key" Command.Exists);
  ("KEYS"%string, fun array =>
     _ ← ensure_arg_count array 2; pattern ← text_at array 1; Ok (Command.Keys pattern));
  ("FLUSHALL"%string, fun _ => Ok Command.FlushAll);
  ("DBSIZE"%string, fun _ => Ok Command.DbSize);
  ("EXPIRE"%string, arm_int Command.Expire);
  ("PEXPIRE"%string, arm_int Command.PExpire);
  ("EXPIREAT"%string, arm_int Command.ExpireAt);
  ("TTL"%string, arm1 Command.Ttl);
  ("PTTL"%string, arm1 Command.PTtl);
  ("PERSIST"%string, arm1 Command.Persist);
  ("AUTH"%string, fun array =>
     match length array with
     | 2%nat => password ← bulk_at array 1; Ok (Command.Auth None password)
     | 3%nat => username ← bulk_at array 1; password ← bulk_at array 2;
                Ok (Command.Auth (Some username) password)
     | _ => Err (bs "AUTH requires 1 or 2 arguments")
     end)].

Definition string_arms2 : arms := [
  ("SETNX"%string, arm2 Command.SetNx);
  ("SETEX"%string, fun array =>
     _ ← ensure_arg_count array 4;
     key ← bulk_at array 1; seconds ← int_at array 2; value ← bulk_at array 3;
     Ok (Command.SetEx key (as_u32 seconds) value));
  ("GETSET"%string, arm2 Command.GetSet);
  ("MGET"%string, arm_keys "MGET requires at least 1 key" Command.MGet);
  ("MSET"%string, fun array =>
     _ ← reject (bool_decide (length array < 3)%nat || negb ((len array - 1) mod 2 =? 0))
           "MSET requires non-empty key/value pairs";
     l ← from array 1; pairs ← bulk_pairs l; Ok (Command.MSet pairs));
  ("GETRANGE"%string, arm_int2 Command.GetRange);
  ("SUBSTR"%string, arm_int2 Command.GetRange);
  ("INCRBY"%string, arm_int Command.IncrBy);
  ("DECRBY"%string, arm_int Command.DecrBy);
  ("INCRBYFLOAT"%string, fun array =>
     _ ← ensure_arg_count array 3;
     key ← bulk_at array 1; delta ← float_at array 2; Ok (Command.IncrByFloat key delta))].

Definition hash_list_arms2 : arms := [
  ("HMGET"%string, arm_key_rest "HMGET requires key + at least 1 field" Command.HMGet);
  ("HMSET"%string, fun array =>
     _ ← reject (bool_decide (length array < 4)%nat || negb ((len array - 2) mod 2 =? 0))
           "HMSET requires key + non-empty field/value pairs";
     key ← bulk_at array 1;
     l ← from array 2; pairs ← bulk_pairs l; Ok (Command.HMSet key pairs));
  ("HSETNX"%string, arm3 Command.HSetNx);
  ("HINCRBY"%string, fun array =>
     _ ← ensure_arg_count array 4;
     key ← bulk_at array 1; field ← bulk_at array 2; delta ← int_at array 3;
     Ok (Command.HIncrBy key field delta));
  ("LSET"%string, fun array =>
     _ ← ensure_arg_count array 4;
     key ← bulk_at array 1; index ← int_at array 2; value ← bulk_at array 3;
     Ok (Command.LSet key index value));
  ("LREM"%string, fun array =>
     _ ← ensure_arg_count array 4;
     key ← bulk_at array 1; count ← int_at array 2; value ← bulk_at array 3;
     Ok (Command.LRem key count value));
  ("LTRIM"%string, arm_int2 Command.LTrim);
  ("RPOPLPUSH"%string, arm2 Command.RPopLPush)].

Definition set_zset_arms2 : arms := [
  ("SPOP"%string, fun array =>
     _ ← one_or_two "SPOP requires 1 or 2 arguments" array;
     count ← (if bool_decide (length array = 3%nat) then n ← count_at array 2; Ok (Some n)
              else Ok None);
     key ← bulk_at array 1; Ok (Command.SPop key count));
  ("SRANDMEMBER"%string, fun array =>
     _ ← one_or_two "SRANDMEMBER requires 1 or 2 arguments" array;
     count ← (if bool_decide (length array = 3%nat) then n ← int_at array 2; Ok (Some n)
              else Ok None);
     key ← bulk_at array 1; Ok (Command.SRandMember key count));
  ("SMOVE"%string, arm3 Command.SMove);
  ("ZINCRBY"%string, fun array =>
     _ ← ensure_arg_count array 4;
     key ← bulk_at array 1; delta ← float_at array 2; member ← bulk_at array 3;
     Ok (Command.ZIncrBy key delta member));
  ("ZRANGEBYSCORE"%string, fun array =>
     _ ← reject (bool_decide (length array < 4)%nat) "ZRANGEBYSCORE requires key min max";
     with_scores ← with_scores_at array;
     key ← bulk_at array 1; min ← float_at array 2; max ← float_at array 3;
     Ok (Command.ZRangeByScore key min max with_scores));
  ("ZREVRANGE"%string, fun array =>
     _ ← reject (bool_decide (length array < 4)%nat) "ZREVRANGE requires key start stop";
     with_scores ← with_scores_at array;
     key ← bulk_at array 1; start ← int_at array 2; stop ← int_at array 3;
     Ok (Command.ZRevRange key start stop with_scores));
  ("ZPOPMIN"%string, fun array =>
     _ ← one_or_two "ZPOPMIN requires 1 or 2 arguments" array;
     count ← (if bool_decide (length array = 3%nat) then count_at array 2 else Ok 1);
     key ← bulk_at array 1; Ok (Command.ZPopMin key count));
  ("ZPOPMAX"%string, fun array =>
     _ ← one_or_two "ZPOPMAX requires 1 or 2 arguments" array;
     count ← (if bool_decide (length array = 3%nat) then count_at array 2 else Ok 1);
     key ← bulk_at array 1; Ok (Command.ZPopMax key count));
  ("TYPE"%string, arm1 Command.Type');
  ("RENAME"%string, arm2 Command.Rename);
  ("RANDOMKEY"%string, arm0 Command.RandomKey)].

Definition pubsub_tx_arms : arms := [
  ("PUBLISH"%string, arm2 Command.Publish);
  ("SUBSCRIBE"%string, arm_keys "SUBSCRIBE requires at least 1 channel" Command.Subscribe);
  ("UNSUBSCRIBE"%string, fun array =>
     channels ← (if bool_decide (length array = 1%nat) then Ok [] else bulks_from array 1);
     Ok (Command.Unsubscribe channels));
  ("MULTI"%string, arm0 Command.Multi);
  ("EXEC"%string, arm0 Command.Exec);
  ("DISCARD"%string, arm0 Command.Discard);
  ("WATCH"%string, arm_keys "WATCH requires at least 1 key" Command.Watch);
  ("UNWATCH"%string, arm0 Command.Unwatch)].

(** [XREAD]: the optional [COUNT n] and [BLOCK ms] from index 1 on, as the
    count and the index after them. *)
Definition xread_count (array : list RespValue) : res (nat * option Z) :=
  if bool_decide (2 < length array)%nat then
    kw ← text_at array 1;
    if eq_ignore_ascii_case kw (bs "COUNT") then n ← count_at array 2; Ok (3%nat, Some n)
    else Ok (1%nat, None)
  else Ok (1%nat, None).
Definition xread_block (array : list RespValue) (idx : nat) : res nat :=
  if bool_decide (idx + 1 < length array)%nat then
    kw ← text_at array idx;
    if eq_ignore_ascii_case kw (bs "BLOCK") then Ok (idx + 2)%nat else Ok idx
  else Ok idx.
Definition xread_arm (array : list RespValue) : res Command.t :=
  '(idx, count) ← xread_count array;
  idx ← xread_block array idx;
  _ ← reject (bool_decide (length array <= idx)%nat) "XREAD requires STREAMS keyword";
  kw ← text_at array idx;
  _ ← reject (negb (eq_ignore_ascii_case kw (bs "STREAMS"))) "XREAD: expected STREAMS";
  let idx := S idx in
  let remaining := (length array - idx)%nat in
  _ ← reject (bool_decide (remaining = 0%nat) || negb (Nat.even remaining))
        "XREAD: STREAMS must be followed by an even number of args";
  let n := Nat.div2 remaining in
  keys ← collect (fun i => bulk_at array (idx + i)) (seq 0 n);
  ids ← collect (fun i => text_at array (idx + n + i)) (seq 0 n);
  Ok (Command.XRead count keys ids).

(** [EVAL] and [EVALSHA], which the name tells apart. *)
Definition eval_arm (cmd_name : string) (f : bytes -> list bytes -> list bytes -> Command.t)
    (array : list RespValue) : res Command.t :=
  _ ← (if bool_decide (length array < 3)%nat
       then Err (bs cmd_name ++ bs " requires script + numkeys") else Ok tt);
  script_or_sha ← bulk_at array 1;
  numkeys ← count_at array 2;
  _ ← (if len array <? 3 + numkeys
       then Err (bs cmd_name ++ bs ": not enough keys for numkeys=" ++ show_int numkeys)
       else Ok tt);
  keys ← collect (fun i => bulk_at array (3 + i)) (seq 0 (Z.to_nat numkeys));
  argv ← bulks_from array (3 + Z.to_nat numkeys);
  Ok (f (from_utf8_lossy script_or_sha) keys argv).

Definition stream_lua_arms : arms := [
  ("XADD"%string, fun array =>
     _ ← reject (bool_decide (length array < 5)%nat || negb ((len array - 3) mod 2 =? 0))
           "XADD requires key, id, and at least one field/value pair";
     key ← bulk_at array 1; id_str ← text_at array 2;
     let id := if bool_decide (id_str = bs "*") then None else Some id_str in
     l ← from array 3; fields ← bulk_pairs l;
     Ok (Command.XAdd key id fields));
  ("XLEN"%string, arm1 Command.XLen);
  ("XRANGE"%string, fun array =>
     _ ← reject (bool_decide (length array < 4)%nat || bool_decide (length array = 5%nat)
                 || bool_decide (6 < length array)%nat)
           "XRANGE requires key, start, end, [COUNT n]";
     count ←
       (if bool_decide (length array = 6%nat) then
          kw ← text_at array 4;
          _ ← reject (negb (eq_ignore_ascii_case kw (bs "COUNT"))) "XRANGE: expected COUNT keyword";
          n ← count_at array 5; Ok (Some n)
        else Ok None);
     key ← bulk_at array 1; start ← text_at array 2; end' ← text_at array 3;
     Ok (Command.XRange key start end' count));
  ("XREAD"%string, xread_arm);
  ("EVAL"%string, eval_arm "EVAL" Command.LuaEval);
  ("EVALSHA"%string, eval_arm "EVALSHA" Command.LuaEvalSha)].

Definition all_arms : arms :=
  string_arms ++ hash_arms ++ list_arms ++ set_arms ++ zset_arms ++ server_arms ++
  string_arms2 ++ hash_list_arms2 ++ set_zset_arms2 ++ pubsub_tx_arms ++ stream_lua_arms.

(** [match cmd_name.as_str() { ... }]. *)
Fixpoint find_arm (name : bytes) (l : arms) : option (list RespValue -> res Command.t) :=
  match l with
  | [] => None
  | (s, f) :: l => if bool_decide (name = bs s) then Some f else find_arm name l
  end.

Definition parse_command (resp : RespValue) : res Command.t :=
  match resp with
  | Array array =>
      match array with
      | [] => Err (bs "Empty command")
      | _ :: _ =>
          cmd_bytes ← bulk_at array 0;
          let cmd_name := to_ascii_uppercase (from_utf8_lossy cmd_bytes) in
          match find_arm cmd_name all_arms with
          | Some f => f array
          | None => Err (bs "Unknown command: " ++ cmd_name)
          end
      end
  | _ => Err (bs "Command must be an array")
  end.
End extract.

(** ** Replies *)

Module Response.
Inductive t :=
| Value (b : bytes)
| Ok
| NotFound
| Error (msg : bytes)
| Integer (n : Z)
| Array (items : list bytes)
| Null
| Raw (frames : bytes).

Definition to_resp (r : t) : RespValue :=
  match r with
  | Value b => BulkString (Some b)
  | Ok => SimpleString (bs "OK")
  | NotFound => BulkString None
  | Error msg => Resp.Error msg
  | Integer n => Resp.Integer n
  | Array items => Resp.Array (map (fun b => BulkString (Some b)) items)
  | Null => BulkString None
  | Raw b => BulkString (Some b)
  end.
End Response.

Definition serialize_response (response : Response.t) : bytes :=
  match response with
  | Response.Raw frames => frames
  | _ => serialize_resp (Response.to_resp response)
  end.

(** ** The client's side *)

Definition bulk (b : bytes) : RespValue := BulkString (Some b).

Definition command_to_resp (command : Command.t) : RespValue :=
  match command with
  | Command.Get key => Array [bulk (bs "GET"); bulk key]
  | Command.Set' key value ttl_secs =>
      Array ([bulk (bs "SET"); bulk key; bulk value] ++
             match ttl_secs with
             | Some ttl => [bulk (bs "EX"); bulk (show_int ttl)]
             | None => []
             end)
  | Command.Delete key => Array [bulk (bs "DEL"); bulk key]
  | _ => Resp.Error (bs "Command serialization not implemented")
  end.

Definition serialize_command (command : Command.t) : bytes :=
  serialize_resp (command_to_resp command).

Definition parse_response `{Layout} (buf : bytes) : res Response.t :=
  '(resp, _) ← parse_resp buf;
  Ok match resp with
     | SimpleString s =>
         if bool_decide (s = bs "OK") then Response.Ok
         else Response.Error (bs "Unexpected response type")
     | BulkString (Some b) => Response.Value b
     | BulkString None => Response.NotFound
     | Resp.Error e => Response.Error e
     | Resp.Integer n => Response.Integer n
     | Resp.Array items =>
         Response.Array (omap (fun v => match v with BulkString (Some b) => Some b | _ => None end)
                           items)
     end.
