(* ===== verification/CommandFacts.v ===== *)
(** * CommandFacts: parsing a command is safe, and inverts the client's encoding *)

From S2P Require Import Prelude Text External Float64 Resp RespFacts Command.
#[local] Open Scope Z_scope.

(** ** No panic *)

Definition safe {A} (r : res A) : Prop := r <> Panic.

Lemma safe_Ok {A} (a : A) : safe (Ok a).
Proof. done. Qed.
Lemma safe_Err {A} e : safe (Err e : res A).
Proof. done. Qed.

Lemma safe_bind {A B} (m : res A) (f : A -> res B) :
  safe m -> (forall a, m = Ok a -> safe (f a)) -> safe (m ≫= f).
Proof. destruct m; simpl; intros Hm Hf; [by apply Hf | done | done]. Qed.

Lemma safe_ok_or {A} e (o : option A) : safe (ok_or e o).
Proof. by destruct o. Qed.

Lemma safe_collect {A B} (f : A -> res B) l : (forall x, x ∈ l -> safe (f x)) -> safe (collect f l).
Proof.
  induction l as [|x l IH]; intros Hf; [done|]. simpl.
  apply safe_bind; [apply Hf; constructor|]. intros y _.
  apply safe_bind; [apply IH; intros z Hz; apply Hf; by constructor|]. done.
Qed.

Section safety.
Context `{RespDebug}.
Implicit Types a : list RespValue.

Lemma safe_bulk v : safe (extract_bulk_string v).
Proof. by destruct v as [| | |[]|]. Qed.
Lemma safe_int v : safe (extract_integer v).
Proof. destruct v as [| | |[]|]; try done. apply safe_ok_or. Qed.
Lemma safe_float v : safe (extract_float v).
Proof. destruct v as [| | |[]|]; try done. apply safe_ok_or. Qed.

Lemma safe_at a i : (i < length a)%nat -> safe (at' a i).
Proof. intros Hi. unfold at'. by destruct (lookup_lt_is_Some_2 a i Hi) as [v ->]. Qed.
Lemma safe_bulk_at a i : (i < length a)%nat -> safe (bulk_at a i).
Proof. intros Hi. apply safe_bind; [by apply safe_at | intros; apply safe_bulk]. Qed.
Lemma safe_int_at a i : (i < length a)%nat -> safe (int_at a i).
Proof. intros Hi. apply safe_bind; [by apply safe_at | intros; apply safe_int]. Qed.
Lemma safe_float_at a i : (i < length a)%nat -> safe (float_at a i).
Proof. intros Hi. apply safe_bind; [by apply safe_at | intros; apply safe_float]. Qed.
Lemma safe_text_at a i : (i < length a)%nat -> safe (text_at a i).
Proof. intros Hi. apply safe_bind; [by apply safe_bulk_at | done]. Qed.
Lemma safe_count_at a i : (i < length a)%nat -> safe (count_at a i).
Proof. intros Hi. apply safe_bind; [by apply safe_int_at | done]. Qed.
Lemma safe_from a i : (i <= length a)%nat -> safe (from a i).
Proof. intros Hi. unfold from. by rewrite bool_decide_eq_true_2. Qed.
Lemma safe_bulks_from a i : (i <= length a)%nat -> safe (bulks_from a i).
Proof.
  intros Hi. apply safe_bind; [by apply safe_from|]. intros l _.
  apply safe_collect. intros; apply safe_bulk.
Qed.

Lemma safe_ensure {B} a n (f : unit -> res B) :
  (length a = n -> safe (f tt)) -> safe (x ← ensure_arg_count a n; f x).
Proof. unfold ensure_arg_count. case_bool_decide; [by auto | done]. Qed.
Lemma safe_reject {B} c msg (f : unit -> res B) :
  (c = false -> safe (f tt)) -> safe (x ← reject c msg; f x).
Proof. unfold reject. destruct c; [done | by auto]. Qed.

Lemma safe_set_options l ttl : safe (set_options l ttl).
Proof.
  remember (length l) as n eqn:Hn. revert l ttl Hn.
  induction n as [n IH] using lt_wf_ind. intros l ttl Hn.
  destruct l as [|o l]; [done|]. simpl in *. apply safe_bind; [apply safe_bulk|]. intros b _.
  assert (IHl : forall k t, (length k <= length l)%nat -> safe (set_options k t)).
  { intros k t Hk. eapply IH; [|done]. lia. }
  repeat case_bool_decide; [| |by apply IHl];
    (destruct l as [|v l]; [done|]; apply safe_bind; [apply safe_int|]; intros n' _; apply IHl; simpl; lia).
Qed.

Lemma safe_bulk_pairs l : safe (bulk_pairs l).
Proof.
  remember (length l) as n eqn:Hn. revert l Hn.
  induction n as [n IH] using lt_wf_ind. intros [|x [|y l]] Hn; [done|done|]. simpl in *.
  apply safe_bind; [apply safe_bulk|]. intros b1 _. apply safe_bind; [apply safe_bulk|]. intros b2 _.
  apply safe_bind; [|done]. eapply IH; [|done]. lia.
Qed.

Lemma safe_score_pairs l : Nat.even (length l) = true -> safe (score_pairs l).
Proof.
  remember (length l) as n eqn:Hn. revert l Hn.
  induction n as [n IH] using lt_wf_ind. intros [|x [|y l]] Hn He; [done|by subst|]. simpl in *.
  apply safe_bind; [apply safe_float|]. intros s _. apply safe_bind; [apply safe_bulk|]. intros b _.
  apply safe_bind; [|done]. eapply IH; [|done|]; subst; [lia|done].
Qed.
End safety.

Create HintDb safe.
#[export] Hint Resolve safe_Ok safe_Err safe_bulk_at safe_int_at safe_float_at safe_text_at
  safe_count_at safe_from safe_bulks_from safe_set_options safe_bulk_pairs : safe.
#[export] Hint Extern 1 (_ <= _)%nat => lia : safe.
#[export] Hint Extern 1 (_ < _)%nat => lia : safe.

(** Read the guards that have been passed as facts about the length. *)
Ltac guard_facts :=
  repeat match goal with
  | E : _ || _ = false |- _ => apply orb_false_iff in E as [? ?]
  | E : bool_decide _ = false |- _ => apply bool_decide_eq_false in E
  | E : negb _ = false |- _ => apply negb_false_iff in E
  end.

(** Walk through an arm. *)
Ltac safe_arm :=
  repeat first
    [ apply safe_ensure; intros ?
    | apply safe_reject; intros ?; guard_facts
    | match goal with |- safe (mbind _ (if bool_decide _ then _ else _)) => case_bool_decide end
    | match goal with |- safe (if bool_decide _ then _ else _) => case_bool_decide end
    | apply safe_bind; [solve [auto with safe] | intros ? _]
    | apply safe_bind; [| intros ? _]
    | solve [auto with safe] ].

Section arms.
Context `{RespDebug}.
Implicit Types a : list RespValue.

Definition arms_safe (l : list (string * (list RespValue -> res Command.t))) : Prop :=
  Forall (fun e => forall a, a <> [] -> safe (e.2 a)) l.

Lemma safe_arm1 f a : safe (arm1 f a).
Proof. unfold arm1. safe_arm. Qed.
Lemma safe_arm2 f a : safe (arm2 f a).
Proof. unfold arm2. safe_arm. Qed.
Lemma safe_arm3 f a : safe (arm3 f a).
Proof. unfold arm3. safe_arm. Qed.
Lemma safe_arm_int f a : safe (arm_int f a).
Proof. unfold arm_int. safe_arm. Qed.
Lemma safe_arm_int2 f a : safe (arm_int2 f a).
Proof. unfold arm_int2. safe_arm. Qed.
Lemma safe_arm_key_rest msg f a : safe (arm_key_rest msg f a).
Proof. unfold arm_key_rest. safe_arm. Qed.
Lemma safe_arm_keys msg f a : safe (arm_keys msg f a).
Proof. unfold arm_keys. safe_arm. Qed.
Lemma safe_arm0 c a : safe (arm0 c a).
Proof. unfold arm0. safe_arm. Qed.

Lemma even_pairs a k : (len a - Z.of_nat k) mod 2 = 0 -> (k <= length a)%nat ->
  Nat.even (length (drop k a)) = true.
Proof.
  intros He Hk. rewrite length_drop. apply Nat.even_spec.
  exists (Z.to_nat ((len a - Z.of_nat k) / 2)). unfold len in *.
  pose proof (Z.div_mod (Z.of_nat (length a) - Z.of_nat k) 2). lia.
Qed.

Lemma from_Ok a i l : from a i = Ok l -> l = drop i a.
Proof. unfold from. case_bool_decide; [by intros [= <-] | done]. Qed.
End arms.

#[export] Hint Resolve safe_arm1 safe_arm2 safe_arm3 safe_arm_int safe_arm_int2 safe_arm_key_rest
  safe_arm_keys safe_arm0 : safe.

Section arms_safe.
Context `{RespDebug}.

Tactic Notation "safe_arms" reference(t) :=
  unfold arms_safe, t;
  repeat (apply Forall_cons; split; [intros a Ha; simpl|]); try apply Forall_nil;
  try solve [safe_arm].

Lemma string_arms_safe : arms_safe string_arms.
Proof. safe_arms string_arms. Qed.
Lemma hash_arms_safe : arms_safe hash_arms.
Proof. safe_arms hash_arms. Qed.
Lemma list_arms_safe : arms_safe list_arms.
Proof. safe_arms list_arms. Qed.
Lemma set_arms_safe : arms_safe set_arms.
Proof. safe_arms set_arms. Qed.

Lemma zset_arms_safe : arms_safe zset_arms.
Proof.
  safe_arms zset_arms. apply safe_reject. intros Hg. guard_facts.
  apply safe_bind; [auto with safe|]. intros k _.
  apply safe_bind; [auto with safe|]. intros l Hl%from_Ok.
  apply safe_bind; [|done]. apply safe_score_pairs. subst l.
  apply (even_pairs a 2); [lia|lia].
Qed.

Lemma server_arms_safe : arms_safe server_arms.
Proof.
  safe_arms server_arms. destruct (length a) as [|[|[|[|n]]]] eqn:El; try done; safe_arm.
Qed.

Lemma string_arms2_safe : arms_safe string_arms2.
Proof. safe_arms string_arms2. Qed.
Lemma hash_list_arms2_safe : arms_safe hash_list_arms2.
Proof. safe_arms hash_list_arms2. Qed.

Lemma safe_with_scores_at a : safe (with_scores_at a).
Proof. unfold with_scores_at. safe_arm. Qed.

Lemma safe_one_or_two msg a (f : unit -> res Command.t) :
  ((2 <= length a <= 3)%nat -> safe (f tt)) -> safe (x ← one_or_two msg a; f x).
Proof. intros Hf. apply safe_reject. intros Hg. guard_facts. apply Hf. lia. Qed.

Lemma set_zset_arms2_safe : arms_safe set_zset_arms2.
Proof.
  safe_arms set_zset_arms2;
    solve [apply safe_one_or_two; intros Hl; safe_arm
          |apply safe_reject; intros Hg; guard_facts;
           apply safe_bind; [apply safe_with_scores_at | intros w _; safe_arm]].
Qed.

Lemma pubsub_tx_arms_safe : arms_safe pubsub_tx_arms.
Proof.
  safe_arms pubsub_tx_arms. apply safe_bind; [|done]. case_bool_decide; [done|].
  apply safe_bulks_from. destruct a; [done|]. simpl. lia.
Qed.

Lemma xread_count_spec a : a <> [] ->
  safe (xread_count a) /\ forall idx c, xread_count a = Ok (idx, c) -> (1 <= idx <= length a)%nat.
Proof.
  intros Ha. assert (1 <= length a)%nat by (destruct a; [done|simpl; lia]).
  unfold xread_count. case_bool_decide as Hl; [|split; [done|]; intros ? ? [= <- <-]; lia].
  split.
  - apply safe_bind; [auto with safe|]. intros kw _. case_match; [|done].
    apply safe_bind; [auto with safe|done].
  - intros idx c Hc. inv_bind Hc. case_match; [inv_bind Hc|]; injection Hc as <- <-; lia.
Qed.

Lemma xread_block_safe a idx : safe (xread_block a idx).
Proof.
  unfold xread_block. case_bool_decide; [|done].
  apply safe_bind; [auto with safe|]. intros kw _. by case_match.
Qed.

Lemma xread_arm_safe a : a <> [] -> safe (xread_arm a).
Proof.
  intros Ha. destruct (xread_count_spec a Ha) as [Hs Hidx]. unfold xread_arm.
  apply safe_bind; [done|]. intros [idx c] _.
  apply safe_bind; [apply xread_block_safe|]. intros idx' _.
  apply safe_reject. intros Hg. guard_facts.
  apply safe_bind; [auto with safe|]. intros kw _.
  apply safe_reject. intros _. apply safe_reject. intros Hr. guard_facts.
  set (r := (length a - S idx')%nat) in *.
  assert (Hd : (Nat.div2 r + Nat.div2 r = r)%nat).
  { symmetry. by apply (Nat.Even_double r), Nat.even_spec. }
  assert (Hle : forall i, i ∈ seq 0 (Nat.div2 r) -> (i < Nat.div2 r)%nat).
  { intros i. rewrite elem_of_seq. lia. }
  apply safe_bind.
  { apply safe_collect. intros i Hi%Hle. apply safe_bulk_at. lia. }
  intros keys _. apply safe_bind; [|done].
  apply safe_collect. intros i Hi%Hle. apply safe_text_at. lia.
Qed.

Lemma eval_arm_safe name f a : safe (eval_arm name f a).
Proof.
  unfold eval_arm. case_bool_decide as Hl; [done|]. simpl.
  apply safe_bind; [auto with safe|]. intros s _.
  apply safe_bind; [auto with safe|]. intros n _.
  destruct (len a <? 3 + n) eqn:En; [done|]. simpl. unfold len in En.
  apply safe_bind; [|intros k _; apply safe_bind; [auto with safe | done]].
  apply safe_collect. intros i Hi. apply elem_of_seq in Hi. apply safe_bulk_at. lia.
Qed.

Lemma stream_lua_arms_safe : arms_safe stream_lua_arms.
Proof.
  safe_arms stream_lua_arms.
  - by apply xread_arm_safe.
  - apply eval_arm_safe.
  - apply eval_arm_safe.
Qed.

Lemma find_arm_safe name l f a : arms_safe l -> find_arm name l = Some f -> a <> [] -> safe (f a).
Proof.
  intros Hl. induction Hl as [|[s g] l Hg _ IH]; simpl; [done|].
  case_bool_decide; [|done]. intros [= <-]. by apply Hg.
Qed.

Lemma all_arms_safe : arms_safe all_arms.
Proof.
  unfold arms_safe, all_arms. repeat apply Forall_app_2;
    first [apply string_arms_safe | apply hash_arms_safe | apply list_arms_safe
          |apply set_arms_safe | apply zset_arms_safe | apply server_arms_safe
          |apply string_arms2_safe | apply hash_list_arms2_safe | apply set_zset_arms2_safe
          |apply pubsub_tx_arms_safe | apply stream_lua_arms_safe].
Qed.

Lemma parse_command_safe v : safe (parse_command v).
Proof.
  unfold parse_command. destruct v as [| | | |[|x array]]; try done.
  apply safe_bind; [apply safe_bulk_at; simpl; lia|]. intros name _.
  destruct (find_arm _ all_arms) as [f|] eqn:E; [|done].
  by eapply find_arm_safe; [exact all_arms_safe|..].
Qed.

(** ** The client's commands *)

Lemma parse_command_to_resp c :
  match c with
  | Command.Get _ | Command.Delete _ => True
  | Command.Set' _ _ None => True
  | Command.Set' _ _ (Some ttl) => in_u32 ttl = true
  | _ => False
  end -> parse_command (command_to_resp c) = Ok c.
Proof.
  destruct c; try done; try by intros []. destruct ttl_secs as [ttl|]; [|done]. intros Ht.
  apply in_u32_spec in Ht. unfold parse_command. simpl.
  rewrite show_int_lossy, parse_i64_show by (apply in_i64_spec; widths; lia). simpl.
  unfold as_u32. by rewrite Z.mod_small by (widths; lia).
Qed.
End arms_safe.
