(* ===== verification/Apply.v ===== *)
(** * Apply: replaying write commands

    [apply_write_command] and [is_write_command] of [src/cache/src/commands.rs]:
    what the log replay and a replica do with a command.  [now] is the
    monotonic clock in nanoseconds, [wall] the wall clock in milliseconds of
    the epoch; a command reads each once. *)

From S2P Require Import Prelude Text External Float64 Values SortedSet Stream Keyspace Storage.
From S2P Require Import StorageTypes Command.
#[local] Open Scope Z_scope.

Definition from_secs (s : Z) : Z := s * ns_per_sec.
Definition from_millis (ms : Z) : Z := ms * ns_per_ms.

(** [SystemTime::now().duration_since(UNIX_EPOCH)] in seconds, 0 before it. *)
Definition unix_secs_of (wall : Z) : Z := if 0 <=? wall then wall / 1000 else 0.

Section apply.
Context `{KeyMap M, HashOrder, Rng, Layout}.

(** The map after an operation whose result is dropped; the process is gone
    when it panicked. *)
Definition dropping {A} (p : M * res A) : res M :=
  match p with
  | (_, Panic) => Panic
  | (m, _) => Ok m
  end.

(** [set_expiry(key, Instant::now() + d)]. *)
Definition expire_in (now : Z) (key : bytes) (d : Z) (m : M) : res M :=
  at' ← instant_add now d; Ok (fst (set_expiry now key at' m)).

(** The loops of [MSET] and [HMSET]. *)
Fixpoint mset (now : Z) (pairs : list (bytes * bytes)) (m : M) : res M :=
  match pairs with
  | [] => Ok m
  | (k, v) :: pairs => m ← dropping (set now k v None m); mset now pairs m
  end.
Fixpoint hmset (key : bytes) (pairs : list (bytes * bytes)) (m : M) : res M :=
  match pairs with
  | [] => Ok m
  | (f, v) :: pairs => m ← dropping (hset key f v m); hmset key pairs m
  end.

(** [id.as_deref().and_then(|s| StreamId::parse(s, false).ok())]. *)
Definition replay_id (id : option bytes) : option StreamId.t :=
  match id with
  | Some s => match StreamId.parse s false with Ok i => Some i | _ => None end
  | None => None
  end.

Definition apply_write_command (now wall : Z) (cmd : Command.t) (m : M) : res M :=
  match cmd with
  | Command.Set' key value ttl_secs => dropping (set now key value (from_secs <$> ttl_secs) m)
  | Command.Delete key => Ok (fst (delete key m))
  | Command.Incr key => dropping (incr key m)
  | Command.Decr key => dropping (decr key m)
  | Command.Append key value => dropping (append key value m)
  | Command.HSet key field value => dropping (hset key field value m)
  | Command.HDel key fields => dropping (hdel key fields m)
  | Command.LPush key values => dropping (lpush key values m)
  | Command.RPush key values => dropping (rpush key values m)
  | Command.LPop key => dropping (lpop key m)
  | Command.RPop key => dropping (rpop key m)
  | Command.SAdd key members => dropping (sadd key members m)
  | Command.SRem key members => dropping (srem key members m)
  | Command.ZAdd key members => dropping (zadd key members m)
  | Command.ZRem key members => dropping (zrem key members m)
  | Command.FlushAll => Ok (flushall m)
  | Command.Expire key seconds =>
      match u64_try_from seconds with
      | Some secs => expire_in now key (from_secs secs) m
      | None => Ok m
      end
  | Command.PExpire key millis =>
      match u64_try_from millis with
      | Some ms => expire_in now key (from_millis ms) m
      | None => Ok m
      end
  | Command.ExpireAt key unix_secs =>
      match u64_try_from unix_secs with
      | Some target =>
          let now_unix := unix_secs_of wall in
          if now_unix <? target then expire_in now key (from_secs (target - now_unix)) m
          else Ok (fst (delete key m))
      | None => Ok m
      end
  | Command.Persist key => Ok (fst (persist now key m))
  | Command.SetNx key value => Ok (fst (set_nx now key value m))
  | Command.SetEx key seconds value => dropping (set_ex now key value (from_secs seconds) m)
  | Command.GetSet key value => dropping (get_set now key value m)
  | Command.MSet pairs => mset now pairs m
  | Command.IncrBy key delta => dropping (incr_by key delta m)
  | Command.DecrBy key delta => dropping (incr_by key (wrap_i64 (- delta)) m)
  | Command.IncrByFloat key delta => dropping (incr_by_float key delta m)
  | Command.HMSet key pairs => hmset key pairs m
  | Command.HSetNx key field value => dropping (hset_nx now key field value m)
  | Command.HIncrBy key field delta => dropping (hincr_by now key field delta m)
  | Command.LSet key index value => dropping (lset now key index value m)
  | Command.LRem key count value => dropping (lrem now key count value m)
  | Command.LTrim key start stop => dropping (ltrim now key start stop m)
  | Command.RPopLPush source destination => dropping (rpoplpush now source destination m)
  | Command.SPop key count => dropping (spop now key (default 1 count) m)
  | Command.SMove source destination member => dropping (smove now source destination member m)
  | Command.ZIncrBy key delta member => dropping (zincr_by now key delta member m)
  | Command.ZPopMin key count => dropping (zpop_min now key count m)
  | Command.ZPopMax key count => dropping (zpop_max now key count m)
  | Command.Rename key new_key => dropping (rename now key new_key m)
  | Command.XAdd key id fields => dropping (xadd now wall key (replay_id id) fields m)
  | _ => Ok m
  end.
End apply.

Definition is_write_command (cmd : Command.t) : bool :=
  match cmd with
  | Command.Set' _ _ _ | Command.Delete _ | Command.Incr _ | Command.Decr _
  | Command.Append _ _ | Command.HSet _ _ _ | Command.HDel _ _
  | Command.LPush _ _ | Command.RPush _ _ | Command.LPop _ | Command.RPop _
  | Command.SAdd _ _ | Command.SRem _ _ | Command.ZAdd _ _ | Command.ZRem _ _
  | Command.FlushAll
  | Command.Expire _ _ | Command.PExpire _ _ | Command.ExpireAt _ _ | Command.Persist _
  | Command.SetNx _ _ | Command.SetEx _ _ _ | Command.GetSet _ _ | Command.MSet _
  | Command.IncrBy _ _ | Command.DecrBy _ _ | Command.IncrByFloat _ _
  | Command.HMSet _ _ | Command.HSetNx _ _ _ | Command.HIncrBy _ _ _
  | Command.LSet _ _ _ | Command.LRem _ _ _ | Command.LTrim _ _ _ | Command.RPopLPush _ _
  | Command.SPop _ _ | Command.SMove _ _ _
  | Command.ZIncrBy _ _ _ | Command.ZPopMin _ _ | Command.ZPopMax _ _
  | Command.Rename _ _ | Command.XAdd _ _ _ => true
  | _ => false
  end.

(** ** Logs

    The loop of [load_from_persistence] in [src/cache/src/server.rs] and of a
    replica: every command is applied at the clocks, with the order of the hash
    tables and with the random numbers that the reader meets then. *)

(** A command and what its application meets. *)
Record log_entry := {
  at_now : Z; at_wall : Z; at_order : HashOrder; at_draws : Rng; command : Command.t
}.

Definition apply_at `{KeyMap M, Layout} (e : log_entry) : M -> res M :=
  let order := at_order e in
  let draws := at_draws e in
  apply_write_command (at_now e) (at_wall e) (command e).

Fixpoint replay `{KeyMap M, Layout} (log : list log_entry) (m : M) : res M :=
  match log with
  | [] => Ok m
  | e :: log => m ← apply_at e m; replay log m
  end.

(** What one application of a command meets, when it is not known beforehand
    which command it will be. *)
Record Reading := { read_now : Z; read_wall : Z; read_order : HashOrder; read_draws : Rng }.

Definition meeting (r : Reading) (cmd : Command.t) : log_entry := {|
  at_now := read_now r; at_wall := read_wall r;
  at_order := read_order r; at_draws := read_draws r; command := cmd
|}.

(** Clocks only, to evaluate examples with. *)
Definition clocks_at (now wall : Z) : Reading := {|
  read_now := now; read_wall := wall; read_order := default_order; read_draws := first_choice
|}.
