(* ===== verification/ApplyFacts.v ===== *)
(** * ApplyFacts: sharding is transparent, and the values stay well formed

    Every write command acts on the sharded map as it acts on the finite map
    the shards stand for ([apply_sim]), and keeps the invariant of the values
    ([apply_wf]). *)

From S2P Require Import Prelude Text External Float64 BTree Values SortedSet SortedSetFacts.
From S2P Require Import Stream Keyspace Storage StorageTypes StorageFacts SetFacts Command.
From S2P Require Import Apply.
#[local] Open Scope Z_scope.

(** ** Simulation *)

Section sim.
Context `{KeyMapLaws M}.
Implicit Types m : M.

(** The two maps agree, and so do the results. *)
Definition sim {A} (r : M * A) (t : table * A) : Prop :=
  inv (fst r) /\ abs (fst r) = fst t /\ snd r = snd t.

Definition sim_res (r : res M) (t : res table) : Prop :=
  match r, t with
  | Ok m, Ok t => inv m /\ abs m = t
  | Panic, Panic => True
  | _, _ => False
  end.

Lemma sim_with_entry {A} k (f : option CacheValue -> option CacheValue * A) m : inv m ->
  sim (with_entry k f m) (with_entry k f (abs m)).
Proof.
  intros Hm. split; [by apply with_entry_inv|]. apply with_entry_abs. done.
Qed.

Lemma sim_set_entry {A} k e (a : A) m : inv m -> sim (set_entry k e m, a) (set_entry k e (abs m), a).
Proof. intros Hm. split; [by apply set_entry_inv|]. simpl. by rewrite set_entry_abs. Qed.

Lemma sim_refl {A} (a : A) m : inv m -> sim (m, a) (abs m, a).
Proof. done. Qed.

Lemma sim_dropping {A} (r : M * res A) (t : table * res A) : sim r t -> sim_res (dropping r) (dropping t).
Proof.
  destruct r as [m r], t as [t r']. intros (Hi & Ha & Hr). simpl in *. subst r'.
  by destruct r.
Qed.

Lemma sim_fst {A} (r : M * A) (t : table * A) : sim r t -> sim_res (Ok (fst r)) (Ok (fst t)).
Proof. intros (Hi & Ha & _). done. Qed.

Lemma sim_res_bind (r : res M) (t : res table) (f : M -> res M) (g : table -> res table) : sim_res r t ->
  (forall m, inv m -> sim_res (f m) (g (abs m))) -> sim_res (r ≫= f) (t ≫= g).
Proof. destruct r, t; simpl; try done. intros [Hi <-] Hf. by apply Hf. Qed.

(** Two operations in a row. *)
Lemma sim_let {A B : Type} (r : M * A) (t : table * A) (f : M -> A -> M * B) (g : table -> A -> table * B) :
  sim r t -> (forall m a, inv m -> sim (f m a) (g (abs m) a)) ->
  sim (let '(m, a) := r in f m a) (let '(m, a) := t in g m a).
Proof.
  destruct r as [m a], t as [t b]. intros (Hi & Ha & Hr) Hf. simpl in *. subst. by apply Hf.
Qed.

Lemma sim_set now k v ttl m : inv m -> sim (set now k v ttl m) (set now k v ttl (abs m)).
Proof.
  intros Hm. unfold set. destruct ttl as [d|]; simpl; [|by apply sim_set_entry].
  destruct (instant_add now d); simpl; [by apply sim_set_entry | by apply sim_refl..].
Qed.

Lemma sim_set_ex now k v ttl m : inv m -> sim (set_ex now k v ttl m) (set_ex now k v ttl (abs m)).
Proof.
  intros Hm. unfold set_ex.
  destruct (instant_add now ttl); simpl; [by apply sim_set_entry | by apply sim_refl..].
Qed.

Lemma sim_rename now k k' m : inv m -> sim (rename now k k' m) (rename now k k' (abs m)).
Proof.
  intros Hm. unfold rename. apply sim_let; [by apply sim_with_entry|]. intros m' r Hm'.
  destruct r; [by apply sim_set_entry | by apply sim_refl..].
Qed.

Lemma sim_rpoplpush now s d m : inv m -> sim (rpoplpush now s d m) (rpoplpush now s d (abs m)).
Proof.
  intros Hm. unfold rpoplpush. apply sim_let; [by apply sim_with_entry|]. intros m' r Hm'.
  destruct r as [[v|]|?|]; [|by apply sim_refl..].
  apply sim_let; [by apply sim_with_entry|]. intros m'' r Hm''. by apply sim_refl.
Qed.

Lemma sim_smove now s d x m : inv m -> sim (smove now s d x m) (smove now s d x (abs m)).
Proof.
  intros Hm. unfold smove. apply sim_let; [by apply sim_with_entry|]. intros m' r Hm'.
  destruct r as [[]|?|]; [|by apply sim_refl..].
  apply sim_let; [by apply sim_with_entry|]. intros m'' r Hm''. by apply sim_refl.
Qed.

Lemma sim_mset now pairs m : inv m -> sim_res (mset now pairs m) (mset now pairs (abs m)).
Proof.
  revert m. induction pairs as [|[k v] pairs IH]; intros m Hm; cbn [mset]; [done|].
  apply sim_res_bind; [by apply sim_dropping, sim_set | done].
Qed.

Lemma sim_hmset k pairs m : inv m -> sim_res (hmset k pairs m) (hmset k pairs (abs m)).
Proof.
  revert m. induction pairs as [|[f v] pairs IH]; intros m Hm; cbn [hmset]; [done|].
  apply sim_res_bind; [by apply sim_dropping, sim_with_entry | done].
Qed.

Lemma sim_expire_in now k d m : inv m -> sim_res (expire_in now k d m) (expire_in now k d (abs m)).
Proof.
  intros Hm. unfold expire_in. destruct (instant_add now d) as [a|e|] eqn:E; simpl; [| |done].
  - by apply sim_fst, sim_with_entry.
  - unfold instant_add in E. by case_match.
Qed.

Lemma sim_flushall m : inv m -> sim_res (Ok (flushall m)) (Ok (flushall (abs m))).
Proof. intros Hm. split; [by apply clear_inv | by apply clear_abs]. Qed.

Lemma sim_same m : inv m -> sim_res (Ok m) (Ok (abs m)).
Proof. done. Qed.
End sim.

(** The shapes a command's effect takes. *)
Ltac solve_sim :=
  first
    [ by apply sim_same
    | by apply sim_dropping, sim_with_entry
    | by apply sim_fst, sim_with_entry
    | by apply sim_dropping, sim_set
    | by apply sim_dropping, sim_set_ex
    | by apply sim_dropping, sim_rename
    | by apply sim_dropping, sim_rpoplpush
    | by apply sim_dropping, sim_smove
    | by apply sim_mset | by apply sim_hmset | by apply sim_expire_in | by apply sim_flushall ].

Section apply.
Context `{KeyMapLaws M, HashOrder, Rng, Layout}.

Lemma apply_sim now wall c (m : M) : inv m ->
  sim_res (apply_write_command now wall c m) (apply_write_command now wall c (abs m)).
Proof.
  intros Hm. destruct c; cbn [apply_write_command]; try solve_sim.
  - destruct (u64_try_from seconds); solve_sim.
  - destruct (u64_try_from millis); solve_sim.
  - destruct (u64_try_from unix_secs); [|solve_sim].
    destruct (unix_secs_of wall <? _); solve_sim.
Qed.
End apply.

(** ** Scores that are numbers *)

Section round.
Import SpecFloat.

Lemma shr_1_nonneg mrs : 0 <= shr_m mrs -> 0 <= shr_m (shr_1 mrs).
Proof. destruct mrs as [[|[p|p|]|p] r s]; simpl; lia. Qed.

Lemma iter_shr_nonneg p mrs : 0 <= shr_m mrs -> 0 <= shr_m (iter_pos shr_1 p mrs).
Proof. revert mrs. induction p as [p IH|p IH|]; intros mrs Hm; simpl; auto using shr_1_nonneg. Qed.

Lemma shr_fexp_nonneg m e l : 0 <= m -> 0 <= shr_m (fst (shr_fexp 53 1024 m e l)).
Proof.
  intros Hm. assert (Hr : 0 <= shr_m (shr_record_of_loc m l)) by (by destruct l as [|[]]).
  unfold shr_fexp, shr. case_match; simpl; try done. by apply iter_shr_nonneg.
Qed.

Lemma round_nonneg m l : 0 <= m -> 0 <= round_nearest_even m l.
Proof.
  intros Hm. unfold round_nearest_even. destruct l as [|[]]; try lia. destruct (Z.even m); lia.
Qed.

Lemma binary_round_aux_num sx m e l : 0 <= m ->
  is_nan (binary_round_aux 53 1024 sx m e l) = false.
Proof.
  intros Hm. unfold binary_round_aux.
  destruct (shr_fexp 53 1024 m e l) as [mrs e1] eqn:E1.
  assert (H1 : 0 <= shr_m mrs) by (pose proof (shr_fexp_nonneg m e l Hm) as Hn; by rewrite E1 in Hn).
  set (m2 := round_nearest_even (shr_m mrs) (loc_of_shr_record mrs)).
  assert (H2 : 0 <= m2) by by apply round_nonneg.
  destruct (shr_fexp 53 1024 m2 e1 loc_Exact) as [mrs2 e2] eqn:E2.
  assert (H3 : 0 <= shr_m mrs2)
    by (pose proof (shr_fexp_nonneg m2 e1 loc_Exact H2) as Hn; by rewrite E2 in Hn).
  destruct (shr_m mrs2); [done| |lia]. by case_match.
Qed.

Lemma binary_normalize_num m e s : is_nan (binary_normalize 53 1024 m e s) = false.
Proof.
  unfold binary_normalize, binary_round. destruct m; [done|..];
    destruct (shl_align p e _) as [q k]; by apply binary_round_aux_num.
Qed.

Lemma f64_add_num x d : is_nan x = false -> is_finite d = true -> is_nan (f64_add x d) = false.
Proof.
  unfold f64_add, SFadd.
  destruct x as [[]|[]| |sx mx ex], d as [[]|[]| |sd md ed]; try done;
    intros _ _; apply binary_normalize_num.
Qed.
End round.

(** ** Well-formed values *)

Definition value_wf (v : CacheValue) : Prop :=
  match v with
  | CSortedSet z => zset_wf z
  | CStream s => stream_wf s
  | _ => True
  end.

Definition entry_wf (e : option CacheValue) : Prop :=
  match e with Some v => value_wf v | None => True end.

Definition store_wf `{KeyMap M} (m : M) : Prop := forall k, entry_wf (entry k m).

Lemma expires_at_mut_wf slot v : value_wf v -> value_wf (expires_at_mut slot v).
Proof. destruct v as [| | | |z|s]; try done. intros [? ? ? ?]. by split. Qed.

Lemma pops_keep_wf before z out z' : pops before z out z' -> zset_wf z -> zset_wf z'.
Proof. apply pops_wf. Qed.

(** What a command must respect for the orders to stay total: scores that are
    numbers, and automatic ids that do not run out of sequence numbers. *)
Definition orderly `{KeyMap M} (c : Command.t) (m : M) : Prop :=
  match c with
  | Command.ZAdd _ members => Forall (fun e => is_nan e.1 = false) members
  | Command.ZIncrBy _ delta _ => is_finite delta = true
  | Command.XAdd key id _ =>
      replay_id id = None -> forall s, entry key m = Some (CStream s) ->
      0 <= StreamId.seq (StreamValue.last_id s) < u64_max
  | _ => True
  end.

Section wf.
Context `{KeyMapLaws M}.
Implicit Types m : M.

Lemma with_entry_wf {A} k (f : option CacheValue -> option CacheValue * A) m :
  inv m -> store_wf m -> (entry_wf (entry k m) -> entry_wf (fst (f (entry k m)))) ->
  store_wf (fst (with_entry k f m)).
Proof.
  intros Hm Hw Hf j. rewrite with_entry_entry by done. case_decide; [|apply Hw].
  apply Hf, Hw.
Qed.

Lemma set_entry_wf k e m : inv m -> store_wf m -> entry_wf e -> store_wf (set_entry k e m).
Proof. intros Hm Hw He j. rewrite entry_set_entry by done. by case_decide. Qed.

Lemma flushall_wf m : inv m -> store_wf (flushall m).
Proof.
  intros Hm k. rewrite entry_abs by (by apply clear_inv). unfold flushall.
  by rewrite clear_abs, lookup_empty by done.
Qed.

Lemma dropping_wf {A} (p : M * res A) m' : store_wf (fst p) -> dropping p = Ok m' -> store_wf m'.
Proof. destruct p as [m [| |]]; simpl; intros Hp [= <-]; done. Qed.

Lemma stream_add_entry_wf wall req fs s : stream_wf s ->
  (req = None -> 0 <= StreamId.seq (StreamValue.last_id s) < u64_max) ->
  stream_wf (fst (StreamValue.add wall req fs s)).
Proof.
  intros Hs Hr. destruct req as [id|]; [|by apply stream_add_wf; [|apply Hr]].
  destruct (StreamId.cmp id (StreamValue.last_id s)) eqn:E.
  - by rewrite add_rejected by by rewrite E.
  - by rewrite add_rejected by by rewrite E.
  - by apply stream_add_wf.
Qed.

Context `{HashOrder, Rng, Layout}.

Lemma pop_min_wf count z : zset_wf z -> zset_wf (fst (SortedSetValue.pop_min count z)).
Proof.
  intros Hz. destruct (with_capacity sizeof_Bytes_f64 count) as [[]| |] eqn:E;
    [|by unfold SortedSetValue.pop_min; rewrite E..].
  destruct (pop_min_spec count z Hz E) as (out & _ & Hp & _). by eapply pops_wf.
Qed.

Lemma pop_max_wf count z : zset_wf z -> zset_wf (fst (SortedSetValue.pop_max count z)).
Proof.
  intros Hz. destruct (with_capacity sizeof_Bytes_f64 count) as [[]| |] eqn:E;
    [|by unfold SortedSetValue.pop_max; rewrite E..].
  destruct (pop_max_spec count z Hz E) as (out & _ & Hp & _). by eapply pops_wf.
Qed.

Lemma zadd_wf k members m : inv m -> store_wf m -> Forall (fun e => is_nan e.1 = false) members ->
  store_wf (fst (zadd k members m)).
Proof.
  intros Hm Hw Hn. apply with_entry_wf; [done..|].
  destruct (entry k m) as [[| | | |z|]|]; simpl; try done; intros Hz;
    apply add_members_wf; auto with ferric.
Qed.

Lemma zrem_wf k members m : inv m -> store_wf m -> store_wf (fst (zrem k members m)).
Proof.
  intros Hm Hw. apply with_entry_wf; [done..|].
  destruct (entry k m) as [[| | | |z|]|]; simpl; try done. intros Hz.
  pose proof (zrem_loop_wf members z Hz) as Hl. by destruct (count_loop _ _ _).
Qed.

Lemma zincr_by_wf now k d x m : inv m -> store_wf m -> is_finite d = true ->
  store_wf (fst (zincr_by now k d x m)).
Proof.
  intros Hm Hw Hd. assert (Hnd : is_nan d = false) by by destruct d.
  pose proof (zset_add_wf d x _ Hnd zset_wf_new) as Hnew.
  apply with_entry_wf; [done..|].
  destruct (entry k m) as [[| | | |z|]|]; try done. intros Hz. cbv beta iota.
  destruct (SortedSetValue.is_expired now z); [exact Hnew|].
  refine (zset_add_wf _ x z _ Hz). apply f64_add_num; [|done].
  unfold SortedSetValue.get_score.
  destruct (SortedSetValue.member_scores z !! x) as [s|] eqn:E; [|done]. by eapply wf_scores.
Qed.

Lemma zpop_min_wf now k c m : inv m -> store_wf m -> store_wf (fst (zpop_min now k c m)).
Proof.
  intros Hm Hw. apply with_entry_wf; [done..|].
  destruct (entry k m) as [[| | | |z|]|]; simpl; try done. intros Hz.
  destruct (SortedSetValue.is_expired now z); simpl; [done|].
  pose proof (pop_min_wf c z Hz) as Hp. by destruct (SortedSetValue.pop_min c z).
Qed.

Lemma zpop_max_wf now k c m : inv m -> store_wf m -> store_wf (fst (zpop_max now k c m)).
Proof.
  intros Hm Hw. apply with_entry_wf; [done..|].
  destruct (entry k m) as [[| | | |z|]|]; simpl; try done. intros Hz.
  destruct (SortedSetValue.is_expired now z); simpl; [done|].
  pose proof (pop_max_wf c z Hz) as Hp. by destruct (SortedSetValue.pop_max c z).
Qed.

Lemma xadd_wf now wall k req fs m : inv m -> store_wf m ->
  (req = None -> forall s, entry k m = Some (CStream s) ->
    0 <= StreamId.seq (StreamValue.last_id s) < u64_max) ->
  store_wf (fst (xadd now wall k req fs m)).
Proof.
  intros Hm Hw Hr. apply with_entry_wf; [done..|].
  assert (Hnew : stream_wf (fst (StreamValue.add wall req fs StreamValue.new))).
  { apply stream_add_entry_wf; [apply stream_wf_new | simpl; widths; lia]. }
  destruct (StreamValue.add wall req fs StreamValue.new) as [s0 r0] eqn:E0. simpl in Hnew.
  destruct (entry k m) as [[| | | | |s]|] eqn:E; try done; simpl; intros Hs.
  - destruct (StreamValue.is_expired now s); simpl; [by destruct r0|].
    pose proof (stream_add_entry_wf wall req fs s Hs (fun Hn => Hr Hn s eq_refl)) as Ha.
    by destruct (StreamValue.add wall req fs s).
  - by destruct r0.
Qed.

(** Operations that make neither sorted sets nor streams. *)
Ltac plain_wf :=
  apply with_entry_wf; [done..|];
  match goal with |- entry_wf ?e -> _ => destruct e end;
  simpl; intros; repeat (case_match; simplify_eq/=); auto using expires_at_mut_wf.

Lemma set_wf now k v ttl m m' : inv m -> store_wf m -> dropping (set now k v ttl m) = Ok m' ->
  store_wf m'.
Proof.
  intros Hm Hw. unfold set. destruct ttl as [d|]; simpl.
  - destruct (instant_add now d); simpl; intros [= <-]; [by apply set_entry_wf | done].
  - intros [= <-]. by apply set_entry_wf.
Qed.

Lemma set_inv now k v ttl m m' : inv m -> dropping (set now k v ttl m) = Ok m' -> inv m'.
Proof.
  intros Hm Hs. pose proof (sim_dropping _ _ (sim_set now k v ttl m Hm)) as Hsim.
  rewrite Hs in Hsim. by destruct (dropping (set now k v ttl (abs m))); [apply Hsim|..].
Qed.

Lemma mset_wf now pairs m m' : inv m -> store_wf m -> mset now pairs m = Ok m' -> store_wf m'.
Proof.
  revert m. induction pairs as [|[k v] pairs IH]; intros m Hm Hw; cbn [mset].
  { by intros [= <-]. }
  intros Hs. inv_bind Hs. eapply IH; [by eapply set_inv | by eapply set_wf | done].
Qed.

Lemma hset_wf k f v m : inv m -> store_wf m -> store_wf (fst (hset k f v m)).
Proof. intros Hm Hw. plain_wf. Qed.

Lemma hmset_wf k pairs m m' : inv m -> store_wf m -> hmset k pairs m = Ok m' -> store_wf m'.
Proof.
  revert m. induction pairs as [|[f v] pairs IH]; intros m Hm Hw; cbn [hmset].
  { by intros [= <-]. }
  intros Hs. inv_bind Hs.
  assert (a = fst (hset k f v m)) as -> by (by destruct (hset k f v m) as [? [| |]]; simplify_eq/=).
  refine (IH (fst (hset k f v m)) _ _ Hs); [by apply with_entry_inv | by apply hset_wf].
Qed.

Lemma rename_wf now k k' m : inv m -> store_wf m -> store_wf (fst (rename now k k' m)).
Proof.
  intros Hm Hw. pose proof (Hw k) as Hk. unfold rename.
  assert (Ht : store_wf (fst (rename_take now k m))) by plain_wf.
  assert (Hi : inv (fst (rename_take now k m))) by by apply with_entry_inv.
  assert (Hv : forall v, snd (rename_take now k m) = Ok v -> value_wf v).
  { intros v. unfold rename_take. rewrite with_entry_result. simpl.
    destruct (entry k m) as [w|]; [|done]. case_match; [|done]. by intros [= <-]. }
  destruct (rename_take now k m) as [m1 [v|e|]]; simpl in *; [|done..].
  apply set_entry_wf; [done..|]. by apply Hv.
Qed.

Lemma rpoplpush_wf now s d m : inv m -> store_wf m -> store_wf (fst (rpoplpush now s d m)).
Proof.
  intros Hm Hw. unfold rpoplpush.
  assert (Ht : store_wf (fst (rpoplpush_pop now s m))) by plain_wf.
  assert (Hi : inv (fst (rpoplpush_pop now s m))) by by apply with_entry_inv.
  destruct (rpoplpush_pop now s m) as [m1 [[v|]|e|]]; simpl in *; [|done..].
  assert (Hp : store_wf (fst (rpoplpush_push now d v m1))) by plain_wf.
  by destruct (rpoplpush_push now d v m1).
Qed.

Lemma smove_wf now s d x m : inv m -> store_wf m -> store_wf (fst (smove now s d x m)).
Proof.
  intros Hm Hw. unfold smove.
  assert (Ht : store_wf (fst (smove_remove now s x m))) by plain_wf.
  assert (Hi : inv (fst (smove_remove now s x m))) by by apply with_entry_inv.
  destruct (smove_remove now s x m) as [m1 [[]|e|]]; simpl in *; [|done..].
  assert (Hp : store_wf (fst (smove_add now d x m1))) by plain_wf.
  by destruct (smove_add now d x m1).
Qed.

Lemma set_ex_wf now k v ttl m : inv m -> store_wf m -> store_wf (fst (set_ex now k v ttl m)).
Proof. intros Hm Hw. unfold set_ex. case_match; [by apply set_entry_wf | done..]. Qed.

Lemma expire_in_wf now k d m m' : inv m -> store_wf m -> expire_in now k d m = Ok m' -> store_wf m'.
Proof. intros Hm Hw He. unfold expire_in in He. inv_bind He. injection He as <-. plain_wf. Qed.

Lemma delete_wf k m : inv m -> store_wf m -> store_wf (fst (delete k m)).
Proof. intros Hm Hw. by apply with_entry_wf. Qed.

Lemma apply_wf now wall c m m' : inv m -> store_wf m -> orderly c m ->
  apply_write_command now wall c m = Ok m' -> inv m' /\ store_wf m'.
Proof.
  intros Hm Hw Ho Ha. split.
  { pose proof (apply_sim now wall c m Hm) as Hs. rewrite Ha in Hs.
    by destruct (apply_write_command now wall c (abs m)); [apply Hs|..]. }
  destruct c; cbn [apply_write_command] in Ha;
    try (injection Ha as <-; first [exact Hw | by apply flushall_wf | by apply delete_wf | plain_wf]);
    try by (eapply dropping_wf; [|exact Ha]; auto using zadd_wf, zrem_wf, zincr_by_wf, zpop_min_wf,
      zpop_max_wf, xadd_wf, rename_wf, rpoplpush_wf, smove_wf, set_ex_wf).
  all: try by (eapply dropping_wf; [|exact Ha]; plain_wf).
  - by eapply set_wf.
  - destruct (u64_try_from seconds); [by eapply expire_in_wf | by injection Ha as <-].
  - destruct (u64_try_from millis); [by eapply expire_in_wf | by injection Ha as <-].
  - destruct (u64_try_from unix_secs); [|by injection Ha as <-].
    destruct (unix_secs_of wall <? z); [by eapply expire_in_wf | injection Ha as <-; by apply delete_wf].
  - by eapply mset_wf.
  - by eapply hmset_wf.
Qed.
End wf.

(** ** Logs *)

Section log.
Context `{KeyMapLaws M, Layout}.
Implicit Types m : M.

Lemma replay_sim log m : inv m -> sim_res (replay log m) (replay log (abs m)).
Proof.
  revert m. induction log as [|e log IH]; intros m Hm; cbn [replay]; [done|].
  apply sim_res_bind; [by apply apply_sim | done].
Qed.

Lemma replay_inv log m m' : inv m -> replay log m = Ok m' -> inv m'.
Proof.
  intros Hm Hr. pose proof (replay_sim log m Hm) as Hs. rewrite Hr in Hs.
  destruct (replay log (abs m)); [apply Hs | done..].
Qed.

Lemma replay_app log1 log2 m : replay (log1 ++ log2) m = (m ← replay log1 m; replay log2 m).
Proof.
  revert m. induction log1 as [|e log1 IH]; intros m; cbn [replay app]; [done|].
  destruct (apply_at e m); [apply IH | done..].
Qed.
End log.

(** ** Frames *)

(** The keys a write may change; [FLUSHALL] changes all. *)
Definition touched (cmd : Command.t) : list bytes :=
  match cmd with
  | Command.Set' k _ _ | Command.Delete k | Command.Incr k | Command.Decr k | Command.Append k _
  | Command.HSet k _ _ | Command.HDel k _ | Command.LPush k _ | Command.RPush k _
  | Command.LPop k | Command.RPop k | Command.SAdd k _ | Command.SRem k _
  | Command.ZAdd k _ | Command.ZRem k _ | Command.Expire k _ | Command.PExpire k _
  | Command.ExpireAt k _ | Command.Persist k | Command.SetNx k _ | Command.SetEx k _ _
  | Command.GetSet k _ | Command.IncrBy k _ | Command.DecrBy k _ | Command.IncrByFloat k _
  | Command.HMSet k _ | Command.HSetNx k _ _ | Command.HIncrBy k _ _
  | Command.LSet k _ _ | Command.LRem k _ _ | Command.LTrim k _ _ | Command.SPop k _
  | Command.ZIncrBy k _ _ | Command.ZPopMin k _ | Command.ZPopMax k _ | Command.XAdd k _ _ => [k]
  | Command.RPopLPush k k' | Command.SMove k k' _ | Command.Rename k k' => [k; k']
  | Command.MSet pairs => pairs.*1
  | _ => []
  end.

Section frame.
Context `{KeyMapLaws M, HashOrder, Rng, Layout}.
Implicit Types m : M.
Variable k : bytes.

(** The entry of [k] stays as it was in [m]. *)
Definition keeps m (r : res M) : Prop :=
  match r with Ok m' => entry k m' = entry k m | _ => True end.
Definition keeps_pair {A} m (p : M * A) : Prop := inv (fst p) /\ entry k (fst p) = entry k m.

Lemma keeps_refl m : keeps m (Ok m).
Proof. done. Qed.

Lemma keeps_fst {A} m (p : M * A) : keeps_pair m p -> keeps m (Ok (fst p)).
Proof. by intros [_ ?]. Qed.

Lemma keeps_dropping {A} m (p : M * res A) : keeps_pair m p -> keeps m (dropping p).
Proof. by destruct p as [m' []]; intros [_ ?]. Qed.

Lemma keeps_with_entry {A} key (f : option CacheValue -> option CacheValue * A) m :
  inv m -> k <> key -> keeps_pair m (with_entry key f m).
Proof.
  intros Hm Hk. split; [by apply with_entry_inv|]. by rewrite with_entry_entry, decide_False.
Qed.

Lemma keeps_set_entry {A} key e (a : A) m : inv m -> k <> key -> keeps_pair m (set_entry key e m, a).
Proof. intros Hm Hk. split; [by apply set_entry_inv|]. simpl. by rewrite entry_set_entry, decide_False. Qed.

(** Two operations in a row. *)
Lemma keeps_let {A C : Type} m (p : M * A) (f : M -> A -> M * C) : keeps_pair m p ->
  (forall m1 a, inv m1 -> keeps_pair m1 (f m1 a)) ->
  keeps_pair m (let '(m, a) := p in f m a).
Proof.
  destruct p as [m1 a]. intros [Hi He] Hf. destruct (Hf m1 a Hi) as [Hi' He'].
  split; [done|]. by rewrite He'.
Qed.

Lemma keeps_set now key v ttl m : inv m -> k <> key -> keeps_pair m (set now key v ttl m).
Proof.
  intros Hm Hk. unfold set. destruct ttl as [d|]; simpl; [|by apply keeps_set_entry].
  destruct (instant_add now d); simpl; [by apply keeps_set_entry | done..].
Qed.

Lemma keeps_set_ex now key v ttl m : inv m -> k <> key -> keeps_pair m (set_ex now key v ttl m).
Proof. intros Hm Hk. unfold set_ex. destruct (instant_add now ttl); [by apply keeps_set_entry | done..]. Qed.

Lemma keeps_rename now a b m : inv m -> k <> a -> k <> b -> keeps_pair m (rename now a b m).
Proof.
  intros Hm Ha Hb. unfold rename. apply keeps_let; [by apply keeps_with_entry|].
  intros m1 [] Hm1; [by apply keeps_set_entry | done..].
Qed.

Lemma keeps_rpoplpush now a b m : inv m -> k <> a -> k <> b -> keeps_pair m (rpoplpush now a b m).
Proof.
  intros Hm Ha Hb. unfold rpoplpush. apply keeps_let; [by apply keeps_with_entry|].
  intros m1 [[v|]| |] Hm1; [|done..]. apply keeps_let; [by apply keeps_with_entry | done].
Qed.

Lemma keeps_smove now a b x m : inv m -> k <> a -> k <> b -> keeps_pair m (smove now a b x m).
Proof.
  intros Hm Ha Hb. unfold smove. apply keeps_let; [by apply keeps_with_entry|].
  intros m1 [[]| |] Hm1; [|done..]. apply keeps_let; [by apply keeps_with_entry | done].
Qed.

Lemma keeps_mset now pairs m : inv m -> k ∉ pairs.*1 -> keeps m (mset now pairs m).
Proof.
  revert m. induction pairs as [|[a v] pairs IH]; intros m Hm Hk; cbn [mset]; [done|].
  rewrite fmap_cons, not_elem_of_cons in Hk. destruct Hk as [Hka Hk].
  destruct (keeps_set now a v None m Hm Hka) as [Hi He].
  destruct (set now a v None m) as [m1 []]; simpl in *; [| |done].
  all: specialize (IH m1 Hi Hk); destruct (mset now pairs m1); simpl in *; congruence.
Qed.

Lemma keeps_hmset a pairs m : inv m -> k <> a -> keeps m (hmset a pairs m).
Proof.
  revert m. induction pairs as [|[f v] pairs IH]; intros m Hm Hk; cbn [hmset]; [done|].
  destruct (keeps_with_entry a _ m Hm Hk : keeps_pair m (hset a f v m)) as [Hi He].
  destruct (hset a f v m) as [m1 []]; simpl in *; [| |done].
  all: specialize (IH m1 Hi Hk); destruct (hmset a pairs m1); simpl in *; congruence.
Qed.

Lemma keeps_expire now a d m : inv m -> k <> a -> keeps m (expire_in now a d m).
Proof.
  intros Hm Hk. unfold expire_in. destruct (instant_add now d); simpl; [|done..].
  by apply keeps_fst, keeps_with_entry.
Qed.

(** A write leaves the keys it does not touch as they are. *)
Lemma apply_frame now wall cmd m : inv m -> cmd <> Command.FlushAll -> k ∉ touched cmd ->
  keeps m (apply_write_command now wall cmd m).
Proof.
  intros Hm Hf Hk. destruct cmd; cbn [apply_write_command touched] in *;
    rewrite ?not_elem_of_cons in Hk; try destruct Hk as [Hk1 Hk2]; try destruct Hk2 as [Hk2 _];
    try done;
    try (first [ apply keeps_dropping; first [ by apply keeps_with_entry | by apply keeps_set
                   | by apply keeps_set_ex | by apply keeps_rename | by apply keeps_rpoplpush
                   | by apply keeps_smove ]
               | by apply keeps_fst, keeps_with_entry | by apply keeps_mset | by apply keeps_hmset ]).
  - destruct (u64_try_from seconds); [by apply keeps_expire | done].
  - destruct (u64_try_from millis); [by apply keeps_expire | done].
  - destruct (u64_try_from unix_secs); [|done].
    destruct (unix_secs_of wall <? _); [by apply keeps_expire | by apply keeps_fst, keeps_with_entry].
Qed.
End frame.
