(* ===== verification/ReplayClocks.v ===== *)
(** * ReplayClocks: logs that replay the same anywhere

    As long as no key has a deadline and no command sets one, applying a write
    command does not depend on when it is applied ([apply_clock_free]); a
    command that neither draws members nor breaks ties by the order of a hash
    table does not depend on these either ([apply_choice_free]).  So a log of
    such commands replayed after a restart, or on a replica, gives the storage
    it gave when it was written ([replay_anywhere]). *)

From S2P Require Import Prelude Text External Float64 BTree Values SortedSet SortedSetFacts Stream.
From S2P Require Import Keyspace Storage StorageTypes StorageFacts ListFacts SetFacts Command Apply.
From S2P Require Import ApplyFacts.
#[local] Open Scope Z_scope.

(** Commands that neither set a deadline, nor read the clock for an id, nor draw
    members at random, nor take those of the same score in the order of a hash
    table. *)
Definition timeless (cmd : Command.t) : bool :=
  match cmd with
  | Command.Set' _ _ (Some _) | Command.SetEx _ _ _
  | Command.Expire _ _ | Command.PExpire _ _ | Command.ExpireAt _ _
  | Command.SPop _ _ | Command.ZPopMin _ _ | Command.ZPopMax _ _ => false
  | Command.XAdd _ id _ => bool_decide (replay_id id <> None)
  | _ => true
  end.

(** ** Values without a deadline *)

Definition slotless (e : option CacheValue) : Prop :=
  match e with Some v => expires_at_ref v = None | None => True end.

Lemma count_loop_keep {V B} (P : V -> B) (f : bytes -> V -> V * bool) l v :
  (forall x v, P (fst (f x v)) = P v) -> P (fst (count_loop f l v)) = P v.
Proof.
  intros Hf. revert v. induction l as [|x l IH]; intros v; [done|]. rewrite count_loop_cons.
  specialize (Hf x v). destruct (f x v) as [v' b]. simpl in *. by rewrite IH.
Qed.

Lemma fold_keep {V A B} (P : V -> B) (f : V -> A -> V) l v :
  (forall v x, P (f v x) = P v) -> P (fold_left f l v) = P v.
Proof. intros Hf. revert v. induction l as [|x l IH]; intros v; simpl; [done|]. by rewrite IH. Qed.

Lemma set_remove_slot x s : SetValue.expires_at (fst (SetValue.remove x s)) = SetValue.expires_at s.
Proof. done. Qed.

Lemma stream_add_slot wall id fs s :
  StreamValue.expires_at (fst (StreamValue.add wall id fs s)) = StreamValue.expires_at s.
Proof. unfold StreamValue.add. by repeat case_match. Qed.

Lemma stream_add_wall wall wall' id fs s : id <> None ->
  StreamValue.add wall id fs s = StreamValue.add wall' id fs s.
Proof. by destruct id. Qed.

(** ** Operations on one key *)

(** Two bodies that agree where there is no deadline, and set none. *)
Definition clock_free {A} (f g : option CacheValue -> option CacheValue * A) : Prop :=
  forall e, slotless e -> f e = g e /\ slotless (fst (f e)).

(** Case analysis on an entry without a deadline. *)
Ltac slotless_cases :=
  intros [[b sl|[hf sl]|[li sl]|[sm sl]|[zl zm sl]|[se sid sl]]|]; simpl; intros Hslot;
  try discriminate Hslot; subst; simpl; (split; [reflexivity|]).

Section clocks.
Context `{KeyMapLaws M, HashOrder, Rng, Layout}.
Implicit Types m : M.

Definition no_deadlines m : Prop := forall k, slotless (entry k m).

(** The same outcome, without deadlines. *)
Definition agree (r r' : res M) : Prop :=
  r = r' /\ forall m', r = Ok m' -> inv m' /\ no_deadlines m'.

Definition agree_pair {A} (p p' : M * A) : Prop :=
  p = p' /\ inv (fst p) /\ no_deadlines (fst p).

Lemma with_entry_clock_free {A} k (f g : option CacheValue -> option CacheValue * A) m :
  inv m -> no_deadlines m -> clock_free f g -> agree_pair (with_entry k f m) (with_entry k g m).
Proof.
  intros Hm Hn Hfg. destruct (Hfg _ (Hn k)) as [He Hs]. split_and!.
  - unfold with_entry. by rewrite He.
  - by apply with_entry_inv.
  - intros j. rewrite with_entry_entry by done. by case_decide.
Qed.

Lemma set_entry_clock_free {A} k v (a : A) m : inv m -> no_deadlines m -> expires_at_ref v = None ->
  agree_pair (set_entry k (Some v) m, a) (set_entry k (Some v) m, a).
Proof.
  intros Hm Hn Hv. split_and!; [done | by apply set_entry_inv |]. intros j. simpl.
  rewrite entry_set_entry by done. by case_decide.
Qed.

Lemma agree_dropping {A} (p p' : M * res A) : agree_pair p p' -> agree (dropping p) (dropping p').
Proof.
  intros (-> & Hi & Hn). split; [done|]. intros m'. destruct p' as [m [| |]]; simpl; intros [= <-]; done.
Qed.

Lemma agree_fst {A} (p p' : M * A) : agree_pair p p' -> agree (Ok (fst p)) (Ok (fst p')).
Proof. intros (-> & Hi & Hn). split; [done|]. by intros m' [= <-]. Qed.

Lemma agree_same m : inv m -> no_deadlines m -> agree (Ok m) (Ok m).
Proof. intros Hi Hn. split; [done|]. by intros m' [= <-]. Qed.

Lemma agree_let {A B : Type} (p p' : M * A) (f g : M -> A -> M * B) : agree_pair p p' ->
  (forall m a, inv m -> no_deadlines m -> p = (m, a) -> agree_pair (f m a) (g m a)) ->
  agree_pair (let '(m, a) := p in f m a) (let '(m, a) := p' in g m a).
Proof. intros (-> & Hi & Hn) Hf. destruct p' as [m a]. by apply Hf. Qed.

Lemma agree_bind (r r' : res M) (f g : M -> res M) : agree r r' ->
  (forall m, inv m -> no_deadlines m -> agree (f m) (g m)) -> agree (r ≫= f) (r' ≫= g).
Proof.
  intros [-> Hr] Hf. destruct r' as [m|e|]; simpl; [|by split..]. destruct (Hr m eq_refl). by apply Hf.
Qed.

Lemma agree_refl_pair {A} m (a : A) : inv m -> no_deadlines m -> agree_pair (m, a) (m, a).
Proof. done. Qed.

(** *** The bodies *)

Lemma set_nx_clock now now' k v m : inv m -> no_deadlines m ->
  agree_pair (set_nx now k v m) (set_nx now' k v m).
Proof. intros Hm Hn. apply with_entry_clock_free; [done..|]. by slotless_cases. Qed.

Lemma get_set_clock now now' k v m : inv m -> no_deadlines m ->
  agree_pair (get_set now k v m) (get_set now' k v m).
Proof. intros Hm Hn. apply with_entry_clock_free; [done..|]. by slotless_cases. Qed.

Lemma persist_clock now now' k m : inv m -> no_deadlines m ->
  agree_pair (persist now k m) (persist now' k m).
Proof. intros Hm Hn. apply with_entry_clock_free; [done..|]. by slotless_cases. Qed.

Lemma incr_clock k m : inv m -> no_deadlines m -> agree_pair (incr k m) (incr k m).
Proof. intros Hm Hn. apply with_entry_clock_free; [done..|]. slotless_cases; by repeat case_match. Qed.

Lemma decr_clock k m : inv m -> no_deadlines m -> agree_pair (decr k m) (decr k m).
Proof. intros Hm Hn. apply with_entry_clock_free; [done..|]. slotless_cases; by repeat case_match. Qed.

Lemma incr_by_clock k d m : inv m -> no_deadlines m -> agree_pair (incr_by k d m) (incr_by k d m).
Proof. intros Hm Hn. apply with_entry_clock_free; [done..|]. slotless_cases; by repeat case_match. Qed.

Lemma incr_by_float_clock k d m : inv m -> no_deadlines m ->
  agree_pair (incr_by_float k d m) (incr_by_float k d m).
Proof. intros Hm Hn. apply with_entry_clock_free; [done..|]. slotless_cases; by repeat case_match. Qed.

Lemma append_clock k v m : inv m -> no_deadlines m -> agree_pair (append k v m) (append k v m).
Proof. intros Hm Hn. apply with_entry_clock_free; [done..|]. by slotless_cases. Qed.

Lemma delete_clock k m : inv m -> no_deadlines m -> agree_pair (delete k m) (delete k m).
Proof. intros Hm Hn. apply with_entry_clock_free; [done..|]. by slotless_cases. Qed.

Lemma hset_clock k f v m : inv m -> no_deadlines m -> agree_pair (hset k f v m) (hset k f v m).
Proof. intros Hm Hn. apply with_entry_clock_free; [done..|]. by slotless_cases. Qed.

Lemma hset_nx_clock now now' k f v m : inv m -> no_deadlines m ->
  agree_pair (hset_nx now k f v m) (hset_nx now' k f v m).
Proof. intros Hm Hn. apply with_entry_clock_free; [done..|]. slotless_cases; by repeat case_match. Qed.

Lemma hincr_by_clock now now' k f d m : inv m -> no_deadlines m ->
  agree_pair (hincr_by now k f d m) (hincr_by now' k f d m).
Proof. intros Hm Hn. apply with_entry_clock_free; [done..|]. slotless_cases; by repeat case_match. Qed.

Lemma hdel_clock k fs m : inv m -> no_deadlines m -> agree_pair (hdel k fs m) (hdel k fs m).
Proof.
  intros Hm Hn. apply with_entry_clock_free; [done..|]. slotless_cases; try done.
  pose proof (count_loop_keep HashValue.expires_at HashValue.delete_field fs (HashValue.mk hf None)) as Hl.
  destruct (count_loop _ _ _). by apply Hl.
Qed.

Lemma lpush_clock k vs m : inv m -> no_deadlines m -> agree_pair (lpush k vs m) (lpush k vs m).
Proof.
  intros Hm Hn. apply with_entry_clock_free; [done..|]. slotless_cases; try done; by rewrite fold_push_left.
Qed.

Lemma rpush_clock k vs m : inv m -> no_deadlines m -> agree_pair (rpush k vs m) (rpush k vs m).
Proof.
  intros Hm Hn. apply with_entry_clock_free; [done..|]. slotless_cases; try done; by rewrite fold_push_right.
Qed.

Lemma lpop_clock k m : inv m -> no_deadlines m -> agree_pair (lpop k m) (lpop k m).
Proof.
  intros Hm Hn. apply with_entry_clock_free; [done..|]. slotless_cases; try done. by destruct li.
Qed.

Lemma pop_right_slot li : ListValue.expires_at (fst (ListValue.pop_right (ListValue.mk li None))) = None.
Proof. unfold ListValue.pop_right. simpl. by destruct (rev li). Qed.

Lemma rpop_clock k m : inv m -> no_deadlines m -> agree_pair (rpop k m) (rpop k m).
Proof.
  intros Hm Hn. apply with_entry_clock_free; [done..|]. slotless_cases; try done.
  pose proof (pop_right_slot li). by destruct (ListValue.pop_right _).
Qed.

Lemma lset_clock now now' k i v m : inv m -> no_deadlines m ->
  agree_pair (lset now k i v m) (lset now' k i v m).
Proof. intros Hm Hn. apply with_entry_clock_free; [done..|]. slotless_cases; by repeat case_match. Qed.

Lemma lrem_clock now now' k c v m : inv m -> no_deadlines m ->
  agree_pair (lrem now k c v m) (lrem now' k c v m).
Proof. intros Hm Hn. apply with_entry_clock_free; [done..|]. slotless_cases; by repeat case_match. Qed.

Lemma ltrim_clock now now' k i j m : inv m -> no_deadlines m ->
  agree_pair (ltrim now k i j m) (ltrim now' k i j m).
Proof. intros Hm Hn. apply with_entry_clock_free; [done..|]. slotless_cases; by repeat case_match. Qed.

Lemma rpoplpush_clock now now' s d m : inv m -> no_deadlines m ->
  agree_pair (rpoplpush now s d m) (rpoplpush now' s d m).
Proof.
  intros Hm Hn. apply agree_let.
  { apply with_entry_clock_free; [done..|]. slotless_cases; try done.
    pose proof (pop_right_slot li). by destruct (ListValue.pop_right _). }
  intros m1 [[v|]|e|] Hm1 Hn1 _; try by apply agree_refl_pair.
  apply agree_let; [|intros; by apply agree_refl_pair].
  apply with_entry_clock_free; [done..|]. by slotless_cases.
Qed.

Lemma sadd_clock k xs m : inv m -> no_deadlines m -> agree_pair (sadd k xs m) (sadd k xs m).
Proof.
  intros Hm Hn. apply with_entry_clock_free; [done..|].
  assert (Hl : forall s, SetValue.expires_at (fst (count_loop SetValue.add xs s)) = SetValue.expires_at s)
    by (intros s; by apply (count_loop_keep SetValue.expires_at)).
  slotless_cases; try done; [specialize (Hl (SetValue.mk sm None)) | specialize (Hl SetValue.new)];
    by destruct (count_loop _ _ _).
Qed.

Lemma srem_clock k xs m : inv m -> no_deadlines m -> agree_pair (srem k xs m) (srem k xs m).
Proof.
  intros Hm Hn. apply with_entry_clock_free; [done..|]. slotless_cases; try done.
  pose proof (count_loop_keep SetValue.expires_at SetValue.remove xs (SetValue.mk sm None)) as Hl.
  destruct (count_loop _ _ _). by apply Hl.
Qed.

Lemma smove_clock now now' s d x m : inv m -> no_deadlines m ->
  agree_pair (smove now s d x m) (smove now' s d x m).
Proof.
  intros Hm Hn. apply agree_let.
  { apply with_entry_clock_free; [done..|]. by slotless_cases. }
  intros m1 [[]|e|] Hm1 Hn1 _; try by apply agree_refl_pair.
  apply agree_let; [|intros; by apply agree_refl_pair].
  apply with_entry_clock_free; [done..|]. by slotless_cases.
Qed.

Lemma add_members_slot xs z :
  SortedSetValue.expires_at (add_members xs z) = SortedSetValue.expires_at z.
Proof. apply (fold_keep SortedSetValue.expires_at). by intros v []. Qed.

Lemma zadd_clock k xs m : inv m -> no_deadlines m -> agree_pair (zadd k xs m) (zadd k xs m).
Proof.
  intros Hm Hn. apply with_entry_clock_free; [done..|]. slotless_cases; try done; by rewrite add_members_slot.
Qed.

Lemma zrem_clock k xs m : inv m -> no_deadlines m -> agree_pair (zrem k xs m) (zrem k xs m).
Proof.
  intros Hm Hn. apply with_entry_clock_free; [done..|]. slotless_cases; try done.
  pose proof (count_loop_keep SortedSetValue.expires_at SortedSetValue.remove xs
    (SortedSetValue.mk zl zm None)) as Hl.
  destruct (count_loop _ _ _). apply Hl. intros x v. apply remove_expires_at.
Qed.

Lemma zincr_by_clock now now' k d x m : inv m -> no_deadlines m ->
  agree_pair (zincr_by now k d x m) (zincr_by now' k d x m).
Proof. intros Hm Hn. apply with_entry_clock_free; [done..|]. by slotless_cases. Qed.

Lemma xadd_clock now wall now' wall' k id fs m : id <> None -> inv m -> no_deadlines m ->
  agree_pair (xadd now wall k id fs m) (xadd now' wall' k id fs m).
Proof.
  intros Hid Hm Hn. apply with_entry_clock_free; [done..|]. intros e He.
  rewrite !(stream_add_wall wall' wall) by done.
  assert (Hs : forall s, e = Some (CStream s) -> StreamValue.is_expired now s = false /\
    StreamValue.is_expired now' s = false).
  { intros s ->. simpl in He. unfold StreamValue.is_expired. by rewrite He. }
  pose proof (stream_add_slot wall id fs StreamValue.new) as Hnew.
  destruct (StreamValue.add wall id fs StreamValue.new) as [s0 r0]. simpl in Hnew.
  destruct e as [[| | | | |s]|]; try done.
  - destruct (Hs s eq_refl) as [-> ->]. cbn [negb].
    rewrite (stream_add_wall wall' wall) by done.
    pose proof (stream_add_slot wall id fs s) as Ha. simpl in He.
    destruct (StreamValue.add wall id fs s). split; [done|]. simpl in *. congruence.
  - by destruct r0.
Qed.

Lemma rename_clock now now' k k' m : inv m -> no_deadlines m ->
  agree_pair (rename now k k' m) (rename now' k k' m).
Proof.
  intros Hm Hn. apply agree_let.
  { apply with_entry_clock_free; [done..|]. by slotless_cases. }
  intros m1 [v|e|] Hm1 Hn1 Hp; try by apply agree_refl_pair.
  apply set_entry_clock_free; [done..|]. pose proof (Hn k) as Hk. apply (f_equal snd) in Hp.
  unfold rename_take in Hp. rewrite with_entry_result in Hp. simpl in Hp.
  destruct (entry k m) as [w|]; [|done]. destruct (negb _); [|done]. by injection Hp as <-.
Qed.

Lemma set_clock now now' k v m : inv m -> no_deadlines m ->
  agree_pair (set now k v None m) (set now' k v None m).
Proof. intros Hm Hn. by apply set_entry_clock_free. Qed.

Lemma mset_clock now now' ps m : inv m -> no_deadlines m -> agree (mset now ps m) (mset now' ps m).
Proof.
  revert m. induction ps as [|[k v] ps IH]; intros m Hm Hn; cbn [mset]; [by apply agree_same|].
  apply agree_bind; [by apply agree_dropping, set_clock | done].
Qed.

Lemma hmset_clock k ps m : inv m -> no_deadlines m -> agree (hmset k ps m) (hmset k ps m).
Proof.
  revert m. induction ps as [|[f v] ps IH]; intros m Hm Hn; cbn [hmset]; [by apply agree_same|].
  apply agree_bind; [by apply agree_dropping, hset_clock | done].
Qed.

Lemma flushall_clock m : inv m -> agree (Ok (flushall m)) (Ok (flushall m)).
Proof.
  intros Hm. split; [done|]. intros m' [= <-]. split; [by apply clear_inv|]. intros k.
  rewrite entry_abs by by apply clear_inv. unfold flushall. by rewrite clear_abs, lookup_empty.
Qed.

(** *** All commands *)

Lemma apply_clock_free now wall now' wall' cmd m : inv m -> no_deadlines m -> timeless cmd = true ->
  agree (apply_write_command now wall cmd m) (apply_write_command now' wall' cmd m).
Proof.
  intros Hm Hn Ht. destruct cmd; cbn [timeless apply_write_command] in *; try discriminate Ht;
    try (by apply agree_same); try apply agree_dropping; try apply agree_fst;
    try by (apply incr_clock || apply decr_clock || apply append_clock || apply hset_clock ||
      apply hdel_clock || apply lpush_clock || apply rpush_clock || apply lpop_clock ||
      apply rpop_clock || apply sadd_clock || apply srem_clock || apply zadd_clock ||
      apply zrem_clock || apply delete_clock || apply incr_by_clock || apply incr_by_float_clock).
  all: try by (apply persist_clock || apply set_nx_clock || apply get_set_clock || apply mset_clock ||
      apply hmset_clock || apply hset_nx_clock || apply hincr_by_clock || apply lset_clock ||
      apply lrem_clock || apply ltrim_clock || apply rpoplpush_clock ||
      apply smove_clock || apply zincr_by_clock ||
      apply rename_clock || apply flushall_clock).
  - destruct ttl_secs; [done|]. by apply set_clock.
  - apply xadd_clock; [|done..]. by apply bool_decide_eq_true in Ht.
Qed.

(** ... nor does it depend on the order of hash tables and the random numbers. *)
Lemma apply_choice_free (O O' : HashOrder) (R R' : Rng) now wall cmd m : timeless cmd = true ->
  @apply_write_command M _ O R _ now wall cmd m = @apply_write_command M _ O' R' _ now wall cmd m.
Proof. by destruct cmd. Qed.
End clocks.

(** The commands of two logs are the same and timeless; what their application
    meets may differ. *)
Section logs.
Context `{KeyMapLaws M, Layout}.
Implicit Types m : M.

Lemma replay_anywhere log log' m : inv m -> no_deadlines m ->
  map command log = map command log' -> forallb timeless (map command log) = true ->
  replay log m = replay log' m.
Proof.
  revert log' m. induction log as [|e log IH]; intros [|e' log'] m Hm Hn Heq Ht; simpl in *; try done.
  injection Heq as He Heq. apply andb_true_iff in Ht as [Ht1 Ht2].
  assert (Ha : apply_at e m = apply_at e' m /\
    forall m', apply_at e m = Ok m' -> inv m' /\ no_deadlines m').
  { unfold apply_at. rewrite <- He.
    rewrite (apply_choice_free (at_order e') (at_order e) (at_draws e') (at_draws e)) by done.
    by apply (@apply_clock_free _ _ _ (at_order e) (at_draws e)). }
  destruct Ha as [Ha Hok]. rewrite <- Ha. destruct (apply_at e m) as [m'|x|]; simpl; try done.
  destruct (Hok m' eq_refl). by apply IH.
Qed.

Lemma empty_no_deadlines : no_deadlines (empty_map : M).
Proof. intros k. rewrite entry_abs by apply empty_inv. by rewrite empty_abs, lookup_empty. Qed.
End logs.
