(* ===== verification/Ring.v ===== *)
(** * Ring: consistent hashing

    [ConsistentHashRing] and [slot_for_key] of [src/cache/src/cluster/ring.rs],
    and the [Node] of [src/cache/src/cluster/node.rs].  A node owns the keys
    whose hash is followed, around the ring, by one of its virtual nodes. *)

From S2P Require Import Prelude Text External BTree.
#[local] Open Scope Z_scope.

(** ** Nodes *)

Abbreviation NodeId := bytes.

Inductive NodeStatus := Active | Suspicious | Failed.
#[global] Instance NodeStatus_eq_dec : EqDecision NodeStatus.
Proof. solve_decision. Defined.

Module Node.
(** A [SocketAddr] is the text it is printed as. *)
Record t := mk {
  id : NodeId;
  addr : bytes;
  cluster_addr : bytes;
  status : NodeStatus;
  last_seen : Z;
  last_seen_timestamp : Z;
  version : Z;
}.

(** [duration_since(UNIX_EPOCH).unwrap_or_default().as_secs()], the wall clock
    in milliseconds. *)
Definition unix_secs (wall : Z) : Z := if 0 <=? wall then wall / 1000 else 0.

Definition new (now wall : Z) (id : NodeId) (addr cluster_addr : bytes) : t :=
  mk id addr cluster_addr Active now (unix_secs wall) 0.

Definition is_alive (n : t) : bool := bool_decide (status n = Active).

Definition update_last_seen (now wall : Z) (n : t) : t :=
  mk (id n) (addr n) (cluster_addr n) Active now (unix_secs wall) (version n).

Definition with_status (s : NodeStatus) (n : t) : t :=
  mk (id n) (addr n) (cluster_addr n) s (last_seen n) (last_seen_timestamp n) (version n).
Definition mark_suspicious : t -> t := with_status Suspicious.
Definition mark_failed : t -> t := with_status Failed.

(** [Instant::now() - last_seen], which saturates at zero. *)
Definition time_since_last_seen (now : Z) (n : t) : Z := Z.max 0 (now - last_seen n).
End Node.

(** ** The ring *)

Definition DEFAULT_VIRTUAL_NODES : nat := 150.

Record ConsistentHashRing := mk_ring {
  ring : list (Z * NodeId);
  nodes : gmap NodeId Node.t;
  virtual_nodes : nat;
}.

Definition with_virtual_nodes (n : nat) : ConsistentHashRing := mk_ring [] ∅ n.
Definition new_ring : ConsistentHashRing := with_virtual_nodes DEFAULT_VIRTUAL_NODES.

Section ring.
Context `{Xxh3}.

Definition virtual_key (node_id : NodeId) (i : nat) : bytes :=
  node_id ++ bs ":" ++ show_int (Z.of_nat i).

(** [for i in 0..virtual_nodes { ring.insert(hash, node_id) }]. *)
Definition insert_virtual (node_id : NodeId) (idx : list nat) (l : list (Z * NodeId))
  : list (Z * NodeId) :=
  fold_left (fun l i => bt_insert Z.compare (xxh3_64 (virtual_key node_id i)) node_id l) idx l.

Definition add_node (n : Node.t) (r : ConsistentHashRing) : ConsistentHashRing :=
  mk_ring (insert_virtual (Node.id n) (seq 0 (virtual_nodes r)) (ring r))
          (<[Node.id n := n]> (nodes r)) (virtual_nodes r).

Definition remove_node (node_id : NodeId) (r : ConsistentHashRing) : ConsistentHashRing :=
  mk_ring (filter (fun e => e.2 <> node_id) (ring r)) (base.delete node_id (nodes r))
          (virtual_nodes r).

(** [ring.range(hash..).next().or_else(|| ring.iter().next())]. *)
Definition owner (hash : Z) (l : list (Z * NodeId)) : option NodeId :=
  match bt_range_from Z.compare hash l with
  | (_, id) :: _ => Some id
  | [] => snd <$> head l
  end.

Definition get_node (key : bytes) (r : ConsistentHashRing) : option NodeId :=
  if bool_decide (ring r = []) then None else owner (xxh3_64 key) (ring r).

(** [for (_, node_id) in iter { if seen.insert(..) { push; if len >= count { break } } }]. *)
Fixpoint replicas_loop (count : Z) (l : list (Z * NodeId)) (seen : gset NodeId) (out : list NodeId)
  : list NodeId :=
  match l with
  | [] => out
  | (_, node_id) :: l =>
      if bool_decide (node_id ∈ seen) then replicas_loop count l seen out
      else
        let out := out ++ [node_id] in
        if count <=? len out then out else replicas_loop count l ({[node_id]} ∪ seen) out
  end.

Definition get_nodes_for_replication (key : bytes) (count : Z) (r : ConsistentHashRing)
  : list NodeId :=
  if bool_decide (ring r = []) then []
  else replicas_loop count (bt_range_from Z.compare (xxh3_64 key) (ring r) ++ ring r) ∅ [].

Definition get_all_nodes `{HashOrder} (r : ConsistentHashRing) : list Node.t := (hm_iter (nodes r)).*2.
Definition get_node_by_id (node_id : NodeId) (r : ConsistentHashRing) : option Node.t :=
  nodes r !! node_id.
Definition node_count (r : ConsistentHashRing) : Z := Z.of_nat (size (nodes r)).

Definition node_for_key (key : bytes) (r : ConsistentHashRing) : option Node.t :=
  id ← get_node key r; get_node_by_id id r.

(** The slot of a key, for [-MOVED]. *)
Definition slot_for_key (key : bytes) : Z := xxh3_64 key mod 16384.
End ring.

(** ** The invariant *)

#[global] Instance Z_cmp_laws : CmpLaws Z.compare (fun _ => True).
Proof.
  split.
  - intros a b _ _. apply Z.compare_antisym.
  - intros a b c _ _ _ ->%Z.compare_eq. done.
  - intros a b c _ _ _ H1 H2. rewrite Z.compare_lt_iff in *. lia.
Qed.

(** The hashes are in order, and every virtual node is one of a known node,
    which is stored under its id. *)
Record ring_wf (r : ConsistentHashRing) : Prop := {
  ring_sorted : bt_wf Z.compare (fun _ => True) (ring r);
  ring_known : forall e, e ∈ ring r -> is_Some (nodes r !! e.2);
  ring_ids : forall id n, nodes r !! id = Some n -> Node.id n = id;
}.

Section facts.
Context `{Xxh3}.
Implicit Types (l : list (Z * NodeId)) (r : ConsistentHashRing).

Abbreviation sorted l := (bt_wf Z.compare (fun _ => True) l).

Lemma elem_of_bt_insert h (v : NodeId) l e :
  e ∈ bt_insert Z.compare h v l -> e.2 = v \/ e ∈ l.
Proof.
  induction l as [|[k w] l IH]; simpl.
  - intros ->%list_elem_of_singleton. by left.
  - destruct (h ?= k); rewrite !elem_of_cons; [| |]; intros He; naive_solver.
Qed.

Lemma insert_virtual_sorted id idx l : sorted l -> sorted (insert_virtual id idx l).
Proof.
  revert l. induction idx as [|i idx IH]; intros l Hl; simpl; [done|].
  apply IH, (bt_insert_wf Z.compare (fun _ => True)); done.
Qed.

Lemma elem_of_insert_virtual id idx l e : e ∈ insert_virtual id idx l -> e.2 = id \/ e ∈ l.
Proof.
  revert l. induction idx as [|i idx IH]; intros l; simpl; [by right|].
  intros [?|He]%IH; [by left|]. by apply elem_of_bt_insert in He.
Qed.

Lemma with_virtual_nodes_wf n : ring_wf (with_virtual_nodes n).
Proof.
  split; simpl; [apply bt_wf_nil| |].
  - by intros e ?%elem_of_nil.
  - intros id nd. by rewrite lookup_empty.
Qed.

Lemma add_node_wf n r : ring_wf r -> ring_wf (add_node n r).
Proof.
  intros [Hs Hk Hi]. split; simpl.
  - by apply insert_virtual_sorted.
  - intros e [->|He]%elem_of_insert_virtual; [by rewrite lookup_insert_eq|].
    rewrite lookup_insert_is_Some'. right. by apply Hk.
  - intros id nd [[<- <-]|[_ ?]]%lookup_insert_Some; [done|]. by apply Hi.
Qed.

Lemma remove_node_wf id r : ring_wf r -> ring_wf (remove_node id r).
Proof.
  intros [Hs Hk Hi]. split; simpl.
  - by apply bt_filter_wf.
  - intros e [Hne He]%list_elem_of_filter. rewrite lookup_delete_ne by done. by apply Hk.
  - intros id' nd [_ ?]%lookup_delete_Some. by apply Hi.
Qed.

(** ** Ownership *)

Lemma range_from_cons h k (v : NodeId) l :
  bt_range_from Z.compare h ((k, v) :: l) =
  if h <=? k then (k, v) :: bt_range_from Z.compare h l else bt_range_from Z.compare h l.
Proof.
  unfold bt_range_from. rewrite filter_cons. unfold Z.leb.
  case_decide as E; destruct (h ?= k); try done; by destruct E.
Qed.

(** The part of the ring from a hash on, after an insertion. *)
Lemma range_from_insert h k (v : NodeId) l : sorted l ->
  bt_range_from Z.compare h (bt_insert Z.compare k v l) =
  if h <=? k then bt_insert Z.compare k v (bt_range_from Z.compare h l)
  else bt_range_from Z.compare h l.
Proof.
  induction l as [|[k' w] l IH]; intros Hs; cbn [bt_insert]; [by rewrite range_from_cons|].
  apply bt_wf_cons in Hs as (_ & HF & Hs). specialize (IH Hs).
  destruct (Z.compare_spec k k') as [->|Hlt|Hgt]; rewrite !range_from_cons.
  - destruct (Z.leb_spec h k'); [|done]. simpl. by rewrite Z.compare_refl.
  - destruct (Z.leb_spec h k), (Z.leb_spec h k'); try lia; try done. simpl.
    by rewrite (proj2 (Z.compare_lt_iff k k')).
  - rewrite IH. destruct (Z.leb_spec h k), (Z.leb_spec h k'); try lia; try done. simpl.
    by rewrite (proj2 (Z.compare_gt_iff k k')).
Qed.

Lemma head_bt_insert k (v : NodeId) l :
  snd <$> head (bt_insert Z.compare k v l) = Some v \/
  snd <$> head (bt_insert Z.compare k v l) = snd <$> head l.
Proof. destruct l as [|[k' w] l]; simpl; [by left|]. destruct (k ?= k'); simpl; auto. Qed.

(** A new virtual node takes keys; it gives none to another node. *)
Lemma owner_insert h k (v : NodeId) l : sorted l ->
  owner h (bt_insert Z.compare k v l) = Some v \/ owner h (bt_insert Z.compare k v l) = owner h l.
Proof.
  intros Hs. unfold owner. rewrite range_from_insert by done.
  pose proof (head_bt_insert k v l) as Hh.
  assert (Hc : forall b : list (Z * NodeId), match bt_insert Z.compare k v b with
      | (_, id) :: _ => Some id | [] => snd <$> head (bt_insert Z.compare k v l) end = Some v \/
    match bt_insert Z.compare k v b with
      | (_, id) :: _ => Some id | [] => snd <$> head (bt_insert Z.compare k v l) end =
    match b with (_, id) :: _ => Some id | [] => snd <$> head l end).
  { intros [|[k' w] b]; simpl; [by left|]. destruct (k ?= k'); auto. }
  destruct (h <=? k); [apply Hc|].
  destruct (bt_range_from Z.compare h l) as [|[k' w] b]; auto.
Qed.

Lemma owner_insert_virtual h id idx l : sorted l ->
  owner h (insert_virtual id idx l) = Some id \/ owner h (insert_virtual id idx l) = owner h l.
Proof.
  revert l. induction idx as [|i idx IH]; intros l Hs; simpl; [by right|].
  destruct (IH (bt_insert Z.compare (xxh3_64 (virtual_key id i)) id l)) as [E|E];
    [by apply (bt_insert_wf Z.compare (fun _ => True)) | by left |].
  rewrite E. by apply owner_insert.
Qed.

Lemma owner_filter h id l : owner h l <> Some id ->
  owner h (filter (fun e => e.2 <> id) l) = owner h l.
Proof.
  unfold owner, bt_range_from. intros Ho.
  rewrite list_filter_filter.
  rewrite (list_filter_iff _ (fun e : Z * NodeId => e.2 <> id /\ (let '(k, _) := e in (h ?= k) <> Gt)))
    by (intros [? ?]; tauto).
  rewrite <- list_filter_filter.
  destruct (filter (fun '(k, _) => (h ?= k) <> Gt) l) as [|[k w] b] eqn:E.
  - rewrite filter_nil. destruct l as [|[k w] l]; [done|]. simpl in *.
    rewrite filter_cons_True by naive_solver. done.
  - rewrite filter_cons_True by naive_solver. done.
Qed.

Lemma owner_nil h l : owner h l = None -> l = [].
Proof.
  unfold owner. destruct (bt_range_from Z.compare h l) as [|[]]; [|done].
  by destruct l as [|[]].
Qed.

Lemma get_node_owner key r : get_node key r = owner (xxh3_64 key) (ring r).
Proof. unfold get_node. case_bool_decide as E; [|done]. by rewrite E. Qed.

Lemma owner_elem h l id : owner h l = Some id -> exists k, (k, id) ∈ l.
Proof.
  unfold owner. destruct (bt_range_from Z.compare h l) as [|[k w] b] eqn:E.
  - destruct l as [|[k w] l]; simpl; [done|]. intros [= <-]. exists k. by left.
  - intros [= <-]. exists k. assert (Hin : (k, w) ∈ bt_range_from Z.compare h l).
    { rewrite E. by left. }
    by apply list_elem_of_filter in Hin as [_ ?].
Qed.

(** Routing resolves: whoever owns a key is a known node. *)
Lemma node_for_key_owner key r : ring_wf r ->
  match get_node key r with
  | Some id => exists n, node_for_key key r = Some n /\ Node.id n = id /\ nodes r !! id = Some n
  | None => ring r = []
  end.
Proof.
  intros [_ Hk Hi]. unfold node_for_key. rewrite get_node_owner.
  destruct (owner _ _) as [id|] eqn:E; [|by apply owner_nil in E].
  destruct (owner_elem _ _ _ E) as [k Hin]. destruct (Hk _ Hin) as [n Hn]. simpl in *.
  exists n. auto.
Qed.

(** ** Replicas *)

(** The values of a list, each at its first place. *)
Fixpoint firsts (seen : gset NodeId) (l : list NodeId) : list NodeId :=
  match l with
  | [] => []
  | x :: l => if decide (x ∈ seen) then firsts seen l else x :: firsts ({[x]} ∪ seen) l
  end.

Lemma elem_of_firsts (l : list NodeId) seen x : x ∈ firsts seen l <-> x ∈ l /\ x ∉ seen.
Proof.
  revert seen. induction l as [|y l IH]; intros seen; simpl.
  { split; [|tauto]. by intros ?%elem_of_nil. }
  case_decide; rewrite ?elem_of_cons, IH, ?elem_of_cons, ?elem_of_union, ?elem_of_singleton.
  - split; [tauto|]. by intros [[->|?] ?].
  - destruct (decide (x = y)) as [->|]; tauto.
Qed.

Lemma NoDup_firsts (l : list NodeId) seen : NoDup (firsts seen l).
Proof.
  revert seen. induction l as [|y l IH]; intros seen; simpl; [constructor|].
  case_decide; [done|]. constructor; [|done]. rewrite elem_of_firsts, elem_of_union, elem_of_singleton. tauto.
Qed.

Lemma replicas_loop_spec count l seen out : len out < Z.max 1 count ->
  replicas_loop count l seen out =
  out ++ take (Z.to_nat (Z.max 1 count - len out)) (firsts seen l.*2).
Proof.
  revert seen out. induction l as [|[k id] l IH]; intros seen out Hc; simpl.
  { by rewrite take_nil, app_nil_r. }
  case_bool_decide; [rewrite decide_True by done; by apply IH|].
  rewrite decide_False by done. rewrite len_app. change (len [id]) with 1.
  destruct (Z.leb_spec count (len out + 1)) as [Hle|Hle].
  - replace (Z.to_nat (Z.max 1 count - len out)) with 1%nat by (pose proof (len_nonneg out); lia). done.
  - rewrite IH by (rewrite len_app; change (len [id]) with 1; lia).
    rewrite len_app. change (len [id]) with 1.
    replace (Z.to_nat (Z.max 1 count - len out))
      with (S (Z.to_nat (Z.max 1 count - (len out + 1)))) by lia.
    simpl. by rewrite <- app_assoc.
Qed.

Lemma replicas_firsts key count r :
  get_nodes_for_replication key count r =
  take (Z.to_nat (Z.max 1 count))
    (firsts ∅ (bt_range_from Z.compare (xxh3_64 key) (ring r) ++ ring r).*2).
Proof.
  unfold get_nodes_for_replication. case_bool_decide as E.
  - rewrite E. simpl. by rewrite take_nil.
  - rewrite replicas_loop_spec by (change (len (@nil NodeId)) with 0; lia). simpl.
    by rewrite Z.sub_0_r.
Qed.

Lemma head_firsts (l : list NodeId) : head (firsts ∅ l) = head l.
Proof. destruct l; simpl; [done|]. by rewrite decide_False by apply not_elem_of_empty. Qed.

Lemma head_replicas key count r : head (get_nodes_for_replication key count r) = get_node key r.
Proof.
  rewrite replicas_firsts, get_node_owner.
  replace (Z.to_nat (Z.max 1 count)) with (S (Z.to_nat (Z.max 1 count - 1))) by lia.
  trans (head (firsts ∅ (bt_range_from Z.compare (xxh3_64 key) (ring r) ++ ring r).*2)).
  { by destruct (firsts _ _). }
  rewrite head_firsts. unfold owner.
  destruct (bt_range_from Z.compare (xxh3_64 key) (ring r)) as [|[k w] b]; [|done].
  simpl. by destruct (ring r) as [|[]].
Qed.
End facts.
