(* ===== verification/Transactions.v ===== *)
(** * Transactions: command queues and optimistic concurrency

    [src/cache/src/transactions.rs].  Every shard has a write counter; [WATCH]
    remembers the counters of the shards of its keys and [EXEC] compares.  An
    index past the counters would panic; [shard_index_for] never gives one
    for 64 shards ([shard_index_for_shard]). *)

From S2P Require Import Prelude External Values Keyspace ShardedMap Command.
#[local] Open Scope Z_scope.

(** ** Write counters *)

Module ShardVersions.
(** [Vec<AtomicU64>]. *)
Record t := mk { versions : list Z }.

Definition new (shard_count : nat) : t := mk (replicate shard_count 0).

Definition read (shard_idx : nat) (v : t) : res Z :=
  match versions v !! shard_idx with Some n => Ok n | None => Panic end.

(** [fetch_add(1)], which wraps around. *)
Definition bump (shard_idx : nat) (v : t) : res t :=
  match versions v !! shard_idx with
  | Some n => Ok (mk (<[shard_idx := wrap_u64 (n + 1)]> (versions v)))
  | None => Panic
  end.
End ShardVersions.

(** ** The transaction of a connection *)

Module TxState.
Record t := mk {
  queue : option (list Command.t);
  queue_dirty : bool;
  watched : gmap nat Z;
}.

Definition new : t := mk None false ∅.
Definition in_multi (tx : t) : bool := bool_decide (is_Some (queue tx)).
Definition start (tx : t) : t := mk (Some []) false (watched tx).

Definition enqueue (cmd : Command.t) (tx : t) : t :=
  match queue tx with
  | Some q => mk (Some (q ++ [cmd])) (queue_dirty tx) (watched tx)
  | None => tx
  end.

Definition discard (tx : t) : t := mk None false ∅.
Definition take_queue (tx : t) : t * option (list Command.t) :=
  (mk None (queue_dirty tx) (watched tx), queue tx).

(** [entry(shard_idx).or_insert(version)]. *)
Definition watch (shard_idx : nat) (version : Z) (tx : t) : t :=
  match watched tx !! shard_idx with
  | Some _ => tx
  | None => mk (queue tx) (queue_dirty tx) (<[shard_idx := version]> (watched tx))
  end.

Definition unwatch (tx : t) : t := mk (queue tx) (queue_dirty tx) ∅.

(** [any] over a hash table; the order of the table does not matter to it. *)
Fixpoint any_changed (l : list (nat * Z)) (v : ShardVersions.t) : res bool :=
  match l with
  | [] => Ok false
  | (idx, n) :: l =>
      cur ← ShardVersions.read idx v;
      if negb (cur =? n) then Ok true else any_changed l v
  end.
Definition any_watched_changed (v : ShardVersions.t) (tx : t) : res bool :=
  any_changed (map_to_list (watched tx)) v.
End TxState.

Definition shard_index_for `{Xxh3} (key : bytes) (shard_count : Z) : nat :=
  Z.to_nat (Z.land (xxh3_64 key) (wrap_u64 (shard_count - 1))).

Definition is_tx_control (cmd : Command.t) : bool :=
  match cmd with
  | Command.Multi | Command.Exec | Command.Discard | Command.Watch _ | Command.Unwatch => true
  | _ => false
  end.

(** ** Facts *)

Section facts.
Context `{Xxh3}.

(** [WATCH] and the storage agree on where a key lives. *)
Lemma shard_index_for_shard key : shard_index_for key SHARD_COUNT = shard_index key.
Proof. done. Qed.

Definition versions_wf (v : ShardVersions.t) : Prop :=
  length (ShardVersions.versions v) = Z.to_nat SHARD_COUNT /\
  Forall (fun n => 0 <= n < 2 ^ 64) (ShardVersions.versions v).

(** The counter of a shard, 0 where there is none. *)
Definition version (idx : nat) (v : ShardVersions.t) : Z :=
  default 0 (ShardVersions.versions v !! idx).

Lemma new_versions_wf : versions_wf (ShardVersions.new (Z.to_nat SHARD_COUNT)).
Proof.
  split; [apply length_replicate|]. apply Forall_replicate. lia.
Qed.

Lemma read_version idx v : versions_wf v -> (idx < Z.to_nat SHARD_COUNT)%nat ->
  ShardVersions.read idx v = Ok (version idx v).
Proof.
  intros [Hl _] Hi. unfold ShardVersions.read, version.
  destruct (lookup_lt_is_Some_2 (ShardVersions.versions v) idx) as [n ->]; [lia | done].
Qed.

Lemma bump_version idx v : versions_wf v -> (idx < Z.to_nat SHARD_COUNT)%nat ->
  exists v', ShardVersions.bump idx v = Ok v' /\ versions_wf v' /\
    forall j, version j v' = if decide (j = idx) then wrap_u64 (version idx v + 1) else version j v.
Proof.
  intros [Hl HF] Hi. unfold ShardVersions.bump, version.
  destruct (lookup_lt_is_Some_2 (ShardVersions.versions v) idx) as [n Hn]; [lia|]. rewrite Hn.
  eexists. split; [done|]. split.
  - split; simpl; [by rewrite length_insert|].
    apply Forall_insert; [done|]. unfold wrap_u64. apply Z.mod_pos_bound. lia.
  - intros j. simpl. case_decide as E; [subst j; by rewrite list_lookup_insert_eq by lia|].
    by rewrite list_lookup_insert_ne.
Qed.

Lemma any_changed_spec l v : versions_wf v -> Forall (fun e => (e.1 < Z.to_nat SHARD_COUNT)%nat) l ->
  exists b, TxState.any_changed l v = Ok b /\
    (b = true <-> exists idx n, (idx, n) ∈ l /\ version idx v <> n).
Proof.
  intros Hv. induction l as [|[idx n] l IH]; intros Hl; simpl.
  { exists false. split; [done|]. split; [done|]. by intros (? & ? & ?%elem_of_nil & _). }
  apply Forall_cons in Hl as [Hi Hl]. destruct (IH Hl) as (b & Hb & Hspec).
  rewrite read_version by done. simpl. destruct (Z.eqb_spec (version idx v) n) as [E|E]; simpl.
  - exists b. split; [done|]. rewrite Hspec. split.
    + intros (j & w & Hj & Hw). exists j, w. split; [by right | done].
    + intros (j & w & [[= -> ->]|Hj]%elem_of_cons & Hw); [done|]. by exists j, w.
  - exists true. split; [done|]. split; [|done]. intros _. exists idx, n. split; [by left | done].
Qed.
End facts.
