(* ===== verification/Security.v ===== *)
(** * Security: users, sessions and permissions

    [src/cache/src/security/{acl,auth}.rs].  Password hashing is the [argon2]
    crate, a parameter with its one law: a hash verifies its own password.
    The random numbers of a salt and of a session id are arguments. *)

From S2P Require Import Prelude Text External Values Storage.
#[local] Open Scope Z_scope.

(** ** Access rules *)

Inductive ACLPermission :=
| AllCommands
| ReadCommands
| WriteCommands
| SpecificCommand (cmd : bytes)
| Deny.
#[global] Instance ACLPermission_eq_dec : EqDecision ACLPermission.
Proof. solve_decision. Defined.

Module ACLRule.
Record t := mk { permissions : list ACLPermission; key_patterns : list bytes }.

Definition new : t := mk [] [bs "*"].
Definition allow_all : t := mk [AllCommands] [bs "*"].
Definition read_only : t := mk [ReadCommands] [bs "*"].
Definition write_only : t := mk [WriteCommands] [bs "*"].
Definition with_key_pattern (pattern : bytes) (r : t) : t := mk (permissions r) [pattern].
Definition with_key_patterns (patterns : list bytes) (r : t) : t := mk (permissions r) patterns.

Definition READ_COMMANDS : list bytes := map bs [
  "GET"; "MGET"; "EXISTS"; "TTL"; "PTTL"; "TYPE";
  "HGET"; "HMGET"; "HGETALL"; "HLEN"; "HEXISTS";
  "LLEN"; "LINDEX"; "LRANGE";
  "SCARD"; "SISMEMBER"; "SMEMBERS";
  "ZCARD"; "ZCOUNT"; "ZRANGE"; "ZRANK"; "ZSCORE"]%string.

Definition WRITE_COMMANDS : list bytes := map bs [
  "SET"; "SETEX"; "SETNX"; "DEL"; "EXPIRE"; "PERSIST";
  "HSET"; "HDEL"; "HINCRBY";
  "LPUSH"; "RPUSH"; "LPOP"; "RPOP"; "LREM";
  "SADD"; "SREM"; "SPOP";
  "ZADD"; "ZREM"; "ZINCRBY"]%string.

Definition is_read_command (command : bytes) : bool := bool_decide (command ∈ READ_COMMANDS).
Definition is_write_command (command : bytes) : bool := bool_decide (command ∈ WRITE_COMMANDS).

(** The characters ['+'] and ['-']. *)
Definition plus : byte := x2b.
Definition minus : byte := x2d.

Section unicode.
Context `{UnicodeCase}.

(** The first permission that decides. *)
Fixpoint check_permissions (l : list ACLPermission) (command_upper : bytes) : bool :=
  match l with
  | [] => false
  | p :: l =>
      match p with
      | AllCommands => true
      | Deny => false
      | ReadCommands =>
          if is_read_command command_upper then true else check_permissions l command_upper
      | WriteCommands =>
          if is_write_command command_upper then true else check_permissions l command_upper
      | SpecificCommand (c :: cmd) =>
          if bool_decide (c = plus) && bool_decide (to_uppercase cmd = command_upper) then true
          else if bool_decide (c = minus) && bool_decide (to_uppercase cmd = command_upper) then false
          else check_permissions l command_upper
      | SpecificCommand [] => check_permissions l command_upper
      end
  end.
Definition check_command_permission (command : bytes) (r : t) : bool :=
  check_permissions (permissions r) (to_uppercase command).

(** [ends_with('*')] and the prefix before it. *)
Definition strip_star (pattern : bytes) : option bytes :=
  if bool_decide (last pattern = Some x2a) then Some (take (length pattern - 1) pattern) else None.

Definition pattern_matches (pattern key : bytes) : bool :=
  if bool_decide (pattern = bs "*") then true
  else match strip_star pattern with
       | Some prefix => starts_with prefix key
       | None => bool_decide (pattern = key)
       end.

Definition check_key_pattern (key : bytes) (r : t) : bool :=
  existsb (fun pattern => pattern_matches pattern key) (key_patterns r).

Definition allows_command (command : bytes) (key : option bytes) (r : t) : bool :=
  if negb (check_command_permission command r) then false
  else match key with
       | Some key => check_key_pattern key r
       | None => true
       end.
End unicode.
End ACLRule.

(** ** Users *)

Class Argon2 := {
  (** [Argon2::default().hash_password(password, salt).to_string()]. *)
  argon2_hash : bytes -> bytes -> bytes;
  (** [PasswordHash::new(hash)] and [verify_password]. *)
  argon2_verify : bytes -> bytes -> bool;
  argon2_verify_hash : forall salt password, argon2_verify (argon2_hash salt password) password = true;
}.

(** To evaluate examples with. *)
#[export] Program Instance clear_text : Argon2 := {|
  argon2_hash := fun _ password => password;
  argon2_verify := fun hash password => bool_decide (hash = password);
|}.
Next Obligation. intros. by apply bool_decide_true. Qed.

Module User.
Record t := mk {
  username : bytes;
  password_hash : bytes;
  acl_rules : list ACLRule.t;
  is_admin : bool;
}.

(** [salt]: 16 random bytes. *)
Definition new `{Argon2} (salt username password : bytes) (is_admin : bool) : t :=
  mk username (argon2_hash salt password) [] is_admin.

Definition verify_password `{Argon2} (password : bytes) (u : t) : bool :=
  argon2_verify (password_hash u) password.

Definition add_acl_rule (rule : ACLRule.t) (u : t) : t :=
  mk (username u) (password_hash u) (acl_rules u ++ [rule]) (is_admin u).

Definition can_execute_command `{UnicodeCase} (command : bytes) (key : option bytes) (u : t) : bool :=
  if is_admin u then true
  else existsb (ACLRule.allows_command command key) (acl_rules u).
End User.

(** ** Sessions *)

(** [{:x}] of an unsigned number. *)
Definition hex_digit (d : Z) : byte := as_u8 (if d <? 10 then 48 + d else 87 + d).
Fixpoint hex_digits (fuel : nat) (z : Z) (acc : bytes) : bytes :=
  match fuel with
  | O => acc
  | S fuel =>
      let acc := hex_digit (z mod 16) :: acc in
      if z / 16 =? 0 then acc else hex_digits fuel (z / 16) acc
  end.
(** A [u64] has at most 16 digits. *)
Definition show_hex (z : Z) : bytes := hex_digits 16 z [].

Module Session.
Record t := mk { session_id : bytes; username : bytes; created_at : Z; last_activity : Z }.

(** [random] is the [rand::random::<u64>()] of the id. *)
Definition new (now random : Z) (username : bytes) : t :=
  mk (bs "sess_" ++ show_hex random) username now now.

Definition is_expired (now timeout : Z) (s : t) : bool := timeout <? Z.max 0 (now - last_activity s).
Definition update_activity (now : Z) (s : t) : t :=
  mk (session_id s) (username s) (created_at s) now.
End Session.

Module AuthManager.
Record t := mk {
  users : gmap bytes User.t;
  sessions : gmap bytes Session.t;
  require_auth : bool;
}.

Definition new (require_auth : bool) : t := mk ∅ ∅ require_auth.

(** [collect] into a hash table: a later user replaces an earlier one. *)
Definition with_users (require_auth : bool) (us : list User.t) : t :=
  mk (fold_left (fun m u => <[User.username u := u]> m) us ∅) ∅ require_auth.

Definition user_count (a : t) : Z := Z.of_nat (size (users a)).
Definition add_user (u : User.t) (a : t) : t :=
  mk (<[User.username u := u]> (users a)) (sessions a) (require_auth a).

Definition authenticate `{Argon2} (now random : Z) (username password : bytes) (a : t)
  : t * option bytes :=
  match users a !! username with
  | Some user =>
      if User.verify_password password user then
        let session := Session.new now random username in
        let session_id := Session.session_id session in
        (mk (users a) (<[session_id := session]> (sessions a)) (require_auth a), Some session_id)
      else (a, None)
  | None => (a, None)
  end.

Definition session_timeout : Z := 3600 * ns_per_sec.

Definition verify_session (now : Z) (session_id : bytes) (a : t) : t * option bytes :=
  match sessions a !! session_id with
  | Some session =>
      if negb (Session.is_expired now session_timeout session) then
        (mk (users a) (<[session_id := Session.update_activity now session]> (sessions a))
            (require_auth a), Some (Session.username session))
      else (mk (users a) (base.delete session_id (sessions a)) (require_auth a), None)
  | None => (a, None)
  end.

Definition logout (session_id : bytes) (a : t) : t :=
  mk (users a) (base.delete session_id (sessions a)) (require_auth a).

Definition check_permission `{UnicodeCase} (username command : bytes) (key : option bytes) (a : t)
  : bool :=
  if negb (require_auth a) then true
  else match users a !! username with
       | Some user => User.can_execute_command command key user
       | None => false
       end.

Definition is_auth_required (a : t) : bool := require_auth a.
End AuthManager.
