(* ===== verification/PubSub.v ===== *)
(** * PubSub: channels and subscribers

    [src/cache/src/pubsub.rs].  The mailboxes are [tokio]'s unbounded mpsc
    channels, a parameter ([Mpsc]): all mailboxes live in one store, a sender is
    the identity of its mailbox, and cloning a sender copies that identity.
    The laws are the documented behaviour of [send] and [is_closed]. *)

From S2P Require Import Prelude External.
#[local] Open Scope Z_scope.

Record PubSubMessage := msg { channel : bytes; payload : bytes }.
#[global] Instance PubSubMessage_eq_dec : EqDecision PubSubMessage.
Proof. solve_decision. Defined.

(** ** Mailboxes *)

Class Mpsc (B : Type) := {
  no_mailboxes : B;
  (** What waits in a mailbox; [None] once its receiver is gone. *)
  mailbox : nat -> B -> option (list PubSubMessage);
  (** The mailboxes ever created. *)
  created : B -> gset nat;
  unbounded_channel : B -> B * nat;
  send : nat -> PubSubMessage -> B -> B * bool;
  is_closed : nat -> B -> bool;
  mailbox_new : forall b b' i, unbounded_channel b = (b', i) ->
    i ∉ created b /\ created b' = {[i]} ∪ created b /\
    forall j, mailbox j b' = if decide (j = i) then Some [] else mailbox j b;
  send_created : forall i m b, created (fst (send i m b)) = created b;
  mailbox_send : forall i m b j, mailbox j (fst (send i m b)) =
    if decide (j = i) then (fun q => q ++ [m]) <$> mailbox i b else mailbox j b;
  send_ok : forall i m b, snd (send i m b) = bool_decide (is_Some (mailbox i b));
  is_closed_spec : forall i b, is_closed i b = negb (bool_decide (is_Some (mailbox i b)));
}.

(** A store of mailboxes to evaluate examples with. *)
Record boxes := mk_boxes { next_box : nat; open_boxes : gmap nat (list PubSubMessage) }.

Definition send_box (i : nat) (m : PubSubMessage) (b : boxes) : boxes * bool :=
  match open_boxes b !! i with
  | Some q => (mk_boxes (next_box b) (<[i := q ++ [m]]> (open_boxes b)), true)
  | None => (b, false)
  end.

#[export] Program Instance box_store : Mpsc boxes := {|
  no_mailboxes := mk_boxes 0 ∅;
  mailbox i b := open_boxes b !! i;
  created b := set_seq 0 (next_box b);
  unbounded_channel b :=
    (mk_boxes (S (next_box b)) (<[next_box b := []]> (open_boxes b)), next_box b);
  send := send_box;
  is_closed i b := negb (bool_decide (is_Some (open_boxes b !! i)));
|}.
Next Obligation.
  intros b b' i [= <- <-]. split.
  { intros Hi%elem_of_set_seq. lia. }
  split.
  - apply set_eq. intros x. rewrite elem_of_union, elem_of_singleton, !elem_of_set_seq. simpl. lia.
  - intros j. simpl. case_decide; subst; [apply lookup_insert_eq | by apply lookup_insert_ne].
Qed.
Next Obligation. intros i m b. unfold send_box. by destruct (open_boxes b !! i). Qed.
Next Obligation.
  intros i m b j. unfold send_box. destruct (open_boxes b !! i) eqn:E; simpl.
  - case_decide; subst; [apply lookup_insert_eq | by apply lookup_insert_ne].
  - case_decide; subst; [by rewrite E | done].
Qed.
Next Obligation. intros i m b. unfold send_box. by destruct (open_boxes b !! i). Qed.
Next Obligation. done. Qed.

(** ** The registry *)

Module PubSub.
(** Channel to the senders registered for it, in order. *)
Record t := mk { channels : gmap bytes (list nat) }.

Definition new : t := mk ∅.

Definition subscribe (ch : bytes) (tx : nat) (p : t) : t :=
  mk (<[ch := default [] (channels p !! ch) ++ [tx]]> (channels p)).

Section mpsc.
Context `{Mpsc B}.

Definition prune_closed (b : B) (ch : bytes) (p : t) : t :=
  match channels p !! ch with
  | Some l =>
      let l := filter (fun tx => is_closed tx b = false) l in
      mk (if bool_decide (l = []) then base.delete ch (channels p) else <[ch := l]> (channels p))
  | None => p
  end.

(** [for tx in list { if tx.send(msg).is_ok() { delivered += 1 } }]. *)
Fixpoint send_all (m : PubSubMessage) (l : list nat) (delivered : Z) (b : B) : B * Z :=
  match l with
  | [] => (b, delivered)
  | tx :: l =>
      let '(b, ok) := send tx m b in
      send_all m l (if ok : bool then delivered + 1 else delivered) b
  end.

Definition publish (ch payload : bytes) (p : t) (b : B) : B * Z :=
  match channels p !! ch with
  | None => (b, 0)
  | Some l => send_all (msg ch payload) l 0 b
  end.
End mpsc.
End PubSub.

(** ** The subscriptions of a connection *)

Module SubscriberState.
Record t := mk { tx : option nat; rx : option nat; channels : list bytes }.

Definition new : t := mk None None [].

Definition ensure_sender `{Mpsc B} (s : t) (b : B) : t * B * nat :=
  match tx s with
  | Some i => (s, b, i)
  | None =>
      let '(b, i) := unbounded_channel b in
      (mk (Some i) (Some i) (channels s), b, i)
  end.

Definition is_active (s : t) : bool := negb (bool_decide (channels s = [])).
End SubscriberState.

(** ** Facts *)

Section facts.
Context `{Mpsc B}.
Implicit Types b : B.

(** How often a sender is in a list. *)
Definition copies (i : nat) (l : list nat) : nat := length (filter (fun j => j = i) l).

Lemma send_all_mailbox m l n b i :
  mailbox i (fst (PubSub.send_all m l n b)) =
  (fun q => q ++ replicate (copies i l) m) <$> mailbox i b.
Proof.
  revert n b. induction l as [|tx l IH]; intros n b; cbn [PubSub.send_all].
  { destruct (mailbox i b) as [q|] eqn:E; cbn [fst]; rewrite E; [|done]. simpl. by rewrite app_nil_r. }
  pose proof (mailbox_send tx m b i) as Hm. destruct (send tx m b) as [b' ok]. simpl in Hm.
  rewrite IH, Hm. unfold copies. rewrite filter_cons.
  destruct (decide (i = tx)) as [->|Hi].
  - rewrite decide_True by done. destruct (mailbox tx b) as [q|]; [|done]. simpl.
    by rewrite <- app_assoc.
  - by rewrite decide_False by congruence.
Qed.

Lemma send_all_count m l n b :
  snd (PubSub.send_all m l n b) =
  n + len (filter (fun i => is_Some (mailbox i b)) l).
Proof.
  revert n b. induction l as [|tx l IH]; intros n b; cbn [PubSub.send_all].
  { rewrite filter_nil. unfold len. simpl. lia. }
  pose proof (mailbox_send tx m b) as Hm. pose proof (send_ok tx m b) as Ho.
  destruct (send tx m b) as [b' ok]. simpl in Hm, Ho. subst ok. rewrite IH.
  rewrite (list_filter_iff (fun i => is_Some (mailbox i b')) (fun i => is_Some (mailbox i b))).
  { rewrite filter_cons. case_bool_decide; case_decide; try done; rewrite ?len_cons; lia. }
  intros i. rewrite Hm. case_decide; subst; [|done]. by rewrite fmap_is_Some.
Qed.

Lemma publish_mailbox ch x p b i :
  mailbox i (fst (PubSub.publish ch x p b)) =
  (fun q => q ++ replicate (copies i (default [] (PubSub.channels p !! ch))) (msg ch x)) <$> mailbox i b.
Proof.
  unfold PubSub.publish. destruct (PubSub.channels p !! ch) as [l|]; cbn [default].
  - apply send_all_mailbox.
  - cbn [fst]. destruct (mailbox i b) as [q|]; [|done]. simpl. by rewrite app_nil_r.
Qed.

Lemma publish_count ch x p b :
  snd (PubSub.publish ch x p b) =
  len (filter (fun i => is_Some (mailbox i b)) (default [] (PubSub.channels p !! ch))).
Proof.
  unfold PubSub.publish. destruct (PubSub.channels p !! ch) as [l|]; [|done].
  rewrite send_all_count. simpl. lia.
Qed.

(** Pruning forgets closed mailboxes only. *)
Lemma prune_open b ch p c : 
  filter (fun i => is_Some (mailbox i b)) (default [] (PubSub.channels (PubSub.prune_closed b ch p) !! c)) =
  filter (fun i => is_Some (mailbox i b)) (default [] (PubSub.channels p !! c)).
Proof.
  unfold PubSub.prune_closed. destruct (PubSub.channels p !! ch) as [l|] eqn:E; [|done]. simpl.
  assert (Hf : filter (fun i => is_Some (mailbox i b)) (filter (fun tx => is_closed tx b = false) l) =
               filter (fun i => is_Some (mailbox i b)) l).
  { rewrite list_filter_filter. apply list_filter_iff. intros i. rewrite is_closed_spec.
    rewrite negb_false_iff, bool_decide_eq_true. tauto. }
  destruct (decide (c = ch)) as [->|Hc].
  - rewrite E. simpl. case_bool_decide as El.
    + rewrite lookup_delete_eq. simpl. by rewrite <- Hf, El.
    + by rewrite lookup_insert_eq.
  - case_bool_decide; [by rewrite lookup_delete_ne | by rewrite lookup_insert_ne].
Qed.
End facts.
