(* ===== verification/Scripting.v ===== *)
(** * Scripting: [EVAL] and [EVALSHA]

    [src/cache/src/scripting.rs].  The interpreter is the [mlua] crate, a
    parameter: loading a script gives the tree of its calls to [redis.call],
    each with a continuation that takes what the call gives the script, a value
    or a raised error.  A script that runs forever has no such tree.  SHA-1 is
    the [sha1] crate.  What is modelled is all of the bridge: the checks, the
    storage calls, the recorded writes and the conversions. *)

From S2P Require Import Prelude Text External Float64 Values SortedSet Stream Keyspace Storage.
From S2P Require Import StorageTypes Command.
#[local] Open Scope Z_scope.

(** ** The interpreter *)

(** [mlua::Value].  A table is what [get(1)], [get(2)], ... give up to the
    first error; all other values (functions, threads, ...) are alike here. *)
Inductive LuaValue :=
| LNil
| LBoolean (b : bool)
| LInteger (n : Z)
| LNumber (f : f64)
| LString (s : bytes)
| LTable (items : list LuaValue)
| LOther.

(** What a script does: return a value, fail with an error text, or call
    [redis.call] and go on with its value or its error. *)
Inductive script :=
| Return (v : LuaValue)
| Raise (e : bytes)
| Call (args : list LuaValue) (k : LuaValue + bytes -> script).

Class Lua := {
  (** [Lua::new_with]: the text of its error, if it fails. *)
  lua_init_error : option bytes;
  (** [lua.load(source).eval()] with [KEYS] and [ARGV] set. *)
  lua_eval : bytes -> list bytes -> list bytes -> script;
}.

(** Two scripts to evaluate examples with: ["SET"] sets the first key to the
    first argument and returns it; any other source returns its own text. *)
#[export] Instance tiny_lua : Lua := {|
  lua_init_error := None;
  lua_eval source keys argv :=
    if bool_decide (source = bs "SET") then
      Call [LString (bs "SET"); LString (default [] (head keys)); LString (default [] (head argv))]
        (fun r => match r with
                  | inl _ => Return (LString (default [] (head argv)))
                  | inr e => Raise e
                  end)
    else Return (LString source);
|}.

Class Sha1 := {
  sha1 : bytes -> bytes;
  sha1_length : forall data, length (sha1 data) = 20%nat;
}.

(** To evaluate examples with. *)
#[export] Program Instance padded_sha1 : Sha1 := {|
  sha1 data := take 20 (data ++ replicate 20 x00) |}.
Next Obligation. intros data. cbn beta. rewrite length_take, length_app, length_replicate. lia. Qed.

(** ** Conversions *)

(** [{:02x}] of a byte. *)
Definition hex_nibble (d : Z) : byte := as_u8 (if d <? 10 then 48 + d else 87 + d).
Definition hex_byte (b : byte) : bytes := [hex_nibble (u8 b / 16); hex_nibble (u8 b mod 16)].
Definition sha1_hex `{Sha1} (data : bytes) : bytes := concat (map hex_byte (sha1 data)).

Definition table_item (v : LuaValue) : bytes :=
  match v with
  | LString s => s
  | LInteger n => show_int n
  | LNumber f => f64_to_string f
  | _ => []
  end.
(** [while let Ok(v) = t.get(i) { if nil { break } ... }]. *)
Fixpoint table_items (l : list LuaValue) : list bytes :=
  match l with
  | [] => []
  | LNil :: _ => []
  | v :: l => table_item v :: table_items l
  end.

Definition lua_to_response (v : LuaValue) : Response.t :=
  match v with
  | LNil => Response.Null
  | LBoolean true => Response.Ok
  | LBoolean false => Response.Null
  | LInteger n => Response.Integer n
  | LNumber f => Response.Integer (f64_as_i64 f)
  | LString s => Response.Value s
  | LTable t => Response.Array (table_items t)
  | LOther => Response.Null
  end.

Definition response_to_lua (r : Response.t) : LuaValue + bytes :=
  match r with
  | Response.Ok => inl (LBoolean true)
  | Response.NotFound | Response.Null => inl (LBoolean false)
  | Response.Integer n => inl (LInteger n)
  | Response.Value b => inl (LString b)
  | Response.Array items => inl (LTable (map LString items))
  | Response.Error msg => inr msg
  | Response.Raw _ => inl (LBoolean true)
  end.

(** [to_str().ok()]: the text of a string that is UTF-8. *)
Definition lua_string_arg (args : list LuaValue) (idx : nat) : option bytes :=
  match args !! idx with
  | Some (LString s) => if utf8_valid s then Some s else None
  | _ => None
  end.

Definition lua_bytes_arg (args : list LuaValue) (idx : nat) : option bytes :=
  match args !! idx with
  | Some (LString s) => Some s
  | Some (LInteger n) => Some (show_int n)
  | Some (LNumber f) => Some (f64_to_string f)
  | _ => None
  end.

(** ** The bridge *)

Abbreviation AclCheck := (bytes -> option bytes -> bool).
Definition allow_all_acl : AclCheck := fun _ _ => true.

Section bridge.
Context `{KeyMap M, UnicodeCase}.

(** The result of a call: the storage, the recorded writes and the reply. *)
Definition call_result : Type := M * list Command.t * Response.t.

(** [match storage.op(..) { Ok(a) => { record(c); reply(a) } Err(e) => Error(e) }]. *)
Definition recorded {A} (op : M * res A) (c : Command.t) (reply : A -> Response.t)
    (writes : list Command.t) : res call_result :=
  match op with
  | (m, Ok a) => Ok (m, writes ++ [c], reply a)
  | (m, Err e) => Ok (m, writes, Response.Error e)
  | (_, Panic) => Panic
  end.

Definition redis_call_bridge (now : Z) (acl : AclCheck) (cmd : bytes) (args : list bytes)
    (m : M) (writes : list Command.t) : res call_result :=
  let upper := to_ascii_uppercase cmd in
  let named s := bool_decide (upper = bs s) in
  let usage s : res call_result := Ok (m, writes, Response.Error (bs s)) in
  if negb (acl upper (head args)) then
    Ok (m, writes, Response.Error (bs "NOPERM this user has no permissions to run the '" ++
                                   to_lowercase upper ++ bs "' command"))
  else if named "GET"%string then
    match args with
    | [] => usage "ERR GET key"%string
    | k :: _ => Ok (m, writes, match get now k m with
                               | Some v => Response.Value v
                               | None => Response.Null
                               end)
    end
  else if named "SET"%string then
    match args with
    | key :: value :: _ =>
        recorded (set now key value None m) (Command.Set' key value None) (fun _ => Response.Ok) writes
    | _ => usage "ERR SET key value"%string
    end
  else if named "DEL"%string || named "DELETE"%string then
    match args with
    | [] => usage "ERR DEL key"%string
    | k :: _ =>
        let '(m, deleted) := delete k m in
        Ok (m, if deleted then writes ++ [Command.Delete k] else writes,
            Response.Integer (if deleted then 1 else 0))
    end
  else if named "EXISTS"%string then Ok (m, writes, Response.Integer (exists' now args m))
  else if named "INCR"%string then
    match args with
    | k :: _ => recorded (incr k m) (Command.Incr k) Response.Integer writes
    | [] => usage "ERR INCR key"%string
    end
  else if named "DECR"%string then
    match args with
    | k :: _ => recorded (decr k m) (Command.Decr k) Response.Integer writes
    | [] => usage "ERR DECR key"%string
    end
  else if named "HGET"%string then
    match args with
    | key :: field :: _ => Ok (m, writes, match hget now key field m with
                                          | Some v => Response.Value v
                                          | None => Response.Null
                                          end)
    | _ => usage "ERR HGET key field"%string
    end
  else if named "HSET"%string then
    match args with
    | key :: field :: value :: _ =>
        recorded (hset key field value m) (Command.HSet key field value)
          (fun _ => Response.Integer 1) writes
    | _ => usage "ERR HSET key field value"%string
    end
  else if named "LPUSH"%string || named "RPUSH"%string then
    match args with
    | key :: ((_ :: _) as vals) =>
        if named "LPUSH"%string then
          recorded (lpush key vals m) (Command.LPush key vals) Response.Integer writes
        else recorded (rpush key vals m) (Command.RPush key vals) Response.Integer writes
    | _ => Ok (m, writes, Response.Error (bs "ERR " ++ upper ++ bs " key value"))
    end
  else if named "SADD"%string then
    match args with
    | key :: ((_ :: _) as members) =>
        recorded (sadd key members m) (Command.SAdd key members) Response.Integer writes
    | _ => usage "ERR SADD key member"%string
    end
  else Ok (m, writes, Response.Error (bs "ERR redis.call: '" ++ cmd ++
                                      bs "' not implemented in scripting bridge")).

(** The closure behind [redis.call]. *)
Definition call_fn (now : Z) (acl : AclCheck) (args : list LuaValue) (m : M)
    (writes : list Command.t) : res (M * list Command.t * (LuaValue + bytes)) :=
  match lua_string_arg args 0 with
  | None => Ok (m, writes, inr (bs "redis.call needs a command name"))
  | Some cmd =>
      let rest := omap (lua_bytes_arg args) (seq 1 (length args - 1)) in
      '(m, writes, resp) ← redis_call_bridge now acl cmd rest m writes;
      Ok (m, writes, response_to_lua resp)
  end.

(** Running the tree of a script. *)
Fixpoint run_tree (now : Z) (acl : AclCheck) (s : script) (m : M) (writes : list Command.t)
  : res (M * list Command.t * (LuaValue + bytes)) :=
  match s with
  | Return v => Ok (m, writes, inl v)
  | Raise e => Ok (m, writes, inr e)
  | Call args k =>
      match call_fn now acl args m writes with
      | Ok (m, writes, v) => run_tree now acl (k v) m writes
      | Err e => Err e
      | Panic => Panic
      end
  end.

Definition run_script `{Lua} (now : Z) (acl : AclCheck) (source : bytes) (keys argv : list bytes)
    (m : M) : res (M * list Command.t * Response.t) :=
  match lua_init_error with
  | Some e => Ok (m, [], Response.Error (bs "ERR Lua init failed: " ++ e))
  | None =>
      '(m, writes, v) ← run_tree now acl (lua_eval source keys argv) m [];
      Ok (m, writes, match v with
                     | inl v => lua_to_response v
                     | inr e => Response.Error (bs "ERR script execution failed: " ++ e)
                     end)
  end.
End bridge.

(** ** The engine *)

Module LuaEngine.
(** SHA-1 in hexadecimal to source. *)
Record t := mk { scripts : gmap bytes bytes }.

Definition new : t := mk ∅.

Section engine.
Context `{KeyMap M, UnicodeCase, Lua, Sha1}.

Definition run (now : Z) (acl : AclCheck) (source : bytes) (keys argv : list bytes)
    (m : M) (l : t) : t * res (M * list Command.t * Response.t) :=
  (mk (<[sha1_hex source := source]> (scripts l)), run_script now acl source keys argv m).

Definition run_sha (now : Z) (acl : AclCheck) (sha : bytes) (keys argv : list bytes)
    (m : M) (l : t) : res (M * list Command.t * Response.t) :=
  match scripts l !! to_ascii_lowercase sha with
  | Some source => run_script now acl source keys argv m
  | None => Ok (m, [], Response.Error (bs "NOSCRIPT No matching script. Please use EVAL."))
  end.
End engine.
End LuaEngine.
