(* ===== verification/Server.v ===== *)
(** * Server: executing commands

    [execute_command] of [src/cache/src/server.rs] and all it calls there: the
    gates (transaction queue, cluster routing, authentication, access rules),
    the point where writes are logged, replicated and counted, the dispatch to
    the storage and to the other components, and the text of the replies that
    are built by hand.

    A command runs as one step of the server.  [Env] is what it meets outside:
    the monotonic clock, the wall clock, the order of the hash tables, the random
    numbers, that of a session id, and whether an append to the log succeeded.
    [EXEC] gives every queued command its own. *)

From S2P Require Import Prelude Text External Float64 Values SortedSet Stream Keyspace Storage.
From S2P Require Import StorageTypes ShardedMap Resp Command Apply Ring Transactions Security.
From S2P Require Import PubSub Scripting.
#[local] Open Scope Z_scope.

(** ** Names and keys of commands *)

Definition command_name (cmd : Command.t) : bytes :=
  bs match cmd with
     | Command.Get _ => "GET" | Command.Set' _ _ _ => "SET" | Command.Delete _ => "DEL"
     | Command.Incr _ => "INCR" | Command.Decr _ => "DECR" | Command.Append _ _ => "APPEND"
     | Command.Strlen _ => "STRLEN" | Command.HGet _ _ => "HGET" | Command.HSet _ _ _ => "HSET"
     | Command.HDel _ _ => "HDEL" | Command.HGetAll _ => "HGETALL" | Command.HKeys _ => "HKEYS"
     | Command.HVals _ => "HVALS" | Command.HLen _ => "HLEN" | Command.HExists _ _ => "HEXISTS"
     | Command.LPush _ _ => "LPUSH" | Command.RPush _ _ => "RPUSH" | Command.LPop _ => "LPOP"
     | Command.RPop _ => "RPOP" | Command.LRange _ _ _ => "LRANGE" | Command.LLen _ => "LLEN"
     | Command.LIndex _ _ => "LINDEX" | Command.SAdd _ _ => "SADD" | Command.SRem _ _ => "SREM"
     | Command.SMembers _ => "SMEMBERS" | Command.SIsMember _ _ => "SISMEMBER"
     | Command.SCard _ => "SCARD" | Command.SInter _ => "SINTER" | Command.SUnion _ => "SUNION"
     | Command.SDiff _ => "SDIFF" | Command.ZAdd _ _ => "ZADD" | Command.ZRem _ _ => "ZREM"
     | Command.ZRange _ _ _ _ => "ZRANGE" | Command.ZRank _ _ => "ZRANK"
     | Command.ZScore _ _ => "ZSCORE" | Command.ZCard _ => "ZCARD" | Command.ZCount _ _ _ => "ZCOUNT"
     | Command.Ping => "PING" | Command.Echo _ => "ECHO" | Command.Exists _ => "EXISTS"
     | Command.Keys _ => "KEYS" | Command.FlushAll => "FLUSHALL" | Command.DbSize => "DBSIZE"
     | Command.Expire _ _ => "EXPIRE" | Command.PExpire _ _ => "PEXPIRE"
     | Command.ExpireAt _ _ => "EXPIREAT" | Command.Ttl _ => "TTL" | Command.PTtl _ => "PTTL"
     | Command.Persist _ => "PERSIST" | Command.Auth _ _ => "AUTH"
     | Command.SetNx _ _ => "SETNX" | Command.SetEx _ _ _ => "SETEX" | Command.GetSet _ _ => "GETSET"
     | Command.MGet _ => "MGET" | Command.MSet _ => "MSET" | Command.GetRange _ _ _ => "GETRANGE"
     | Command.IncrBy _ _ => "INCRBY" | Command.DecrBy _ _ => "DECRBY"
     | Command.IncrByFloat _ _ => "INCRBYFLOAT" | Command.HMGet _ _ => "HMGET"
     | Command.HMSet _ _ => "HMSET" | Command.HSetNx _ _ _ => "HSETNX"
     | Command.HIncrBy _ _ _ => "HINCRBY" | Command.LSet _ _ _ => "LSET" | Command.LRem _ _ _ => "LREM"
     | Command.LTrim _ _ _ => "LTRIM" | Command.RPopLPush _ _ => "RPOPLPUSH"
     | Command.SPop _ _ => "SPOP" | Command.SRandMember _ _ => "SRANDMEMBER"
     | Command.SMove _ _ _ => "SMOVE" | Command.ZIncrBy _ _ _ => "ZINCRBY"
     | Command.ZRangeByScore _ _ _ _ => "ZRANGEBYSCORE" | Command.ZRevRange _ _ _ _ => "ZREVRANGE"
     | Command.ZPopMin _ _ => "ZPOPMIN" | Command.ZPopMax _ _ => "ZPOPMAX"
     | Command.Type' _ => "TYPE" | Command.Rename _ _ => "RENAME" | Command.RandomKey => "RANDOMKEY"
     | Command.Publish _ _ => "PUBLISH" | Command.Subscribe _ => "SUBSCRIBE"
     | Command.Unsubscribe _ => "UNSUBSCRIBE"
     | Command.Multi => "MULTI" | Command.Exec => "EXEC" | Command.Discard => "DISCARD"
     | Command.Watch _ => "WATCH" | Command.Unwatch => "UNWATCH"
     | Command.XAdd _ _ _ => "XADD" | Command.XLen _ => "XLEN" | Command.XRange _ _ _ _ => "XRANGE"
     | Command.XRead _ _ _ => "XREAD"
     | Command.LuaEval _ _ _ => "EVAL" | Command.LuaEvalSha _ _ _ => "EVALSHA"
     end%string.

Definition command_key (cmd : Command.t) : option bytes :=
  match cmd with
  | Command.Get key | Command.Set' key _ _ | Command.Delete key | Command.Incr key
  | Command.Decr key | Command.Append key _ | Command.Strlen key
  | Command.HGet key _ | Command.HSet key _ _ | Command.HDel key _ | Command.HGetAll key
  | Command.HKeys key | Command.HVals key | Command.HLen key | Command.HExists key _
  | Command.LPush key _ | Command.RPush key _ | Command.LPop key | Command.RPop key
  | Command.LRange key _ _ | Command.LLen key | Command.LIndex key _
  | Command.SAdd key _ | Command.SRem key _ | Command.SMembers key | Command.SIsMember key _
  | Command.SCard key | Command.ZAdd key _ | Command.ZRem key _ | Command.ZRange key _ _ _
  | Command.ZRank key _ | Command.ZScore key _ | Command.ZCard key | Command.ZCount key _ _
  | Command.Expire key _ | Command.PExpire key _ | Command.ExpireAt key _
  | Command.Ttl key | Command.PTtl key | Command.Persist key => Some key
  | Command.SetNx key _ | Command.SetEx key _ _ | Command.GetSet key _ | Command.GetRange key _ _
  | Command.IncrBy key _ | Command.DecrBy key _ | Command.IncrByFloat key _
  | Command.HMGet key _ | Command.HMSet key _ | Command.HSetNx key _ _ | Command.HIncrBy key _ _
  | Command.LSet key _ _ | Command.LRem key _ _ | Command.LTrim key _ _
  | Command.SPop key _ | Command.SRandMember key _ | Command.ZIncrBy key _ _
  | Command.ZRangeByScore key _ _ _ | Command.ZRevRange key _ _ _
  | Command.ZPopMin key _ | Command.ZPopMax key _ | Command.Type' key => Some key
  | Command.RPopLPush key _ | Command.SMove key _ _ | Command.Rename key _ => Some key
  | Command.MGet _ | Command.MSet _ | Command.RandomKey => None
  | Command.Publish _ _ | Command.Subscribe _ | Command.Unsubscribe _ | Command.Multi
  | Command.Exec | Command.Discard | Command.Watch _ | Command.Unwatch => None
  | Command.XAdd key _ _ | Command.XLen key | Command.XRange key _ _ _ => Some key
  | Command.XRead _ _ _ => None
  | Command.LuaEval _ _ _ | Command.LuaEvalSha _ _ _ => None
  | Command.Exists _ | Command.Keys _ | Command.FlushAll | Command.DbSize | Command.Ping
  | Command.Echo _ | Command.SInter _ | Command.SUnion _ | Command.SDiff _
  | Command.Auth _ _ => None
  end.

(** ** Replies built by hand *)

(** [$<len>\r\n<bytes>\r\n]. *)
Definition bulk (s : bytes) : bytes := bs "$" ++ show_int (len s) ++ crlf ++ s ++ crlf.
Definition array_header (n : Z) : bytes := bs "*" ++ show_int n ++ crlf.

Definition format_xentries (entries : list (StreamId.t * fields)) : bytes :=
  array_header (len entries) ++
  concat (map (fun '(id, fs) =>
    bs "*2" ++ crlf ++ bulk (StreamId.to_string id) ++
    array_header (len fs * 2) ++
    concat (map (fun '(f, v) => bulk f ++ bulk v) fs)) entries).

Definition format_xread (per_stream : list (bytes * list (StreamId.t * fields))) : bytes :=
  array_header (len per_stream) ++
  concat (map (fun '(name, entries) =>
    bs "*2" ++ crlf ++ bulk name ++ format_xentries entries) per_stream).

Definition format_pubsub_message (m : PubSubMessage) : bytes :=
  bs "*3" ++ crlf ++ bs "$7" ++ crlf ++ bs "message" ++ crlf ++
  bulk (channel m) ++ bulk (payload m).

(** The frames that confirm [SUBSCRIBE] and [UNSUBSCRIBE]. *)
Definition subscribe_frame (ch : bytes) (n : Z) : bytes :=
  bs "*3" ++ crlf ++ bs "$9" ++ crlf ++ bs "subscribe" ++ crlf ++
  bulk ch ++ bs ":" ++ show_int n ++ crlf.
Definition unsubscribe_frame (ch : bytes) (n : Z) : bytes :=
  bs "*3" ++ crlf ++ bs "$11" ++ crlf ++ bs "unsubscribe" ++ crlf ++
  bulk ch ++ bs ":" ++ show_int n ++ crlf.

Definition nil_array : bytes := bs "*-1" ++ crlf.
Definition queued_reply : bytes := bs "+QUEUED" ++ crlf.

(** ** Storage commands *)

Section storage_commands.
Context `{KeyMap M, HashOrder, Rng, Layout}.

(** [match storage.op(..) { Ok(a) => reply, Err(e) => Response::Error(e) }]. *)
Definition reply {A} (f : A -> Response.t) (p : M * res A) : M * res Response.t :=
  (fst p, match snd p with
          | Ok a => Ok (f a)
          | Err e => Ok (Response.Error e)
          | Panic => Panic
          end).
Definition read_reply {A} (f : A -> Response.t) (r : res A) (m : M) : M * res Response.t :=
  reply f (m, r).

Definition one_if (b : bool) : Response.t := Response.Integer (if b then 1 else 0).
Definition value_or_nil (o : option bytes) : Response.t :=
  match o with Some v => Response.Value v | None => Response.NotFound end.

(** [for (member, score) in results { push(member); if let Some(s) { push(s) } }]. *)
Definition scored (l : list (bytes * option f64)) : list bytes :=
  concat (map (fun '(m, s) => m :: match s with Some s => [f64_to_string s] | None => [] end) l).
Definition with_score (l : list (bytes * f64)) : list bytes :=
  concat (map (fun '(m, s) => [m; f64_to_string s]) l).

(** [set_expiry(key, Instant::now() + d)] as a reply. *)
Definition expire_reply (now : Z) (key : bytes) (d : Z) (m : M) : M * res Response.t :=
  match instant_add now d with
  | Ok at' => let '(m, b) := set_expiry now key at' m in (m, Ok (one_if b))
  | Err e => (m, Ok (Response.Error e))
  | Panic => (m, Panic)
  end.

(** [for (f, v) in pairs { if let Err(e) = storage.hset(..) { return Error(e) } }]. *)
Fixpoint hmset_reply (key : bytes) (pairs : list (bytes * bytes)) (m : M) : M * res Response.t :=
  match pairs with
  | [] => (m, Ok Response.Ok)
  | (f, v) :: pairs =>
      match hset key f v m with
      | (m, Ok _) => hmset_reply key pairs m
      | (m, Err e) => (m, Ok (Response.Error e))
      | (m, Panic) => (m, Panic)
      end
  end.
Fixpoint mset_reply (now : Z) (pairs : list (bytes * bytes)) (m : M) : M * res Response.t :=
  match pairs with
  | [] => (m, Ok Response.Ok)
  | (k, v) :: pairs =>
      match set now k v None m with
      | (m, Panic) => (m, Panic)
      | (m, _) => mset_reply now pairs m
      end
  end.

Definition xadd_reply (now wall : Z) (key : bytes) (id : option bytes) (fs : fields) (m : M)
  : M * res Response.t :=
  let parsed := match id with
                | Some s => i ← StreamId.parse s false; Ok (Some i)
                | None => Ok None
                end in
  match parsed with
  | Ok parsed => reply (fun id => Response.Value (StreamId.to_string id)) (xadd now wall key parsed fs m)
  | Err e => (m, Ok (Response.Error e))
  | Panic => (m, Panic)
  end.

Definition xrange_reply (now : Z) (key start end' : bytes) (count : option Z) (m : M)
  : M * res Response.t :=
  read_reply (fun entries => Response.Raw (format_xentries entries))
    (s ← StreamId.parse start false; e ← StreamId.parse end' true; xrange now key s e count m) m.

(** The streams that have entries above their cursor. *)
Fixpoint xread_loop (now : Z) (count : option Z) (l : list (bytes * bytes)) (m : M)
  : res (list (bytes * list (StreamId.t * fields))) :=
  match l with
  | [] => Ok []
  | (k, id_str) :: l =>
      cursor ← StreamId.parse id_str false;
      entries ← xread now k cursor count m;
      rest ← xread_loop now count l m;
      Ok (if bool_decide (entries = []) then rest else (k, entries) :: rest)
  end.
Definition xread_reply (now : Z) (count : option Z) (keys ids : list bytes) (m : M)
  : M * res Response.t :=
  if negb (bool_decide (length keys = length ids)) then
    (m, Ok (Response.Error (bs "ERR XREAD streams/ids length mismatch")))
  else
    read_reply (fun per_stream =>
      Response.Raw (if bool_decide (per_stream = []) then nil_array else format_xread per_stream))
      (xread_loop now count (zip keys ids) m) m.

(** The arms of [execute_command] that only use the storage, in the groups of
    the source; [None] for the commands of other groups. *)

(** String commands. *)
Definition execute_strings (now wall : Z) (cmd : Command.t) (m : M) : option (M * res Response.t) :=
  match cmd with
  | Command.Get key => Some (m, Ok (value_or_nil (get now key m)))
  | Command.Set' key value ttl_secs =>
      Some (reply (fun _ => Response.Ok) (set now key value (from_secs <$> ttl_secs) m))
  | Command.Delete key =>
      let '(m, b) := delete key m in
      Some (m, Ok (if b then Response.Ok else Response.Integer 0))
  | Command.Incr key => Some (reply Response.Integer (incr key m))
  | Command.Decr key => Some (reply Response.Integer (decr key m))
  | Command.Append key value => Some (reply Response.Integer (append key value m))
  | Command.Strlen key => Some (read_reply Response.Integer (strlen key m) m)
  | _ => None
  end.

(** Hash commands. *)
Definition execute_hashes (now wall : Z) (cmd : Command.t) (m : M) : option (M * res Response.t) :=
  match cmd with
  | Command.HGet key field => Some (m, Ok (value_or_nil (hget now key field m)))
  | Command.HSet key field value => Some (reply (fun _ => Response.Integer 1) (hset key field value m))
  | Command.HDel key fields => Some (reply Response.Integer (hdel key fields m))
  | Command.HGetAll key =>
      Some (read_reply (fun pairs => Response.Array (concat (map (fun '(k, v) => [k; v]) pairs)))
              (hgetall now key m) m)
  | Command.HKeys key => Some (read_reply Response.Array (hkeys now key m) m)
  | Command.HVals key => Some (read_reply Response.Array (hvals now key m) m)
  | Command.HLen key => Some (read_reply Response.Integer (hlen now key m) m)
  | Command.HExists key field => Some (read_reply one_if (hexists now key field m) m)
  | _ => None
  end.

(** List commands. *)
Definition execute_lists (now wall : Z) (cmd : Command.t) (m : M) : option (M * res Response.t) :=
  match cmd with
  | Command.LPush key values => Some (reply Response.Integer (lpush key values m))
  | Command.RPush key values => Some (reply Response.Integer (rpush key values m))
  | Command.LPop key => Some (reply value_or_nil (lpop key m))
  | Command.RPop key => Some (reply value_or_nil (rpop key m))
  | Command.LRange key start stop => Some (read_reply Response.Array (lrange now key start stop m) m)
  | Command.LLen key => Some (read_reply Response.Integer (llen now key m) m)
  | Command.LIndex key index => Some (read_reply value_or_nil (lindex now key index m) m)
  | _ => None
  end.

(** Set commands. *)
Definition execute_sets (now wall : Z) (cmd : Command.t) (m : M) : option (M * res Response.t) :=
  match cmd with
  | Command.SAdd key members => Some (reply Response.Integer (sadd key members m))
  | Command.SRem key members => Some (reply Response.Integer (srem key members m))
  | Command.SMembers key => Some (read_reply Response.Array (smembers now key m) m)
  | Command.SIsMember key member => Some (read_reply one_if (sismember now key member m) m)
  | Command.SCard key => Some (read_reply Response.Integer (scard now key m) m)
  | Command.SInter keys => Some (read_reply Response.Array (sinter now keys m) m)
  | Command.SUnion keys => Some (read_reply Response.Array (sunion now keys m) m)
  | Command.SDiff keys => Some (read_reply Response.Array (sdiff now keys m) m)
  | _ => None
  end.

(** Sorted set commands. *)
Definition execute_zsets (now wall : Z) (cmd : Command.t) (m : M) : option (M * res Response.t) :=
  match cmd with
  | Command.ZAdd key members => Some (reply Response.Integer (zadd key members m))
  | Command.ZRem key members => Some (reply Response.Integer (zrem key members m))
  | Command.ZRange key start stop with_scores =>
      Some (read_reply (fun l => Response.Array (scored l)) (zrange now key start stop with_scores m) m)
  | Command.ZRank key member =>
      Some (read_reply (fun o => match o with
                                 | Some rank => Response.Integer rank
                                 | None => Response.NotFound
                                 end) (zrank now key member m) m)
  | Command.ZScore key member =>
      Some (read_reply (fun o => match o with
                                 | Some score => Response.Value (f64_to_string score)
                                 | None => Response.NotFound
                                 end) (zscore now key member m) m)
  | Command.ZCard key => Some (read_reply Response.Integer (zcard now key m) m)
  | Command.ZCount key min max => Some (read_reply Response.Integer (zcount now key min max m) m)
  | _ => None
  end.

(** Server commands. *)
Definition execute_keyspace (now wall : Z) (cmd : Command.t) (m : M) : option (M * res Response.t) :=
  match cmd with
  | Command.Ping => Some (m, Ok (Response.Value (bs "PONG")))
  | Command.Echo message => Some (m, Ok (Response.Value message))
  | Command.Exists keys => Some (m, Ok (Response.Integer (exists' now keys m)))
  | Command.Keys pattern => Some (m, Ok (Response.Array (keys now pattern m)))
  | Command.FlushAll => Some (flushall m, Ok Response.Ok)
  | Command.DbSize => Some (m, Ok (Response.Integer (dbsize now m)))
  | _ => None
  end.

(** TTL commands. *)
Definition execute_ttl (now wall : Z) (cmd : Command.t) (m : M) : option (M * res Response.t) :=
  match cmd with
  | Command.Expire key seconds =>
      Some match u64_try_from seconds with
           | Some secs => expire_reply now key (from_secs secs) m
           | None => (m, Ok (Response.Integer 0))
           end
  | Command.PExpire key millis =>
      Some match u64_try_from millis with
           | Some ms => expire_reply now key (from_millis ms) m
           | None => (m, Ok (Response.Integer 0))
           end
  | Command.ExpireAt key unix_secs =>
      let now_unix := unix_secs_of wall in
      Some (if unix_secs <=? now_unix then
              let '(m, b) := delete key m in (m, Ok (one_if b))
            else expire_reply now key (from_secs (unix_secs - now_unix)) m)
  | Command.Persist key => let '(m, b) := persist now key m in Some (m, Ok (one_if b))
  | Command.Ttl key =>
      Some (m, Ok (Response.Integer match pttl_millis now key m with
                                    | None => -2
                                    | Some (-1) => -1
                                    | Some ms => ms ÷ 1000
                                    end))
  | Command.PTtl key =>
      Some (m, Ok (Response.Integer match pttl_millis now key m with None => -2 | Some n => n end))
  | _ => None
  end.

(** The second bucket: strings. *)
Definition execute_strings2 (now wall : Z) (cmd : Command.t) (m : M) : option (M * res Response.t) :=
  match cmd with
  | Command.SetNx key value => let '(m, b) := set_nx now key value m in Some (m, Ok (one_if b))
  | Command.SetEx key seconds value =>
      Some (reply (fun _ => Response.Ok) (set_ex now key value (from_secs seconds) m))
  | Command.GetSet key value => Some (reply value_or_nil (get_set now key value m))
  | Command.MGet keys =>
      Some (m, Ok (Response.Array (map (fun k => default [] (get now k m)) keys)))
  | Command.MSet pairs => Some (mset_reply now pairs m)
  | Command.GetRange key start end' =>
      Some (read_reply (fun o => Response.Value (default [] o)) (get_range key start end' m) m)
  | Command.IncrBy key delta => Some (reply Response.Integer (incr_by key delta m))
  | Command.DecrBy key delta => Some (reply Response.Integer (incr_by key (wrap_i64 (- delta)) m))
  | Command.IncrByFloat key delta =>
      Some (reply (fun f => Response.Value (f64_to_string f)) (incr_by_float key delta m))
  | _ => None
  end.

(** The second bucket: hashes and lists. *)
Definition execute_hashes_lists2 (now wall : Z) (cmd : Command.t) (m : M) : option (M * res Response.t) :=
  match cmd with
  | Command.HMGet key fields =>
      Some (m, Ok (Response.Array (map (fun f => default [] (hget now key f m)) fields)))
  | Command.HMSet key pairs => Some (hmset_reply key pairs m)
  | Command.HSetNx key field value => Some (reply one_if (hset_nx now key field value m))
  | Command.HIncrBy key field delta => Some (reply Response.Integer (hincr_by now key field delta m))
  | Command.LSet key index value => Some (reply (fun _ => Response.Ok) (lset now key index value m))
  | Command.LRem key count value => Some (reply Response.Integer (lrem now key count value m))
  | Command.LTrim key start stop => Some (reply (fun _ => Response.Ok) (ltrim now key start stop m))
  | Command.RPopLPush source destination =>
      Some (reply value_or_nil (rpoplpush now source destination m))
  | _ => None
  end.

(** The second bucket: sets, sorted sets and keys. *)
Definition execute_sets_zsets2 (now wall : Z) (cmd : Command.t) (m : M) : option (M * res Response.t) :=
  match cmd with
  | Command.SPop key count =>
      Some (reply (fun members => match count with
                                  | None => value_or_nil (head members)
                                  | Some _ => Response.Array members
                                  end) (spop now key (default 1 count) m))
  | Command.SRandMember key count =>
      Some match count with
           | Some n => read_reply Response.Array (srand_member now key n m) m
           | None => read_reply (fun members => value_or_nil (last members)) (srand_member now key 1 m) m
           end
  | Command.SMove source destination member =>
      Some (reply one_if (smove now source destination member m))
  | Command.ZIncrBy key delta member =>
      Some (reply (fun s => Response.Value (f64_to_string s)) (zincr_by now key delta member m))
  | Command.ZRangeByScore key min max with_scores =>
      Some (read_reply (fun l => Response.Array (scored l))
              (zrange_by_score now key min max with_scores m) m)
  | Command.ZRevRange key start stop with_scores =>
      Some (read_reply (fun l => Response.Array (scored l)) (zrevrange now key start stop with_scores m) m)
  | Command.ZPopMin key count =>
      Some (reply (fun l => Response.Array (with_score l)) (zpop_min now key count m))
  | Command.ZPopMax key count =>
      Some (reply (fun l => Response.Array (with_score l)) (zpop_max now key count m))
  | Command.Type' key => Some (m, Ok (Response.Value (type_of now key m)))
  | Command.Rename key new_key => Some (reply (fun _ => Response.Ok) (rename now key new_key m))
  | Command.RandomKey => Some (m, Ok (value_or_nil (random_key now m)))
  | _ => None
  end.

(** Streams. *)
Definition execute_streams (now wall : Z) (cmd : Command.t) (m : M) : option (M * res Response.t) :=
  match cmd with
  | Command.XAdd key id fields => Some (xadd_reply now wall key id fields m)
  | Command.XLen key => Some (read_reply Response.Integer (xlen now key m) m)
  | Command.XRange key start end' count => Some (xrange_reply now key start end' count m)
  | Command.XRead count keys ids => Some (xread_reply now count keys ids m)
  | _ => None
  end.

Definition or_else {A} (a b : option A) : option A := match a with Some _ => a | None => b end.

Definition execute_storage (now wall : Z) (cmd : Command.t) (m : M) : option (M * res Response.t) :=
  or_else (execute_strings now wall cmd m) (
  or_else (execute_hashes now wall cmd m) (
  or_else (execute_lists now wall cmd m) (
  or_else (execute_sets now wall cmd m) (
  or_else (execute_zsets now wall cmd m) (
  or_else (execute_keyspace now wall cmd m) (
  or_else (execute_ttl now wall cmd m) (
  or_else (execute_strings2 now wall cmd m) (
  or_else (execute_hashes_lists2 now wall cmd m) (
  or_else (execute_sets_zsets2 now wall cmd m) (
  execute_streams now wall cmd m)))))))))).
End storage_commands.

(** ** The server *)

Record Env := {
  now : Z; wall : Z; order : HashOrder; draws : Rng; random : Z; append_ok : bool
}.

(** A storage command in its environment. *)
Definition execute_at `{KeyMap M, Layout} (e : Env) : Command.t -> M -> option (M * res Response.t) :=
  let order := order e in
  let draws := draws e in
  execute_storage (now e) (wall e).

(** The replay of a command in the environment in which it ran. *)
Definition entry_in (e : Env) (cmd : Command.t) : log_entry := {|
  at_now := now e; at_wall := wall e; at_order := order e; at_draws := draws e; command := cmd |}.

(** [ConnState]. *)
Module Conn.
Record t := mk {
  authed_user : option bytes;
  sub : SubscriberState.t;
  tx : TxState.t;
}.
Definition new : t := mk None SubscriberState.new TxState.new.
Definition set_user (u : bytes) (c : t) : t := mk (Some u) (sub c) (tx c).
Definition set_sub (s : SubscriberState.t) (c : t) : t := mk (authed_user c) s (tx c).
Definition set_tx (x : TxState.t) (c : t) : t := mk (authed_user c) (sub c) x.
End Conn.

(** What the connections share.  [wal] holds what was appended to the log and
    [replicator] what was handed to the replicas; [boxes] are the mailboxes of
    the subscribers. *)
Module Server.
Record t {M B : Type} := mk {
  storage : M;
  wal : option (list Command.t);
  replicator : option (list Command.t);
  auth : option AuthManager.t;
  ring : option ConsistentHashRing;
  local_node_id : option bytes;
  pubsub : PubSub.t;
  boxes : B;
  versions : ShardVersions.t;
  lua : LuaEngine.t;
}.
Arguments t : clear implicits.

Section setters.
Context {M B : Type}.
Implicit Types s : t M B.
Definition set_storage m s := mk M B m (wal s) (replicator s) (auth s) (ring s) (local_node_id s)
  (pubsub s) (boxes s) (versions s) (lua s).
Definition set_logs w r s := mk M B (storage s) w r (auth s) (ring s) (local_node_id s)
  (pubsub s) (boxes s) (versions s) (lua s).
Definition set_auth a s := mk M B (storage s) (wal s) (replicator s) a (ring s) (local_node_id s)
  (pubsub s) (boxes s) (versions s) (lua s).
Definition set_pubsub p b s := mk M B (storage s) (wal s) (replicator s) (auth s) (ring s)
  (local_node_id s) p b (versions s) (lua s).
Definition set_versions v s := mk M B (storage s) (wal s) (replicator s) (auth s) (ring s)
  (local_node_id s) (pubsub s) (boxes s) v (lua s).
Definition set_lua l s := mk M B (storage s) (wal s) (replicator s) (auth s) (ring s)
  (local_node_id s) (pubsub s) (boxes s) (versions s) l.
End setters.

(** [CacheServer::new], with the log and the replicator a configuration adds. *)
Definition new `{KeyMap M, Mpsc B} (wal replicator : option (list Command.t))
    (auth : option AuthManager.t) : t M B :=
  mk M B empty_map wal replicator auth None None PubSub.new no_mailboxes
    (ShardVersions.new (Z.to_nat SHARD_COUNT)) LuaEngine.new.
End Server.

Section server.
Context `{KeyMap M, Mpsc B, Layout, Xxh3, UnicodeCase, Argon2, Lua, Sha1}.
Implicit Types (s : Server.t M B) (c : Conn.t).

(** ** Counting writes *)

Fixpoint bump_all (l : list nat) (v : ShardVersions.t) : res ShardVersions.t :=
  match l with
  | [] => Ok v
  | i :: l => v ← ShardVersions.bump i v; bump_all l v
  end.

Definition bump_versions_for (cmd : Command.t) (v : ShardVersions.t) : res ShardVersions.t :=
  let idx k := shard_index_for k SHARD_COUNT in
  match cmd with
  | Command.MSet pairs => bump_all (map (fun '(k, _) => idx k) pairs) v
  | Command.RPopLPush source destination => bump_all [idx source; idx destination] v
  | Command.SMove source destination _ => bump_all [idx source; idx destination] v
  | Command.Rename key new_key => bump_all [idx key; idx new_key] v
  | Command.FlushAll => bump_all (seq 0 (Z.to_nat SHARD_COUNT)) v
  | _ => match command_key cmd with
         | Some k => ShardVersions.bump (idx k) v
         | None => Ok v
         end
  end.

(** [wal.append_command(&cmd)], whose result is dropped, and
    [rep.replicate_write(cmd)]. *)
Definition log_write (e : Env) (cmd : Command.t) s : Server.t M B :=
  Server.set_logs
    (if append_ok e then (fun l => l ++ [cmd]) <$> Server.wal s else Server.wal s)
    ((fun l => l ++ [cmd]) <$> Server.replicator s) s.

(** The write of a command: logged, replicated and counted. *)
Definition record_write (e : Env) (cmd : Command.t) s : res (Server.t M B) :=
  v ← bump_versions_for cmd (Server.versions s);
  Ok (Server.set_versions v (log_write e cmd s)).

Fixpoint persist_script_writes (e : Env) (script_writes : list Command.t) s : res (Server.t M B) :=
  match script_writes with
  | [] => Ok s
  | w :: script_writes => s ← record_write e w s; persist_script_writes e script_writes s
  end.

(** ** Gates *)

(** The redirection to the node that owns the key, if it is another one. *)
Definition moved (cmd : Command.t) s : option Response.t :=
  match Server.ring s, Server.local_node_id s with
  | Some ring, Some local_id =>
      key ← command_key cmd;
      target ← node_for_key key ring;
      if negb (bool_decide (Node.id target = local_id)) then
        Some (Response.Error (bs "MOVED " ++ show_int (slot_for_key key) ++ bs " " ++ Node.addr target))
      else None
  | _, _ => None
  end.

Definition is_auth_or_ping (cmd : Command.t) : bool :=
  match cmd with Command.Auth _ _ | Command.Ping => true | _ => false end.

Definition noauth : Response.t := Response.Error (bs "NOAUTH Authentication required.").
Definition noperm (cname : bytes) : Response.t :=
  Response.Error (bs "NOPERM this user has no permissions to run the '" ++ to_lowercase cname ++
                  bs "' command").

(** The refusal of the authentication gate, if it refuses. *)
Definition denied (cmd : Command.t) c s : option Response.t :=
  match Server.auth s with
  | None => None
  | Some am =>
      if AuthManager.is_auth_required am && bool_decide (Conn.authed_user c = None)
         && negb (is_auth_or_ping cmd)
      then Some noauth
      else match Conn.authed_user c with
           | Some user =>
               if negb (is_auth_or_ping cmd) then
                 let cname := command_name cmd in
                 let key_str := from_utf8_lossy <$> command_key cmd in
                 if negb (AuthManager.check_permission user cname key_str am)
                 then Some (noperm cname) else None
               else None
           | None => None
           end
  end.

Definition build_script_acl c s : AclCheck :=
  match Server.auth s, Conn.authed_user c with
  | Some am, Some user =>
      if AuthManager.is_auth_required am then
        fun cmd key => AuthManager.check_permission user cmd (from_utf8_lossy <$> key) am
      else allow_all_acl
  | _, _ => allow_all_acl
  end.

(** ** Dispatch *)

(** The outcome of a command: server, connection and reply, or a panic. *)
Definition outcome : Type := res (Server.t M B * Conn.t * Response.t).

(** A script ran: its writes are already in the storage and are now logged. *)
Definition finish_script (e : Env) (r : res (M * list Command.t * Response.t)) c s : outcome :=
  '(m, script_writes, resp) ← r;
  s ← persist_script_writes e script_writes (Server.set_storage m s);
  Ok (s, c, resp).

Fixpoint subscribe_loop (chs : list bytes) (out : bytes) c s : Server.t M B * Conn.t * bytes :=
  match chs with
  | [] => (s, c, out)
  | ch :: chs =>
      let '(sub, boxes, tx) := SubscriberState.ensure_sender (Conn.sub c) (Server.boxes s) in
      let s := Server.set_pubsub (PubSub.subscribe ch tx (Server.pubsub s)) boxes s in
      let subscribed :=
        if bool_decide (ch ∈ SubscriberState.channels sub) then SubscriberState.channels sub
        else SubscriberState.channels sub ++ [ch] in
      let sub := SubscriberState.mk (SubscriberState.tx sub) (SubscriberState.rx sub) subscribed in
      subscribe_loop chs (out ++ subscribe_frame ch (len subscribed)) (Conn.set_sub sub c) s
  end.

Fixpoint unsubscribe_loop (chs : list bytes) (out : bytes) c s : Server.t M B * Conn.t * bytes :=
  match chs with
  | [] => (s, c, out)
  | ch :: chs =>
      let sub := Conn.sub c in
      let subscribed := filter (fun x => x <> ch) (SubscriberState.channels sub) in
      let sub := SubscriberState.mk (SubscriberState.tx sub) (SubscriberState.rx sub) subscribed in
      let s := Server.set_pubsub (PubSub.prune_closed (Server.boxes s) ch (Server.pubsub s))
                 (Server.boxes s) s in
      unsubscribe_loop chs (out ++ unsubscribe_frame ch (len subscribed)) (Conn.set_sub sub c) s
  end.

Fixpoint watch_loop (ks : list bytes) (v : ShardVersions.t) (x : TxState.t) : res TxState.t :=
  match ks with
  | [] => Ok x
  | k :: ks =>
      let idx := shard_index_for k SHARD_COUNT in
      n ← ShardVersions.read idx v;
      watch_loop ks v (TxState.watch idx n x)
  end.

(** The queued commands of [EXEC], one after the other; the [i]-th reads
    [es (S i)]. *)
Fixpoint run_queue (run : (nat -> Env) -> Command.t -> Conn.t -> Server.t M B -> outcome)
    (es : nat -> Env) (q : list Command.t) (out : bytes) c s : outcome :=
  match q with
  | [] => Ok (s, c, Response.Raw out)
  | cmd :: q =>
      let es := fun i => es (S i) in
      '(s, c, r) ← run es cmd c s;
      run_queue run es q (out ++ serialize_response r) c s
  end.

Definition exec_command run (es : nat -> Env) c s : outcome :=
  let '(tx, queue) := TxState.take_queue (Conn.tx c) in
  match queue with
  | None => Ok (s, Conn.set_tx tx c, Response.Error (bs "ERR EXEC without MULTI"))
  | Some q =>
      changed ← TxState.any_watched_changed (Server.versions s) tx;
      let c := Conn.set_tx (TxState.unwatch tx) c in
      if changed : bool then Ok (s, c, Response.Raw nil_array)
      else run_queue run es q (array_header (len q)) c s
  end.

Definition auth_command (e : Env) (username : option bytes) (password : bytes) c s : outcome :=
  let user := match username with Some u => from_utf8_lossy u | None => bs "default" end in
  let pass := from_utf8_lossy password in
  match Server.auth s with
  | Some am =>
      let '(am, session) := AuthManager.authenticate (now e) (random e) user pass am in
      let s := Server.set_auth (Some am) s in
      match session with
      | Some _ => Ok (s, Conn.set_user user c, Response.Ok)
      | None => Ok (s, c, Response.Error
                  (bs "WRONGPASS invalid username-password pair or user is disabled."))
      end
  | None => Ok (s, c, Response.Error
      (bs "ERR Client sent AUTH, but no password is set. Did you mean AUTH <username> <password>?"))
  end.

(** The [match cmd] of [execute_command]; [run] executes the commands that
    [EXEC] took from the queue. *)
Definition dispatch run (es : nat -> Env) (cmd : Command.t) c s : outcome :=
  let e := es 0%nat in
  match execute_at e cmd (Server.storage s) with
  | Some (m, r) => r ← r; Ok (Server.set_storage m s, c, r)
  | None =>
      match cmd with
      | Command.LuaEval script keys argv =>
          let acl := build_script_acl c s in
          let '(lua, r) := LuaEngine.run (now e) acl script keys argv (Server.storage s) (Server.lua s) in
          finish_script e r c (Server.set_lua lua s)
      | Command.LuaEvalSha sha keys argv =>
          let acl := build_script_acl c s in
          finish_script e
            (LuaEngine.run_sha (now e) acl sha keys argv (Server.storage s) (Server.lua s)) c s
      | Command.Publish ch x =>
          let '(boxes, n) := PubSub.publish ch x (Server.pubsub s) (Server.boxes s) in
          Ok (Server.set_pubsub (Server.pubsub s) boxes s, c, Response.Integer n)
      | Command.Subscribe chs =>
          let '(s, c, out) := subscribe_loop chs [] c s in Ok (s, c, Response.Raw out)
      | Command.Unsubscribe chs =>
          let to_remove := if bool_decide (chs = []) then SubscriberState.channels (Conn.sub c) else chs in
          let '(s, c, out) := unsubscribe_loop to_remove [] c s in Ok (s, c, Response.Raw out)
      | Command.Multi =>
          if TxState.in_multi (Conn.tx c) then
            Ok (s, c, Response.Error (bs "ERR MULTI calls can not be nested"))
          else Ok (s, Conn.set_tx (TxState.start (Conn.tx c)) c, Response.Ok)
      | Command.Discard =>
          if negb (TxState.in_multi (Conn.tx c)) then
            Ok (s, c, Response.Error (bs "ERR DISCARD without MULTI"))
          else Ok (s, Conn.set_tx (TxState.discard (Conn.tx c)) c, Response.Ok)
      | Command.Watch keys =>
          if TxState.in_multi (Conn.tx c) then
            Ok (s, c, Response.Error (bs "ERR WATCH inside MULTI is not allowed"))
          else
            tx ← watch_loop keys (Server.versions s) (Conn.tx c);
            Ok (s, Conn.set_tx tx c, Response.Ok)
      | Command.Unwatch => Ok (s, Conn.set_tx (TxState.unwatch (Conn.tx c)) c, Response.Ok)
      | Command.Exec => exec_command run es c s
      | Command.Auth username password => auth_command e username password c s
      | _ => Panic
      end
  end.

(** The body of [execute_command]: the gates, the recording of a write and the
    dispatch. *)
Definition execute_with run (es : nat -> Env) (cmd : Command.t) c s : outcome :=
  if TxState.in_multi (Conn.tx c) && negb (is_tx_control cmd) then
    Ok (s, Conn.set_tx (TxState.enqueue cmd (Conn.tx c)) c, Response.Raw queued_reply)
  else match moved cmd s with
       | Some r => Ok (s, c, r)
       | None =>
           match denied cmd c s with
           | Some r => Ok (s, c, r)
           | None =>
               s ← (if is_write_command cmd then record_write (es 0%nat) cmd s else Ok s);
               dispatch run es cmd c s
           end
       end.

(** A queued command is not [EXEC], so the recursion is two deep
    ([execute_fuel_enough]). *)
Fixpoint execute_fuel (fuel : nat) (es : nat -> Env) (cmd : Command.t) c s : outcome :=
  match fuel with
  | O => Panic
  | S fuel => execute_with (execute_fuel fuel) es cmd c s
  end.
Definition execute_command : (nat -> Env) -> Command.t -> Conn.t -> Server.t M B -> outcome :=
  execute_fuel 2.

(** [parse_command], [execute_command] and [serialize_response] of one frame. *)
Definition handle_frame `{RespDebug} (es : nat -> Env) (v : RespValue) c s
  : res (Server.t M B * Conn.t * bytes) :=
  match parse_command v with
  | Ok cmd =>
      '(s, c, r) ← execute_command es cmd c s; Ok (s, c, serialize_response r)
  | Err e => Ok (s, c, serialize_response (Response.Error (bs "ERR " ++ e)))
  | Panic => Panic
  end.
End server.
