(* ===== verification/ServerFacts.v ===== *)
(** * ServerFacts: what a command does to the server, as a log

    Everything a command does to the storage, it does through writes that are
    logged, replicated and counted ([logged]).  The rest of the file shows it of
    the storage commands, of scripts, of [EXEC] and of all of
    [execute_command]. *)

From S2P Require Import Prelude Text External Float64 Values SortedSet Stream Keyspace Storage.
From S2P Require Import StorageTypes ShardedMap Resp Command Apply ApplyFacts Ring Transactions.
From S2P Require Import Security PubSub Scripting Server.
#[local] Open Scope Z_scope.

(** ** Execution and replay of one command *)

(** A command that replay reads the way execution does: execution refuses a
    stream id that does not parse where replay draws a new one, and deletes the
    key at a negative [EXPIREAT] where replay does nothing. *)
Definition replayable (cmd : Command.t) : bool :=
  match cmd with
  | Command.XAdd _ (Some id) _ => is_ok (StreamId.parse id false)
  | Command.ExpireAt _ unix_secs => 0 <=? unix_secs
  | _ => true
  end.

(** The arm of a command. *)
Ltac to_arm :=
  cbn [execute_storage or_else execute_strings execute_hashes execute_lists execute_sets execute_zsets execute_keyspace
       execute_ttl execute_strings2 execute_hashes_lists2 execute_sets_zsets2 execute_streams].
Ltac to_arm_in Hx :=
  cbn [execute_storage or_else execute_strings execute_hashes execute_lists execute_sets execute_zsets execute_keyspace
       execute_ttl execute_strings2 execute_hashes_lists2 execute_sets_zsets2 execute_streams] in Hx.

Section storage.
Context `{KeyMapLaws M, HashOrder, Rng, Layout}.
Implicit Types m : M.

(** An execution and a replay that end in the same map, or both panic. *)
Definition agrees (x : M * res Response.t) (y : res M) : Prop :=
  match snd x with
  | Ok _ => y = Ok (fst x)
  | Err _ => False
  | Panic => y = Panic
  end.

Lemma agrees_reply {A} (f : A -> Response.t) (p : M * res A) : agrees (reply f p) (dropping p).
Proof. by destruct p as [m []]. Qed.

Lemma agrees_expire now k d m : agrees (expire_reply now k d m) (expire_in now k d m).
Proof.
  unfold expire_reply, expire_in. destruct (instant_add now d) as [a|e|] eqn:E; simpl.
  - by destruct (set_expiry now k a m).
  - unfold instant_add in E. by case_match.
  - done.
Qed.

Lemma agrees_mset now pairs m : agrees (mset_reply now pairs m) (mset now pairs m).
Proof.
  revert m. induction pairs as [|[k v] pairs IH]; intros m; cbn [mset_reply mset]; [done|].
  destruct (set now k v None m) as [m' []]; simpl; [apply IH..|done].
Qed.

(** A refused [HSET] leaves the map as it is, and so does the next one. *)
Lemma hset_err k f v m m' e : inv m -> hset k f v m = (m', Err e) ->
  m' = m /\ forall f' v', hset k f' v' m = (m, Err e).
Proof.
  intros Hm. unfold hset, with_entry. pose proof (set_entry_id k m Hm) as Hid.
  destruct (entry k m) as [[]|]; simpl; rewrite ?Hid; try done; by intros [= <- <-].
Qed.

Lemma hmset_err k e pairs m : (forall f' v', hset k f' v' m = (m, Err e)) -> hmset k pairs m = Ok m.
Proof.
  intros Hh. induction pairs as [|[f v] pairs IH]; cbn [hmset]; [done|]. by rewrite Hh.
Qed.

Lemma hset_inv k f v m : inv m -> inv (fst (hset k f v m)).
Proof. apply with_entry_inv. Qed.

Lemma agrees_hmset k pairs m : inv m -> agrees (hmset_reply k pairs m) (hmset k pairs m).
Proof.
  revert m. induction pairs as [|[f v] pairs IH]; intros m Hm; cbn [hmset_reply hmset]; [done|].
  pose proof (hset_inv k f v m Hm) as Hi.
  destruct (hset k f v m) as [m' []] eqn:E; simpl in *; [by apply IH| |done].
  destruct (hset_err _ _ _ _ _ _ Hm E) as [-> Hh]. by eapply hmset_err.
Qed.

Lemma agrees_xadd now wall k id fs m : replayable (Command.XAdd k id fs) = true ->
  agrees (xadd_reply now wall k id fs m) (dropping (xadd now wall k (replay_id id) fs m)).
Proof.
  intros Hr. unfold xadd_reply, replay_id. destruct id as [s|]; [|apply agrees_reply].
  simpl in Hr. destruct (StreamId.parse s false); try done. apply agrees_reply.
Qed.

(** What a write does live is what replay does with it. *)
Lemma execute_storage_write now wall cmd m : inv m ->
  is_write_command cmd = true -> replayable cmd = true ->
  exists x, execute_storage now wall cmd m = Some x /\ agrees x (apply_write_command now wall cmd m).
Proof.
  intros Hm Hw Hr. destruct cmd; try discriminate Hw; to_arm; cbn [apply_write_command];
    try (eexists; split; [done | apply agrees_reply]).
  - unfold delete, with_entry. by eexists.
  - by eexists.
  - eexists; split; [done|]. destruct (u64_try_from seconds); [apply agrees_expire | done].
  - eexists; split; [done|]. destruct (u64_try_from millis); [apply agrees_expire | done].
  - simpl in Hr. eexists; split; [done|]. unfold u64_try_from. rewrite Hr.
    destruct (Z.leb_spec unix_secs (unix_secs_of wall)).
    + replace (unix_secs_of wall <? unix_secs) with false by lia. by destruct (delete key m).
    + replace (unix_secs_of wall <? unix_secs) with true by lia. apply agrees_expire.
  - destruct (persist now key m) eqn:E. eexists; split; [done|]. done.
  - destruct (set_nx now key value m) eqn:E. eexists; split; [done|]. done.
  - eexists; split; [done | apply agrees_mset].
  - eexists; split; [done | by apply agrees_hmset].
  - eexists; split; [done | by apply agrees_xadd].
Qed.

(** A command that is not a write leaves the map as it is. *)
Lemma execute_storage_read now wall cmd m m' r : is_write_command cmd = false ->
  execute_storage now wall cmd m = Some (m', r) -> m' = m.
Proof.
  intros Hw. destruct cmd; try discriminate Hw; to_arm; try done;
    try (intros [= <- _]; done).
  - destruct count; intros [= <- _]; done.
  - unfold xread_reply. case_match; intros [= <- _]; done.
Qed.
End storage.

(** ** Scripts *)

(** A write of a script and the name it was checked under: [DELETE] is another
    name of [DEL]. *)
Definition checked_as (name : bytes) (w : Command.t) : Prop :=
  name = command_name w \/ name = bs "DELETE" /\ exists k, w = Command.Delete k.

Section scripts.
Context `{KeyMapLaws M, Layout, UnicodeCase}.
Implicit Types m : M.
Variable e : Env.
Variable acl : AclCheck.

(** The writes, replayed in the environment of the script. *)
Definition stamped (ws : list Command.t) : list log_entry := map (entry_in e) ws.

Lemma command_stamped ws : map command (stamped ws) = ws.
Proof. unfold stamped. rewrite map_map. apply map_id. Qed.

(** The writes were checked, and replaying them has the effect of the script. *)
Definition accounted m m' (new : list Command.t) : Prop :=
  replay (stamped new) m = Ok m' /\
  Forall (fun w => replayable w = true /\
                   exists name, checked_as name w /\ acl name (command_key w) = true) new.

Lemma accounted_nil m : accounted m m [].
Proof. by split; [|constructor]. Qed.

Lemma accounted_app m m1 m2 n1 n2 : accounted m m1 n1 -> accounted m1 m2 n2 -> accounted m m2 (n1 ++ n2).
Proof.
  intros [Hr1 HF1] [Hr2 HF2]. split; [|by apply Forall_app].
  unfold stamped. rewrite map_app, replay_app. fold (stamped n1) (stamped n2).
  by rewrite Hr1.
Qed.

Lemma accounted_one m m' name w : apply_at (entry_in e w) m = Ok m' ->
  replayable w = true -> checked_as name w -> acl name (command_key w) = true -> accounted m m' [w].
Proof.
  intros Ha Hp Hn Hacl. split; [|constructor; [|constructor]; eauto].
  cbn [stamped map replay]. by rewrite Ha.
Qed.

Lemma with_entry_err {A} k (f : option CacheValue -> option CacheValue * res A) m m' msg : inv m ->
  (forall x, snd (f (entry k m)) = Err x -> fst (f (entry k m)) = entry k m) ->
  with_entry k f m = (m', Err msg) -> m' = m.
Proof.
  intros Hm Hf Hw. pose proof (with_entry_same k f m Hm) as Hs.
  pose proof (with_entry_result k f m) as Hr. rewrite Hw in Hs, Hr. simpl in *.
  apply Hs. by apply (Hf msg).
Qed.

Lemma recorded_accounted {A} (op : M * res A) w f ws m m' ws' r name :
  dropping op = apply_at (entry_in e w) m ->
  (forall m1 msg, op = (m1, Err msg) -> m1 = m) ->
  replayable w = true -> checked_as name w -> acl name (command_key w) = true ->
  recorded op w f ws = Ok (m', ws', r) -> exists new, ws' = ws ++ new /\ accounted m m' new.
Proof.
  intros Hd He Hp Hn Hacl Hr. destruct op as [m1 [a|msg|]]; simpl in *; try done.
  - injection Hr as <- <- _. exists [w]. split; [done|]. by eapply accounted_one.
  - injection Hr as <- <- _. exists []. rewrite app_nil_r. split; [done|].
    rewrite (He m1 msg) by done. apply accounted_nil.
Qed.

Lemma nothing_recorded m ws m' ws' (r r' : Response.t) : Ok (m, ws, r) = Ok (m', ws', r') ->
  exists new, ws' = ws ++ new /\ accounted m m' new.
Proof.
  intros [= <- <- _]. exists []. rewrite app_nil_r. split; [done | apply accounted_nil].
Qed.

(** The operations a script can call leave the map as it is when they fail. *)
Ltac same_on_err :=
  intros ? ?;
  first [ apply with_entry_err; [assumption|]; intros ?;
          destruct (entry _ _) as [[]|]; simpl; repeat case_match; simpl; done
        | done ].

Lemma delete_accounted name k m ws m' ws' r : inv m ->
  checked_as name (Command.Delete k) -> acl name (Some k) = true ->
  (let '(m, deleted) := delete k m in
   Ok (m, if deleted then ws ++ [Command.Delete k] else ws,
       Response.Integer (if deleted then 1 else 0))) = Ok (m', ws', r) ->
  exists new, ws' = ws ++ new /\ accounted m m' new.
Proof.
  intros Hm Hn Hacl Hb. pose proof (with_entry_same k
    (fun e => (None, bool_decide (is_Some e))) m Hm) as Hs. fold (delete k m) in Hs.
  destruct (delete k m) as [m1 d] eqn:E. injection Hb as <- <- _.
  destruct d; [exists [Command.Delete k]|exists []]; (split; [by rewrite ?app_nil_r|]).
  - eapply accounted_one; [|done..]. unfold apply_at. cbn [entry_in command apply_write_command]. by rewrite E.
  - simpl in Hs. rewrite Hs; [apply accounted_nil|].
    pose proof (f_equal snd E) as Hd. unfold delete, with_entry in Hd. simpl in Hd.
    apply bool_decide_eq_false in Hd. by destruct (entry k m); [destruct Hd|].
Qed.

Lemma bridge_accounted cmd args m ws m' ws' r : inv m ->
  redis_call_bridge (now e) acl cmd args m ws = Ok (m', ws', r) ->
  exists new, ws' = ws ++ new /\ accounted m m' new.
Proof.
  intros Hm. unfold redis_call_bridge. set (upper := to_ascii_uppercase cmd).
  destruct (acl upper (head args)) eqn:Hacl; cbn [negb]; [|apply nothing_recorded].
  repeat (case_bool_decide as Hn; cbn [orb]; [rewrite Hn in Hacl|clear Hn]);
    destruct args as [|k [|x [|y args]]]; cbn [head] in Hacl; try apply nothing_recorded;
    try (eapply recorded_accounted;
         [reflexivity | same_on_err | reflexivity | left; reflexivity | eassumption]).
  all: eapply delete_accounted; [done| |eassumption].
  all: first [left; reflexivity | right; split; [reflexivity | by eexists]].
Qed.

Lemma call_accounted args m ws m' ws' v : inv m ->
  call_fn (now e) acl args m ws = Ok (m', ws', v) ->
  exists new, ws' = ws ++ new /\ accounted m m' new.
Proof.
  intros Hm. unfold call_fn. destruct (lua_string_arg args 0) as [cmd|].
  - intros Hc. inv_bind Hc. destruct a as [[m1 ws1] r1]. injection Hc as <- <- _.
    by eapply bridge_accounted.
  - intros [= <- <- _]. exists []. rewrite app_nil_r. split; [done | apply accounted_nil].
Qed.

Lemma tree_accounted t m ws m' ws' v : inv m ->
  run_tree (now e) acl t m ws = Ok (m', ws', v) ->
  exists new, ws' = ws ++ new /\ accounted m m' new.
Proof.
  revert m ws. induction t as [v0|msg|args k IH]; intros m ws Hm; cbn [run_tree].
  - intros [= <- <- _]. exists []. rewrite app_nil_r. split; [done | apply accounted_nil].
  - intros [= <- <- _]. exists []. rewrite app_nil_r. split; [done | apply accounted_nil].
  - destruct (call_fn (now e) acl args m ws) as [[[m1 ws1] v1]| |] eqn:E; [|done..].
    destruct (call_accounted _ _ _ _ _ _ Hm E) as (n1 & -> & H1'). intros Ht.
    apply IH in Ht as (n2 & -> & H2'); [|by eapply replay_inv, H1'].
    exists (n1 ++ n2). rewrite app_assoc. split; [done|]. by eapply accounted_app.
Qed.

(** The writes a script returns account for all it did to the storage. *)
Lemma script_accounted `{Lua} source ks argv m m' ws r : inv m ->
  run_script (now e) acl source ks argv m = Ok (m', ws, r) -> accounted m m' ws.
Proof.
  intros Hm. unfold run_script. destruct lua_init_error.
  - intros [= <- <- _]. apply accounted_nil.
  - intros Hr. inv_bind Hr. destruct a as [[m1 ws1] v]. injection Hr as <- <- _.
    by apply tree_accounted in Ha as (new & -> & ?).
Qed.
End scripts.

(** ** Counters *)

Section counters.
Context `{Xxh3}.

(** The shards a write counts for. *)
Definition bumps (cmd : Command.t) : list nat :=
  let idx k := shard_index_for k SHARD_COUNT in
  match cmd with
  | Command.MSet pairs => map (fun '(k, _) => idx k) pairs
  | Command.RPopLPush source destination => [idx source; idx destination]
  | Command.SMove source destination _ => [idx source; idx destination]
  | Command.Rename key new_key => [idx key; idx new_key]
  | Command.FlushAll => seq 0 (Z.to_nat SHARD_COUNT)
  | _ => match command_key cmd with Some k => [idx k] | None => [] end
  end.

Lemma bump_versions_bumps cmd v : bump_versions_for cmd v = bump_all (bumps cmd) v.
Proof.
  destruct cmd; try done; simpl; by destruct (ShardVersions.bump _ v).
Qed.

Lemma bump_all_app l1 l2 v : bump_all (l1 ++ l2) v = (v ← bump_all l1 v; bump_all l2 v).
Proof.
  revert v. induction l1 as [|i l1 IH]; intros v; simpl; [done|].
  destruct (ShardVersions.bump i v); simpl; [apply IH | done..].
Qed.

Lemma bumps_lt cmd : Forall (fun i => (i < Z.to_nat SHARD_COUNT)%nat) (bumps cmd).
Proof.
  assert (Hi : forall k, (shard_index_for k SHARD_COUNT < Z.to_nat SHARD_COUNT)%nat)
    by (intros k; apply shard_index_lt).
  destruct cmd; cbn [bumps command_key];
    repeat first [apply Forall_nil_2 | apply Forall_cons_2; [apply Hi|]].
  - apply Forall_forall. intros i Hin%elem_of_seq. lia.
  - apply Forall_forall. intros i ([k v] & -> & _)%list_elem_of_fmap. apply Hi.
Qed.

(** Counting a list of shards succeeds, and adds to each counter, modulo 2^64,
    how often it is in the list. *)
Lemma bump_all_version l v : versions_wf v -> Forall (fun i => (i < Z.to_nat SHARD_COUNT)%nat) l ->
  exists v', bump_all l v = Ok v' /\ versions_wf v' /\
    forall i, version i v' mod 2 ^ 64 = (version i v + Z.of_nat (copies i l)) mod 2 ^ 64.
Proof.
  intros Hv HF. revert v Hv. induction HF as [|i l Hi HF IH]; intros v Hv; simpl.
  { exists v. split; [done|]. split; [done|]. intros i. f_equal. unfold copies. simpl. lia. }
  destruct (bump_version i v Hv Hi) as (v1 & -> & Hv1 & Hver). simpl.
  destruct (IH v1 Hv1) as (v2 & Hb & Hv2 & Hver2). exists v2. split; [done|]. split; [done|].
  intros j. rewrite Hver2, Hver. unfold copies. rewrite filter_cons.
  destruct (decide (j = i)) as [->|Hj].
  - rewrite decide_True by done. unfold wrap_u64. rewrite Zplus_mod_idemp_l. f_equal. simpl. lia.
  - by rewrite decide_False by congruence.
Qed.
End counters.

(** ** What a write touches *)

Section effects.
Context `{KeyMapLaws M, Layout, Xxh3}.
Implicit Types m : M.

(** The write may change the entry of the key. *)
Definition is_flushall (cmd : Command.t) : bool := match cmd with Command.FlushAll => true | _ => false end.
Definition touches (cmd : Command.t) (k : bytes) : Prop := is_flushall cmd = true \/ k ∈ touched cmd.
#[global] Instance touches_dec cmd (k : bytes) : Decision (touches cmd k).
Proof. unfold touches. apply _. Defined.

Lemma touched_bumps cmd k : k ∈ touched cmd -> shard_index k ∈ bumps cmd.
Proof.
  destruct cmd; cbn [touched bumps command_key]; rewrite ?elem_of_nil, ?elem_of_cons, ?elem_of_nil;
    try tauto; try (by intros [->|[]]; left); try (by intros [->|[->|[]]]; auto).
  intros ([a v] & -> & Hin)%list_elem_of_fmap. apply list_elem_of_fmap. by exists (a, v).
Qed.

Lemma flushall_bumps k : shard_index k ∈ bumps Command.FlushAll.
Proof. cbn [bumps]. apply elem_of_seq. pose proof (shard_index_lt k). lia. Qed.

(** The counter of a key's shard counts the writes that touch the key. *)
Lemma touches_bumps cmd k : touches cmd k -> shard_index k ∈ bumps cmd.
Proof. intros [Hf|Ht]; [destruct cmd; try discriminate Hf; apply flushall_bumps | by apply touched_bumps]. Qed.

Lemma apply_untouched e m m' k : inv m -> apply_at e m = Ok m' -> ~ touches (command e) k ->
  entry k m' = entry k m.
Proof.
  intros Hm Ha Hn.
  pose proof (@apply_frame _ _ _ (at_order e) (at_draws e) _ k (at_now e) (at_wall e) (command e) m Hm) as Hf.
  unfold apply_at in Ha. rewrite Ha in Hf. apply Hf; intros Hx; apply Hn; [left; by rewrite Hx | by right].
Qed.

Lemma apply_at_inv e m m' : inv m -> apply_at e m = Ok m' -> inv m'.
Proof. intros Hm Ha. apply (replay_inv [e] m); [done|]. simpl. by rewrite Ha. Qed.

Lemma replay_untouched log m m' k : inv m -> replay log m = Ok m' ->
  Forall (fun w => ~ touches w k) (map command log) -> entry k m' = entry k m.
Proof.
  revert m. induction log as [|e log IH]; intros m Hm Hr Hk; cbn [replay] in Hr; [by injection Hr as <-|].
  inv_bind Hr. cbn [map] in Hk. apply Forall_cons in Hk as [He Hk].
  rewrite (IH a) by (done || by eapply apply_at_inv). by eapply apply_untouched.
Qed.

(** What a write that is answered does, whether it replays or not. *)
Lemma execute_untouched e cmd m m' r : inv m -> is_write_command cmd = true ->
  execute_at e cmd m = Some (m', Ok r) ->
  inv m' /\ (forall k, ~ touches cmd k -> entry k m' = entry k m) /\
  (replayable cmd = true -> apply_at (entry_in e cmd) m = Ok m').
Proof.
  intros Hm Hw Hx. destruct (replayable cmd) eqn:Hr.
  - destruct (@execute_storage_write _ _ _ (order e) (draws e) _ (now e) (wall e) cmd m Hm Hw Hr) as ([m1 r1] & Hx' & Hag).
    unfold execute_at in Hx. rewrite Hx in Hx'. injection Hx' as <- <-. unfold agrees in Hag. simpl in Hag.
    split; [by apply (apply_at_inv (entry_in e cmd) m)|]. split; [|done].
    intros k. by apply (apply_untouched (entry_in e cmd)).
  - destruct cmd; try discriminate Hr; unfold execute_at in Hx; to_arm_in Hx.
    + simpl in Hr. assert (0 <= unix_secs_of (wall e)).
      { unfold unix_secs_of. destruct (Z.leb_spec 0 (wall e)); [apply Z.div_pos; lia | lia]. }
      replace (unix_secs <=? unix_secs_of (wall e)) with true in Hx by lia.
      pose proof (with_entry_inv key (fun x => (None, bool_decide (is_Some x))) m Hm) as Hi.
      pose proof (fun j => with_entry_entry key (fun x => (None, bool_decide (is_Some x))) m j Hm) as He.
      fold (delete key m) in Hi, He. destruct (delete key m) as [m1 b]. injection Hx as <- _.
      split; [done|]. split; [|done]. intros k Hk. simpl in He. rewrite He, decide_False; [done|].
      intros ->. apply Hk. right. apply list_elem_of_here.
    + unfold xadd_reply in Hx. destruct id as [i|]; [|done]. simpl in Hr, Hx.
      destruct (StreamId.parse i false); try done; injection Hx as <- _; split; try done; by split.
Qed.
End effects.

(** ** The log of a step *)

Section logged.
Context `{KeyMapLaws M, Mpsc B, Layout, Xxh3, UnicodeCase, Argon2, Lua, Sha1}.
Implicit Types (s : Server.t M B) (c : Conn.t).

(** What holds when all commands replay the way they execute and the log takes
    every append; without it the writes still account for the changes. *)
Variable P : Prop.

(** The part of the authentication state that decides permissions. *)
Definition policy s : option (gmap bytes User.t * bool) :=
  (fun am => (AuthManager.users am, AuthManager.require_auth am)) <$> Server.auth s.

(** From [s] to [s'] the writes [new] were done: they touch all that changed,
    they were replicated and counted, and if [P] they are what was logged and
    replaying them gives the storage. *)
Record logged s s' (new : list log_entry) : Prop := {
  lg_inv : inv (Server.storage s');
  lg_frame : forall k, Forall (fun w => ~ touches w k) (map command new) ->
    entry k (Server.storage s') = entry k (Server.storage s);
  lg_storage : P -> replay new (Server.storage s) = Ok (Server.storage s');
  lg_wal : P -> Server.wal s' = (fun l => l ++ map command new) <$> Server.wal s;
  lg_replicator : Server.replicator s' = (fun l => l ++ map command new) <$> Server.replicator s;
  lg_versions : bump_all (concat (map bumps (map command new))) (Server.versions s) =
                Ok (Server.versions s');
  lg_policy : policy s' = policy s;
}.

Lemma logged_same s s' : Server.storage s' = Server.storage s -> Server.wal s' = Server.wal s ->
  Server.replicator s' = Server.replicator s -> Server.versions s' = Server.versions s ->
  policy s' = policy s -> inv (Server.storage s) -> logged s s' [].
Proof.
  intros E1 E2 E3 E4 E5 Hi. split; simpl; rewrite ?E1, ?E4; try done.
  - intros _. rewrite E2. destruct (Server.wal s); simpl; by rewrite ?app_nil_r.
  - rewrite E3. destruct (Server.replicator s); simpl; by rewrite ?app_nil_r.
Qed.

Lemma logged_trans s s1 s2 n1 n2 : logged s s1 n1 -> logged s1 s2 n2 -> logged s s2 (n1 ++ n2).
Proof.
  intros [A0 A1 A2 A3 A4 A5 A6] [B0 B1 B2 B3 B4 B5 B6]. split; rewrite ?map_app; [done|..].
  - intros k [H1' H2']%Forall_app. by rewrite B1, A1.
  - intros HP. rewrite replay_app, A2 by done. by apply B2.
  - intros HP. rewrite B3, A3 by done. destruct (Server.wal s); simpl; by rewrite ?app_assoc.
  - rewrite B4, A4. destruct (Server.replicator s); simpl; by rewrite ?app_assoc.
  - by rewrite ?map_app, concat_app, bump_all_app, A5.
  - by rewrite B6.
Qed.

(** ** Who may write *)

Definition is_auth (cmd : Command.t) : bool :=
  match cmd with Command.Auth _ _ => true | _ => false end.

Definition queue_of c : list Command.t := default [] (TxState.queue (Conn.tx c)).

(** The user's rules allow the write, by the name it was checked under. *)
Definition permitted (am : AuthManager.t) (user : bytes) (w : Command.t) : Prop :=
  exists name, checked_as name w /\
    AuthManager.check_permission user name (from_utf8_lossy <$> command_key w) am = true.

(** Without [AUTH] in between, the user of the connection stays and all writes
    are permitted to them. *)
Definition guarded s c c' (new : list log_entry) : Prop :=
  forall am user, Server.auth s = Some am -> AuthManager.require_auth am = true ->
  Conn.authed_user c = Some user -> Forall (fun q => is_auth q = false) (queue_of c) ->
  Conn.authed_user c' = Some user /\ Forall (fun q => is_auth q = false) (queue_of c') /\
  Forall (fun e => permitted am user (command e)) new.

Lemma permitted_policy am am' user w :
  (AuthManager.users am, AuthManager.require_auth am) =
  (AuthManager.users am', AuthManager.require_auth am') ->
  permitted am user w -> permitted am' user w.
Proof.
  intros [= Hu Hr] (name & Hn & Hp). exists name. split; [done|].
  unfold AuthManager.check_permission in *. by rewrite <- Hu, <- Hr.
Qed.

Lemma guarded_trans s s1 c c1 c2 n1 n2 : policy s1 = policy s ->
  guarded s c c1 n1 -> guarded s1 c1 c2 n2 -> guarded s c c2 (n1 ++ n2).
Proof.
  intros Hp G1 G2 am user Ha Hreq Hu Hq. destruct (G1 am user Ha Hreq Hu Hq) as (Hu1 & Hq1 & HF1).
  unfold policy in Hp. rewrite Ha in Hp. destruct (Server.auth s1) as [am1|] eqn:Ea; [|done].
  simpl in Hp. pose proof Hp as Hp'. injection Hp as E1 E2.
  destruct (G2 am1 user) as (Hu2 & Hq2 & HF2); [done | by rewrite E2 | done..|].
  split; [done|]. split; [done|]. apply Forall_app. split; [done|].
  eapply Forall_impl; [exact HF2|]. intros e. apply permitted_policy. congruence.
Qed.

Lemma guarded_nil s c c' : Conn.authed_user c' = Conn.authed_user c ->
  (Forall (fun q => is_auth q = false) (queue_of c) -> Forall (fun q => is_auth q = false) (queue_of c')) ->
  guarded s c c' [].
Proof. intros Hu Hq am user _ _ Hc HF. rewrite Hu. auto. Qed.

(** ** Recording *)

Lemma record_write_fields e cmd s s1 : record_write e cmd s = Ok s1 ->
  Server.storage s1 = Server.storage s /\
  (append_ok e = true -> Server.wal s1 = (fun l => l ++ [cmd]) <$> Server.wal s) /\
  Server.replicator s1 = (fun l => l ++ [cmd]) <$> Server.replicator s /\
  bump_all (bumps cmd) (Server.versions s) = Ok (Server.versions s1) /\
  Server.auth s1 = Server.auth s.
Proof.
  intros Hr. unfold record_write in Hr. inv_bind Hr. injection Hr as <-. simpl.
  rewrite bump_versions_bumps in Ha. split_and!; try done. by intros ->.
Qed.

(** A recorded write with an effect on what it touches. *)
Lemma logged_write e cmd s s1 m : (P -> append_ok e = true) -> record_write e cmd s = Ok s1 ->
  inv m -> (forall k, ~ touches cmd k -> entry k m = entry k (Server.storage s)) ->
  (P -> apply_at (entry_in e cmd) (Server.storage s) = Ok m) ->
  logged s (Server.set_storage m s1) [entry_in e cmd].
Proof.
  intros He Hr Hm Hk Ha. destruct (record_write_fields _ _ _ _ Hr) as (E1 & E2 & E3 & E4 & E5).
  split; simpl; try done.
  - intros k [Hn _]%Forall_cons. by apply Hk.
  - intros HP. by rewrite Ha.
  - intros HP. auto.
  - by rewrite app_nil_r.
  - unfold policy. simpl. by rewrite E5.
Qed.

(** Recording the writes of a script after it ran. *)
Lemma logged_script e ws s m s' : inv (Server.storage s) -> (P -> append_ok e = true) ->
  replay (stamped e ws) (Server.storage s) = Ok m ->
  persist_script_writes e ws (Server.set_storage m s) = Ok s' -> logged s s' (stamped e ws).
Proof.
  intros Hi He. revert s Hi. induction ws as [|w ws IH]; intros s Hi Hr Hp; cbn [persist_script_writes] in Hp.
  - injection Hr as <-. injection Hp as <-. by apply logged_same.
  - cbn [stamped map replay] in Hr. inv_bind Hr. rename a into m1.
    inv_bind Hp. rename a into s1. pose proof (apply_at_inv _ _ _ Hi Ha) as Hi1.
    destruct (record_write_fields _ _ _ _ Ha0) as (E1 & E2 & E3 & E4 & E5). simpl in *.
    change (logged s s' ([entry_in e w] ++ stamped e ws)).
    apply logged_trans with (Server.set_storage m1 s1).
    + split; simpl; rewrite ?Ha, ?app_nil_r; try done.
      * intros k [Hn _]%Forall_cons. by eapply (apply_untouched (entry_in e w)).
      * auto.
      * unfold policy. simpl. by rewrite E5.
    + apply IH; [done..|]. destruct s1; simpl in *. by subst.
Qed.

(** ** One command *)

(** Queued commands are no control commands, and if [P] they can be replayed. *)
Definition conn_ok c : Prop :=
  Forall (fun q => (P -> replayable q = true) /\ is_tx_control q = false) (queue_of c).

Definition step_ok (cmd : Command.t) s c s' c' : Prop :=
  exists new, logged s s' new /\ conn_ok c' /\ (is_auth cmd = false -> guarded s c c' new).

(** A step that leaves all but the connection's transaction, subscriptions and
    the registry as they are. *)
Lemma step_same cmd s c s' c' : inv (Server.storage s) -> conn_ok c' ->
  Server.storage s' = Server.storage s -> Server.wal s' = Server.wal s ->
  Server.replicator s' = Server.replicator s -> Server.versions s' = Server.versions s ->
  policy s' = policy s ->
  (is_auth cmd = false -> Conn.authed_user c' = Conn.authed_user c) ->
  (is_auth cmd = false -> Forall (fun q => is_auth q = false) (queue_of c) ->
   Forall (fun q => is_auth q = false) (queue_of c')) ->
  step_ok cmd s c s' c'.
Proof.
  intros. exists []. split; [by apply logged_same|]. split; [done|].
  intros Ha. apply guarded_nil; auto.
Qed.

Lemma step_refl cmd s c : inv (Server.storage s) -> conn_ok c -> step_ok cmd s c s c.
Proof. intros. by apply step_same. Qed.

Lemma denied_permitted cmd c s am user : denied cmd c s = None -> is_auth_or_ping cmd = false ->
  Server.auth s = Some am -> Conn.authed_user c = Some user -> permitted am user cmd.
Proof.
  unfold denied. intros Hd Hp Ha Hu. rewrite Ha, Hu, Hp in Hd. cbn [negb] in Hd.
  rewrite bool_decide_false, andb_false_r in Hd by done. cbn [andb] in Hd.
  exists (command_name cmd). split; [by left|].
  by destruct (AuthManager.check_permission user (command_name cmd) _ am).
Qed.

Lemma write_not_auth cmd : is_write_command cmd = true -> is_auth_or_ping cmd = false.
Proof. by destruct cmd. Qed.

Lemma step_write run es cmd c s s1 s' c' r : inv (Server.storage s) -> conn_ok c ->
  (P -> replayable cmd = true) -> (P -> append_ok (es 0%nat) = true) -> is_write_command cmd = true ->
  denied cmd c s = None -> record_write (es 0%nat) cmd s = Ok s1 ->
  dispatch run es cmd c s1 = Ok (s', c', r) -> step_ok cmd s c s' c'.
Proof.
  intros Hi Hc Hp He Hw Hden Hrec Hd.
  destruct (record_write_fields _ _ _ _ Hrec) as (E1 & _ & _ & _ & _).
  unfold dispatch in Hd. rewrite E1 in Hd.
  destruct (execute_at (es 0%nat) cmd (Server.storage s)) as [[m [x| |]]|] eqn:Hx;
    [|done..|by destruct cmd].
  injection Hd as <- <- <-.
  destruct (execute_untouched _ _ _ _ _ Hi Hw Hx) as (Hm & Hk & Ha).
  eexists. split; [eapply logged_write; eauto|]. split; [done|].
  intros _ am user Hauth Hreq Hu Hq. split; [done|]. split; [done|].
  constructor; [|constructor]. eapply denied_permitted; eauto using write_not_auth.
Qed.

Lemma subscribe_loop_same chs out c s s' c' out' : subscribe_loop chs out c s = (s', c', out') ->
  Server.storage s' = Server.storage s /\ Server.wal s' = Server.wal s /\
  Server.replicator s' = Server.replicator s /\ Server.versions s' = Server.versions s /\
  Server.auth s' = Server.auth s /\
  Conn.authed_user c' = Conn.authed_user c /\ Conn.tx c' = Conn.tx c.
Proof.
  revert out c s. induction chs as [|ch chs IH]; intros out c s; cbn [subscribe_loop].
  - by intros [= <- <- _].
  - destruct (SubscriberState.ensure_sender _ _) as [[sb bx] t]. by intros Hs%IH.
Qed.

Lemma unsubscribe_loop_same chs out c s s' c' out' : unsubscribe_loop chs out c s = (s', c', out') ->
  Server.storage s' = Server.storage s /\ Server.wal s' = Server.wal s /\
  Server.replicator s' = Server.replicator s /\ Server.versions s' = Server.versions s /\
  Server.auth s' = Server.auth s /\
  Conn.authed_user c' = Conn.authed_user c /\ Conn.tx c' = Conn.tx c.
Proof.
  revert out c s. induction chs as [|ch chs IH]; intros out c s; cbn [unsubscribe_loop].
  - by intros [= <- <- _].
  - by intros Hs%IH.
Qed.

Lemma step_sub cmd s c s' c' : inv (Server.storage s) -> conn_ok c ->
  Server.storage s' = Server.storage s /\ Server.wal s' = Server.wal s /\
  Server.replicator s' = Server.replicator s /\ Server.versions s' = Server.versions s /\
  Server.auth s' = Server.auth s /\
  Conn.authed_user c' = Conn.authed_user c /\ Conn.tx c' = Conn.tx c -> step_ok cmd s c s' c'.
Proof.
  intros Hi Hc (E1 & E2 & E3 & E4 & E5 & E6 & E7).
  apply step_same; try done; unfold conn_ok, queue_of, policy in *; by rewrite ?E7, ?E5.
Qed.

Lemma watch_loop_queue ks v x x' : watch_loop ks v x = Ok x' -> TxState.queue x' = TxState.queue x.
Proof.
  revert x. induction ks as [|k ks IH]; intros x; cbn [watch_loop].
  - by intros [= <-].
  - intros Hw. inv_bind Hw. apply IH in Hw. rewrite Hw. unfold TxState.watch.
    by destruct (TxState.watched x !! _).
Qed.

Lemma step_script cmd e acl source ks argv c s r s0 s' c' resp : inv (Server.storage s) -> conn_ok c ->
  (P -> append_ok e = true) -> acl = build_script_acl c s ->
  run_script (now e) acl source ks argv (Server.storage s) = r ->
  finish_script e r c s0 = Ok (s', c', resp) ->
  Server.storage s0 = Server.storage s -> Server.wal s0 = Server.wal s ->
  Server.replicator s0 = Server.replicator s -> Server.versions s0 = Server.versions s ->
  policy s0 = policy s -> step_ok cmd s c s' c'.
Proof.
  intros Hi Hc He -> <- Hf E1 E2 E3 E4 E5. unfold finish_script in Hf. inv_bind Hf.
  destruct a as [[m ws] rsp]. inv_bind Hf. injection Hf as <- <- <-.
  destruct (script_accounted e _ _ _ _ _ _ _ _ Hi Ha) as [Hr HF].
  assert (Hl : logged s0 a (stamped e ws)).
  { eapply logged_script; [by rewrite E1 | done | by rewrite E1 | done]. }
  exists ([] ++ stamped e ws). split; [eapply logged_trans; [by apply logged_same|done]|].
  split; [done|]. intros _ am user Hauth Hreq Hu Hq. split; [done|]. split; [done|].
  simpl. unfold stamped. apply Forall_fmap. eapply Forall_impl; [exact HF|].
  intros w (_ & name & Hn & Hacl). exists name. split; [done|].
  unfold build_script_acl in Hacl. rewrite Hauth, Hu in Hacl.
  unfold AuthManager.is_auth_required in Hacl. by rewrite Hreq in Hacl.
Qed.

(** ** [EXEC] *)

(** What the recursion promises of a command. *)
Definition runs_ok (run : (nat -> Env) -> Command.t -> Conn.t -> Server.t M B -> outcome) : Prop :=
  forall es cmd c s s' c' r, inv (Server.storage s) -> conn_ok c -> (P -> replayable cmd = true) ->
  (P -> forall i, append_ok (es i) = true) -> run es cmd c s = Ok (s', c', r) -> step_ok cmd s c s' c'.

Lemma run_queue_step run es q out c s s' c' r : runs_ok run -> inv (Server.storage s) -> conn_ok c ->
  Forall (fun x => (P -> replayable x = true) /\ is_tx_control x = false) q ->
  (P -> forall i, append_ok (es i) = true) -> run_queue run es q out c s = Ok (s', c', r) ->
  exists new, logged s s' new /\ conn_ok c' /\
    (Forall (fun x => is_auth x = false) q -> guarded s c c' new).
Proof.
  intros Hrun. revert es out c s. induction q as [|cmd q IH];
    intros es out c s Hi Hc Hq He; cbn [run_queue].
  - intros [= <- <- _]. destruct (step_refl Command.Ping s c Hi Hc) as (new & Hl & _ & Hg).
    exists new. split; [done|]. split; [done|]. intros _. by apply Hg.
  - apply Forall_cons in Hq as [[Hp _] Hq]. intros Hr. inv_bind Hr. destruct a as [[s1 c1] r1].
    destruct (Hrun _ _ _ _ _ _ _ Hi Hc Hp (fun HP i => He HP (S i)) Ha) as (n1 & Hl1 & Hc1 & Hg1).
    destruct (IH _ _ _ _ (lg_inv _ _ _ Hl1) Hc1 Hq (fun HP i => He HP (S i)) Hr)
      as (n2 & Hl2 & Hc2 & Hg2).
    exists (n1 ++ n2). split; [by eapply logged_trans|]. split; [done|].
    intros [Hx Hy]%Forall_cons. eapply guarded_trans; [apply Hl1 | by apply Hg1 | by apply Hg2].
Qed.

Lemma exec_step run es c s s' c' r : runs_ok run -> inv (Server.storage s) -> conn_ok c ->
  (P -> forall i, append_ok (es i) = true) -> exec_command run es c s = Ok (s', c', r) ->
  step_ok Command.Exec s c s' c'.
Proof.
  intros Hrun Hi Hc He. unfold exec_command, TxState.take_queue.
  pose proof (eq_refl (queue_of c)) as Hq. unfold queue_of in Hq at 1.
  destruct (TxState.queue (Conn.tx c)) as [q|] eqn:Eq; simpl in Hq.
  - intros Hx. inv_bind Hx. destruct a.
    + injection Hx as <- <- _. apply step_same; try done. constructor.
    + unfold conn_ok in Hc. rewrite <- Hq in Hc.
      apply run_queue_step in Hx as (new & Hl & Hc' & Hg); try done; [|constructor].
      exists new. split; [done|]. split; [done|].
      intros _ am user Ham Hreq Hu HF. rewrite <- Hq in HF. by apply (Hg HF).
  - intros [= <- <- _]. apply step_same; try done. constructor.
Qed.

(** ** All commands *)

Lemma policy_authenticate e u p am am' o :
  AuthManager.authenticate (now e) (random e) u p am = (am', o) ->
  (AuthManager.users am', AuthManager.require_auth am') =
  (AuthManager.users am, AuthManager.require_auth am).
Proof. unfold AuthManager.authenticate. intros Ha. by repeat case_match; simplify_eq. Qed.

Lemma step_auth e u p c s s' c' r : inv (Server.storage s) -> conn_ok c -> auth_command e u p c s = Ok (s', c', r) ->
  step_ok (Command.Auth u p) s c s' c'.
Proof.
  intros Hi Hc. unfold auth_command. destruct (Server.auth s) as [am|] eqn:Ea.
  - destruct (AuthManager.authenticate _ _ _ _ am) as [am' o] eqn:E. apply policy_authenticate in E.
    destruct o; intros [= <- <- _]; apply step_same; try done;
      unfold policy; simpl; rewrite Ea; simpl; by rewrite E.
  - intros [= <- <- _]. by apply step_refl.
Qed.

Lemma step_read run es cmd c s s' c' r : runs_ok run -> inv (Server.storage s) -> conn_ok c ->
  (P -> forall i, append_ok (es i) = true) -> is_write_command cmd = false ->
  dispatch run es cmd c s = Ok (s', c', r) -> step_ok cmd s c s' c'.
Proof.
  intros Hrun Hi Hc He Hw. unfold dispatch.
  destruct (execute_at _ cmd _) as [[m x]|] eqn:Ex.
  - apply execute_storage_read in Ex as ->; [|done].
    intros Hd. inv_bind Hd. injection Hd as <- <- <-. by apply step_same.
  - destruct cmd; try discriminate Hw; try discriminate Ex.
    + by apply step_auth.
    + destruct (PubSub.publish _ _ _ _) as [bx n]. intros [= <- <- _]. by apply step_same.
    + destruct (subscribe_loop _ _ _ _) as [[s1 c1] out] eqn:E. intros [= <- <- _].
      eapply step_sub; [done..|]. by eapply subscribe_loop_same.
    + destruct (unsubscribe_loop _ _ _ _) as [[s1 c1] out] eqn:E. intros [= <- <- _].
      eapply step_sub; [done..|]. by eapply unsubscribe_loop_same.
    + case_match; intros [= <- <- _]; [by apply step_refl|]. apply step_same; try done. constructor.
    + by apply exec_step.
    + case_match; intros [= <- <- _]; [by apply step_refl|]. apply step_same; try done. constructor.
    + case_match; [intros [= <- <- _]; by apply step_refl|]. intros Hx. inv_bind Hx.
      injection Hx as <- <- _. apply watch_loop_queue in Ha.
      apply step_same; try done; unfold conn_ok, queue_of; simpl; by rewrite Ha.
    + intros [= <- <- _]. by apply step_same.
    + intros Hx. eapply step_script; [done | done | by intros HP; apply (He HP) | reflexivity | reflexivity | exact Hx | done..].
    + unfold LuaEngine.run_sha. destruct (LuaEngine.scripts (Server.lua s) !! _).
      * intros Hx. eapply step_script; [done | done | by intros HP; apply (He HP) | reflexivity | reflexivity | exact Hx | done..].
      * intros [= <- <- _]. by apply step_same.
Qed.

Lemma queue_enqueue cmd c : TxState.in_multi (Conn.tx c) = true ->
  queue_of (Conn.set_tx (TxState.enqueue cmd (Conn.tx c)) c) = queue_of c ++ [cmd].
Proof.
  unfold TxState.in_multi, queue_of, TxState.enqueue. rewrite bool_decide_eq_true.
  by intros [q Hq]; rewrite Hq.
Qed.

Lemma execute_with_step run : runs_ok run -> runs_ok (execute_with run).
Proof.
  intros Hrun es cmd c s s' c' r Hi Hc Hp He. unfold execute_with.
  destruct (TxState.in_multi (Conn.tx c)) eqn:Em; cbn [andb];
    [destruct (is_tx_control cmd) eqn:Et; cbn [negb]|].
  2:{ intros [= <- <- _]. apply step_same; try done; unfold conn_ok; rewrite queue_enqueue by done.
      - apply Forall_app. split; [done|]. by constructor.
      - intros Ha HF. apply Forall_app. split; [done|]. by constructor. }
  all: destruct (moved cmd s); [intros [= <- <- _]; by apply step_refl|].
  all: destruct (denied cmd c s) eqn:Ed; [intros [= <- <- _]; by apply step_refl|].
  all: intros Hx; inv_bind Hx; destruct (is_write_command cmd) eqn:Hw;
    [eapply step_write; eauto | injection Ha as <-; by eapply step_read].
Qed.

Lemma execute_step n : runs_ok (execute_fuel n).
Proof.
  induction n as [|n IH]; [by intros es cmd c s s' c' r _ _ _ _|]. by apply execute_with_step.
Qed.
End logged.

(** ** Counters follow the keys *)

Section frames.
Context `{Xxh3}.

Definition counted (ws : list Command.t) : list nat := concat (map bumps ws).

(** A key that changed is in a shard that was counted. *)
Lemma untouched_or_counted k ws : Forall (fun w => ~ touches w k) ws \/ shard_index k ∈ counted ws.
Proof.
  induction ws as [|w ws [IH|IH]]; [left; constructor| |right; unfold counted; simpl; apply elem_of_app; by right].
  destruct (decide (touches w k)) as [Ht|Ht]; [right|left; by constructor].
  unfold counted. simpl. apply elem_of_app. left. by apply touches_bumps.
Qed.

Lemma copies_pos i l : i ∈ l -> (0 < copies i l)%nat.
Proof.
  intros Hi. unfold copies. assert (Hf : i ∈ filter (fun j => j = i) l) by by apply list_elem_of_filter.
  destruct (filter _ l); [by apply elem_of_nil in Hf | simpl; lia].
Qed.

Lemma copies_le i l : (copies i l <= length l)%nat.
Proof. apply length_filter. Qed.

Lemma counted_lt ws : Forall (fun i => (i < Z.to_nat SHARD_COUNT)%nat) (counted ws).
Proof.
  unfold counted. induction ws as [|w ws IH]; simpl; [constructor|].
  apply Forall_app. split; [apply bumps_lt | done].
Qed.
End frames.

(** ** Depth of the recursion *)

Section depth.
Context `{KeyMap M, Mpsc B, Layout, Xxh3, UnicodeCase, Argon2, Lua, Sha1}.
Implicit Types (s : Server.t M B) (c : Conn.t).

(** Only [EXEC] recurses. *)
Lemma execute_with_run run run' es cmd c s : is_tx_control cmd = false ->
  execute_with run es cmd c s = execute_with run' es cmd c s.
Proof. intros Hc. destruct cmd; try discriminate Hc; reflexivity. Qed.

Lemma run_queue_run run run' es q out c s :
  Forall (fun x => is_tx_control x = false) q ->
  (forall es cmd c s, is_tx_control cmd = false -> run es cmd c s = run' es cmd c s) ->
  run_queue run es q out c s = run_queue run' es q out c s.
Proof.
  intros Hq Hr. revert es out c s. induction Hq as [|cmd q Hc Hq IH];
    intros es out c s; cbn [run_queue]; [done|].
  rewrite Hr by done. destruct (run' _ cmd c s) as [[[s1 c1] r1]| |]; simpl; [apply IH | done..].
Qed.

(** More fuel than two changes nothing while the queue holds no control command. *)
Lemma execute_fuel_enough n es cmd c s :
  Forall (fun x => is_tx_control x = false) (queue_of c) ->
  execute_fuel (S (S n)) es cmd c s = execute_command es cmd c s.
Proof.
  intros Hq. unfold execute_command. cbn [execute_fuel].
  destruct (is_tx_control cmd) eqn:Ec; [|by apply execute_with_run].
  destruct cmd; try discriminate Ec; try reflexivity.
  unfold execute_with. rewrite andb_false_r. destruct (moved _ s); [done|].
  destruct (denied _ c s); [done|]. simpl. unfold dispatch, exec_command. simpl.
  unfold queue_of in Hq. destruct (TxState.queue (Conn.tx c)) as [q|]; [|done]. simpl in Hq.
  destruct (TxState.any_watched_changed _ _) as [[]| |]; simpl; try done.
  apply run_queue_run; [done|]. intros. destruct n; by apply execute_with_run.
Qed.
End depth.

(** ** Authentication stays *)

Section users.
Context `{KeyMap M, Mpsc B, Layout, Xxh3, UnicodeCase, Argon2, Lua, Sha1}.
Implicit Types (s : Server.t M B) (c : Conn.t).

Definition keeps_user (run : (nat -> Env) -> Command.t -> Conn.t -> Server.t M B -> outcome) : Prop :=
  forall es cmd c s s' c' r, run es cmd c s = Ok (s', c', r) ->
  is_Some (Conn.authed_user c) -> is_Some (Conn.authed_user c').

Lemma run_queue_user run es q out c s s' c' r : keeps_user run ->
  run_queue run es q out c s = Ok (s', c', r) ->
  is_Some (Conn.authed_user c) -> is_Some (Conn.authed_user c').
Proof.
  intros Hrun. revert es out c s. induction q as [|cmd q IH]; intros es out c s; cbn [run_queue].
  - by intros [= _ <- _].
  - intros Hr Hu. inv_bind Hr. destruct a as [[s1 c1] r1]. eapply IH; [done|]. by eapply Hrun.
Qed.

Lemma finish_script_conn e r c s s' c' resp : finish_script e r c s = Ok (s', c', resp) -> c' = c.
Proof.
  intros Hf. unfold finish_script in Hf. inv_bind Hf. destruct a as [[m ws] rsp]. inv_bind Hf.
  by injection Hf.
Qed.

Lemma dispatch_user run es cmd c s s' c' r : keeps_user run ->
  dispatch run es cmd c s = Ok (s', c', r) ->
  is_Some (Conn.authed_user c) -> is_Some (Conn.authed_user c').
Proof.
  intros Hrun. unfold dispatch. destruct (execute_at _ cmd _) as [[m x]|] eqn:Ex.
  { intros Hd. inv_bind Hd. by injection Hd as _ <- _. }
  destruct cmd; try discriminate Ex;
    try (exfalso; unfold execute_at in Ex; to_arm_in Ex; repeat case_match; discriminate Ex).
  - unfold auth_command. intros Hx Hu. repeat case_match; simplify_eq; done.
  - destruct (PubSub.publish _ _ _ _) as [bx n]. by intros [= _ <- _].
  - destruct (subscribe_loop _ _ _ _) as [[s1 c1] out] eqn:E. intros [= _ <- _].
    apply subscribe_loop_same in E as (_ & _ & _ & _ & _ & -> & _). done.
  - destruct (unsubscribe_loop _ _ _ _) as [[s1 c1] out] eqn:E. intros [= _ <- _].
    apply unsubscribe_loop_same in E as (_ & _ & _ & _ & _ & -> & _). done.
  - case_match; by intros [= _ <- _].
  - unfold exec_command. simpl. destruct (TxState.queue _); [|by intros [= _ <- _]].
    intros Hx. inv_bind Hx. destruct a; [by injection Hx as _ <- _|].
    intros Hu. eapply run_queue_user; [exact Hrun | exact Hx | done].
  - case_match; by intros [= _ <- _].
  - case_match; [by intros [= _ <- _]|]. intros Hx. inv_bind Hx. by injection Hx as _ <- _.
  - by intros [= _ <- _].
  - by intros ->%finish_script_conn.
  - by intros ->%finish_script_conn.
Qed.

Lemma execute_keeps_user n : keeps_user (execute_fuel n).
Proof.
  induction n as [|n IH]; intros es cmd c s s' c' r; cbn [execute_fuel]; [done|].
  unfold execute_with. repeat case_match; try (by intros [= _ <- _]).
  - intros Hx. inv_bind Hx. by eapply dispatch_user.
  - intros Hx. inv_bind Hx. by eapply dispatch_user.
Qed.
End users.
