(* ===== verification/Concurrency.v ===== *)
(** * Concurrency: commands of several connections at once

    [Server] runs a command as one step.  In [src/cache/src/server.rs] every
    connection is a task of its own, and what keeps the tasks apart are locks
    held for less than a command: the append to the log, the hand-over to the
    replicas, the bump of the counters and every lock scope of the storage
    operation are one step each, and the steps of other connections come
    between them.

    [scopes] cuts the storage operation of a command at the locks it takes;
    [run] puts the pieces together again, and gives what [execute_storage] gives
    ([ConcurrencyFacts.run_scopes]).  A [Task] is a connection inside
    [execute_command], past the gates; [step] lets one connection enter or one
    task take its next step, in any order the events say.  Covered are the
    commands that name their keys and lock them one at a time: all but FLUSHALL,
    KEYS, DBSIZE and RANDOMKEY, which go through the shards (see [Walks]), and
    scripts. *)

From S2P Require Import Prelude Text External Float64 Values SortedSet Stream Keyspace Storage.
From S2P Require Import StorageTypes ShardedMap Resp Command Apply Ring Transactions Security.
From S2P Require Import PubSub Scripting Server.
#[local] Open Scope Z_scope.

(** ** Lock scopes *)

(** What a storage operation still does: it is finished, or it locks the shard
    of a key, reads and writes the entry, unlocks and goes on. *)
Inductive scoped :=
| Return (r : res Response.t)
| Locked (key : bytes) (body : option CacheValue -> option CacheValue * scoped).

(** All scopes in a row. *)
Fixpoint run `{KeyMap M} (p : scoped) (m : M) : M * res Response.t :=
  match p with
  | Return r => (m, r)
  | Locked key body =>
      match body (entry key m) with (e, p) => run p (set_entry key e m) end
  end.

(** A map that holds one entry at most. *)
Definition cell (key : bytes) (e : option CacheValue) : table := partial_alter (fun _ => e) key ∅.

(** A storage operation under the lock of its key. *)
Definition locked {A} (key : bytes) (op : table -> table * A) (next : A -> scoped) : scoped :=
  Locked key (fun e => let '(t, a) := op (cell key e) in (t !! key, next a)).

(** A look at a key, under its lock. *)
Definition look {A} (key : bytes) (op : table -> A) (next : A -> scoped) : scoped :=
  locked key (fun t => (t, op t)) next.

(** The reply of an operation that ended. *)
Definition answer {A} (f : A -> Response.t) (r : res A) : scoped :=
  Return match r with
         | Ok a => Ok (f a)
         | Err e => Ok (Response.Error e)
         | Panic => Panic
         end.

Section scopes.
Context `{HashOrder, Rng, Layout}.

(** MSET: a lock per pair. *)
Fixpoint mset_scopes (now : Z) (pairs : list (bytes * bytes)) : scoped :=
  match pairs with
  | [] => Return (Ok Response.Ok)
  | (k, v) :: pairs =>
      locked k (set now k v None) (fun r => match r with
                                            | Panic => Return Panic
                                            | _ => mset_scopes now pairs
                                            end)
  end.

(** HMSET: a lock per field. *)
Fixpoint hmset_scopes (key : bytes) (pairs : list (bytes * bytes)) : scoped :=
  match pairs with
  | [] => Return (Ok Response.Ok)
  | (f, v) :: pairs =>
      locked key (hset key f v) (fun r => match r with
                                          | Ok _ => hmset_scopes key pairs
                                          | Err e => Return (Ok (Response.Error e))
                                          | Panic => Return Panic
                                          end)
  end.

(** HMGET: a lock per field. *)
Fixpoint hmget_scopes (now : Z) (key : bytes) (fields : list bytes) (out : list bytes) : scoped :=
  match fields with
  | [] => Return (Ok (Response.Array out))
  | f :: fields =>
      look key (hget now key f) (fun v => hmget_scopes now key fields (out ++ [default [] v]))
  end.

(** The reads of several keys: a lock per key. *)
Fixpoint mget_scopes (now : Z) (keys : list bytes) (out : list bytes) : scoped :=
  match keys with
  | [] => Return (Ok (Response.Array out))
  | k :: keys => look k (get now k) (fun v => mget_scopes now keys (out ++ [default [] v]))
  end.

Fixpoint exists_scopes (now : Z) (keys : list bytes) (n : Z) : scoped :=
  match keys with
  | [] => Return (Ok (Response.Integer n))
  | k :: keys => look k (exists' now [k]) (fun c => exists_scopes now keys (n + c))
  end.

(** [snapshot_set(key)?]: an error ends the command. *)
Definition look_set (now : Z) (key : bytes) (next : option SetValue.t -> scoped) : scoped :=
  look key (snapshot_set now key) (fun snap =>
    match snap with
    | Ok set => next set
    | Err e => Return (Ok (Response.Error e))
    | Panic => Return Panic
    end).

Fixpoint sinter_scopes (now : Z) (keys : list bytes) (result : option SetValue.t) : scoped :=
  match keys with
  | [] => answer Response.Array (Ok match result with Some s => SetValue.get_all s | None => [] end)
  | key :: keys =>
      look_set now key (fun snap =>
        match snap with
        | Some set =>
            sinter_scopes now keys
              (Some match result with
                    | None => set
                    | Some res' => add_all (SetValue.intersection res' set) SetValue.new
                    end)
        | None => answer Response.Array (Ok [])
        end)
  end.

Fixpoint sunion_scopes (now : Z) (keys : list bytes) (result : SetValue.t) : scoped :=
  match keys with
  | [] => answer Response.Array (Ok (SetValue.get_all result))
  | key :: keys =>
      look_set now key (fun snap =>
        sunion_scopes now keys
          match snap with Some set => add_all (SetValue.get_all set) result | None => result end)
  end.

Fixpoint sdiff_scopes (now : Z) (keys : list bytes) (result : SetValue.t) : scoped :=
  match keys with
  | [] => answer Response.Array (Ok (SetValue.get_all result))
  | key :: keys =>
      look_set now key (fun snap =>
        sdiff_scopes now keys
          match snap with
          | Some set => add_all (SetValue.difference result set) SetValue.new
          | None => result
          end)
  end.

(** XREAD: an id is parsed before its stream is locked. *)
Fixpoint xread_scopes (now : Z) (count : option Z) (l : list (bytes * bytes))
    (out : list (bytes * list (StreamId.t * fields))) : scoped :=
  match l with
  | [] => answer (fun per_stream => Response.Raw
            (if bool_decide (per_stream = []) then nil_array else format_xread per_stream)) (Ok out)
  | (k, id_str) :: l =>
      match StreamId.parse id_str false with
      | Ok cursor =>
          look k (xread now k cursor count) (fun r =>
            match r with
            | Ok entries =>
                xread_scopes now count l (if bool_decide (entries = []) then out else out ++ [(k, entries)])
            | Err e => Return (Ok (Response.Error e))
            | Panic => Return Panic
            end)
      | Err e => Return (Ok (Response.Error e))
      | Panic => Return Panic
      end
  end.

Definition rpoplpush_scopes (now : Z) (source destination : bytes) : scoped :=
  locked source (rpoplpush_pop now source) (fun popped =>
    match popped with
    | Ok (Some v) =>
        locked destination (rpoplpush_push now destination v) (fun r =>
          answer value_or_nil (_ ← r; Ok (Some v)))
    | popped => answer value_or_nil popped
    end).

Definition smove_scopes (now : Z) (source destination member : bytes) : scoped :=
  locked source (smove_remove now source member) (fun removed =>
    match removed with
    | Ok true =>
        locked destination (smove_add now destination member) (fun r =>
          answer one_if (_ ← r; Ok true))
    | removed => answer one_if removed
    end).

Definition rename_scopes (now : Z) (key new_key : bytes) : scoped :=
  locked key (rename_take now key) (fun value =>
    match value with
    | Ok value => Locked new_key (fun _ => (Some value, Return (Ok Response.Ok)))
    | Err e => Return (Ok (Response.Error e))
    | Panic => Return Panic
    end).

(** The other commands hold one lock from the look-up to the last change. *)
Definition one_scope (now wall : Z) (cmd : Command.t) (key : bytes) : scoped :=
  Locked key (fun e =>
    match execute_storage now wall cmd (cell key e) with
    | Some (t, r) => (t !! key, Return r)
    | None => (e, Return Panic)
    end).

Definition scopes (now wall : Z) (cmd : Command.t) : option scoped :=
  match cmd with
  | Command.MSet pairs => Some (mset_scopes now pairs)
  | Command.HMSet key pairs => Some (hmset_scopes key pairs)
  | Command.HMGet key fields => Some (hmget_scopes now key fields [])
  | Command.MGet keys => Some (mget_scopes now keys [])
  | Command.Exists keys => Some (exists_scopes now keys 0)
  | Command.SInter keys => Some (sinter_scopes now keys None)
  | Command.SUnion ((_ :: _) as keys) => Some (sunion_scopes now keys SetValue.new)
  | Command.SUnion [] | Command.SDiff [] => Some (answer Response.Array (Ok []))
  | Command.SDiff (key :: keys) =>
      Some (look_set now key (fun snap =>
        match snap with
        | Some set => sdiff_scopes now keys set
        | None => answer Response.Array (Ok [])
        end))
  | Command.XRead count keys ids =>
      Some (if negb (bool_decide (length keys = length ids)) then
              Return (Ok (Response.Error (bs "ERR XREAD streams/ids length mismatch")))
            else xread_scopes now count (zip keys ids) [])
  | Command.RPopLPush source destination => Some (rpoplpush_scopes now source destination)
  | Command.SMove source destination member => Some (smove_scopes now source destination member)
  | Command.Rename key new_key => Some (rename_scopes now key new_key)
  | _ => one_scope now wall cmd <$> command_key cmd
  end.
End scopes.

(** The scopes of a command in its environment. *)
Definition scopes_at `{Layout} (e : Env) : Command.t -> option scoped :=
  let order := order e in
  let draws := draws e in
  scopes (now e) (wall e).

(** The keys a command locks. *)
Definition footprint (cmd : Command.t) : list bytes :=
  match cmd with
  | Command.MSet pairs => pairs.*1
  | Command.RPopLPush k k' | Command.SMove k k' _ | Command.Rename k k' => [k; k']
  | Command.MGet keys | Command.Exists keys | Command.SInter keys | Command.SUnion keys
  | Command.SDiff keys | Command.XRead _ keys _ => keys
  | _ => match command_key cmd with Some k => [k] | None => [] end
  end.

(** ** Tasks *)

(** Where [execute_command] stands: before the log, before the replicas, before
    the counters, or in the storage operation. *)
Inductive stage :=
| Begin
| Logged
| Sent
| Running (p : scoped).

(** A connection that executes a command, and the queued commands of its EXEC
    that are still to come. *)
Module Task.
Record t := mk {
  env : Env;
  cmd : Command.t;
  at_stage : stage;
  queue : list (Env * Command.t);
}.
Definition set_stage (g : stage) (x : t) : t := mk (env x) (cmd x) g (queue x).
End Task.

Inductive event :=
| Start (i : nat) (e : Env) (cmd : Command.t)
| StartExec (i : nat) (es : nat -> Env) (tx : TxState.t)
| Advance (i : nat).

(** [order] and [shipped] are the commands in the order in which they were
    logged and handed to the replicas, with the reads where they started to
    read; the program does not keep them.  [replies] are the answers, in the
    order in which they were given. *)
Module World.
Record t {M B : Type} := mk {
  server : Server.t M B;
  tasks : gmap nat Task.t;
  order : list (nat * Env * Command.t);
  shipped : list (nat * Env * Command.t);
  replies : list (nat * res Response.t);
}.
Arguments t : clear implicits.

Section setters.
Context {M B : Type}.
Implicit Types w : t M B.
Definition set_server s w := mk M B s (tasks w) (order w) (shipped w) (replies w).
Definition set_task i x w := mk M B (server w) (<[i := x]> (tasks w)) (order w) (shipped w) (replies w).
Definition add_order x w := mk M B (server w) (tasks w) (order w ++ [x]) (shipped w) (replies w).
Definition add_shipped x w := mk M B (server w) (tasks w) (order w) (shipped w ++ [x]) (replies w).
(** The answer of task [i], which goes on with [next] if it has more to do. *)
Definition reply_task i (next : option Task.t) r w :=
  mk M B (server w) (partial_alter (fun _ => next) i (tasks w)) (order w) (shipped w)
    (replies w ++ [(i, r)]).
Definition idle s : t M B := mk M B s ∅ [] [] [].
End setters.
End World.

Section steps.
Context `{KeyMap M, Mpsc B, Layout, Xxh3}.
Implicit Types (w : World.t M B) (s : Server.t M B).

(** [wal.append_command(&cmd)]. *)
Definition append_wal (e : Env) (cmd : Command.t) s : Server.t M B :=
  Server.set_logs
    (if append_ok e then (fun l => l ++ [cmd]) <$> Server.wal s else Server.wal s)
    (Server.replicator s) s.

(** [rep.replicate_write(cmd.clone())]: the lock of the offset is held until
    every replica has the command. *)
Definition replicate_cmd (cmd : Command.t) s : Server.t M B :=
  Server.set_logs (Server.wal s) ((fun l => l ++ [cmd]) <$> Server.replicator s) s.

Definition lockable (e : Env) (cmd : Command.t) : bool :=
  bool_decide (is_Some (scopes_at e cmd)).

Definition scopes_of (x : Task.t) : scoped :=
  default (Return Panic) (scopes_at (Task.env x) (Task.cmd x)).

(** The end of a command: EXEC goes on with the next one of its queue, unless
    the task panicked. *)
Definition next_task (r : res Response.t) (x : Task.t) : option Task.t :=
  match r, Task.queue x with
  | Ok _, (e, cmd) :: q => Some (Task.mk e cmd Begin q)
  | _, _ => None
  end.

(** The next step of task [i]. *)
Definition advance (i : nat) (x : Task.t) w : World.t M B :=
  let s := World.server w in
  let e := Task.env x in
  let cmd := Task.cmd x in
  match Task.at_stage x with
  | Begin =>
      let w := World.add_order (i, e, cmd) w in
      if is_write_command cmd then
        World.set_task i (Task.set_stage Logged x) (World.set_server (append_wal e cmd s) w)
      else
        World.set_task i (Task.set_stage (Running (scopes_of x)) x) (World.add_shipped (i, e, cmd) w)
  | Logged =>
      World.set_task i (Task.set_stage Sent x)
        (World.set_server (replicate_cmd cmd s) (World.add_shipped (i, e, cmd) w))
  | Sent =>
      match bump_versions_for cmd (Server.versions s) with
      | Ok v =>
          World.set_task i (Task.set_stage (Running (scopes_of x)) x)
            (World.set_server (Server.set_versions v s) w)
      | _ => World.reply_task i None Panic w
      end
  | Running (Return r) => World.reply_task i (next_task r x) r w
  | Running (Locked key body) =>
      match body (entry key (Server.storage s)) with
      | (v, p) =>
          World.set_task i (Task.set_stage (Running p) x)
            (World.set_server (Server.set_storage (set_entry key v (Server.storage s)) s) w)
      end
  end.

(** The commands of a queue, the [n]-th with the clocks of [es (S n)]. *)
Definition queued (es : nat -> Env) (q : list Command.t) : list (Env * Command.t) :=
  imap (fun n cmd => (es (S n), cmd)) q.

(** [None] when the event cannot happen: a connection that is not there, or one
    that is busy, or a command that is not covered. *)
Definition step (ev : event) w : option (World.t M B) :=
  match ev with
  | Start i e cmd =>
      if bool_decide (World.tasks w !! i = None) && lockable e cmd
      then Some (World.set_task i (Task.mk e cmd Begin []) w) else None
  | StartExec i es tx =>
      if bool_decide (World.tasks w !! i = None) then
        match TxState.any_watched_changed (Server.versions (World.server w)) tx with
        | Ok true => Some w
        | Ok false =>
            let q := queued es (default [] (TxState.queue tx)) in
            if forallb (fun '(e, cmd) => lockable e cmd) q then
              Some match q with
                   | [] => w
                   | (e, cmd) :: q => World.set_task i (Task.mk e cmd Begin q) w
                   end
            else None
        | _ => None
        end
      else None
  | Advance i => (fun x => advance i x w) <$> World.tasks w !! i
  end.

Fixpoint steps (evs : list event) w : option (World.t M B) :=
  match evs with
  | [] => Some w
  | ev :: evs => w ← step ev w; steps evs w
  end.
End steps.

(** ** One command after the other *)

Section serial.
Context `{KeyMap M, Layout}.

Definition perform (e : Env) (cmd : Command.t) (m : M) : M * res Response.t :=
  default (m, Panic) (execute_at e cmd m).

Fixpoint serial (l : list (nat * Env * Command.t)) (m : M) : M * list (nat * res Response.t) :=
  match l with
  | [] => (m, [])
  | (i, e, cmd) :: l =>
      let '(m, r) := perform e cmd m in
      let '(m, rs) := serial l m in (m, (i, r) :: rs)
  end.
End serial.

(** ** Races *)

(** Two commands conflict when they lock a common key and one of them is a
    write. *)
Definition conflict (c c' : Command.t) : bool :=
  (is_write_command c || is_write_command c') &&
  existsb (fun k => bool_decide (k ∈ footprint c')) (footprint c).

(** No two tasks are in commands that conflict. *)
Definition race_free (l : list (nat * Task.t)) : bool :=
  forallb (fun x => forallb (fun y =>
    bool_decide (x.1 = y.1) || negb (conflict (Task.cmd x.2) (Task.cmd y.2))) l) l.

(** [steps] through states without races. *)
Fixpoint quiet `{KeyMap M, Mpsc B, Layout, Xxh3} (evs : list event) (w : World.t M B) : bool :=
  race_free (map_to_list (World.tasks w)) &&
  match evs with
  | [] => true
  | ev :: evs => match step ev w with Some w => quiet evs w | None => false end
  end.
