(* ===== verification/ConcurrencyFacts.v ===== *)
(** * ConcurrencyFacts: the lock scopes of a command, and what a task may touch

    The scopes of a command, run in a row, are the command ([run_scopes]); they
    lock no key outside its footprint ([within_scopes]), so a command neither
    sees nor changes other keys ([run_local], [run_frame]). *)

From S2P Require Import Prelude Text External Float64 BTree Values SortedSet SortedSetFacts Stream.
From S2P Require Import Keyspace ShardedMap Storage StorageTypes StorageFacts ListFacts SetFacts.
From S2P Require Import Resp Command Apply ApplyFacts ReplayClocks Ring Transactions Security.
From S2P Require Import PubSub Scripting Server ServerFacts Concurrency.
#[local] Open Scope Z_scope.

(** ** Cells *)

Lemma lookup_cell k e : cell k e !! k = e.
Proof. apply lookup_partial_alter_eq. Qed.

Lemma entry_cell k e : entry k (cell k e) = e.
Proof. apply lookup_cell. Qed.

Lemma cell_cell k e e' : partial_alter (fun _ => e') k (cell k e) = cell k e'.
Proof. unfold cell. by rewrite partial_alter_partial_alter_eq. Qed.

Lemma with_entry_cell {A} k (f : option CacheValue -> option CacheValue * A) e :
  with_entry k f (cell k e) = (cell k (fst (f e)), snd (f e)).
Proof. unfold with_entry. rewrite entry_cell. destruct (f e) as [e' a]. simpl. by rewrite cell_cell. Qed.

Section scopes.
Context `{KeyMapLaws M, HashOrder, Rng, Layout}.
Implicit Types m : M.

(** A scope whose operation is the body [f] under one lock. *)
Lemma run_locked {A} k (f : option CacheValue -> option CacheValue * A) (next : A -> scoped) m :
  run (locked k (with_entry k f) next) m =
  let '(m, a) := with_entry k f m in run (next a) m.
Proof.
  unfold locked. cbn [run]. rewrite with_entry_cell, lookup_cell. unfold with_entry.
  by destruct (f (entry k m)).
Qed.

Lemma run_answer {A} (f : A -> Response.t) r m : run (answer f r) m = reply f (m, r).
Proof. by destruct r. Qed.

Lemma run_mset now pairs m : run (mset_scopes now pairs) m = mset_reply now pairs m.
Proof.
  revert m. induction pairs as [|[k v] pairs IH]; intros m; cbn [mset_scopes mset_reply]; [done|].
  unfold locked, set. cbn [run]. simpl set_entry at 1. rewrite cell_cell, lookup_cell. apply IH.
Qed.

Lemma run_hmset k pairs m : run (hmset_scopes k pairs) m = hmset_reply k pairs m.
Proof.
  revert m. induction pairs as [|[f v] pairs IH]; intros m; cbn [hmset_scopes hmset_reply]; [done|].
  unfold hset. rewrite run_locked. destruct (with_entry k _ m) as [m' []]; [apply IH|done..].
Qed.

(** A look sees the entry of the key. *)
Lemma run_look {A} (k : bytes) (g : option CacheValue -> A) (op : table -> A) (next : A -> scoped) m : inv m ->
  (forall e, op (cell k e) = g e) -> run (look k op next) m = run (next (g (entry k m))) m.
Proof.
  intros Hm Hop. unfold look, locked. cbn [run]. by rewrite lookup_cell, set_entry_id, Hop.
Qed.

Lemma run_hmget now k fs out m : inv m ->
  run (hmget_scopes now k fs out) m =
  (m, Ok (Response.Array (out ++ map (fun f => default [] (hget now k f m)) fs))).
Proof.
  intros Hm. revert out. induction fs as [|f fs IH]; intros out; cbn [hmget_scopes map].
  { by rewrite app_nil_r. }
  erewrite run_look; [|done|intros e; unfold hget; rewrite entry_cell; reflexivity].
  rewrite IH, <- app_assoc. done.
Qed.

Lemma run_mget now ks out m : inv m ->
  run (mget_scopes now ks out) m =
  (m, Ok (Response.Array (out ++ map (fun k => default [] (get now k m)) ks))).
Proof.
  intros Hm. revert out. induction ks as [|k ks IH]; intros out; cbn [mget_scopes map].
  { by rewrite app_nil_r. }
  erewrite run_look; [|done|intros e; unfold get; rewrite entry_cell; reflexivity].
  rewrite IH, <- app_assoc. done.
Qed.

Lemma run_exists now ks n m : inv m ->
  run (exists_scopes now ks n) m = (m, Ok (Response.Integer (n + exists' now ks m))).
Proof.
  intros Hm. revert n. induction ks as [|k ks IH]; intros n; cbn [exists_scopes].
  { unfold exists'. simpl. by rewrite Z.add_0_r. }
  rewrite (run_look k (fun e => exists' now [k] (cell k e))), IH by done. do 3 f_equal.
  change (k :: ks) with ([k] ++ ks). unfold exists'. rewrite !filter_app, !len_app, Z.add_assoc. do 2 f_equal.
  rewrite !filter_cons, entry_cell. by repeat case_decide.
Qed.

(** The reply of a read of sets that goes on with a snapshot. *)
Lemma run_look_set now (k : bytes) (next : option SetValue.t -> scoped) (f : option SetValue.t -> res (list bytes)) m :
  inv m -> (forall s, run (next s) m = read_reply Response.Array (f s) m) ->
  run (look_set now k next) m = read_reply Response.Array (s ← snapshot_set now k m; f s) m.
Proof.
  intros Hm Hn. unfold look_set.
  rewrite (run_look k (fun e => snapshot_set now k (cell k e))) by done.
  replace (snapshot_set now k (cell k (entry k m))) with (snapshot_set now k m)
    by (unfold snapshot_set, read_set; by rewrite entry_cell).
  destruct (snapshot_set now k m); [apply Hn | done..].
Qed.

Lemma run_sinter now ks r m : inv m ->
  run (sinter_scopes now ks r) m = read_reply Response.Array (sinter_loop now ks r m) m.
Proof.
  intros Hm. revert r. induction ks as [|k ks IH]; intros r; cbn [sinter_scopes sinter_loop]; [done|].
  apply run_look_set; [done|]. intros [s|]; [apply IH | done].
Qed.

Lemma run_sunion now ks r m : inv m ->
  run (sunion_scopes now ks r) m =
  read_reply Response.Array (r ← sunion_loop now ks r m; Ok (SetValue.get_all r)) m.
Proof.
  intros Hm. revert r. induction ks as [|k ks IH]; intros r; cbn [sunion_scopes sunion_loop]; [done|].
  rewrite (run_look_set _ _ _ (fun s => r' ← sunion_loop now ks match s with
    | Some set => add_all (SetValue.get_all set) r | None => r end m; Ok (SetValue.get_all r'))) by auto.
  f_equal. by destruct (snapshot_set now k m).
Qed.

Lemma run_sdiff now ks r m : inv m ->
  run (sdiff_scopes now ks r) m =
  read_reply Response.Array (r ← sdiff_loop now ks r m; Ok (SetValue.get_all r)) m.
Proof.
  intros Hm. revert r. induction ks as [|k ks IH]; intros r; cbn [sdiff_scopes sdiff_loop]; [done|].
  rewrite (run_look_set _ _ _ (fun s => r' ← sdiff_loop now ks match s with
    | Some set => add_all (SetValue.difference r set) SetValue.new | None => r end m;
    Ok (SetValue.get_all r'))) by auto.
  f_equal. by destruct (snapshot_set now k m).
Qed.

Lemma run_xread now count l out m : inv m ->
  run (xread_scopes now count l out) m =
  read_reply (fun per_stream => Response.Raw
    (if bool_decide (per_stream = []) then nil_array else format_xread per_stream))
    (rest ← xread_loop now count l m; Ok (out ++ rest)) m.
Proof.
  intros Hm. revert out. induction l as [|[k id] l IH]; intros out; cbn [xread_scopes xread_loop].
  { simpl. by rewrite app_nil_r. }
  destruct (StreamId.parse id false) as [c|e|]; [|done..]. cbn [mbind res_bind].
  rewrite (run_look k (fun e => xread now k c count (cell k e))) by done.
  replace (xread now k c count (cell k (entry k m))) with (xread now k c count m)
    by (unfold xread, read_stream; by rewrite entry_cell).
  destruct (xread now k c count m) as [es|e|]; [|done..]. cbn [mbind res_bind]. rewrite IH.
  destruct (xread_loop now count l m) as [rest|e|]; [|done..]. cbn [mbind res_bind].
  f_equal. f_equal. destruct (bool_decide (es = [])); [done|]. by rewrite <- app_assoc.
Qed.

Lemma run_rpoplpush now s d m :
  run (rpoplpush_scopes now s d) m = reply value_or_nil (rpoplpush now s d m).
Proof.
  unfold rpoplpush_scopes, rpoplpush, rpoplpush_pop. rewrite run_locked.
  destruct (with_entry s _ m) as [m' [[v|]| |]]; try done.
  unfold rpoplpush_push. rewrite run_locked. destruct (with_entry d _ m'). by rewrite run_answer.
Qed.

Lemma run_smove now s d x m : run (smove_scopes now s d x) m = reply one_if (smove now s d x m).
Proof.
  unfold smove_scopes, smove, smove_remove. rewrite run_locked.
  destruct (with_entry s _ m) as [m' [[]| |]]; try done.
  unfold smove_add. rewrite run_locked. destruct (with_entry d _ m'). by rewrite run_answer.
Qed.

Lemma run_rename now k k' m :
  run (rename_scopes now k k') m = reply (fun _ => Response.Ok) (rename now k k' m).
Proof.
  unfold rename_scopes, rename, rename_take. rewrite run_locked.
  by destruct (with_entry k _ m) as [m' []].
Qed.

(** *** Commands under one lock *)

(** What the command does with the entry of its key. *)
Definition body_of (now wall : Z) (cmd : Command.t) (k : bytes) (e : option CacheValue)
  : option CacheValue * res Response.t :=
  match execute_storage now wall cmd (cell k e) with
  | Some (t, r) => (t !! k, r)
  | None => (e, Panic)
  end.

Lemma run_one_scope now wall cmd k m :
  run (one_scope now wall cmd k) m = with_entry k (body_of now wall cmd k) m.
Proof.
  unfold one_scope, with_entry, body_of. cbn [run].
  by destruct (execute_storage now wall cmd (cell k (entry k m))) as [[t r]|].
Qed.

(** The shapes an arm takes. *)
Lemma single_reply {A} k (f : option CacheValue -> option CacheValue * res A) (g : A -> Response.t)
    (b : option CacheValue -> option CacheValue * res Response.t) m :
  (forall e, b e = let '(t, r) := reply g (with_entry k f (cell k e)) in (t !! k, r)) ->
  Some (reply g (with_entry k f m)) = Some (with_entry k b m).
Proof.
  intros Hb. f_equal. unfold with_entry at 2. rewrite Hb, with_entry_cell. unfold with_entry.
  destruct (f (entry k m)). simpl. by rewrite lookup_cell.
Qed.

Lemma single_read k (b : option CacheValue -> option CacheValue * res Response.t) r m : inv m ->
  b (entry k m) = (entry k m, r) -> Some (m, r) = Some (with_entry k b m).
Proof. intros Hm Hb. unfold with_entry. by rewrite Hb, set_entry_id. Qed.

Lemma single_pair {A} k (f : option CacheValue -> option CacheValue * A) (g : A -> res Response.t)
    (b : option CacheValue -> option CacheValue * res Response.t) m m' r :
  with_entry k f m = (m', r) ->
  (forall e, b e = (fst (f e), g (snd (f e)))) -> Some (m', g r) = Some (with_entry k b m).
Proof.
  intros Hf Hb. unfold with_entry in *. rewrite Hb. destruct (f (entry k m)). simpl.
  by injection Hf as <- <-.
Qed.

(** The commands that take several locks. *)
Definition many_scopes (cmd : Command.t) : bool :=
  match cmd with
  | Command.MSet _ | Command.HMSet _ _ | Command.HMGet _ _ | Command.RPopLPush _ _
  | Command.SMove _ _ _ | Command.Rename _ _ | Command.MGet _ | Command.Exists _
  | Command.SInter _ | Command.SUnion _ | Command.SDiff _ | Command.XRead _ _ _ => true
  | _ => false
  end.

(** The value that a command leaves in the cell of its key. *)
Tactic Notation "in_cell" reference(op) :=
  intros; unfold body_of, execute_storage, execute_strings, execute_ttl, execute_strings2, op;
  rewrite with_entry_cell; cbn; by rewrite lookup_cell.
Ltac single_write := apply single_reply; intros; unfold body_of; to_arm; reflexivity.
Ltac single_look :=
  apply single_read; [done|]; unfold body_of; to_arm; cbn [read_reply reply fst snd];
  rewrite lookup_cell;
  unfold zrevrange, get, strlen, hget, hgetall, hkeys, hvals, hlen, hexists, lrange, llen, lindex, smembers, sismember,
    scard, zrange, zrank, zscore, zcard, zcount, pttl_millis, get_range, zrange_by_score,
    type_of, xlen, srand_member, xrange, read_hash, read_list, read_set, read_zset, read_stream;
  rewrite ?entry_cell; reflexivity.

Lemma single_set now wall k v ttl m : inv m ->
  execute_storage now wall (Command.Set' k v ttl) m =
  Some (with_entry k (body_of now wall (Command.Set' k v ttl) k) m).
Proof.
  intros Hm. unfold with_entry, body_of. to_arm. unfold set.
  destruct (match from_secs <$> ttl with Some _ => _ | None => _ end); cbn [reply fst snd];
    simpl; rewrite ?cell_cell, ?lookup_cell, ?set_entry_id by done; done.
Qed.

Lemma single_set_ex now wall k n v m : inv m ->
  execute_storage now wall (Command.SetEx k n v) m =
  Some (with_entry k (body_of now wall (Command.SetEx k n v) k) m).
Proof.
  intros Hm. unfold with_entry, body_of. to_arm. unfold set_ex.
  destruct (instant_add now (from_secs n)); cbn [reply fst snd];
    simpl; rewrite ?cell_cell, ?lookup_cell, ?set_entry_id by done; done.
Qed.

(** [expire_reply] under the lock of the key. *)
Lemma expire_reply_single now k d (b : option CacheValue -> option CacheValue * res Response.t) m : inv m ->
  (forall e, b e = let '(t, r) := expire_reply now k d (cell k e) in (t !! k, r)) ->
  Some (expire_reply now k d m) = Some (with_entry k b m).
Proof.
  intros Hm Hb. unfold expire_reply in *.
  destruct (instant_add now d) as [a|e|] eqn:E; [|unfold instant_add in E; by case_match|].
  - destruct (set_expiry now k a m) as [m' r] eqn:E'. unfold set_expiry in *.
    eapply (single_pair k _ (fun b => Ok (one_if b))); [exact E'|].
    intros e. rewrite Hb, with_entry_cell. by rewrite lookup_cell.
  - apply single_read; [done|]. by rewrite Hb, lookup_cell.
Qed.

Lemma execute_single now wall cmd k m : inv m -> command_key cmd = Some k -> many_scopes cmd = false ->
  execute_storage now wall cmd m = Some (with_entry k (body_of now wall cmd k) m).
Proof.
  intros Hm Hk Hs. destruct cmd; try discriminate Hk; try discriminate Hs; injection Hk as <-;
    lazymatch goal with
    | |- execute_storage _ _ (Command.Set' _ _ _) _ = _ => by apply single_set
    | |- execute_storage _ _ (Command.SetEx _ _ _) _ = _ => by apply single_set_ex
    | _ => to_arm; lazymatch goal with
           | |- Some (reply _ _) = _ => single_write
           | |- Some (read_reply _ _ _) = _ => single_look
           | |- Some (?m, _) = _ => single_look
           | _ => idtac
           end
    end.
  - destruct (delete key m) as [m' b] eqn:E. unfold execute_storage, execute_strings, or_else. rewrite E.
    eapply (single_pair key _ (fun b : bool => Ok (if b then Response.Ok else Response.Integer 0)));
      [exact E | in_cell delete].
  - destruct (u64_try_from seconds) as [secs|] eqn:E.
    + apply expire_reply_single; [done|]. intros e. unfold body_of. to_arm. by rewrite E.
    + apply single_read; [done|]. unfold body_of. to_arm. by rewrite E, lookup_cell.
  - destruct (u64_try_from millis) as [ms|] eqn:E.
    + apply expire_reply_single; [done|]. intros e. unfold body_of. to_arm. by rewrite E.
    + apply single_read; [done|]. unfold body_of. to_arm. by rewrite E, lookup_cell.
  - destruct (unix_secs <=? unix_secs_of wall) eqn:E.
    + destruct (delete key m) as [m' b] eqn:E'.
      eapply (single_pair key _ (fun b => Ok (one_if b))); [exact E'|].
      intros e. unfold body_of. to_arm. rewrite E. unfold delete. rewrite with_entry_cell.
      by rewrite lookup_cell.
    + apply expire_reply_single; [done|]. intros e. unfold body_of. to_arm. by rewrite E.
  - destruct (persist now key m) as [m' b] eqn:E. to_arm.
    eapply (single_pair key _ (fun b => Ok (one_if b))); [exact E | in_cell persist].
  - destruct (set_nx now key value m) as [m' b] eqn:E. to_arm.
    eapply (single_pair key _ (fun b => Ok (one_if b))); [exact E | in_cell set_nx].
  - destruct count; single_look.
  - unfold xadd_reply. destruct id as [id|]; [|single_write].
    destruct (StreamId.parse id false) as [i|e|] eqn:E; cbn [mbind res_bind].
    + apply single_reply. intros e. unfold body_of. to_arm. unfold xadd_reply. by rewrite E.
    + apply single_read; [done|]. unfold body_of. to_arm. unfold xadd_reply. rewrite E. cbn.
      by rewrite lookup_cell.
    + apply single_read; [done|]. unfold body_of. to_arm. unfold xadd_reply. rewrite E. cbn.
      by rewrite lookup_cell.
  - apply single_read; [done|]. unfold body_of. to_arm. unfold xrange_reply, read_reply, reply. simpl.
    rewrite lookup_cell. unfold xrange, read_stream. by rewrite entry_cell.
Qed.

(** The scopes of a command, in a row, are the command. *)
Lemma run_scopes now wall cmd p m : inv m -> scopes now wall cmd = Some p ->
  execute_storage now wall cmd m = Some (run p m).
Proof.
  intros Hm Hp. destruct (many_scopes cmd) eqn:Hs.
  - destruct cmd; try discriminate Hs; cbn [scopes] in Hp;
      try lazymatch type of Hp with match ?keys with _ => _ end = _ => destruct keys as [|key keys] end;
      apply (inj Some) in Hp as <-; to_arm;
      rewrite ?run_mset, ?run_hmset, ?run_hmget, ?run_mget, ?run_exists, ?run_sinter, ?run_sunion,
        ?run_rpoplpush, ?run_smove, ?run_rename by done; try done.
    + f_equal. symmetry. apply run_look_set; [done|]. intros [s|]; [by apply run_sdiff | done].
    + unfold xread_reply. case_match; [done|]. rewrite run_xread by done.
      by destruct (xread_loop now count _ m).
  - assert (Hk : exists k, command_key cmd = Some k /\ p = one_scope now wall cmd k).
    { destruct cmd; try discriminate Hs; try discriminate Hp; injection Hp as <-; by eexists. }
    destruct Hk as (k & Hk & ->). rewrite run_one_scope. by apply execute_single.
Qed.
End scopes.

(** ** What a command may touch *)

(** All locks are of keys in [K]. *)
Inductive within (K : list bytes) : scoped -> Prop :=
| within_return r : within K (Return r)
| within_locked (k : bytes) body : k ∈ K -> (forall e, within K (snd (body e))) -> within K (Locked k body).

(** No scope changes the entry it locks. *)
Inductive readonly : scoped -> Prop :=
| readonly_return r : readonly (Return r)
| readonly_locked k body :
    (forall e, fst (body e) = e) -> (forall e, readonly (snd (body e))) -> readonly (Locked k body).

#[export] Hint Constructors within readonly : ferric.

Lemma within_locked_op {A} (K : list bytes) (k : bytes) (op : table -> table * A) (next : A -> scoped) :
  k ∈ K -> (forall a, within K (next a)) -> within K (locked k op next).
Proof. intros Hk Hn. constructor; [done|]. intros e. destruct (op (cell k e)). apply Hn. Qed.

(** Reads: they lock keys of [K] and change nothing. *)
Definition looking (K : list bytes) (p : scoped) : Prop := within K p /\ readonly p.

Lemma looking_return K r : looking K (Return r).
Proof. split; constructor. Qed.

Lemma looking_look {A} (K : list bytes) (k : bytes) (op : table -> A) (next : A -> scoped) :
  k ∈ K -> (forall a, looking K (next a)) -> looking K (look k op next).
Proof.
  intros Hk Hn. split.
  - apply within_locked_op; [done|]. intros a. apply Hn.
  - constructor; intros e; simpl; [apply lookup_cell | apply Hn].
Qed.

Section footprint.
Context `{HashOrder, Rng, Layout}.
Implicit Types K : list bytes.

Lemma looking_hmget now k fs out : looking [k] (hmget_scopes now k fs out).
Proof.
  revert out. induction fs as [|f fs IH]; intros out; cbn [hmget_scopes]; [apply looking_return|].
  apply looking_look; [by left | done].
Qed.

Lemma looking_mget now ks out K : ks ⊆ K -> looking K (mget_scopes now ks out).
Proof.
  revert out. induction ks as [|k ks IH]; intros out HK; cbn [mget_scopes]; [apply looking_return|].
  apply looking_look; [apply HK; by left|]. intros v. apply IH. set_solver.
Qed.

Lemma looking_exists now ks n K : ks ⊆ K -> looking K (exists_scopes now ks n).
Proof.
  revert n. induction ks as [|k ks IH]; intros n HK; cbn [exists_scopes]; [apply looking_return|].
  apply looking_look; [apply HK; by left|]. intros v. apply IH. set_solver.
Qed.

Lemma looking_look_set now (k : bytes) next K : k ∈ K -> (forall s, looking K (next s)) ->
  looking K (look_set now k next).
Proof. intros Hk Hn. apply looking_look; [done|]. intros [s| |]; [apply Hn | apply looking_return..]. Qed.

Lemma looking_sinter now ks r K : ks ⊆ K -> looking K (sinter_scopes now ks r).
Proof.
  revert r. induction ks as [|k ks IH]; intros r HK; cbn [sinter_scopes]; [apply looking_return|].
  apply looking_look_set; [apply HK; by left|]. intros [s|]; [apply IH; set_solver | apply looking_return].
Qed.

Lemma looking_sunion now ks r K : ks ⊆ K -> looking K (sunion_scopes now ks r).
Proof.
  revert r. induction ks as [|k ks IH]; intros r HK; cbn [sunion_scopes]; [apply looking_return|].
  apply looking_look_set; [apply HK; by left|]. intros s. apply IH. set_solver.
Qed.

Lemma looking_sdiff now ks r K : ks ⊆ K -> looking K (sdiff_scopes now ks r).
Proof.
  revert r. induction ks as [|k ks IH]; intros r HK; cbn [sdiff_scopes]; [apply looking_return|].
  apply looking_look_set; [apply HK; by left|]. intros s. apply IH. set_solver.
Qed.

Lemma looking_xread now count l out K : l.*1 ⊆ K -> looking K (xread_scopes now count l out).
Proof.
  revert out. induction l as [|[k id] l IH]; intros out HK; cbn [xread_scopes]; [apply looking_return|].
  destruct (StreamId.parse id false) as [c| |]; [|apply looking_return..].
  apply looking_look; [apply HK; simpl; by left|].
  intros [es| |]; [apply IH; set_solver | apply looking_return..].
Qed.

(** The reads of several locks. *)
Lemma looking_scopes now wall cmd p : many_scopes cmd = true -> is_write_command cmd = false ->
  scopes now wall cmd = Some p -> looking (footprint cmd) p.
Proof.
  intros Hs Hw Hp. destruct cmd; try discriminate Hs; try discriminate Hw; cbn [scopes footprint] in *;
    try lazymatch type of Hp with match ?keys with _ => _ end = _ => destruct keys as [|key keys] end;
    apply (inj Some) in Hp as <-.
  - by apply looking_sinter.
  - apply looking_return.
  - by apply looking_sunion.
  - apply looking_return.
  - apply looking_look_set; [by left|]. intros [s|]; [apply looking_sdiff; set_solver | apply looking_return].
  - by apply looking_exists.
  - by apply looking_mget.
  - apply looking_hmget.
  - case_match; [apply looking_return|]. apply looking_xread. intros k (x & -> & Hx)%list_elem_of_fmap.
    destruct x as [k' i']. simpl. by apply elem_of_zip_l in Hx.
Qed.

Lemma within_mset now pairs (K : list bytes) : (forall k, k ∈ pairs.*1 -> k ∈ K) -> within K (mset_scopes now pairs).
Proof.
  induction pairs as [|[k v] pairs IH]; intros HK; cbn [mset_scopes]; [constructor|].
  apply within_locked_op; [apply HK; simpl; by left|]. intros [| |]; [apply IH..|constructor];
    intros k' Hk'; apply HK; simpl; by right.
Qed.

Lemma within_hmset k pairs : within [k] (hmset_scopes k pairs).
Proof.
  induction pairs as [|[f v] pairs IH]; cbn [hmset_scopes]; [constructor|].
  apply within_locked_op; [by left|]. intros [| |]; [done|constructor..].
Qed.

Lemma one_scope_key now wall cmd p : many_scopes cmd = false -> scopes now wall cmd = Some p ->
  exists k, command_key cmd = Some k /\ p = one_scope now wall cmd k.
Proof. intros Hs Hp. destruct cmd; try discriminate Hs; try discriminate Hp; injection Hp as <-; by eexists. Qed.

Lemma within_one_scope now wall cmd k : within [k] (one_scope now wall cmd k).
Proof. constructor; [by left|]. intros e. case_match; [case_match|]; constructor. Qed.

Lemma within_scopes now wall cmd p : scopes now wall cmd = Some p -> within (footprint cmd) p.
Proof.
  intros Hp. destruct (many_scopes cmd) eqn:Hs.
  - destruct (is_write_command cmd) eqn:Hw; [|by apply (looking_scopes now wall)].
    destruct cmd; try discriminate Hs; try discriminate Hw; injection Hp as <-; cbn [footprint command_key].
    + by apply within_mset.
    + apply within_hmset.
    + apply within_locked_op; [by left|]. intros [[v|]| |]; try constructor; [by right; left|].
      intros e. destruct (rpoplpush_push now destination v _). constructor.
    + apply within_locked_op; [by left|]. intros [[]| |]; try constructor; [by right; left|].
      intros e. destruct (smove_add now destination member _). constructor.
    + apply within_locked_op; [by left|]. intros [v| |]; constructor; [by right; left | constructor].
  - destruct (one_scope_key _ _ _ _ Hs Hp) as (k & Hk & ->).
    replace (footprint cmd) with [k]; [apply within_one_scope|].
    destruct cmd; try discriminate Hs; try discriminate Hk; simpl in Hk; injection Hk as <-; done.
Qed.

Lemma readonly_scopes now wall cmd p : is_write_command cmd = false -> scopes now wall cmd = Some p ->
  readonly p.
Proof.
  intros Hw Hp. destruct (many_scopes cmd) eqn:Hs.
  - by apply (looking_scopes now wall cmd).
  - destruct (one_scope_key _ _ _ _ Hs Hp) as (k & _ & ->). constructor; intros e.
    + destruct (execute_storage now wall cmd (cell k e)) as [[t r]|] eqn:E; [|done].
      apply execute_storage_read in E; [|done]. subst t. apply lookup_cell.
    + case_match; [case_match|]; constructor.
Qed.
End footprint.

(** Induction over the scopes that may follow. *)
Lemma scoped_steps (P : scoped -> Prop) : (forall r, P (Return r)) ->
  (forall k body, (forall e, P (snd (body e))) -> P (Locked k body)) -> forall p, P p.
Proof.
  intros HR HL. fix go 1. intros [r|k body]; [apply HR|]. apply HL. intros e.
  destruct (body e) as [e' p]. apply go.
Qed.

Section local.
Context `{KeyMapLaws M}.
Implicit Types m : M.

Lemma run_inv p m : inv m -> inv (fst (run p m)).
Proof.
  revert m. induction p as [r|k body IH] using scoped_steps; intros m Hm; cbn [run]; [done|].
  specialize (IH (entry k m)). destruct (body (entry k m)) as [e p]. by apply IH, set_entry_inv.
Qed.

(** A command leaves the keys alone that it does not lock. *)
Lemma run_frame K p m k : within K p -> inv m -> k ∉ K -> entry k (fst (run p m)) = entry k m.
Proof.
  intros Hp. revert m. induction Hp as [r|k' body Hk' Hb IH]; intros m Hm Hk; cbn [run]; [done|].
  specialize (IH (entry k' m)). destruct (body (entry k' m)) as [e p]. cbn [snd] in IH.
  rewrite IH, entry_set_entry by auto using set_entry_inv. by rewrite decide_False by (intros ->; done).
Qed.

(** ... and does not look at them. *)
Lemma run_local {M'} `{KeyMapLaws M'} K p m (m' : M') : within K p -> inv m -> inv m' ->
  (forall k, k ∈ K -> entry k m = entry k m') ->
  snd (run p m) = snd (run p m') /\
  (forall k, k ∈ K -> entry k (fst (run p m)) = entry k (fst (run p m'))).
Proof.
  intros Hp. revert m m'. induction Hp as [r|k' body Hk' Hb IH]; intros m m' Hm Hm' He; cbn [run]; [done|].
  rewrite (He k' Hk'). specialize (IH (entry k' m')). destruct (body (entry k' m')) as [e p].
  cbn [snd] in IH. apply IH; auto using set_entry_inv.
  intros k Hk. rewrite !entry_set_entry by done. case_decide; auto.
Qed.

Lemma run_readonly p m : readonly p -> inv m -> fst (run p m) = m.
Proof.
  intros Hp Hm. induction Hp as [r|k body He Hb IH]; cbn [run]; [done|].
  specialize (He (entry k m)). specialize (IH (entry k m)). destruct (body (entry k m)) as [e p].
  simpl in He. subst e. by rewrite set_entry_id.
Qed.
End local.
