(* ===== verification/Serializability.v ===== *)
(** * Serializability: race-free tasks as commands one after the other

    The invariant behind [ConcurrencyTheorems]: as long as no two tasks are in
    commands that conflict, the storage is what the commands recorded so far
    give one after the other, except for the keys of the writes that are
    recorded and not finished, and those will be once they finish
    ([tracks]).  The invariant is kept by every step, for the order of the log
    and for the order of the replicas alike ([step_world]). *)

From S2P Require Import Prelude Text External Float64 BTree Values SortedSet SortedSetFacts Stream.
From S2P Require Import Keyspace ShardedMap Storage StorageTypes StorageFacts ListFacts SetFacts.
From S2P Require Import Resp Command Apply ApplyFacts ReplayClocks Ring Transactions Security.
From S2P Require Import PubSub Scripting Server ServerFacts Concurrency ConcurrencyFacts.
#[local] Open Scope Z_scope.

(** ** Races *)

Abbreviation tasks_t := (gmap nat Task.t).

Definition disjoint_tasks (T : tasks_t) : Prop :=
  forall i j x y, i <> j -> T !! i = Some x -> T !! j = Some y -> conflict (Task.cmd x) (Task.cmd y) = false.

Lemma race_free_disjoint (T : tasks_t) : race_free (map_to_list T) = true -> disjoint_tasks T.
Proof.
  unfold race_free. intros Hr i j x y Hij Hx Hy.
  rewrite forallb_forall in Hr. specialize (Hr (i, x)).
  rewrite <- list_elem_of_In, elem_of_map_to_list in Hr. specialize (Hr Hx).
  rewrite forallb_forall in Hr. specialize (Hr (j, y)).
  rewrite <- list_elem_of_In, elem_of_map_to_list in Hr. specialize (Hr Hy). simpl in Hr.
  rewrite bool_decide_false in Hr by done. by apply negb_true_iff in Hr.
Qed.

Lemma conflict_apart c c' (k : bytes) : conflict c c' = false ->
  is_write_command c || is_write_command c' = true -> k ∈ footprint c -> k ∉ footprint c'.
Proof.
  unfold conflict. intros Hc Ho Hk Hk'. rewrite Ho in Hc. simpl in Hc. apply not_true_iff_false in Hc. apply Hc.
  apply existsb_exists. exists k. rewrite <- list_elem_of_In. split; [done|]. by apply bool_decide_eq_true.
Qed.

(** ** Serial executions *)

Definition replies_of (i : nat) (l : list (nat * res Response.t)) : list (res Response.t) :=
  (filter (fun x => x.1 = i) l).*2.

Lemma replies_of_app i l l' : replies_of i (l ++ l') = replies_of i l ++ replies_of i l'.
Proof. unfold replies_of. by rewrite filter_app, fmap_app. Qed.

Lemma replies_of_same i r : replies_of i [(i, r)] = [r].
Proof. unfold replies_of. by rewrite filter_cons_True. Qed.

Lemma replies_of_other i j r : i <> j -> replies_of i [(j, r)] = [].
Proof. intros Hij. unfold replies_of. by rewrite filter_cons_False by (simpl; congruence). Qed.

Section serial.
Context `{KeyMapLaws M, Layout}.
Implicit Types m : M.

Lemma serial_app l l' m : serial (l ++ l') m =
  let '(m, rs) := serial l m in let '(m, rs') := serial l' m in (m, rs ++ rs').
Proof.
  revert m. induction l as [|[[i e] cmd] l IH]; intros m; simpl; [by destruct (serial l' m)|].
  destruct (perform e cmd m) as [m1 r]. rewrite IH. destruct (serial l m1) as [m2 rs].
  by destruct (serial l' m2).
Qed.

Lemma serial_snoc l i e cmd m : serial (l ++ [(i, e, cmd)]) m =
  (fst (perform e cmd (fst (serial l m))),
   snd (serial l m) ++ [(i, snd (perform e cmd (fst (serial l m))))]).
Proof. rewrite serial_app. destruct (serial l m) as [m' rs]. simpl. by destruct (perform e cmd m'). Qed.

Lemma perform_scopes e cmd p m : inv m -> scopes_at e cmd = Some p ->
  perform e cmd m = run p m.
Proof. intros Hm Hp. unfold perform. unfold execute_at. by rewrite (run_scopes _ _ _ p) by done. Qed.

Lemma lockable_scopes e cmd : lockable e cmd = true -> exists p, scopes_at e cmd = Some p.
Proof. unfold lockable. intros [p Hp]%bool_decide_eq_true. by exists p. Qed.

Lemma serial_inv l m : inv m -> Forall (fun x => lockable x.1.2 x.2 = true) l -> inv (fst (serial l m)).
Proof.
  intros Hm. revert m Hm. induction l as [|[[i e] cmd] l IH]; intros m Hm Hl; simpl; [done|].
  apply Forall_cons in Hl as [Hc Hl]. destruct (lockable_scopes _ _ Hc) as [p Hp]. simpl in Hp.
  rewrite (perform_scopes e cmd p m) by done. pose proof (run_inv p m Hm) as Hi.
  destruct (run p m) as [m1 r]. specialize (IH m1 Hi Hl). by destruct (serial l m1).
Qed.
End serial.

(** ** The invariant *)

(** What the task still does to the storage. *)
Definition residual `{Layout} (x : Task.t) : scoped :=
  match Task.at_stage x with Running p => p | _ => scopes_of x end.

Record task_wf `{Layout} (x : Task.t) : Prop := {
  wf_lockable : lockable (Task.env x) (Task.cmd x) = true;
  wf_within : within (footprint (Task.cmd x)) (residual x);
  wf_readonly : is_write_command (Task.cmd x) = false -> readonly (residual x);
  wf_queue : forallb (fun '(e, cmd) => lockable e cmd) (Task.queue x) = true;
  wf_stage : match Task.at_stage x with
             | Logged | Sent => is_write_command (Task.cmd x) = true
             | _ => True
             end;
}.

Section tracks.
Context `{KeyMapLaws M, Layout}.
Implicit Types (m : M) (T : tasks_t) (q : list (nat * Env * Command.t)).
Variable m0 : M.
Hypothesis Hm0 : inv m0.
(** Whether a task's command is in the order [q]. *)
Variable late : Task.t -> bool.

(** A recorded write that is not finished. *)
Definition pending (x : Task.t) : Prop := late x = true /\ is_write_command (Task.cmd x) = true.

Record tracks q m T (R : list (nat * res Response.t)) : Prop := {
  tr_inv : inv m;
  tr_lockable : Forall (fun x => lockable x.1.2 x.2 = true) q;
  tr_free : forall k, (forall i x, T !! i = Some x -> pending x -> k ∉ footprint (Task.cmd x)) ->
    entry k m = entry k (fst (serial q m0));
  tr_owned : forall i x k, T !! i = Some x -> pending x -> k ∈ footprint (Task.cmd x) ->
    entry k (fst (run (residual x) m)) = entry k (fst (serial q m0));
  tr_reply : forall i x, T !! i = Some x -> late x = true ->
    replies_of i R ++ [snd (run (residual x) m)] = replies_of i (snd (serial q m0));
  tr_done : forall i, (forall x, T !! i = Some x -> late x = false) ->
    replies_of i R = replies_of i (snd (serial q m0));
}.

Lemma tracks_start : tracks [] m0 ∅ [].
Proof. split; try done; intros; by rewrite lookup_empty in *. Qed.

(** A connection that starts. *)
Lemma tracks_new q m T R i x : tracks q m T R -> T !! i = None -> late x = false ->
  tracks q m (<[i := x]> T) R.
Proof.
  intros [Hi Hl Hf Ho Hr Hd] Hx Hlate. split; try done.
  - intros k Hk. apply Hf. intros j y Hy Hp. apply (Hk j); [|done].
    rewrite lookup_insert_ne; [done|]. intros ->. congruence.
  - intros j y k [[-> <-]|[Hj Hy]]%lookup_insert_Some [Hp1 Hp2] Hk; [congruence|].
    eapply Ho; [done|by split|done].
  - intros j y [[-> <-]|[Hj Hy]]%lookup_insert_Some Hlj; [congruence | by apply Hr].
  - intros j Hj. apply Hd. intros y Hy. apply Hj. rewrite lookup_insert_ne; [done|]. intros ->. congruence.
Qed.

(** A step that is not one of this order or of the storage. *)
Lemma tracks_stay q m T R i x x' : tracks q m T R -> T !! i = Some x ->
  Task.cmd x' = Task.cmd x -> residual x' = residual x -> late x' = late x ->
  tracks q m (<[i := x']> T) R.
Proof.
  intros [Hi Hl Hf Ho Hr Hd] Hx Hc Hres Hlate. split; try done.
  - intros k Hk. apply Hf. intros j y Hy [Hp1 Hp2]. destruct (decide (j = i)) as [->|Hj].
    + simplify_eq. rewrite <- Hc. apply (Hk i x'); [by rewrite lookup_insert_eq|]. split; congruence.
    + apply (Hk j); [by rewrite lookup_insert_ne | done].
  - intros j y k [[-> <-]|[Hj Hy]]%lookup_insert_Some [Hp1 Hp2] Hk.
    + rewrite Hres. eapply Ho; [done| |by rewrite <- Hc]. split; congruence.
    + eapply Ho; [done|by split|done].
  - intros j y [[-> <-]|[Hj Hy]]%lookup_insert_Some Hlj; [|by apply Hr].
    rewrite Hres. apply Hr; [done | congruence].
  - intros j Hj. apply Hd. intros y Hy. destruct (decide (j = i)) as [->|Hji].
    + simplify_eq. rewrite <- Hlate. apply Hj. by rewrite lookup_insert_eq.
    + apply Hj. by rewrite lookup_insert_ne.
Qed.

(** A command that is recorded: nobody else holds its keys, so it finds there
    what the serial execution finds. *)
Lemma tracks_enter q m T R i x x' : tracks q m T R -> disjoint_tasks T -> T !! i = Some x -> task_wf x ->
  Task.cmd x' = Task.cmd x -> residual x = scopes_of x -> residual x' = scopes_of x ->
  late x = false -> late x' = true ->
  tracks (q ++ [(i, Task.env x, Task.cmd x)]) m (<[i := x']> T) R.
Proof.
  intros [Hi Hl Hf Ho Hr Hd] Hdis Hx Hwf Hc Hres Hres' Hlate Hlate'.
  destruct (lockable_scopes _ _ (wf_lockable x Hwf)) as [p Hp].
  assert (Hsp : scopes_of x = p) by (unfold scopes_of; by rewrite Hp).
  pose proof (wf_within x Hwf) as Hwi. pose proof (wf_readonly x Hwf) as Hro.
  rewrite Hres, Hsp in Hwi, Hro. rewrite Hsp in Hres'.
  assert (Hiq : inv (fst (serial q m0))) by by apply serial_inv.
  set (mq := fst (serial q m0)) in *.
  assert (Hagree : forall k, k ∈ footprint (Task.cmd x) -> entry k m = entry k mq).
  { intros k Hk. apply Hf. intros j y Hy [Hp1 Hp2] Hky.
    destruct (decide (j = i)) as [->|Hj]; [congruence|].
    eapply (conflict_apart (Task.cmd y) (Task.cmd x)); [by eapply (Hdis j i)|by rewrite Hp2|done..]. }
  destruct (run_local _ p m mq Hwi Hi Hiq Hagree) as [Hreply Hentries].
  assert (Hperf : perform (Task.env x) (Task.cmd x) mq = run p mq) by by apply perform_scopes.
  assert (Hkeep : forall j y k, T !! j = Some y -> j <> i -> is_write_command (Task.cmd y) = true ->
    k ∈ footprint (Task.cmd y) -> entry k (fst (run p mq)) = entry k mq).
  { intros j y k Hy Hj Hw Hk. eapply run_frame; [done|done|].
    eapply (conflict_apart (Task.cmd y)); [by eapply (Hdis j i)|by rewrite Hw|done]. }
  split; rewrite ?serial_snoc; fold mq; rewrite ?Hperf; cbn [fst snd].
  - done.
  - apply Forall_app. split; [done|]. apply Forall_singleton. simpl. by apply wf_lockable.
  - intros k Hk. destruct (is_write_command (Task.cmd x)) eqn:Hw.
    + assert (Hki : k ∉ footprint (Task.cmd x)).
      { rewrite <- Hc. apply (Hk i x'); [by rewrite lookup_insert_eq|]. split; [done|congruence]. }
      rewrite (run_frame _ p mq k Hwi Hiq Hki). apply Hf. intros j y Hy Hpy. apply (Hk j); [|done].
      rewrite lookup_insert_ne; [done|]. intros ->. destruct Hpy. congruence.
    + rewrite run_readonly by auto. apply Hf. intros j y Hy Hpy. apply (Hk j); [|done].
      rewrite lookup_insert_ne; [done|]. intros ->. destruct Hpy. congruence.
  - intros j y k [[-> <-]|[Hj Hy]]%lookup_insert_Some [Hp1 Hp2] Hk.
    + rewrite Hres'. apply Hentries. by rewrite <- Hc.
    + erewrite Hkeep; [|done..]. eapply Ho; [done|by split|done].
  - intros j y [[-> <-]|[Hj Hy]]%lookup_insert_Some Hlj; rewrite replies_of_app.
    + rewrite replies_of_same, Hres', Hreply. f_equal. apply Hd. intros z Hz. congruence.
    + rewrite replies_of_other, app_nil_r by done. by apply Hr.
  - intros j Hj. destruct (decide (j = i)) as [->|Hji].
    { specialize (Hj x'). rewrite lookup_insert_eq in Hj. specialize (Hj eq_refl). congruence. }
    rewrite replies_of_app, replies_of_other, app_nil_r by done. apply Hd. intros y Hy. apply Hj.
    by rewrite lookup_insert_ne.
Qed.

(** A lock scope of a reader changes nothing, and what a lock scope changes is
    no key of another task. *)
Lemma reader_keeps m x k body v p : task_wf x -> is_write_command (Task.cmd x) = false ->
  Task.at_stage x = Running (Locked k body) -> body (entry k m) = (v, p) -> v = entry k m.
Proof.
  intros Hwf Hw Hst Hb. pose proof (wf_readonly x Hwf Hw) as Hro. unfold residual in Hro.
  rewrite Hst in Hro. inversion Hro as [|? ? Hsame]; subst. specialize (Hsame (entry k m)).
  by rewrite Hb in Hsame.
Qed.

Lemma scope_key x k body : task_wf x -> Task.at_stage x = Running (Locked k body) ->
  k ∈ footprint (Task.cmd x).
Proof.
  intros Hwf Hst. pose proof (wf_within x Hwf) as Hw. unfold residual in Hw. rewrite Hst in Hw.
  by inversion Hw.
Qed.

Lemma scope_unseen m T i j x y k body v p : inv m -> disjoint_tasks T -> T !! i = Some x -> T !! j = Some y ->
  j <> i -> task_wf x -> task_wf y -> Task.at_stage x = Running (Locked k body) ->
  body (entry k m) = (v, p) ->
  snd (run (residual y) (set_entry k v m)) = snd (run (residual y) m) /\
  forall k', k' ∈ footprint (Task.cmd y) ->
    entry k' (fst (run (residual y) (set_entry k v m))) = entry k' (fst (run (residual y) m)).
Proof.
  intros Hi Hdis Hx Hy Hj Hwf Hwfy Hst Hb.
  apply run_local; [by apply wf_within|by apply set_entry_inv|done|].
  intros k' Hk'. rewrite entry_set_entry by done. case_decide as E; [subst k'|done].
  destruct (is_write_command (Task.cmd x)) eqn:Hw; [|by apply (reader_keeps m x k body v p)].
  exfalso. apply (conflict_apart (Task.cmd x) (Task.cmd y) k);
    [by apply (Hdis i j); auto|by rewrite Hw|by eapply scope_key|done].
Qed.

Lemma tracks_run q m T R i x k body v p : tracks q m T R -> disjoint_tasks T -> T !! i = Some x ->
  (forall j y, T !! j = Some y -> task_wf y) ->
  Task.at_stage x = Running (Locked k body) -> late x = true ->
  late (Task.set_stage (Running p) x) = true -> body (entry k m) = (v, p) ->
  tracks q (set_entry k v m) (<[i := Task.set_stage (Running p) x]> T) R.
Proof.
  intros [Hi Hl Hf Ho Hr Hd] Hdis Hx Hwfs Hst Hlate Hlate' Hb. pose proof (Hwfs i x Hx) as Hwf.
  assert (Hrun : run (residual x) m = run p (set_entry k v m))
    by (unfold residual; rewrite Hst; cbn [run]; by rewrite Hb).
  assert (Hother : forall j y, T !! j = Some y -> i <> j -> _)
    by exact (fun j y Hy Hj => scope_unseen m T i j x y k body v p Hi Hdis Hx Hy (not_eq_sym Hj) Hwf
      (Hwfs j y Hy) Hst Hb).
  split; cbn [fst snd].
  - by apply set_entry_inv.
  - done.
  - intros j Hj. rewrite entry_set_entry by done. case_decide as E.
    + subst j. destruct (is_write_command (Task.cmd x)) eqn:Hw.
      { exfalso. apply (Hj i (Task.set_stage (Running p) x)); [by rewrite lookup_insert_eq|by split|].
        by apply (scope_key x k body). }
      rewrite (reader_keeps m x k body v p) by done. apply Hf.
      intros j y Hy Hpy. destruct (decide (j = i)) as [->|Hji]; [destruct Hpy; congruence|].
      apply (Hj j); [by rewrite lookup_insert_ne|done].
    + apply Hf. intros j' y Hy Hpy. destruct (decide (j' = i)) as [->|Hji].
      * simplify_eq. apply (Hj i (Task.set_stage (Running p) x)); [by rewrite lookup_insert_eq|].
        split; [done|apply Hpy].
      * apply (Hj j'); [by rewrite lookup_insert_ne|done].
  - intros j y k' [[-> <-]|[Hj Hy]]%lookup_insert_Some [Hp1 Hp2] Hk'.
    + change (residual (Task.set_stage (Running p) x)) with p. rewrite <- Hrun.
      eapply Ho; [done|by split|done].
    + rewrite (proj2 (Hother j y Hy Hj) k' Hk'). eapply Ho; [done|by split|done].
  - intros j y [[-> <-]|[Hj Hy]]%lookup_insert_Some Hlj.
    + change (residual (Task.set_stage (Running p) x)) with p. rewrite <- Hrun. by apply Hr.
    + rewrite (proj1 (Hother j y Hy Hj)). by apply Hr.
  - intros j Hj. apply Hd. intros y Hy. destruct (decide (j = i)) as [->|Hji].
    + specialize (Hj (Task.set_stage (Running p) x)). rewrite lookup_insert_eq in Hj.
      specialize (Hj eq_refl). congruence.
    + apply Hj. by rewrite lookup_insert_ne.
Qed.

(** A command that ends gives the answer of the serial execution. *)
Lemma tracks_finish q m T R i x r next : tracks q m T R -> T !! i = Some x ->
  Task.at_stage x = Running (Return r) -> late x = true ->
  (forall y, next = Some y -> late y = false) ->
  tracks q m (partial_alter (fun _ => next) i T) (R ++ [(i, r)]).
Proof.
  intros [Hi Hl Hf Ho Hr Hd] Hx Hst Hlate Hnext.
  assert (Hres : residual x = Return r) by (unfold residual; by rewrite Hst).
  assert (Hin : forall j y, partial_alter (fun _ => next) i T !! j = Some y ->
    (j = i /\ next = Some y) \/ (j <> i /\ T !! j = Some y)).
  { intros j y. destruct (decide (j = i)) as [->|Hj].
    - rewrite lookup_partial_alter_eq. by left.
    - rewrite lookup_partial_alter_ne by done. by right. }
  split; try done.
  - intros k Hk. destruct (decide (pending x /\ k ∈ footprint (Task.cmd x))) as [[Hp Hkx]|Hn].
    + pose proof (Ho i x k Hx Hp Hkx) as He. by rewrite Hres in He.
    + apply Hf. intros j y Hy Hpy Hky. destruct (decide (j = i)) as [->|Hj]; [simplify_eq; by apply Hn|].
      eapply (Hk j); [by rewrite lookup_partial_alter_ne | done..].
  - intros j y k [[-> Hy]|[Hj Hy]]%Hin [Hp1 Hp2] Hk; [apply Hnext in Hy; congruence|].
    eapply Ho; [done|by split|done].
  - intros j y [[-> Hy]|[Hj Hy]]%Hin Hlj; [apply Hnext in Hy; congruence|].
    rewrite replies_of_app, replies_of_other, app_nil_r by done. by apply Hr.
  - intros j Hj. rewrite replies_of_app. destruct (decide (j = i)) as [->|Hji].
    + rewrite replies_of_same. pose proof (Hr i x Hx Hlate) as He. by rewrite Hres in He.
    + rewrite replies_of_other, app_nil_r by done. apply Hd. intros y Hy. apply Hj.
      by rewrite lookup_partial_alter_ne.
Qed.
End tracks.

(** ** The whole server *)

Definition late_log (x : Task.t) : bool :=
  match Task.at_stage x with Begin => false | _ => true end.
Definition late_ship (x : Task.t) : bool :=
  match Task.at_stage x with Sent | Running _ => true | _ => false end.

(** The writes of an order, as the log has them and as the replicas get them. *)
Definition is_write_of (x : nat * Env * Command.t) : bool := is_write_command x.2.
Definition log_of (q : list (nat * Env * Command.t)) : list Command.t :=
  map snd (List.filter is_write_of q).

Lemma log_of_snoc q x : log_of (q ++ [x]) = log_of q ++ (if is_write_of x then [x.2] else []).
Proof. unfold log_of. rewrite List.filter_app, map_app. simpl. by destruct (is_write_of x). Qed.

Section world.
Context `{KeyMapLaws M, Mpsc B, Layout, Xxh3}.
Implicit Types (w : World.t M B) (s : Server.t M B).
Variable s0 : Server.t M B.
Hypothesis Hs0 : inv (Server.storage s0).

Record world_ok w : Prop := {
  ok_tasks : forall i x, World.tasks w !! i = Some x -> task_wf x;
  ok_versions : versions_wf (Server.versions (World.server w));
  ok_order : tracks (Server.storage s0) late_log (World.order w) (Server.storage (World.server w))
    (World.tasks w) (World.replies w);
  ok_shipped : tracks (Server.storage s0) late_ship (World.shipped w) (Server.storage (World.server w))
    (World.tasks w) (World.replies w);
  ok_wal : Forall (fun x => append_ok x.1.2 = true) (World.order w) ->
    Server.wal (World.server w) = (fun l => l ++ log_of (World.order w)) <$> Server.wal s0;
  ok_replicator : Server.replicator (World.server w) =
    (fun l => l ++ log_of (World.shipped w)) <$> Server.replicator s0;
}.

Lemma begin_wf e cmd q : lockable e cmd = true -> forallb (fun '(e, cmd) => lockable e cmd) q = true ->
  task_wf (Task.mk e cmd Begin q).
Proof.
  intros Hc Hq. destruct (lockable_scopes _ _ Hc) as [p Hp].
  assert (Hres : residual (Task.mk e cmd Begin q) = p) by (unfold residual, scopes_of; simpl; by rewrite Hp).
  split; simpl; rewrite ?Hres; try done; [by eapply within_scopes | intros; by eapply readonly_scopes].
Qed.

(** The stages before the storage operation have all of it before them. *)
Lemma residual_scopes x : match Task.at_stage x with Running _ => False | _ => True end ->
  residual x = scopes_of x.
Proof. unfold residual. by destruct (Task.at_stage x). Qed.

Lemma set_stage_wf x g : task_wf x -> residual (Task.set_stage g x) = residual x ->
  match g with Logged | Sent => is_write_command (Task.cmd x) = true | _ => True end ->
  task_wf (Task.set_stage g x).
Proof. intros [Hc Hwi Hro Hq Hs] Hres Hg. by split; rewrite ?Hres. Qed.

Lemma scope_wf x k body e : task_wf x -> Task.at_stage x = Running (Locked k body) ->
  task_wf (Task.set_stage (Running (snd (body e))) x).
Proof.
  intros [Hc Hwi Hro Hq Hs] Hst. unfold residual in *. rewrite Hst in *.
  split; unfold residual; simpl; try done.
  - inversion Hwi; subst; auto.
  - intros Hw. specialize (Hro Hw). inversion Hro; subst; auto.
Qed.

Lemma next_wf r x y : task_wf x -> next_task r x = Some y -> task_wf y /\ late_log y = false.
Proof.
  intros Hwf. unfold next_task. pose proof (wf_queue x Hwf) as Hq.
  destruct r as [a|msg|], (Task.queue x) as [|[e cmd] q]; try done. intros [= <-]. simpl in Hq.
  apply andb_true_iff in Hq as [Hc Hq]. split; [by apply begin_wf | done].
Qed.

Lemma insert_wf (T : tasks_t) i x : (forall j y, T !! j = Some y -> task_wf y) -> task_wf x ->
  forall j y, <[i := x]> T !! j = Some y -> task_wf y.
Proof. intros HT Hx j y [[-> <-]|[Hj Hy]]%lookup_insert_Some; [done | by eapply HT]. Qed.

Lemma bump_ok cmd v : versions_wf v -> exists v', bump_versions_for cmd v = Ok v' /\ versions_wf v'.
Proof.
  intros Hv. rewrite bump_versions_bumps.
  destruct (bump_all_version (bumps cmd) v Hv (bumps_lt cmd)) as (v' & Hb & Hw & _). by exists v'.
Qed.

Lemma world_start : versions_wf (Server.versions s0) -> world_ok (World.idle s0).
Proof.
  intros Hv. split; simpl; try done; try by apply tracks_start.
  - intros _. destruct (Server.wal s0); simpl; [|done]. by rewrite app_nil_r.
  - destruct (Server.replicator s0); simpl; [|done]. by rewrite app_nil_r.
Qed.

(** A connection that starts a command or a transaction. *)
Lemma world_new w i x : world_ok w -> World.tasks w !! i = None -> task_wf x -> Task.at_stage x = Begin ->
  world_ok (World.set_task i x w).
Proof.
  intros [Ht Hv Ho Hs Hw Hr] Hi Hx Hb. split; simpl; try done.
  - by apply insert_wf.
  - apply tracks_new; [done..|]. unfold late_log. by rewrite Hb.
  - apply tracks_new; [done..|]. unfold late_ship. by rewrite Hb.
Qed.

(** A step of a task between the stages before the storage operation. *)
Lemma late_ship_log x : late_log x = false -> late_ship x = false.
Proof. unfold late_log, late_ship. by destruct (Task.at_stage x). Qed.

(** The log: the command is recorded in its order. *)
Lemma world_log w i x : world_ok w -> disjoint_tasks (World.tasks w) -> World.tasks w !! i = Some x ->
  Task.at_stage x = Begin -> is_write_command (Task.cmd x) = true -> world_ok (advance i x w).
Proof.
  intros [Ht Hv Ho Hs Hw Hr] Hd Hx Hst Hcmd. unfold advance. rewrite Hst, Hcmd.
  assert (Hres : residual x = scopes_of x) by (apply residual_scopes; by rewrite Hst).
  pose proof (Ht i x Hx) as Hwf. split; simpl; try done.
  - apply insert_wf; [done|]. by apply set_stage_wf.
  - eapply tracks_enter; try done. unfold late_log. by rewrite Hst.
  - eapply tracks_stay; try done. unfold late_ship. by rewrite Hst.
  - intros [Hall [Hone _]%Forall_cons]%Forall_app. simpl in Hone. rewrite Hone, (Hw Hall), log_of_snoc.
    unfold is_write_of. simpl. rewrite Hcmd. destruct (Server.wal s0); simpl; [|done].
    by rewrite <- app_assoc.
Qed.

(** A read starts to read. *)
Lemma world_read w i x : world_ok w -> disjoint_tasks (World.tasks w) -> World.tasks w !! i = Some x ->
  Task.at_stage x = Begin -> is_write_command (Task.cmd x) = false -> world_ok (advance i x w).
Proof.
  intros [Ht Hv Ho Hs Hw Hr] Hd Hx Hst Hcmd. unfold advance. rewrite Hst, Hcmd.
  assert (Hres : residual x = scopes_of x) by (apply residual_scopes; by rewrite Hst).
  pose proof (Ht i x Hx) as Hwf. split; simpl; try done.
  - apply insert_wf; [done|]. by apply set_stage_wf.
  - eapply tracks_enter; try done. unfold late_log. by rewrite Hst.
  - eapply tracks_enter; try done. unfold late_ship. by rewrite Hst.
  - intros [Hall _]%Forall_app. rewrite (Hw Hall), log_of_snoc.
    unfold is_write_of. simpl. rewrite Hcmd. by rewrite app_nil_r.
  - rewrite Hr, log_of_snoc. unfold is_write_of. simpl. rewrite Hcmd. by rewrite app_nil_r.
Qed.

(** The replicas. *)
Lemma world_send w i x : world_ok w -> disjoint_tasks (World.tasks w) -> World.tasks w !! i = Some x ->
  Task.at_stage x = Logged -> world_ok (advance i x w).
Proof.
  intros [Ht Hv Ho Hs Hw Hr] Hd Hx Hst. unfold advance. rewrite Hst.
  assert (Hres : residual x = scopes_of x) by (apply residual_scopes; by rewrite Hst).
  pose proof (Ht i x Hx) as Hwf. pose proof (wf_stage x Hwf) as Hcmd. rewrite Hst in Hcmd.
  split; simpl; try done.
  - apply insert_wf; [done|]. by apply set_stage_wf.
  - eapply tracks_stay; try done. unfold late_log. by rewrite Hst.
  - eapply tracks_enter; try done. unfold late_ship. by rewrite Hst.
  - rewrite Hr, log_of_snoc. unfold is_write_of. simpl. rewrite Hcmd.
    destruct (Server.replicator s0); simpl; [|done]. by rewrite <- app_assoc.
Qed.

(** The counters. *)
Lemma world_count w i x : world_ok w -> World.tasks w !! i = Some x ->
  Task.at_stage x = Sent -> world_ok (advance i x w).
Proof.
  intros [Ht Hv Ho Hs Hw Hr] Hx Hst. unfold advance. rewrite Hst.
  assert (Hres : residual x = scopes_of x) by (apply residual_scopes; by rewrite Hst).
  pose proof (Ht i x Hx) as Hwf. destruct (bump_ok (Task.cmd x) _ Hv) as (v' & -> & Hv').
  split; simpl; try done.
  - apply insert_wf; [done|]. by apply set_stage_wf.
  - eapply tracks_stay; try done. unfold late_log. by rewrite Hst.
  - eapply tracks_stay; try done. unfold late_ship. by rewrite Hst.
Qed.

(** The storage operation. *)
Lemma world_scope w i x p : world_ok w -> disjoint_tasks (World.tasks w) -> World.tasks w !! i = Some x ->
  Task.at_stage x = Running p -> world_ok (advance i x w).
Proof.
  intros [Ht Hv Ho Hs Hw Hr] Hd Hx Hst. unfold advance. rewrite Hst. pose proof (Ht i x Hx) as Hwf.
  destruct p as [r|k body].
  - split; simpl; try done.
    + intros j y. destruct (decide (j = i)) as [->|Hj].
      * rewrite lookup_partial_alter_eq. intros Hy. by eapply next_wf.
      * rewrite lookup_partial_alter_ne by done. apply Ht.
    + eapply tracks_finish; try done; [unfold late_log; by rewrite Hst|].
      intros y Hy. by eapply next_wf.
    + eapply tracks_finish; try done; [unfold late_ship; by rewrite Hst|].
      intros y Hy. by eapply late_ship_log, next_wf.
  - destruct (body (entry k (Server.storage (World.server w)))) as [v p] eqn:Hb.
    split; simpl; try done.
    + apply insert_wf; [done|].
      pose proof (scope_wf x k body (entry k (Server.storage (World.server w))) Hwf Hst) as Hp.
      by rewrite Hb in Hp.
    + eapply tracks_run; try done. unfold late_log. by rewrite Hst.
    + eapply tracks_run; try done. unfold late_ship. by rewrite Hst.
Qed.

Lemma step_world w ev w' : world_ok w -> disjoint_tasks (World.tasks w) -> step ev w = Some w' ->
  world_ok w'.
Proof.
  intros Hok Hd. destruct ev as [i e cmd|i es tx|i]; simpl.
  - destruct (bool_decide (World.tasks w !! i = None)) eqn:Hi; [|done].
    destruct (lockable e cmd) eqn:Hc; [|done]. intros [= <-]. apply bool_decide_eq_true in Hi.
    apply world_new; try done. by apply begin_wf.
  - destruct (bool_decide (World.tasks w !! i = None)) eqn:Hi; [|done]. apply bool_decide_eq_true in Hi.
    destruct (TxState.any_watched_changed _ tx) as [[]| |]; try done; [by intros [= <-]|].
    destruct (forallb _ _) eqn:Hq; [|done]. intros [= <-].
    destruct (queued es _) as [|[e cmd] q]; [done|]. simpl in Hq. apply andb_true_iff in Hq as [Hc Hq].
    apply world_new; try done. by apply begin_wf.
  - destruct (World.tasks w !! i) as [x|] eqn:Hx; [|done]. intros [= <-].
    destruct (Task.at_stage x) eqn:Hst.
    + destruct (is_write_command (Task.cmd x)) eqn:Hc; [by apply world_log | by apply world_read].
    + by apply world_send.
    + by apply world_count.
    + by eapply world_scope.
Qed.

Lemma quiet_world evs w : world_ok w -> quiet evs w = true -> exists w', steps evs w = Some w' /\ world_ok w'.
Proof.
  revert w. induction evs as [|ev evs IH]; intros w Hok Hq; cbn [quiet steps] in *.
  { by exists w. }
  apply andb_true_iff in Hq as [Hr Hq]. apply race_free_disjoint in Hr.
  destruct (step ev w) as [w1|] eqn:Hs; [|done]. simpl. apply IH; [|done]. by eapply step_world.
Qed.
End world.
