(* ===== verification/Walks.v ===== *)
(** * Walks: operations that visit the shards one after the other

    [keys], [dbsize], [get_all_entries], [flushall] and [cleanup_expired] of
    [src/cache/src/storage.rs] lock one shard at a time, so that commands of
    other connections run between two shards.  A walk takes for every shard the
    steps of the other tasks ([Concurrency]) that follow its visit.

    What a reading walk collects is given as the map made of the tables it found
    ([walk]); the operation itself is the one of [Storage] on that map.  A
    writing walk changes the storage shard by shard ([update_walk]).  FLUSHALL
    records itself first, as every write does ([flushall_task]). *)

From S2P Require Import Prelude External Values Keyspace ShardedMap Storage StorageTypes.
From S2P Require Import Resp Command Apply Transactions PubSub Scripting Server Concurrency.
#[local] Open Scope Z_scope.

Definition shard_number : nat := Z.to_nat SHARD_COUNT.

Section walks.
Context `{Mpsc B, HashOrder, Rng, Layout, Xxh3}.
Implicit Types (w : World.t ShardedMap B) (runs : list (list event)).

(** [shards()[i].read()]. *)
Definition guard (i : nat) w : table := default ∅ (tables (Server.storage (World.server w)) !! i).

(** The tables from shard [i] on, each as it is found when its turn comes. *)
Fixpoint visit (i : nat) runs w : option (list table * World.t ShardedMap B) :=
  match runs with
  | [] => Some ([], w)
  | evs :: runs =>
      let t := guard i w in
      w ← steps evs w;
      '(ts, w) ← visit (S i) runs w;
      Some (t :: ts, w)
  end.

(** All shards. *)
Definition walk runs w : option (ShardedMap * World.t ShardedMap B) :=
  if bool_decide (length runs = shard_number) then
    '(ts, w) ← visit 0 runs w; Some (ShardedMap.mk ts, w)
  else None.

Definition keys_walk (now : Z) (pattern : bytes) runs w : option (list bytes * World.t ShardedMap B) :=
  '(m, w) ← walk runs w; Some (keys now pattern m, w).
Definition dbsize_walk (now : Z) runs w : option (Z * World.t ShardedMap B) :=
  '(m, w) ← walk runs w; Some (dbsize now m, w).
Definition entries_walk runs w : option (list (bytes * CacheValue) * World.t ShardedMap B) :=
  '(m, w) ← walk runs w; Some (get_all_entries m, w).

(** [shards()[i].write()] and a change of the table. *)
Definition update_shard (f : table -> table) (i : nat) w : World.t ShardedMap B :=
  let s := World.server w in
  World.set_server (Server.set_storage (ShardedMap.mk (alter f i (tables (Server.storage s)))) s) w.

Fixpoint update_from (f : table -> table) (i : nat) runs w : option (World.t ShardedMap B) :=
  match runs with
  | [] => Some w
  | evs :: runs => w ← steps evs (update_shard f i w); update_from f (S i) runs w
  end.

Definition update_walk (f : table -> table) runs w : option (World.t ShardedMap B) :=
  if bool_decide (length runs = shard_number) then update_from f 0 runs w else None.

Definition cleanup_walk (now : Z) : list (list event) -> World.t ShardedMap B -> option (World.t ShardedMap B) :=
  update_walk (filter (fun kv => negb (is_expired now kv.2) = true)).
Definition flushall_walk : list (list event) -> World.t ShardedMap B -> option (World.t ShardedMap B) :=
  update_walk (fun _ => ∅).

(** FLUSHALL: the log, the replicas, the counters of all shards, and the walk;
    [r1], [r2] and [r3] are what the others do in between. *)
Definition flushall_task (e : Env) (r1 r2 r3 : list event) runs w : option (World.t ShardedMap B) :=
  w ← steps r1 (World.set_server (append_wal e Command.FlushAll (World.server w)) w);
  w ← steps r2 (World.set_server (replicate_cmd Command.FlushAll (World.server w)) w);
  match bump_versions_for Command.FlushAll (Server.versions (World.server w)) with
  | Ok v =>
      w ← steps r3 (World.set_server (Server.set_versions v (World.server w)) w);
      flushall_walk runs w
  | _ => None
  end.
End walks.
