(* ===== verification/Connection.v ===== *)
(** * Connection: the two arms of a connection's loop, and all connections

    [handle_connection] and [handle_tls_connection] of [server.rs], which are
    the same loop over a TCP and over a TLS stream, with [ConnState] and the
    accept loops of [run].  Each turn of the loop is a biased [select!]: a
    message that waits in the connection's mailbox is written first; only when
    none does, bytes are read, every complete frame among them is handled
    ([Framing.drain]) and the replies are written at once.

    A [System] is the shared state with the open connections and what was
    written to each socket; its events are the turns of the loops, in any
    order.  A turn is one step: the interleavings inside a command are not
    modelled.  The end of a process that panics is [None]. *)

From S2P Require Import Prelude Text External Float64 Values SortedSet Stream Keyspace Storage.
From S2P Require Import StorageTypes ShardedMap Resp RespFacts Framing Command Apply Ring.
From S2P Require Import Transactions Security PubSub Scripting Server.
#[local] Open Scope Z_scope.

(** ** Receivers *)

(** The receiving side of [tokio]'s mailboxes. *)
Class Receiver (B : Type) `{Mpsc B} := {
  (** [recv] when it resolves with a message at once. *)
  try_recv : nat -> B -> option (PubSubMessage * B);
  (** The receiver is dropped. *)
  close : nat -> B -> B;
  try_recv_none : forall i b, try_recv i b = None -> default [] (mailbox i b) = [];
  try_recv_some : forall i b m b', try_recv i b = Some (m, b') ->
    (exists q, mailbox i b = Some (m :: q) /\ mailbox i b' = Some q) /\
    created b' = created b /\ forall j, j <> i -> mailbox j b' = mailbox j b;
  close_mailbox : forall i b j, mailbox j (close i b) = if decide (j = i) then None else mailbox j b;
  close_created : forall i b, created (close i b) = created b;
}.

Definition recv_box (i : nat) (b : boxes) : option (PubSubMessage * boxes) :=
  match open_boxes b !! i with
  | Some (m :: q) => Some (m, mk_boxes (next_box b) (<[i := q]> (open_boxes b)))
  | _ => None
  end.

#[export] Instance box_receiver : Receiver boxes.
Proof.
  refine {| try_recv := recv_box;
            close i b := mk_boxes (next_box b) (base.delete i (open_boxes b)) |}.
  - intros i b. unfold recv_box. simpl. by destruct (open_boxes b !! i) as [[|m q]|].
  - intros i b m b'. unfold recv_box. simpl.
    destruct (open_boxes b !! i) as [[|m' q]|] eqn:E; [done| |done]. intros [= <- <-]. simpl.
    split; [|split; [done|]].
    + exists q. by rewrite lookup_insert_eq.
    + intros j Hj. by rewrite lookup_insert_ne.
  - intros i b j. simpl. case_decide; subst; [apply lookup_delete_eq|by apply lookup_delete_ne].
  - done.
Defined.

(** ** A connection *)

Module Connection.
(** The locals of [handle_connection]. *)
Record t := mk { conn : Conn.t; subs_rx : option nat; buffer : bytes }.

Definition new : t := mk Conn.new None [].
End Connection.

Section connection.
Context `{KeyMap M, Mpsc B, !Receiver B}.
Context `{Layout, Xxh3, UnicodeCase, Argon2, Lua, Sha1, RespDebug}.
Implicit Types (s : Server.t M B) (c : Conn.t) (k : Connection.t).

(** [if subs_rx.is_none() && conn.sub.rx.is_some() { subs_rx = conn.sub.rx.take() }]. *)
Definition hoist c (subs_rx : option nat) : Conn.t * option nat :=
  match subs_rx, SubscriberState.rx (Conn.sub c) with
  | None, Some rx =>
      (Conn.set_sub (SubscriberState.mk (SubscriberState.tx (Conn.sub c)) None
                       (SubscriberState.channels (Conn.sub c))) c, Some rx)
  | _, _ => (c, subs_rx)
  end.

(** What the handling of frames works on; [trace] is what was executed. *)
Record Work := work {
  w_server : Server.t M B;
  w_conn : Conn.t;
  w_rx : option nat;
  trace : list ((nat -> Env) * Command.t);
}.

(** The body of [while !buffer.is_empty()]; [clock n] is what the [n]-th frame
    reads from outside. *)
Definition on_frame (clock : nat -> nat -> Env) (v : RespValue) (w : Work) : option (Work * bytes) :=
  let es := clock (length (trace w)) in
  match handle_frame es v (w_conn w) (w_server w) with
  | Ok (s, c, reply) =>
      let '(c, rx) := hoist c (w_rx w) in
      let done := match parse_command v with Ok cmd => [(es, cmd)] | _ => [] end in
      Some (work s c rx (trace w ++ done), reply)
  | _ => None
  end.

(** What a turn of the loop leaves: the shared state, the connection if it is
    still open, the bytes written and the commands executed. *)
Record Turn := turn {
  t_server : Server.t M B;
  t_conn : option Connection.t;
  t_out : bytes;
  t_trace : list ((nat -> Env) * Command.t);
}.

(** The connection's task ends: its receiver is dropped. *)
Definition hang_up (rx : option nat) s : Server.t M B :=
  match rx with
  | Some rx => Server.set_pubsub (Server.pubsub s) (close rx (Server.boxes s)) s
  | None => s
  end.

(** [msg = rx.recv() => ...]. *)
Definition mailbox_arm k s : option Turn :=
  rx ← Connection.subs_rx k;
  '(m, b) ← try_recv rx (Server.boxes s);
  Some (turn (Server.set_pubsub (Server.pubsub s) b s) (Some k) (format_pubsub_message m) []).

(** [n = stream.read_buf(&mut buffer) => ...]. *)
Definition socket_arm (clock : nat -> nat -> Env) (chunk : bytes) k s : option Turn :=
  match chunk with
  | [] => Some (turn (hang_up (Connection.subs_rx k) s) None [] [])
  | _ :: _ =>
      match drain (on_frame clock) (Connection.buffer k ++ chunk)
              (work s (Connection.conn k) (Connection.subs_rx k) []) with
      | Ok (w, buffer, out) =>
          if buffer_limit <? len buffer
          then Some (turn (hang_up (w_rx w) (w_server w)) None out (trace w))
          else Some (turn (w_server w) (Some (Connection.mk (w_conn w) (w_rx w) buffer)) out (trace w))
      | _ => None
      end
  end.

(** A turn with [input] on the socket, if any: [biased;] polls the mailbox
    first, and the input stays on the socket when a message was there. *)
Definition select (clock : nat -> nat -> Env) (input : option bytes) k s : option Turn :=
  match mailbox_arm k s, input with
  | Some r, _ => Some r
  | None, Some chunk => socket_arm clock chunk k s
  | None, None => Some (turn s (Some k) [] [])
  end.

(** The loop of [handle_tls_connection] has the same arms over a TLS stream. *)
Definition select_tls : (nat -> nat -> Env) -> option bytes -> Connection.t -> Server.t M B -> option Turn :=
  select.

(** ** All connections *)

Record System := system {
  server : Server.t M B;
  conns : gmap nat Connection.t;
  sockets : gmap nat bytes;
  executed : list ((nat -> Env) * Command.t);
}.

(** The accept loops start a connection's task; [tls] connections run the other
    loop. *)
Inductive event :=
| Accept (i : nat)
| Poll (clock : nat -> nat -> Env) (i : nat) (input : option bytes)
| PollTls (clock : nat -> nat -> Env) (i : nat) (input : option bytes).

(** A turn of one connection. *)
Definition poll (turn : Connection.t -> Server.t M B -> option Turn) (i : nat) (y : System) : option System :=
  match conns y !! i with
  | None => Some y
  | Some k =>
      r ← turn k (server y);
      Some (system (t_server r) (partial_alter (fun _ => t_conn r) i (conns y))
              (<[i := default [] (sockets y !! i) ++ t_out r]> (sockets y)) (executed y ++ t_trace r))
  end.

Definition written (i : nat) (y : System) : bytes := default [] (sockets y !! i).

Definition system_step (e : event) (y : System) : option System :=
  match e with
  | Accept i =>
      match conns y !! i with
      | Some _ => Some y
      | None => Some (system (server y) (<[i := Connection.new]> (conns y)) (<[i := []]> (sockets y)) (executed y))
      end
  | Poll clock i input => poll (select clock input) i y
  | PollTls clock i input => poll (select_tls clock input) i y
  end.

Fixpoint run_system (es : list event) (y : System) : option System :=
  match es with
  | [] => Some y
  | e :: es => y ← system_step e y; run_system es y
  end.

Definition boot s : System := system s ∅ ∅ [].
End connection.
Arguments Work : clear implicits.
Arguments Turn : clear implicits.
Arguments System : clear implicits.
