(* ===== verification/ConnectionFacts.v ===== *)
(** * ConnectionFacts: what the turns of the connections preserve

    [drain_rel] lifts a relation from the handling of a frame to the handling of
    all frames of a read; with [frame_logged] it carries the logging of
    [ServerFacts] from commands to bytes on sockets ([system_logged]).
    [polls_request] is the reading of one request, however it is cut. *)

From S2P Require Import Prelude Text External Float64 Values SortedSet Stream Keyspace Storage.
From S2P Require Import StorageTypes ShardedMap Resp RespFacts Framing Command Apply ApplyFacts Ring.
From S2P Require Import Transactions Security PubSub Scripting Server ServerFacts Connection.
#[local] Open Scope Z_scope.

(** ** Frames of a read *)

Lemma drain_rel `{Layout} {S} (handle : RespValue -> S -> option (S * bytes)) (R : S -> S -> Prop) :
  Reflexive R -> Transitive R ->
  (forall v s s' o, handle v s = Some (s', o) -> R s s') ->
  forall b s s' b' o, drain handle b s = Ok (s', b', o) -> R s s'.
Proof.
  intros Hrefl Htrans Hh b s s' b' o. unfold drain. generalize (length b) as fuel, (@nil byte) as out.
  intros fuel. revert b s. induction fuel as [|fuel IH]; intros b s out; simpl.
  { by intros [= <- _ _]. }
  destruct b as [|x b]; [by intros [= <- _ _]|].
  destruct (parse_resp (x :: b)) as [[v rest]|e|]; [|by intros [= <- _ _]|done].
  destruct (handle v s) as [[s1 o1]|] eqn:E; [|done].
  intros Hd. etransitivity; [by eapply Hh | by eapply IH].
Qed.

(** A prefix of a frame is left as it is. *)
Lemma drain_incomplete `{Layout} {S} (handle : RespValue -> S -> option (S * bytes)) v b r s :
  wf_resp v = true -> b ++ r = write_resp v -> r <> [] -> drain handle b s = Ok (s, b, []).
Proof.
  intros Hv Hb Hr. unfold drain. destruct b as [|x b]; [done|]. cbn [length drain_fuel].
  by destruct (parse_resp_prefix v (x :: b) r Hv Hb Hr) as [e ->].
Qed.

(** A whole frame is handled. *)
Lemma drain_one `{Layout} {S} (handle : RespValue -> S -> option (S * bytes)) v s s' o :
  wf_resp v = true -> handle v s = Some (s', o) -> drain handle (write_resp v) s = Ok (s', [], o).
Proof.
  intros Hv Hh. unfold drain. pose proof (write_resp_nonempty v) as Hne.
  pose proof (parse_resp_write v [] Hv) as Hp. rewrite app_nil_r in Hp.
  destruct (write_resp v) as [|x l]; [done|]. cbn [length drain_fuel]. rewrite Hp, Hh. simpl.
  by destruct (length l).
Qed.

Section facts.
Context `{KeyMapLaws M, Mpsc B, !Receiver B}.
Context `{Layout, Xxh3, UnicodeCase, Argon2, Lua, Sha1, RespDebug}.
Implicit Types (s : Server.t M B) (c : Conn.t) (k : Connection.t) (y : System M B).

(** ** Logging *)

(** Commands that replay as they executed, and appends that succeeded. *)
Definition clean_trace (tr : list ((nat -> Env) * Command.t)) : Prop :=
  Forall (fun '(es, cmd) => replayable cmd = true /\ forall i, append_ok (es i) = true) tr.

(** From one state of the work to a later one. *)
Definition progress (w w' : Work M B) : Prop :=
  trace w `prefix_of` trace w' /\
  (clean_trace (trace w') -> inv (Server.storage (w_server w)) -> conn_ok True (w_conn w) ->
   exists new, logged True (w_server w) (w_server w') new /\ conn_ok True (w_conn w')).

#[local] Instance progress_refl : Reflexive progress.
Proof. intros w. split; [done|]. intros _ Hi Hc. exists []. split; [by apply logged_same|done]. Qed.

#[local] Instance progress_trans : Transitive progress.
Proof.
  intros w1 w2 w3 [P1 R1] [P2 R2]. split; [by etrans|]. intros Hcl Hi Hc.
  destruct R1 as (n1 & L1 & C1); [|done..|].
  { destruct P2 as [l E]. rewrite E in Hcl. by apply Forall_app in Hcl as [? _]. }
  destruct R2 as (n2 & L2 & C2); [done|by eapply lg_inv|done|].
  exists (n1 ++ n2). split; [by eapply logged_trans|done].
Qed.

Lemma hoist_ok c rx : conn_ok True c -> conn_ok True (fst (hoist c rx)).
Proof. unfold hoist. by destruct rx, (SubscriberState.rx (Conn.sub c)). Qed.

Lemma frame_progress clock v w w' o : on_frame clock v w = Some (w', o) -> progress w w'.
Proof.
  unfold on_frame, handle_frame. set (es := clock (length (trace w))). clearbody es.
  destruct (parse_command v) as [cmd|e|] eqn:Ep; [| |done].
  - destruct (execute_command es cmd (w_conn w) (w_server w)) as [[[s c] r]|e|] eqn:Ex; [|done..].
    simpl. destruct (hoist c (w_rx w)) as [c' rx'] eqn:Eh. intros [= <- <-].
    split; simpl; [by eexists|]. intros [_ Hcl]%Forall_app Hi Hc.
    apply Forall_cons in Hcl as [[Hp He] _].
    destruct (execute_step True 2 es cmd (w_conn w) (w_server w) s c r Hi Hc (fun _ => Hp) (fun _ => He) Ex) as (n & Hl & Hc1 & _).
    exists n. split; [done|]. pose proof (hoist_ok c (w_rx w) Hc1) as Hh. by rewrite Eh in Hh.
  - simpl. destruct (hoist (w_conn w) (w_rx w)) as [c' rx'] eqn:Eh. intros [= <- <-].
    split; simpl; [by eexists|]. intros _ Hi Hc. exists []. split; [by apply logged_same|].
    pose proof (hoist_ok (w_conn w) (w_rx w) Hc) as Hh. by rewrite Eh in Hh.
Qed.

Lemma hang_up_same rx s : inv (Server.storage s) -> logged True s (hang_up rx s) [].
Proof. intros Hi. by destruct rx; apply logged_same. Qed.

Lemma select_logged clock input k s r : select clock input k s = Some r ->
  clean_trace (t_trace r) -> inv (Server.storage s) -> conn_ok True (Connection.conn k) ->
  exists new, logged True s (t_server r) new /\
    forall k', t_conn r = Some k' -> conn_ok True (Connection.conn k').
Proof.
  unfold select. intros Hs Hcl Hi Hc.
  destruct (mailbox_arm k s) as [r'|] eqn:Em.
  { injection Hs as <-. unfold mailbox_arm in Em.
    destruct (Connection.subs_rx k) as [rx|]; [|done]. simpl in Em.
    destruct (try_recv rx (Server.boxes s)) as [[m b]|]; [|done]. simpl in Em.
    injection Em as <-. exists []. simpl. split; [by apply logged_same|]. by intros k' [= <-]. }
  destruct input as [chunk|]; [|injection Hs as <-; exists []; simpl; split; [by apply logged_same|]; by intros k' [= <-]].
  unfold socket_arm in Hs. destruct chunk as [|x chunk].
  { injection Hs as <-. exists []. simpl. split; [by apply hang_up_same|done]. }
  destruct (drain (on_frame clock) _ _) as [[[w b] out]|e|] eqn:Ed; [|done..].
  apply (drain_rel (on_frame clock) progress) in Ed as [_ Hp];
    [|apply _|apply _|by intros; eapply frame_progress].
  destruct Hp as (new & Hl & Hcw).
  { by destruct (buffer_limit <? len b); injection Hs as <-. }
  { done. }
  { done. }
  simpl in Hl. destruct (buffer_limit <? len b); injection Hs as <-; simpl.
  - exists (new ++ []). split; [|done]. eapply logged_trans; [done|apply hang_up_same, Hl].
  - exists new. split; [done|]. by intros k' [= <-].
Qed.

Definition conns_ok y : Prop := forall i k, conns y !! i = Some k -> conn_ok True (Connection.conn k).

Lemma poll_logged clock input i y y' : poll (select clock input) i y = Some y' ->
  executed y `prefix_of` executed y' /\
  (clean_trace (executed y') -> inv (Server.storage (server y)) -> conns_ok y ->
   exists new, logged True (server y) (server y') new /\ conns_ok y').
Proof.
  unfold poll. destruct (conns y !! i) as [k|] eqn:E; [|intros [= <-]; split; [done|]; intros _ Hi Hc; exists [];
      split; [by apply logged_same|done]].
  destruct (select clock input k (server y)) as [r|] eqn:Es; simpl; [|done]. intros [= <-]. simpl.
  split; [by eexists|]. intros [_ Hcl]%Forall_app Hi Hc.
  destruct (select_logged clock input k (server y) r Es Hcl Hi) as (new & Hl & Hk); [by eapply Hc|].
  exists new. split; [done|]. intros j k'. simpl. destruct (decide (j = i)) as [->|Hj].
  - rewrite lookup_partial_alter_eq. intros Hr. by apply Hk.
  - rewrite lookup_partial_alter_ne by done. apply Hc.
Qed.

Lemma system_step_logged e y y' : system_step e y = Some y' ->
  executed y `prefix_of` executed y' /\
  (clean_trace (executed y') -> inv (Server.storage (server y)) -> conns_ok y ->
   exists new, logged True (server y) (server y') new /\ conns_ok y').
Proof.
  destruct e as [i|clock i input|clock i input]; cbn [system_step]; [|apply poll_logged..].
  destruct (conns y !! i) as [k|] eqn:E; intros [= <-]; (split; [done|]); intros _ Hi Hc; exists [].
  - split; [by apply logged_same|done].
  - split; [by apply logged_same|]. intros j k. simpl. intros [[<- <-]|[_ Hk]]%lookup_insert_Some.
    + constructor.
    + by eapply Hc.
Qed.

Lemma system_logged es y y' : run_system es y = Some y' ->
  executed y `prefix_of` executed y' /\
  (clean_trace (executed y') -> inv (Server.storage (server y)) -> conns_ok y ->
   exists new, logged True (server y) (server y') new /\ conns_ok y').
Proof.
  revert y. induction es as [|e es IH]; intros y; simpl.
  { intros [= <-]. split; [done|]. intros _ Hi Hc. exists []. split; [by apply logged_same|done]. }
  destruct (system_step e y) as [y1|] eqn:E; simpl; [|done]. intros Hr.
  apply system_step_logged in E as [P1 R1]. apply IH in Hr as [P2 R2].
  split; [by etrans|]. intros Hcl Hi Hc.
  destruct R1 as (n1 & L1 & C1); [|done..|].
  { destruct P2 as [l E]. rewrite E in Hcl. by apply Forall_app in Hcl as [? _]. }
  destruct R2 as (n2 & L2 & C2); [done|by eapply lg_inv|done|].
  exists (n1 ++ n2). split; [by eapply logged_trans|done].
Qed.

(** The environment of every command is one of its turn's. *)
Definition appends_ok (e : event) : Prop :=
  match e with
  | Accept _ => True
  | Poll clock _ _ | PollTls clock _ _ => forall n i, append_ok (clock n i) = true
  end.
Definition appended_ok (tr : list ((nat -> Env) * Command.t)) : Prop :=
  Forall (fun p => forall i, append_ok (fst p i) = true) tr.

Definition stays_appended (w w' : Work M B) : Prop := appended_ok (trace w) -> appended_ok (trace w').

Lemma frame_appended clock v w w' o : (forall n i, append_ok (clock n i) = true) ->
  on_frame clock v w = Some (w', o) -> stays_appended w w'.
Proof.
  intros Hcl. unfold on_frame. destruct (handle_frame _ _ _ _) as [[[s c] r]|e|]; [|done..].
  destruct (hoist c (w_rx w)) as [c' rx']. intros [= <- <-] Hw. simpl. apply Forall_app. split; [done|].
  destruct (parse_command v); repeat constructor. intros i. apply Hcl.
Qed.

Lemma select_appended clock input k s r : (forall n i, append_ok (clock n i) = true) ->
  select clock input k s = Some r -> appended_ok (t_trace r).
Proof.
  intros Hcl. unfold select. destruct (mailbox_arm k s) as [r'|] eqn:Em.
  { intros [= <-]. unfold mailbox_arm in Em. destruct (Connection.subs_rx k); [|done]. simpl in Em.
    destruct (try_recv _ _) as [[m b]|]; [|done]. injection Em as <-. apply List.Forall_nil. }
  destruct input as [[|x chunk]|]; [intros [= <-]; apply List.Forall_nil| |intros [= <-]; apply List.Forall_nil].
  simpl.
  destruct (drain (on_frame clock) _ _) as [[[w b] out]|e|] eqn:Ed; [|done..].
  apply (drain_rel (on_frame clock) stays_appended) in Ed.
  - intros Hr. assert (Hw : appended_ok (trace w)) by (apply Ed, List.Forall_nil).
    destruct (buffer_limit <? len b); injection Hr as <-; exact Hw.
  - by intros w1 Hw.
  - intros w1 w2 w3 R1 R2 Hw. by apply R2, R1.
  - intros v w1 w2 o. by apply frame_appended.
Qed.

Lemma poll_appended clock input i y y' : (forall n i, append_ok (clock n i) = true) ->
  poll (select clock input) i y = Some y' -> appended_ok (executed y) -> appended_ok (executed y').
Proof.
  intros Hcl. unfold poll. destruct (conns y !! i) as [k|]; [|by intros [= <-]].
  destruct (select clock input k (server y)) as [r|] eqn:Es; simpl; [|done]. intros [= <-] Hy. simpl.
  apply Forall_app. split; [done|]. by eapply select_appended.
Qed.

Lemma system_appended es y y' : Forall appends_ok es -> run_system es y = Some y' ->
  appended_ok (executed y) -> appended_ok (executed y').
Proof.
  intros Hes. revert y. induction Hes as [|e es He Hes IH]; intros y; simpl; [by intros [= <-]|].
  destruct (system_step e y) as [y1|] eqn:E; simpl; [|done]. intros Hr Hy. apply (IH y1); [done|].
  destruct e as [i|clock i input|clock i input]; cbn [system_step] in E; [|by eapply poll_appended..].
  destruct (conns y !! i); by injection E as <-.
Qed.

Lemma clean_split tr : appended_ok tr -> forallb (fun p => replayable (snd p)) tr = true -> clean_trace tr.
Proof.
  induction 1 as [|[es cmd] tr Ha Ht IH]; simpl; [constructor|].
  intros [Hr Hs]%andb_true_iff. constructor; [done|]. by apply IH.
Qed.

(** ** One request *)

Definition polls (i : nat) (l : list ((nat -> nat -> Env) * bytes)) : list event :=
  map (fun '(clock, chunk) => Poll clock i (Some chunk)) l.

(** A connection without subscriptions reads the socket. *)
Lemma select_socket clock chunk k s : Connection.subs_rx k = None ->
  select clock (Some chunk) k s = socket_arm clock chunk k s.
Proof. intros Hrx. unfold select, mailbox_arm. by rewrite Hrx. Qed.

Lemma poll_incomplete clock i chunk v c b r y :
  accepted v = true -> (b ++ chunk) ++ r = write_resp v -> chunk <> [] -> r <> [] ->
  conns y !! i = Some (Connection.mk c None b) ->
  system_step (Poll clock i (Some chunk)) y =
    Some (system (server y) (<[i := Connection.mk c None (b ++ chunk)]> (conns y))
            (<[i := written i y]> (sockets y)) (executed y)).
Proof.
  unfold accepted. intros [Hv Hlim]%andb_true_iff Hb Hc Hr Hk.
  cbn [system_step]. unfold poll. rewrite Hk, select_socket by done. unfold socket_arm.
  destruct chunk as [|x chunk]; [done|]. cbn [Connection.buffer Connection.conn Connection.subs_rx].
  rewrite (drain_incomplete _ v _ r) by done. cbn [trace w_rx w_server w_conn].
  assert (Hle : len (b ++ x :: chunk) <= buffer_limit).
  { rewrite <- Hb in Hlim. apply Z.leb_le in Hlim. unfold len in *. rewrite length_app in Hlim. lia. }
  replace (buffer_limit <? len (b ++ x :: chunk)) with false by lia.
  cbn [mbind option_bind t_server t_conn t_out t_trace]. by rewrite !app_nil_r.
Qed.

Lemma poll_complete clock i chunk v cmd c c' b y s' reply :
  accepted v = true -> b ++ chunk = write_resp v -> chunk <> [] ->
  conns y !! i = Some (Connection.mk c None b) -> parse_command v = Ok cmd ->
  execute_command (clock 0%nat) cmd c (server y) = Ok (s', c', reply) ->
  SubscriberState.rx (Conn.sub c') = None ->
  system_step (Poll clock i (Some chunk)) y =
    Some (system s' (<[i := Connection.mk c' None []]> (conns y))
            (<[i := written i y ++ serialize_response reply]> (sockets y))
            (executed y ++ [(clock 0%nat, cmd)])).
Proof.
  unfold accepted. intros [Hv _]%andb_true_iff Hb Hc Hk Hp Hx Hrx.
  cbn [system_step]. unfold poll. rewrite Hk, select_socket by done. unfold socket_arm.
  destruct chunk as [|x chunk]; [done|]. cbn [Connection.buffer Connection.conn Connection.subs_rx].
  rewrite Hb.
  rewrite (drain_one _ v _ (work s' c' None [(clock 0%nat, cmd)]) (serialize_response reply));
    [done|done|].
  unfold on_frame, handle_frame. cbn [trace length w_conn w_server w_rx]. rewrite Hp.
  rewrite Hx. cbn [mbind res_bind]. unfold hoist. rewrite Hrx. done.
Qed.

(** The request arrives in pieces; it is executed when the last one does. *)
Lemma polls_request i l clock chunk v cmd c c' b y s' reply :
  accepted v = true -> b ++ concat (map snd l) ++ chunk = write_resp v ->
  Forall (fun p => snd p <> []) l -> chunk <> [] ->
  conns y !! i = Some (Connection.mk c None b) -> parse_command v = Ok cmd ->
  execute_command (clock 0%nat) cmd c (server y) = Ok (s', c', reply) ->
  SubscriberState.rx (Conn.sub c') = None ->
  exists y', run_system (polls i (l ++ [(clock, chunk)])) y = Some y' /\ server y' = s' /\
    conns y' !! i = Some (Connection.mk c' None []) /\
    (forall j, j <> i -> conns y' !! j = conns y !! j) /\
    written i y' = written i y ++ serialize_response reply.
Proof.
  intros Hv Hb Hl Hc Hk Hp Hx Hrx. revert b y Hb Hk Hx.
  induction l as [|[cl p] l IH]; intros b y Hb Hk Hx; cbn [app polls map run_system].
  - rewrite (poll_complete clock i chunk v cmd c c' b y s' reply) by done.
    cbn [mbind option_bind]. eexists. split; [done|]. cbn [server conns].
    split; [done|]. split; [apply lookup_insert_eq|].
    split; [intros j Hj; by rewrite lookup_insert_ne|].
    unfold written. cbn [sockets]. by rewrite lookup_insert_eq.
  - apply Forall_cons in Hl as [Hp1 Hl]. cbn [map snd concat] in Hb, Hp1.
    rewrite (poll_incomplete cl i p v c b (concat (map snd l) ++ chunk) y); try done.
    + cbn [mbind option_bind].
      destruct (IH Hl (b ++ p) (system (server y) (<[i := Connection.mk c None (b ++ p)]> (conns y))
          (<[i := written i y]> (sockets y)) (executed y))) as (y' & Hr & Hs & Hk' & Hj & Hw).
      * by rewrite <- Hb, <- !app_assoc.
      * apply lookup_insert_eq.
      * done.
      * exists y'. split; [exact Hr|]. split; [done|]. split; [done|]. split.
        { intros j Hne. rewrite Hj by done. cbn [conns]. by rewrite lookup_insert_ne. }
        rewrite Hw. unfold written at 1. cbn [sockets]. by rewrite lookup_insert_eq.
    + by rewrite <- Hb, <- !app_assoc.
    + intros E. by apply app_eq_nil in E as [_ ->].
Qed.

Lemma run_system_app es es' y :
  run_system (es ++ es') y = (y1 ← run_system es y; run_system es' y1).
Proof.
  revert y. induction es as [|e es IH]; intros y; simpl; [done|].
  destruct (system_step e y) as [y1|]; simpl; [apply IH|done].
Qed.

(** The socket of a connection that is not polled. *)
Lemma polls_other i j l y y' : i <> j -> run_system (polls j l) y = Some y' -> written i y' = written i y.
Proof.
  intros Hij. revert y. induction l as [|[clock p] l IH]; intros y; simpl; [by intros [= <-]|].
  unfold poll. destruct (conns y !! j) as [k|]; simpl; [|apply IH].
  destruct (select clock (Some p) k (server y)) as [r|]; simpl; [|done].
  intros Hr. rewrite (IH _ Hr). unfold written. simpl. by rewrite lookup_insert_ne.
Qed.

(** ** Messages *)

(** While messages wait, turns write them in order and read nothing. *)
Lemma deliver i rx k (l : list ((nat -> nat -> Env) * option bytes)) q q' y :
  conns y !! i = Some k -> Connection.subs_rx k = Some rx ->
  mailbox rx (Server.boxes (server y)) = Some (q ++ q') -> length l = length q ->
  exists y', run_system (map (fun '(clock, input) => Poll clock i input) l) y = Some y' /\
    conns y' = conns y /\ Server.storage (server y') = Server.storage (server y) /\
    written i y' = written i y ++ concat (map format_pubsub_message q) /\
    mailbox rx (Server.boxes (server y')) = Some q' /\
    (forall j, j <> rx -> mailbox j (Server.boxes (server y')) = mailbox j (Server.boxes (server y))) /\
    (forall j, j <> i -> written j y' = written j y).
Proof.
  revert q y. induction l as [|[clock input] l IH]; intros [|m q] y Hk Hrx Hm Hl; try done.
  { exists y. simpl. rewrite app_nil_r. done. }
  cbn [map run_system system_step]. unfold poll. rewrite Hk. unfold select, mailbox_arm. rewrite Hrx. simpl.
  destruct (try_recv rx (Server.boxes (server y))) as [[m' b]|] eqn:E.
  2: { apply try_recv_none in E. rewrite Hm in E. done. }
  apply try_recv_some in E as ((q1 & E1 & E2) & _ & Ho). rewrite Hm in E1. injection E1 as <- <-.
  cbn [mbind option_bind t_server t_conn t_out t_trace].
  match goal with |- context [run_system _ ?z] => set (y1 := z) end.
  assert (Hk1 : conns y1 = conns y) by (apply partial_alter_id; by rewrite Hk).
  destruct (IH q y1) as (y' & Hr & C' & S' & W' & M' & O' & V'); [by rewrite Hk1|done|done|simpl in Hl; lia|].
  exists y'. split; [exact Hr|]. split; [congruence|]. split; [done|].
  split; [|split; [done|split]].
  - rewrite W'. unfold written at 1. unfold y1 at 1. cbn [sockets]. rewrite lookup_insert_eq.
    simpl. by rewrite <- app_assoc.
  - intros j Hj. rewrite O' by done. by apply Ho.
  - intros j Hj. rewrite V' by done. unfold written, y1. cbn [sockets]. by rewrite lookup_insert_ne.
Qed.
End facts.
