(* ===== verification/FileSystem.v ===== *)
(** * FileSystem: what the persistence layer uses of [std::fs] and [std::io]

    A file system is a finite map from paths to contents.  An open [File] is a
    path and a cursor, or an append handle; [BufWriter] keeps a buffer of 8 KiB
    that reaches the file when it fills, on [flush] and when the writer is
    dropped.  A reader is what is left to read.  Device errors are not
    modelled: the calls fail where a path does not exist, or where
    [read_exact] meets the end of the file.

    [outcome] is a [Result] with an error type of its own and the third outcome
    of a panic.  The third-party crates that turn commands into bytes are
    classes: [Bincode] ([bincode]) and [Crc32] ([crc32fast]). *)

From S2P Require Import Prelude.
#[local] Open Scope Z_scope.

(** ** Results *)

Inductive outcome (E A : Type) : Type :=
| Done (a : A)
| Failed (e : E)
| Crashed.
Arguments Done {E A} a.
Arguments Failed {E A} e.
Arguments Crashed {E A}.

#[global] Instance outcome_ret {E} : MRet (outcome E) := fun _ a => Done a.
#[global] Instance outcome_bind {E} : MBind (outcome E) := fun _ _ f m =>
  match m with Done a => f a | Failed e => Failed e | Crashed => Crashed end.

#[global] Instance outcome_fmap {E} : FMap (outcome E) := fun _ _ f m =>
  match m with Done a => Done (f a) | Failed e => Failed e | Crashed => Crashed end.

#[global] Instance outcome_eq_dec {E A} `{EqDecision E, EqDecision A} : EqDecision (outcome E A).
Proof. solve_decision. Defined.

(** [Result::map_err]. *)
Definition map_err {E F A} (f : E -> F) (r : outcome E A) : outcome F A :=
  match r with Done a => Done a | Failed e => Failed (f e) | Crashed => Crashed end.

(** [std::io::ErrorKind]. *)
Inductive ErrorKind := NotFound | UnexpectedEof.

#[global] Instance error_kind_eq_dec : EqDecision ErrorKind.
Proof. solve_decision. Defined.

(** ** Serialization crates *)

(** [bincode::serialize] and [bincode::deserialize] at a type; an error is its
    text.  The law is the crate's promise: what serialized is read back. *)
Class Bincode (A : Type) := {
  bin_serialize : A -> bytes + bytes;
  bin_deserialize : bytes -> bytes + A;
  bin_round_trip : forall a l, bin_serialize a = inr l -> bin_deserialize l = inr a;
}.

(** [crc32fast::hash]. *)
Class Crc32 := {
  crc32 : bytes -> Z;
  crc32_range : forall l, in_u32 (crc32 l) = true;
}.

(** CRC-32 (IEEE, reflected), to evaluate examples with. *)
Definition crc32_step (c : Z) : Z :=
  if Z.odd c then Z.lxor (Z.shiftr c 1) 3988292384 else Z.shiftr c 1.
Definition crc32_ieee (l : bytes) : Z :=
  Z.lxor (fold_left (fun c b => Nat.iter 8 crc32_step (Z.lxor c (u8 b))) l u32_max) u32_max.

#[export] Program Instance crc32_instance : Crc32 := {| crc32 := fun l => crc32_ieee l mod 2 ^ 32 |}.
Next Obligation.
  intros l. simpl. apply in_u32_spec.
  pose proof (Z.mod_pos_bound (crc32_ieee l) (2 ^ 32) ltac:(lia)). widths. lia.
Qed.

(** ** Numbers in big-endian order *)

Fixpoint be_bytes (w : nat) (z : Z) : bytes :=
  match w with
  | O => []
  | S w => as_u8 (z / 256 ^ Z.of_nat w) :: be_bytes w z
  end.

Definition from_be_bytes (l : bytes) : Z := fold_left (fun acc b => acc * 256 + u8 b) l 0.

(** [u64::to_be_bytes], [u32::to_be_bytes]; also [BufMut::put_u64] and
    [BufMut::put_u32]. *)
Definition u64_bytes (z : Z) : bytes := be_bytes 8 z.
Definition u32_bytes (z : Z) : bytes := be_bytes 4 z.

Lemma length_be_bytes w z : length (be_bytes w z) = w.
Proof. induction w; simpl; congruence. Qed.

Lemma from_be_bytes_acc w z acc :
  fold_left (fun acc b => acc * 256 + u8 b) (be_bytes w z) acc
  = acc * 256 ^ Z.of_nat w + z mod 256 ^ Z.of_nat w.
Proof.
  revert acc. induction w as [|w IH]; intros acc.
  { simpl. rewrite Z.mod_1_r. lia. }
  cbn [be_bytes fold_left]. rewrite IH, u8_as_u8, Nat2Z.inj_succ, Z.pow_succ_r by lia.
  pose proof (Z.pow_pos_nonneg 256 (Z.of_nat w) ltac:(lia) ltac:(lia)) as Hp.
  rewrite (Z.mul_comm 256 (256 ^ _)). rewrite Z.rem_mul_r by lia. ring.
Qed.

Lemma from_be_be_bytes w z : from_be_bytes (be_bytes w z) = z mod 256 ^ Z.of_nat w.
Proof. unfold from_be_bytes. rewrite from_be_bytes_acc. lia. Qed.

Lemma from_u64_bytes z : in_u64 z = true -> from_be_bytes (u64_bytes z) = z.
Proof.
  rewrite in_u64_spec. intros Hz. unfold u64_bytes. rewrite from_be_be_bytes.
  apply Z.mod_small. widths. lia.
Qed.

Lemma from_u32_bytes z : in_u32 z = true -> from_be_bytes (u32_bytes z) = z.
Proof.
  rewrite in_u32_spec. intros Hz. unfold u32_bytes. rewrite from_be_be_bytes.
  apply Z.mod_small. widths. lia.
Qed.

Lemma len_u64_bytes z : len (u64_bytes z) = 8.
Proof. done. Qed.

Lemma len_u32_bytes z : len (u32_bytes z) = 4.
Proof. done. Qed.

(** ** Files *)

Abbreviation fs := (gmap bytes bytes).

(** [Path::exists]. *)
Definition path_exists (p : bytes) (d : fs) : bool := bool_decide (is_Some (d !! p)).

Definition remove_file (p : bytes) (d : fs) : outcome ErrorKind fs :=
  if path_exists p d then Done (delete p d) else Failed NotFound.

Definition rename (from to : bytes) (d : fs) : outcome ErrorKind fs :=
  match d !! from with
  | Some c => Done (<[to := c]> (delete from d))
  | None => Failed NotFound
  end.

Definition copy (from to : bytes) (d : fs) : outcome ErrorKind fs :=
  match d !! from with
  | Some c => Done (<[to := c]> d)
  | None => Failed NotFound
  end.

Module File.
Record t := mk { path : bytes; append : bool; cursor : nat }.

(** [OpenOptions::new().create(true).append(true).open(p)]. *)
Definition open_append (p : bytes) (d : fs) : fs * t :=
  (<[p := default [] (d !! p)]> d, mk p true 0).

(** [OpenOptions::new().create(true).write(true).truncate(true).open(p)]. *)
Definition open_truncate (p : bytes) (d : fs) : fs * t := (<[p := []]> d, mk p false 0).

(** Writing at a cursor; a gap past the end reads as zeros. *)
Definition splice (n : nat) (data content : bytes) : bytes :=
  take n content ++ replicate (n - length content) x00 ++ data ++ drop (n + length data) content.

Definition write_all (data : bytes) (d : fs) (f : t) : fs * t :=
  match data with
  | [] => (d, f)
  | _ =>
      let content := default [] (d !! path f) in
      if append f then (<[path f := content ++ data]> d, f)
      else (<[path f := splice (cursor f) data content]> d,
            mk (path f) false (cursor f + length data))
  end.
End File.

Module BufWriter.
Record t := mk { inner : File.t; buf : bytes }.

(** The default capacity of a [BufWriter]. *)
Definition capacity : Z := 8192.

Definition new (f : File.t) : t := mk f [].

(** [flush]; dropping the writer does the same. *)
Definition flush (d : fs) (w : t) : fs * t :=
  let '(d, f) := File.write_all (buf w) d (inner w) in (d, mk f []).

Definition write_all (data : bytes) (d : fs) (w : t) : fs * t :=
  let spare := capacity - len (buf w) in
  if len data <? spare then (d, mk (inner w) (buf w ++ data))
  else
    let '(d, w) := if spare <? len data then flush d w else (d, w) in
    if capacity <=? len data then
      let '(d, f) := File.write_all data d (inner w) in (d, mk f (buf w))
    else (d, mk (inner w) (buf w ++ data)).
End BufWriter.

(** ** Readers *)

(** [Read::read_exact] into a buffer of [n] bytes: the bytes and the rest. *)
Definition read_exact (n : Z) (r : bytes) : outcome ErrorKind (bytes * bytes) :=
  if n <=? len r then Done (take (Z.to_nat n) r, drop (Z.to_nat n) r) else Failed UnexpectedEof.

Lemma read_exact_app (l r : bytes) : read_exact (len l) (l ++ r) = Done (l, r).
Proof.
  unfold read_exact. rewrite len_app, (proj2 (Z.leb_le _ _)) by (pose proof (len_nonneg r); lia).
  unfold len. rewrite Nat2Z.id. by rewrite take_app_length, drop_app_length.
Qed.

Lemma read_exact_short n r : len r < n -> read_exact n r = Failed UnexpectedEof.
Proof. intros. unfold read_exact. by rewrite (proj2 (Z.leb_gt _ _)). Qed.

Lemma read_exact_Done n r a b : read_exact n r = Done (a, b) ->
  n <= len r /\ r = a ++ b /\ a = take (Z.to_nat n) r.
Proof.
  unfold read_exact. case_match eqn:E; [|done]. intros [= <- <-]. apply Z.leb_le in E.
  split_and!; [done | by rewrite take_drop | done].
Qed.

Lemma read_exact_length n r a b : 0 <= n -> read_exact n r = Done (a, b) ->
  len a = n /\ len r = n + len b.
Proof.
  intros Hn Hr. apply read_exact_Done in Hr as (H1 & H2 & ->).
  assert (len (take (Z.to_nat n) r) = n) as Ha.
  { unfold len in *. rewrite length_take. lia. }
  split; [done|]. rewrite H2 at 1. rewrite len_app. lia.
Qed.

(** ** What a buffered writer has taken

    [contents d w] is the file as it will be once the buffer is flushed, for a
    writer that only ever adds at the end of the file. *)

Section writer.
Implicit Types (d : fs) (w : BufWriter.t).

(** The handle writes at the end of its file. *)
Definition at_end d (f : File.t) : Prop :=
  exists c, d !! File.path f = Some c /\ (File.append f = true \/ File.cursor f = length c).

Definition contents d w : bytes :=
  default [] (d !! File.path (BufWriter.inner w)) ++ BufWriter.buf w.

Lemma splice_end data c : File.splice (length c) data c = c ++ data.
Proof.
  unfold File.splice. rewrite Nat.sub_diag, take_ge, drop_ge by lia. simpl. by rewrite app_nil_r.
Qed.

Lemma write_at_end data d f d' f' : at_end d f -> File.write_all data d f = (d', f') ->
  d' = <[File.path f := default [] (d !! File.path f) ++ data]> d /\
  File.path f' = File.path f /\ at_end d' f'.
Proof.
  intros (c & Hc & He). unfold File.write_all. destruct data as [|b data].
  { intros [= <- <-]. rewrite Hc. simpl. rewrite app_nil_r, insert_id by done.
    split_and!; [done | done | by exists c]. }
  rewrite Hc. simpl. destruct (File.append f) eqn:Ea.
  - intros [= <- <-]. split_and!; [done | done |]. eexists. rewrite lookup_insert_eq. eauto.
  - destruct He as [|He]; [done|]. rewrite He. intros [= <- <-]. simpl. rewrite splice_end.
    split_and!; [done | done |]. eexists. simpl. rewrite lookup_insert_eq. split; [done|].
    right. simpl. rewrite length_app. simpl. lia.
Qed.

(** Other files are left alone, the handle stays at the end, and the contents
    grow by what was written. *)
Lemma flush_at_end d w d' w' : at_end d (BufWriter.inner w) -> BufWriter.flush d w = (d', w') ->
  let p := File.path (BufWriter.inner w) in
  d' = <[p := contents d w]> d /\ BufWriter.buf w' = [] /\
  File.path (BufWriter.inner w') = p /\ at_end d' (BufWriter.inner w').
Proof.
  intros He. unfold BufWriter.flush. destruct (File.write_all _ _ _) as [d1 f1] eqn:E.
  intros [= <- <-]. apply write_at_end in E as (-> & Hp & He'); [|done]. by split_and!.
Qed.

(** A write stays in the buffer, or pushes the buffer out, or goes to the file
    as well: what was written in one call is never split. *)
Lemma writer_at_end data d w d' w' : at_end d (BufWriter.inner w) ->
  BufWriter.write_all data d w = (d', w') ->
  let p := File.path (BufWriter.inner w) in
  File.path (BufWriter.inner w') = p /\ at_end d' (BufWriter.inner w') /\
  (d' = d /\ BufWriter.buf w' = BufWriter.buf w ++ data \/
   d' = <[p := contents d w]> d /\ BufWriter.buf w' = data \/
   d' = <[p := contents d w ++ data]> d /\ BufWriter.buf w' = []).
Proof.
  intros He. unfold BufWriter.write_all.
  destruct (Z.ltb_spec (len data) (BufWriter.capacity - len (BufWriter.buf w))) as [Hs|Hs].
  { intros [= <- <-]. by split_and!; [..|left]. }
  destruct (Z.ltb_spec (BufWriter.capacity - len (BufWriter.buf w)) (len data)) as [Hf|Hf].
  - destruct (BufWriter.flush d w) as [d1 w1] eqn:E1.
    apply flush_at_end in E1 as (-> & Hb & Hp & He1); [|done].
    destruct (Z.leb_spec BufWriter.capacity (len data)) as [Hl|Hl].
    + destruct (File.write_all data _ _) as [d2 f2] eqn:E2. intros [= <- <-].
      apply write_at_end in E2 as (-> & Hp2 & He2); [|done]. rewrite Hp in *.
      split_and!; [done | done |]. right; right. simpl. rewrite Hb.
      by rewrite lookup_insert_eq, insert_insert_eq.
    + intros [= <- <-]. simpl. rewrite Hb. split_and!; [done | done |]. by right; left.
  - destruct (Z.leb_spec BufWriter.capacity (len data)) as [Hl|Hl].
    + destruct (File.write_all data _ _) as [d2 f2] eqn:E2. intros [= <- <-].
      apply write_at_end in E2 as (-> & Hp2 & He2); [|done].
      assert (BufWriter.buf w = []) as Hb.
      { destruct (BufWriter.buf w); [done|]. unfold len in *. simpl in *. lia. }
      split_and!; [done | done |]. right; right. simpl. unfold contents. by rewrite Hb, app_nil_r.
    + intros [= <- <-]. split_and!; [done | done |]. by left.
Qed.
End writer.
