(* ===== verification/Wal.v ===== *)
(** * Wal: the write-ahead log on disk ([persistence/mod.rs], [persistence/wal.rs])

    [WALEntry] is a logged command with its frame on disk; [WriteAheadLog] is
    the log: the active file behind a buffered writer and the rotated segments
    [<path>.1] (the most recent), [<path>.2], ...  Each operation takes the file
    system and the log and returns both.  The callback of [replay] is a state
    transformer.

    Reading a file takes at least 24 bytes per entry, so the length of the file
    is enough fuel for the reading loops ([scan_fuel]). *)

From S2P Require Import Prelude Text FileSystem Command.
#[local] Open Scope Z_scope.

(** ** Configuration ([persistence/mod.rs]) *)

Module PersistenceMode.
Inductive t := NoPersistence | WAL | Snapshot | Both.

Definition default : t := NoPersistence.

Definition from_str `{UnicodeCase} (s : bytes) : res t :=
  let l := to_lowercase s in
  if decide (l = bs "none") then Ok NoPersistence
  else if decide (l = bs "wal") then Ok WAL
  else if decide (l = bs "snapshot") then Ok Snapshot
  else if decide (l = bs "both") then Ok Both
  else Err (bs "Invalid persistence mode: " ++ s).
End PersistenceMode.

Module WALSyncPolicy.
Inductive t := Always | EverySecond | Manual.

Definition default : t := EverySecond.

Definition from_str `{UnicodeCase} (s : bytes) : res t :=
  let l := to_lowercase s in
  if decide (l = bs "always") then Ok Always
  else if decide (l = bs "every_sec" \/ l = bs "every_second") then Ok EverySecond
  else if decide (l = bs "manual") then Ok Manual
  else Err (bs "Invalid WAL sync policy: " ++ s).
End WALSyncPolicy.

#[global] Instance persistence_mode_eq_dec : EqDecision PersistenceMode.t.
Proof. solve_decision. Defined.
#[global] Instance wal_sync_policy_eq_dec : EqDecision WALSyncPolicy.t.
Proof. solve_decision. Defined.

Module PersistenceConfig.
Record t := mk {
  mode : PersistenceMode.t;
  wal_sync_policy : WALSyncPolicy.t;
  snapshot_interval_secs : Z;
  max_wal_size_bytes : Z;
  wal_path : bytes;
  snapshot_path : bytes;
  wal_backup_count : Z;
}.

Definition default : t := {|
  mode := PersistenceMode.NoPersistence;
  wal_sync_policy := WALSyncPolicy.EverySecond;
  snapshot_interval_secs := 300;
  max_wal_size_bytes := 100 * 1024 * 1024;
  wal_path := bs "cache.wal";
  snapshot_path := bs "cache.snapshot";
  wal_backup_count := 1;
|}.
End PersistenceConfig.

(** ** Entries *)

Inductive WALError :=
| IoError (e : ErrorKind)
| SerializationError (msg : bytes)
| CorruptedEntry (msg : bytes).

#[global] Instance wal_error_eq_dec : EqDecision WALError.
Proof. solve_decision. Defined.

Module WALEntry.
Record t := mk { sequence : Z; timestamp : Z; command : Command.t }.

(** [wall] is the wall clock, in milliseconds since the epoch. *)
Definition new (sequence wall : Z) (command : Command.t) : t :=
  mk sequence (wrap_u64 (Z.max 0 wall)) command.

Section codec.
Context `{Bincode Command.t, Crc32}.

Definition serialize_command (e : t) : outcome WALError bytes :=
  match bin_serialize (command e) with
  | inr l => Done l
  | inl msg => Failed (SerializationError msg)
  end.

Definition deserialize_command (data : bytes) : outcome WALError Command.t :=
  match bin_deserialize data with
  | inr c => Done c
  | inl msg => Failed (CorruptedEntry (bs "bincode decode failed: " ++ msg))
  end.

Definition serialize (e : t) : outcome WALError bytes :=
  cmd_bytes ← serialize_command e;
  let buf := u64_bytes (sequence e) ++ u64_bytes (timestamp e)
             ++ u32_bytes (as_u32 (len cmd_bytes)) ++ cmd_bytes in
  Done (buf ++ u32_bytes (crc32 buf)).

Definition deserialize (data : bytes) : outcome WALError t :=
  if len data <? 24 then Failed (CorruptedEntry (bs "Entry too short"))
  else
    let checksum_offset := Z.to_nat (len data - 4) in
    let expected_checksum := from_be_bytes (take 4 (drop checksum_offset data)) in
    let actual_checksum := crc32 (take checksum_offset data) in
    if negb (actual_checksum =? expected_checksum)
    then Failed (CorruptedEntry (bs "Checksum mismatch"))
    else
      let sequence := from_be_bytes (take 8 data) in
      let data := drop 8 data in
      let timestamp := from_be_bytes (take 8 data) in
      let data := drop 8 data in
      let cmd_size := from_be_bytes (take 4 data) in
      let data := drop 4 data in
      if len data <? cmd_size + 4 then Failed (CorruptedEntry (bs "Invalid command size"))
      else
        command ← deserialize_command (take (Z.to_nat cmd_size) data);
        Done (mk sequence timestamp command).
End codec.
End WALEntry.

(** ** Reading a file *)

Section reading.
Context `{Bincode Command.t, Crc32}.

(** One round of the loops over a file: the 20 bytes of the header, then the
    command with its checksum.  [None] is the end of the file. *)
Definition next_frame (r : bytes) : outcome WALError (option (bytes * bytes * bytes)) :=
  match read_exact 20 r with
  | Done (header, r) =>
      let cmd_size := from_be_bytes (take 4 (drop 16 header)) in
      match read_exact (cmd_size + 4) r with
      | Done (entry_data, r) => Done (Some (header, entry_data, r))
      | Failed e => Failed (IoError e)
      | Crashed => Crashed
      end
  | Failed UnexpectedEof => Done None
  | Failed e => Failed (IoError e)
  | Crashed => Crashed
  end.

Section replay.
Context {S : Type} (callback : WALEntry.t -> S -> S * res unit).

Fixpoint replay_loop (fuel : nat) (r : bytes) (entries_replayed : Z) (s : S)
    : S * outcome WALError Z :=
  match fuel with
  | O => (s, Done entries_replayed)
  | Datatypes.S fuel =>
      match next_frame r with
      | Done (Some (header, entry_data, r)) =>
          match WALEntry.deserialize (header ++ entry_data) with
          | Done entry =>
              let '(s, x) := callback entry s in
              match x with
              | Panic => (s, Crashed)
              | _ => replay_loop fuel r (wrap_u64 (entries_replayed + 1)) s
              end
          | Failed _ => replay_loop fuel r entries_replayed s
          | Crashed => (s, Crashed)
          end
      | Done None => (s, Done entries_replayed)
      | Failed e => (s, Failed e)
      | Crashed => (s, Crashed)
      end
  end.

Definition replay_file (path : bytes) (d : fs) (s : S) : S * outcome WALError Z :=
  match d !! path with
  | None => (s, Done 0)
  | Some c => replay_loop (Datatypes.S (length c)) c 0 s
  end.

Fixpoint replay_files (paths : list bytes) (d : fs) (n : Z) (s : S) : S * outcome WALError Z :=
  match paths with
  | [] => (s, Done n)
  | p :: paths =>
      match replay_file p d s with
      | (s, Done k) => replay_files paths d (wrap_u64 (n + k)) s
      | (s, x) => (s, x)
      end
  end.
End replay.

(** The inner loop of [read_last_sequence]: the highest sequence number so far
    and whether any header was read. *)
Fixpoint last_sequence_loop (fuel : nat) (r : bytes) (last : Z) (found_any : bool)
    : outcome WALError (Z * bool) :=
  match fuel with
  | O => Done (last, found_any)
  | S fuel =>
      match next_frame r with
      | Done (Some (header, _, r)) =>
          last_sequence_loop fuel r (Z.max (from_be_bytes (take 8 header)) last) true
      | Done None => Done (last, found_any)
      | Failed e => Failed e
      | Crashed => Crashed
      end
  end.

Fixpoint last_sequence_files (paths : list bytes) (d : fs) (last : Z) (found_any : bool)
    : outcome WALError (Z * bool) :=
  match paths with
  | [] => Done (last, found_any)
  | p :: paths =>
      match d !! p with
      | None => last_sequence_files paths d last found_any
      | Some c =>
          '(last, found_any) ← last_sequence_loop (S (length c)) c last found_any;
          last_sequence_files paths d last found_any
      end
  end.
End reading.

(** ** The log *)

(** [1..=n] and [(1..=n).rev()] over [u32]. *)
Definition upto (n : Z) : list Z := map (fun i => Z.of_nat i + 1) (seq 0 (Z.to_nat n)).

Definition segment_of (path : bytes) (n : Z) : bytes := path ++ bs "." ++ show_int n.

Module WriteAheadLog.
Record t := mk {
  writer : BufWriter.t;
  sequence : Z;
  sync_policy : WALSyncPolicy.t;
  file_path : bytes;
  current_size : Z;
  max_size : Z;
  backup_count : Z;
}.

Definition set_writer (w : BufWriter.t) (l : t) : t :=
  mk w (sequence l) (sync_policy l) (file_path l) (current_size l) (max_size l) (backup_count l).
Definition set_current_size (n : Z) (l : t) : t :=
  mk (writer l) (sequence l) (sync_policy l) (file_path l) n (max_size l) (backup_count l).
Definition set_sequence (n : Z) (l : t) : t :=
  mk (writer l) n (sync_policy l) (file_path l) (current_size l) (max_size l) (backup_count l).

Definition segment_path (n : Z) (l : t) : bytes := segment_of (file_path l) n.

Definition segments_to_keep (l : t) : Z := Z.max (backup_count l) 1.

Definition files_in_replay_order (d : fs) (l : t) : list bytes :=
  List.filter (fun p => path_exists p d)
    (map (fun n => segment_path n l) (rev (upto (segments_to_keep l))))
  ++ (if path_exists (file_path l) d then [file_path l] else []).

Section operations.
Context `{Bincode Command.t, Crc32}.

Definition read_last_sequence (config : PersistenceConfig.t) (d : fs) : outcome WALError Z :=
  let keep := Z.max (PersistenceConfig.wal_backup_count config) 1 in
  let paths := PersistenceConfig.wal_path config
               :: map (segment_of (PersistenceConfig.wal_path config)) (upto keep) in
  '(last, found_any) ← last_sequence_files paths d 0 false;
  Done (if (found_any : bool) then wrap_u64 (last + 1) else 0).

Definition new (config : PersistenceConfig.t) (d : fs) : fs * outcome WALError t :=
  let '(d, file) := File.open_append (PersistenceConfig.wal_path config) d in
  let size := wrap_u64 (len (default [] (d !! PersistenceConfig.wal_path config))) in
  (d, seq ← read_last_sequence config d;
      Done {|
        writer := BufWriter.new file;
        sequence := seq;
        sync_policy := PersistenceConfig.wal_sync_policy config;
        file_path := PersistenceConfig.wal_path config;
        current_size := size;
        max_size := PersistenceConfig.max_wal_size_bytes config;
        backup_count := PersistenceConfig.wal_backup_count config;
      |}).

Definition sync (d : fs) (l : t) : fs * t :=
  let '(d, w) := BufWriter.flush d (writer l) in (d, set_writer w l).

Definition should_rotate (l : t) : bool := max_size l <=? current_size l.

(** The segments shift up: [.k] becomes [.k+1], from the oldest. *)
Fixpoint shift_segments (ns : list Z) (l : t) (d : fs) : outcome ErrorKind fs :=
  match ns with
  | [] => Done d
  | n :: ns =>
      d ← (if path_exists (segment_path n l) d
           then rename (segment_path n l) (segment_path (n + 1) l) d else Done d);
      shift_segments ns l d
  end.

(** On an error the log keeps what was done so far, so the file system and the
    log are returned beside the result. *)
Definition rotate (d : fs) (l : t) : fs * t * outcome WALError unit :=
  let keep := segments_to_keep l in
  let '(d, l) := sync d l in
  let oldest := segment_path keep l in
  match (if path_exists oldest d then remove_file oldest d else Done d) with
  | Done d =>
      match shift_segments (rev (upto (keep - 1))) l d with
      | Done d =>
          match copy (file_path l) (segment_path 1 l) d with
          | Done d =>
              let '(d, new_file) := File.open_truncate (file_path l) d in
              let '(d, _) := BufWriter.flush d (writer l) in
              (d, set_current_size 0 (set_writer (BufWriter.new new_file) l), Done tt)
          | Failed e => (d, l, Failed (IoError e))
          | Crashed => (d, l, Crashed)
          end
      | Failed e => (d, l, Failed (IoError e))
      | Crashed => (d, l, Crashed)
      end
  | Failed e => (d, l, Failed (IoError e))
  | Crashed => (d, l, Crashed)
  end.

(** The writer that is replaced is dropped, which flushes its buffer through
    its own handle, after the file was truncated. *)
Definition truncate_after_snapshot (d : fs) (l : t) : fs * t :=
  let '(d, new_file) := File.open_truncate (file_path l) d in
  let '(d, _) := BufWriter.flush d (writer l) in
  (d, set_current_size 0 (set_writer (BufWriter.new new_file) l)).

Definition append_command (wall : Z) (cmd : Command.t) (d : fs) (l : t)
    : fs * t * outcome WALError Z :=
  let seq := sequence l in
  let l := set_sequence (wrap_u64 (seq + 1)) l in
  match WALEntry.serialize (WALEntry.new seq wall cmd) with
  | Failed e => (d, l, Failed e)
  | Crashed => (d, l, Crashed)
  | Done entry_bytes =>
      let '(d, w) := BufWriter.write_all entry_bytes d (writer l) in
      let '(d, w) := match sync_policy l with
                     | WALSyncPolicy.Always => BufWriter.flush d w
                     | _ => (d, w)
                     end in
      let l := set_writer w l in
      let l := set_current_size (wrap_u64 (current_size l + len entry_bytes)) l in
      if should_rotate l
      then let '(d, l, _) := rotate d l in (d, l, Done seq)
      else (d, l, Done seq)
  end.

Definition replay {S} (callback : WALEntry.t -> S -> S * res unit) (d : fs) (l : t) (s : S)
    : S * outcome WALError Z :=
  replay_files callback (files_in_replay_order d l) d 0 s.

(** [start_sync_task]: what a tick of the background task does. *)
Definition sync_tick (d : fs) (l : t) : fs * t :=
  match sync_policy l with
  | WALSyncPolicy.EverySecond => sync d l
  | _ => (d, l)
  end.
End operations.
End WriteAheadLog.
