(* ===== verification/WalFacts.v ===== *)
(** * WalFacts: the log on disk refines a list of entries

    An entry survives its frame ([deserialize_serialize]); a file of frames is
    read frame by frame, damaged ones skipped ([replay_loop_frames]).
    [log_rep d l segs flushed buffered] says that the files of the log hold the
    segments [segs] (most recent first) and the active entries
    [flushed ++ buffered], of which the last are still in the writer's buffer.
    Every operation of the log is the corresponding operation on these lists,
    and opening and replaying the files gives them back. *)

From S2P Require Import Prelude Text FileSystem Command Wal.
#[local] Open Scope Z_scope.

(** ** Frames *)

Section frames.
Context `{Bincode Command.t, Crc32}.
Implicit Types (e : WALEntry.t) (l r : bytes).

(** A chunk of a file that the loops read as one entry. *)
Definition framed l : Prop :=
  24 <= len l /\ len l = from_be_bytes (take 4 (drop 16 l)) + 24.

(** Entries that fit the format: 64-bit numbers, and a length that fits its
    field. *)
Definition fits e : Prop :=
  in_u64 (WALEntry.sequence e) = true /\ in_u64 (WALEntry.timestamp e) = true /\
  exists l, WALEntry.serialize e = Done l /\ len l <= u32_max.

Definition frame e : bytes :=
  match WALEntry.serialize e with Done l => l | _ => [] end.

Lemma serialize_Done e l : WALEntry.serialize e = Done l -> exists c,
  bin_serialize (WALEntry.command e) = inr c /\
  l = (u64_bytes (WALEntry.sequence e) ++ u64_bytes (WALEntry.timestamp e)
       ++ u32_bytes (as_u32 (len c)) ++ c)
      ++ u32_bytes (crc32 (u64_bytes (WALEntry.sequence e) ++ u64_bytes (WALEntry.timestamp e)
       ++ u32_bytes (as_u32 (len c)) ++ c)).
Proof.
  unfold WALEntry.serialize, WALEntry.serialize_command.
  destruct (bin_serialize _) as [|c]; simpl; [done|]. intros [= <-]. by exists c.
Qed.

(** The parts of a frame, by position. *)
Lemma frame_parts seq ts size (c k : bytes) :
  let l := (u64_bytes seq ++ u64_bytes ts ++ u32_bytes size ++ c) ++ k in
  take 8 l = u64_bytes seq /\ take 8 (drop 8 l) = u64_bytes ts /\
  take 4 (drop 16 l) = u32_bytes size /\ drop 20 l = c ++ k.
Proof. by intros. Qed.

Lemma len_frame_parts seq ts size (c : bytes) z :
  len ((u64_bytes seq ++ u64_bytes ts ++ u32_bytes size ++ c) ++ u32_bytes z) = len c + 24.
Proof. rewrite !len_app, !len_u64_bytes, !len_u32_bytes. lia. Qed.

Lemma as_u32_id z : 0 <= z <= u32_max -> as_u32 z = z.
Proof. intros. apply Z.mod_small. widths. lia. Qed.

Lemma serialize_framed e : fits e -> framed (frame e).
Proof.
  intros (_ & _ & l & Hl & Hmax). unfold frame. rewrite Hl.
  apply serialize_Done in Hl as (c & _ & ->). rewrite len_frame_parts in Hmax.
  pose proof (len_nonneg c). split; [rewrite len_frame_parts; lia|].
  rewrite len_frame_parts.
  destruct (frame_parts (WALEntry.sequence e) (WALEntry.timestamp e) (as_u32 (len c)) c
    (u32_bytes (crc32 (u64_bytes (WALEntry.sequence e) ++ u64_bytes (WALEntry.timestamp e)
       ++ u32_bytes (as_u32 (len c)) ++ c)))) as (_ & _ & -> & _).
  rewrite as_u32_id by lia. rewrite from_u32_bytes; [done|]. apply in_u32_spec. lia.
Qed.

(** An entry survives its frame. *)
Lemma deserialize_serialize e : fits e -> WALEntry.deserialize (frame e) = Done e.
Proof.
  intros (Hs & Ht & l & Hl & Hmax). unfold frame. rewrite Hl.
  apply serialize_Done in Hl as (c & Hc & Hl).
  set (body := u64_bytes _ ++ _ ++ _ ++ c) in Hl.
  assert (Hlen : len l = len c + 24) by (rewrite Hl; apply len_frame_parts).
  pose proof (len_nonneg c).
  assert (Hoff : Z.to_nat (len l - 4) = length body).
  { rewrite Hl, len_app, len_u32_bytes. unfold len. lia. }
  pose proof (frame_parts (WALEntry.sequence e) (WALEntry.timestamp e) (as_u32 (len c)) c
    (u32_bytes (crc32 body))) as (P1 & P2 & P3 & P4). fold body in P1, P2, P3, P4.
  rewrite <- Hl in P1, P2, P3, P4.
  unfold WALEntry.deserialize. rewrite (proj2 (Z.ltb_ge _ _)) by lia.
  rewrite Hoff. rewrite Hl at 1 2. rewrite drop_app_length, take_app_length.
  change (take 4 (u32_bytes (crc32 body))) with (u32_bytes (crc32 body)).
  rewrite (from_u32_bytes (crc32 body)) by apply crc32_range. rewrite Z.eqb_refl. cbn [negb].
  rewrite !drop_drop. simpl Nat.add. rewrite P1, P2, P3, P4.
  rewrite as_u32_id by lia. rewrite !from_u64_bytes by done.
  rewrite from_u32_bytes by (apply in_u32_spec; lia).
  rewrite len_app, len_u32_bytes, Z.ltb_irrefl.
  unfold len at 1. rewrite Nat2Z.id, take_app_length.
  unfold WALEntry.deserialize_command. rewrite (bin_round_trip _ _ Hc). simpl. by destruct e.
Qed.

Lemma deserialize_no_crash l : WALEntry.deserialize l <> Crashed.
Proof.
  unfold WALEntry.deserialize, WALEntry.deserialize_command.
  repeat (case_match; try done).
Qed.

(** The reading loops take a framed chunk whole. *)
Lemma next_frame_framed l r : framed l ->
  next_frame (l ++ r) = Done (Some (take 20 l, drop 20 l, r)).
Proof.
  intros [H1 H2]. assert (Hd : len (drop 20 l) = len l - 20).
  { unfold len in *. rewrite length_drop. lia. }
  assert (Ht : len (take 20 l) = 20) by (unfold len in *; rewrite length_take; lia).
  unfold next_frame. rewrite <- (take_drop 20 l) at 1. rewrite <- app_assoc, <- Ht at 1.
  rewrite read_exact_app.
  assert (Hs : take 4 (drop 16 (take 20 l)) = take 4 (drop 16 l)).
  { change (take 20 l) with (take (16 + 4) l). rewrite <- take_drop_commute. by rewrite take_take. }
  rewrite Hs. replace (from_be_bytes _ + 4) with (len (drop 20 l)) by lia.
  by rewrite read_exact_app.
Qed.

Lemma next_frame_end : next_frame [] = Done None.
Proof. done. Qed.

Lemma next_frame_shorter r h x r' : next_frame r = Done (Some (h, x, r')) ->
  (length r' + 20 <= length r)%nat.
Proof.
  unfold next_frame. destruct (read_exact 20 r) as [[h1 r1]|[]|] eqn:E1; try done.
  destruct (read_exact _ r1) as [[x1 r2]|e|] eqn:E2; try done. intros [= <- <- <-].
  apply read_exact_length in E1 as [_ E1]; [|lia].
  apply read_exact_Done in E2 as (_ & -> & _). rewrite len_app in E1. unfold len in *. lia.
Qed.
End frames.

(** ** Files of frames *)

Section files.
Context `{Bincode Command.t, Crc32}.
Implicit Types (e : WALEntry.t) (l r : bytes).

(** The entries of a file, without the damaged ones. *)
Definition decoded (ls : list bytes) : list WALEntry.t :=
  omap (fun l => match WALEntry.deserialize l with Done e => Some e | _ => None end) ls.

Lemma decoded_frames es : Forall fits es -> decoded (map frame es) = es.
Proof.
  induction 1 as [|e es He _ IH]; [done|]. simpl. rewrite deserialize_serialize by done.
  by rewrite IH.
Qed.

(** The callback on each entry in turn, with the count. *)
Fixpoint run_entries {S : Type} (callback : WALEntry.t -> S -> S * res unit)
    (es : list WALEntry.t) (n : Z) (s : S) : S * outcome WALError Z :=
  match es with
  | [] => (s, Done n)
  | e :: es =>
      let '(s, x) := callback e s in
      match x with
      | Panic => (s, Crashed)
      | _ => run_entries callback es (wrap_u64 (n + 1)) s
      end
  end.

(** How the loops end on what follows the last whole frame. *)
Definition stop {A} (tail : bytes) (a : A) : outcome WALError A :=
  match next_frame tail with Failed e => Failed e | _ => Done a end.

Definition no_frame (tail : bytes) : Prop :=
  next_frame tail = Done None \/ exists err, next_frame tail = Failed err.

Lemma replay_loop_frames {S} (cb : WALEntry.t -> S -> S * res unit) ls tail fuel n s :
  Forall framed ls -> no_frame tail -> (length ls < fuel)%nat ->
  replay_loop cb fuel (concat ls ++ tail) n s =
  match run_entries cb (decoded ls) n s with
  | (s, Done n) => (s, stop tail n)
  | x => x
  end.
Proof.
  intros Hf Ht. revert fuel n s. induction Hf as [|l ls Hl _ IH]; intros [|fuel] n s Hfuel;
    simpl in Hfuel; try lia.
  { cbn [concat app replay_loop decoded omap list_omap run_entries]. unfold stop.
    by destruct Ht as [->|[e ->]]. }
  cbn [concat replay_loop]. rewrite <- app_assoc, next_frame_framed by done.
  rewrite take_drop. cbn [decoded omap list_omap].
  destruct (WALEntry.deserialize l) as [e|e|] eqn:E.
  - cbn [run_entries]. destruct (cb e s) as [s1 [| |]]; [apply IH; lia | apply IH; lia | done].
  - apply IH. lia.
  - by apply deserialize_no_crash in E.
Qed.

Lemma last_sequence_loop_frames ls tail fuel last any :
  Forall framed ls -> no_frame tail -> (length ls < fuel)%nat ->
  last_sequence_loop fuel (concat ls ++ tail) last any =
  stop tail (fold_left (fun a l => Z.max (from_be_bytes (take 8 l)) a) ls last,
             any || negb (bool_decide (ls = []))).
Proof.
  intros Hf Ht. revert fuel last any. induction Hf as [|l ls Hl _ IH]; intros [|fuel] last any Hfuel;
    simpl in Hfuel; try lia.
  { cbn [concat app last_sequence_loop fold_left]. rewrite bool_decide_true, orb_false_r by done.
    unfold stop. by destruct Ht as [->|[e ->]]. }
  cbn [concat last_sequence_loop fold_left]. rewrite <- app_assoc, next_frame_framed by done.
  rewrite IH by lia. rewrite take_take. rewrite (bool_decide_false (l :: ls = [])) by done.
  simpl. by rewrite orb_true_r.
Qed.

Lemma framed_length ls : Forall framed ls -> (length ls <= length (concat ls))%nat.
Proof.
  induction 1 as [|l ls [Hl _] _ IH]; simpl; [lia|]. rewrite length_app. unfold len in Hl. lia.
Qed.

Lemma framed_frames es : Forall fits es -> Forall framed (map frame es).
Proof. intros Hes. apply Forall_map. by eapply Forall_impl; [|apply serialize_framed]. Qed.

Lemma no_frame_nil : no_frame [].
Proof. by left. Qed.

(** A file of whole entries. *)
Lemma replay_file_entries {S} (cb : WALEntry.t -> S -> S * res unit) p d es s :
  Forall fits es -> d !! p = Some (concat (map frame es)) ->
  replay_file cb p d s = run_entries cb es 0 s.
Proof.
  intros Hes Hp. unfold replay_file. rewrite Hp.
  rewrite <- (app_nil_r (concat _)) at 2.
  rewrite replay_loop_frames;
    [|by apply framed_frames|apply no_frame_nil|pose proof (framed_length _ (framed_frames es Hes)); lia].
  rewrite decoded_frames by done. by destruct (run_entries cb es 0 s) as [? [| |]].
Qed.

Lemma wrap_u64_add n k : wrap_u64 (wrap_u64 n + k) = wrap_u64 (n + k).
Proof. unfold wrap_u64. by rewrite Zplus_mod_idemp_l. Qed.

Lemma wrap_u64_idemp n : wrap_u64 (wrap_u64 n) = wrap_u64 n.
Proof. unfold wrap_u64. by rewrite Z.mod_mod. Qed.

(** The count does not matter to the callbacks. *)
Lemma run_entries_count {S} (cb : WALEntry.t -> S -> S * res unit) es n m s : wrap_u64 n = n ->
  run_entries cb es n s =
  match run_entries cb es m s with
  | (s, Done _) => (s, Done (wrap_u64 (n + len es)))
  | x => x
  end.
Proof.
  revert n m s. induction es as [|e es IH]; intros n m s Hn; cbn [run_entries].
  { unfold len. simpl. by rewrite Z.add_0_r, Hn. }
  destruct (cb e s) as [s' x].
  assert (Hr : run_entries cb es (wrap_u64 (n + 1)) s' =
    match run_entries cb es (wrap_u64 (m + 1)) s' with
    | (s, Done _) => (s, Done (wrap_u64 (n + len (e :: es))))
    | x => x
    end).
  { rewrite (IH _ (wrap_u64 (m + 1))) by apply wrap_u64_idemp.
    rewrite wrap_u64_add, len_cons. by replace (n + (1 + len es)) with (n + 1 + len es) by lia. }
  by destruct x.
Qed.

Lemma run_entries_app {S} (cb : WALEntry.t -> S -> S * res unit) es1 es2 n s : wrap_u64 n = n ->
  run_entries cb (es1 ++ es2) n s =
  match run_entries cb es1 0 s with
  | (s, Done k) => run_entries cb es2 (wrap_u64 (n + k)) s
  | x => x
  end.
Proof.
  intros Hn. assert (Hg : run_entries cb (es1 ++ es2) n s =
    match run_entries cb es1 n s with
    | (s, Done k) => run_entries cb es2 k s
    | x => x
    end).
  { clear Hn. revert n s. induction es1 as [|e es1 IH]; intros n s; simpl; [done|].
    destruct (cb e s) as [s' [| |]]; [apply IH..|done]. }
  rewrite Hg, (run_entries_count cb es1 n 0 s Hn).
  rewrite (run_entries_count cb es1 0 0 s) by done.
  destruct (run_entries cb es1 0 s) as [s' [k| |]]; [|done..].
  by rewrite (Z.add_comm n (wrap_u64 _)), wrap_u64_add, Z.add_0_l, Z.add_comm.
Qed.

Lemma replay_files_entries {S} (cb : WALEntry.t -> S -> S * res unit) paths d ess n s :
  wrap_u64 n = n -> Forall (Forall fits) ess ->
  Forall2 (fun p es => d !! p = Some (concat (map frame es))) paths ess ->
  replay_files cb paths d n s = run_entries cb (concat ess) n s.
Proof.
  intros Hn Hf Hp. revert n s Hn Hf.
  induction Hp as [|p es paths ess Hp _ IH]; intros n s Hn Hf; [done|].
  apply Forall_cons in Hf as [Hes Hess]. cbn [replay_files concat].
  rewrite (replay_file_entries cb p d es), run_entries_app by done.
  destruct (run_entries cb es 0 s) as [s' [k| |]]; [|done..].
  apply IH; [apply wrap_u64_idemp | done].
Qed.

(** The highest sequence number of some files of whole entries. *)
Lemma last_sequence_files_entries paths d ess last any :
  Forall (Forall fits) ess ->
  Forall2 (fun p es => d !! p = Some (concat (map frame es)) \/ d !! p = None /\ es = []) paths ess ->
  last_sequence_files paths d last any =
  Done (fold_left (fun a e => Z.max (WALEntry.sequence e) a) (concat ess) last,
        any || negb (bool_decide (concat ess = []))).
Proof.
  intros Hf Hp. revert last any Hf.
  induction Hp as [|p es paths ess Hp _ IH]; intros last any Hf; cbn [last_sequence_files concat].
  { rewrite bool_decide_true, orb_false_r by done. done. }
  apply Forall_cons in Hf as [Hes Hess]. destruct Hp as [Hp|[Hp ->]]; rewrite Hp; [|by apply IH].
  rewrite <- (app_nil_r (concat _)) at 2. rewrite last_sequence_loop_frames;
    [|by apply framed_frames|apply no_frame_nil|pose proof (framed_length _ (framed_frames es Hes)); lia].
  cbn [stop next_frame read_exact mbind outcome_bind]. simpl.
  rewrite IH by done. rewrite fold_left_app. f_equal. f_equal.
  - f_equal. clear -Hes. revert last. induction Hes as [|e es He _ IH]; intros last; simpl; [done|].
    rewrite IH. f_equal. f_equal. destruct He as (Hs & _ & l & Hl & _).
    unfold frame. rewrite Hl. apply serialize_Done in Hl as (c & _ & ->).
    rewrite <- !app_assoc. change (take 8 (?a ++ ?b)) with a. by rewrite from_u64_bytes.
  - destruct es; simpl; [by rewrite orb_false_r|]. by rewrite !orb_true_r.
Qed.
Lemma last_sequence_files_missing paths d last any : Forall (fun p => d !! p = None) paths ->
  last_sequence_files paths d last any = Done (last, any).
Proof. induction 1 as [|p paths Hp _ IH]; simpl; [done|]. by rewrite Hp. Qed.

(** A part of a frame: without its header nothing is read, with it the body is
    missed. *)
Lemma next_frame_torn l (n : nat) : framed l -> (n < length l)%nat ->
  next_frame (take n l) = if (n <? 20)%nat then Done None else Failed (IoError UnexpectedEof).
Proof.
  intros [H1 H2] Hn. unfold next_frame.
  assert (Hl : len (take n l) = Z.of_nat n) by (unfold len in *; rewrite length_take; lia).
  destruct (Nat.ltb_spec n 20).
  { by rewrite read_exact_short by lia. }
  unfold read_exact at 1. rewrite (proj2 (Z.leb_le _ _)) by lia.
  change (Z.to_nat 20) with 20%nat. rewrite take_take. replace (20 `min` n)%nat with 20%nat by lia.
  assert (Hs : take 4 (drop 16 (take 20 l)) = take 4 (drop 16 l)).
  { change (take 20 l) with (take (16 + 4) l). rewrite <- take_drop_commute. by rewrite take_take. }
  rewrite Hs, read_exact_short; [done|]. unfold len in *. rewrite length_drop, length_take. lia.
Qed.
End files.

(** ** The log as lists of entries *)

Section log.
Context `{Bincode Command.t, Crc32}.
Implicit Types (d : fs) (l : WriteAheadLog.t) (segs : list (list WALEntry.t)).
Import WriteAheadLog.

Definition render (es : list WALEntry.t) : bytes := concat (map frame es).

Record log_rep d l segs (flushed buffered : list WALEntry.t) : Prop := {
  rep_path : File.path (BufWriter.inner (writer l)) = file_path l;
  rep_end : at_end d (BufWriter.inner (writer l));
  rep_file : d !! file_path l = Some (render flushed);
  rep_buf : BufWriter.buf (writer l) = render buffered;
  rep_segs : forall i : nat, Z.of_nat i < segments_to_keep l ->
    d !! segment_path (Z.of_nat i + 1) l = render <$> segs !! i;
  rep_count : len segs <= segments_to_keep l;
  rep_fits : Forall (Forall fits) segs /\ Forall fits (flushed ++ buffered);
  rep_size : current_size l = wrap_u64 (len (render (flushed ++ buffered)));
  rep_backups : in_u32 (backup_count l) = true;
}.

Lemma render_app es1 es2 : render (es1 ++ es2) = render es1 ++ render es2.
Proof. unfold render. by rewrite map_app, concat_app. Qed.

Lemma keep_range l : in_u32 (backup_count l) = true -> 1 <= segments_to_keep l <= u32_max.
Proof. rewrite in_u32_spec. unfold segments_to_keep. widths. lia. Qed.

(** *** Paths *)

Lemma show_int_inj n m : in_u64 n = true -> in_u64 m = true -> show_int n = show_int m -> n = m.
Proof. intros Hn Hm E. apply parse_u64_show in Hn, Hm. congruence. Qed.

Lemma segment_of_inj p n m : in_u64 n = true -> in_u64 m = true ->
  segment_of p n = segment_of p m -> n = m.
Proof. intros Hn Hm E. apply app_inv_head, app_inv_head in E. by apply show_int_inj. Qed.

Lemma segment_of_ne p n : segment_of p n <> p.
Proof.
  intros E. apply (f_equal length) in E. unfold segment_of in E. rewrite !length_app in E.
  simpl in E. lia.
Qed.

Lemma upto_S (k : nat) : upto (Z.of_nat (S k)) = upto (Z.of_nat k) ++ [Z.of_nat k + 1].
Proof.
  unfold upto. rewrite !Nat2Z.id, seq_S, map_app. done.
Qed.

(** *** Rotation *)

Lemma shift_segments_spec l (k : nat) d : Z.of_nat k + 1 <= u32_max ->
  d !! segment_path (Z.of_nat k + 1) l = None ->
  exists d', shift_segments (rev (upto (Z.of_nat k))) l d = Done d' /\
    d' !! segment_path 1 l = None /\
    (forall i : nat, (i < k)%nat ->
       d' !! segment_path (Z.of_nat i + 2) l = d !! segment_path (Z.of_nat i + 1) l) /\
    (forall p, (forall i : nat, (i <= k)%nat -> p <> segment_path (Z.of_nat i + 1) l) -> d' !! p = d !! p).
Proof.
  revert d. induction k as [|k IH]; intros d Hk Hd.
  { exists d. split_and!; [done | done | lia | done]. }
  rewrite upto_S, rev_app_distr. cbn [rev app shift_segments].
  assert (Hne : forall i j : nat, (i <= S k)%nat -> (j <= S k)%nat -> i <> j ->
    segment_path (Z.of_nat i + 1) l <> segment_path (Z.of_nat j + 1) l).
  { intros i j Hi Hj Hij E. apply segment_of_inj in E; [lia|apply in_u64_spec; widths; lia..]. }
  set (a := segment_path (Z.of_nat k + 1) l) in *.
  replace (Z.of_nat k + 1 + 1) with (Z.of_nat (S k) + 1) by lia.
  set (b := segment_path (Z.of_nat (S k) + 1) l) in *.
  assert (Hab : a <> b) by (apply Hne; lia).
  assert (Hd1 : exists d1, (if path_exists a d then rename a b d else Done d) = Done d1 /\
    d1 !! a = None /\ d1 !! b = d !! a /\ (forall p, p <> a -> p <> b -> d1 !! p = d !! p)).
  { unfold path_exists, rename. destruct (d !! a) as [c|] eqn:Ea.
    - rewrite bool_decide_true by done. eexists. split; [done|].
      rewrite lookup_insert_ne, lookup_delete_eq, lookup_insert_eq by done.
      split_and!; [done | done |]. intros p Hpa Hpb.
      by rewrite lookup_insert_ne, lookup_delete_ne.
    - rewrite bool_decide_false by (by intros []). exists d. by split_and!. }
  destruct Hd1 as (d1 & -> & H1a & H1b & H1p). cbn [mbind outcome_bind].
  destruct (IH d1) as (d' & -> & H2 & H3 & H4); [lia | done |].
  exists d'. split_and!; [done | done | |].
  - intros i Hi. destruct (decide (i = k)) as [->|Hik].
    + replace (Z.of_nat k + 2) with (Z.of_nat (S k) + 1) by lia. fold a b. rewrite H4, H1b; [done|].
      intros i Hi2. apply Hne; lia.
    + rewrite H3 by lia. apply H1p; apply Hne; lia.
  - intros p Hp. rewrite H4, H1p; [done | apply Hp; lia | apply Hp; lia |].
    intros i Hi. apply Hp. lia.
Qed.

(** What never changes after the log is opened. *)
Definition settings l := (sync_policy l, file_path l, max_size l, backup_count l).

Lemma segment_path_settings l l' n : settings l' = settings l -> segment_path n l' = segment_path n l.
Proof. unfold settings, segment_path. congruence. Qed.

Lemma sync_rep d l segs fl bu : log_rep d l segs fl bu ->
  exists d' l', sync d l = (d', l') /\ log_rep d' l' segs (fl ++ bu) [] /\
    settings l' = settings l /\ sequence l' = sequence l /\ current_size l' = current_size l.
Proof.
  intros [Hp He Hf Hb Hs Hc Hfit Hsz Hk]. unfold sync.
  destruct (BufWriter.flush d (writer l)) as [d' w'] eqn:E.
  apply flush_at_end in E as (-> & Hb' & Hp' & He'); [|done].
  assert (Hcont : contents d (writer l) = render (fl ++ bu)).
  { unfold contents. by rewrite Hp, Hf, Hb, render_app. }
  rewrite Hcont, Hp in *. eexists _, _. split; [done|]. split; [|done].
  split; simpl; try done.
  - by rewrite lookup_insert_eq.
  - intros i Hi. rewrite lookup_insert_ne; [by apply Hs|]. intros E. symmetry in E.
    by apply segment_of_ne in E.
  - by rewrite app_nil_r.
  - by rewrite app_nil_r.
Qed.

(** Rotation makes the active entries the most recent segment, and forgets the
    oldest one when there are more than are kept. *)
Lemma rotate_rep d l segs fl bu : log_rep d l segs fl bu ->
  exists d' l', rotate d l = (d', l', Done tt) /\
    log_rep d' l' (take (Z.to_nat (segments_to_keep l)) ((fl ++ bu) :: segs)) [] [] /\
    settings l' = settings l /\ sequence l' = sequence l.
Proof.
  intros Hrep. unfold rotate. apply sync_rep in Hrep as (d1 & l1 & -> & Hrep & Hset & Hseq & _).
  assert (Hkl : segments_to_keep l = segments_to_keep l1).
  { unfold settings, segments_to_keep in *. congruence. }
  rewrite Hkl, <- Hset, <- Hseq. clear Hkl Hset Hseq l d. rename d1 into d, l1 into l.
  destruct Hrep as [Hp He Hf Hb Hs Hc [Hfs Hfl] Hsz Hk]. pose proof (keep_range l Hk) as Hkeep.
  set (k := Z.to_nat (segments_to_keep l - 1)).
  assert (Ek : segments_to_keep l = Z.of_nat k + 1) by lia.
  assert (Hne : forall i, file_path l <> segment_path i l).
  { intros i E. symmetry in E. by apply segment_of_ne in E. }
  assert (Hd1 : exists d1, (if path_exists (segment_path (segments_to_keep l) l) d
      then remove_file (segment_path (segments_to_keep l) l) d else Done d) = Done d1 /\
    d1 = delete (segment_path (segments_to_keep l) l) d).
  { unfold remove_file, path_exists. case_bool_decide as Hx; eexists; split; try done.
    rewrite delete_id; [done|]. by apply eq_None_not_Some. }
  destruct Hd1 as (d1 & -> & ->). rewrite Ek, Z.add_simpl_r.
  destruct (shift_segments_spec l k (delete (segment_path (Z.of_nat k + 1) l) d)) as
    (d2 & -> & H1 & H2 & H3); [lia | by rewrite lookup_delete_eq |].
  assert (Hf2 : d2 !! file_path l = Some (render (fl ++ bu))).
  { rewrite H3 by done. by rewrite lookup_delete_ne. }
  unfold copy. rewrite Hf2. unfold File.open_truncate, BufWriter.flush.
  rewrite Hb. cbn [File.write_all map concat]. eexists _, _. split; [done|]. split; [|done].
  assert (Hkeep' : forall w c, segments_to_keep (set_current_size c (set_writer w l)) = segments_to_keep l) by done.
  split; simpl; try done.
  - eexists. simpl. by rewrite lookup_insert_eq; auto.
  - by rewrite lookup_insert_eq.
  - intros i Hi. rewrite Hkeep' in Hi. rewrite lookup_insert_ne by apply Hne.
    change (segment_path ?a (set_current_size _ _)) with (segment_path a l).
    rewrite lookup_take_lt by lia. destruct i as [|i]; simpl.
    { by rewrite lookup_insert_eq. }
    replace (Z.of_nat (S i) + 1) with (Z.of_nat i + 2) by lia.
    rewrite lookup_insert_ne.
    2:{ intros E. apply segment_of_inj in E; [lia|apply in_u64_spec; widths; lia..]. }
    rewrite H2 by lia. rewrite lookup_delete_ne.
    2:{ intros E. apply segment_of_inj in E; [lia|apply in_u64_spec; widths; lia..]. }
    apply Hs. lia.
  - rewrite Hkeep'. unfold len. rewrite length_take. lia.
  - split; [|done]. apply Forall_take. constructor; [|done]. by rewrite app_nil_r in Hfl.
Qed.

(** Writing an entry: whole entries stay in the buffer or reach the file. *)
Lemma write_entry_rep d l segs fl bu e : log_rep d l segs fl bu -> fits e ->
  exists d' w' fl' bu', BufWriter.write_all (frame e) d (writer l) = (d', w') /\
    fl' ++ bu' = (fl ++ bu) ++ [e] /\ (length fl <= length fl')%nat /\
    log_rep d' (set_current_size (wrap_u64 (current_size l + len (frame e))) (set_writer w' l))
      segs fl' bu'.
Proof.
  intros [Hp He Hf Hb Hs Hc [Hfs Hfl] Hsz Hk] Hfit.
  destruct (BufWriter.write_all (frame e) d (writer l)) as [d' w'] eqn:E.
  apply writer_at_end in E as (Hp' & He' & Hcase); [|done].
  assert (Hfr : frame e = render [e]) by (unfold render; simpl; by rewrite app_nil_r).
  assert (Hcont : contents d (writer l) = render (fl ++ bu)).
  { unfold contents. by rewrite Hp, Hf, Hb, render_app. }
  assert (Hsz' : forall fl' bu', fl' ++ bu' = (fl ++ bu) ++ [e] ->
    wrap_u64 (current_size l + len (frame e)) = wrap_u64 (len (render (fl' ++ bu')))).
  { intros fl' bu' ->. by rewrite Hsz, wrap_u64_add, (render_app (fl ++ bu) [e]), len_app, Hfr. }
  assert (Hne : forall i, file_path l <> segment_path i l).
  { intros i E. symmetry in E. by apply segment_of_ne in E. }
  assert (Hfl' : Forall fits ((fl ++ bu) ++ [e])) by (by apply Forall_app; rewrite Forall_singleton).
  assert (Hgo : exists fl' bu', fl' ++ bu' = (fl ++ bu) ++ [e] /\ (length fl <= length fl')%nat /\
    BufWriter.buf w' = render bu' /\ d' = <[file_path l := render fl']> d).
  { rewrite Hp, Hcont in Hcase. rewrite Hfr, <- !render_app in Hcase. rewrite Hb in Hcase.
    destruct Hcase as [[-> Hb']|[[-> Hb']|[-> Hb']]].
    - exists fl, (bu ++ [e]). rewrite render_app. split_and!; [by rewrite app_assoc | lia | done |].
      by rewrite insert_id.
    - exists (fl ++ bu), [e]. split_and!; try done. rewrite length_app. lia.
    - exists ((fl ++ bu) ++ [e]), []. split_and!; try done; [by rewrite app_nil_r|].
      rewrite !length_app. lia. }
  destruct Hgo as (fl' & bu' & Happ & Hle & Hb' & ->).
  eexists _, w', fl', bu'. split; [done|]. split; [done|]. split; [done|].
  split; simpl; try done; try congruence.
  - by rewrite lookup_insert_eq.
  - intros i Hi. rewrite lookup_insert_ne by apply Hne. by apply Hs.
  - by rewrite Happ.
  - by apply Hsz'.
Qed.

(** The next state of the active entries and the segments when [e] is added. *)
Definition added (max keep : Z) (e : WALEntry.t) (segs : list (list WALEntry.t))
    (active : list WALEntry.t) : list (list WALEntry.t) * list WALEntry.t :=
  if max <=? wrap_u64 (len (render (active ++ [e])))
  then (take (Z.to_nat keep) ((active ++ [e]) :: segs), []) else (segs, active ++ [e]).

Lemma append_rep d l segs fl bu wall cmd : log_rep d l segs fl bu ->
  fits (WALEntry.new (sequence l) wall cmd) ->
  let e := WALEntry.new (sequence l) wall cmd in
  exists d' l' fl' bu', append_command wall cmd d l = (d', l', Done (sequence l)) /\
    log_rep d' l' (added (max_size l) (segments_to_keep l) e segs (fl ++ bu)).1 fl' bu' /\
    fl' ++ bu' = (added (max_size l) (segments_to_keep l) e segs (fl ++ bu)).2 /\
    settings l' = settings l /\ sequence l' = wrap_u64 (sequence l + 1) /\
    (sync_policy l = WALSyncPolicy.Always -> bu' = []).
Proof.
  intros Hrep Hfit e. unfold append_command. fold e.
  assert (Hser : WALEntry.serialize e = Done (frame e)).
  { destruct Hfit as (_ & _ & c & Hc & _). unfold frame. fold e in Hc. by rewrite Hc. }
  rewrite Hser. set (l1 := set_sequence (wrap_u64 (sequence l + 1)) l).
  assert (Hrep1 : log_rep d l1 segs fl bu) by (by destruct Hrep; split).
  destruct (write_entry_rep d l1 segs fl bu e Hrep1 Hfit) as (d1 & w1 & fl1 & bu1 & -> & Happ & _ & Hr1).
  set (l2 := set_current_size _ _) in Hr1.
  assert (Hpol : exists d2 w2 fl2 bu2, match sync_policy l1 with
      | WALSyncPolicy.Always => BufWriter.flush d1 w1 | _ => (d1, w1) end = (d2, w2) /\
      log_rep d2 (set_current_size (wrap_u64 (current_size l1 + len (frame e))) (set_writer w2 l1))
        segs fl2 bu2 /\ fl2 ++ bu2 = (fl ++ bu) ++ [e] /\
      (sync_policy l = WALSyncPolicy.Always -> bu2 = [])).
  { change (sync_policy l) with (sync_policy l1). destruct (sync_policy l1) eqn:Epol.
    2,3: by exists d1, w1, fl1, bu1.
    destruct (sync_rep d1 l2 segs fl1 bu1 Hr1) as (d2 & l2' & Hs & Hr2 & _).
    unfold sync in Hs. simpl in Hs. destruct (BufWriter.flush d1 w1) as [d2' w2'].
    injection Hs as <- <-. exists d2', w2', (fl1 ++ bu1), []. by rewrite app_nil_r. }
  destruct Hpol as (d2 & w2 & fl2 & bu2 & -> & Hr2 & Happ2 & Hal). clear Hr1 l2.
  change (current_size (set_writer w2 l1)) with (current_size l1).
  set (l2 := set_current_size _ _) in *. unfold should_rotate, added.
  rewrite (rep_size _ _ _ _ _ Hr2), Happ2. change (max_size l2) with (max_size l).
  destruct (max_size l <=? _).
  - destruct (rotate_rep _ _ _ _ _ Hr2) as (d3 & l3 & -> & Hr3 & Hset & Hseq).
    rewrite Happ2 in Hr3. change (segments_to_keep l2) with (segments_to_keep l) in Hr3.
    exists d3, l3, [], []. by split_and!.
  - exists d2, l2, fl2, bu2. by split_and!.
Qed.

(** *** Reading back *)

Lemma upto_split a b : 0 <= a <= b ->
  upto b = upto a ++ map (fun i => Z.of_nat i + 1) (seq (Z.to_nat a) (Z.to_nat (b - a))).
Proof.
  intros Hab. unfold upto. rewrite <- map_app.
  replace (Z.to_nat b) with (Z.to_nat a + Z.to_nat (b - a))%nat by lia.
  by rewrite seq_app.
Qed.

Lemma replay_order d l segs fl bu : log_rep d l segs fl bu ->
  files_in_replay_order d l
  = map (fun i : nat => segment_path (Z.of_nat i + 1) l) (rev (seq 0 (length segs))) ++ [file_path l].
Proof.
  intros [Hp He Hf Hb Hs Hc _ _ Hk]. unfold files_in_replay_order, path_exists at 2.
  rewrite bool_decide_true by (rewrite Hf; by eexists). f_equal.
  rewrite (upto_split (len segs)) by (pose proof (len_nonneg segs); lia).
  rewrite rev_app_distr, map_app, List.filter_app. unfold upto.
  replace (Z.to_nat (len segs)) with (length segs) by (unfold len; lia).
  rewrite <- !map_rev, !map_map.
  set (segment := fun i : nat => segment_path (Z.of_nat i + 1) l).
  assert (Hex : forall i : nat, Z.of_nat i < segments_to_keep l ->
    path_exists (segment i) d = bool_decide (i < length segs)%nat).
  { intros i Hi. unfold path_exists. apply bool_decide_ext. unfold segment. rewrite Hs by done.
    rewrite fmap_is_Some, lookup_lt_is_Some. done. }
  assert (Hall : forall js, Forall (fun i => i < length segs)%nat js ->
    List.filter (fun p => path_exists p d) (map segment js) = map segment js).
  { induction 1 as [|i js' Hi _ IH]; [done|]. simpl. unfold len in Hc.
    rewrite Hex, bool_decide_true by lia. by rewrite IH. }
  assert (Hnone : forall js, Forall (fun i => (length segs <= i)%nat /\ Z.of_nat i < segments_to_keep l) js ->
    List.filter (fun p => path_exists p d) (map segment js) = []).
  { induction 1 as [|i js' [Hi1 Hi2] _ IH]; [done|]. simpl.
    rewrite Hex, bool_decide_false by lia. done. }
  rewrite Hnone, Hall; [done|apply Forall_rev, Forall_forall..]; intros i;
    rewrite elem_of_seq; unfold len in *; lia.
Qed.

(** Replaying the files gives the entries that reached them, oldest first. *)
Lemma replay_rep {S} (cb : WALEntry.t -> S -> S * res unit) d l segs fl bu s :
  log_rep d l segs fl bu -> replay cb d l s = run_entries cb (concat (rev segs) ++ fl) 0 s.
Proof.
  intros Hrep. unfold replay. rewrite (replay_order _ _ _ _ _ Hrep).
  destruct Hrep as [Hp He Hf Hb Hs Hc [Hfs Hfl] _ Hk]. apply Forall_app in Hfl as [Hfl _].
  rewrite (replay_files_entries cb _ d (rev segs ++ [fl])); [|done| |].
  - by rewrite concat_app; simpl; rewrite app_nil_r.
  - apply Forall_app. rewrite Forall_singleton. split; [by apply Forall_rev | done].
  - apply Forall2_app; [|by constructor].
    assert (H2 : Forall2 (fun p es => d !! p = Some (concat (map frame es)))
      (map (fun i : nat => segment_path (Z.of_nat i + 1) l) (seq 0 (length segs))) segs).
    { apply Forall2_same_length_lookup. rewrite length_map, length_seq. split; [done|].
      intros i p es Hi Hes. apply list_lookup_fmap_Some in Hi as (j & -> & Hj).
      apply lookup_seq in Hj as [-> Hj]. rewrite Hs by (unfold len in Hc; lia).
      simpl. by rewrite Hes. }
    rewrite map_rev. apply Forall2_reverse in H2. unfold reverse in H2. by rewrite <- !rev_alt in H2.
Qed.

(** *** Opening *)

Definition next_sequence (es : list WALEntry.t) : Z :=
  if bool_decide (es = []) then 0
  else wrap_u64 (fold_left (fun a e => Z.max (WALEntry.sequence e) a) es 0 + 1).

Definition opened_with (config : PersistenceConfig.t) l : Prop :=
  settings l = (PersistenceConfig.wal_sync_policy config, PersistenceConfig.wal_path config,
                PersistenceConfig.max_wal_size_bytes config, PersistenceConfig.wal_backup_count config).

Lemma concat_defaults segs (n : nat) : (length segs <= n)%nat ->
  concat (map (fun i => default [] (segs !! i)) (seq 0 n)) = concat segs.
Proof.
  revert n. induction segs as [|es segs IH]; intros n Hn.
  - assert (Hg : forall m, concat (map (fun i => default [] (([] : list (list WALEntry.t)) !! i)) (seq m n)) = []).
    { clear. induction n as [|n IH]; intros m; simpl; [done|]. by rewrite IH. }
    apply Hg.
  - destruct n as [|n]; simpl in Hn; [lia|]. simpl. f_equal.
    rewrite <- seq_shift, map_map. simpl. apply IH. lia.
Qed.

(** What was in the buffer is lost with the process; opening the log again
    finds the rest. *)
Lemma new_rep config d l segs fl bu : log_rep d l segs fl bu -> opened_with config l ->
  exists l', new config d = (d, Done l') /\ log_rep d l' segs fl [] /\
    opened_with config l' /\ sequence l' = next_sequence (fl ++ concat segs).
Proof.
  intros [Hp He Hf Hb Hs Hc [Hfs Hfl] Hsz Hk] Hset. injection Hset as Hpol Hpath Hmax Hbak.
  apply Forall_app in Hfl as [Hfl _]. unfold new, File.open_append.
  rewrite <- Hpath, Hf. cbn [default]. rewrite insert_id by done. rewrite Hf. cbn [default].
  unfold read_last_sequence. rewrite <- Hpath, <- Hbak.
  change (Z.max (backup_count l) 1) with (segments_to_keep l).
  pose proof (keep_range l Hk) as Hkeep.
  rewrite (last_sequence_files_entries _ d
    (fl :: map (fun i => default [] (segs !! i)) (seq 0 (Z.to_nat (segments_to_keep l))))).
  - cbn [mbind outcome_bind concat]. rewrite concat_defaults by (unfold len in Hc; lia).
    eexists. split; [done|]. rewrite <- Hpol, <- Hmax.
    split; [|split; [unfold opened_with, settings; simpl; congruence|]].
    + split; simpl; try done.
      * eexists. simpl. split; [done|]. by left.
      * split; [done|]. by rewrite app_nil_r.
      * by rewrite app_nil_r.
    + unfold next_sequence. by case_bool_decide.
  - constructor; [done|]. apply Forall_map, Forall_forall. intros i _.
    destruct (segs !! i) eqn:E; simpl; [|constructor]. by eapply Forall_lookup_1 in Hfs.
  - constructor; [by left|]. unfold upto. rewrite map_map.
    apply Forall2_fmap, Forall_Forall2_diag, Forall_forall. intros i Hi. apply elem_of_seq in Hi.
    change (segment_of (file_path l) ?n) with (segment_path n l). rewrite Hs by lia.
    destruct (segs !! i); simpl; auto.
Qed.

(** *** A run of the log *)

Inductive step := Append (wall : Z) (cmd : Command.t) | Sync.

Fixpoint run_steps (steps : list step) (d : fs) l : fs * t :=
  match steps with
  | [] => (d, l)
  | Append wall cmd :: steps => let '(d, l, _) := append_command wall cmd d l in run_steps steps d l
  | Sync :: steps => let '(d, l) := sync d l in run_steps steps d l
  end.

Fixpoint appended (steps : list step) : list Command.t :=
  match steps with
  | [] => []
  | Append _ cmd :: steps => cmd :: appended steps
  | Sync :: steps => appended steps
  end.

(** Commands whose frame fits the format. *)
Definition loggable (cmd : Command.t) : Prop :=
  exists c, bin_serialize cmd = inr c /\ len c + 24 <= u32_max.

Lemma loggable_fits seq wall cmd : loggable cmd -> in_u64 seq = true ->
  fits (WALEntry.new seq wall cmd).
Proof.
  intros (c & Hc & Hlen) Hseq. split_and!; [done | |].
  - apply in_u64_spec. simpl. unfold wrap_u64.
    pose proof (Z.mod_pos_bound (Z.max 0 wall) (2 ^ 64) ltac:(lia)). widths. lia.
  - unfold WALEntry.serialize, WALEntry.serialize_command. cbn [WALEntry.command WALEntry.new].
    rewrite Hc. cbn [mbind outcome_bind]. eexists. split; [done|]. by rewrite len_frame_parts.
Qed.

Lemma len_frame_le e : fits e -> 0 <= len (frame e) <= u32_max.
Proof. intros (_ & _ & c & Hc & Hl). unfold frame. rewrite Hc. split; [apply len_nonneg | done]. Qed.

(** All the entries ever written: the segments [all], most recent first, of
    which the last ones are kept, and the active entries. *)
Record history_rep d l (all : list (list WALEntry.t)) (fl bu : list WALEntry.t) : Prop := {
  hist_rep : log_rep d l (take (Z.to_nat (segments_to_keep l)) all) fl bu;
  hist_full : Forall (fun es => max_size l <= len (render es)) all;
  hist_fits : Forall (Forall fits) all;
  hist_active : fl ++ bu = [] \/ len (render (fl ++ bu)) < max_size l;
}.

Definition commands_of (all : list (list WALEntry.t)) (active : list WALEntry.t) : list Command.t :=
  map WALEntry.command (concat (rev all) ++ active).

Lemma take_cons_take {A} (n : nat) (x : A) xs : take n (x :: take n xs) = take n (x :: xs).
Proof. destruct n; simpl; [done|]. f_equal. rewrite take_take. f_equal. lia. Qed.

Lemma append_history d l all fl bu wall cmd : history_rep d l all fl bu ->
  loggable cmd -> in_u64 (sequence l) = true -> max_size l <= i64_max ->
  exists d' l' all' fl' bu', append_command wall cmd d l = (d', l', Done (sequence l)) /\
    history_rep d' l' all' fl' bu' /\
    commands_of all' (fl' ++ bu') = commands_of all (fl ++ bu) ++ [cmd] /\
    settings l' = settings l /\ sequence l' = wrap_u64 (sequence l + 1) /\
    (sync_policy l = WALSyncPolicy.Always -> bu' = []).
Proof.
  intros [Hrep Hfull Hfits Hact] Hlog Hseq Hmax.
  pose proof (loggable_fits _ wall _ Hlog Hseq) as Hfit.
  destruct (append_rep _ _ _ _ _ _ _ Hrep Hfit) as (d' & l' & fl' & bu' & Ha & Hr' & Happ & Hset & Hsq & Hal).
  set (e := WALEntry.new (sequence l) wall cmd) in *.
  assert (Hk : segments_to_keep l' = segments_to_keep l /\ max_size l' = max_size l).
  { unfold settings, segments_to_keep in *. split; congruence. }
  destruct Hk as [Hk Hm]. pose proof (len_frame_le e Hfit) as Hle.
  assert (Hsize : len (render ((fl ++ bu) ++ [e])) = len (render (fl ++ bu)) + len (frame e)).
  { rewrite render_app, len_app. unfold render at 2. simpl. by rewrite app_nil_r. }
  assert (Hw : wrap_u64 (len (render ((fl ++ bu) ++ [e]))) = len (render ((fl ++ bu) ++ [e]))).
  { apply Z.mod_small. pose proof (len_nonneg (render (fl ++ bu))).
    destruct Hact as [Hn|Hact]; [rewrite Hsize, Hn; unfold render, len in *; simpl in *|]; widths; lia. }
  unfold added in Hr', Happ. rewrite Hw in Hr', Happ.
  destruct (Z.leb_spec (max_size l) (len (render ((fl ++ bu) ++ [e])))) as [Hrot|Hrot];
    cbn [fst snd] in Hr', Happ.
  - apply app_eq_nil in Happ as [-> ->].
    exists d', l', (((fl ++ bu) ++ [e]) :: all), [], []. split_and!; try done.
    + split; [by rewrite Hk, <- take_cons_take | by rewrite Hm; constructor | | by left].
      constructor; [|done]. pose proof (rep_fits _ _ _ _ _ Hrep) as [_ Hf].
      apply Forall_app. by rewrite Forall_singleton.
    + unfold commands_of. simpl. rewrite concat_app. simpl. rewrite !app_nil_r.
      by rewrite app_assoc, map_app.
  - exists d', l', all, fl', bu'. split_and!; try done.
    + split; [by rewrite Hk | by rewrite Hm | done |]. right. by rewrite Happ, Hm.
    + unfold commands_of. rewrite Happ. by rewrite app_assoc, map_app.
Qed.

Lemma sync_history d l all fl bu : history_rep d l all fl bu ->
  exists d' l', sync d l = (d', l') /\ history_rep d' l' all (fl ++ bu) [] /\
    settings l' = settings l /\ sequence l' = sequence l.
Proof.
  intros [Hrep Hfull Hfits Hact].
  destruct (sync_rep _ _ _ _ _ Hrep) as (d' & l' & Hs & Hr & Hset & Hseq & _).
  exists d', l'. split; [done|]. split; [|done].
  assert (segments_to_keep l' = segments_to_keep l /\ max_size l' = max_size l) as [Hk Hm].
  { unfold settings, segments_to_keep in *. split; congruence. }
  split; [by rewrite Hk | by rewrite Hm | done | by rewrite app_nil_r, Hm].
Qed.

(** The steps after which everything is on disk. *)
Definition durable (policy : WALSyncPolicy.t) (steps : list step) : Prop :=
  policy = WALSyncPolicy.Always \/ exists pre, steps = pre ++ [Sync].

Lemma run_steps_history steps d l all fl bu : history_rep d l all fl bu ->
  Forall loggable (appended steps) -> 0 <= sequence l ->
  sequence l + len (appended steps) <= u64_max -> max_size l <= i64_max ->
  exists d' l' all' fl' bu', run_steps steps d l = (d', l') /\
    history_rep d' l' all' fl' bu' /\
    commands_of all' (fl' ++ bu') = commands_of all (fl ++ bu) ++ appended steps /\
    settings l' = settings l /\ sequence l' = sequence l + len (appended steps) /\
    (sync_policy l = WALSyncPolicy.Always -> bu = [] -> bu' = []).
Proof.
  revert d l all fl bu. induction steps as [|[wall cmd|] steps IH];
    intros d l all fl bu Hh Hlog Hseq Hbound Hmax; cbn [run_steps appended] in *.
  { exists d, l, all, fl, bu. unfold len. simpl. rewrite app_nil_r. by split_and!; [..|lia|]. }
  - apply Forall_cons in Hlog as [Hc Hlog]. rewrite len_cons in Hbound.
    pose proof (len_nonneg (appended steps)) as Hn.
    destruct (append_history d l all fl bu wall cmd Hh Hc) as
      (d1 & l1 & all1 & fl1 & bu1 & -> & Hh1 & Hcmd1 & Hset1 & Hseq1 & Hal1);
      [apply in_u64_spec; lia | done |].
    assert (sequence l1 = sequence l + 1) as Hs1.
    { rewrite Hseq1. apply Z.mod_small. widths. lia. }
    injection (Hset1) as Hp1 _ Hm1 _.
    destruct (IH d1 l1 all1 fl1 bu1) as (d2 & l2 & all2 & fl2 & bu2 & -> & Hh2 & Hcmd2 & Hset2 & Hseq2 & Hal2);
      [done | done | lia | lia | lia |].
    exists d2, l2, all2, fl2, bu2. rewrite len_cons. split_and!; try done.
    + rewrite Hcmd2, Hcmd1. by rewrite <- app_assoc.
    + congruence.
    + lia.
    + intros Hpol _. apply Hal2; [congruence|]. by apply Hal1.
  - destruct (sync_history d l all fl bu Hh) as (d1 & l1 & -> & Hh1 & Hset1 & Hseq1).
    injection (Hset1) as Hp1 _ Hm1 _.
    destruct (IH d1 l1 all (fl ++ bu) []) as (d2 & l2 & all2 & fl2 & bu2 & -> & Hh2 & Hcmd2 & Hset2 & Hseq2 & Hal2);
      [done | done | lia | lia | lia |].
    exists d2, l2, all2, fl2, bu2. rewrite app_nil_r in Hcmd2. split_and!; try done; try congruence; try lia.
    intros Hpol _. apply Hal2; congruence.
Qed.

Lemma run_steps_app s1 s2 d l :
  run_steps (s1 ++ s2) d l = let '(d, l) := run_steps s1 d l in run_steps s2 d l.
Proof.
  revert d l. induction s1 as [|[wall cmd|] s1 IH]; intros d l; cbn [run_steps app]; [done|..].
  - destruct (append_command wall cmd d l) as [[d1 l1] r]. apply IH.
  - destruct (sync d l) as [d1 l1]. apply IH.
Qed.

Lemma appended_app s1 s2 : appended (s1 ++ s2) = appended s1 ++ appended s2.
Proof. induction s1 as [|[]]; simpl; congruence. Qed.

Lemma run_durable steps d l d' l' : durable (sync_policy l) steps ->
  run_steps steps d l = (d', l') ->
  (forall all fl bu, history_rep d' l' all fl bu -> bu = []) \/ sync_policy l = WALSyncPolicy.Always.
Proof.
  intros [Hpol|[pre ->]]; [by right|]. rewrite run_steps_app.
  destruct (run_steps pre d l) as [d1 l1]. cbn [run_steps]. intros Hs. left. intros all fl bu Hh.
  destruct (hist_rep _ _ _ _ _ Hh) as [_ _ _ Hbuf _ _ [_ Hfit] _ _].
  unfold sync in Hs. unfold BufWriter.flush in Hs.
  destruct (File.write_all _ _ _) as [d2 f2]. injection Hs as <- <-. simpl in Hbuf.
  apply Forall_app in Hfit as [_ Hfit]. destruct bu as [|e bu]; [done|].
  apply Forall_cons in Hfit as [He _]. apply serialize_framed in He as [He _].
  apply (f_equal len) in Hbuf. unfold render in Hbuf. simpl in Hbuf. rewrite len_app in Hbuf.
  pose proof (len_nonneg (concat (map frame bu))). unfold len in *. simpl in *. lia.
Qed.

(** A directory in which the log has no files yet. *)
Definition fresh (config : PersistenceConfig.t) d : Prop :=
  d !! PersistenceConfig.wal_path config = None /\
  forall n, d !! segment_of (PersistenceConfig.wal_path config) n = None.

Lemma new_fresh config d : fresh config d -> in_u32 (PersistenceConfig.wal_backup_count config) = true ->
  exists l, new config d = (<[PersistenceConfig.wal_path config := []]> d, Done l) /\
    history_rep (<[PersistenceConfig.wal_path config := []]> d) l [] [] [] /\
    opened_with config l /\ sequence l = 0.
Proof.
  intros [Hp Hs] Hk. set (d1 := <[_ := []]> d).
  assert (E : new config d = new config d1).
  { assert (Eo : forall p, d !! p = None -> File.open_append p d = File.open_append p (<[p := []]> d)).
    { intros p Hn. unfold File.open_append. rewrite Hn, lookup_insert_eq. simpl. by rewrite insert_insert_eq. }
    unfold new. by rewrite Eo. }
  set (l := mk (BufWriter.new (File.mk (PersistenceConfig.wal_path config) true 0)) 0
    (PersistenceConfig.wal_sync_policy config) (PersistenceConfig.wal_path config) 0
    (PersistenceConfig.max_wal_size_bytes config) (PersistenceConfig.wal_backup_count config)).
  assert (Hrep : log_rep d1 l [] [] []).
  { split; simpl; try done.
    - eexists. simpl. unfold d1. rewrite lookup_insert_eq. by auto.
    - unfold d1. by rewrite lookup_insert_eq.
    - intros i _. unfold d1. rewrite lookup_insert_ne; [apply Hs|].
      intros E'. symmetry in E'. by apply segment_of_ne in E'.
    - unfold len, segments_to_keep. simpl. lia. }
  destruct (new_rep config _ _ _ _ _ Hrep) as (l' & Hn & Hr & Ho & Hsq); [done|].
  exists l'. rewrite E. split_and!; [done | | done | done].
  split; [by rewrite take_nil | done | done | by left].
Qed.

(** *** Sizes *)

Definition wire_size (cmd : Command.t) : Z :=
  match bin_serialize cmd with inr c => len c + 24 | inl _ => 0 end.

Definition total_size (cmds : list Command.t) : Z := foldr (fun c n => wire_size c + n) 0 cmds.

Lemma total_size_app c1 c2 : total_size (c1 ++ c2) = total_size c1 + total_size c2.
Proof. induction c1 as [|c c1 IH]; simpl; [done|]. rewrite IH. lia. Qed.

Lemma total_size_nonneg cs : 0 <= total_size cs.
Proof.
  induction cs as [|c cs IH]; simpl; [done|]. unfold wire_size.
  destruct (bin_serialize c) as [|l]; [lia|]. pose proof (len_nonneg l). lia.
Qed.

Lemma len_render es : Forall fits es -> len (render es) = total_size (map WALEntry.command es).
Proof.
  induction 1 as [|e es (_ & _ & l & Hl & _) _ IH]; [done|].
  unfold render in *. simpl. rewrite len_app, IH. f_equal. unfold frame. rewrite Hl.
  apply serialize_Done in Hl as (c & Hc & ->). unfold wire_size. rewrite Hc. apply len_frame_parts.
Qed.

(** Segments forgotten: only when all that was written exceeds what the kept
    segments and one more hold. *)
Lemma full_segments (all : list (list WALEntry.t)) max : 0 <= max ->
  Forall (fun es => max <= len (render es)) all -> len all * max <= len (render (concat (rev all))).
Proof.
  intros Hm. induction 1 as [|es all Hes _ IH]; [done|].
  simpl. rewrite concat_app, render_app, len_app, len_cons. simpl. rewrite app_nil_r. nia.
Qed.
End log.

(** ** Killed and started again *)

Section restart.
Context `{Bincode Command.t, Crc32}.
Import WriteAheadLog.

Lemma history_fits d l all fl bu : history_rep d l all fl bu ->
  Forall fits (concat (take (Z.to_nat (segments_to_keep l)) all) ++ fl ++ bu).
Proof.
  intros [[_ _ _ _ _ _ [Hs Hf] _ _] _ _ _]. apply Forall_app. split; [|done].
  apply Forall_concat. exact Hs.
Qed.

(** What the kept segments leave out is older than all of them. *)
Lemma commands_kept (n : nat) (all : list (list WALEntry.t)) active :
  commands_of all active = map WALEntry.command (concat (rev (drop n all))) ++ commands_of (take n all) active.
Proof.
  unfold commands_of. rewrite <- map_app, app_assoc, <- concat_app, <- rev_app_distr.
  by rewrite take_drop.
Qed.

(** Opening the files of a log whose process is gone: the entries of the kept
    segments and of the active file are there, in order. *)
Lemma reopen_history config d l all fl bu : history_rep d l all fl bu -> opened_with config l ->
  exists l2, new config d = (d, Done l2) /\
    (forall S (cb : WALEntry.t -> S -> S * res unit) s, replay cb d l2 s =
       run_entries cb (concat (rev (take (Z.to_nat (segments_to_keep l)) all)) ++ fl) 0 s).
Proof.
  intros Hh Ho. destruct (new_rep config _ _ _ _ _ (hist_rep _ _ _ _ _ Hh) Ho) as (l2 & Hn & Hr & _).
  exists l2. split; [done|]. intros S cb s. by apply (replay_rep cb _ _ _ _ _ s) in Hr.
Qed.

(** Nothing is forgotten while all the entries fit one more segment than is
    kept. *)
Lemma nothing_forgotten d l all fl bu : history_rep d l all fl bu ->
  total_size (commands_of all (fl ++ bu)) < (segments_to_keep l + 1) * max_size l ->
  drop (Z.to_nat (segments_to_keep l)) all = [].
Proof.
  intros Hh Hlt. pose proof (hist_fits _ _ _ _ _ Hh) as Hfit. apply drop_ge. destruct (Z_lt_le_dec (segments_to_keep l) (len all)) as [Hl|Hl].
  2:{ unfold len in Hl. lia. }
  exfalso. pose proof (hist_full _ _ _ _ _ Hh) as Hfull.
  pose proof (keep_range l (rep_backups _ _ _ _ _ (hist_rep _ _ _ _ _ Hh))) as Hk.
  assert (Hbound : len all * Z.max 0 (max_size l) <= len (render (concat (rev all)))).
  { apply full_segments; [lia|]. eapply Forall_impl; [exact Hfull|]. intros es Hes.
    pose proof (len_nonneg (render es)). cbv beta in *. lia. }
  assert (Hr : len (render (concat (rev all))) <= total_size (commands_of all (fl ++ bu))).
  { unfold commands_of. rewrite map_app, total_size_app, len_render.
    - pose proof (total_size_nonneg (map WALEntry.command (fl ++ bu))). lia.
    - apply Forall_concat, Forall_rev. exact Hfit. }
  nia.
Qed.
End restart.

Section recovery.
Context `{Bincode Command.t, Crc32}.
Import WriteAheadLog.

(** From an empty directory, through any steps, to the log that is opened
    next. *)
Lemma log_recovery config d0 steps :
  fresh config d0 -> in_u32 (PersistenceConfig.wal_backup_count config) = true ->
  PersistenceConfig.max_wal_size_bytes config <= i64_max ->
  Forall loggable (appended steps) -> len (appended steps) <= u64_max ->
  exists d l, new config d0 = (d, Done l) /\
  exists d' l', run_steps steps d l = (d', l') /\
  exists l2, new config d' = (d', Done l2) /\
  exists es old recent, appended steps = old ++ map WALEntry.command es ++ recent /\
    (forall S (cb : WALEntry.t -> S -> S * res unit) s, replay cb d' l2 s = run_entries cb es 0 s) /\
    (durable (PersistenceConfig.wal_sync_policy config) steps -> recent = []) /\
    (total_size (appended steps) <
       (Z.max (PersistenceConfig.wal_backup_count config) 1 + 1) * PersistenceConfig.max_wal_size_bytes config ->
     old = []).
Proof.
  intros Hf Hk Hmax Hlog Hlen. destruct (new_fresh config d0 Hf Hk) as (l & Hn & Hh & Ho & Hs).
  eexists _, l. split; [exact Hn|]. injection (Ho) as Hpol Hpath Hmx Hbk.
  destruct (run_steps_history steps _ l _ _ _ Hh Hlog) as
    (d' & l' & all & fl & bu & Hrun & Hh' & Hcmds & Hset & _ & Hal); [lia | lia | lia |].
  exists d', l'. split; [done|].
  assert (Ho' : opened_with config l') by (unfold opened_with in *; congruence).
  destruct (reopen_history config _ _ _ _ _ Hh' Ho') as (l2 & Hn2 & Hrep).
  exists l2. split; [done|]. set (n := Z.to_nat (segments_to_keep l')) in *.
  exists (concat (rev (take n all)) ++ fl), (map WALEntry.command (concat (rev (drop n all)))),
    (map WALEntry.command bu).
  assert (Hall : commands_of all (fl ++ bu) = appended steps) by exact Hcmds.
  split_and!; [|exact Hrep| |].
  - rewrite <- Hall, (commands_kept n). f_equal. unfold commands_of. by rewrite app_assoc, map_app.
  - intros Hd. rewrite <- Hpol in Hd.
    destruct (run_durable _ _ _ _ _ Hd Hrun) as [Hb|Hb].
    + by rewrite (Hb _ _ _ Hh').
    + by rewrite Hal.
  - intros Hlt. unfold n. rewrite (nothing_forgotten _ _ _ _ _ Hh'); [done|]. rewrite Hall.
    injection (Ho') as _ _ Hmx' Hbk'. unfold segments_to_keep. congruence.
Qed.
End recovery.

(** ** Truncation *)

Section truncation.
Context `{Bincode Command.t, Crc32}.
Import WriteAheadLog.

(** With nothing in the buffer, the active entries go and the segments stay. *)
Lemma truncate_rep d l segs fl : log_rep d l segs fl [] ->
  exists d' l', truncate_after_snapshot d l = (d', l') /\ log_rep d' l' segs [] [] /\
    settings l' = settings l /\ sequence l' = sequence l /\
    (forall q, q <> file_path l -> d' !! q = d !! q).
Proof.
  intros [Hp He Hf Hb Hs Hc [Hfs Hfl] Hsz Hk]. unfold truncate_after_snapshot, File.open_truncate.
  unfold BufWriter.flush. rewrite Hb. cbn [File.write_all render map concat].
  eexists _, _. split; [done|]. split.
  2:{ split_and!; [done..|]. intros q Hq. simpl. by rewrite lookup_insert_ne. }
  split; simpl; try done.
  - eexists. simpl. rewrite lookup_insert_eq. by auto.
  - by rewrite lookup_insert_eq.
  - intros i Hi. rewrite lookup_insert_ne; [by apply Hs|]. intros E. symmetry in E.
    by apply segment_of_ne in E.
Qed.

(** The log does not see changes to other files. *)
Lemma log_rep_frame d d' l segs fl bu : log_rep d l segs fl bu ->
  d' !! file_path l = d !! file_path l ->
  (forall i, d' !! segment_path i l = d !! segment_path i l) -> log_rep d' l segs fl bu.
Proof.
  intros [Hp He Hf Hb Hs Hc Hfit Hsz Hk] H1 H2. split; try done.
  - destruct He as (c & Hcc & He). exists c. split; [|done]. by rewrite Hp, H1, <- Hp.
  - by rewrite H1.
  - intros i Hi. rewrite H2. by apply Hs.
Qed.

(** With entries in the buffer of an append handle, they are written after the
    truncation, and the new handle starts at the beginning. *)
Lemma truncate_buffered d l segs fl bu : log_rep d l segs fl bu ->
  File.append (BufWriter.inner (writer l)) = true ->
  exists d' l', truncate_after_snapshot d l = (d', l') /\ d' !! file_path l = Some (render bu) /\
    settings l' = settings l /\ sequence l' = sequence l /\ current_size l' = 0 /\
    writer l' = BufWriter.new (File.mk (file_path l) false 0).
Proof.
  intros [Hp He Hf Hb Hs Hc _ Hsz Hk] Ha. unfold truncate_after_snapshot, File.open_truncate.
  unfold BufWriter.flush, File.write_all. rewrite Hb, Hp, Ha. destruct (render bu) as [|b r].
  - eexists _, _. split; [done|]. by rewrite lookup_insert_eq.
  - eexists _, _. split; [done|]. by rewrite !lookup_insert_eq.
Qed.

(** An entry smaller than the buffer, appended to a log with an empty buffer
    that does not rotate, and synced, is written at the cursor. *)
Lemma append_sync_at_cursor d l wall cmd f :
  writer l = BufWriter.new f -> fits (WALEntry.new (sequence l) wall cmd) ->
  let e := WALEntry.new (sequence l) wall cmd in
  len (frame e) < BufWriter.capacity ->
  current_size l = 0 -> BufWriter.capacity <= max_size l -> sync_policy l <> WALSyncPolicy.Always ->
  exists d1 l1, append_command wall cmd d l = (d1, l1, Done (sequence l)) /\
    fst (sync d1 l1) = fst (File.write_all (frame e) d f).
Proof.
  intros Hw Hfit e Hl Hsz Hmax Hpol. unfold append_command. fold e.
  assert (Hser : WALEntry.serialize e = Done (frame e)).
  { destruct Hfit as (_ & _ & c & Hc & _). unfold frame. fold e in Hc. by rewrite Hc. }
  rewrite Hser. cbn [set_sequence writer sync_policy]. rewrite Hw.
  unfold BufWriter.write_all, BufWriter.new. cbn [BufWriter.buf BufWriter.inner].
  change (len []) with 0. rewrite Z.sub_0_r, (proj2 (Z.ltb_lt _ _)) by lia.
  destruct (sync_policy l) eqn:Ep; [done| |]; cbn [app].
  all: unfold should_rotate; cbn [set_current_size set_writer set_sequence current_size max_size];
    rewrite Hsz, Z.add_0_l; pose proof (len_nonneg (frame e));
    unfold wrap_u64; rewrite Z.mod_small by (unfold BufWriter.capacity in *; lia);
    rewrite (proj2 (Z.leb_gt _ _)) by lia; eexists _, _; split; [done|];
    unfold sync, BufWriter.flush; cbn [writer set_current_size set_writer BufWriter.buf BufWriter.inner];
    by destruct (File.write_all (frame e) d f).
Qed.
End truncation.

(** ** A serializer to evaluate examples with

    It knows [SET] and [INCR] only, and fails on every other command. *)

Definition example_serialize (cmd : Command.t) : bytes + bytes :=
  match cmd with
  | Command.Set' key value None =>
      if in_u32 (len key) then inr (x00 :: u32_bytes (len key) ++ key ++ value)
      else inl (bs "too long")
  | Command.Incr key => inr (x01 :: key)
  | _ => inl (bs "unsupported")
  end.

Definition example_deserialize (l : bytes) : bytes + Command.t :=
  match l with
  | x00 :: l =>
      let n := Z.to_nat (from_be_bytes (take 4 l)) in
      inr (Command.Set' (take n (drop 4 l)) (drop n (drop 4 l)) None)
  | x01 :: key => inr (Command.Incr key)
  | _ => inl (bs "unsupported")
  end.

#[export] Program Instance example_bincode : Bincode Command.t :=
  {| bin_serialize := example_serialize; bin_deserialize := example_deserialize |}.
Next Obligation.
  intros [] l; cbn [example_serialize]; try done; [|by intros [= <-]].
  destruct ttl_secs; [done|]. destruct (in_u32 (len key)) eqn:E; [|done]. intros [= <-].
  cbn [example_deserialize]. change (take 4 _) with (u32_bytes (len key)).
  change (drop 4 _) with (key ++ value).
  rewrite from_u32_bytes by done. unfold len. rewrite Nat2Z.id.
  by rewrite take_app_length, drop_app_length.
Qed.
