(* ===== verification/Snapshot.v ===== *)
(** * Snapshot: the snapshot file ([persistence/snapshot.rs])

    A snapshot is a list of records, one per key: the commands that rebuild the
    value and an absolute deadline.  Saving collects the records, writes them
    to a temporary file and renames it; loading applies the commands through
    [apply_write_command].

    [now] and [wall] are the clocks at the start of [create_snapshot]; [later k]
    is what the visit of the value of [k] meets: the monotonic clock when it is
    tested for expiry, and the order of its own hash table.  The class
    [HashOrder] is the order of the tables of the shards.  [readings k] is what
    loading the record of [k] meets, in another process and with other orders. *)

From S2P Require Import Prelude Text External Float64 Values SortedSet Stream Keyspace Storage.
From S2P Require Import StorageTypes Command Apply FileSystem Wal.
#[local] Open Scope Z_scope.

Definition MAGIC_V2 : bytes := bs "CACHESN2".
Definition MAGIC_V1 : bytes := bs "CACHESNP".
Definition VERSION : Z := 2.

Inductive SnapshotError :=
| SnapIoError (e : ErrorKind)
| SnapSerializationError (msg : bytes)
| CorruptedSnapshot (msg : bytes).

Module SnapshotRecord.
Record t := mk { key : bytes; commands : list Command.t; expire_unix_ms : option Z }.
End SnapshotRecord.

(** [SystemTime::now().duration_since(UNIX_EPOCH).unwrap_or(ZERO)], in
    milliseconds and in seconds. *)
Definition unix_ms (wall : Z) : Z := wrap_u64 (Z.max 0 wall).

(** The closure [to_unix_ms] of [create_snapshot]. *)
Definition to_unix_ms (now wall expires_at : Z) : Z :=
  wrap_u64 (unix_ms wall + wrap_u64 (Z.max 0 (expires_at - now) / ns_per_ms)).

Module SnapshotManager.
Record t := mk { config : PersistenceConfig.t; wal : option WriteAheadLog.t }.

Definition new (config : PersistenceConfig.t) : t := mk config None.
Definition with_wal (config : PersistenceConfig.t) (wal : WriteAheadLog.t) : t := mk config (Some wal).

Section records.

(** The commands and the expiry slot of a value; [None] for one that has
    expired or is empty. *)
Definition rebuild (now : Z) (rd : Reading) (key : bytes) (value : CacheValue)
    : option (list Command.t * option Z) :=
  let order := read_order rd in
  let later := read_now rd in
  match value with
  | CString v expires_at =>
      if match expires_at with Some e => e <=? now | None => false end then None
      else Some ([Command.Set' key v None], expires_at)
  | CHash h =>
      if HashValue.is_expired later h then None
      else Some (map (fun '(field, value) => Command.HSet key field value) (HashValue.get_all h),
                 HashValue.expires_at h)
  | CList l =>
      if ListValue.is_expired later l then None
      else match ListValue.items l with
           | [] => None
           | values => Some ([Command.RPush key values], ListValue.expires_at l)
           end
  | CSet s =>
      if SetValue.is_expired later s then None
      else match SetValue.get_all s with
           | [] => None
           | members => Some ([Command.SAdd key members], SetValue.expires_at s)
           end
  | CSortedSet ss =>
      if SortedSetValue.is_expired later ss then None
      else match omap (fun '(member, score) => (fun s => (s, member)) <$> score)
                   (SortedSetValue.get_range 0 usize_max true ss) with
           | [] => None
           | members => Some ([Command.ZAdd key members], SortedSetValue.expires_at ss)
           end
  | CStream st =>
      if StreamValue.is_expired later st then None
      else match map (fun '(id, fields) => Command.XAdd key (Some (StreamId.to_string id)) fields)
                   (StreamValue.entries st) with
           | [] => None
           | cmds => Some (cmds, StreamValue.expires_at st)
           end
  end.

Definition record_for (now : Z) (rd : Reading) (wall : Z) (key : bytes) (value : CacheValue)
    : option SnapshotRecord.t :=
  match rebuild now rd key value with
  | Some ([], _) | None => None
  | Some (commands, expires_at) =>
      Some (SnapshotRecord.mk key commands (to_unix_ms now wall <$> expires_at))
  end.

Definition create_snapshot `{KeyMap M, HashOrder} (now wall : Z) (later : bytes -> Reading) (m : M)
    : list SnapshotRecord.t :=
  omap (fun '(key, value) => record_for now (later key) wall key value) (get_all_entries m).
End records.

Section files.
Context `{Bincode (list SnapshotRecord.t), Crc32, HashOrder, KeyMap M, Layout}.

(** The [write_all] calls of one buffered writer. *)
Fixpoint write_pieces (pieces : list bytes) (d : fs) (w : BufWriter.t) : fs * BufWriter.t :=
  match pieces with
  | [] => (d, w)
  | p :: pieces => let '(d, w) := BufWriter.write_all p d w in write_pieces pieces d w
  end.

(** [saved_at] is the wall clock when the header is written. *)
Definition save_snapshot_to_path (path : bytes) (now wall : Z) (later : bytes -> Reading) (saved_at : Z)
    (m : M) (d : fs) : fs * outcome SnapshotError unit :=
  let records := create_snapshot now wall later m in
  match bin_serialize records with
  | inl msg => (d, Failed (SnapSerializationError msg))
  | inr blob =>
      let checksum := crc32 blob in
      let timestamp := Z.max 0 saved_at / 1000 in
      let temp_path := path ++ bs ".tmp" in
      let '(d, file) := File.open_truncate temp_path d in
      let '(d, writer) := write_pieces
        [MAGIC_V2; u32_bytes VERSION; u64_bytes timestamp; u64_bytes (wrap_u64 (len records));
         u64_bytes (wrap_u64 (len blob)); u32_bytes checksum; blob] d (BufWriter.new file) in
      let '(d, _) := BufWriter.flush d writer in
      match rename temp_path path d with
      | Done d => (d, Done tt)
      | Failed e => (d, Failed (SnapIoError e))
      | Crashed => (d, Crashed)
      end
  end.

(** [save_snapshot]: after the file is in place the log is truncated. *)
Definition save_snapshot (now wall : Z) (later : bytes -> Reading) (saved_at : Z) (m : M) (d : fs) (s : t)
    : fs * t * outcome SnapshotError unit :=
  match save_snapshot_to_path (PersistenceConfig.snapshot_path (config s)) now wall later saved_at m d with
  | (d, Done _) =>
      match wal s with
      | Some l =>
          let '(d, l) := WriteAheadLog.truncate_after_snapshot d l in
          (d, mk (config s) (Some l), Done tt)
      | None => (d, s, Done tt)
      end
  | (d, Failed e) => (d, s, Failed e)
  | (d, Crashed) => (d, s, Crashed)
  end.

(** A tick of [start_background_snapshots], whose interval must not be zero;
    the first one comes at once. *)
Definition snapshot_tick (now wall : Z) (later : bytes -> Reading) (saved_at : Z) (m : M) (d : fs) (s : t) : fs * t :=
  if 0 <? PersistenceConfig.snapshot_interval_secs (config s)
  then fst (save_snapshot now wall later saved_at m d s) else (d, s).

(** *** Loading *)

Definition read (n : Z) (r : bytes) : outcome SnapshotError (bytes * bytes) :=
  map_err SnapIoError (read_exact n r).

(** The header and the blob; [None] for a file of version 1, which is
    ignored. *)
Definition read_snapshot (file : bytes) : outcome SnapshotError (option (list SnapshotRecord.t)) :=
  '(magic, r) ← read 8 file;
  if decide (magic = MAGIC_V1) then Done None
  else if decide (magic <> MAGIC_V2) then Failed (CorruptedSnapshot (bs "Invalid magic number"))
  else
    '(u32_buf, r) ← read 4 r;
    let version := from_be_bytes u32_buf in
    if negb (version =? VERSION)
    then Failed (CorruptedSnapshot (bs "Unsupported version: " ++ show_int version))
    else
      '(_, r) ← read 8 r;
      '(_, r) ← read 8 r;
      '(u64_buf, r) ← read 8 r;
      let blob_len := from_be_bytes u64_buf in
      '(u32_buf, r) ← read 4 r;
      let expected_checksum := from_be_bytes u32_buf in
      if isize_max <? blob_len then Crashed
      else
        '(blob, _) ← read blob_len r;
        if negb (crc32 blob =? expected_checksum)
        then Failed (CorruptedSnapshot (bs "Blob checksum mismatch"))
        else match bin_deserialize blob with
             | inr records => Done (Some records)
             | inl msg => Failed (CorruptedSnapshot msg)
             end.

(** The commands of a record. *)
Fixpoint apply_all (rd : Reading) (cmds : list Command.t) (m : M) : res M :=
  match cmds with
  | [] => Ok m
  | cmd :: cmds => m ← apply_at (meeting rd cmd) m; apply_all rd cmds m
  end.

Definition load_record (rd : Reading) (now_unix_ms : Z) (r : SnapshotRecord.t) (m : M) : res M :=
  m ← apply_all rd (SnapshotRecord.commands r) m;
  match SnapshotRecord.expire_unix_ms r with
  | Some expire_ms =>
      let now := read_now rd in
      at' ← instant_add now (from_millis (expire_ms - now_unix_ms));
      Ok (fst (set_expiry now (SnapshotRecord.key r) at' m))
  | None => Ok m
  end.

Fixpoint load_records (readings : bytes -> Reading) (now_unix_ms : Z) (rs : list SnapshotRecord.t)
    (loaded_count : Z) (m : M) : res (M * Z) :=
  match rs with
  | [] => Ok (m, loaded_count)
  | r :: rs =>
      if match SnapshotRecord.expire_unix_ms r with Some e => e <=? now_unix_ms | None => false end
      then load_records readings now_unix_ms rs loaded_count m
      else
        m ← load_record (readings (SnapshotRecord.key r)) now_unix_ms r m;
        load_records readings now_unix_ms rs (wrap_u64 (loaded_count + 1)) m
  end.

Definition load_snapshot_from_path (path : bytes) (readings : bytes -> Reading) (wall : Z) (d : fs) (m : M)
    : outcome SnapshotError (M * Z) :=
  match d !! path with
  | None => Done (m, 0)
  | Some file =>
      o ← read_snapshot file;
      match o with
      | None => Done (m, 0)
      | Some records =>
          match load_records readings (unix_ms wall) records 0 m with
          | Ok x => Done x
          | _ => Crashed
          end
      end
  end.

Definition load_snapshot (readings : bytes -> Reading) (wall : Z) (d : fs) (s : t) (m : M)
    : outcome SnapshotError (M * Z) :=
  load_snapshot_from_path (PersistenceConfig.snapshot_path (config s)) readings wall d m.
End files.
End SnapshotManager.

(** ** Starting up ([server.rs], [load_from_persistence])

    The snapshot first, then the log on top; an error leaves what was loaded
    before it.  Every record and every entry of the log is applied with readings
    of its own. *)

Inductive LoadError := LoadSnapshot (e : SnapshotError) | LoadWal (e : WALError).

Section load.
Context `{Bincode Command.t, Bincode (list SnapshotRecord.t), Crc32, KeyMap M, Layout}.

(** The callback of [wal.replay]. *)
Definition apply_entry (entries : WALEntry.t -> Reading) (e : WALEntry.t) (m : M) : M * res unit :=
  match apply_at (meeting (entries e) (WALEntry.command e)) m with
  | Ok m => (m, Ok tt)
  | Err e => (m, Err e)
  | Panic => (m, Panic)
  end.

Definition load_from_persistence (readings : bytes -> Reading) (wall : Z) (entries : WALEntry.t -> Reading)
    (snapshot_manager : option SnapshotManager.t) (wal : option WriteAheadLog.t) (d : fs) (m : M)
    : M * outcome LoadError unit :=
  match match snapshot_manager with
        | Some s => map_err LoadSnapshot (fst <$> SnapshotManager.load_snapshot readings wall d s m)
        | None => Done m
        end with
  | Done m =>
      match wal with
      | Some l =>
          match WriteAheadLog.replay (apply_entry entries) d l m with
          | (m, Done _) => (m, Done tt)
          | (m, Failed e) => (m, Failed (LoadWal e))
          | (m, Crashed) => (m, Crashed)
          end
      | None => (m, Done tt)
      end
  | Failed e => (m, Failed e)
  | Crashed => (m, Crashed)
  end.
End load.
