(* ===== verification/SnapshotFacts.v ===== *)
(** * SnapshotFacts: a snapshot rebuilds the values it was taken of

    [read_saved]: the file that was written is read back.  [rebuild_applies]:
    the commands of a record rebuild the value under a key that has none;
    [same_contents] says what "the value" means.  [load_records_spec] puts the
    keys together. *)

From S2P Require Import Prelude Text External Float64 BTree Values SortedSet SortedSetFacts Stream.
From S2P Require Import Keyspace Storage StorageTypes StorageFacts ListFacts SetFacts Command Apply.
From S2P Require Import FileSystem Wal WalFacts Snapshot.
#[local] Open Scope Z_scope.

(** ** The file *)

Lemma write_pieces_at_end ps d w d' w' : at_end d (BufWriter.inner w) ->
  SnapshotManager.write_pieces ps d w = (d', w') ->
  let p := File.path (BufWriter.inner w) in
  File.path (BufWriter.inner w') = p /\ at_end d' (BufWriter.inner w') /\
  contents d' w' = contents d w ++ concat ps /\ (forall q, q <> p -> d' !! q = d !! q).
Proof.
  revert d w. induction ps as [|x ps IH]; intros d w He; cbn [SnapshotManager.write_pieces].
  { intros [= <- <-]. simpl. by rewrite app_nil_r. }
  destruct (BufWriter.write_all x d w) as [d1 w1] eqn:E1.
  apply writer_at_end in E1 as (Hp1 & He1 & Hc1); [|done].
  assert (Hc : contents d1 w1 = contents d w ++ x).
  { unfold contents at 1. rewrite Hp1.
    destruct Hc1 as [[-> ->]|[[-> ->]|[-> ->]]]; rewrite ?lookup_insert_eq; simpl.
    - by rewrite app_assoc.
    - done.
    - by rewrite app_nil_r. }
  assert (Hq1 : forall q, q <> File.path (BufWriter.inner w) -> d1 !! q = d !! q).
  { intros q Hq. destruct Hc1 as [[-> _]|[[-> _]|[-> _]]]; by rewrite ?lookup_insert_ne. }
  intros E2. apply IH in E2 as (Hp2 & He2 & Hc2 & Hq2); [|done].
  rewrite Hp1 in *. split_and!; [done | done | |].
  - by rewrite Hc2, Hc; simpl; rewrite app_assoc.
  - intros q Hq. rewrite Hq2 by done. by apply Hq1.
Qed.

Lemma unwrap_u64_bytes z : 0 <= z <= u64_max -> from_be_bytes (u64_bytes (wrap_u64 z)) = z.
Proof.
  intros Hz. unfold wrap_u64. rewrite Z.mod_small by (widths; lia).
  apply from_u64_bytes, in_u64_spec. lia.
Qed.

Section file.
Context `{Bincode (list SnapshotRecord.t), Crc32}.

Definition snapshot_file (timestamp : Z) (records : list SnapshotRecord.t) (blob : bytes) : bytes :=
  concat [MAGIC_V2; u32_bytes VERSION; u64_bytes timestamp; u64_bytes (wrap_u64 (len records));
          u64_bytes (wrap_u64 (len blob)); u32_bytes (crc32 blob); blob].

Lemma read_app n (l r : bytes) : len l = n -> SnapshotManager.read n (l ++ r) = Done (l, r).
Proof. intros <-. unfold SnapshotManager.read. by rewrite read_exact_app. Qed.

(** What was written is read back. *)
Lemma read_saved timestamp records blob : bin_serialize records = inr blob ->
  len blob <= isize_max ->
  SnapshotManager.read_snapshot (snapshot_file timestamp records blob) = Done (Some records).
Proof.
  intros Hb Hlen. pose proof (len_nonneg blob). unfold SnapshotManager.read_snapshot, snapshot_file.
  cbn [concat]. rewrite app_nil_r.
  rewrite read_app by done. cbn [mbind outcome_bind].
  rewrite decide_False, decide_False by (vm_compute; naive_solver congruence).
  rewrite read_app by done. cbn [mbind outcome_bind].
  rewrite from_u32_bytes by done. rewrite Z.eqb_refl. cbn [negb].
  rewrite read_app by done. cbn [mbind outcome_bind].
  rewrite read_app by done. cbn [mbind outcome_bind].
  rewrite read_app by done. cbn [mbind outcome_bind].
  rewrite read_app by done. cbn [mbind outcome_bind].
  rewrite unwrap_u64_bytes by (widths; lia). rewrite (proj2 (Z.ltb_ge _ _)) by lia.
  pose proof (read_app (len blob) blob [] eq_refl) as Hr. rewrite app_nil_r in Hr.
  rewrite Hr. cbn [mbind outcome_bind].
  rewrite from_u32_bytes by apply crc32_range. rewrite Z.eqb_refl. cbn [negb].
  by rewrite (bin_round_trip _ _ Hb).
Qed.

(** Saving leaves the file in place of the old one, and no temporary file. *)
Lemma save_snapshot_file `{HashOrder, KeyMap M} path now wall later saved_at (m : M) d blob :
  bin_serialize (SnapshotManager.create_snapshot now wall later m) = inr blob ->
  exists d', SnapshotManager.save_snapshot_to_path path now wall later saved_at m d = (d', Done tt) /\
    d' !! path = Some (snapshot_file (Z.max 0 saved_at / 1000)
      (SnapshotManager.create_snapshot now wall later m) blob) /\
    (forall q, q <> path -> q <> path ++ bs ".tmp" -> d' !! q = d !! q).
Proof.
  intros Hb. unfold SnapshotManager.save_snapshot_to_path. rewrite Hb.
  unfold File.open_truncate. set (tmp := path ++ bs ".tmp").
  assert (Hne : tmp <> path).
  { intros E. apply (f_equal length) in E. unfold tmp in E. rewrite length_app in E. simpl in E. lia. }
  destruct (SnapshotManager.write_pieces _ _ _) as [d1 w1] eqn:E1.
  apply write_pieces_at_end in E1 as (Hp1 & He1 & Hc1 & Hq1).
  2:{ eexists. simpl. rewrite lookup_insert_eq. by auto. }
  destruct (BufWriter.flush d1 w1) as [d2 w2] eqn:E2.
  apply flush_at_end in E2 as (-> & _ & _ & _); [|done].
  rewrite Hc1. rewrite Hp1. cbn [BufWriter.new BufWriter.inner File.path].
  unfold contents. cbn [BufWriter.new BufWriter.inner BufWriter.buf File.path].
  rewrite lookup_insert_eq. cbn [default]. unfold rename. rewrite lookup_insert_eq.
  eexists. split; [done|]. split.
  - by rewrite lookup_insert_eq.
  - intros q Hq1' Hq2. rewrite lookup_insert_ne, lookup_delete_ne, lookup_insert_ne by done.
    rewrite Hq1 by done. by rewrite lookup_insert_ne.
Qed.
End file.

(** ** Values *)

(** Values with the same contents, whatever their deadlines: scores may differ
    as [0.0] and [-0.0] do, streams in their last id. *)
Definition same_contents (v v' : CacheValue) : Prop :=
  match v, v' with
  | CString a _, CString b _ => a = b
  | CHash h, CHash h' => HashValue.fields h = HashValue.fields h'
  | CList l, CList l' => ListValue.items l = ListValue.items l'
  | CSet s, CSet s' => SetValue.members s = SetValue.members s'
  | CSortedSet z, CSortedSet z' =>
      zset_wf z' /\ forall m, option_Forall2 (fun a b => ocmp a b = Eq)
        (SortedSetValue.get_score m z') (SortedSetValue.get_score m z)
  | CStream s, CStream s' => StreamValue.entries s = StreamValue.entries s'
  | _, _ => False
  end.

(** What the snapshot needs of a value: orders that are total, and stream ids
    of 64 bits above [0-0], as [XADD] makes them. *)
Definition storable (v : CacheValue) : Prop :=
  match v with
  | CSortedSet z => zset_wf z /\ SortedSetValue.len z <= usize_max
  | CStream s => stream_wf s /\
      Forall (fun e => in_u64 (StreamId.ms e.1) = true /\ in_u64 (StreamId.seq e.1) = true /\
                       StreamId.cmp e.1 StreamId.MIN = Gt) (StreamValue.entries s)
  | _ => True
  end.

(** Values a snapshot keeps: neither expired nor empty. *)
Definition persisted (now later : Z) (v : CacheValue) : bool :=
  match v with
  | CString _ e => negb (match e with Some e => e <=? now | None => false end)
  | CHash h => negb (past later (HashValue.expires_at h)) && negb (bool_decide (HashValue.fields h = ∅))
  | CList l => negb (past later (ListValue.expires_at l)) && negb (bool_decide (ListValue.items l = []))
  | CSet s => negb (past later (SetValue.expires_at s)) && negb (bool_decide (SetValue.members s = ∅))
  | CSortedSet z =>
      negb (past later (SortedSetValue.expires_at z)) && negb (bool_decide (SortedSetValue.member_scores z = ∅))
  | CStream s =>
      negb (past later (StreamValue.expires_at s)) && negb (bool_decide (StreamValue.entries s = []))
  end.

(** [m'] is [m] with the value [v] under [k]. *)
Definition put `{KeyMapLaws M} (k : bytes) (v : CacheValue) (m m' : M) : Prop :=
  inv m' /\ entry k m' = Some v /\ forall j, j <> k -> entry j m' = entry j m.

Lemma fold_insert {V} (l : list (bytes * V)) (f : gmap bytes V) : NoDup l.*1 ->
  fold_left (fun f e => <[e.1 := e.2]> f) l f = list_to_map l ∪ f.
Proof.
  revert f. induction l as [|[k v] l IH]; intros f Hn; simpl.
  { by rewrite map_empty_union. }
  apply NoDup_cons in Hn as [Hk Hn]. rewrite IH by done.
  rewrite <- insert_union_l, insert_union_r; [done|]. by apply not_elem_of_list_to_map_1.
Qed.

Section rebuilding.
Context `{KeyMapLaws M, Layout}.
Implicit Types (m : M) (k : bytes).

Lemma put_trans k v v' m m1 m2 : put k v m m1 -> put k v' m1 m2 -> put k v' m m2.
Proof.
  intros (_ & _ & Ha) (I2 & E2 & Hb). split_and!; [done | done |].
  intros j Hj. rewrite Hb by done. by apply Ha.
Qed.

Lemma dropping_put {A} k (f : option CacheValue -> option CacheValue * res A) m v r : inv m ->
  f (entry k m) = (Some v, r) -> r <> Panic ->
  exists m', dropping (with_entry k f m) = Ok m' /\ put k v m m'.
Proof.
  intros Hm Hf Hr. unfold with_entry. rewrite Hf. exists (set_entry k (Some v) m). split.
  - by destruct r.
  - split_and!; [by apply set_entry_inv | |].
    + rewrite entry_set_entry by done. by rewrite decide_True.
    + intros j Hj. rewrite entry_set_entry by done. by rewrite decide_False.
Qed.

(** *** Hashes *)

Lemma apply_hsets rd k pairs m : inv m -> pairs <> [] ->
  forall f, entry k m = None /\ f = ∅ \/ entry k m = Some (CHash (HashValue.mk f None)) ->
  exists m', SnapshotManager.apply_all rd (map (fun '(x, v) => Command.HSet k x v) pairs) m = Ok m' /\
    put k (CHash (HashValue.mk (fold_left (fun f e => <[e.1 := e.2]> f) pairs f) None)) m m'.
Proof.
  intros Hm Hne. revert m Hm. induction pairs as [|[x v] pairs IH]; [done|]. intros m Hm f Hf.
  cbn [map SnapshotManager.apply_all fold_left].
  unfold apply_at at 1. cbn [meeting command apply_write_command].
  assert (Hs : exists m1, dropping (hset k x v m) = Ok m1 /\
    put k (CHash (HashValue.mk (<[x := v]> f) None)) m m1).
  { unfold hset. destruct Hf as [[Hf ->]|Hf].
    - eapply dropping_put; [done | rewrite Hf; reflexivity | done].
    - eapply dropping_put; [done | rewrite Hf; reflexivity | done]. }
  destruct Hs as (m1 & -> & Hp). cbn [mbind res_bind].
  destruct pairs as [|e pairs]; [by exists m1|].
  destruct (IH ltac:(done) m1 (proj1 Hp) (<[x := v]> f)) as (m2 & Hm2 & Hp2).
  { right. apply Hp. }
  exists m2. split; [exact Hm2|]. by eapply put_trans.
Qed.

(** *** Sorted sets *)

Lemma add_members_scores l z :
  SortedSetValue.member_scores (add_members l z)
  = fold_left (fun f e => <[e.1 := e.2]> f) (map (fun '(s, x) => (x, s)) l) (SortedSetValue.member_scores z) /\
  SortedSetValue.expires_at (add_members l z) = SortedSetValue.expires_at z.
Proof.
  unfold add_members. revert z. induction l as [|[s x] l IH]; intros z; cbn [fold_left map]; [done|].
  destruct (IH (fst (SortedSetValue.add s x z))) as [-> ->]. done.
Qed.

Lemma snapshot_members `{HashOrder} z : zset_wf z -> SortedSetValue.len z <= usize_max ->
  omap (fun '(member, score) => (fun s => (s, member)) <$> score)
    (SortedSetValue.get_range 0 usize_max true z) = map (fun '(x, s) => (s, x)) (SortedSetValue.flat z).
Proof.
  intros Hz Hl. rewrite get_range_all by done.
  induction (SortedSetValue.flat z) as [|[x s] l IH]; simpl; [done|]. f_equal. exact IH.
Qed.

Lemma rebuilt_zset `{HashOrder} z : zset_wf z ->
  let z' := add_members (map (fun '(x, s) => (s, x)) (SortedSetValue.flat z)) SortedSetValue.new in
  same_contents (CSortedSet z) (CSortedSet z') /\ SortedSetValue.expires_at z' = None.
Proof.
  intros Hz z'. set (l := map _ _) in z'.
  destruct (add_members_scores l SortedSetValue.new) as [Hsc He]. split; [|done].
  assert (Hl : map (fun '(s, x) => (x, s)) l = SortedSetValue.flat z).
  { unfold l. rewrite map_map. rewrite <- (map_id (SortedSetValue.flat z)) at 2.
    apply map_ext. by intros []. }
  rewrite Hl, fold_insert in Hsc by by apply NoDup_flat. simpl in Hsc. rewrite map_union_empty in Hsc.
  split.
  - apply add_members_wf; [|apply zset_wf_new]. apply Forall_map, Forall_forall.
    intros [x s] Hin. apply elem_of_flatten in Hin as (ms & Hin & _).
    destruct (bucket_elem z Hz s ms Hin) as [Hn _]. exact Hn.
  - intros x. unfold SortedSetValue.get_score, z'. rewrite Hsc.
    destruct (SortedSetValue.member_scores z !! x) as [s'|] eqn:Ex.
    + destruct (flat_complete z Hz x s' Ex) as (s & Hin & E).
      rewrite (elem_of_list_to_map_1 _ x s); [by constructor | by apply NoDup_flat | done].
    + rewrite not_elem_of_list_to_map_1; [constructor|]. intros Hin.
      apply list_elem_of_fmap in Hin as ([x' s] & -> & Hin).
      apply flat_score in Hin as (s' & Hs' & _); [|done]. simpl in Ex. congruence.
Qed.

(** *** Streams *)

Lemma apply_xadds rd k es m : inv m -> es <> [] ->
  bt_wf StreamId.cmp any_id es ->
  Forall (fun e => in_u64 (StreamId.ms e.1) = true /\ in_u64 (StreamId.seq e.1) = true) es ->
  forall s, entry k m = None /\ s = StreamValue.new \/ entry k m = Some (CStream s) ->
  StreamValue.expires_at s = None -> stream_wf s ->
  Forall (fun e => StreamId.cmp e.1 (StreamValue.last_id s) = Gt) es ->
  exists m' id, SnapshotManager.apply_all rd
      (map (fun '(id, fields) => Command.XAdd k (Some (StreamId.to_string id)) fields) es) m = Ok m' /\
    put k (CStream (StreamValue.mk (StreamValue.entries s ++ es) id None)) m m'.
Proof.
  intros Hm Hne. revert m Hm. induction es as [|[id fs] es IH]; [done|].
  intros m Hm Hwf Hids s Hs He Hsw Hlast.
  apply bt_wf_cons in Hwf as (_ & Habove & Hwf). apply Forall_cons in Hids as [[Hi1 Hi2] Hids].
  apply Forall_cons in Hlast as [Hid Hlast]. simpl in Hi1, Hi2, Hid.
  cbn [map SnapshotManager.apply_all].
  unfold apply_at at 1. cbn [meeting command at_now at_wall apply_write_command replay_id].
  rewrite parse_to_string by done.
  destruct (add_fresh (read_wall rd) (Some id) fs s Hsw Hid) as (id' & _ & Heq & Hadd).
  rewrite (Heq id eq_refl), He in Hadd.
  set (s1 := StreamValue.mk (StreamValue.entries s ++ [(id, fs)]) id None) in Hadd.
  assert (Hx : exists m1, dropping (xadd (read_now rd) (read_wall rd) k (Some id) fs m) = Ok m1 /\ put k (CStream s1) m m1).
  { unfold xadd. destruct Hs as [[Hs ->]|Hs].
    - eapply dropping_put; [done | rewrite Hs, Hadd; reflexivity | done].
    - eapply dropping_put; [done | rewrite Hs; unfold StreamValue.is_expired; rewrite He; simpl; rewrite Hadd; reflexivity | done]. }
  destruct Hx as (m1 & -> & Hp). cbn [mbind res_bind].
  destruct es as [|e es]; [by exists m1, id|].
  assert (Hsw1 : stream_wf s1).
  { pose proof (stream_add_wf (read_wall rd) (Some id) fs s Hsw Hid) as Hw. by rewrite Hadd in Hw. }
  destruct (IH ltac:(done) m1 (proj1 Hp) Hwf Hids s1) as (m2 & id2 & Hm2 & Hp2); try done.
  - right. apply Hp.
  - eapply Forall_impl; [exact Habove|]. intros [k2 v2] [_ Hlt]. simpl in *.
    rewrite (cmp_antisym (P := any_id) id k2) by done. by rewrite Hlt.
  - exists m2, id2. split; [exact Hm2|]. simpl in Hp2. rewrite <- app_assoc in Hp2.
    by eapply put_trans.
Qed.
End rebuilding.

Section records.
Context `{KeyMapLaws M, Layout}.
Implicit Types (m : M) (k : bytes).

Lemma sadd_loop_set l s :
  fst (count_loop SetValue.add l s) = SetValue.mk (list_to_set l ∪ SetValue.members s) (SetValue.expires_at s).
Proof.
  destruct (sadd_loop l s) as (Hm & He & _). rewrite <- Hm, <- He.
  by destruct (fst (count_loop SetValue.add l s)).
Qed.

(** The commands that a record of [v] holds, applied where there is no key. *)
Definition rebuilds k v (cmds : list Command.t) : Prop :=
  forall rd m, inv m -> entry k m = None ->
  exists m' v', SnapshotManager.apply_all rd cmds m = Ok m' /\ put k v' m m' /\
    same_contents v v' /\ expires_at_ref v' = None.

Lemma rebuild_one k v cmd v' :
  (forall rd m, inv m -> entry k m = None ->
     exists m', apply_at (meeting rd cmd) m = Ok m' /\ put k v' m m') ->
  same_contents v v' -> expires_at_ref v' = None -> rebuilds k v [cmd].
Proof.
  intros Hc Hs He rd m Hm Hn. destruct (Hc rd m Hm Hn) as (m' & Ha & Hp).
  exists m', v'. cbn [SnapshotManager.apply_all]. by rewrite Ha.
Qed.

Lemma rebuilds_string k b e : rebuilds k (CString b e) [Command.Set' k b None].
Proof.
  apply (rebuild_one _ _ _ (CString b None)); [|done..]. intros rd m Hm He.
  cbn [apply_at meeting command apply_write_command fmap option_fmap option_map]. unfold set. cbn [dropping].
  eexists. split; [done|]. split_and!; [by apply set_entry_inv | |].
  - rewrite entry_set_entry by done. by rewrite decide_True.
  - intros j Hj. rewrite entry_set_entry by done. by rewrite decide_False.
Qed.

Lemma rebuilds_hash `{HashOrder} k h : HashValue.get_all h <> [] ->
  rebuilds k (CHash h) (map (fun '(field, value) => Command.HSet k field value) (HashValue.get_all h)).
Proof.
  intros Hp rd m Hm He.
  destruct (apply_hsets rd k (HashValue.get_all h) m Hm Hp ∅) as (m' & Ha & Hput); [by left|].
  eexists m', _. split_and!; [exact Ha | exact Hput | simpl | done].
  unfold HashValue.get_all. rewrite fold_insert by apply NoDup_hm_iter_keys.
  by rewrite list_to_map_hm_iter, map_union_empty.
Qed.

Lemma rebuilds_list k l : rebuilds k (CList l) [Command.RPush k (ListValue.items l)].
Proof.
  apply (rebuild_one _ _ _ (CList (ListValue.mk (ListValue.items l) None))); [|done..].
  intros rd m Hm He. cbn [apply_at meeting command apply_write_command]. unfold rpush.
  eapply dropping_put; [done | rewrite He; rewrite fold_push_right; reflexivity | done].
Qed.

Lemma rebuilds_set `{HashOrder} k s : rebuilds k (CSet s) [Command.SAdd k (SetValue.get_all s)].
Proof.
  apply (rebuild_one _ _ _ (CSet (SetValue.mk (SetValue.members s) None))); [|done..].
  intros rd m Hm He. cbn [apply_at meeting command apply_write_command]. unfold sadd.
  pose proof (sadd_loop_set (SetValue.get_all s) SetValue.new) as Hl.
  change (SetValue.members SetValue.new) with (∅ : gset bytes) in Hl.
  rewrite get_all_members, union_empty_r_L in Hl.
  destruct (count_loop SetValue.add (SetValue.get_all s) SetValue.new) as [s' c] eqn:E.
  simpl in Hl. subst s'. eapply dropping_put; [done | rewrite He; reflexivity | done].
Qed.

Lemma rebuilds_zset `{HashOrder} k z : zset_wf z ->
  rebuilds k (CSortedSet z) [Command.ZAdd k (map (fun '(x, s) => (s, x)) (SortedSetValue.flat z))].
Proof.
  intros Hz. destruct (rebuilt_zset z Hz) as [Hsame Hexp].
  eapply rebuild_one; [|exact Hsame|exact Hexp].
  intros rd m Hm He. cbn [apply_at meeting command apply_write_command]. unfold zadd.
  eapply dropping_put; [done | rewrite He; reflexivity | done].
Qed.

Lemma rebuilds_stream k st : storable (CStream st) -> StreamValue.entries st <> [] ->
  rebuilds k (CStream st) (map (fun '(id, fields) =>
    Command.XAdd k (Some (StreamId.to_string id)) fields) (StreamValue.entries st)).
Proof.
  intros [[Hwf Hlast] Hids] Hne rd m Hm He.
  destruct (apply_xadds rd k (StreamValue.entries st) m Hm Hne Hwf) with (s := StreamValue.new)
    as (m' & id & Ha & Hput); [|by left|done|apply stream_wf_new| |].
  - eapply Forall_impl; [exact Hids|]. by intros [] (? & ? & _).
  - eapply Forall_impl; [exact Hids|]. by intros [] (_ & _ & ?).
  - eexists m', _. split_and!; [exact Ha | exact Hput | done | done].
Qed.

Lemma rebuild_skips now rd k v : storable v -> persisted now (read_now rd) v = false ->
  match SnapshotManager.rebuild now rd k v with Some (_ :: _, _) => False | _ => True end.
Proof.
  destruct v as [b e|h|l|s|z|st]; cbn [persisted SnapshotManager.rebuild storable]; set (O := read_order rd); clearbody O.
  - intros _ Hp. by destruct (match e with Some e => e <=? now | None => false end).
  - intros _ Hp. unfold HashValue.is_expired. destruct (past _ _); [done|]. simpl in Hp.
    apply negb_false_iff, bool_decide_eq_true in Hp. unfold HashValue.get_all. rewrite Hp.
    pose proof (length_hm_iter (∅ : gmap bytes bytes)) as Hl. rewrite map_size_empty in Hl.
    by destruct (hm_iter ∅).
  - intros _ Hp. unfold ListValue.is_expired. destruct (past _ _); [done|]. simpl in Hp.
    apply negb_false_iff, bool_decide_eq_true in Hp. by rewrite Hp.
  - intros _ Hp. unfold SetValue.is_expired. destruct (past _ _); [done|]. simpl in Hp.
    apply negb_false_iff, bool_decide_eq_true in Hp. unfold SetValue.get_all. rewrite Hp.
    pose proof (length_hs_iter ∅) as Hl. rewrite size_empty in Hl. by destruct (hs_iter ∅).
  - intros [Hz Hl] Hp. unfold SortedSetValue.is_expired. destruct (past _ _); [done|].
    simpl in Hp. apply negb_false_iff, bool_decide_eq_true in Hp. rewrite snapshot_members by done.
    pose proof (length_flat z Hz) as Hf. unfold SortedSetValue.len in Hf.
    rewrite Hp, map_size_empty in Hf. by destruct (SortedSetValue.flat z).
  - intros _ Hp. unfold StreamValue.is_expired. destruct (past _ _); [done|]. simpl in Hp.
    apply negb_false_iff, bool_decide_eq_true in Hp. by rewrite Hp.
Qed.

(** A value that is kept has commands that rebuild it. *)
Lemma rebuild_keeps now rd k v : storable v -> persisted now (read_now rd) v = true ->
  exists cmds, SnapshotManager.rebuild now rd k v = Some (cmds, expires_at_ref v) /\
    cmds <> [] /\ rebuilds k v cmds.
Proof.
  destruct v as [b e|h|l|s|z|st]; cbn [persisted SnapshotManager.rebuild expires_at_ref];
    set (O := read_order rd); clearbody O; rewrite ?andb_true_iff, ?negb_true_iff, ?bool_decide_eq_false.
  - intros _ ->. eexists. split_and!; [done | done | apply rebuilds_string].
  - intros _ [Hx Hne]. unfold HashValue.is_expired. rewrite Hx.
    assert (Hp : HashValue.get_all h <> []).
    { intros E. apply Hne. rewrite <- (list_to_map_hm_iter (HashValue.fields h)).
      unfold HashValue.get_all in E. by rewrite E. }
    eexists. split_and!; [done | by destruct (HashValue.get_all h) as [|[]] | by apply rebuilds_hash].
  - intros _ [Hx Hne]. unfold ListValue.is_expired. rewrite Hx. pose proof (rebuilds_list k l) as Hr.
    exists [Command.RPush k (ListValue.items l)]. split_and!; [by destruct (ListValue.items l) | done | exact Hr].
  - intros _ [Hx Hne]. unfold SetValue.is_expired. rewrite Hx. pose proof (rebuilds_set k s) as Hr.
    assert (Hp : SetValue.get_all s <> []).
    { intros E. apply Hne. by rewrite <- get_all_members, E. }
    exists [Command.SAdd k (SetValue.get_all s)]. split_and!; [by destruct (SetValue.get_all s) | done | exact Hr].
  - intros [Hz Hl] [Hx Hne]. unfold SortedSetValue.is_expired. rewrite Hx, snapshot_members by done.
    pose proof (rebuilds_zset k z Hz) as Hr. set (members := map _ _) in *.
    assert (Hp : members <> []).
    { intros E. apply Hne, map_size_empty_inv. pose proof (length_flat z Hz) as Hf.
      apply (f_equal length) in E. unfold members in E. rewrite length_map in E.
      unfold SortedSetValue.len, len in Hf. rewrite E in Hf. simpl in Hf. lia. }
    exists [Command.ZAdd k members]. split_and!; [by destruct members | done | exact Hr].
  - intros Hst [Hx Hne]. unfold StreamValue.is_expired. rewrite Hx.
    pose proof (rebuilds_stream k st Hst Hne) as Hr. set (cmds := map _ _) in *.
    assert (Hc : cmds <> []) by (unfold cmds; by destruct (StreamValue.entries st) as [|[]]).
    exists cmds. split_and!; [by destruct cmds | done | exact Hr].
Qed.
End records.

(** ** Loading *)

Lemma same_contents_mut v v' slot : same_contents v v' -> same_contents v (expires_at_mut slot v').
Proof.
  destruct v, v'; try done. cbn [same_contents expires_at_mut]. intros [[? ? ? ?] Hs].
  split; [by split | done].
Qed.

Section loading.
Context `{KeyMapLaws M, Layout}.
Context (now wall : Z) (later : bytes -> Reading) (readings : bytes -> Reading) (wall2 : Z).
Hypothesis Hclock : forall k, read_now (readings k) + from_millis u64_max <= instant_max.
Implicit Types (m : M) (k : bytes).

(** The record of a key has run out when the snapshot is loaded. *)
Definition run_out v : bool :=
  match expires_at_ref v with
  | Some e => to_unix_ms now wall e <=? unix_ms wall2
  | None => false
  end.

Lemma run_out_record v :
  match to_unix_ms now wall <$> expires_at_ref v with
  | Some e => e <=? unix_ms wall2
  | None => false
  end = run_out v.
Proof. unfold run_out. by destruct (expires_at_ref v). Qed.

(** What becomes of the value [v] of [k]. *)
Definition reloaded k v (e : option CacheValue) : Prop :=
  if persisted now (read_now (later k)) v && negb (run_out v) then
    exists v', e = Some v' /\ same_contents v v' /\
      expires_at_ref v' = (fun e => read_now (readings k) + from_millis (to_unix_ms now wall e - unix_ms wall2))
                          <$> expires_at_ref v
  else e = None.

Lemma unix_range z : 0 <= wrap_u64 z <= u64_max.
Proof. unfold wrap_u64. pose proof (Z.mod_pos_bound z (2 ^ 64) ltac:(lia)). widths. lia. Qed.

Lemma load_record_spec k v cmds m : inv m -> entry k m = None -> rebuilds k v cmds ->
  run_out v = false ->
  exists m', SnapshotManager.load_record (readings k) (unix_ms wall2)
      (SnapshotRecord.mk k cmds (to_unix_ms now wall <$> expires_at_ref v)) m = Ok m' /\
    exists v', put k v' m m' /\ same_contents v v' /\
      expires_at_ref v' = (fun e => read_now (readings k) + from_millis (to_unix_ms now wall e - unix_ms wall2))
                          <$> expires_at_ref v.
Proof.
  intros Hm He Hr Ho. destruct (Hr (readings k) m Hm He) as (m1 & v1 & Ha & Hp & Hsame & Hexp).
  unfold SnapshotManager.load_record.
  cbn [SnapshotRecord.commands SnapshotRecord.expire_unix_ms SnapshotRecord.key]. rewrite Ha.
  cbn [mbind res_bind]. unfold run_out in Ho.
  destruct (expires_at_ref v) as [e|]; cbn [fmap option_fmap option_map].
  - unfold instant_add. pose proof (Hclock k) as Hc. unfold from_millis, ns_per_ms in *.
    pose proof (unix_range (Z.max 0 wall2)). pose proof (unix_range (unix_ms wall + wrap_u64 (Z.max 0 (e - now) / ns_per_ms))).
    rewrite (proj2 (Z.leb_le _ _)) by (unfold to_unix_ms, unix_ms in *; lia). cbn [mbind res_bind].
    eexists. split; [done|]. destruct Hp as (I1 & E1 & O1).
    set (at' := read_now (readings k) + _). exists (expires_at_mut (Some at') v1). split_and!.
    + split_and!; [by apply with_entry_inv | |].
      * rewrite set_expiry_entry, decide_True by done. rewrite E1. unfold live.
        by rewrite is_expired_past, Hexp.
      * intros j Hj. rewrite set_expiry_entry, decide_False by done. by apply O1.
    + by apply same_contents_mut.
    + by rewrite expires_at_ref_mut.
  - exists m1. split; [done|]. exists v1. by split_and!.
Qed.

Lemma load_records_spec es count m : inv m -> NoDup es.*1 ->
  Forall (fun e => storable e.2 /\ entry e.1 m = None) es ->
  exists m' n, SnapshotManager.load_records readings (unix_ms wall2)
      (omap (fun '(k, v) => SnapshotManager.record_for now (later k) wall k v) es) count m = Ok (m', n) /\
    inv m' /\ (forall k v, (k, v) ∈ es -> reloaded k v (entry k m')) /\
    (forall k, k ∉ es.*1 -> entry k m' = entry k m).
Proof.
  revert count m. induction es as [|[k v] es IH]; intros count m Hm Hn Hes.
  { exists m, count. split_and!; [done | done | | done]. intros k v Hin. by apply elem_of_nil in Hin. }
  apply NoDup_cons in Hn as [Hk Hn]. apply Forall_cons in Hes as [[Hst He] Hes]. simpl in Hk, Hst, He.
  (* the rest of the records, from a map that holds at most [k] besides *)
  assert (Hrest : forall m1 count1, inv m1 -> (forall j, j <> k -> entry j m1 = entry j m) ->
    reloaded k v (entry k m1) ->
    exists m' n, SnapshotManager.load_records readings (unix_ms wall2)
      (omap (fun '(k, v) => SnapshotManager.record_for now (later k) wall k v) es) count1 m1 = Ok (m', n) /\
    inv m' /\ (forall j w, (j, w) ∈ (k, v) :: es -> reloaded j w (entry j m')) /\
    (forall j, j ∉ ((k, v) :: es).*1 -> entry j m' = entry j m)).
  { intros m1 count1 Hm1 Ho Hrel. destruct (IH count1 m1 Hm1 Hn) as (m' & n & -> & Hi & Hall & Hother).
    { apply Forall_forall. intros [j w] Hin. rewrite Forall_forall in Hes.
      destruct (Hes _ Hin) as [H1' H2']. split; [done|]. simpl in *. rewrite Ho; [done|].
      intros ->. apply Hk. apply list_elem_of_fmap. by exists (k, w). }
    exists m', n. split_and!; [done | done | |].
    - intros j w Hin. apply elem_of_cons in Hin as [[= -> ->]|Hin]; [|by apply Hall].
      by rewrite Hother.
    - simpl. intros j Hj. apply not_elem_of_cons in Hj as [Hjk Hj]. rewrite Hother by done. by apply Ho. }
  cbn [omap list_omap].
  destruct (persisted now (read_now (later k)) v) eqn:Hp.
  - destruct (rebuild_keeps now (later k) k v Hst Hp) as (cmds & Hr & Hne & Hreb).
    unfold SnapshotManager.record_for at 1. rewrite Hr. destruct cmds as [|c cmds]; [done|].
    cbn [SnapshotManager.load_records SnapshotRecord.expire_unix_ms SnapshotRecord.key].
    rewrite run_out_record. destruct (run_out v) eqn:Ho.
    + apply Hrest; [done | done |]. unfold reloaded. by rewrite Hp, Ho.
    + destruct (load_record_spec k v (c :: cmds) m Hm He Hreb Ho) as (m1 & -> & v' & (I1 & E1 & O1) & Hs & Hx).
      cbn [mbind res_bind]. apply Hrest; [done | done |]. unfold reloaded. rewrite Hp, Ho, E1.
      by exists v'.
  - pose proof (rebuild_skips now (later k) k v Hst Hp) as Hr.
    assert (Hnone : SnapshotManager.record_for now (later k) wall k v = None).
    { unfold SnapshotManager.record_for. by destruct (SnapshotManager.rebuild _ _ _ _) as [[[|] ?]|]. }
    rewrite Hnone. apply Hrest; [done | done |]. unfold reloaded. by rewrite Hp.
Qed.
End loading.

(** The deadline after loading is the old one on the wall clock, rounded down
    to a millisecond. *)
Lemma deadline_kept now wall wall2 e : 0 <= wall <= u64_max -> 0 <= wall2 <= u64_max -> now <= e ->
  (e - now) / ns_per_ms <= u64_max - wall ->
  let left := from_millis (to_unix_ms now wall e - unix_ms wall2) in
  left <= (e - now) - from_millis (wall2 - wall) < left + ns_per_ms.
Proof.
  intros Hw Hw2 He Hb. unfold to_unix_ms, unix_ms, wrap_u64, from_millis, ns_per_ms in *.
  rewrite !Z.max_r by lia.
  pose proof (Z.div_mod (e - now) 1000000 ltac:(lia)) as Hd.
  pose proof (Z.mod_pos_bound (e - now) 1000000 ltac:(lia)) as Hm.
  pose proof (Z.div_pos (e - now) 1000000 ltac:(lia) ltac:(lia)) as Hp.
  widths. rewrite (Z.mod_small ((e - now) / 1000000)), (Z.mod_small wall) by lia.
  rewrite (Z.mod_small wall2), Z.mod_small by lia. lia.
Qed.

Section entries.
Context `{KeyMapLaws M, HashOrder}.

Lemma elem_of_get_all_entries (m : M) k v : inv m -> (k, v) ∈ get_all_entries m <-> entry k m = Some v.
Proof.
  intros Hm. unfold get_all_entries. rewrite hm_iter_shards, elem_of_map_to_list by done.
  by rewrite entry_abs.
Qed.

Lemma NoDup_get_all_entries (m : M) : inv m -> NoDup (get_all_entries m).*1.
Proof.
  intros Hm. unfold get_all_entries. rewrite hm_iter_shards by done. apply NoDup_fst_map_to_list.
Qed.
End entries.

(** ** A serializer of records to evaluate examples with

    It knows the snapshots of at most one key, with one command that
    [example_serialize] knows. *)

Definition example_serialize_records (rs : list SnapshotRecord.t) : bytes + bytes :=
  match rs with
  | [] => inr []
  | [SnapshotRecord.mk key [cmd] expire] =>
      if in_u32 (len key) then
        match example_serialize cmd, expire with
        | inr l, None => inr (x00 :: u32_bytes (len key) ++ key ++ l)
        | inr l, Some e =>
            if in_u64 e then inr (x01 :: u64_bytes e ++ u32_bytes (len key) ++ key ++ l)
            else inl (bs "too large")
        | inl msg, _ => inl msg
        end
      else inl (bs "too long")
  | _ => inl (bs "unsupported")
  end.

Definition example_key_command (l : bytes) : bytes + (bytes * Command.t) :=
  let n := Z.to_nat (from_be_bytes (take 4 l)) in
  match example_deserialize (drop n (drop 4 l)) with
  | inr cmd => inr (take n (drop 4 l), cmd)
  | inl msg => inl msg
  end.

Definition example_deserialize_records (l : bytes) : bytes + list SnapshotRecord.t :=
  match l with
  | [] => inr []
  | x00 :: l =>
      match example_key_command l with
      | inr (key, cmd) => inr [SnapshotRecord.mk key [cmd] None]
      | inl msg => inl msg
      end
  | x01 :: l =>
      match example_key_command (drop 8 l) with
      | inr (key, cmd) => inr [SnapshotRecord.mk key [cmd] (Some (from_be_bytes (take 8 l)))]
      | inl msg => inl msg
      end
  | _ => inl (bs "unsupported")
  end.

Lemma example_key_command_round_trip key cmd l : in_u32 (len key) = true ->
  example_serialize cmd = inr l ->
  example_key_command (u32_bytes (len key) ++ key ++ l) = inr (key, cmd).
Proof.
  intros Hk Hc. unfold example_key_command. change (take 4 _) with (u32_bytes (len key)).
  change (drop 4 _) with (key ++ l). rewrite from_u32_bytes by done. unfold len. rewrite Nat2Z.id.
  rewrite drop_app_length, take_app_length. pose proof (bin_round_trip cmd l Hc) as Hr.
  cbn [bin_deserialize example_bincode] in Hr. by rewrite Hr.
Qed.

#[export] Instance example_records_bincode : Bincode (list SnapshotRecord.t).
Proof.
  refine {| bin_serialize := example_serialize_records; bin_deserialize := example_deserialize_records |}.
  intros [|[key [|cmd [|c2 cs]] expire] [|r2 rs]] out; unfold example_serialize_records; try done.
  { by intros [= <-]. }
  destruct (in_u32 (len key)) eqn:Hk; [|done].
  destruct (example_serialize cmd) as [|c] eqn:Hc; [done|]. destruct expire as [e|].
  - destruct (in_u64 e) eqn:He; [|done]. intros [= <-]. unfold example_deserialize_records.
    change (drop 8 _) with (u32_bytes (len key) ++ key ++ c).
    rewrite (example_key_command_round_trip key cmd) by done.
    change (take 8 _) with (u64_bytes e). by rewrite from_u64_bytes.
  - intros [= <-]. unfold example_deserialize_records.
    change (?b :: _) with (u32_bytes (len key) ++ key ++ c) at 1.
    by rewrite (example_key_command_round_trip key cmd).
Defined.
