(* ===== verification/Gossip.v ===== *)
(** * Gossip: cluster membership ([cluster/gossip.rs], serialization of
    [cluster/node.rs])

    [GossipProtocol] keeps the nodes it knows and the hash ring.  A handler is a
    function from the state to the new state and the messages it sends.  The
    socket is not modelled: a datagram arrives as its bytes, and what is sent
    are pairs of an address and a message.  [serde_json] is the class [Json];
    what travels is a node without its [last_seen], which the receiver sets to
    its own clock. *)

From S2P Require Import Prelude Text External BTree Values Ring.
#[local] Open Scope Z_scope.

Definition SUSPICIOUS_TIMEOUT : Z := 5 * ns_per_sec.
Definition FAILED_TIMEOUT : Z := 10 * ns_per_sec.
Definition GOSSIP_FANOUT : nat := 3.

(** ** Nodes on the wire *)

Module NodeData.
Record t := mk {
  id : NodeId;
  addr : bytes;
  cluster_addr : bytes;
  status : NodeStatus;
  last_seen_timestamp : Z;
  version : Z;
}.

(** [impl Serialize for Node]. *)
Definition serialize (n : Node.t) : t :=
  mk (Node.id n) (Node.addr n) (Node.cluster_addr n) (Node.status n)
     (Node.last_seen_timestamp n) (Node.version n).

(** [impl Deserialize for Node]. *)
Definition deserialize (now : Z) (d : t) : Node.t :=
  Node.mk (id d) (addr d) (cluster_addr d) (status d) now (last_seen_timestamp d) (version d).
End NodeData.

(** ** Messages *)

(** [GossipMessage], at the type of its nodes. *)
Inductive message (N : Type) :=
| Ping (from : NodeId) (version : Z)
| Pong (from : NodeId) (version : Z)
| NodeState (node : N)
| NodeList (nodes : list N).
Arguments Ping {N} from version.
Arguments Pong {N} from version.
Arguments NodeState {N} node.
Arguments NodeList {N} nodes.

Abbreviation GossipMessage := (message Node.t).

Definition map_nodes {N N' : Type} (f : N -> N') (m : message N) : message N' :=
  match m with
  | Ping from version => Ping from version
  | Pong from version => Pong from version
  | NodeState node => NodeState (f node)
  | NodeList nodes => NodeList (map f nodes)
  end.

(** [serde_json::to_vec] and [serde_json::from_slice]. *)
Class Json := {
  to_vec : message NodeData.t -> option bytes;
  from_slice : bytes -> option (message NodeData.t);
  json_round_trip : forall m l, to_vec m = Some l -> from_slice l = Some m;
}.

Definition encode `{Json} (m : GossipMessage) : option bytes := to_vec (map_nodes NodeData.serialize m).
Definition decode `{Json} (now : Z) (data : bytes) : option GossipMessage :=
  map_nodes (NodeData.deserialize now) <$> from_slice data.

(** ** The protocol *)

Module GossipProtocol.
Record t := mk {
  local_node : Node.t;
  ring : ConsistentHashRing;
  known_nodes : gmap NodeId Node.t;
}.

Definition new (local_node : Node.t) (ring : ConsistentHashRing) : t := mk local_node ring ∅.

Definition set_known (k : gmap NodeId Node.t) (g : t) : t := mk (local_node g) (ring g) k.

(** [if let Some(mut node) = known.get_mut(&from) { node.update_last_seen(); node.version = version }]. *)
Definition heard_from (now wall : Z) (from : NodeId) (version : Z) (g : t) : t :=
  set_known (alter (fun n =>
    let n := Node.update_last_seen now wall n in
    Node.mk (Node.id n) (Node.addr n) (Node.cluster_addr n) (Node.status n)
            (Node.last_seen n) (Node.last_seen_timestamp n) version) from (known_nodes g)) g.

Section protocol.
Context `{Xxh3, HashOrder, Rng, Json}.

Definition ping (g : t) : GossipMessage := Ping (Node.id (local_node g)) (Node.version (local_node g)).
Definition pong (g : t) : GossipMessage := Pong (Node.id (local_node g)) (Node.version (local_node g)).

(** Update or add a node, when it is unknown or its version is newer. *)
Definition merge_node (n : Node.t) (g : t) : t :=
  if match known_nodes g !! Node.id n with
     | None => true
     | Some existing => Node.version existing <? Node.version n
     end
  then mk (local_node g) (add_node n (ring g)) (<[Node.id n := n]> (known_nodes g))
  else g.

Definition handle_message (now wall : Z) (msg : GossipMessage) (from_addr : bytes) (g : t)
    : t * list (bytes * GossipMessage) :=
  match msg with
  | Ping from version => let g := heard_from now wall from version g in (g, [(from_addr, pong g)])
  | Pong from version => (heard_from now wall from version g, [])
  | NodeState node => (merge_node node g, [])
  | NodeList nodes => (fold_left (fun g n => merge_node n g) nodes g, [])
  end.

(** [receive_loop], for one datagram; what does not parse is dropped. *)
Definition receive (now wall : Z) (data from_addr : bytes) (g : t) : t * list (bytes * GossipMessage) :=
  match decode now data with
  | Some msg => handle_message now wall msg from_addr g
  | None => (g, [])
  end.

(** [gossip_round]: a ping to at most three nodes, picked at random among those
    that are alive. *)
Definition gossip_round (g : t) : list (bytes * GossipMessage) :=
  let alive := List.filter Node.is_alive (hm_iter (known_nodes g)).*2 in
  let target_nodes := take GOSSIP_FANOUT (omap (fun i => alive !! i) (shuffled (length alive))) in
  map (fun n => (Node.cluster_addr n, ping g)) target_nodes.

(** One node in a pass of the health check, and whether it just failed. *)
Definition check_node (now : Z) (n : Node.t) : Node.t * bool :=
  let elapsed := Node.time_since_last_seen now n in
  if (FAILED_TIMEOUT <? elapsed) && negb (bool_decide (Node.status n = Failed))
  then (Node.mark_failed n, true)
  else if (SUSPICIOUS_TIMEOUT <? elapsed) && bool_decide (Node.status n = Active)
  then (Node.mark_suspicious n, false)
  else (n, false).

(** The body of [health_check_loop]. *)
Definition health_check (now : Z) (g : t) : t :=
  let failed_nodes := map fst (List.filter (fun e => snd (check_node now e.2)) (hm_iter (known_nodes g))) in
  mk (local_node g)
     (fold_left (fun r id => remove_node id r) failed_nodes (ring g))
     ((fun n => fst (check_node now n)) <$> known_nodes g).

(** [join_cluster]: what is sent to the seed. *)
Definition join_cluster (seed_addr : bytes) (g : t) : list (bytes * GossipMessage) :=
  [(seed_addr, NodeState (local_node g)); (seed_addr, ping g)].

Definition get_cluster_nodes (g : t) : list Node.t := (hm_iter (known_nodes g)).*2 ++ [local_node g].
End protocol.
End GossipProtocol.

(** ** Executions

    The tasks that [start] spawns, as events: datagrams that arrive and passes
    of the health check, each in its own order of the table of nodes.
    [gossip_round] only reads the state. *)

Import GossipProtocol.

Inductive event :=
| Received (now wall : Z) (msg : GossipMessage) (from_addr : bytes)
| HealthCheck (now : Z) (order : HashOrder).

Section runs.
Context `{Xxh3}.

Definition gossip_step (e : event) (g : t) : t :=
  match e with
  | Received now wall msg from_addr => fst (handle_message now wall msg from_addr g)
  | HealthCheck now order => health_check now g
  end.

Definition run_events (es : list event) (g : t) : t := fold_left (fun g e => gossip_step e g) es g.

(** *** One step, seen by one node *)

(** The nodes a message carries. *)
Definition carried (msg : GossipMessage) : list Node.t :=
  match msg with NodeState n => [n] | NodeList ns => ns | _ => [] end.

(** The message is no sign of life of [id]. *)
Definition silent_about (id : NodeId) (msg : GossipMessage) : Prop :=
  match msg with
  | Ping from _ | Pong from _ => from <> id
  | _ => Forall (fun n => Node.id n <> id) (carried msg)
  end.

(** The node has no place on the ring. *)
Definition off_ring (id : NodeId) (r : ConsistentHashRing) : Prop :=
  Ring.nodes r !! id = None /\ Forall (fun e => e.2 <> id) (Ring.ring r).

Lemma off_ring_owner id r key : off_ring id r -> get_node key r <> Some id.
Proof.
  intros [_ Hr] Ho. rewrite get_node_owner in Ho. apply owner_elem in Ho as [k Hk].
  rewrite Forall_forall in Hr. by apply Hr in Hk.
Qed.

Lemma off_ring_add id n r : Node.id n <> id -> off_ring id r -> off_ring id (add_node n r).
Proof.
  intros Hn [H1 H2]. split; simpl.
  - by rewrite lookup_insert_ne.
  - apply Forall_forall. intros e He. apply elem_of_insert_virtual in He as [->|He]; [done|].
    rewrite Forall_forall in H2. by apply H2.
Qed.

Lemma off_ring_remove id id' r : off_ring id r -> off_ring id (remove_node id' r).
Proof.
  intros [H1 H2]. split; simpl.
  - by rewrite lookup_delete_None; right.
  - by apply Forall_filter.
Qed.

Lemma off_ring_removed id r : off_ring id (remove_node id r).
Proof.
  split; simpl; [by rewrite lookup_delete_eq|].
  apply Forall_forall. by intros e [? _]%list_elem_of_filter.
Qed.

Lemma off_ring_removes id ids r : off_ring id r \/ id ∈ ids ->
  off_ring id (fold_left (fun r i => remove_node i r) ids r).
Proof.
  revert r. induction ids as [|i ids IH]; intros r Hr; simpl.
  - destruct Hr as [|Hr]; [done|]. by apply elem_of_nil in Hr.
  - apply IH. destruct Hr as [Hr|Hr]; [left; by apply off_ring_remove|].
    apply elem_of_cons in Hr as [->|Hr]; [left; apply off_ring_removed | by right].
Qed.

Lemma removes_nodes ids r id : id ∉ ids ->
  Ring.nodes (fold_left (fun r i => remove_node i r) ids r) !! id = Ring.nodes r !! id.
Proof.
  revert r. induction ids as [|i ids IH]; intros r Hn; simpl; [done|].
  apply not_elem_of_cons in Hn as [Hi Hn]. rewrite IH by done. simpl. by rewrite lookup_delete_ne.
Qed.

Lemma heard_from_known now wall from version g id : from <> id ->
  known_nodes (heard_from now wall from version g) !! id = known_nodes g !! id.
Proof. intros Hf. simpl. by rewrite lookup_alter_ne. Qed.

Lemma merge_node_other n g id : Node.id n <> id ->
  known_nodes (merge_node n g) !! id = known_nodes g !! id /\
  (off_ring id (ring g) -> off_ring id (ring (merge_node n g))).
Proof.
  intros Hn. unfold merge_node. case_match; [|done]. simpl.
  split; [by rewrite lookup_insert_ne | by apply off_ring_add].
Qed.

Lemma merge_all_other ns g id : Forall (fun n => Node.id n <> id) ns ->
  known_nodes (fold_left (fun g n => merge_node n g) ns g) !! id = known_nodes g !! id /\
  (off_ring id (ring g) -> off_ring id (ring (fold_left (fun g n => merge_node n g) ns g))).
Proof.
  intros Hns. revert g. induction Hns as [|n ns Hn _ IH]; intros g; simpl; [done|].
  destruct (merge_node_other n g id Hn) as [Hk Ho], (IH (merge_node n g)) as [Hk' Ho'].
  split; [congruence | auto].
Qed.

(** A message that is silent about a node leaves what is known of it. *)
Lemma silent_message now wall msg addr g id : silent_about id msg ->
  known_nodes (fst (handle_message now wall msg addr g)) !! id = known_nodes g !! id /\
  (off_ring id (ring g) -> off_ring id (ring (fst (handle_message now wall msg addr g)))).
Proof.
  destruct msg as [from v|from v|n|ns]; simpl; intros Hs.
  - split; [by apply heard_from_known | done].
  - split; [by apply heard_from_known | done].
  - apply Forall_cons in Hs as [Hn _]. by apply merge_node_other.
  - by apply merge_all_other.
Qed.

(** A pass of the health check, for one node. *)
Lemma health_check_node `{HashOrder} now g id :
  known_nodes (health_check now g) !! id = (fun n => fst (check_node now n)) <$> known_nodes g !! id /\
  (off_ring id (ring g) -> off_ring id (ring (health_check now g))) /\
  (forall n, known_nodes g !! id = Some n -> snd (check_node now n) = true ->
     off_ring id (ring (health_check now g))).
Proof.
  unfold health_check. cbn [known_nodes ring]. split_and!.
  - by rewrite lookup_fmap.
  - intros Ho. apply off_ring_removes. by left.
  - intros n Hn Hf. apply off_ring_removes. right. apply list_elem_of_fmap. exists (id, n).
    split; [done|]. apply list_elem_of_In, List.filter_In. split; [|done].
    apply list_elem_of_In. by apply elem_of_hm_iter.
Qed.

Lemma health_check_keeps `{HashOrder} now g id : (forall n, known_nodes g !! id = Some n -> snd (check_node now n) = false) ->
  Ring.nodes (ring (health_check now g)) !! id = Ring.nodes (ring g) !! id.
Proof.
  intros Hn. unfold health_check. cbn [ring]. apply removes_nodes. intros Hin.
  apply list_elem_of_fmap in Hin as ([i n] & -> & Hin). simpl in *.
  apply list_elem_of_In, List.filter_In in Hin as [Hin Hf].
  apply list_elem_of_In, elem_of_hm_iter, Hn in Hin. simpl in Hf. congruence.
Qed.
End runs.
