(* ===== verification/Replication.v ===== *)
(** * Replication: master and replicas ([replication/*.rs])

    A replica connects, is told the master's offset and is registered with a
    channel; each write of the master is put into the channel of every
    registered replica, and a task per replica moves it from the channel to the
    socket.  A connection is the commands in its channel and the bytes written
    to its socket.  The greeting and the registration are separate steps of the
    master, since the code takes their locks one after the other.

    A channel holds 1000 commands; [send] waits while it is full, with the locks
    held: [replicate_write] is then not enabled. *)

From S2P Require Import Prelude Text External Float64 Values SortedSet Stream Keyspace Storage.
From S2P Require Import StorageTypes Command Apply FileSystem.
#[local] Open Scope Z_scope.

(** ** Protocol ([protocol.rs]) *)

Module ReplicationCommand.
Inductive t :=
| Connect (replica_id : bytes)
| Sync (offset : Z)
| Write (command : Command.t)
| Ping.

(** [bincode::serialize(self).unwrap_or_default()]. *)
Definition serialize `{Bincode t} (c : t) : bytes :=
  match bin_serialize c with inr l => l | inl _ => [] end.

Definition deserialize `{Bincode t} (data : bytes) : bytes + t := bin_deserialize data.
End ReplicationCommand.

Module ReplicationResponse.
Inductive t :=
| Connected (master_id : bytes) (offset : Z)
| SyncComplete (offset : Z)
| Ack (offset : Z)
| Pong
| Error (message : bytes).

Definition serialize `{Bincode t} (r : t) : bytes :=
  match bin_serialize r with inr l => l | inl _ => [] end.

Definition deserialize `{Bincode t} (data : bytes) : bytes + t := bin_deserialize data.
End ReplicationResponse.

(** [write_u32(data.len() as u32)], [write_all(data)]. *)
Definition send_frame (data : bytes) : bytes := u32_bytes (as_u32 (len data)) ++ data.

(** [read_u32] and [read_exact] of as many bytes; and the rest. *)
Definition read_frame (r : bytes) : outcome ErrorKind (bytes * bytes) :=
  '(len_buf, r) ← read_exact 4 r;
  read_exact (from_be_bytes len_buf) r.

(** ** The roles of a server ([mod.rs]) *)

Inductive ReplicationRole :=
| Master
| Replica (master_addr : bytes)
| Standalone.

Module ReplicationInfo.
Record t := mk { role : ReplicationRole; connected_replicas : Z; replication_offset : Z }.

Definition new (role : ReplicationRole) : t := mk role 0 0.
End ReplicationInfo.

(** ** The master ([master.rs]) *)

Definition CHANNEL_CAPACITY : Z := 1000.

Module ReplicaConnection.
Record t := mk {
  id : bytes;
  (** the commands in the channel *)
  tx : list ReplicationCommand.t;
  (** the bytes the forwarding task has written *)
  stream : bytes;
}.
End ReplicaConnection.

Module MasterReplicator.
Record t := mk {
  replicas : gmap bytes ReplicaConnection.t;
  replication_offset : Z;
  master_id : bytes;
}.

Definition new (master_id : bytes) : t := mk ∅ 0 master_id.

Section master.
Context `{Bincode ReplicationCommand.t, Bincode ReplicationResponse.t}.

(** [handle_replica_connection], up to the response: what the replica sent
    decides its id; the response is what is written to it. *)
Definition greet (input : bytes) (m : t) : outcome bytes (bytes * bytes) :=
  match read_frame input with
  | Done (cmd_buf, _) =>
      match ReplicationCommand.deserialize cmd_buf with
      | inr (ReplicationCommand.Connect replica_id) =>
          Done (replica_id, send_frame (ReplicationResponse.serialize
            (ReplicationResponse.Connected (master_id m) (replication_offset m))))
      | inr _ => Failed (bs "Expected Connect command")
      | inl msg => Failed msg
      end
  | Failed _ => Failed (bs "unexpected end of file")
  | Crashed => Crashed
  end.

(** [handle_replica_connection], from the channel on; [written] is what was
    written to the socket before. *)
Definition register (replica_id written : bytes) (m : t) : t :=
  mk (<[replica_id := ReplicaConnection.mk replica_id [] written]> (replicas m))
     (replication_offset m) (master_id m).

(** One round of the forwarding task of a replica. *)
Definition forward (replica_id : bytes) (m : t) : t :=
  mk (alter (fun c => match ReplicaConnection.tx c with
                      | [] => c
                      | cmd :: tx =>
                          ReplicaConnection.mk (ReplicaConnection.id c) tx
                            (ReplicaConnection.stream c ++ send_frame (ReplicationCommand.serialize cmd))
                      end) replica_id (replicas m))
     (replication_offset m) (master_id m).

Definition push (cmd : ReplicationCommand.t) (c : ReplicaConnection.t) : ReplicaConnection.t :=
  ReplicaConnection.mk (ReplicaConnection.id c) (ReplicaConnection.tx c ++ [cmd]) (ReplicaConnection.stream c).

(** [None] while some channel is full. *)
Definition replicate_write (command : Command.t) (m : t) : option t :=
  if forallb (fun e => len (ReplicaConnection.tx e.2) <? CHANNEL_CAPACITY) (map_to_list (replicas m))
  then Some (mk (push (ReplicationCommand.Write command) <$> replicas m)
                (wrap_u64 (replication_offset m + 1)) (master_id m))
  else None.

Definition replica_count (m : t) : Z := Z.of_nat (size (replicas m)).
Definition get_offset (m : t) : Z := replication_offset m.
End master.
End MasterReplicator.

(** ** The replica ([replica.rs]) *)

Inductive ReplicaError := ReplicaIo (e : ErrorKind) | ReplicaError' (msg : bytes).

Module ReplicaClient.
Record t (M : Type) := mk {
  replica_id : bytes;
  master_addr : bytes;
  storage : M;
  replication_offset : Z;
}.
Arguments mk {M}.
Arguments replica_id {M}.
Arguments master_addr {M}.
Arguments storage {M}.
Arguments replication_offset {M}.

Definition new {M} (replica_id master_addr : bytes) (storage : M) : t M :=
  mk replica_id master_addr storage 0.

Section replica.
Context `{KeyMap M, Layout}.
Context `{Bincode ReplicationCommand.t, Bincode ReplicationResponse.t}.

(** What the replica sends first. *)
Definition connect_frame (r : t M) : bytes :=
  send_frame (ReplicationCommand.serialize (ReplicationCommand.Connect (replica_id r))).

Definition apply_command (rd : Reading) (cmd : ReplicationCommand.t) (r : t M) : res (t M) :=
  match cmd with
  | ReplicationCommand.Write command =>
      m ← apply_at (meeting rd command) (storage r);
      Ok (mk (replica_id r) (master_addr r) m (wrap_u64 (replication_offset r + 1)))
  | _ => Ok r
  end.

(** The loop of [connect_and_sync], over what the master has written; it ends
    in an error.  [readings n] is what the [n]-th
    command meets. *)
Fixpoint sync_loop (readings : nat -> Reading) (fuel n : nat) (input : bytes) (r : t M)
    : t M * outcome ReplicaError unit :=
  match fuel with
  | O => (r, Done tt)
  | S fuel =>
      match read_frame input with
      | Done (cmd_buf, input) =>
          match ReplicationCommand.deserialize cmd_buf with
          | inr cmd =>
              match apply_command (readings n) cmd r with
              | Ok r => sync_loop readings fuel (S n) input r
              | Err e => (r, Failed (ReplicaError' e))
              | Panic => (r, Crashed)
              end
          | inl msg => (r, Failed (ReplicaError' msg))
          end
      | Failed e => (r, Failed (ReplicaIo e))
      | Crashed => (r, Crashed)
      end
  end.

(** [connect_and_sync], after the connect command was sent. *)
Definition connect_and_sync (readings : nat -> Reading) (input : bytes) (r : t M)
    : t M * outcome ReplicaError unit :=
  match read_frame input with
  | Done (response_buf, input) =>
      match ReplicationResponse.deserialize response_buf with
      | inr (ReplicationResponse.Connected master_id offset) =>
          sync_loop readings (S (length input)) 0 input
            (mk (replica_id r) (master_addr r) (storage r) offset)
      | inr (ReplicationResponse.Error message) =>
          (r, Failed (ReplicaError' (bs "Master error: " ++ message)))
      | inr _ => (r, Failed (ReplicaError' (bs "Unexpected response from master")))
      | inl msg => (r, Failed (ReplicaError' msg))
      end
  | Failed e => (r, Failed (ReplicaIo e))
  | Crashed => (r, Crashed)
  end.

(** [start_replication]: [attempts] are what the master sends after each
    connect, [None] when the connection is refused; an error is retried.  The
    result is [true] when the loop ended. *)
Fixpoint start_replication (readings : nat -> nat -> Reading) (attempts : list (option bytes)) (r : t M)
    : t M * outcome ReplicaError bool :=
  match attempts with
  | [] => (r, Done false)
  | None :: attempts => start_replication readings attempts r
  | Some input :: attempts =>
      match connect_and_sync (readings (length attempts)) input r with
      | (r, Done _) => (r, Done true)
      | (r, Failed _) => start_replication readings attempts r
      | (r, Crashed) => (r, Crashed)
      end
  end.

Definition get_offset (r : t M) : Z := replication_offset r.
End replica.
End ReplicaClient.

(** ** Executions of the master *)

(** The steps after a replica was registered: others may register, and
    [id] is not registered again. *)
Inductive master_steps `{Bincode ReplicationCommand.t} (id : bytes) :
    MasterReplicator.t -> list Command.t -> MasterReplicator.t -> Prop :=
| steps_none m : master_steps id m [] m
| steps_write m cs m1 c m2 : master_steps id m cs m1 ->
    MasterReplicator.replicate_write c m1 = Some m2 -> master_steps id m (cs ++ [c]) m2
| steps_forward m cs m1 j : master_steps id m cs m1 ->
    master_steps id m cs (MasterReplicator.forward j m1)
| steps_register m cs m1 j written : master_steps id m cs m1 -> j <> id ->
    master_steps id m cs (MasterReplicator.register j written m1).
