(* ===== verification/Config.v ===== *)
(** * Config: the configuration file ([config.rs])

    The records of [config.rs] with their default values, the loading and
    saving of a file, and the conversions to the access rules, the
    [AuthManager] and the [PersistenceConfig] of the server.

    How a text is read into the records and printed from them is the work of the
    crates [serde] and [serde_json], the class [SerdeJson].
    [to_persistence_config] also creates the data directory, which the file
    system of this development, a map from paths to contents, does not need. *)

From S2P Require Import Prelude Text Values Storage Security FileSystem Wal.
#[local] Open Scope Z_scope.

(** ** JSON texts *)

(** [serde_json::to_string_pretty] and [serde_json::from_str] at a type with
    derived [Serialize] and [Deserialize].  [typed] tells the records that are
    values of the Rust type: numbers within their width and strings of UTF-8. *)
Class SerdeJson (T : Type) (typed : T -> bool) := {
  to_string_pretty : T -> bytes;
  from_str : bytes -> option T;
  to_string_pretty_utf8 : forall c, utf8_valid (to_string_pretty c) = true;
  serde_json_round_trip : forall c, typed c = true -> from_str (to_string_pretty c) = Some c;
}.

Definition u16_max : Z := 65535.
Definition unsigned (max n : Z) : bool := (0 <=? n) && (n <=? max).
Definition opt_all {A} (f : A -> bool) (o : option A) : bool :=
  match o with Some a => f a | None => true end.

(** ** Default values *)

Definition default_host : bytes := bs "127.0.0.1".
Definition default_port : Z := 7777.
Definition default_max_connections : Z := 10000.
Definition default_enabled : bool := false.
Definition default_mode : bytes := bs "both".
Definition default_wal_sync_policy : bytes := bs "everysecond".
Definition default_snapshot_interval_secs : Z := 300.
Definition default_max_wal_size_mb : Z := 100.
Definition default_data_dir : bytes := bs "./data".
Definition default_cleanup_interval_secs : Z := 60.
Definition default_max_memory_mb : option Z := None.
Definition default_worker_threads : option Z := None.
Definition default_wal_backup_count : Z := 1.
Definition default_replication_role : bytes := bs "standalone".
Definition default_acl_permission : bytes := bs "custom".
Definition default_key_patterns : list bytes := [bs "*"].

(** ** Sections of the file *)

Module ServerConfig.
Record t := mk { host : bytes; port : Z; tls_port : option Z; max_connections : Z }.

Definition default_server : t := mk default_host default_port None default_max_connections.

Definition typed (c : t) : bool :=
  utf8_valid (host c) && unsigned u16_max (port c) && opt_all (unsigned u16_max) (tls_port c)
  && unsigned usize_max (max_connections c).
End ServerConfig.

Module PersistenceConfigJson.
Record t := mk {
  enabled : bool;
  mode : bytes;
  wal_sync_policy : bytes;
  snapshot_interval_secs : Z;
  max_wal_size_mb : Z;
  data_dir : bytes;
  wal_backup_count : Z;
}.

Definition default : t := {|
  enabled := default_enabled;
  mode := default_mode;
  wal_sync_policy := default_wal_sync_policy;
  snapshot_interval_secs := default_snapshot_interval_secs;
  max_wal_size_mb := default_max_wal_size_mb;
  data_dir := default_data_dir;
  wal_backup_count := default_wal_backup_count;
|}.

Definition typed (c : t) : bool :=
  utf8_valid (mode c) && utf8_valid (wal_sync_policy c) && unsigned u64_max (snapshot_interval_secs c)
  && unsigned u64_max (max_wal_size_mb c) && utf8_valid (data_dir c) && unsigned u32_max (wal_backup_count c).
End PersistenceConfigJson.

Module PerformanceConfig.
Record t := mk { cleanup_interval_secs : Z; max_memory_mb : option Z; worker_threads : option Z }.

Definition default : t := mk default_cleanup_interval_secs default_max_memory_mb default_worker_threads.

Definition typed (c : t) : bool :=
  unsigned u64_max (cleanup_interval_secs c) && opt_all (unsigned u64_max) (max_memory_mb c)
  && opt_all (unsigned usize_max) (worker_threads c).
End PerformanceConfig.

Module TlsConfig.
Record t := mk {
  enabled : bool;
  cert_file : option bytes;
  key_file : option bytes;
  ca_file : option bytes;
  require_client_cert : bool;
  cluster_tls : bool;
}.

Definition default : t := mk false None None None false false.

Definition typed (c : t) : bool :=
  opt_all utf8_valid (cert_file c) && opt_all utf8_valid (key_file c) && opt_all utf8_valid (ca_file c).
End TlsConfig.

Module ReplicationConfig.
Record t := mk { role : bytes; replication_port : option Z; master_addr : option bytes }.

Definition default : t := mk default_replication_role None None.

Definition typed (c : t) : bool :=
  utf8_valid (role c) && opt_all (unsigned u16_max) (replication_port c) && opt_all utf8_valid (master_addr c).
End ReplicationConfig.

Module AclRuleConfig.
Record t := mk { permission : bytes; commands : list bytes; key_patterns : list bytes }.

Definition to_acl_rule (c : t) : ACLRule.t :=
  let p := to_ascii_lowercase (permission c) in
  let permissions :=
    if decide (p = bs "allowall" \/ p = bs "all") then [AllCommands]
    else if decide (p = bs "readonly" \/ p = bs "read") then [ReadCommands]
    else if decide (p = bs "writeonly" \/ p = bs "write") then [WriteCommands]
    else if decide (p = bs "deny" \/ p = bs "none") then [Deny]
    else map SpecificCommand (commands c) in
  ACLRule.mk permissions (key_patterns c).

Definition typed (c : t) : bool :=
  utf8_valid (permission c) && forallb utf8_valid (commands c) && forallb utf8_valid (key_patterns c).
End AclRuleConfig.

Module UserConfig.
Record t := mk { username : bytes; password : bytes; is_admin : bool; rules : list AclRuleConfig.t }.

Definition typed (c : t) : bool :=
  utf8_valid (username c) && utf8_valid (password c) && forallb AclRuleConfig.typed (rules c).
End UserConfig.

Module SecurityConfig.
Record t := mk { enabled : bool; users : list UserConfig.t }.

Definition default : t := mk false [].

Definition typed (c : t) : bool := forallb UserConfig.typed (users c).
End SecurityConfig.

(** ** The file *)

(** [Box<dyn Error>] of [from_file]: the file cannot be read, or is not a
    configuration. *)
Inductive ConfigError := ReadError (e : ErrorKind) | InvalidUtf8 | JsonError.

Module AppConfig.
Record t := mk {
  server : ServerConfig.t;
  persistence : PersistenceConfigJson.t;
  performance : PerformanceConfig.t;
  tls : TlsConfig.t;
  replication : ReplicationConfig.t;
  security : SecurityConfig.t;
}.

Definition default : t := {|
  server := ServerConfig.default_server;
  persistence := PersistenceConfigJson.default;
  performance := PerformanceConfig.default;
  tls := TlsConfig.default;
  replication := ReplicationConfig.default;
  security := SecurityConfig.default;
|}.

Definition typed (c : t) : bool :=
  ServerConfig.typed (server c) && PersistenceConfigJson.typed (persistence c)
  && PerformanceConfig.typed (performance c) && TlsConfig.typed (tls c)
  && ReplicationConfig.typed (replication c) && SecurityConfig.typed (security c).

Section files.
Context `{SerdeJson t typed}.

Definition from_file (path : bytes) (d : fs) : outcome ConfigError t :=
  match d !! path with
  | None => Failed (ReadError NotFound)
  | Some config_str =>
      if negb (utf8_valid config_str) then Failed InvalidUtf8
      else match from_str config_str with
           | Some config => Done config
           | None => Failed JsonError
           end
  end.

Definition load (path : bytes) (d : fs) : t :=
  match from_file path d with
  | Done config => config
  | _ => default
  end.

Definition save (path : bytes) (d : fs) (c : t) : fs :=
  <[path := to_string_pretty c]> d.
End files.

Definition server_address (c : t) : bytes :=
  ServerConfig.host (server c) ++ bs ":" ++ show_int (ServerConfig.port (server c)).

(** [salts i] is the salt drawn for the [i]-th user. *)
Definition to_user `{Argon2} (salt : bytes) (uc : UserConfig.t) : User.t :=
  fold_left (fun user rule => User.add_acl_rule (AclRuleConfig.to_acl_rule rule) user)
    (UserConfig.rules uc)
    (User.new salt (UserConfig.username uc) (UserConfig.password uc) (UserConfig.is_admin uc)).

Definition to_auth_manager `{Argon2} (salts : nat -> bytes) (c : t) : option AuthManager.t :=
  if negb (SecurityConfig.enabled (security c)) then None
  else Some (AuthManager.with_users true
               (imap (fun i => to_user (salts i)) (SecurityConfig.users (security c)))).

Definition to_persistence_config `{UnicodeCase} (c : t) : option PersistenceConfig.t :=
  let p := persistence c in
  if negb (PersistenceConfigJson.enabled p) then None
  else
    let m := to_lowercase (PersistenceConfigJson.mode p) in
    let mode :=
      if decide (m = bs "wal") then PersistenceMode.WAL
      else if decide (m = bs "snapshot") then PersistenceMode.Snapshot
      else if decide (m = bs "both") then PersistenceMode.Both
      else PersistenceMode.NoPersistence in
    let s := to_lowercase (PersistenceConfigJson.wal_sync_policy p) in
    let wal_sync_policy :=
      if decide (s = bs "always") then WALSyncPolicy.Always
      else if decide (s = bs "everysecond" \/ s = bs "every_second") then WALSyncPolicy.EverySecond
      else if decide (s = bs "manual") then WALSyncPolicy.Manual
      else WALSyncPolicy.EverySecond in
    Some {|
      PersistenceConfig.mode := mode;
      PersistenceConfig.wal_sync_policy := wal_sync_policy;
      PersistenceConfig.snapshot_interval_secs := PersistenceConfigJson.snapshot_interval_secs p;
      PersistenceConfig.max_wal_size_bytes :=
        wrap_u64 (wrap_u64 (PersistenceConfigJson.max_wal_size_mb p * 1024) * 1024);
      PersistenceConfig.wal_path := PersistenceConfigJson.data_dir p ++ bs "/cache.wal";
      PersistenceConfig.snapshot_path := PersistenceConfigJson.data_dir p ++ bs "/cache.snapshot";
      PersistenceConfig.wal_backup_count := PersistenceConfigJson.wal_backup_count p;
    |}.
End AppConfig.
