(* ===== verification/ConfigFacts.v ===== *)
(** * ConfigFacts: files and lookups of a configuration

    What was saved is loaded again; the users a configuration gives to the
    [AuthManager]. *)

From S2P Require Import Prelude Text Values Storage Security FileSystem Wal Config.
#[local] Open Scope Z_scope.

(** ** Files *)

Lemma load_saved `{SerdeJson AppConfig.t AppConfig.typed} path d c :
  AppConfig.typed c = true -> AppConfig.from_file path (AppConfig.save path d c) = Done c.
Proof.
  intros Hc. unfold AppConfig.from_file, AppConfig.save.
  rewrite lookup_insert_eq, to_string_pretty_utf8. simpl. by rewrite serde_json_round_trip.
Qed.

(** ** Configured users *)

Lemma to_user_username `{Argon2} salt uc :
  User.username (AppConfig.to_user salt uc) = UserConfig.username uc.
Proof.
  unfold AppConfig.to_user.
  set (u := User.new _ _ _ _). change (UserConfig.username uc) with (User.username u). clearbody u.
  generalize (UserConfig.rules uc). intros rs. revert u.
  induction rs as [|r rs IH]; intros u; simpl; [done|]. by rewrite IH.
Qed.

Lemma to_user_fields `{Argon2} salt uc :
  AppConfig.to_user salt uc
  = User.mk (UserConfig.username uc) (argon2_hash salt (UserConfig.password uc))
      (map AclRuleConfig.to_acl_rule (UserConfig.rules uc)) (UserConfig.is_admin uc).
Proof.
  unfold AppConfig.to_user.
  assert (Hf : forall rs u, fold_left (fun user rule => User.add_acl_rule (AclRuleConfig.to_acl_rule rule) user) rs u
            = User.mk (User.username u) (User.password_hash u)
                (User.acl_rules u ++ map AclRuleConfig.to_acl_rule rs) (User.is_admin u)).
  { induction rs as [|r rs IH]; intros u; simpl; [by rewrite app_nil_r; destruct u|].
    rewrite IH. simpl. by rewrite <-app_assoc. }
  by rewrite Hf.
Qed.

(** A later user replaces an earlier one of the same name. *)
Definition last_user (name : bytes) (us : list User.t) : option User.t :=
  List.find (fun u => bool_decide (User.username u = name)) (reverse us).

Lemma with_users_lookup r us name :
  AuthManager.users (AuthManager.with_users r us) !! name = last_user name us.
Proof.
  unfold AuthManager.with_users, last_user. simpl.
  induction us as [|u us IH] using rev_ind; [done|].
  rewrite fold_left_app, reverse_app. simpl.
  case_bool_decide as E; [by rewrite <-E, lookup_insert_eq|].
  by rewrite lookup_insert_ne.
Qed.

(** The configured user of that name: the last one. *)
Definition configured (name : bytes) (c : AppConfig.t) : option (nat * UserConfig.t) :=
  List.find (fun p => bool_decide (UserConfig.username (snd p) = name))
    (reverse (imap pair (SecurityConfig.users (AppConfig.security c)))).

Lemma find_map {A B} (f : A -> B) (p : B -> bool) l :
  List.find p (map f l) = f <$> List.find (fun a => p (f a)) l.
Proof. induction l as [|a l IH]; simpl; [done|]. by destruct (p (f a)). Qed.

Lemma find_ext {A} (p q : A -> bool) l : (forall a, p a = q a) -> List.find p l = List.find q l.
Proof. intros E. induction l as [|a l IH]; simpl; [done|]. by rewrite E, IH. Qed.

Lemma to_auth_manager_lookup `{Argon2} salts c a name :
  AppConfig.to_auth_manager salts c = Some a ->
  AuthManager.users a !! name
  = (fun p => AppConfig.to_user (salts (fst p)) (snd p)) <$> configured name c.
Proof.
  unfold AppConfig.to_auth_manager. destruct (SecurityConfig.enabled _); [|done]. simpl.
  intros [= <-]. rewrite with_users_lookup. unfold last_user, configured.
  set (us := SecurityConfig.users _).
  assert (E : imap (fun i => AppConfig.to_user (salts i)) us
              = (fun p => AppConfig.to_user (salts (fst p)) (snd p)) <$> imap pair us)
    by by rewrite fmap_imap.
  rewrite E, <-fmap_reverse. unfold fmap at 1. change (@list_fmap ?A ?B) with (@map A B).
  rewrite find_map. f_equal. apply find_ext. intros p. by rewrite to_user_username.
Qed.

(** ** An instance, to apply the theorems with

    The records are countable; their numbers are printed in binary. *)

#[local] Instance server_eq_dec : EqDecision ServerConfig.t.
Proof. solve_decision. Defined.
#[local] Instance server_countable : Countable ServerConfig.t.
Proof.
  apply (inj_countable' (fun '(ServerConfig.mk a b c d) => (a, b, c, d)) (fun '(a, b, c, d) => ServerConfig.mk a b c d)).
  by intros [].
Defined.
#[local] Instance persistence_eq_dec : EqDecision PersistenceConfigJson.t.
Proof. solve_decision. Defined.
#[local] Instance persistence_countable : Countable PersistenceConfigJson.t.
Proof.
  apply (inj_countable' (fun '(PersistenceConfigJson.mk a b c d e f g) => (a, b, c, d, e, f, g)) (fun '(a, b, c, d, e, f, g) => PersistenceConfigJson.mk a b c d e f g)).
  by intros [].
Defined.
#[local] Instance performance_eq_dec : EqDecision PerformanceConfig.t.
Proof. solve_decision. Defined.
#[local] Instance performance_countable : Countable PerformanceConfig.t.
Proof.
  apply (inj_countable' (fun '(PerformanceConfig.mk a b c) => (a, b, c)) (fun '(a, b, c) => PerformanceConfig.mk a b c)).
  by intros [].
Defined.
#[local] Instance tls_eq_dec : EqDecision TlsConfig.t.
Proof. solve_decision. Defined.
#[local] Instance tls_countable : Countable TlsConfig.t.
Proof.
  apply (inj_countable' (fun '(TlsConfig.mk a b c d e f) => (a, b, c, d, e, f)) (fun '(a, b, c, d, e, f) => TlsConfig.mk a b c d e f)).
  by intros [].
Defined.
#[local] Instance replication_eq_dec : EqDecision ReplicationConfig.t.
Proof. solve_decision. Defined.
#[local] Instance replication_countable : Countable ReplicationConfig.t.
Proof.
  apply (inj_countable' (fun '(ReplicationConfig.mk a b c) => (a, b, c)) (fun '(a, b, c) => ReplicationConfig.mk a b c)).
  by intros [].
Defined.
#[local] Instance rule_eq_dec : EqDecision AclRuleConfig.t.
Proof. solve_decision. Defined.
#[local] Instance rule_countable : Countable AclRuleConfig.t.
Proof.
  apply (inj_countable' (fun '(AclRuleConfig.mk a b c) => (a, b, c)) (fun '(a, b, c) => AclRuleConfig.mk a b c)).
  by intros [].
Defined.
#[local] Instance user_eq_dec : EqDecision UserConfig.t.
Proof. solve_decision. Defined.
#[local] Instance user_countable : Countable UserConfig.t.
Proof.
  apply (inj_countable' (fun '(UserConfig.mk a b c d) => (a, b, c, d)) (fun '(a, b, c, d) => UserConfig.mk a b c d)).
  by intros [].
Defined.
#[local] Instance security_eq_dec : EqDecision SecurityConfig.t.
Proof. solve_decision. Defined.
#[local] Instance security_countable : Countable SecurityConfig.t.
Proof.
  apply (inj_countable' (fun '(SecurityConfig.mk a b) => (a, b)) (fun '(a, b) => SecurityConfig.mk a b)).
  by intros [].
Defined.
#[local] Instance app_eq_dec : EqDecision AppConfig.t.
Proof. solve_decision. Defined.
#[local] Instance app_countable : Countable AppConfig.t.
Proof.
  apply (inj_countable' (fun '(AppConfig.mk a b c d e f) => (a, b, c, d, e, f)) (fun '(a, b, c, d, e, f) => AppConfig.mk a b c d e f)).
  by intros [].
Defined.

Fixpoint pos_text (p : positive) : bytes :=
  match p with
  | xH => []
  | xO p => x30 :: pos_text p
  | xI p => x31 :: pos_text p
  end.
Fixpoint text_pos (l : bytes) : positive :=
  match l with
  | [] => xH
  | b :: l => if bool_decide (b = x30) then xO (text_pos l) else xI (text_pos l)
  end.

Lemma text_pos_text p : text_pos (pos_text p) = p.
Proof. induction p; simpl; congruence. Qed.

Lemma pos_text_ascii p : is_ascii (pos_text p) = true.
Proof. induction p; simpl; done. Qed.

#[export] Instance example_serde_json : SerdeJson AppConfig.t AppConfig.typed.
Proof.
  refine {| to_string_pretty := fun c => pos_text (encode c);
            from_str := fun s => decode (text_pos s) |}.
  - intros c. apply is_ascii_valid, pos_text_ascii.
  - intros c _. by rewrite text_pos_text, decode_encode.
Defined.
