(* ===== verification/Client.v ===== *)
(** * Client: [FerricClient] ([client.rs])

    The client's state is its buffer; the stream is what it writes and the
    chunks it reads, in order ([stream.read] gives at most 4096 bytes and an
    empty chunk at the end of the connection).  [read_response] takes chunks
    until its buffer starts with a complete frame, and keeps what follows the
    frame.  [None] is a client that waits for bytes that have not arrived. *)

From S2P Require Import Prelude Text External Float64 Values Storage Resp RespFacts Command FileSystem.
#[local] Open Scope Z_scope.

(** ** The commands of an embedding program ([commands.rs]) *)

Module GetCommand.
Record t := mk { key : bytes }.
Definition new (key : bytes) : t := mk key.
End GetCommand.

Module SetCommand.
Record t := mk { key : bytes; value : bytes; ttl : option Z }.
Definition new (key value : bytes) : t := mk key value None.
Definition with_ttl (ttl : Z) (c : t) : t := mk (key c) (value c) (Some ttl).
End SetCommand.

Module DeleteCommand.
Record t := mk { key : bytes }.
Definition new (key : bytes) : t := mk key.
End DeleteCommand.

(** ** The client *)

Module FerricClient.
Record t := mk { buffer : bytes }.

Definition new : t := mk [].

(** [Box<dyn Error>], by its text. *)
Abbreviation result A := (outcome bytes A).

Section client.
Context `{Layout}.

(** The frame at the head of the buffer, if it is complete. *)
Definition take_frame (buffer : bytes) : res (option (bytes * bytes)) :=
  match buffer with
  | [] => Ok None
  | _ :: _ =>
      match parse_resp buffer with
      | Ok (_, rest) =>
          let consumed := (length buffer - length rest)%nat in
          Ok (Some (take consumed buffer, drop consumed buffer))
      | Err _ => Ok None
      | Panic => Panic
      end
  end.

Definition response_of (frame : bytes) : result Response.t :=
  match parse_response frame with Ok r => Done r | Err e => Failed e | Panic => Crashed end.

Fixpoint read_response (chunks : list bytes) (c : t) : option (t * list bytes * result Response.t) :=
  match take_frame (buffer c) with
  | Panic => Some (c, chunks, Crashed)
  | Ok (Some (frame, rest)) => Some (mk rest, chunks, response_of frame)
  | _ =>
      match chunks with
      | [] => None
      | [] :: chunks =>
          Some (c, chunks, Failed (bs "connection closed by server before a full response"))
      | chunk :: chunks => read_response chunks (mk (buffer c ++ chunk))
      end
  end.

(** The bytes written and the reply. *)
Definition send_command (cmd : Command.t) (chunks : list bytes) (c : t)
    : bytes * option (t * list bytes * result Response.t) :=
  (serialize_command cmd, read_response chunks c).

Definition get_command (key : bytes) : Command.t := Command.Get key.
(** [d.as_secs() as u32] of the time to live in nanoseconds. *)
Definition set_command (key value : bytes) (ttl : option Z) : Command.t :=
  Command.Set' key value ((fun d => as_u32 (d / ns_per_sec)) <$> ttl).
Definition delete_command (key : bytes) : Command.t := Command.Delete key.

Definition get_result (r : result Response.t) : result (option bytes) :=
  response ← r;
  match response with
  | Response.Value value => Done (Some value)
  | Response.NotFound | Response.Null => Done None
  | Response.Error e => Failed e
  | _ => Failed (bs "Unexpected response for GET")
  end.

Definition set_result (r : result Response.t) : result unit :=
  response ← r;
  match response with
  | Response.Ok => Done tt
  | Response.Error e => Failed e
  | _ => Failed (bs "Unexpected response for SET")
  end.

Definition delete_result (r : result Response.t) : result bool :=
  response ← r;
  match response with
  | Response.Integer n => Done (0 <? n)
  | Response.Ok => Done true
  | Response.NotFound | Response.Null => Done false
  | Response.Error e => Failed e
  | _ => Failed (bs "Unexpected response for DELETE")
  end.

(** A call: the request's bytes and, from the chunks that arrive, the result. *)
Definition call {A} (cmd : Command.t) (view : result Response.t -> result A) (chunks : list bytes) (c : t)
    : bytes * option (t * list bytes * result A) :=
  let '(request, reply) := send_command cmd chunks c in
  (request, (fun '(c, chunks, r) => (c, chunks, view r)) <$> reply).

Definition get (key : bytes) := call (get_command key) get_result.
Definition set_with_ttl (key value : bytes) (ttl : option Z) := call (set_command key value ttl) set_result.
Definition set (key value : bytes) := set_with_ttl key value None.
Definition delete (key : bytes) := call (delete_command key) delete_result.
End client.
End FerricClient.

(** ** Reading a reply *)

Section facts.
Context `{Layout}.

Lemma take_frame_write v rest : wf_resp v = true ->
  FerricClient.take_frame (write_resp v ++ rest) = Ok (Some (write_resp v, rest)).
Proof.
  intros Hv. unfold FerricClient.take_frame.
  destruct (write_resp v ++ rest) as [|x l] eqn:E.
  { apply app_eq_nil in E as [E _]. by apply write_resp_nonempty in E. }
  rewrite <- E, parse_resp_write by done.
  replace (length (write_resp v ++ rest) - length rest)%nat with (length (write_resp v))
    by (rewrite length_app; lia).
  by rewrite take_app_length, drop_app_length.
Qed.

Lemma take_frame_prefix v b r : wf_resp v = true -> b ++ r = write_resp v -> r <> [] ->
  FerricClient.take_frame b = Ok None.
Proof.
  intros Hv Hb Hr. unfold FerricClient.take_frame. destruct b as [|x b]; [done|].
  by destruct (parse_resp_prefix v (x :: b) r Hv Hb Hr) as [e ->].
Qed.

(** However the reply is cut into chunks, it is read once its last byte has
    arrived; what follows stays in the buffer or in the stream. *)
Lemma read_response_chunks v chunks b rest :
  wf_resp v = true -> Forall (fun c => c <> []) chunks -> b ++ concat chunks = write_resp v ++ rest ->
  exists b' chunks', b' ++ concat chunks' = rest /\ Forall (fun c => c <> []) chunks' /\
    FerricClient.read_response chunks (FerricClient.mk b)
    = Some (FerricClient.mk b', chunks', FerricClient.response_of (write_resp v)).
Proof.
  intros Hv Hne. revert b. induction Hne as [|chunk chunks Hc Hne IH]; intros b Hb.
  - simpl in Hb. rewrite app_nil_r in Hb. subst b. exists rest, []. simpl. rewrite app_nil_r.
    by rewrite take_frame_write.
  - destruct (decide (length (write_resp v) <= length b)%nat) as [Hle|Hlt].
    + assert (Hpre : exists p, b = write_resp v ++ p /\ p ++ concat (chunk :: chunks) = rest).
      { exists (drop (length (write_resp v)) b).
        pose proof (f_equal (take (length (write_resp v))) Hb) as H1.
        pose proof (f_equal (drop (length (write_resp v))) Hb) as H2.
        rewrite take_app_le, take_app_length in H1 by done.
        rewrite drop_app_le, drop_app_length in H2 by done. split; [|done].
        transitivity (take (length (write_resp v)) b ++ drop (length (write_resp v)) b);
          [by rewrite take_drop | by rewrite H1]. }
      destruct Hpre as (p & -> & Hp). exists p, (chunk :: chunks). split; [done|].
      split; [by constructor|]. cbn [FerricClient.read_response FerricClient.buffer].
      by rewrite take_frame_write.
    + assert (Hb' : exists r, b ++ r = write_resp v /\ r <> []).
      { exists (drop (length b) (write_resp v)).
        pose proof (f_equal (take (length b)) Hb) as H1.
        rewrite take_app_length, take_app_le in H1 by lia.
        split; [transitivity (take (length b) (write_resp v) ++ drop (length b) (write_resp v));
                [by rewrite <- H1 | apply take_drop]|].
        intros E. apply (f_equal length) in E. rewrite length_drop in E. simpl in E. lia. }
      destruct Hb' as (r & Hr & Hr'). cbn [concat] in Hb. rewrite app_assoc in Hb.
      destruct (IH (b ++ chunk) Hb) as (b' & chunks' & E1 & E2 & E3).
      exists b', chunks'. split; [done|]. split; [done|].
      cbn [FerricClient.read_response FerricClient.buffer].
      rewrite (take_frame_prefix v b r) by done. by destruct chunk.
Qed.

(** A reply that never becomes complete is an error, not a value. *)
Lemma read_response_eof v chunks b r :
  wf_resp v = true -> Forall (fun c => c <> []) chunks -> b ++ concat chunks ++ r = write_resp v -> r <> [] ->
  exists b', FerricClient.read_response (chunks ++ [[]]) (FerricClient.mk b)
    = Some (FerricClient.mk b', [],
        Failed (bs "connection closed by server before a full response")).
Proof.
  intros Hv Hne. revert b. induction Hne as [|chunk chunks Hc Hne IH]; intros b Hb Hr.
  - exists b. cbn [app FerricClient.read_response FerricClient.buffer].
    by rewrite (take_frame_prefix v b r).
  - cbn [concat] in Hb. rewrite <- app_assoc in Hb.
    destruct (IH (b ++ chunk)) as [b' Hb']; [by rewrite <- app_assoc|done|]. exists b'.
    cbn [app FerricClient.read_response FerricClient.buffer].
    rewrite (take_frame_prefix v b (chunk ++ concat chunks ++ r)) by
      (done || (intros E; by apply app_eq_nil in E as [-> _])).
    by destruct chunk.
Qed.
End facts.
