(* ===== verification/Startup.v ===== *)
(** * Startup: building and starting the server ([main.rs], [tls/mod.rs],
      the constructors and [run] of [server.rs])

    [CacheServer] has the fields of the struct; fields that share an [Arc] hold
    the same value.  The constructors and [main] thread the file system and fail
    with a [StartError], which ends the process.  What they ask of the system
    is the record [Host]: the environment variable, which addresses can be
    bound, the clocks and what applying each record and entry meets, and the
    random numbers.  The text of a socket address is
    parsed by the standard library: [parse_socket_addr] gives the text it prints
    it with.  [rustls] and its PEM reader are the class [Rustls].

    [serving] is the server the connections see ([Server]), with an empty
    record of what it will log and replicate. *)

From S2P Require Import Prelude Text External Float64 Values SortedSet Stream Keyspace Storage.
From S2P Require Import StorageTypes ShardedMap Resp Command Apply Ring Transactions Security PubSub.
From S2P Require Import Scripting Server FileSystem Wal Snapshot Gossip Replication Config.
#[local] Open Scope Z_scope.

(** ** TLS ([tls/mod.rs]) *)

Class Rustls := {
  Certificate : Type;
  PrivateKey : Type;
  ClientVerifier : Type;
  TlsAcceptor : Type;
  (** [rustls_pemfile::certs], [pkcs8_private_keys] and [rsa_private_keys] of a
      file's contents, collected. *)
  certs : bytes -> option (list Certificate);
  pkcs8_private_keys : bytes -> option (list PrivateKey);
  rsa_private_keys : bytes -> option (list PrivateKey);
  (** [RootCertStore::add] accepts the certificate. *)
  is_trust_anchor : Certificate -> bool;
  (** [WebPkiClientVerifier::builder(roots).build()]. *)
  client_verifier : list Certificate -> option ClientVerifier;
  (** [with_client_cert_verifier] or [with_no_client_auth], then
      [with_single_cert] and [TlsAcceptor::from]. *)
  with_single_cert : option ClientVerifier -> list Certificate -> PrivateKey -> option TlsAcceptor;
}.

Inductive TlsError := TlsMessage (msg : bytes) | TlsIo (e : ErrorKind) | TlsRejected.

Section tls.
Context `{Rustls}.

(** [x?] of a call of the crate. *)
Definition accepted_by {A} (o : option A) : outcome TlsError A :=
  match o with Some a => Done a | None => Failed TlsRejected end.

Definition open_file (path : bytes) (d : fs) : outcome TlsError bytes :=
  match d !! path with Some c => Done c | None => Failed (TlsIo NotFound) end.

Definition load_certs (path : bytes) (d : fs) : outcome TlsError (list Certificate) :=
  certfile ← open_file path d; accepted_by (certs certfile).

Definition load_private_key (path : bytes) (d : fs) : outcome TlsError PrivateKey :=
  keyfile ← open_file path d;
  keys ← accepted_by (pkcs8_private_keys keyfile);
  match keys with
  | key :: _ => Done key
  | [] =>
      keys ← accepted_by (rsa_private_keys keyfile);
      match keys with
      | key :: _ => Done key
      | [] => Failed (TlsMessage (bs "Could not load private key from file"))
      end
  end.

Definition create_tls_acceptor (config : TlsConfig.t) (d : fs) : outcome TlsError TlsAcceptor :=
  if negb (TlsConfig.enabled config) then Failed (TlsMessage (bs "TLS is not enabled in configuration"))
  else match TlsConfig.cert_file config, TlsConfig.key_file config with
  | None, _ => Failed (TlsMessage (bs "TLS cert_file is required when TLS is enabled"))
  | _, None => Failed (TlsMessage (bs "TLS key_file is required when TLS is enabled"))
  | Some cert_file, Some key_file =>
      certs ← load_certs cert_file d;
      key ← load_private_key key_file d;
      if TlsConfig.require_client_cert config then
        match TlsConfig.ca_file config with
        | None => Failed (TlsMessage
            (bs "CA file required when client certificate verification is enabled"))
        | Some ca_file =>
            ca_certs ← load_certs ca_file d;
            if forallb is_trust_anchor ca_certs then
              verifier ← accepted_by (client_verifier ca_certs);
              accepted_by (with_single_cert (Some verifier) certs key)
            else Failed TlsRejected
        end
      else accepted_by (with_single_cert None certs key)
  end.

Definition generate_self_signed_cert : outcome TlsError (bytes * bytes) :=
  Failed (TlsMessage (bs "Certificate generation not implemented - please provide certificate files")).
End tls.

(** ** What the process asks of its host *)

Record Host := {
  config_path_var : option bytes;
  parse_socket_addr : bytes -> option bytes;
  can_bind : bytes -> bool;
  load_readings : bytes -> Reading;
  entry_readings : WALEntry.t -> Reading;
  host_now : Z;
  host_wall : Z;
  salts : nat -> bytes;
  random_u32 : Z;
}.

Inductive StartError := AddrParse (text : bytes) | AddrInUse (addr : bytes) | StartWal (e : WALError).

Definition parse_addr (h : Host) (text : bytes) : outcome StartError bytes :=
  match parse_socket_addr h text with Some a => Done a | None => Failed (AddrParse text) end.

(** ** The server *)

Module CacheServer.
Record t {M : Type} `{Rustls} := mk {
  storage : M;
  addr : bytes;
  persistence_config : option PersistenceConfig.t;
  wal : option WriteAheadLog.t;
  snapshot_manager : option SnapshotManager.t;
  node_id : option bytes;
  ring : option ConsistentHashRing;
  gossip : option GossipProtocol.t;
  tls_acceptor : option TlsAcceptor;
  tls_addr : option bytes;
  replication_role : ReplicationRole;
  master_replicator : option MasterReplicator.t;
  replica_client : option (ReplicaClient.t M);
  auth : option AuthManager.t;
  pubsub : PubSub.t;
  versions : ShardVersions.t;
  lua : LuaEngine.t;
}.
Arguments t M {_}.
Arguments mk {M _}.

Section build.
Context `{KeyMap M, Rustls}.
Implicit Types s : t M.

(** The fields every constructor sets the same way. *)
Definition fresh (addr : bytes) persistence_config wal snapshot_manager node_id ring gossip : t M := {|
  storage := empty_map;
  addr := addr;
  persistence_config := persistence_config;
  wal := wal;
  snapshot_manager := snapshot_manager;
  node_id := node_id;
  ring := ring;
  gossip := gossip;
  tls_acceptor := None;
  tls_addr := None;
  replication_role := Standalone;
  master_replicator := None;
  replica_client := None;
  auth := None;
  pubsub := PubSub.new;
  versions := ShardVersions.new (Z.to_nat SHARD_COUNT);
  lua := LuaEngine.new;
|}.

Definition new (addr : bytes) : t M := fresh addr None None None None None None.

Definition set_storage (m : M) s : t M :=
  mk m (addr s) (persistence_config s) (wal s) (snapshot_manager s) (node_id s) (ring s) (gossip s)
    (tls_acceptor s) (tls_addr s) (replication_role s) (master_replicator s) (replica_client s) (auth s)
    (pubsub s) (versions s) (lua s).
Definition with_tls (acceptor : TlsAcceptor) (address : bytes) s : t M :=
  mk (storage s) (addr s) (persistence_config s) (wal s) (snapshot_manager s) (node_id s) (ring s) (gossip s)
    (Some acceptor) (Some address) (replication_role s) (master_replicator s) (replica_client s) (auth s)
    (pubsub s) (versions s) (lua s).
Definition with_auth (a : AuthManager.t) s : t M :=
  mk (storage s) (addr s) (persistence_config s) (wal s) (snapshot_manager s) (node_id s) (ring s) (gossip s)
    (tls_acceptor s) (tls_addr s) (replication_role s) (master_replicator s) (replica_client s) (Some a)
    (pubsub s) (versions s) (lua s).
Definition set_replication role master replica s : t M :=
  mk (storage s) (addr s) (persistence_config s) (wal s) (snapshot_manager s) (node_id s) (ring s) (gossip s)
    (tls_acceptor s) (tls_addr s) role master replica (auth s) (pubsub s) (versions s) (lua s).

Section persistence.
Context `{Bincode Command.t, Crc32}.

(** [match &config.mode { ... }] of the two constructors with persistence. *)
Definition setup_persistence (config : PersistenceConfig.t) (d : fs)
    : fs * outcome StartError (option WriteAheadLog.t * option SnapshotManager.t) :=
  match PersistenceConfig.mode config with
  | PersistenceMode.NoPersistence => (d, Done (None, None))
  | PersistenceMode.WAL =>
      let '(d, r) := WriteAheadLog.new config d in
      (d, wal ← map_err StartWal r; Done (Some wal, None))
  | PersistenceMode.Snapshot => (d, Done (None, Some (SnapshotManager.new config)))
  | PersistenceMode.Both =>
      let '(d, r) := WriteAheadLog.new config d in
      (d, wal ← map_err StartWal r; Done (Some wal, Some (SnapshotManager.with_wal config wal)))
  end.

Definition with_persistence (addr : bytes) (config : PersistenceConfig.t) (d : fs)
    : fs * outcome StartError (t M) :=
  let '(d, r) := setup_persistence config d in
  (d, '(wal, snapshot_manager) ← r; Done (fresh addr (Some config) wal snapshot_manager None None None)).

Context `{Xxh3}.

(** The part the two constructors with clustering share: the local node, the
    ring with it, the gossip protocol, and the datagrams to the seed. *)
Definition setup_cluster (h : Host) (addr cluster_addr node_id : bytes) (seed_node : option bytes)
    : outcome StartError (GossipProtocol.t * list (bytes * GossipMessage)) :=
  cache_addr ← parse_addr h addr;
  cluster_socket_addr ← parse_addr h cluster_addr;
  let local_node := Node.new (host_now h) (host_wall h) node_id cache_addr cluster_socket_addr in
  let ring := add_node local_node new_ring in
  if negb (can_bind h cluster_socket_addr) then Failed (AddrInUse cluster_socket_addr)
  else
    let gossip := GossipProtocol.new local_node ring in
    match seed_node with
    | None => Done (gossip, [])
    | Some seed =>
        seed_addr ← parse_addr h seed;
        Done (gossip, GossipProtocol.join_cluster seed_addr gossip)
    end.

Definition with_clustering (h : Host) (addr cluster_addr node_id : bytes) (seed_node : option bytes)
    : outcome StartError (t M * list (bytes * GossipMessage)) :=
  '(gossip, sent) ← setup_cluster h addr cluster_addr node_id seed_node;
  Done (fresh addr None None None (Some node_id) (Some (GossipProtocol.ring gossip)) (Some gossip), sent).

Definition with_clustering_and_persistence (h : Host) (addr cluster_addr node_id : bytes)
    (seed_node : option bytes) (config : PersistenceConfig.t) (d : fs)
    : fs * outcome StartError (t M * list (bytes * GossipMessage)) :=
  match setup_cluster h addr cluster_addr node_id seed_node with
  | Done (gossip, sent) =>
      let '(d, r) := setup_persistence config d in
      (d, '(wal, snapshot_manager) ← r;
          Done (fresh addr (Some config) wal snapshot_manager (Some node_id)
                  (Some (GossipProtocol.ring gossip)) (Some gossip), sent))
  | Failed e => (d, Failed e)
  | Crashed => (d, Crashed)
  end.
End persistence.

(** An [Err] leaves the server as it was. *)
Definition as_master (h : Host) (replication_port : Z) s : outcome StartError (t M) :=
  let master_id := default (bs "master") (node_id s) in
  let address := bs "0.0.0.0:" ++ show_int replication_port in
  if negb (can_bind h address) then Failed (AddrInUse address)
  else Done (set_replication Master (Some (MasterReplicator.new master_id)) (replica_client s) s).

Definition as_replica (h : Host) (master_addr : bytes) s : t M :=
  let replica_id := default (bs "replica-" ++ show_int (random_u32 h)) (node_id s) in
  set_replication (Replica master_addr) (master_replicator s)
    (Some (ReplicaClient.new replica_id master_addr (storage s))) s.
End build.
End CacheServer.

(** ** The process ([main.rs]) *)

Module Args.
Record t := mk {
  port : Z;
  cluster_port : option Z;
  node_id : option bytes;
  join : option bytes;
  config : bytes;
}.
End Args.

Section main.
Context `{KeyMap M, Layout, Xxh3, UnicodeCase, Argon2, Rustls, SerdeJson AppConfig.t AppConfig.typed}.
Context `{Bincode Command.t, Bincode (list SnapshotRecord.t), Crc32}.
Implicit Types s : CacheServer.t M.

Definition load_config (h : Host) (args : Args.t) (d : fs) : AppConfig.t :=
  AppConfig.load (default (Args.config args) (config_path_var h)) d.

Definition host_and (config : AppConfig.t) (port : Z) : bytes :=
  ServerConfig.host (AppConfig.server config) ++ bs ":" ++ show_int port.

(** [server.load_from_persistence()]: an error is a warning, and the server
    keeps what was loaded before it; a panic ends the process. *)
Definition load_existing (h : Host) (d : fs) s : outcome StartError (CacheServer.t M) :=
  match load_from_persistence (load_readings h) (host_wall h) (entry_readings h)
          (CacheServer.snapshot_manager s) (CacheServer.wal s) d (CacheServer.storage s) with
  | (_, Crashed) => Crashed
  | (m, _) => Done (CacheServer.set_storage m s)
  end.

(** [let mut server = if let Some(...) = cluster_config { ... } else { ... }]. *)
Definition create_server (h : Host) (args : Args.t) (config : AppConfig.t) (d : fs)
    : fs * outcome StartError (CacheServer.t M * list (bytes * GossipMessage)) :=
  let addr := host_and config (Args.port args) in
  match Args.cluster_port args with
  | Some cluster_port =>
      let node_id := default (bs "node-" ++ show_int (Args.port args)) (Args.node_id args) in
      let cluster_addr := host_and config cluster_port in
      match AppConfig.to_persistence_config config with
      | Some p =>
          let '(d, r) :=
            CacheServer.with_clustering_and_persistence h addr cluster_addr node_id (Args.join args) p d in
          (d, '(s, sent) ← r; s ← load_existing h d s; Done (s, sent))
      | None => (d, CacheServer.with_clustering h addr cluster_addr node_id (Args.join args))
      end
  | None =>
      match AppConfig.to_persistence_config config with
      | Some p =>
          let '(d, r) := CacheServer.with_persistence addr p d in
          (d, s ← r; s ← load_existing h d s; Done (s, []))
      | None => (d, Done (CacheServer.new addr, []))
      end
  end.

(** [match config.replication.role.as_str() { ... }]; a failure is a warning. *)
Definition configure_replication (h : Host) (config : AppConfig.t) s : CacheServer.t M :=
  let r := AppConfig.replication config in
  if decide (ReplicationConfig.role r = bs "master") then
    match ReplicationConfig.replication_port r with
    | Some repl_port => match CacheServer.as_master h repl_port s with Done s => s | _ => s end
    | None => s
    end
  else if decide (ReplicationConfig.role r = bs "replica") then
    match ReplicationConfig.master_addr r with
    | Some master_addr => CacheServer.as_replica h master_addr s
    | None => s
    end
  else s.

(** [if config.tls.enabled { ... }]: [args.port + 1000] wraps; a failure is a
    warning. *)
Definition configure_tls (args : Args.t) (config : AppConfig.t) (d : fs) s : CacheServer.t M :=
  if TlsConfig.enabled (AppConfig.tls config) then
    match create_tls_acceptor (AppConfig.tls config) d with
    | Done acceptor =>
        let tls_port := default ((Args.port args + 1000) mod 2 ^ 16)
                          (ServerConfig.tls_port (AppConfig.server config)) in
        CacheServer.with_tls acceptor (host_and config tls_port) s
    | _ => s
    end
  else s.

Definition configure_auth (h : Host) (config : AppConfig.t) s : CacheServer.t M :=
  match AppConfig.to_auth_manager (salts h) config with
  | Some auth => CacheServer.with_auth auth s
  | None => s
  end.

(** [main] up to [server.run()]. *)
Definition main (h : Host) (args : Args.t) (d : fs)
    : fs * outcome StartError (CacheServer.t M * list (bytes * GossipMessage)) :=
  let config := load_config h args d in
  let '(d, r) := create_server h args config d in
  (d, '(s, sent) ← r;
      Done (configure_auth h config (configure_tls args config d (configure_replication h config s)), sent)).

(** The background tasks of [run] and the listeners it opens: an address that
    cannot be bound ends the process. *)
Inductive task :=
| ReplicateFrom (master_addr : bytes)
| GossipTasks
| WalSync
| Snapshots
| Cleanup
| Listen (addr : bytes)
| ListenTls (addr : bytes).

Definition run (h : Host) s : list task * outcome StartError unit :=
  let background :=
    (match CacheServer.replica_client s with
     | Some r => [ReplicateFrom (ReplicaClient.master_addr r)] | None => [] end)
    ++ (if CacheServer.gossip s then [GossipTasks] else [])
    ++ (match CacheServer.wal s with
        | Some l => if decide (WriteAheadLog.sync_policy l = WALSyncPolicy.EverySecond) then [WalSync] else []
        | None => [] end)
    ++ (match CacheServer.snapshot_manager s with
        | Some m => if 0 <? PersistenceConfig.snapshot_interval_secs (SnapshotManager.config m)
                    then [Snapshots] else []
        | None => [] end)
    ++ [Cleanup] in
  if negb (can_bind h (CacheServer.addr s)) then (background, Failed (AddrInUse (CacheServer.addr s)))
  else
    let background := background ++ [Listen (CacheServer.addr s)] in
    match CacheServer.tls_acceptor s, CacheServer.tls_addr s with
    | Some _, Some tls_addr =>
        if negb (can_bind h tls_addr) then (background, Failed (AddrInUse tls_addr))
        else (background ++ [ListenTls tls_addr], Done tt)
    | _, _ => (background, Done tt)
    end.

(** What the listeners hand to every connection. *)
Definition serving `{Mpsc B} s : Server.t M B :=
  Server.mk M B (CacheServer.storage s)
    (if CacheServer.wal s then Some [] else None)
    (if CacheServer.master_replicator s then Some [] else None)
    (CacheServer.auth s) (CacheServer.ring s) (CacheServer.node_id s)
    (CacheServer.pubsub s) no_mailboxes (CacheServer.versions s) (CacheServer.lua s).
End main.
