(* ===== verification/UnitTests.v ===== *)
(** * UnitTests: the program's own unit tests, run on the definitions

    Every test module of [src/cache/src] whose outcome does not hang on a
    library that is a parameter here (Lua, SHA-1, JSON and bincode as such, the
    spread of the hash function) or on threads and sockets: a test is the
    boolean of its assertions over the operations the test calls, and each one
    evaluates to [true].  They check that the definitions behave on the inputs
    the authors thought of, assertion by assertion.  Tests that need a hash
    function, a password hash or a random choice run with the example
    instances of [External] and [Security]; the clock does not move in a
    test. *)

From S2P Require Import Prelude Text External Float64 BTree Values SortedSet Stream Keyspace.
From S2P Require Import ShardedMap Storage StorageTypes Resp Command Apply Ring Transactions.
From S2P Require Import Security PubSub Scripting Server FileSystem Config.
Import Defaults.
#[local] Open Scope Z_scope.

(** All assertions hold. *)
Definition asserts (l : list bool) : bool := forallb id l.

(** [assert_eq!]. *)
Definition eqb {A} `{EqDecision A} (a b : A) : bool := bool_decide (a = b).
Infix "==?" := eqb (at level 70).

Definition fl (n : Z) : f64 := f64_of_Z n.

(** ** Data structures *)

Module hash_tests.
Definition test_hash_operations : bool :=
  let '(hash, _) := HashValue.set_field (bs "field1") (bs "value1") HashValue.new in
  let a1 := HashValue.get_field (bs "field1") hash ==? Some (bs "value1") in
  let a2 := HashValue.get_field (bs "field2") hash ==? None in
  let '(hash, a3) := HashValue.delete_field (bs "field1") hash in
  let '(hash, a4) := HashValue.delete_field (bs "field2") hash in
  let a5 := HashValue.get_field (bs "field1") hash ==? None in
  let '(hash, _) := HashValue.set_field (bs "a") (bs "1") hash in
  let '(hash, _) := HashValue.set_field (bs "b") (bs "2") hash in
  asserts [a1; a2; a3; negb a4; a5; HashValue.len hash =? 2].
End hash_tests.

Module list_tests.
Definition test_list_operations : bool :=
  let list := ListValue.push_left (bs "a") ListValue.new in
  let list := ListValue.push_left (bs "b") list in
  let list := ListValue.push_right (bs "c") list in
  let '(list, l) := ListValue.pop_left list in
  let '(list, r) := ListValue.pop_right list in
  let a3 := ListValue.len list =? 1 in
  let list := ListValue.push_right (bs "1") list in
  let list := ListValue.push_right (bs "2") list in
  let list := ListValue.push_right (bs "3") list in
  let range := ListValue.get_range 1 2 list in
  asserts [l ==? Some (bs "b"); r ==? Some (bs "c"); a3; len range =? 2;
           range !! 0%nat ==? Some (bs "1"); range !! 1%nat ==? Some (bs "2")].
End list_tests.

Module set_tests.
Definition test_set_operations : bool :=
  let '(set1, a1) := SetValue.add (bs "a") SetValue.new in
  let '(set1, a2) := SetValue.add (bs "a") set1 in
  let a3 := SetValue.contains (bs "a") set1 in
  let a4 := SetValue.contains (bs "b") set1 in
  let '(set1, a5) := SetValue.remove (bs "a") set1 in
  let '(set1, a6) := SetValue.remove (bs "a") set1 in
  let set1 := add_all [bs "1"; bs "2"; bs "3"] set1 in
  let set2 := add_all [bs "2"; bs "3"; bs "4"] SetValue.new in
  asserts [a1; negb a2; a3; negb a4; a5; negb a6;
           len (SetValue.intersection set1 set2) =? 2; len (SetValue.union set1 set2) =? 4;
           len (SetValue.difference set1 set2) =? 1].
End set_tests.

Module sorted_set_tests.
Definition test_sorted_set_operations : bool :=
  let '(zset, _) := SortedSetValue.add (fl 10) (bs "a") SortedSetValue.new in
  let '(zset, _) := SortedSetValue.add (fl 20) (bs "b") zset in
  let '(zset, _) := SortedSetValue.add (fl 15) (bs "c") zset in
  let range := SortedSetValue.get_range 0 1 true zset in
  let range_by_score := SortedSetValue.get_range_by_score (fl 10) (fl 15) false zset in
  let '(zset', r1) := SortedSetValue.remove (bs "a") zset in
  let '(zset', r2) := SortedSetValue.remove (bs "a") zset' in
  asserts [
    SortedSetValue.get_score (bs "a") zset ==? Some (fl 10);
    SortedSetValue.get_score (bs "b") zset ==? Some (fl 20);
    SortedSetValue.get_score (bs "d") zset ==? None;
    SortedSetValue.get_rank (bs "a") zset ==? Some 0;
    SortedSetValue.get_rank (bs "c") zset ==? Some 1;
    SortedSetValue.get_rank (bs "b") zset ==? Some 2;
    len range =? 2; (snd <$> range !! 0%nat) ==? Some (Some (fl 10));
    (snd <$> range !! 1%nat) ==? Some (Some (fl 15));
    match range_by_score with Ok l => len l =? 2 | _ => false end;
    r1; negb r2; SortedSetValue.len zset' =? 2].
End sorted_set_tests.

Module stream_tests.
Definition kv : fields := [(bs "k", bs "v")].

(** At any wall clock. *)
Definition auto_id_monotonic (wall : Z) : bool :=
  let '(s, id1) := StreamValue.add wall None kv StreamValue.new in
  let '(s, id2) := StreamValue.add wall None kv s in
  match id1, id2 with
  | Ok id1, Ok id2 => asserts [negb (StreamId.leb id2 id1); StreamValue.len s =? 2]
  | _, _ => false
  end.

Definition explicit_id_must_increase : bool :=
  let '(s, r) := StreamValue.add 0 (Some (StreamId.mk 5 0)) [] StreamValue.new in
  let '(s, err) := StreamValue.add 0 (Some (StreamId.mk 5 0)) [] s in
  asserts [is_ok r; match err with Err e => contains (bs "equal or smaller") e | _ => false end].

(** [for i in 1..=n { s.add(Some(StreamId { ms: i, seq: 0 }), ..).unwrap() }]. *)
Definition filled (n : nat) : StreamValue.t :=
  fold_left (fun s i => fst (StreamValue.add 0 (Some (StreamId.mk (Z.of_nat i) 0))
    [(bs "i", show_int (Z.of_nat i))] s)) (seq 1 n) StreamValue.new.
Definition range_inclusive_with_limit : bool :=
  let s := filled 5 in
  asserts [
    match StreamValue.range (StreamId.mk 2 0) (StreamId.mk 4 0) None s with
    | Ok r => len r =? 3 | _ => false end;
    match StreamValue.range StreamId.MIN StreamId.MAX (Some 2) s with
    | Ok r => len r =? 2 | _ => false end].

Definition read_after_is_strict : bool :=
  let '(s, id) := StreamValue.add 0 (Some (StreamId.mk 1 0)) [] StreamValue.new in
  let '(s, _) := StreamValue.add 0 (Some (StreamId.mk 2 0)) [] s in
  match id with
  | Ok id =>
      let r := StreamValue.read_after id None s in
      asserts [len r =? 1; (fst <$> r !! 0%nat) ==? Some (StreamId.mk 2 0)]
  | _ => false
  end.

Definition parse_id_forms : bool :=
  asserts [
    StreamId.parse (bs "-") false ==? Ok StreamId.MIN;
    StreamId.parse (bs "+") true ==? Ok StreamId.MAX;
    StreamId.parse (bs "100-3") false ==? Ok (StreamId.mk 100 3);
    StreamId.parse (bs "100") false ==? Ok (StreamId.mk 100 0);
    StreamId.parse (bs "100") true ==? Ok (StreamId.mk 100 u64_max)].
End stream_tests.

(** ** Transactions *)

Module transactions_tests.
(** WATCH of a shard, a write to [written], and whether EXEC would abort. *)
Definition changed_after (watched written : nat) : res bool :=
  let v := ShardVersions.new 4 in
  n ← ShardVersions.read watched v;
  let tx := TxState.watch watched n TxState.new in
  v ← ShardVersions.bump written v;
  TxState.any_watched_changed v tx.

Definition watch_then_unrelated_write_does_not_abort : bool := changed_after 0 2 ==? Ok false.
Definition watch_then_write_to_same_shard_aborts : bool := changed_after 1 1 ==? Ok true.

Definition rewatching_same_shard_keeps_first_version : bool :=
  (let v := ShardVersions.new 4 in
   n ← ShardVersions.read 0 v;
   let tx := TxState.watch 0 n TxState.new in
   v ← ShardVersions.bump 0 v;
   n ← ShardVersions.read 0 v;
   let tx := TxState.watch 0 n tx in
   TxState.any_watched_changed v tx) ==? Ok true.
End transactions_tests.

(** ** Publish/subscribe *)

Module pubsub_tests.
Definition publish_reaches_subscribers : bool :=
  let '(b, tx) := unbounded_channel (no_mailboxes : boxes) in
  let ps := PubSub.subscribe (bs "news") tx PubSub.new in
  let '(b, count) := PubSub.publish (bs "news") (bs "hi") ps b in
  asserts [count =? 1; mailbox tx b ==? Some [msg (bs "news") (bs "hi")]].

Definition publish_to_empty_channel_returns_zero : bool :=
  snd (PubSub.publish (bs "empty") (bs "x") PubSub.new (no_mailboxes : boxes)) =? 0.

(** [drop(rx)]: the mailbox is gone. *)
Definition closed_subscriber_is_skipped : bool :=
  let '(b, tx) := unbounded_channel (no_mailboxes : boxes) in
  let ps := PubSub.subscribe (bs "c") tx PubSub.new in
  let b := mk_boxes (next_box b) (base.delete tx (open_boxes b)) in
  snd (PubSub.publish (bs "c") (bs "x") ps b) =? 0.
End pubsub_tests.

(** ** Security *)

Module auth_tests.
Definition test_user_authentication : bool :=
  let user := User.new (bs "salt") (bs "test") (bs "password123") false in
  asserts [User.verify_password (bs "password123") user;
           negb (User.verify_password (bs "wrongpass") user)].

Definition test_auth_manager : bool :=
  let auth_mgr := AuthManager.with_users true [User.new (bs "salt") (bs "admin") (bs "admin123") true] in
  let '(auth_mgr, s1) := AuthManager.authenticate 0 1 (bs "admin") (bs "admin123") auth_mgr in
  let '(auth_mgr, s2) := AuthManager.authenticate 0 2 (bs "admin") (bs "wrongpass") auth_mgr in
  let '(auth_mgr, s3) := AuthManager.authenticate 0 3 (bs "admin") (bs "admin123") auth_mgr in
  match s3 with
  | Some session_id =>
      let '(auth_mgr, username) := AuthManager.verify_session 0 session_id auth_mgr in
      let auth_mgr := AuthManager.logout session_id auth_mgr in
      let '(auth_mgr, gone) := AuthManager.verify_session 0 session_id auth_mgr in
      asserts [bool_decide (is_Some s1); s2 ==? None; username ==? Some (bs "admin"); gone ==? None]
  | None => false
  end.
End auth_tests.

Module acl_tests.
Definition test_acl_permissions : bool :=
  let rule := ACLRule.allow_all in
  let read_rule := ACLRule.read_only in
  let write_rule := ACLRule.write_only in
  asserts [
    ACLRule.allows_command (bs "GET") (Some (bs "key1")) rule;
    ACLRule.allows_command (bs "SET") (Some (bs "key1")) rule;
    ACLRule.allows_command (bs "GET") (Some (bs "key1")) read_rule;
    negb (ACLRule.allows_command (bs "SET") (Some (bs "key1")) read_rule);
    negb (ACLRule.allows_command (bs "GET") (Some (bs "key1")) write_rule);
    ACLRule.allows_command (bs "SET") (Some (bs "key1")) write_rule].

Definition test_key_patterns : bool :=
  let rule := ACLRule.with_key_pattern (bs "user:*") ACLRule.read_only in
  let wildcard_rule := ACLRule.with_key_pattern (bs "*") ACLRule.read_only in
  asserts [
    ACLRule.allows_command (bs "GET") (Some (bs "user:123")) rule;
    negb (ACLRule.allows_command (bs "GET") (Some (bs "admin:456")) rule);
    ACLRule.allows_command (bs "GET") (Some (bs "anything")) wildcard_rule].
End acl_tests.

Module config_tests.
Definition test_default_config : bool :=
  let config := AppConfig.default in
  asserts [ServerConfig.host (AppConfig.server config) ==? bs "127.0.0.1";
           ServerConfig.port (AppConfig.server config) =? 7777;
           negb (PersistenceConfigJson.enabled (AppConfig.persistence config))].
End config_tests.

(** ** The ring *)

Module ring_tests.
Definition node (id : string) (port cluster_port : Z) : Node.t :=
  Node.new 0 0 (bs id) (bs "127.0.0.1:" ++ show_int port) (bs "127.0.0.1:" ++ show_int cluster_port).

Definition test_consistent_hash_ring : bool :=
  let ring := add_node (node "node2" 7002 17002) (add_node (node "node1" 7001 17001) new_ring) in
  let node_for_key1 := get_node (bs "test_key_1") ring in
  let node_for_key2 := get_node (bs "test_key_2") ring in
  asserts [bool_decide (is_Some node_for_key1); bool_decide (is_Some node_for_key2);
           get_node (bs "test_key_1") ring ==? node_for_key1;
           get_node (bs "test_key_2") ring ==? node_for_key2].

Definition test_node_removal : bool :=
  let ring := add_node (node "node1" 7001 17001) new_ring in
  let a1 := node_count ring =? 1 in
  let ring := remove_node (bs "node1") ring in
  asserts [a1; node_count ring =? 0; get_node (bs "test") ring ==? None].

Definition test_replication_nodes : bool :=
  let ring := add_node (node "node3" 7003 17003)
    (add_node (node "node2" 7002 17002) (add_node (node "node1" 7001 17001) new_ring)) in
  let replicas := get_nodes_for_replication (bs "test_key") 2 ring in
  asserts [len replicas =? 2; negb (replicas !! 0%nat ==? replicas !! 1%nat)].
End ring_tests.

(** ** Storage *)

Module sharding_tests.
Abbreviation db := ShardedMap (only parsing).

(** [for i in 0..n { storage.set(format!("k{}", i), "v", None) }]. *)
Definition written (n : nat) : db :=
  fold_left (fun m i => fst (set 0 (bs "k" ++ show_int (Z.of_nat i)) (bs "v") None m)) (seq 0 n) empty_map.

Definition flushall_clears_all_shards : bool :=
  let storage := written 100 in
  asserts [dbsize 0 storage =? 100; dbsize 0 (flushall storage) =? 0].

Definition sinter_across_shards : bool :=
  let '(storage, r1) := sadd (bs "A") [bs "x"; bs "y"; bs "z"] (empty_map : db) in
  let '(storage, r2) := sadd (bs "B") [bs "y"; bs "z"; bs "w"] storage in
  match sinter 0 [bs "A"; bs "B"] storage with
  | Ok got => asserts [is_ok r1; is_ok r2; sort_bytes got ==? [bs "y"; bs "z"]]
  | _ => false
  end.
End sharding_tests.

(** ** Commands *)

Module commands_tests.
Abbreviation db := ShardedMap (only parsing).

Definition writes : list Command.t :=
  [Command.Set' (bs "s") (bs "v") None;
   Command.HSet (bs "h") (bs "f") (bs "v");
   Command.LPush (bs "l") [bs "a"; bs "b"];
   Command.SAdd (bs "set") [bs "x"];
   Command.ZAdd (bs "z") [(fl 1, bs "m")];
   Command.Delete (bs "s")].

(** [bincode::deserialize(&bincode::serialize(cmd).expect(..)).expect(..)]. *)
Definition round_trip `{Bincode Command.t} (cmd : Command.t) : res Command.t :=
  match bin_serialize cmd with
  | inr l => match bin_deserialize l with inr c => Ok c | inl _ => Panic end
  | inl _ => Panic
  end.

Fixpoint apply_each (decode : Command.t -> res Command.t) (cmds : list Command.t) (m : db) : res db :=
  match cmds with
  | [] => Ok m
  | cmd :: cmds =>
      decoded ← decode cmd;
      m ← apply_write_command 0 0 decoded m;
      apply_each decode cmds m
  end.

(** What the test asserts of the storage. *)
Definition landed (r : res db) : bool :=
  match r with
  | Ok storage =>
      asserts [
        get 0 (bs "s") storage ==? None;
        hget 0 (bs "h") (bs "f") storage ==? Some (bs "v");
        llen 0 (bs "l") storage ==? Ok 2;
        sismember 0 (bs "set") (bs "x") storage ==? Ok true;
        zscore 0 (bs "z") (bs "m") storage ==? Ok (Some (fl 1))]
  | _ => false
  end.
Definition write_commands_round_trip_through_bincode_and_apply `{Bincode Command.t} : bool :=
  asserts [forallb is_write_command writes; landed (apply_each round_trip writes empty_map)].

Definition read_commands_are_not_writes : bool :=
  asserts [
    negb (is_write_command (Command.Get (bs "k")));
    negb (is_write_command (Command.HGet (bs "k") (bs "f")));
    negb (is_write_command Command.Ping);
    negb (is_write_command Command.DbSize);
    negb (is_write_command (Command.Ttl (bs "k")));
    negb (is_write_command (Command.PTtl (bs "k")))].

Definition in_ttl (r : option Z) (max : Z) : bool :=
  match r with Some pttl => (0 <? pttl) && (pttl <=? max) | None => false end.

Definition p3_storage_primitives : bool :=
  match apply_write_command 0 0 (Command.MSet [(bs "a", bs "1"); (bs "b", bs "2")]) (empty_map : db) with
  | Ok storage =>
      let a1 := get 0 (bs "a") storage ==? Some (bs "1") in
      let a2 := get 0 (bs "b") storage ==? Some (bs "2") in
      let '(storage, nx) := set_nx 0 (bs "a") (bs "X") storage in
      let a4 := get 0 (bs "a") storage ==? Some (bs "1") in
      let '(storage, _) := set_ex 0 (bs "t") (bs "v") (from_secs 60) storage in
      let a5 := in_ttl (pttl_millis 0 (bs "t") storage) 60000 in
      let '(storage, i1) := incr_by (bs "counter") 5 storage in
      let '(storage, i2) := incr_by (bs "counter") (-2) storage in
      let a8 := type_of 0 (bs "a") storage ==? bs "string" in
      let a9 := type_of 0 (bs "missing") storage ==? bs "none" in
      let '(storage, r) := Storage.rename 0 (bs "a") (bs "a-renamed") storage in
      asserts [a1; a2; negb nx; a4; a5; i1 ==? Ok 5; i2 ==? Ok 3; a8; a9; is_ok r;
               get 0 (bs "a") storage ==? None;
               get 0 (bs "a-renamed") storage ==? Some (bs "1")]
  | _ => false
  end.

(** [wall]: some time after 1970. *)
Definition ttl_commands_apply_correctly (wall : Z) : bool :=
  (let '(storage, _) := set 0 (bs "k") (bs "v") None (empty_map : db) in
   storage ← apply_write_command 0 wall (Command.Expire (bs "k") 60) storage;
   let a1 := in_ttl (pttl_millis 0 (bs "k") storage) 60000 in
   storage ← apply_write_command 0 wall (Command.Persist (bs "k")) storage;
   let a2 := pttl_millis 0 (bs "k") storage ==? Some (-1) in
   storage ← apply_write_command 0 wall (Command.Expire (bs "missing") 60) storage;
   let a3 := pttl_millis 0 (bs "missing") storage ==? None in
   storage ← apply_write_command 0 wall (Command.ExpireAt (bs "k") 1) storage;
   let a4 := get 0 (bs "k") storage ==? None in
   Ok (asserts [a1; a2; a3; a4])) ==? Ok true.
End commands_tests.

(** ** The server *)

Module server_tests.
Abbreviation world := (Server.t ShardedMap boxes).
Definition at_rest : nat -> Env := fun _ => {| now := 0; wall := 0; random := 7; append_ok := true |}.

(** [execute_command(..).await] of a test. *)
Definition exec (cmd : Command.t) (c : Conn.t) (s : world) : res (world * Conn.t * Response.t) :=
  execute_command at_rest cmd c s.
Definition set_cmd (k v : string) : Command.t := Command.Set' (bs k) (bs v) None.
Definition stored (k : string) (s : world) : option bytes := get 0 (bs k) (Server.storage s).

(** [matches!(r, ..)] and the [match r { .. other => panic!(..) }] of the tests. *)
Definition is_error (p : bytes -> bool) (r : Response.t) : bool :=
  match r with Response.Error e => p e | _ => false end.
Definition is_raw (p : bytes -> bool) (r : Response.t) : bool :=
  match r with Response.Raw b => p b | _ => false end.
Definition is_value (r : Response.t) : bool := match r with Response.Value _ => true | _ => false end.
Definition is_Ok (r : Response.t) : bool := match r with Response.Ok => true | _ => false end.
Definition is_int (n : Z) (r : Response.t) : bool :=
  match r with Response.Integer i => i =? n | _ => false end.

Definition auth_gate_blocks_then_admits : bool :=
  (let auth := Some (AuthManager.with_users true [User.new (bs "salt") (bs "admin") (bs "admin123") true]) in
   let s : world := Server.new None None auth in
   '(s, c, r1) ← exec (set_cmd "k" "v") Conn.new s;
   '(s, c, r2) ← exec Command.Ping c s;
   '(s, c, r3) ← exec (Command.Auth (Some (bs "admin")) (bs "wrong")) c s;
   let a4 := Conn.authed_user c ==? None in
   '(s, c, r5) ← exec (Command.Auth (Some (bs "admin")) (bs "admin123")) c s;
   let a6 := Conn.authed_user c ==? Some (bs "admin") in
   '(s, c, r7) ← exec (set_cmd "k" "v") c s;
   Ok (asserts [is_error (starts_with (bs "NOAUTH")) r1; is_value r2;
     is_error (starts_with (bs "WRONGPASS")) r3; a4; is_Ok r5; a6; is_Ok r7;
     stored "k" s ==? Some (bs "v")])) ==? Ok true.

(** The first key of the probes that the node owns. *)
Fixpoint probe (id : bytes) (l : list nat) (ring : ConsistentHashRing) : option bytes :=
  match l with
  | [] => None
  | i :: l =>
      let k := bs "probe-" ++ show_int (Z.of_nat i) in
      if (Node.id <$> node_for_key k ring) ==? Some id then Some k else probe id l ring
  end.

Definition moved_redirect_for_remote_keys : bool :=
  let local := ring_tests.node "local" 7001 17001 in
  let remote := ring_tests.node "remote" 7002 17002 in
  let ring := add_node remote (add_node local new_ring) in
  match probe (bs "local") (seq 0 200) ring, probe (bs "remote") (seq 0 200) ring with
  | Some local_key, Some remote_key =>
      let s : world := Server.new None None None in
      let s := Server.mk ShardedMap boxes (Server.storage s) None None None (Some ring) (Some (bs "local"))
        (Server.pubsub s) (Server.boxes s) (Server.versions s) (Server.lua s) in
      ('(s, c, r1) ← exec (Command.Set' local_key (bs "v") None) Conn.new s;
       '(s, c, r2) ← exec (Command.Get remote_key) c s;
       '(s, c, r3) ← exec Command.Ping c s;
       Ok (asserts [is_Ok r1; is_error (starts_with (bs "MOVED ")) r2;
         is_error (contains (bs "127.0.0.1:7002")) r2; is_value r3])) ==? Ok true
  | _, _ => false
  end.

Definition pubsub_publish_to_subscribed_connection : bool :=
  (let s : world := Server.new None None None in
   '(s, c, r1) ← exec (Command.Subscribe [bs "news"]) Conn.new s;
   let a2 := len (SubscriberState.channels (Conn.sub c)) =? 1 in
   '(s, _, r3) ← exec (Command.Publish (bs "news") (bs "hello")) Conn.new s;
   let received := rx ← SubscriberState.rx (Conn.sub c); mailbox rx (Server.boxes s) in
   Ok (asserts [is_raw (contains (bs "subscribe")) r1; a2; is_int 1 r3;
     received ==? Some [msg (bs "news") (bs "hello")]])) ==? Ok true.

Definition transaction_multi_then_exec_commits_writes : bool :=
  (let s : world := Server.new None None None in
   '(s, c, r1) ← exec Command.Multi Conn.new s;
   let a2 := TxState.in_multi (Conn.tx c) in
   '(s, c, r3) ← exec (set_cmd "a" "1") c s;
   '(s, c, r4) ← exec (set_cmd "b" "2") c s;
   let a5 := stored "a" s ==? None in
   '(s, c, r6) ← exec Command.Exec c s;
   Ok (asserts [is_Ok r1; a2; is_raw (fun b => b ==? bs "+QUEUED" ++ crlf) r3; is_raw (fun _ => true) r4; a5;
     is_raw (starts_with (bs "*2" ++ crlf)) r6; stored "a" s ==? Some (bs "1");
     stored "b" s ==? Some (bs "2"); negb (TxState.in_multi (Conn.tx c))])) ==? Ok true.

Definition transaction_watch_aborts_on_conflict : bool :=
  (let s : world := Server.new None None None in
   '(s, a, _) ← exec (Command.Watch [bs "x"]) Conn.new s;
   '(s, a, _) ← exec Command.Multi a s;
   '(s, a, _) ← exec (set_cmd "x" "A") a s;
   '(s, _, _) ← exec (set_cmd "x" "B") Conn.new s;
   '(s, a, r) ← exec Command.Exec a s;
   Ok (asserts [is_raw (fun b => b ==? bs "*-1" ++ crlf) r; stored "x" s ==? Some (bs "B")])) ==? Ok true.

Definition no_auth_manager_means_no_gate : bool :=
  match exec (set_cmd "k" "v") Conn.new (Server.new None None None) with
  | Ok (_, _, r) => is_Ok r
  | _ => false
  end.
End server_tests.

(** ** The tests pass *)

(** The tests of the values and of the components that hold no storage. *)
Lemma component_tests_pass : asserts [
  hash_tests.test_hash_operations; list_tests.test_list_operations; set_tests.test_set_operations;
  sorted_set_tests.test_sorted_set_operations;
  stream_tests.explicit_id_must_increase; stream_tests.range_inclusive_with_limit;
  stream_tests.read_after_is_strict; stream_tests.parse_id_forms;
  transactions_tests.watch_then_unrelated_write_does_not_abort;
  transactions_tests.watch_then_write_to_same_shard_aborts;
  transactions_tests.rewatching_same_shard_keeps_first_version;
  pubsub_tests.publish_reaches_subscribers; pubsub_tests.publish_to_empty_channel_returns_zero;
  pubsub_tests.closed_subscriber_is_skipped;
  auth_tests.test_user_authentication; auth_tests.test_auth_manager;
  acl_tests.test_acl_permissions; acl_tests.test_key_patterns; config_tests.test_default_config] = true.
Proof. vm_compute. reflexivity. Qed.

Lemma ring_tests_pass : asserts [ring_tests.test_consistent_hash_ring; ring_tests.test_node_removal;
  ring_tests.test_replication_nodes] = true.
Proof. vm_compute. reflexivity. Qed.

Lemma storage_tests_pass : asserts [sharding_tests.flushall_clears_all_shards;
  sharding_tests.sinter_across_shards; commands_tests.read_commands_are_not_writes;
  commands_tests.p3_storage_primitives] = true.
Proof. vm_compute. reflexivity. Qed.

Lemma server_tests_pass : asserts [server_tests.auth_gate_blocks_then_admits;
  server_tests.moved_redirect_for_remote_keys; server_tests.pubsub_publish_to_subscribed_connection;
  server_tests.transaction_multi_then_exec_commits_writes;
  server_tests.transaction_watch_aborts_on_conflict; server_tests.no_auth_manager_means_no_gate] = true.
Proof. vm_compute. reflexivity. Qed.

(** Automatic ids increase at whatever time they are drawn. *)
Lemma auto_id_monotonic_passes wall : stream_tests.auto_id_monotonic wall = true.
Proof.
  unfold stream_tests.auto_id_monotonic, StreamValue.add. simpl.
  destruct (Z.ltb_spec 0 (StreamValue.now_ms wall)) as [E|E]; simpl.
  - rewrite Z.ltb_irrefl. simpl. unfold StreamId.leb, StreamId.cmp. simpl. by rewrite Z.compare_refl.
  - by rewrite (proj2 (Z.ltb_ge _ _)) by lia.
Qed.

(** The deadlines of the test hold at any time after the first second of
    1970. *)
Lemma ttl_commands_pass wall : 1000 <= wall -> commands_tests.ttl_commands_apply_correctly wall = true.
Proof.
  intros Hw. assert (E : (unix_secs_of wall <? 1) = false).
  { unfold unix_secs_of. rewrite (proj2 (Z.leb_le _ _)) by lia. apply Z.ltb_ge.
    apply Z.div_le_lower_bound; lia. }
  unfold commands_tests.ttl_commands_apply_correctly. cbn [apply_write_command u64_try_from].
  change (u64_try_from 1) with (Some 1). cbv zeta beta iota. rewrite E. vm_compute. reflexivity.
Qed.

(** The round trip passes with any serializer that can write the commands. *)
Lemma write_commands_round_trip_pass `{Bincode Command.t} :
  Forall (fun cmd => exists l, bin_serialize cmd = inr l) commands_tests.writes ->
  commands_tests.write_commands_round_trip_through_bincode_and_apply = true.
Proof.
  intros Hw. unfold commands_tests.write_commands_round_trip_through_bincode_and_apply.
  assert (Hr : forall m, commands_tests.apply_each commands_tests.round_trip commands_tests.writes m =
    commands_tests.apply_each Ok commands_tests.writes m).
  { revert Hw. generalize commands_tests.writes. intros l Hl. induction Hl as [|c l [b Hb] Hl IH]; intros m; [done|].
    assert (Hc : commands_tests.round_trip c = Ok c)
      by (unfold commands_tests.round_trip; by rewrite Hb, (bin_round_trip _ _ Hb)).
    cbn [commands_tests.apply_each]. rewrite Hc. cbn. by destruct (apply_write_command 0 0 c m); cbn. }
  rewrite Hr. vm_compute. reflexivity.
Qed.
