(* ===== verification/ProtocolTheorems.v ===== *)
(** * ProtocolTheorems: what the wire protocol guarantees

    The codec is lossless on the values it can carry, the parser terminates
    and never takes an incomplete frame for a complete one, frames do not
    depend on how the network splits the bytes, and parsing a command cannot
    panic.  [error_reply_is_split] is the exception: an error text that carries
    a line break is not one frame. *)

From S2P Require Import Prelude Text External Float64 Resp RespFacts Framing Command.
From S2P Require Import CommandFacts.
#[local] Open Scope Z_scope.

(** C1. Reading back what was written: the parser returns every well-formed
    value that [serialize_resp] wrote, and leaves exactly the bytes that
    followed it. *)
Theorem resp_roundtrip `{Layout} v rest : wf_resp v = true ->
  parse_resp (serialize_resp v ++ rest) = Ok (v, rest).
Proof. apply parse_resp_write. Qed.

Lemma resp_roundtrip_witness :
  let v := Array [SimpleString (bs "OK"); BulkString (Some [x0d; x0a; xff]); Integer (-7);
                  Array [BulkString None; Error (bs "ERR x")]] in
  wf_resp v = true /\ parse_resp (serialize_resp v ++ bs "+PONG") = Ok (v, bs "+PONG").
Proof. intros v. split; [by vm_compute | apply resp_roundtrip; by vm_compute]. Defined.

(** C2. However the network cuts the stream of requests into reads, the
    connection handles the same frames in the same order, writes the same
    bytes and is left with an empty buffer: no frame of at most 1 MiB is lost,
    split, merged or taken before it is complete. *)
Theorem frames_independent_of_chunks `{Layout} {S} (handle : RespValue -> S -> option (S * bytes))
    (vs : list RespValue) (chunks : list bytes) (s s' : S) (out : bytes) :
  forallb accepted vs = true ->
  concat chunks = concat (map serialize_resp vs) ->
  Forall (fun c => c <> []) chunks ->
  handle_all handle vs s = Some (s', out) ->
  reads handle chunks [] s = Ok (s', [], out).
Proof. intros Hw Hc Hne Hh. eapply reads_frames; [done..|]. apply begins_nil. Qed.

(** Two pipelined requests that arrive in three reads; the handler counts the
    frames and echoes them. *)
Lemma frames_independent_of_chunks_witness :
  let handle := fun v (n : nat) => Some (S n, write_resp v) in
  let vs := [Array [BulkString (Some (bs "GET")); BulkString (Some (bs "k"))]; Integer 5] in
  let bytes := concat (map serialize_resp vs) in
  let chunks := [take 3 bytes; take 19 (drop 3 bytes); drop 22 bytes] in
  reads handle chunks [] 0%nat = Ok (2%nat, [], bytes).
Proof.
  intros handle vs b chunks. apply (frames_independent_of_chunks handle vs).
  - done.
  - done.
  - repeat constructor; discriminate.
  - done.
Defined.

(** C3. The parser terminates on every input, within fuel linear in its
    length, and a value it returns was read from a non-empty prefix of the
    input: what is left is the rest of the input. *)
Theorem parse_resp_terminates `{Layout} buf :
  parse_resp_fuel (resp_fuel buf) buf = Some (parse_resp buf) /\
  match parse_resp buf with
  | Ok (v, rest) => exists used, buf = used ++ rest /\ (1 <= length used)%nat
  | _ => True
  end.
Proof.
  split; [apply parse_resp_total|]. destruct (parse_resp buf) as [[v rest]|?|] eqn:E; [|done..].
  by eapply parse_resp_consumes.
Qed.

(** C4. Whatever value a client sends, parsing it as a command does not
    panic: every index into the argument array is guarded. *)
Theorem parse_command_never_panics `{RespDebug} v : parse_command v <> Panic.
Proof. apply parse_command_safe. Qed.

(** The commands the client can send, with a TTL that is a [u32]. *)
Definition client_command (c : Command.t) : bool :=
  match c with
  | Command.Get k | Command.Delete k => (len k <=? isize_max)
  | Command.Set' k v None => (len k <=? isize_max) && (len v <=? isize_max)
  | Command.Set' k v (Some ttl) => (len k <=? isize_max) && (len v <=? isize_max) && in_u32 ttl
  | _ => false
  end.

Lemma client_command_wf `{Layout} c : client_command c = true -> wf_resp (command_to_resp c) = true.
Proof.
  pose proof sizeof_RespValue_small as Hsz. pose proof sizeof_RespValue_pos as Hpos.
  assert (Hcap : forall (l : list RespValue), (length l <= 5)%nat ->
    (sizeof_RespValue * len l <=? isize_max) = true).
  { intros l Hl. apply Z.leb_le. unfold len. widths. nia. }
  destruct c; try done; simpl; rewrite ?Hcap by (simpl; lia).
  - by intros ->.
  - destruct ttl_secs as [ttl|]; simpl; rewrite ?Hcap by (simpl; lia); rewrite !andb_true_iff.
    + intros [[-> ->] Ht]. pose proof (length_show_u32 ttl Ht).
      replace (len (show_int ttl) <=? isize_max) with true by (widths; lia). done.
    + by intros [-> ->].
  - by intros ->.
Qed.

(** The server decodes a request of the client to the command that was
    sent: framing, serialization and parsing compose to the identity. *)
Theorem client_request_roundtrip `{Layout, RespDebug} c rest : client_command c = true ->
  ('(v, rest') ← parse_resp (serialize_command c ++ rest); c' ← parse_command v; Ok (c', rest'))
  = Ok (c, rest).
Proof.
  intros Hc. unfold serialize_command.
  rewrite parse_resp_write by by apply client_command_wf. simpl.
  rewrite parse_command_to_resp; [done|].
  destruct c; try done. destruct ttl_secs; [|done]. simpl in Hc. by apply andb_true_iff in Hc as [_ Hc].
Qed.

Lemma client_request_roundtrip_witness :
  let c := Command.Set' (bs "k") [x00; x0d; x0a] (Some 60) in
  ('(v, rest) ← parse_resp (serialize_command c ++ bs "*1"); c' ← parse_command v; Ok (c', rest))
  = Ok (c, bs "*1").
Proof. intros c. apply client_request_roundtrip. by vm_compute. Defined.

(** Replies that are one frame: an error or a value that fits on the wire. *)
Definition framed_reply `{Layout} (r : Response.t) : bool :=
  match r with
  | Response.Raw _ => false
  | _ => wf_resp (Response.to_resp r)
  end.

(** What the client makes of a reply: a null reply reads as not found. *)
Definition client_view (r : Response.t) : Response.t :=
  match r with Response.Null => Response.NotFound | _ => r end.

(** The client reads the reply that the server sent, whatever follows it
    on the connection. *)
Theorem client_reply_roundtrip `{Layout} r rest : framed_reply r = true ->
  parse_response (serialize_response r ++ rest) = Ok (client_view r).
Proof.
  intros Hr. unfold parse_response.
  assert (Hs : serialize_response r = write_resp (Response.to_resp r)) by by destruct r.
  rewrite Hs, parse_resp_write by by destruct r. simpl.
  destruct r as [b| | |msg|n|items| |frames]; try done. simpl. do 2 f_equal.
  clear. induction items as [|b items IH]; [done|]. simpl. f_equal. exact IH.
Qed.

Lemma client_reply_roundtrip_witness :
  parse_response (serialize_response (Response.Array [bs "a"; []; [x0d; x0a]]) ++ bs "+OK")
  = Ok (Response.Array [bs "a"; []; [x0d; x0a]]).
Proof. apply (client_reply_roundtrip (Response.Array _)). by vm_compute. Defined.

(** The text of an error reply is not escaped: the reply to an unknown
    command whose name has a line break is two frames, the second one chosen
    by the client. *)
Theorem error_reply_is_split `{Layout, RespDebug} :
  let request := Array [BulkString (Some (bs "x" ++ crlf ++ bs "+OK"))] in
  exists msg, parse_command request = Err msg /\
    parse_resp (serialize_response (Response.Error (bs "ERR " ++ msg))) =
      Ok (Error (bs "ERR Unknown command: X"), bs "+OK" ++ crlf).
Proof. eexists. split; [by vm_compute|]. by vm_compute. Qed.
