(* ===== verification/StorageTheorems.v ===== *)
(** * StorageTheorems: what the storage guarantees

    Stated over any map of keys that satisfies [KeyMapLaws] and witnessed on
    the sharded map. *)

From S2P Require Import Prelude Text External Float64 BTree Values SortedSet SortedSetFacts.
From S2P Require Import Stream Keyspace ShardedMap Storage StorageTypes StorageFacts ListFacts.
From S2P Require Import SetFacts Command Apply ApplyFacts.
#[local] Open Scope Z_scope.

(** A database to evaluate on: the commands replayed from an empty one, at
    time 0. *)
Definition db (cs : list Command.t) : ShardedMap :=
  fold_left (fun m c => match apply_at (meeting (clocks_at 0 0) c) m with Ok m => m | _ => m end) cs new.

Lemma db_inv cs : inv (db cs).
Proof.
  unfold db. assert (Hi : inv new) by exact new_inv. revert Hi. generalize new as m.
  induction cs as [|c cs IH]; intros m Hm; simpl; [done|]. apply IH.
  set (e := meeting _ c). destruct (apply_at e m) as [m'| |] eqn:E; [|done..].
  apply (replay_inv [e] m); [done|]. simpl. by rewrite E.
Qed.

Section theorems.
Context `{KeyMapLaws M}.
Implicit Types m : M.

(** ** Strings and expiry *)

(** A key that was set reads back as the value until its time to live
    has passed and as missing afterwards, and no other key changes. *)
Theorem set_then_get now k v ttl m m' b now' j : inv m ->
  set now k v ttl m = (m', Ok b) ->
  get now' j m' =
    if decide (j = k) then
      if past now' (fmap (fun d => now + d) ttl) then None else Some v
    else get now' j m.
Proof.
  intros Hm [_ ->]%set_Ok. rewrite !get_live, entry_set_entry by done.
  case_decide; [|done]. unfold live. rewrite is_expired_past. cbn [expires_at_ref].
  by destruct (past now' _).
Qed.

(** [KEYS *], [DBSIZE] and [EXISTS] see the same keyspace: the live
    keys, each once, and their number. *)
Theorem keyspace_views_agree `{HashOrder} now m : inv m ->
  NoDup (keys now (bs "*") m) /\
  dbsize now m = len (keys now (bs "*") m) /\
  (forall k, k ∈ keys now (bs "*") m <-> is_Some (live now (entry k m))) /\
  (forall k, exists' now [k] m = if decide (k ∈ keys now (bs "*") m) then 1 else 0).
Proof.
  intros Hm. rewrite keys_star, dbsize_live. split; [by apply NoDup_live_entries|].
  split; [unfold len; by rewrite length_fmap|].
  assert (Hk : forall k, k ∈ (live_entries now m).*1 <-> is_Some (live now (entry k m))).
  { intros k. rewrite list_elem_of_fmap. split.
    - intros ([k' v] & -> & Hin). exists v. by apply elem_of_live_entries.
    - intros [v Hv]. exists (k, v). split; [done|]. by apply elem_of_live_entries. }
  split; [done|]. intros k. unfold exists'. rewrite filter_cons, filter_nil.
  assert (Hl : (match entry k m with Some v => negb (is_expired now v) | None => false end = true)
    <-> is_Some (live now (entry k m))).
  { unfold live. destruct (entry k m) as [v|]; [|by split; [|intros []]].
    destruct (is_expired now v); simpl; split; [done | by intros [? [=]] | by exists v | done]. }
  do 2 case_decide; try done; exfalso; naive_solver.
Qed.

(** C13. The life of an expiry: EXPIRE on a live key sets the deadline and
    keeps the value, PTTL counts the milliseconds left down to 0 and then
    reports the key as missing, PERSIST takes the deadline away for good. *)
Theorem expiry_lifecycle now k at' m v now' : inv m ->
  live now (entry k m) = Some v -> now' < at' ->
  let m1 := fst (set_expiry now k at' m) in
  live now' (entry k m1) = Some (expires_at_mut (Some at') v) /\
  pttl_millis now' k m1 = Some (as_millis_i64 (at' - now')) /\
  pttl_millis (at' + 1) k m1 = None /\
  forall now'', pttl_millis now'' k (fst (persist now' k m1)) = Some (-1).
Proof.
  intros Hm Hv Hn m1. assert (Hm1 : inv m1) by by apply with_entry_inv.
  assert (He : entry k m1 = Some (expires_at_mut (Some at') v)).
  { unfold m1. rewrite set_expiry_entry, decide_True, Hv by done. done. }
  assert (Hl : live now' (entry k m1) = Some (expires_at_mut (Some at') v)).
  { rewrite He. unfold live. autorewrite with ferric. simpl. by replace (at' <? now') with false by lia. }
  split; [done|]. rewrite !pttl_spec, Hl, expires_at_ref_mut, Z.max_r by lia. split; [done|]. split.
  - rewrite He. unfold live. autorewrite with ferric. simpl. by replace (at' <? at' + 1) with true by lia.
  - intros now''. rewrite pttl_spec, persist_entry, decide_True, Hl by done.
    unfold live. autorewrite with ferric. simpl. by rewrite expires_at_ref_mut.
Qed.

(** ** Counters *)

(** C20. INCRBY adds exactly: when the sum fits an [i64] it is returned and is
    the integer the key now holds; otherwise, and when the key holds no
    integer, there is an error and the database is unchanged. *)
Theorem incr_by_is_exact k d m : inv m -> in_i64 d = true ->
  match counter k m with
  | Ok c =>
      if in_i64 (c + d) then
        snd (incr_by k d m) = Ok (c + d) /\ counter k (fst (incr_by k d m)) = Ok (c + d)
      else is_ok (snd (incr_by k d m)) = false /\ fst (incr_by k d m) = m
  | r => snd (incr_by k d m) = r /\ fst (incr_by k d m) = m
  end.
Proof. apply incr_by_spec. Qed.

(** INCR does not check: at the largest integer it answers, and stores,
    the smallest one, where INCRBY 1 reports an overflow. *)
Theorem incr_wraps_around k m : inv m -> counter k m = Ok i64_max ->
  snd (incr k m) = Ok i64_min /\ counter k (fst (incr k m)) = Ok i64_min /\
  snd (incr_by k 1 m) = Err (bs "ERR increment or decrement would overflow").
Proof.
  intros Hm Hc. pose proof (incr_spec k m Hm) as Hi. rewrite Hc in Hi.
  destruct Hi as [H1 H2]. split; [done|]. split; [done|].
  unfold counter in Hc. unfold incr_by. rewrite with_entry_result.
  destruct (entry k m) as [[b ?| | | | |]|]; try done.
  destruct (parse_stored_i64 b) as [c|]; [|done]. simpl in Hc. by injection Hc as ->.
Qed.

(** ** Lists *)

(** C16. A list key is a double-ended queue: any sequence of LPUSH, RPUSH,
    LPOP and RPOP replies what a deque replies, leaves its elements under the
    key and leaves the other keys alone. *)
Theorem list_refines_deque k ops m q : inv m -> items_at k m = Some q ->
  items_at k (fst (storage_run k ops m)) = Some (fst (deque_run ops q)) /\
  snd (storage_run k ops m) = map Ok (snd (deque_run ops q)) /\
  forall j, j <> k -> entry j (fst (storage_run k ops m)) = entry j m.
Proof. apply storage_run_spec. Qed.

(** LRANGE returns the elements between its indices, negative ones
    counted from the end, when the start is inside the list. *)
Theorem lrange_in_bounds now k start stop m l :
  entry k m = Some (CList l) -> ListValue.is_expired now l = false ->
  start < len (ListValue.items l) -> stop < i64_max ->
  lrange now k start stop m = Ok (range_spec start stop (ListValue.items l)).
Proof.
  intros He Hx Hs Ht. unfold lrange, read_list. rewrite He, Hx. simpl.
  by rewrite get_range_in_bounds by auto.
Qed.

(** Past the end the start index is clamped to the last element: LRANGE
    and LINDEX return it where there is nothing to return. *)
Theorem lrange_past_end now k start m l x :
  entry k m = Some (CList l) -> ListValue.is_expired now l = false ->
  last (ListValue.items l) = Some x ->
  len (ListValue.items l) <= start < i64_max ->
  lrange now k start start m = Ok [x] /\ lindex now k start m = Ok (Some x) /\
  range_spec start start (ListValue.items l) = [].
Proof.
  intros He Hx Hl Hs. unfold lrange, lindex, read_list. rewrite He, Hx. simpl.
  rewrite (get_range_past_end start start l x) by (done || lia).
  split; [done|]. split; [done|]. unfold range_spec. pose proof (len_nonneg (ListValue.items l)).
  replace (start <? 0) with false by lia. rewrite drop_ge, take_nil; [done|]. unfold len in *. lia.
Qed.

(** LREM removes occurrences of the value only, as many as it was asked
    for, from the end it was asked for, and reports how many. *)
Theorem lrem_removes_occurrences now k count v m l : inv m ->
  entry k m = Some (CList l) -> ListValue.is_expired now l = false -> in_i64 count = true ->
  exists l' removed, snd (lrem now k count v m) = Ok removed /\
    items_at k (fst (lrem now k count v m)) = Some l' /\
    lrem_post count v (ListValue.items l) l' removed.
Proof. apply lrem_live. Qed.

(** LTRIM keeps the elements between its indices; but at the largest
    stop index the end of the range wraps around and the process aborts. *)
Theorem ltrim_keeps_range now k start stop m l : inv m ->
  entry k m = Some (CList l) -> ListValue.is_expired now l = false ->
  len (ListValue.items l) <= isize_max - 1 -> stop <= i64_max ->
  if stop =? i64_max then snd (ltrim now k start stop m) = Panic
  else snd (ltrim now k start stop m) = Ok tt /\
    items_at k (fst (ltrim now k start stop m)) = Some (range_spec start stop (ListValue.items l)).
Proof.
  intros Hm He Hx Hl Hs. destruct (stop =? i64_max) eqn:E.
  - apply Z.eqb_eq in E as ->. by eapply ltrim_wraps.
  - apply ltrim_live; [done..| |]; lia.
Qed.

(** RPOPLPUSH onto a key of another type reports an error after it has
    removed the element: the element is lost. *)
Theorem rpoplpush_loses_element now src dst m l x v : inv m -> src <> dst ->
  entry src m = Some (CList l) -> ListValue.is_expired now l = false ->
  last (ListValue.items l) = Some x ->
  entry dst m = Some v -> (forall l', v <> CList l') ->
  snd (rpoplpush now src dst m) = Err WRONGTYPE /\
  items_at src (fst (rpoplpush now src dst m)) =
    Some (take (pred (length (ListValue.items l))) (ListValue.items l)) /\
  entry dst (fst (rpoplpush now src dst m)) = Some v.
Proof.
  intros Hm Hne Hs Hx Hl Hd Hv. unfold rpoplpush, rpoplpush_pop, with_entry.
  rewrite Hs. simpl. rewrite Hx. simpl. rewrite pop_right_spec, Hl.
  unfold rpoplpush_push, with_entry. rewrite entry_set_entry, decide_False by done. rewrite Hd.
  destruct v as [| |l'| | |]; try by (unfold items_at; simpl; rewrite !entry_set_entry by auto with ferric;
    rewrite (decide_False (P := src = dst)), !decide_True by done).
  by destruct (Hv l').
Qed.

(** ** Sets *)

(** C25. SINTER, SUNION and SDIFF are set algebra: over keys that hold sets or
    nothing (a missing key and an expired set count as the empty set), they
    answer the intersection, the union and the difference, each member once. *)
Theorem set_commands_are_set_algebra `{HashOrder} now k ks m X Xs :
  set_at now k m = Ok X -> collect (fun j => set_at now j m) ks = Ok Xs ->
  exists i u d,
    sinter now (k :: ks) m = Ok i /\ NoDup i /\
    sunion now (k :: ks) m = Ok u /\ NoDup u /\
    sdiff now (k :: ks) m = Ok d /\ NoDup d /\
    (forall x, x ∈ i <-> x ∈ X /\ Forall (fun Y : gset bytes => x ∈ Y) Xs) /\
    list_to_set u = X ∪ ⋃ Xs /\
    list_to_set d = X ∖ ⋃ Xs.
Proof.
  intros HX HXs. destruct (sunion_loop_spec now (k :: ks) SetValue.new m (X :: Xs)) as (u & Hu & Hu').
  { simpl. by rewrite HX; simpl; rewrite HXs. }
  assert (HU : sunion now (k :: ks) m = Ok (SetValue.get_all u)) by (unfold sunion; by rewrite Hu).
  assert (Hset : list_to_set (SetValue.get_all u) = X ∪ ⋃ Xs).
  { rewrite get_all_members, Hu'. simpl. set_solver. }
  pose proof (snapshot_set_at now k m) as Hk.
  rewrite HU. clear HU Hu Hu'. unfold sinter, sdiff. simpl.
  destruct (snapshot_set now k m) as [[s|]| |]; simpl; [| |congruence|done].
  - assert (X = SetValue.members s) as -> by congruence.
    destruct (sinter_loop_spec now ks s m Xs HXs) as (i & Hi & Hn & Hi').
    destruct (sdiff_loop_spec now ks s m Xs HXs) as (d & Hd & Hd').
    exists i, (SetValue.get_all u), (SetValue.get_all d). rewrite Hd. simpl.
    repeat (split; [first [done | apply NoDup_hs_iter]|]). by rewrite get_all_members.
  - assert (X = ∅) as -> by congruence. exists [], (SetValue.get_all u), [].
    repeat (split; [first [done | apply NoDup_hs_iter | apply NoDup_nil_2]|]).
    split; [set_solver|]. split; [done|]. set_solver.
Qed.

(** ** Sorted sets *)

(** C23. ZRANGE returns a slice, by position, of one list that holds every
    member once, with its score, in score order. *)
Theorem zrange_is_sorted_slice `{HashOrder} now k start stop m z :
  entry k m = Some (CSortedSet z) -> SortedSetValue.is_expired now z = false -> zset_wf z ->
  SortedSetValue.len z <= isize_max -> in_i64 start = true -> in_i64 stop = true ->
  let n := SortedSetValue.len z in
  let s := Z.max 0 (if start <? 0 then n + start else start) in
  let e := Z.max 0 (if stop <? 0 then n + stop else stop) in
  exists l, l.*1 ≡ₚ elements (dom (SortedSetValue.member_scores z)) /\
    StronglySorted score_le l /\
    (forall x r, (x, r) ∈ l -> exists r', SortedSetValue.member_scores z !! x = Some r' /\ ocmp r r' = Eq) /\
    zrange now k start stop true m =
      Ok (map (fun x => (x.1, Some x.2)) (take (Z.to_nat (e + 1 - s)) (drop (Z.to_nat s) l))).
Proof.
  intros He Hx Hwf Hlen Hs Ht n s e. exists (SortedSetValue.flat z).
  split; [by apply flat_members|]. split; [by apply flat_sorted|].
  split; [intros x r; by apply flat_score|].
  unfold zrange, read_zset. rewrite He, Hx. simpl.
  assert (0 <= n) by (unfold n, SortedSetValue.len; lia).
  rewrite !zindex_spec by (done || unfold n in *; lia). fold n. fold s. fold e.
  by rewrite get_range_slice by (unfold s, e; lia).
Qed.

(** ZRANK is the position of the member when all members are sorted by
    score and, at equal scores, by the bytes of the member. *)
Theorem zrank_is_position `{HashOrder} now k x m z :
  entry k m = Some (CSortedSet z) -> SortedSetValue.is_expired now z = false -> zset_wf z ->
  exists l, l ≡ₚ elements (dom (SortedSetValue.member_scores z)) /\
    StronglySorted (rank_le z) l /\
    match zrank now k x m with
    | Ok (Some r) => l !! Z.to_nat r = Some x /\ 0 <= r
    | Ok None => x ∉ l
    | _ => False
    end.
Proof.
  intros He Hx Hwf. exists (ranked (SortedSetValue.members_by_score z)).
  split; [by apply ranked_perm|]. split; [by apply ranked_sorted|].
  unfold zrank, read_zset. rewrite He, Hx. simpl.
  destruct (SortedSetValue.member_scores z !! x) as [s|] eqn:E.
  - destruct (get_rank_spec x z Hwf) as (j & -> & Hj); [by rewrite E|].
    rewrite Nat2Z.id. split; [done|lia].
  - unfold SortedSetValue.get_rank. rewrite E. rewrite ranked_perm by done.
    rewrite elem_of_elements, elem_of_dom, E. by intros [].
Qed.

(** ZPOPMIN takes the requested number of members, or all of them, each
    with a score not above that of any member left (ZPOPMAX: not below); the
    others stay, and the sorted set stays well formed. *)
Theorem zpop_takes_extremes `{HashOrder, Layout} now k count m z : inv m ->
  entry k m = Some (CSortedSet z) -> SortedSetValue.is_expired now z = false -> zset_wf z ->
  with_capacity sizeof_Bytes_f64 count = Ok tt ->
  exists lo z1 hi z2,
    snd (zpop_min now k count m) = Ok lo /\
    entry k (fst (zpop_min now k count m)) = Some (CSortedSet z1) /\
    snd (zpop_max now k count m) = Ok hi /\
    entry k (fst (zpop_max now k count m)) = Some (CSortedSet z2) /\
    pops not_above z lo z1 /\ pops not_below z hi z2 /\ zset_wf z1 /\ zset_wf z2 /\
    len lo = Z.min (SortedSetValue.len z) (Z.max 0 count) /\ len hi = len lo /\
    NoDup lo.*1 /\ NoDup hi.*1.
Proof.
  intros Hm He Hx Hwf Hc.
  destruct (pop_min_spec count z Hwf Hc) as (lo & Hlo & Hp1 & Hl1).
  destruct (pop_max_spec count z Hwf Hc) as (hi & Hhi & Hp2 & Hl2).
  exists lo, (fst (SortedSetValue.pop_min count z)), hi, (fst (SortedSetValue.pop_max count z)).
  unfold zpop_min, zpop_max. rewrite !with_entry_result, !with_entry_entry, !decide_True by done.
  rewrite !He, !Hx. simpl.
  destruct (SortedSetValue.pop_min count z), (SortedSetValue.pop_max count z). simpl in *.
  repeat (split; [done|]). split; [by eapply pops_wf|]. split; [by eapply pops_wf|].
  split; [done|]. split; [lia|]. split; by eapply pops_NoDup.
Qed.

(** C26. ZRANGEBYSCORE returns exactly the members whose score lies between
    the bounds, once each and in score order; but bounds in the wrong order
    abort the process. *)
Theorem zrange_by_score_is_exact `{HashOrder} now k lo hi m z :
  entry k m = Some (CSortedSet z) -> SortedSetValue.is_expired now z = false -> zset_wf z ->
  is_nan lo = false -> is_nan hi = false ->
  if decide (ocmp lo hi = Gt) then zrange_by_score now k lo hi true m = Panic /\ zcount now k lo hi m = Panic
  else exists l, zrange_by_score now k lo hi true m = Ok (map (fun x => (x.1, Some x.2)) l) /\
    zcount now k lo hi m = Ok (len l) /\ StronglySorted score_le l /\ NoDup l.*1 /\
    forall x, x ∈ l.*1 <-> exists s, SortedSetValue.member_scores z !! x = Some s /\
      ocmp lo s <> Gt /\ ocmp s hi <> Gt.
Proof.
  intros He Hx Hwf Hlo Hhi. unfold zrange_by_score, zcount, read_zset. rewrite He, Hx. simpl.
  assert (Hf : SortedSetValue.get_range_by_score lo hi false z =
    (l ← SortedSetValue.get_range_by_score lo hi true z; Ok (map (fun x => (x.1, None)) l))).
  { unfold SortedSetValue.get_range_by_score. destruct (bt_range _ _ _ _); simpl; [|done..].
    by rewrite map_map. }
  pose proof (get_range_by_score_spec lo hi true z Hwf Hlo Hhi) as Hr. case_decide.
  - by rewrite Hf, Hr.
  - destruct Hr as (l & Hl & Hs & Hn & Hm'). exists l. rewrite Hf, Hl. simpl.
    split; [done|]. split; [|done]. unfold len. by rewrite !length_map.
Qed.

(** ** Streams *)

(** C27. A stream is an append-only log: an XADD to a live stream that is
    accepted, with an explicit id or, while the last sequence number is below
    2^64 - 1, with an automatic one, gets an id above every id of the stream,
    appends its entry and changes no other; a reader at the previous last id then
    reads that entry and nothing else; an explicit id that is not above the last
    one is refused and changes nothing.  (At the last sequence number the
    automatic id wraps.) *)
Theorem stream_is_append_only now wall k req fs m s : inv m ->
  entry k m = Some (CStream s) -> StreamValue.is_expired now s = false -> stream_wf s ->
  match req with
  | Some id => True
  | None => 0 <= StreamId.seq (StreamValue.last_id s) < u64_max
  end ->
  match snd (xadd now wall k req fs m) with
  | Ok id =>
      Forall (fun e => StreamId.cmp id e.1 = Gt) (StreamValue.entries s) /\
      (forall r, req = Some r -> id = r) /\
      xread now k (StreamValue.last_id s) None (fst (xadd now wall k req fs m)) = Ok [(id, fs)] /\
      xread now k StreamId.MIN None (fst (xadd now wall k req fs m)) =
        Ok (filter (fun e => StreamId.leb e.1 StreamId.MIN = false)
              (StreamValue.entries s ++ [(id, fs)]))
  | Err _ => fst (xadd now wall k req fs m) = m /\
      exists id, req = Some id /\ StreamId.cmp id (StreamValue.last_id s) <> Gt
  | Panic => False
  end.
Proof.
  intros Hm He Hx Hwf Hreq. unfold xread, read_stream.
  assert (Hent : entry k (fst (xadd now wall k req fs m)) =
    Some (CStream (fst (StreamValue.add wall req fs s))) /\
    snd (xadd now wall k req fs m) = snd (StreamValue.add wall req fs s)).
  { unfold xadd. rewrite with_entry_entry, with_entry_result, decide_True, He by done. simpl.
    rewrite Hx. simpl. by destruct (StreamValue.add wall req fs s). }
  destruct Hent as [-> ->].
  destruct (decide (fresh wall req s)) as [Hf|Hf].
  - destruct (add_fresh wall req fs s Hwf Hf) as (id & Hid & Hr & Hadd).
    destruct (read_after_add wall req fs s None Hwf Hf) as (id' & Hid' & Hread).
    rewrite Hadd in *. simpl in *. injection Hid' as <-.
    unfold StreamValue.is_expired in *. simpl. rewrite Hx. simpl.
    split; [by apply gt_last_gt_all|]. split; [done|]. rewrite Hread. split; [done|].
    by rewrite read_after_spec.
  - destruct req as [id|]; [|by destruct Hf]. simpl in Hf. rewrite add_rejected by done. simpl.
    split; [|by exists id]. unfold xadd. rewrite with_entry_same; [done|done|].
    rewrite He. simpl. rewrite Hx. simpl. by rewrite add_rejected.
Qed.
End theorems.

(** ** Witnesses, on the sharded map *)

Import Defaults.

Lemma set_then_get_witness :
  let m' := fst (set 0 (bs "k") (bs "v") (Some 10) (db [])) in
  get 10 (bs "k") m' = Some (bs "v").
Proof.
  intros m'. rewrite (set_then_get 0 (bs "k") (bs "v") (Some 10) (db []) m' true 10 (bs "k")).
  - by vm_compute.
  - apply db_inv.
  - done.
Defined.

Lemma keyspace_views_agree_witness :
  let m := db [Command.Set' (bs "a") (bs "1") (Some 1); Command.LPush (bs "b") [bs "x"]] in
  len (keys (2 * ns_per_sec) (bs "*") m) = 1.
Proof.
  intros m. destruct (keyspace_views_agree (2 * ns_per_sec) m (db_inv _)) as (_ & <- & _).
  by vm_compute.
Defined.

Lemma expiry_lifecycle_witness :
  let m := db [Command.SAdd (bs "k") [bs "x"]] in
  pttl_millis 0 (bs "k") (fst (set_expiry 0 (bs "k") (5 * ns_per_sec) m)) = Some 5000.
Proof.
  intros m. destruct (expiry_lifecycle 0 (bs "k") (5 * ns_per_sec) m (CSet (SetValue.mk {[bs "x"]} None)) 0) as (_ & -> & _).
  - apply db_inv.
  - by vm_compute.
  - by vm_compute.
  - by vm_compute.
Defined.

Lemma incr_by_is_exact_witness :
  let m := db [Command.Set' (bs "n") (bs "41") None] in
  counter (bs "n") m = Ok 41 /\ snd (incr_by (bs "n") 1 m) = Ok 42.
Proof.
  intros m. pose proof (incr_by_is_exact (bs "n") 1 m (db_inv _) eq_refl) as Hi.
  assert (Hc : counter (bs "n") m = Ok 41) by by vm_compute.
  rewrite Hc in Hi. split; [done|]. exact (proj1 Hi).
Defined.

Lemma incr_wraps_around_witness :
  let m := db [Command.Set' (bs "n") (bs "9223372036854775807") None] in
  snd (incr (bs "n") m) = Ok i64_min.
Proof. intros m. apply (incr_wraps_around (bs "n") m (db_inv _)). by vm_compute. Defined.

Lemma list_refines_deque_witness :
  let ops := [PushRight [bs "a"; bs "b"]; PushLeft [bs "c"]; PopRight] in
  items_at (bs "l") (fst (storage_run (bs "l") ops (db []))) = Some [bs "c"; bs "a"].
Proof.
  intros ops. by destruct (list_refines_deque (bs "l") ops (db []) [] (db_inv _) eq_refl) as (-> & _).
Defined.

Lemma lrange_in_bounds_witness :
  let m := db [Command.RPush (bs "l") [bs "a"; bs "b"; bs "c"]] in
  lrange 0 (bs "l") (-2) (-1) m = Ok [bs "b"; bs "c"].
Proof.
  intros m. rewrite (lrange_in_bounds 0 (bs "l") (-2) (-1) m
    (ListValue.mk [bs "a"; bs "b"; bs "c"] None)); by vm_compute.
Defined.

Lemma lrange_past_end_witness :
  let m := db [Command.RPush (bs "l") [bs "a"; bs "b"; bs "c"]] in
  lrange 0 (bs "l") 10 10 m = Ok [bs "c"].
Proof.
  intros m. apply (lrange_past_end 0 (bs "l") 10 m
    (ListValue.mk [bs "a"; bs "b"; bs "c"] None) (bs "c")); by vm_compute.
Defined.

Lemma lrem_removes_occurrences_witness :
  let m := db [Command.RPush (bs "l") [bs "x"; bs "a"; bs "x"]] in
  exists l' r, snd (lrem 0 (bs "l") (-1) (bs "x") m) = Ok r /\
    lrem_post (-1) (bs "x") [bs "x"; bs "a"; bs "x"] l' r.
Proof.
  intros m. destruct (lrem_removes_occurrences 0 (bs "l") (-1) (bs "x") m
    (ListValue.mk [bs "x"; bs "a"; bs "x"] None)) as (l' & r & H1 & _ & H3).
  - apply db_inv.
  - by vm_compute.
  - by vm_compute.
  - by vm_compute.
  - exists l', r. exact (conj H1 H3).
Defined.

Lemma ltrim_keeps_range_witness :
  let m := db [Command.RPush (bs "l") [bs "a"; bs "b"; bs "c"]] in
  snd (ltrim 0 (bs "l") 1 i64_max m) = Panic /\
  items_at (bs "l") (fst (ltrim 0 (bs "l") 1 (-1) m)) = Some [bs "b"; bs "c"].
Proof.
  intros m.
  assert (He : entry (bs "l") m = Some (CList (ListValue.mk [bs "a"; bs "b"; bs "c"] None)))
    by by vm_compute.
  split.
  - by apply (ltrim_keeps_range 0 (bs "l") 1 i64_max m _ (db_inv _) He).
  - by apply (ltrim_keeps_range 0 (bs "l") 1 (-1) m _ (db_inv _) He).
Defined.

Lemma rpoplpush_loses_element_witness :
  let m := db [Command.RPush (bs "l") [bs "a"; bs "b"]; Command.Set' (bs "s") (bs "1") None] in
  snd (rpoplpush 0 (bs "l") (bs "s") m) = Err WRONGTYPE /\
  items_at (bs "l") (fst (rpoplpush 0 (bs "l") (bs "s") m)) = Some [bs "a"].
Proof.
  intros m. destruct (rpoplpush_loses_element 0 (bs "l") (bs "s") m
    (ListValue.mk [bs "a"; bs "b"] None) (bs "b") (CString (bs "1") None)) as (H1 & H2 & _).
  - apply db_inv.
  - done.
  - by vm_compute.
  - by vm_compute.
  - by vm_compute.
  - by vm_compute.
  - intros l'. discriminate.
  - exact (conj H1 H2).
Defined.

Lemma set_commands_are_set_algebra_witness :
  let m := db [Command.SAdd (bs "a") [bs "1"; bs "2"]; Command.SAdd (bs "b") [bs "2"; bs "3"]] in
  exists i, sinter 0 [bs "a"; bs "b"] m = Ok i /\ forall x, x ∈ i <-> x = bs "2".
Proof.
  intros m. destruct (set_commands_are_set_algebra 0 (bs "a") [bs "b"] m
    {[bs "1"; bs "2"]} [{[bs "2"; bs "3"]}]) as (i & u & d & Hi & _ & _ & _ & _ & _ & Hx & _).
  - by refine (bool_decide_unpack _ _); vm_compute.
  - by refine (bool_decide_unpack _ _); vm_compute.
  - exists i. split; [exact Hi|]. intros x. rewrite Hx, Forall_singleton.
    rewrite !elem_of_union, !elem_of_singleton. split; [|intros ->; auto].
    intros [[->| ->] [E|E]]; [discriminate E | discriminate E | done | discriminate E].
Defined.

(** A sorted set of two members, [b] before [a]. *)
Definition zset_ba : SortedSetValue.t :=
  add_members [(f64_of_Z 2, bs "a"); (f64_of_Z 1, bs "b")] SortedSetValue.new.
Definition zset_db : ShardedMap :=
  db [Command.ZAdd (bs "z") [(f64_of_Z 2, bs "a"); (f64_of_Z 1, bs "b")]].

Lemma zset_ba_wf : zset_wf zset_ba.
Proof. apply add_members_wf; [repeat constructor | apply zset_wf_new]. Qed.

Lemma zset_db_entry : entry (bs "z") zset_db = Some (CSortedSet zset_ba).
Proof. by vm_compute. Qed.

Lemma zrange_is_sorted_slice_witness :
  exists l, zrange 0 (bs "z") 0 (-1) true zset_db = Ok (map (fun x => (x.1, Some x.2)) (take 2 l)) /\
    StronglySorted score_le l.
Proof.
  destruct (zrange_is_sorted_slice 0 (bs "z") 0 (-1) zset_db zset_ba zset_db_entry eq_refl zset_ba_wf)
    as (l & _ & Hs & _ & Hr).
  - by vm_compute.
  - done.
  - done.
  - exists l. split; [exact Hr | exact Hs].
Defined.

Lemma zrank_is_position_witness :
  exists l, StronglySorted (rank_le zset_ba) l /\
    zrank 0 (bs "z") (bs "a") zset_db = Ok (Some 1) /\ l !! 1%nat = Some (bs "a").
Proof.
  destruct (zrank_is_position 0 (bs "z") (bs "a") zset_db zset_ba zset_db_entry eq_refl zset_ba_wf)
    as (l & _ & Hs & Hr).
  assert (Hz : zrank 0 (bs "z") (bs "a") zset_db = Ok (Some 1)) by by vm_compute.
  rewrite Hz in Hr. exists l. split; [exact Hs|]. split; [exact Hz | apply Hr].
Defined.

Lemma zpop_takes_extremes_witness :
  exists lo, snd (zpop_min 0 (bs "z") 1 zset_db) = Ok lo /\ len lo = 1.
Proof.
  destruct (zpop_takes_extremes 0 (bs "z") 1 zset_db zset_ba (db_inv _) zset_db_entry eq_refl
    zset_ba_wf) as (lo & z1 & hi & z2 & Hlo & _ & _ & _ & _ & _ & _ & _ & Hlen & _).
  - done.
  - exists lo. split; [exact Hlo|]. by rewrite Hlen; vm_compute.
Defined.

Lemma zrange_by_score_is_exact_witness :
  zrange_by_score 0 (bs "z") (f64_of_Z 2) (f64_of_Z 1) true zset_db = Panic /\
  exists l, zrange_by_score 0 (bs "z") (f64_of_Z 0) (f64_of_Z 1) true zset_db =
    Ok (map (fun x => (x.1, Some x.2)) l) /\ NoDup l.*1.
Proof.
  split.
  - pose proof (zrange_by_score_is_exact 0 (bs "z") (f64_of_Z 2) (f64_of_Z 1) zset_db zset_ba
      zset_db_entry eq_refl zset_ba_wf eq_refl eq_refl) as Hr.
    rewrite decide_True in Hr by done. exact (proj1 Hr).
  - pose proof (zrange_by_score_is_exact 0 (bs "z") (f64_of_Z 0) (f64_of_Z 1) zset_db zset_ba
      zset_db_entry eq_refl zset_ba_wf eq_refl eq_refl) as Hr.
    rewrite decide_False in Hr by done. destruct Hr as (l & Hl & _ & _ & Hn & _). exists l. exact (conj Hl Hn).
Defined.

Lemma stream_is_append_only_witness :
  let m := db [Command.XAdd (bs "s") (Some (bs "5-1")) [(bs "f", bs "v")]] in
  exists id, snd (xadd 0 3 (bs "s") None [(bs "g", bs "w")] m) = Ok id /\
    xread 0 (bs "s") (StreamId.mk 5 1) None (fst (xadd 0 3 (bs "s") None [(bs "g", bs "w")] m)) =
      Ok [(id, [(bs "g", bs "w")])].
Proof.
  intros m. set (s := StreamValue.mk [(StreamId.mk 5 1, [(bs "f", bs "v")])] (StreamId.mk 5 1) None).
  assert (Hs : stream_wf s).
  { apply (stream_add_wf 0 (Some (StreamId.mk 5 1)) [(bs "f", bs "v")] StreamValue.new stream_wf_new).
    by vm_compute. }
  pose proof (stream_is_append_only 0 3 (bs "s") None [(bs "g", bs "w")] m s (db_inv _)
    ltac:(by vm_compute) eq_refl Hs ltac:(by vm_compute)) as Hx.
  assert (Hid : snd (xadd 0 3 (bs "s") None [(bs "g", bs "w")] m) = Ok (StreamId.mk 5 2))
    by by vm_compute.
  rewrite Hid in Hx. exists (StreamId.mk 5 2). split; [exact Hid | apply Hx].
Defined.
