(* ===== verification/ReplayTheorems.v ===== *)
(** * ReplayTheorems: what replaying a log of commands guarantees

    [replay] is the loop that log recovery and a replica run over
    [apply_write_command]. *)

From S2P Require Import Prelude Text External Float64 BTree Values SortedSet SortedSetFacts.
From S2P Require Import Stream Keyspace ShardedMap Storage StorageTypes StorageFacts ListFacts.
From S2P Require Import SetFacts Command Apply ApplyFacts StorageTheorems.
#[local] Open Scope Z_scope.

Section replay.
Context `{HashOrder, Rng, Layout}.

(** C8. Sharding is transparent: replaying any log into the 64 shards, from
    empty, gives the database that replaying it into a single table gives, for
    every hash function, and panics exactly when that does; every key is in
    the shard of its hash. *)
Theorem sharding_is_transparent `{Xxh3} log :
  match replay log new with
  | Ok m => sharded_inv m /\ replay log (∅ : table) = Ok (sharded_abs m) /\
      forall k, entry k m = sharded_abs m !! k
  | Err _ => False
  | Panic => replay log (∅ : table) = Panic
  end.
Proof.
  pose proof (replay_sim log new new_inv) as Hs. rewrite abs_new in Hs.
  destruct (replay log new) as [m|e|]; destruct (replay log ∅); try done.
  destruct Hs as [Hi <-]. split; [done|]. split; [done|]. intros k. exact (entry_abs k m Hi).
Qed.

(** C9. Replay keeps the order of sorted sets and streams: starting from
    well-formed values, every command whose scores are numbers and whose
    automatic ids have not run out leaves well-formed values under all keys. *)
Theorem replay_keeps_values_ordered `{KeyMapLaws M} now wall c (m m' : M) :
  inv m -> store_wf m -> orderly c m -> apply_write_command now wall c m = Ok m' ->
  inv m' /\ store_wf m'.
Proof. apply apply_wf. Qed.

(** ** Types *)

Inductive kind := KString | KHash | KList | KSet | KSortedSet | KStream.
#[global] Instance kind_eq_dec : EqDecision kind.
Proof. solve_decision. Defined.

Definition kind_of (v : CacheValue) : kind :=
  match v with
  | CString _ _ => KString
  | CHash _ => KHash
  | CList _ => KList
  | CSet _ => KSet
  | CSortedSet _ => KSortedSet
  | CStream _ => KStream
  end.

(** The key a typed write command changes and the type it expects there. *)
Definition expects (c : Command.t) : option (bytes * kind) :=
  match c with
  | Command.Incr k | Command.Decr k | Command.Append k _
  | Command.IncrBy k _ | Command.DecrBy k _ | Command.IncrByFloat k _ => Some (k, KString)
  | Command.HSet k _ _ | Command.HDel k _ | Command.HSetNx k _ _ | Command.HIncrBy k _ _
  | Command.HMSet k _ => Some (k, KHash)
  | Command.LPush k _ | Command.RPush k _ | Command.LPop k | Command.RPop k
  | Command.LSet k _ _ | Command.LRem k _ _ | Command.LTrim k _ _ => Some (k, KList)
  | Command.SAdd k _ | Command.SRem k _ | Command.SPop k _ => Some (k, KSet)
  | Command.ZAdd k _ | Command.ZRem k _ | Command.ZIncrBy k _ _
  | Command.ZPopMin k _ | Command.ZPopMax k _ => Some (k, KSortedSet)
  | Command.XAdd k _ _ => Some (k, KStream)
  | _ => None
  end.

Section types.
Context `{KeyMapLaws M}.

Lemma dropping_same {A} k (f : option CacheValue -> option CacheValue * res A) (m : M) :
  inv m -> fst (f (entry k m)) = entry k m -> snd (f (entry k m)) <> Panic ->
  dropping (with_entry k f m) = Ok m.
Proof.
  intros Hm Hf Hs. pose proof (with_entry_same k f m Hm Hf) as Hw.
  pose proof (with_entry_result k f m) as Hr. destruct (with_entry k f m) as [m1 r]. simpl in *. subst.
  by destruct (snd (f (entry k m))).
Qed.

Lemma hmset_same k pairs (m : M) v : inv m -> entry k m = Some v -> kind_of v <> KHash ->
  hmset k pairs m = Ok m.
Proof.
  intros Hm He Hk. induction pairs as [|[f w] pairs IH]; cbn [hmset]; [done|].
  assert (Hs : dropping (hset k f w m) = Ok m)
    by (apply dropping_same; [done|..]; rewrite He; by destruct v).
  rewrite Hs. exact IH.
Qed.

(** A typed write command on a key of another type changes nothing at
    all in the database, and does not panic. *)
Theorem wrong_type_changes_nothing now wall c k kd (m : M) v : inv m ->
  expects c = Some (k, kd) -> entry k m = Some v -> kind_of v <> kd ->
  apply_write_command now wall c m = Ok m.
Proof.
  intros Hm Hc He Hk.
  destruct c; try discriminate Hc; injection Hc as <- <-; cbn [apply_write_command];
    first [by apply (hmset_same _ _ _ v)
          | apply dropping_same; [done | rewrite He; by destruct v | rewrite He; by destruct v]].
Qed.
End types.

(** A command that is not logged as a write is not one: applying it
    leaves the database as it is. *)
Theorem reads_are_not_applied `{KeyMap M} now wall c (m : M) :
  is_write_command c = false -> apply_write_command now wall c m = Ok m.
Proof. by destruct c. Qed.
End replay.

(** ** Witnesses *)

Import Defaults.

Lemma replay_keeps_values_ordered_witness : inv zset_db /\ store_wf zset_db.
Proof.
  apply (replay_keeps_values_ordered 0 0
    (Command.ZAdd (bs "z") [(f64_of_Z 2, bs "a"); (f64_of_Z 1, bs "b")]) new).
  - exact new_inv.
  - intros k. by rewrite entry_new.
  - repeat constructor.
  - reflexivity.
Defined.

Lemma wrong_type_changes_nothing_witness :
  let m := db [Command.Set' (bs "s") (bs "v") None] in
  apply_write_command 7 7 (Command.LPush (bs "s") [bs "x"]) m = Ok m.
Proof.
  intros m. apply (wrong_type_changes_nothing 7 7 _ (bs "s") KList m (CString (bs "v") None)).
  - apply db_inv.
  - done.
  - by vm_compute.
  - done.
Defined.

Lemma reads_are_not_applied_witness :
  let m := db [Command.Set' (bs "s") (bs "v") None] in
  apply_write_command 7 7 (Command.Get (bs "s")) m = Ok m.
Proof. intros m. by apply reads_are_not_applied. Defined.
