(* ===== verification/ServerTheorems.v ===== *)
(** * ServerTheorems: what the server guarantees

    Stated over any map of keys that satisfies [KeyMapLaws] and over all the
    crates' parameters; the witnesses run a server on the sharded map. *)

From S2P Require Import Prelude Text External Float64 Values SortedSet Stream Keyspace Storage.
From S2P Require Import StorageTypes ShardedMap Resp Command Apply ApplyFacts ReplayClocks Ring Transactions.
From S2P Require Import Security PubSub Scripting Server ServerFacts.
#[local] Open Scope Z_scope.

Section theorems.
Context `{KeyMapLaws M, Mpsc B, Layout, Xxh3, UnicodeCase, Argon2, Lua, Sha1}.
Implicit Types (s : Server.t M B) (c : Conn.t).

(** ** Many connections *)

(** A history: which connection sent which command, and what it read from
    outside. *)
Definition history : Type := list (nat * (nat -> Env) * Command.t).

Definition set_conn (i : nat) c (conns : nat -> Conn.t) : nat -> Conn.t :=
  fun j => if decide (j = i) then c else conns j.

Fixpoint run_history (h : history) (conns : nat -> Conn.t) s : res ((nat -> Conn.t) * Server.t M B) :=
  match h with
  | [] => Ok (conns, s)
  | (i, es, cmd) :: h =>
      '(s, c, _) ← execute_command es cmd (conns i) s;
      run_history h (set_conn i c conns) s
  end.

(** Histories whose commands replay as they executed and whose appends to the
    log succeeded. *)
Definition clean (h : history) : Prop :=
  Forall (fun '(_, es, cmd) => replayable cmd = true /\ forall i, append_ok (es i) = true) h.

(** Of any history the writes that were replicated and counted touch all that
    changed; of a clean one ([P]) they are also the log. *)
Lemma history_logged (P : Prop) h conns s conns' s' : (P -> clean h) -> inv (Server.storage s) ->
  (forall i, conn_ok P (conns i)) -> run_history h conns s = Ok (conns', s') ->
  exists new, logged P s s' new /\ forall i, conn_ok P (conns' i).
Proof.
  revert conns s. induction h as [|[[i es] cmd] h IH]; intros conns s Hh Hi Hc; cbn [run_history].
  - intros [= <- <-]. exists []. split; [by apply logged_same | done].
  - intros Hr. inv_bind Hr. destruct a as [[s1 c1] r1].
    destruct (execute_step P 2 es cmd (conns i) s s1 c1 r1 Hi (Hc i)) as (n1 & Hl & Hc1 & _); [..|done|].
    { intros HP. apply Hh in HP. by apply Forall_cons in HP as [[? _] _]. }
    { intros HP. apply Hh in HP. by apply Forall_cons in HP as [[_ ?] _]. }
    apply IH in Hr as (n2 & Hl2 & Hc2).
    + exists (n1 ++ n2). split; [by eapply logged_trans | done].
    + intros HP. apply Hh in HP. by apply Forall_cons in HP as [_ ?].
    + apply Hl.
    + intros j. unfold set_conn. by case_decide.
Qed.

(** ** Logging *)

(** C30. Execution and replay agree: a storage command that is a write, and
    that replay reads as execution does, changes the storage exactly as
    replaying it with the same clocks, orders and random choices does, and panics
    exactly when that does; every other storage command changes nothing. *)
Theorem execution_agrees_with_replay `{HashOrder, Rng} now wall cmd (m m' : M) r : inv m ->
  replayable cmd = true -> execute_storage now wall cmd m = Some (m', r) ->
  if is_write_command cmd then
    match r with
    | Ok _ => apply_write_command now wall cmd m = Ok m'
    | Err _ => False
    | Panic => apply_write_command now wall cmd m = Panic
    end
  else m' = m.
Proof.
  intros Hm Hp Hx. destruct (is_write_command cmd) eqn:Hw.
  - destruct (execute_storage_write now wall cmd m Hm Hw Hp) as (x & Hx' & Hag).
    rewrite Hx in Hx'. by injection Hx' as <-.
  - by eapply execute_storage_read.
Qed.

(** The log of a server that started empty. *)
Lemma logged_recovers s s' new : logged True s s' new ->
  Server.storage s = empty_map ->
  exists ws, (Server.wal s = Some [] -> Server.wal s' = Some ws) /\
    (Server.replicator s = Some [] -> Server.replicator s' = Some ws) /\
    (forallb timeless ws = true -> forall log, map command log = ws ->
     replay log (empty_map : M) = Ok (Server.storage s')).
Proof.
  intros [_ _ L1 L2 L3 _ _] E1. specialize (L1 I). specialize (L2 I). rewrite E1 in L1.
  exists (map command new). split; [by intros E2; rewrite L2, E2|]. split; [by intros E3; rewrite L3, E3|].
  intros Ht log Hlog. rewrite <- L1.
  apply replay_anywhere; [apply empty_inv | apply empty_no_deadlines | done | by rewrite Hlog].
Qed.

Lemma history_recovers h conns' s s' : clean h -> Server.storage s = empty_map ->
  run_history h (fun _ => Conn.new) s = Ok (conns', s') ->
  exists ws, (Server.wal s = Some [] -> Server.wal s' = Some ws) /\
    (Server.replicator s = Some [] -> Server.replicator s' = Some ws) /\
    (forallb timeless ws = true -> forall log, map command log = ws ->
     replay log (empty_map : M) = Ok (Server.storage s')).
Proof.
  intros Hh E1 Hr. apply (history_logged True) in Hr as (new & Hl & _); [|done| |].
  - by eapply logged_recovers.
  - rewrite E1. apply empty_inv.
  - intros i. constructor.
Qed.

(** C31. Recovery: whatever the connections did to a server that started
    empty, with scripts and transactions, as long as the commands replay as they
    execute and the log took every append, the log and the stream to the
    replicas hold the same commands; and if none of these sets a deadline,
    reads the clock for an id, draws at random or depends on the order of a hash
    table, replaying them into an empty storage gives the storage of the server,
    whatever clocks, orders and random numbers the replay meets. *)
Theorem recovery_restores_storage h conns' s s' : clean h ->
  Server.storage s = empty_map -> Server.wal s = Some [] -> Server.replicator s = Some [] ->
  run_history h (fun _ => Conn.new) s = Ok (conns', s') ->
  exists ws, Server.wal s' = Some ws /\ Server.replicator s' = Some ws /\
    (forallb timeless ws = true -> forall log, map command log = ws ->
     replay log (empty_map : M) = Ok (Server.storage s')).
Proof.
  intros Hh E1 E2 E3 Hr. apply history_recovers in Hr as (ws & Hw & Hp & Hlog); [|done..].
  exists ws. auto.
Qed.

(** ** Permissions *)

(** The commands of one connection. *)
Fixpoint run_conn (l : list ((nat -> Env) * Command.t)) c s : res (Server.t M B * Conn.t) :=
  match l with
  | [] => Ok (s, c)
  | (es, cmd) :: l => '(s, c, _) ← execute_command es cmd c s; run_conn l c s
  end.

Lemma set_storage_id s : Server.set_storage (Server.storage s) s = s.
Proof. by destruct s. Qed.

Lemma set_auth_id s am : Server.auth s = Some am -> Server.set_auth (Some am) s = s.
Proof. intros <-. by destruct s. Qed.

(** The user an AUTH names. *)
Definition login (username : option bytes) : bytes :=
  match username with Some u => from_utf8_lossy u | None => bs "default" end.

(** One command of a connection that is not authenticated: it changes nothing
    or is an AUTH with the password of a user. *)
Lemma unauthenticated_step es cmd c s s' c' r am :
  Server.auth s = Some am -> AuthManager.require_auth am = true ->
  Conn.authed_user c = None -> TxState.queue (Conn.tx c) = None ->
  execute_command es cmd c s = Ok (s', c', r) ->
  s' = s /\ c' = c \/
  exists username password user, cmd = Command.Auth username password /\
    AuthManager.users am !! login username = Some user /\
    User.verify_password (from_utf8_lossy password) user = true /\
    Conn.authed_user c' = Some (login username).
Proof.
  intros Ha Hreq Hu Hq. unfold execute_command. cbn [execute_fuel]. unfold execute_with.
  unfold TxState.in_multi. rewrite Hq. rewrite bool_decide_false by (by intros []). cbn [andb].
  destruct (moved cmd s); [intros [= <- <- _]; by left|].
  destruct (denied cmd c s) eqn:Ed; [intros [= <- <- _]; by left|].
  unfold denied in Ed. rewrite Ha, Hu, bool_decide_true in Ed by done.
  unfold AuthManager.is_auth_required in Ed. rewrite Hreq in Ed. cbn [andb] in Ed.
  destruct cmd; try discriminate Ed; cbn [is_write_command]; simpl; unfold dispatch; simpl.
  - intros [= <- <- _]. left. by rewrite set_storage_id.
  - unfold auth_command, AuthManager.authenticate. rewrite Ha. fold (login username).
    destruct (AuthManager.users am !! login username) as [user|] eqn:Eu;
      [|intros [= <- <- _]; left; by rewrite set_auth_id].
    destruct (User.verify_password _ user) eqn:Ev;
      [|intros [= <- <- _]; left; by rewrite set_auth_id].
    intros [= <- <- _]. right. by exists username, password, user.
Qed.

Lemma run_conn_user l c s s' c' : is_Some (Conn.authed_user c) -> run_conn l c s = Ok (s', c') ->
  is_Some (Conn.authed_user c').
Proof.
  revert c s. induction l as [|[es cmd] l IH]; intros c s Hu; cbn [run_conn]; [by intros [= _ <-]|].
  intros Hr. inv_bind Hr. destruct a as [[s1 c1] r1]. eapply IH; [|done].
  by eapply (execute_keeps_user 2).
Qed.

(** C32. Authentication: on a server that requires it, the commands of a
    connection that has not authenticated by their end have changed nothing,
    neither the server nor the connection. *)
Theorem unauthenticated_changes_nothing l s s' c' am :
  Server.auth s = Some am -> AuthManager.require_auth am = true ->
  run_conn l Conn.new s = Ok (s', c') -> Conn.authed_user c' = None -> s' = s /\ c' = Conn.new.
Proof.
  intros Ha Hreq. revert s Ha.
  induction l as [|[es cmd] l IH]; intros s Ha; cbn [run_conn]; [by intros [= <- <-]|].
  intros Hr Hu. inv_bind Hr. destruct a as [[s1 c1] r1].
  destruct (unauthenticated_step es cmd Conn.new s s1 c1 r1 am) as [[-> ->]|(u & p & user & _ & _ & _ & Hs)]; try done.
  - by apply IH.
  - apply run_conn_user in Hr; [|by eexists]. rewrite Hu in Hr. by destruct Hr.
Qed.

(** The keys of a write that the check of permissions does not look at: it
    looks at one key of a command, and at none of MSET and FLUSHALL. *)
Definition unchecked (w : Command.t) (k : bytes) : bool :=
  match w with
  | Command.MSet _ | Command.FlushAll => true
  | Command.Rename _ d | Command.RPopLPush _ d | Command.SMove _ d _ => bool_decide (k = d)
  | _ => false
  end.

Lemma touches_checked w k : touches w k -> command_key w = Some k \/ unchecked w k = true.
Proof.
  intros [Hf|Ht]; [destruct w; try discriminate Hf; by right|].
  destruct w; cbn [touched unchecked command_key] in *; rewrite ?elem_of_nil, ?elem_of_cons, ?elem_of_nil in Ht;
    try done; try (by destruct Ht as [->|[]]; left); try (by right).
  all: destruct Ht as [->|[->|[]]]; [by left | right; by apply bool_decide_eq_true].
Qed.


(** ** Transactions *)

(** The connection after [EXEC] took its queue and dropped its watches. *)
Definition idle c : Conn.t :=
  Conn.set_tx (TxState.mk None (TxState.queue_dirty (Conn.tx c)) ∅) c.

(** Commands sent one after the other, with their replies. *)
Fixpoint serve (es : nat -> Env) (q : list Command.t) c s
  : res (Server.t M B * Conn.t * list Response.t) :=
  match q with
  | [] => Ok (s, c, [])
  | cmd :: q =>
      '(s, c, r) ← execute_command es cmd c s;
      '(s, c, rs) ← serve (fun i => es (S i)) q c s;
      Ok (s, c, r :: rs)
  end.

Lemma run_queue_serve n es q out c s : Forall (fun x => is_tx_control x = false) q ->
  run_queue (execute_fuel (S n)) es q out c s =
  ('(s, c, rs) ← serve (fun i => es (S i)) q c s;
   Ok (s, c, Response.Raw (out ++ concat (map serialize_response rs)))).
Proof.
  intros Hq. revert es out c s. induction Hq as [|cmd q Hc Hq IH];
    intros es out c s; cbn [run_queue serve].
  - simpl. by rewrite app_nil_r.
  - replace (execute_fuel (S n) (fun i => es (S i)) cmd c s)
      with (execute_command (fun i => es (S i)) cmd c s) by (by apply execute_with_run).
    destruct (execute_command _ cmd c s) as [[[s1 c1] r1]| |]; simpl; [|done..].
    rewrite IH. destruct (serve _ q c1 s1) as [[[s2 c2] rs]| |]; simpl; [|done..].
    by rewrite <- app_assoc.
Qed.

(** [EXEC] up to the queue. *)
Lemma exec_unfold es c s q : TxState.queue (Conn.tx c) = Some q -> denied Command.Exec c s = None ->
  execute_command es Command.Exec c s =
  match TxState.any_watched_changed (Server.versions s) (Conn.tx c) with
  | Ok true => Ok (s, idle c, Response.Raw nil_array)
  | Ok false => run_queue (execute_fuel 1) es q (array_header (len q)) (idle c) s
  | Err e => Err e
  | Panic => Panic
  end.
Proof.
  intros Hq Hd. unfold execute_command. cbn [execute_fuel]. unfold execute_with at 1.
  rewrite andb_false_r. replace (moved Command.Exec s) with (@None Response.t)
    by (unfold moved; by repeat case_match).
  rewrite Hd. simpl. unfold dispatch. simpl. unfold exec_command. simpl. rewrite Hq.
  unfold TxState.any_watched_changed. simpl.
  by destruct (TxState.any_changed _ _) as [[]| |].
Qed.

Lemma any_watched_spec v tx : versions_wf v ->
  map_Forall (fun i _ => (i < Z.to_nat SHARD_COUNT)%nat) (TxState.watched tx) ->
  exists b, TxState.any_watched_changed v tx = Ok b /\
    (b = true <-> exists i n, TxState.watched tx !! i = Some n /\ version i v <> n).
Proof.
  intros Hv Hw. destruct (any_changed_spec (map_to_list (TxState.watched tx)) v Hv) as (b & Hb & Hs).
  { apply Forall_forall. intros [i n] Hin%elem_of_map_to_list. by apply (Hw i n). }
  exists b. split; [done|]. rewrite Hs. split; intros (i & n & Hin & Hn); exists i, n;
    (split; [by apply elem_of_map_to_list | done]).
Qed.

(** C34. A transaction is all or nothing, and in order: if a watched counter
    has changed, [EXEC] answers nil and changes nothing but the transaction;
    otherwise it does what sending the queued commands one after the other
    outside a transaction does, and answers the array of their replies. *)
Theorem exec_runs_queue_or_nothing es c s q :
  TxState.queue (Conn.tx c) = Some q -> Forall (fun x => is_tx_control x = false) q ->
  denied Command.Exec c s = None -> versions_wf (Server.versions s) ->
  map_Forall (fun i _ => (i < Z.to_nat SHARD_COUNT)%nat) (TxState.watched (Conn.tx c)) ->
  ((exists i n, TxState.watched (Conn.tx c) !! i = Some n /\ version i (Server.versions s) <> n) ->
   execute_command es Command.Exec c s = Ok (s, idle c, Response.Raw nil_array)) /\
  ((forall i n, TxState.watched (Conn.tx c) !! i = Some n -> version i (Server.versions s) = n) ->
   execute_command es Command.Exec c s =
   ('(s', c', rs) ← serve (fun i => es (S i)) q (idle c) s;
    Ok (s', c', Response.Raw (array_header (len q) ++ concat (map serialize_response rs))))).
Proof.
  intros Hq Hctl Hd Hv Hw. rewrite (exec_unfold es c s q Hq Hd).
  destruct (any_watched_spec _ _ Hv Hw) as (b & -> & Hb). split; intros Hc.
  - by rewrite (proj2 Hb Hc).
  - destruct b; [|by apply (run_queue_serve 0)].
    destruct (proj1 Hb eq_refl) as (i & n & Hin & Hn). by apply Hc in Hin.
Qed.

(** What [WATCH k] does. *)
Lemma watch_spec es k c s s1 c1 : versions_wf (Server.versions s) ->
  TxState.watched (Conn.tx c) = ∅ ->
  execute_command es (Command.Watch [k]) c s = Ok (s1, c1, Response.Ok) ->
  s1 = s /\ queue_of c1 = queue_of c /\
  TxState.watched (Conn.tx c1) = {[shard_index k := version (shard_index k) (Server.versions s)]}.
Proof.
  intros Hv Hw. unfold execute_command. cbn [execute_fuel]. unfold execute_with at 1.
  rewrite andb_false_r. replace (moved (Command.Watch [k]) s) with (@None Response.t)
    by (unfold moved; by repeat case_match).
  destruct (denied _ c s) as [r|] eqn:Ed.
  { unfold denied in Ed. intros [= _ _ ->]. by repeat case_match. }
  simpl. unfold dispatch. simpl. case_match; [done|]. rewrite shard_index_for_shard.
  rewrite read_version by (done || apply shard_index_lt). simpl. intros [= <- <-].
  unfold TxState.watch. rewrite Hw, lookup_empty. done.
Qed.

(** A counter that moved by less than the whole range is another one. *)
Lemma wrapped_apart a n : 0 < n -> n < 2 ^ 64 -> a mod 2 ^ 64 = (a + n) mod 2 ^ 64 -> False.
Proof.
  intros H1' H2' E. apply (f_equal (fun z => (z - a) mod 2 ^ 64)) in E.
  rewrite !Zminus_mod_idemp_l in E. replace (a - a) with 0 in E by lia.
  replace (a + n - a) with n in E by lia. rewrite Zmod_0_l, Z.mod_small in E; lia.
Qed.


(** ** Publish and subscribe *)

(** The senders registered for a channel, and those whose mailbox is open. *)
Definition registered (ch : bytes) s : list nat := default [] (PubSub.channels (Server.pubsub s) !! ch).
Definition listening (ch : bytes) s : list nat :=
  filter (fun i => is_Some (mailbox i (Server.boxes s))) (registered ch s).

Lemma unsubscribe_listening chs out c s s' c' out' ch : unsubscribe_loop chs out c s = (s', c', out') ->
  Server.boxes s' = Server.boxes s /\ listening ch s' = listening ch s.
Proof.
  revert out c s. induction chs as [|x chs IH]; intros out c s; cbn [unsubscribe_loop].
  - by intros [= <- _ _].
  - intros [Hb Hl]%IH. split; [by rewrite Hb|]. rewrite Hl. unfold listening, registered. simpl.
    apply prune_open.
Qed.

Lemma execute_unsubscribe es chs c s s1 c1 out ch :
  execute_command es (Command.Unsubscribe chs) c s = Ok (s1, c1, Response.Raw out) ->
  Server.boxes s1 = Server.boxes s /\ listening ch s1 = listening ch s.
Proof.
  unfold execute_command. cbn [execute_fuel]. unfold execute_with at 1.
  case_match; [by intros [= <- _ _]|].
  replace (moved _ s) with (@None Response.t) by (unfold moved; by repeat case_match).
  destruct (denied _ c s) as [r|]; [by intros [= <- _ _]|]. simpl. unfold dispatch. simpl.
  destruct (unsubscribe_loop _ _ _ _) as [[s2 c2] o] eqn:E. intros [= <- _ _].
  by eapply unsubscribe_listening.
Qed.

Lemma execute_publish es ch x c s s1 c1 n :
  execute_command es (Command.Publish ch x) c s = Ok (s1, c1, Response.Integer n) ->
  PubSub.publish ch x (Server.pubsub s) (Server.boxes s) = (Server.boxes s1, n).
Proof.
  unfold execute_command. cbn [execute_fuel]. unfold execute_with at 1. case_match; [done|].
  replace (moved _ s) with (@None Response.t) by (unfold moved; by repeat case_match).
  destruct (denied _ c s) as [r|] eqn:Ed.
  { unfold denied in Ed. intros [= _ _ ->]. by repeat case_match. }
  simpl. unfold dispatch. simpl. destruct (PubSub.publish _ _ _ _) as [bx k]. by intros [= <- _ <-].
Qed.

Lemma copies_listening i ch s : is_Some (mailbox i (Server.boxes s)) ->
  copies i (registered ch s) = copies i (listening ch s).
Proof.
  intros Hi. unfold copies, listening. rewrite list_filter_filter. f_equal.
  apply list_filter_iff. intros j. split; [by intros ->|]. by intros [? _].
Qed.

(** Delivery: [PUBLISH] appends the message to every open mailbox as
    often as it is registered for the channel, to no other, and answers the
    number of these deliveries.  An [UNSUBSCRIBE] before it, of any connection
    and any channels, makes no difference: registrations end with their
    connection only. *)
Theorem publish_reaches_registrations es es' chs ch x c c1 c2 c3 s s1 s2 out n :
  execute_command es (Command.Unsubscribe chs) c s = Ok (s1, c1, Response.Raw out) ->
  execute_command es' (Command.Publish ch x) c2 s1 = Ok (s2, c3, Response.Integer n) ->
  n = len (listening ch s) /\
  forall i, mailbox i (Server.boxes s2) =
    (fun q => q ++ replicate (copies i (registered ch s)) (msg ch x)) <$> mailbox i (Server.boxes s).
Proof.
  intros Hu Hp. destruct (execute_unsubscribe _ _ _ _ _ _ _ ch Hu) as [Hb Hl].
  apply execute_publish in Hp.
  pose proof (publish_count ch x (Server.pubsub s1) (Server.boxes s1)) as Hn.
  pose proof (publish_mailbox ch x (Server.pubsub s1) (Server.boxes s1)) as Hm.
  rewrite Hp in Hn, Hm. simpl in Hn, Hm. split; [by rewrite Hn, <- Hl|].
  intros i. rewrite Hm, Hb. destruct (mailbox i (Server.boxes s)) as [q|] eqn:E; [|done]. simpl.
  do 3 f_equal. fold (registered ch s1). rewrite !copies_listening, Hl by (by rewrite ?Hb, E). done.
Qed.
End theorems.

(** ** Where execution and replay part *)

Import Defaults.

(** A negative [EXPIREAT] deletes the key, but its replay keeps it. *)
Lemma negative_expireat_diverges :
  let m := fst (set 0 (bs "k") (bs "v") None (∅ : table)) in
  match execute_storage 0 0 (Command.ExpireAt (bs "k") (-1)) m with
  | Some (m', _) => get 0 (bs "k") m' = None
  | None => False
  end /\
  match apply_write_command 0 0 (Command.ExpireAt (bs "k") (-1)) m with
  | Ok m' => get 0 (bs "k") m' = Some (bs "v")
  | _ => False
  end.
Proof. by vm_compute. Qed.

(** An [XADD] whose id does not parse is refused, but its replay adds an entry. *)
Lemma bad_stream_id_diverges :
  let cmd := Command.XAdd (bs "k") (Some (bs "x")) [(bs "f", bs "v")] in
  match execute_storage 0 5 cmd (∅ : table) with
  | Some (m', Ok (Response.Error _)) => xlen 0 (bs "k") m' = Ok 0
  | _ => False
  end /\
  match apply_write_command 0 5 cmd (∅ : table) with
  | Ok m' => xlen 0 (bs "k") m' = Ok 1
  | _ => False
  end.
Proof. by vm_compute. Qed.

(** ** A server to try *)

Definition clock (t : Z) : nat -> Env :=
  fun i => {| now := t + Z.of_nat i; wall := t; order := default_order; draws := first_choice; random := 7; append_ok := true |}.

Definition demo (auth : option AuthManager.t) : Server.t ShardedMap boxes :=
  Server.new (Some []) (Some []) auth.

Definition result_server (s : Server.t ShardedMap boxes) (r : outcome) : Server.t ShardedMap boxes :=
  match r with Ok (s', _, _) => s' | _ => s end.
Definition result_conn (r : @outcome ShardedMap boxes) : Conn.t :=
  match r with Ok (_, c, _) => c | _ => Conn.new end.

(** A user who may do everything under ["user:"]. *)
Definition user_ann : User.t :=
  User.add_acl_rule (ACLRule.with_key_pattern (bs "user:*") ACLRule.allow_all)
    (User.new [] (bs "ann") (bs "pw") false).
Definition manager : AuthManager.t := AuthManager.with_users true [user_ann].

(** [MSET] has no single key, so the key patterns of a rule do not bind it. *)
Lemma mset_escapes_key_patterns :
  let c := Conn.set_user (bs "ann") Conn.new in
  let s := demo (Some manager) in
  denied (Command.Set' (bs "admin:1") (bs "x") None) c s = Some (noperm (bs "SET")) /\
  denied (Command.MSet [(bs "admin:1", bs "x")]) c s = None.
Proof. by vm_compute. Qed.

(** ** Witnesses *)

Lemma execution_agrees_with_replay_witness :
  apply_write_command 0 0 (Command.Set' (bs "k") (bs "v") None) new =
  Ok (fst (set 0 (bs "k") (bs "v") None new)).
Proof.
  apply (execution_agrees_with_replay 0 0 (Command.Set' (bs "k") (bs "v") None) new _ (Ok Response.Ok));
    [exact new_inv | reflexivity..].
Defined.

Definition small_history : history := [
  (0%nat, clock 1, Command.Set' (bs "a") (bs "1") None);
  (1%nat, clock 2, Command.Multi);
  (1%nat, clock 3, Command.Incr (bs "a"));
  (0%nat, clock 4, Command.LuaEval (bs "SET") [bs "b"] [bs "2"]);
  (1%nat, clock 5, Command.Exec)].

Lemma small_history_clean : clean small_history.
Proof. by repeat constructor. Qed.

(** The reader's clocks. *)
Definition read_at (t : Z) (cmd : Command.t) : log_entry := {|
  at_now := t; at_wall := t; at_order := default_order; at_draws := first_choice; command := cmd |}.

Lemma recovery_restores_storage_witness : exists conns' s' ws,
  run_history small_history (fun _ => Conn.new) (demo None) = Ok (conns', s') /\
  get 9 (bs "a") (Server.storage s') = Some (bs "2") /\
  Server.wal s' = Some ws /\ replay (map (read_at 1000) ws) (empty_map : ShardedMap) = Ok (Server.storage s').
Proof.
  assert (Hg : match run_history small_history (fun _ => Conn.new) (demo None) with
               | Ok (_, s') => get 9 (bs "a") (Server.storage s') = Some (bs "2") /\
                   forallb timeless (default [] (Server.wal s')) = true
               | _ => False
               end) by (vm_compute; split; reflexivity).
  destruct (run_history small_history (fun _ => Conn.new) (demo None)) as [[conns' s']|e|] eqn:E;
    [|destruct Hg..]. destruct Hg as [Hg Ht].
  destruct (recovery_restores_storage small_history conns' (demo None) s') as (ws & Hw & _ & Hr);
    [exact small_history_clean | reflexivity | reflexivity | reflexivity | exact E |].
  exists conns', s', ws. split; [reflexivity|]. split; [exact Hg|]. split; [exact Hw|].
  rewrite Hw in Ht. apply (Hr Ht). rewrite map_map. apply map_id.
Defined.

Lemma unauthenticated_changes_nothing_witness :
  run_conn [(clock 1, Command.Set' (bs "a") (bs "1") None);
            (clock 2, Command.Auth (Some (bs "ann")) (bs "guess"));
            (clock 3, Command.Ping)] Conn.new (demo (Some manager)) =
  Ok (demo (Some manager), Conn.new) /\ demo (Some manager) = demo (Some manager) /\ Conn.new = Conn.new.
Proof.
  split; [vm_compute; reflexivity|].
  apply (unauthenticated_changes_nothing
    [(clock 1, Command.Set' (bs "a") (bs "1") None);
     (clock 2, Command.Auth (Some (bs "ann")) (bs "guess"));
     (clock 3, Command.Ping)] (demo (Some manager)) _ _ manager);
    [reflexivity | reflexivity | vm_compute; reflexivity | reflexivity].
Defined.

Definition ann : Conn.t := Conn.set_user (bs "ann") Conn.new.


(** A transaction of one command, with a watch on its key. *)
Definition watching : @outcome ShardedMap boxes :=
  execute_command (clock 1) (Command.Watch [bs "a"]) Conn.new (demo None).
Definition queueing : Conn.t :=
  Conn.set_tx (TxState.mk (Some [Command.Incr (bs "a")]) false ∅) Conn.new.

Lemma exec_runs_queue_or_nothing_witness :
  execute_command (clock 1) Command.Exec queueing (demo None) =
  ('(s', c', rs) ← serve (fun i => clock 1 (S i)) [Command.Incr (bs "a")] (idle queueing) (demo None);
   Ok (s', c', Response.Raw (array_header 1 ++ concat (map serialize_response rs)))).
Proof.
  apply (exec_runs_queue_or_nothing (clock 1) queueing (demo None) [Command.Incr (bs "a")]).
  - reflexivity.
  - repeat constructor.
  - reflexivity.
  - exact new_versions_wf.
  - apply map_Forall_empty.
  - intros i n Hin. simpl in Hin. by rewrite lookup_empty in Hin.
Defined.

Definition interfering : history := [
  (0%nat, clock 2, Command.Multi);
  (0%nat, clock 3, Command.Incr (bs "a"));
  (1%nat, clock 4, Command.Set' (bs "a") (bs "7") None)].

Definition interfered : res ((nat -> Conn.t) * Server.t ShardedMap boxes) :=
  run_history interfering (set_conn 0 (result_conn watching) (fun _ => Conn.new)) (demo None).


(** A subscriber that left, and a message that still reaches it. *)
Definition joined : @outcome ShardedMap boxes :=
  execute_command (clock 1) (Command.Subscribe [bs "news"]) Conn.new (demo None).
Definition departed : @outcome ShardedMap boxes :=
  execute_command (clock 2) (Command.Unsubscribe []) (result_conn joined)
    (result_server (demo None) joined).
Definition published : @outcome ShardedMap boxes :=
  execute_command (clock 3) (Command.Publish (bs "news") (bs "hi")) Conn.new
    (result_server (demo None) departed).

Lemma publish_reaches_registrations_witness :
  mailbox 0%nat (Server.boxes (result_server (demo None) published)) = Some [msg (bs "news") (bs "hi")].
Proof.
  assert (H : 1 = len (listening (bs "news") (result_server (demo None) joined)) /\
    forall i, mailbox i (Server.boxes (result_server (demo None) published)) =
      (fun q => q ++ replicate (copies i (registered (bs "news") (result_server (demo None) joined)))
                       (msg (bs "news") (bs "hi"))) <$>
      mailbox i (Server.boxes (result_server (demo None) joined))).
  { apply (publish_reaches_registrations (clock 2) (clock 3) [] (bs "news") (bs "hi")
      (result_conn joined) (result_conn departed) Conn.new (result_conn published)
      (result_server (demo None) joined) (result_server (demo None) departed) _
      (unsubscribe_frame (bs "news") 0) 1); vm_compute; reflexivity. }
  destruct H as [_ H]. rewrite H. vm_compute. reflexivity.
Defined.
