(* ===== verification/SweepTheorems.v ===== *)
(** * SweepTheorems: which reads can tell that expired keys were swept

    [cleanup_expired] removes expired entries in the background.  A read that
    tests every value for expiry answers the same before and after; the reads
    listed in [checked_read] do.  The others tell the difference: STRLEN and
    GETRANGE return expired strings, and a read of one type answers
    [WRONGTYPE] for an expired value of another. *)

From S2P Require Import Prelude Text External Float64 Values SortedSet Stream Keyspace Storage.
From S2P Require Import StorageTypes StorageFacts ShardedMap Resp Command Apply Server.
#[local] Open Scope Z_scope.

Definition is_hash (v : CacheValue) : bool := match v with CHash _ => true | _ => false end.
Definition is_list (v : CacheValue) : bool := match v with CList _ => true | _ => false end.
Definition is_set (v : CacheValue) : bool := match v with CSet _ => true | _ => false end.
Definition is_zset (v : CacheValue) : bool := match v with CSortedSet _ => true | _ => false end.

(** The reads that test for expiry, with the keys at which they expect a type,
    and that type.  Reads that answer in the order of the shards' tables or
    choose at random are not listed, nor are STRLEN, GETRANGE, SRANDMEMBER,
    ZRANGEBYSCORE and the reads of streams, which see expired values. *)
Definition checked_read (cmd : Command.t) : option (list bytes * (CacheValue -> bool)) :=
  match cmd with
  | Command.Get _ | Command.MGet _ | Command.HGet _ _ | Command.HMGet _ _ | Command.Exists _
  | Command.Ttl _ | Command.PTtl _ | Command.Type' _ | Command.DbSize => Some ([], fun _ => true)
  | Command.HGetAll k | Command.HKeys k | Command.HVals k | Command.HLen k | Command.HExists k _ =>
      Some ([k], is_hash)
  | Command.LRange k _ _ | Command.LLen k | Command.LIndex k _ => Some ([k], is_list)
  | Command.SMembers k | Command.SIsMember k _ | Command.SCard k => Some ([k], is_set)
  | Command.SInter ks | Command.SUnion ks | Command.SDiff ks => Some (ks, is_set)
  | Command.ZRange k _ _ _ | Command.ZRank k _ | Command.ZScore k _ | Command.ZCard k
  | Command.ZCount k _ _ | Command.ZRevRange k _ _ _ => Some ([k], is_zset)
  | _ => None
  end.

Section sweep.
Context `{KeyMapLaws M}.
Implicit Types m : M.

(** At time [now] the two maps differ in expired entries of [m] at most, which
    [m'] lacks. *)
Definition swept (now : Z) m m' : Prop :=
  inv m /\ inv m' /\
  forall k, entry k m' = entry k m \/ (live now (entry k m) = None /\ entry k m' = None).

(** The values at [ks] have the type [own]. *)
Definition owned (own : CacheValue -> bool) (ks : list bytes) m : Prop :=
  forall k v, k ∈ ks -> entry k m = Some v -> own v = true.

Lemma cleanup_swept t now m : inv m -> t <= now -> swept now m (cleanup_expired t m).
Proof.
  intros Hm Ht. split_and!; [done | by apply (filter_inv (fun v => negb (is_expired t v))) |].
  intros k. rewrite cleanup_entry by done. unfold live. destruct (entry k m) as [v|]; [|by left].
  destruct (is_expired t v) eqn:E; [right | by left]. by rewrite (is_expired_mono t now v).
Qed.

Lemma swept_live now m m' k : swept now m m' -> live now (entry k m') = live now (entry k m).
Proof. intros (_ & _ & Hs). destruct (Hs k) as [->|[-> ->]]; done. Qed.

Lemma swept_owned now m m' own ks : swept now m m' -> owned own ks m -> owned own ks m'.
Proof. intros (_ & _ & Hs) Ho k v Hk. destruct (Hs k) as [->|[_ ->]]; [by apply Ho | done]. Qed.

(** A read of one type, where no other type is stored, depends on the live
    value only. *)
Lemma read_hash_live {A} now k (f : HashValue.t -> A) none m : owned is_hash [k] m ->
  read_hash now k f none m = Ok match live now (entry k m) with Some (CHash h) => f h | _ => none end.
Proof.
  intros Ho. specialize (Ho k). unfold read_hash, live. destruct (entry k m) as [v|]; [|done].
  specialize (Ho v (list_elem_of_here _ _) eq_refl). destruct v; try done. simpl. by destruct (HashValue.is_expired now h).
Qed.
Lemma read_list_live {A} now k (f : ListValue.t -> A) none m : owned is_list [k] m ->
  read_list now k f none m = Ok match live now (entry k m) with Some (CList l) => f l | _ => none end.
Proof.
  intros Ho. specialize (Ho k). unfold read_list, live. destruct (entry k m) as [v|]; [|done].
  specialize (Ho v (list_elem_of_here _ _) eq_refl). destruct v; try done. simpl. by destruct (ListValue.is_expired now l).
Qed.
Lemma read_set_live {A} now k (f : SetValue.t -> A) none m : owned is_set [k] m ->
  read_set now k f none m = Ok match live now (entry k m) with Some (CSet s) => f s | _ => none end.
Proof.
  intros Ho. specialize (Ho k). unfold read_set, live. destruct (entry k m) as [v|]; [|done].
  specialize (Ho v (list_elem_of_here _ _) eq_refl). destruct v; try done. simpl. by destruct (SetValue.is_expired now s).
Qed.
Lemma read_zset_live {A} now k (f : SortedSetValue.t -> res A) none m : owned is_zset [k] m ->
  read_zset now k f none m = match live now (entry k m) with Some (CSortedSet z) => f z | _ => Ok none end.
Proof.
  intros Ho. specialize (Ho k). unfold read_zset, live. destruct (entry k m) as [v|]; [|done].
  specialize (Ho v (list_elem_of_here _ _) eq_refl). destruct v; try done. simpl. by destruct (SortedSetValue.is_expired now z).
Qed.

Section same.
Context (now : Z) (m m' : M) (Hs : swept now m m').

Lemma get_same k : get now k m' = get now k m.
Proof. by rewrite !get_live, (swept_live now m m'). Qed.

Lemma hget_same k f : hget now k f m' = hget now k f m.
Proof.
  assert (Hl : forall m, hget now k f m =
    match live now (entry k m) with Some (CHash h) => HashValue.get_field f h | _ => None end).
  { intros m0. unfold hget, live. destruct (entry k m0) as [v|]; [|done].
    destruct v; simpl; try by repeat case_match. by destruct (HashValue.is_expired now h). }
  by rewrite !Hl, (swept_live now m m').
Qed.

Lemma exists_same ks : exists' now ks m' = exists' now ks m.
Proof.
  unfold exists'. f_equal. apply list_filter_iff. intros k. pose proof (swept_live now m m' k Hs) as Hl.
  unfold live in Hl. destruct (entry k m) as [v|], (entry k m') as [v'|]; repeat case_match; naive_solver.
Qed.

Lemma pttl_same k : pttl_millis now k m' = pttl_millis now k m.
Proof.
  assert (Hl : forall m, pttl_millis now k m = match live now (entry k m) with
    | Some v => match expires_at_ref v with
                | None => Some (-1)
                | Some at' => if at' <=? now then Some 0 else Some (as_millis_i64 (at' - now)) end
    | None => None end).
  { intros m0. unfold pttl_millis, live. destruct (entry k m0) as [v|]; [|done]. by destruct (is_expired now v). }
  by rewrite !Hl, (swept_live now m m').
Qed.

Lemma type_same k : type_of now k m' = type_of now k m.
Proof.
  destruct Hs as (_ & _ & Hk). destruct (Hk k) as [E|[E1 E2]]; unfold type_of; [by rewrite E|]. rewrite E2.
  unfold live in E1. destruct (entry k m) as [v|]; [|done]. by destruct (is_expired now v).
Qed.

Lemma live_entries_same `{HashOrder} : live_entries now m' ≡ₚ live_entries now m.
Proof.
  destruct Hs as (Hi & Hi' & _). apply NoDup_Permutation.
  - by eapply NoDup_fmap_1, NoDup_live_entries.
  - by eapply NoDup_fmap_1, NoDup_live_entries.
  - intros [k v]. rewrite !elem_of_live_entries by done. by rewrite (swept_live now m m').
Qed.

Lemma dbsize_same `{HashOrder} : dbsize now m' = dbsize now m.
Proof. rewrite !dbsize_live. unfold len. by rewrite live_entries_same. Qed.

Lemma keys_same `{HashOrder} p k : k ∈ keys now p m' <-> k ∈ keys now p m.
Proof.
  destruct (decide (p = bs "*")) as [->|Hp].
  - rewrite !keys_star. by rewrite live_entries_same.
  - destruct Hs as (Hi & Hi' & _). rewrite !elem_of_keys by done. by rewrite (swept_live now m m').
Qed.

Lemma snapshot_same ks k : k ∈ ks -> owned is_set ks m -> snapshot_set now k m' = snapshot_set now k m.
Proof.
  intros Hk Ho. assert (Ho1 : owned is_set [k] m) by (intros j v ->%list_elem_of_singleton; by apply Ho).
  unfold snapshot_set. rewrite !read_set_live by (done || by eapply swept_owned). by rewrite (swept_live now m m').
Qed.

(** Reads of one key. *)
Lemma read_hash_same {A} k (f : HashValue.t -> A) none : owned is_hash [k] m ->
  read_hash now k f none m' = read_hash now k f none m.
Proof. intros Ho. rewrite !read_hash_live by (done || by eapply swept_owned). by rewrite (swept_live now m m'). Qed.
Lemma read_list_same {A} k (f : ListValue.t -> A) none : owned is_list [k] m ->
  read_list now k f none m' = read_list now k f none m.
Proof. intros Ho. rewrite !read_list_live by (done || by eapply swept_owned). by rewrite (swept_live now m m'). Qed.
Lemma read_set_same {A} k (f : SetValue.t -> A) none : owned is_set [k] m ->
  read_set now k f none m' = read_set now k f none m.
Proof. intros Ho. rewrite !read_set_live by (done || by eapply swept_owned). by rewrite (swept_live now m m'). Qed.
Lemma read_zset_same {A} k (f : SortedSetValue.t -> res A) none : owned is_zset [k] m ->
  read_zset now k f none m' = read_zset now k f none m.
Proof. intros Ho. rewrite !read_zset_live by (done || by eapply swept_owned). by rewrite (swept_live now m m'). Qed.

Lemma owned_cons own k ks : owned own (k :: ks) m -> owned own ks m.
Proof. intros Ho j v Hj. apply Ho. by right. Qed.

Context `{HashOrder}.

Lemma sinter_same ks r : owned is_set ks m -> sinter_loop now ks r m' = sinter_loop now ks r m.
Proof.
  revert r. induction ks as [|k ks IH]; intros r Ho; simpl; [done|].
  rewrite (snapshot_same (k :: ks)) by (done || by left).
  destruct (snapshot_set now k m) as [[s|]| |]; simpl; try done. by eapply IH, owned_cons.
Qed.
Lemma sunion_same ks r : owned is_set ks m -> sunion_loop now ks r m' = sunion_loop now ks r m.
Proof.
  revert r. induction ks as [|k ks IH]; intros r Ho; simpl; [done|].
  rewrite (snapshot_same (k :: ks)) by (done || by left).
  destruct (snapshot_set now k m) as [s| |]; simpl; try done. by eapply IH, owned_cons.
Qed.
Lemma sdiff_same ks r : owned is_set ks m -> sdiff_loop now ks r m' = sdiff_loop now ks r m.
Proof.
  revert r. induction ks as [|k ks IH]; intros r Ho; simpl; [done|].
  rewrite (snapshot_same (k :: ks)) by (done || by left).
  destruct (snapshot_set now k m) as [s| |]; simpl; try done. by eapply IH, owned_cons.
Qed.
End same.

Context `{Layout}.

(** The answer of a storage command. *)
Definition answer (e : Env) (cmd : Command.t) m : option (res Response.t) := snd <$> execute_at e cmd m.

Lemma answer_same e cmd m m' ks own : swept (now e) m m' ->
  checked_read cmd = Some (ks, own) -> owned own ks m -> answer e cmd m' = answer e cmd m.
Proof.
  intros Hs Hc Ho. unfold answer, execute_at, execute_storage. set (O := order e). set (R := draws e).
  set (t := now e) in *. clearbody O R t.
  destruct cmd; cbn [checked_read] in Hc; try discriminate Hc; injection Hc as <- <-;
    cbn [execute_strings execute_hashes execute_lists execute_sets execute_zsets execute_keyspace
         execute_ttl execute_strings2 execute_hashes_lists2 execute_sets_zsets2 or_else fmap option_fmap
         option_map snd read_reply reply];
    unfold hgetall, hkeys, hvals, hlen, hexists, lrange, llen, lindex, smembers, sismember, scard,
      zrevrange, zrange, zrank, zscore, zcard, zcount, read_reply, reply, sinter, sunion, sdiff;
    rewrite ?(get_same t m m' Hs), ?(hget_same t m m' Hs), ?(exists_same t m m' Hs), ?(pttl_same t m m' Hs),
      ?(type_same t m m' Hs), ?(dbsize_same t m m' Hs), ?(read_hash_same t m m' Hs), ?(read_list_same t m m' Hs),
      ?(read_set_same t m m' Hs), ?(read_zset_same t m m' Hs), ?(sinter_same t m m' Hs) by done; try done.
  - destruct keys; [done|]. by rewrite (sunion_same t m m' Hs).
  - destruct keys as [|k ks]; [done|]. rewrite (snapshot_same t m m' Hs (k :: ks)) by (done || by left).
    destruct (snapshot_set t k m) as [[s|]| |]; simpl; try done.
    by rewrite (sdiff_same t m m' Hs) by by eapply owned_cons.
  - do 3 f_equal. apply map_ext. intros k. by rewrite (get_same t m m' Hs).
  - do 3 f_equal. apply map_ext. intros f. by rewrite (hget_same t m m' Hs).
Qed.

(** C11. The sweep of expired keys keeps the answers of the reads that test for
    expiry: whether or not it ran before, GET, MGET, HGET, HMGET, EXISTS, TTL,
    PTTL, TYPE and DBSIZE answer the same, KEYS lists the same keys, and so do
    the reads of hashes, lists, sets and sorted sets listed in [checked_read]
    at keys that hold no value of another type; and right after the sweep no
    expired entry is stored.  Other reads do see unswept values: STRLEN,
    GETRANGE, SRANDMEMBER, ZRANGEBYSCORE, the reads of streams, and a typed read
    of a key with an expired value of another type. *)
Theorem sweep_keeps_checked_answers t m : inv m ->
  (forall e cmd ks own, t <= now e -> checked_read cmd = Some (ks, own) -> owned own ks m ->
     answer e cmd (cleanup_expired t m) = answer e cmd m) /\
  (forall (O : HashOrder) now p k, t <= now -> k ∈ keys now p (cleanup_expired t m) <-> k ∈ keys now p m) /\
  (forall k v, entry k (cleanup_expired t m) = Some v -> is_expired t v = false).
Proof.
  intros Hm. split_and!.
  - intros e cmd ks own Ht. apply answer_same. by apply cleanup_swept.
  - intros O now p k Ht. apply keys_same. by apply cleanup_swept.
  - intros k v. rewrite cleanup_entry by done. by intros [_ ?]%live_Some.
Qed.
End sweep.

(** ** Witnesses *)

Import Defaults.

Definition at_time (t : Z) : Env := {|
  now := t; wall := 0; order := default_order; draws := first_choice; random := 0; append_ok := true
|}.

(** A string that expires after a second, and a hash. *)
Definition aging : ShardedMap :=
  fst (hset (bs "h") (bs "f") (bs "1") (fst (set 0 (bs "s") (bs "abc") (Some ns_per_sec) ShardedMap.new))).

Lemma aging_inv : inv aging.
Proof. apply with_entry_inv, set_entry_inv, new_inv. Qed.

Lemma sweep_keeps_checked_answers_witness :
  answer (at_time (3 * ns_per_sec)) (Command.HLen (bs "h")) (cleanup_expired (2 * ns_per_sec) aging)
    = Some (Ok (Response.Integer 1)).
Proof.
  destruct (sweep_keeps_checked_answers (2 * ns_per_sec) aging aging_inv) as [Ha _].
  rewrite (Ha (at_time (3 * ns_per_sec)) (Command.HLen (bs "h")) [bs "h"] is_hash).
  - vm_compute. reflexivity.
  - vm_compute. congruence.
  - reflexivity.
  - intros k v Hk. apply list_elem_of_singleton in Hk. subst k. intros Hv.
    assert (E : match entry (bs "h") aging with Some v => is_hash v | None => true end = true)
      by (vm_compute; reflexivity). by rewrite Hv in E.
Defined.

(** STRLEN tells an expired string that is still there from one that was
    swept, and so does a list command its type. *)
Example unchecked_reads_see_unswept_values :
  let e := at_time (3 * ns_per_sec) in
  let swept := cleanup_expired (2 * ns_per_sec) aging in
  answer e (Command.Strlen (bs "s")) aging = Some (Ok (Response.Integer 3)) /\
  answer e (Command.Strlen (bs "s")) swept = Some (Ok (Response.Integer 0)) /\
  answer e (Command.LLen (bs "s")) aging = Some (Ok (Response.Error WRONGTYPE)) /\
  answer e (Command.LLen (bs "s")) swept = Some (Ok (Response.Integer 0)).
Proof. vm_compute. split_and!; reflexivity. Qed.
