(* ===== verification/ConcurrencyTheorems.v ===== *)
(** * ConcurrencyTheorems: what connections that run at the same time see

    A task that is not interrupted is [execute_command]; tasks that do not race
    are linearizable, and the log and the replicas keep up with them; what
    WATCH can and cannot see of a write in flight; and executions that show
    what races do. *)

From S2P Require Import Prelude Text External Float64 BTree Values SortedSet SortedSetFacts Stream.
From S2P Require Import Keyspace ShardedMap Storage StorageTypes StorageFacts ListFacts SetFacts.
From S2P Require Import Resp Command Apply ApplyFacts ReplayClocks Ring Transactions Security.
From S2P Require Import PubSub Scripting Server ServerFacts Concurrency ConcurrencyFacts.
From S2P Require Import Serializability.
#[local] Open Scope Z_scope.

(** ** A task alone *)

Section alone.
Context `{KeyMapLaws M, Mpsc B, Layout, Xxh3}.
Implicit Types (w : World.t M B) (s : Server.t M B).

Lemma set_storage_same s : Server.set_storage (Server.storage s) s = s.
Proof. by destruct s. Qed.

Lemma steps_app evs evs' w : steps (evs ++ evs') w = (w ← steps evs w; steps evs' w).
Proof. revert w. induction evs as [|ev evs IH]; intros w; simpl; [done|]. by destruct (step ev w); simpl. Qed.

Lemma steps_advance i x evs w : World.tasks w !! i = Some x ->
  steps (Advance i :: evs) w = steps evs (advance i x w).
Proof. intros Hx. cbn [steps step]. by rewrite Hx. Qed.

Lemma steps_start i e cmd evs w : World.tasks w !! i = None -> lockable e cmd = true ->
  steps (Start i e cmd :: evs) w = steps evs (World.set_task i (Task.mk e cmd Begin []) w).
Proof. intros Hi Hl. cbn [steps step]. by rewrite Hi, Hl. Qed.

(** The storage operation of a task, to its answer. *)
Lemma steps_running p i x w : World.tasks w !! i = Some x -> Task.at_stage x = Running p ->
  Task.queue x = [] ->
  exists n w', steps (replicate n (Advance i)) w = Some w' /\
    World.server w' = Server.set_storage (fst (run p (Server.storage (World.server w)))) (World.server w) /\
    World.tasks w' = base.delete i (World.tasks w) /\
    World.replies w' = World.replies w ++ [(i, snd (run p (Server.storage (World.server w))))].
Proof.
  revert w x. induction p as [r|k body IH] using scoped_steps; intros w x Hx Hst Hq.
  - exists 1%nat. simpl. rewrite Hx. simpl. unfold advance. rewrite Hst.
    eexists. split; [done|]. simpl. rewrite set_storage_same. split; [done|]. split; [|done].
    unfold next_task. rewrite Hq. by destruct r.
  - destruct (body (entry k (Server.storage (World.server w)))) as [v p] eqn:Hb.
    specialize (IH (entry k (Server.storage (World.server w)))). rewrite Hb in IH. simpl in IH.
    set (w1 := World.set_task i (Task.set_stage (Running p) x)
      (World.set_server (Server.set_storage (set_entry k v (Server.storage (World.server w)))
         (World.server w)) w)).
    destruct (IH w1 (Task.set_stage (Running p) x)) as (n & w' & Hs & Hsv & Ht & Hr); [|done..|].
    { unfold w1. simpl. by rewrite lookup_insert_eq. }
    exists (S n), w'. simpl. rewrite Hx. simpl. unfold advance at 1. rewrite Hst, Hb. fold w1.
    split; [done|]. rewrite Hsv, Ht, Hr. unfold w1. simpl. split_and!; [done| |done].
    by rewrite delete_insert_eq.
Qed.

Context `{UnicodeCase, Argon2, Lua, Sha1}.

Lemma execute_command_open es cmd c s : TxState.in_multi (Conn.tx c) = false -> moved cmd s = None ->
  denied cmd c s = None ->
  execute_command es cmd c s =
  match (if is_write_command cmd then record_write (es 0%nat) cmd s else Ok s) with
  | Ok s => dispatch (execute_fuel 1) es cmd c s
  | Err e => Err e
  | Panic => Panic
  end.
Proof.
  intros Hm Hmv Hd. unfold execute_command, execute_fuel at 1, execute_with at 1.
  by rewrite Hm, Hmv, Hd.
Qed.

#[local] Arguments steps : simpl never.

(** From the start of a command to its storage operation. *)
Lemma steps_recorded i e cmd p s s1 : lockable e cmd = true -> scopes_at e cmd = Some p ->
  (if is_write_command cmd then record_write e cmd s else Ok s) = Ok s1 ->
  exists n w, steps (Start i e cmd :: replicate n (Advance i)) (World.idle s) = Some w /\
    World.server w = s1 /\ base.delete i (World.tasks w) = ∅ /\ World.replies w = [] /\
    World.tasks w !! i = Some (Task.mk e cmd (Running p) []).
Proof.
  intros Hl Hp Hw. destruct (is_write_command cmd) eqn:Hc.
  - unfold record_write in Hw. inv_bind Hw. injection Hw as <-. exists 3%nat.
    eexists. rewrite steps_start by done. cbn [replicate].
    do 3 (erewrite steps_advance by (simpl; apply lookup_insert_eq);
      unfold advance; simpl; rewrite ?Hc, ?Ha).
    split; [done|]. simpl.
    rewrite lookup_insert_eq, !insert_insert_eq. unfold scopes_of. simpl. rewrite Hp.
    split_and!; try done. by rewrite delete_insert_eq.
  - injection Hw as <-. exists 1%nat. eexists. rewrite steps_start by done. cbn [replicate].
    erewrite steps_advance by (simpl; apply lookup_insert_eq).
    unfold advance; simpl. rewrite Hc. split; [done|]. simpl.
    rewrite lookup_insert_eq, !insert_insert_eq. unfold scopes_of. simpl. rewrite Hp.
    split_and!; try done. by rewrite delete_insert_eq.
Qed.

(** A task that is not interrupted is [execute_command]: for every covered
    command that passes the gates, the steps of a lone task (the log, the
    replicas, the counters, the lock scopes of the storage operation, the
    answer) end in the server and the answer of the sequential execution, and
    leave no task behind. *)
Theorem uninterrupted_task_is_execute_command es cmd c s s' c' r i : inv (Server.storage s) ->
  lockable (es 0%nat) cmd = true -> TxState.in_multi (Conn.tx c) = false -> moved cmd s = None ->
  denied cmd c s = None -> execute_command es cmd c s = Ok (s', c', r) ->
  c' = c /\ exists n w, steps (Start i (es 0%nat) cmd :: replicate n (Advance i)) (World.idle s) = Some w /\
    World.server w = s' /\ World.tasks w = ∅ /\ World.replies w = [(i, Ok r)].
Proof.
  intros Hs Hl Hm Hmv Hd Hx. rewrite execute_command_open in Hx by done.
  destruct (lockable_scopes _ _ Hl) as [p Hp].
  destruct (if is_write_command cmd then _ else _) as [a| |] eqn:Ha; try done.
  destruct (steps_recorded i (es 0%nat) cmd p s a Hl Hp Ha) as (n & w & Hn & Hsv & Ht & Hr & Hx').
  destruct (steps_running p i _ w Hx' eq_refl eq_refl) as (n' & w' & Hn' & Hsv' & Ht' & Hr').
  rewrite Hsv in Hsv', Hr'. clear Hsv.
  assert (Hi : Server.storage a = Server.storage s).
  { destruct (is_write_command cmd); [|by injection Ha as <-]. unfold record_write in Ha.
    inv_bind Ha. by injection Ha as <-. }
  unfold dispatch, execute_at in Hx. rewrite (run_scopes _ _ _ p) in Hx by (by rewrite ?Hi).
  destruct (run p (Server.storage a)) as [m [r'| |]] eqn:Hrun; simpl in *; try done.
  injection Hx as <- <- <-.
  split; [done|]. exists (n + n')%nat, w'. rewrite replicate_add. rewrite app_comm_cons, steps_app, Hn.
  simpl. split; [done|]. split; [done|]. split; [by rewrite Ht', Ht|]. by rewrite Hr', Hr.
Qed.
End alone.

(** ** Tasks that do not race *)

Section races.
Context `{KeyMapLaws M, Mpsc B, Layout, Xxh3}.
Implicit Types (w : World.t M B) (s : Server.t M B) (m : M).

(** Maps with the same entries are the same finite map. *)
Lemma abs_ext m m' : inv m -> inv m' -> (forall k, entry k m = entry k m') -> abs m = abs m'.
Proof. intros Hm Hm' He. apply map_eq. intros k. by rewrite <- !entry_abs. Qed.

Lemma step_order ev w w' : step ev w = Some w' -> World.order w `prefix_of` World.order w'.
Proof.
  destruct ev as [i e cmd|i es tx|i]; simpl.
  - case_match; intros [= <-]. done.
  - repeat case_match; intros [= <-]; done.
  - destruct (World.tasks w !! i) as [x|]; [|done]. intros [= <-]. unfold advance.
    repeat case_match; simpl; try done; by eexists.
Qed.

Lemma steps_order evs w w' : steps evs w = Some w' -> World.order w `prefix_of` World.order w'.
Proof.
  revert w. induction evs as [|ev evs IH]; intros w; simpl; [by intros [= <-]|].
  destruct (step ev w) as [w1|] eqn:Hs; [|done]. intros Hw. etrans; [by eapply step_order | by apply IH].
Qed.

Lemma quiet_app evs evs' w w1 : quiet (evs ++ evs') w = true -> steps evs w = Some w1 -> quiet evs' w1 = true.
Proof.
  revert w. induction evs as [|ev evs IH]; intros w; simpl; [by intros ? [= <-]|].
  intros [_ Hq]%andb_true_iff. destruct (step ev w); [|done]. by apply IH.
Qed.

Lemma quiet_prefix evs evs' w : quiet (evs ++ evs') w = true -> quiet evs w = true.
Proof.
  revert w. induction evs as [|ev evs IH]; intros w; simpl.
  - destruct evs'; simpl; intros [Hr _]%andb_true_iff; by rewrite Hr.
  - intros [-> Hq]%andb_true_iff. simpl. destruct (step ev w); [|done]. by apply IH.
Qed.

(** When all tasks have ended. *)
Lemma quiescent late m0 q m R : inv m0 -> tracks m0 late q m ∅ R ->
  abs m = abs (fst (serial q m0)) /\ forall i, replies_of i R = replies_of i (snd (serial q m0)).
Proof.
  intros Hm0 [Hi Hl Hf Ho Hr Hd]. split.
  - apply abs_ext; [done|by apply serial_inv|]. intros k. apply Hf. intros i x. by rewrite lookup_empty.
  - intros i. apply Hd. intros x. by rewrite lookup_empty.
Qed.

(** C10. Race-free executions are linearizable: however the steps of the
    connections interleave, as long as no two tasks are in commands that
    conflict and none is a script, the run goes through, and there is one order of the commands
    such that at any moment every connection that waits for nothing has got
    the answers that executing the commands one after the other in that order
    gives it; the order only grows, so that a command that was answered comes
    before every command that starts later; and when all tasks have ended the
    storage is the one of that serial execution. *)
Theorem race_free_runs_are_linearizable s evs evs' : inv (Server.storage s) -> versions_wf (Server.versions s) ->
  quiet (evs ++ evs') (World.idle s) = true ->
  exists w w', steps evs (World.idle s) = Some w /\ steps evs' w = Some w' /\
    World.order w `prefix_of` World.order w' /\
    (forall i, World.tasks w !! i = None ->
      replies_of i (World.replies w) = replies_of i (snd (serial (World.order w) (Server.storage s)))) /\
    (World.tasks w' = ∅ -> abs (Server.storage (World.server w')) =
      abs (fst (serial (World.order w') (Server.storage s)))).
Proof.
  intros Hi Hv Hq. pose proof (world_start s Hi Hv) as Hok.
  destruct (quiet_world s Hi evs _ Hok (quiet_prefix _ _ _ Hq)) as (w & Hs & Hw).
  destruct (quiet_world s Hi evs' _ Hw (quiet_app _ _ _ _ Hq Hs)) as (w' & Hs' & Hw').
  exists w, w'. split; [done|]. split; [done|]. split; [by eapply steps_order|]. split.
  - intros i Hn. eapply tr_done; [by apply ok_order|]. intros x Hx. congruence.
  - intros Ht. pose proof (ok_order _ _ Hw') as Ho. rewrite Ht in Ho. by apply quiescent in Ho as [Ho _].
Qed.

(** *** The log and the replicas *)

(** What was handed to the replicas was logged first. *)
Definition shipped_logged w : Prop :=
  (forall x, x ∈ World.shipped w -> x ∈ World.order w) /\
  (forall i x, World.tasks w !! i = Some x -> Task.at_stage x = Logged ->
    (i, Task.env x, Task.cmd x) ∈ World.order w).

Lemma shipped_insert w i y : shipped_logged w ->
  (Task.at_stage y = Logged -> (i, Task.env y, Task.cmd y) ∈ World.order w) ->
  shipped_logged (World.set_task i y w).
Proof.
  intros [Hs Hl] Hy. split; [done|]. simpl.
  intros j x [[-> <-]|[Hj Hx]]%lookup_insert_Some Hst; [by apply Hy | by apply Hl].
Qed.

Lemma advance_shipped i x w : shipped_logged w -> World.tasks w !! i = Some x -> shipped_logged (advance i x w).
Proof.
  intros Hok Hx. pose proof Hok as [Hs Hl]. unfold advance. destruct (Task.at_stage x) eqn:Hst.
  - assert (Hin : (i, Task.env x, Task.cmd x) ∈ World.order w ++ [(i, Task.env x, Task.cmd x)])
      by (apply elem_of_app; right; by left).
    destruct (is_write_command (Task.cmd x)); apply shipped_insert; simpl; try done; split; simpl; intros.
    + apply elem_of_app. left. by apply Hs.
    + apply elem_of_app. left. by apply Hl.
    + match goal with H' : _ ∈ _ |- _ => apply elem_of_app in H' as [Hin'| ->%list_elem_of_singleton] end; [|done].
      apply elem_of_app. left. by apply Hs.
    + apply elem_of_app. left. by apply Hl.
  - apply shipped_insert; simpl; try done. split; simpl; [|done].
    intros z [Hz| ->%list_elem_of_singleton]%elem_of_app; [by apply Hs | by apply Hl].
  - destruct (bump_versions_for _ _) as [v| |].
    { by apply shipped_insert. }
    all: split; simpl; [done|]; intros j y; destruct (decide (j = i)) as [->|Hj];
      [by rewrite lookup_partial_alter_eq | rewrite lookup_partial_alter_ne by done; apply Hl].
  - destruct p as [r|k body].
    + split; simpl; [done|]. intros j y. destruct (decide (j = i)) as [->|Hj].
      * rewrite lookup_partial_alter_eq. unfold next_task. repeat case_match; intros [= <-]. done.
      * rewrite lookup_partial_alter_ne by done. apply Hl.
    + destruct (body _) as [v p]. by apply shipped_insert.
Qed.

Lemma step_shipped ev w w' : shipped_logged w -> step ev w = Some w' -> shipped_logged w'.
Proof.
  intros Hok. destruct ev as [i e cmd|i es tx|i]; simpl.
  - case_match; intros [= <-]. by apply shipped_insert.
  - repeat case_match; intros [= <-]; by try apply shipped_insert.
  - destruct (World.tasks w !! i) as [x|] eqn:Hx; [|done]. intros [= <-]. by apply advance_shipped.
Qed.

Lemma steps_shipped evs w w' : shipped_logged w -> steps evs w = Some w' -> shipped_logged w'.
Proof.
  revert w. induction evs as [|ev evs IH]; intros w Hok; simpl; [by intros [= <-]|].
  destruct (step ev w) as [w1|] eqn:Hs; [|done]. apply IH. by eapply step_shipped.
Qed.

(** A command whose replay is its execution. *)
Definition faithful (x : nat * Env * Command.t) : bool := append_ok x.1.2 && replayable x.2 && timeless x.2.

(** The writes of an order in the environments in which they ran. *)
Definition entries_of (q : list (nat * Env * Command.t)) : list log_entry :=
  map (fun x => entry_in x.1.2 x.2) (List.filter is_write_of q).

Lemma command_entries_of q : map command (entries_of q) = log_of q.
Proof. unfold entries_of, log_of. by rewrite map_map. Qed.

(** The replay of the writes is the serial execution. *)
Lemma serial_replay q m : inv m -> Forall (fun x => lockable x.1.2 x.2 = true) q ->
  Forall (fun x => faithful x = true) q -> Forall (fun r => is_ok r.2 = true) (snd (serial q m)) ->
  replay (entries_of q) m = Ok (fst (serial q m)).
Proof.
  revert m. induction q as [|[[i e] cmd] q IH]; intros m Hm Hl Hf Hr; [done|].
  apply Forall_cons in Hl as [Hl Hls], Hf as [Hf Hfs]. destruct (lockable_scopes _ _ Hl) as [p Hp].
  simpl in Hp, Hr |- *. rewrite (perform_scopes e cmd p m) in * by done.
  pose proof (run_inv p m Hm) as Hi. assert (Hx : execute_at e cmd m = Some (run p m)) by by apply run_scopes.
  destruct (run p m) as [m1 r] eqn:Hrun. specialize (IH m1 Hi Hls Hfs).
  destruct (serial q m1) as [m2 rs]. simpl in *. apply Forall_cons in Hr as [Hr Hrs].
  unfold entries_of. simpl. unfold is_write_of at 1. simpl. destruct (is_write_command cmd) eqn:Hw.
  - unfold faithful in Hf. simpl in Hf. apply andb_true_iff in Hf as [[_ Hf]%andb_true_iff _].
    destruct r as [r| |]; [|done..]. destruct (execute_untouched e cmd m m1 r Hm Hw Hx) as (_ & _ & Ha).
    simpl. rewrite Ha by done. by apply IH.
  - apply execute_storage_read in Hx; [|done]. subst m1. by apply IH.
Qed.

(** What the storage will be on the keys of the recorded writes in flight, and
    is on all others. *)
Definition finished (late : Task.t -> bool) (T : tasks_t) m m' : Prop :=
  (forall k, (forall i x, T !! i = Some x -> pending late x -> k ∉ footprint (Task.cmd x)) ->
    entry k m' = entry k m) /\
  (forall i x k, T !! i = Some x -> pending late x -> k ∈ footprint (Task.cmd x) ->
    entry k m' = entry k (fst (run (residual x) m))).

Lemma finished_idle late m m' : inv m -> inv m' -> finished late ∅ m m' -> abs m' = abs m.
Proof. intros Hm Hm' [Hf _]. apply abs_ext; [done..|]. intros k. apply Hf. intros i x. by rewrite lookup_empty. Qed.

(** An order replays, whatever the replay meets, to the storage in which its
    commands have finished. *)
Lemma tracked_recovers late m0 q m T R log : inv m0 -> no_deadlines m0 -> tracks m0 late q m T R ->
  Forall (fun x => faithful x = true) q -> Forall (fun r => is_ok r.2 = true) R ->
  (forall i x, T !! i = Some x -> late x = true -> is_ok (snd (run (residual x) m)) = true) ->
  map command log = log_of q ->
  exists m', replay log m0 = Ok m' /\ inv m' /\ finished late T m m'.
Proof.
  intros Hm0 Hn [Hi Hl Hfree Ho Hr Hd] Hf HR Hres Hlog.
  assert (Hio : inv (fst (serial q m0))) by by apply serial_inv.
  assert (Hfin : finished late T m (fst (serial q m0))).
  { split; [intros k Hk; symmetry; by apply Hfree|]. intros i x k Hx Hp Hk. symmetry. by eapply Ho. }
  exists (fst (serial q m0)). split; [|done].
  assert (Htl : forallb timeless (log_of q) = true).
  { apply forallb_forall. intros c (y & <- & [Hy _]%filter_In)%in_map_iff. rewrite Forall_forall in Hf. specialize (Hf y). rewrite list_elem_of_In in Hf.
    specialize (Hf Hy). by apply andb_true_iff in Hf as [_ Hf]. }
  rewrite (replay_anywhere log (entries_of q)) by (by rewrite ?command_entries_of, ?Hlog).
  apply serial_replay; [done..|]. apply Forall_forall. intros [i r] Hin.
  assert (Hin' : r ∈ replies_of i (snd (serial q m0))).
  { unfold replies_of. apply list_elem_of_fmap. exists (i, r). split; [done|]. by apply list_elem_of_filter. }
  assert (HRi : forall r', r' ∈ replies_of i R -> is_ok r' = true).
  { intros r' (z & -> & [_ Hz]%list_elem_of_filter)%list_elem_of_fmap. rewrite Forall_forall in HR. by apply HR. }
  destruct (T !! i) as [x|] eqn:Hx.
  - destruct (late x) eqn:Hlx.
    + rewrite <- (Hr i x Hx Hlx) in Hin'. apply elem_of_app in Hin' as [Hin'|Hin']; [by apply HRi|].
      apply list_elem_of_singleton in Hin'. simpl. subst r. by apply (Hres i x).
    + rewrite <- (Hd i) in Hin' by congruence. by apply HRi.
  - rewrite <- (Hd i) in Hin' by congruence. by apply HRi.
Qed.

End races.

(** ** WATCH and writes in flight *)

Section watch.
Context `{KeyMapLaws M, Mpsc B, Layout, Xxh3}.
Implicit Types (w : World.t M B) (s : Server.t M B) (m : M).

Record safe w : Prop := {
  safe_inv : inv (Server.storage (World.server w));
  safe_versions : versions_wf (Server.versions (World.server w));
  safe_tasks : forall i x, World.tasks w !! i = Some x -> task_wf x;
}.

(** The shards whose counter an event increments. *)
Definition bumped_by (ev : event) w : list nat :=
  match ev with
  | Advance i =>
      match World.tasks w !! i with
      | Some x => match Task.at_stage x with Sent => bumps (Task.cmd x) | _ => [] end
      | None => []
      end
  | _ => []
  end.
Fixpoint bumped (evs : list event) w : list nat :=
  match evs with
  | [] => []
  | ev :: evs => bumped_by ev w ++ match step ev w with Some w => bumped evs w | None => [] end
  end.

(** A write of [k] that was counted and is not finished. *)
Definition counted_write (k : bytes) (x : Task.t) : Prop :=
  match Task.at_stage x with Running _ => True | _ => False end /\
  is_write_command (Task.cmd x) = true /\ k ∈ footprint (Task.cmd x).
Definition no_counted_write (k : bytes) w : Prop :=
  forall i x, World.tasks w !! i = Some x -> ~ counted_write k x.

Lemma footprint_touched cmd : is_write_command cmd = true -> footprint cmd = touched cmd.
Proof. by destruct cmd. Qed.

(** What one event does: as long as no write of [k] is counted and unfinished,
    the entry of [k] stays, and a write of it becomes counted only with its
    shard. *)
Record watched_step (k : bytes) w w' (L : list nat) : Prop := {
  ws_safe : safe w';
  ws_entry : no_counted_write k w ->
    entry k (Server.storage (World.server w')) = entry k (Server.storage (World.server w));
  ws_count : no_counted_write k w -> no_counted_write k w' \/ shard_index k ∈ L;
  ws_version : forall j, version j (Server.versions (World.server w')) mod 2 ^ 64 =
    (version j (Server.versions (World.server w)) + Z.of_nat (copies j L)) mod 2 ^ 64;
}.

Lemma safe_set (T : tasks_t) (P : Task.t -> Prop) i o : (forall j y, T !! j = Some y -> P y) ->
  (forall x, o = Some x -> P x) -> forall j y, partial_alter (fun _ => o) i T !! j = Some y -> P y.
Proof.
  intros HT Ho j y. destruct (decide (j = i)) as [->|Hj].
  - rewrite lookup_partial_alter_eq. apply Ho.
  - rewrite lookup_partial_alter_ne by done. apply HT.
Qed.

(** A step that leaves the counters. *)
Lemma watched_same k w w' i o : safe w ->
  World.tasks w' = partial_alter (fun _ => o) i (World.tasks w) ->
  (forall x, o = Some x -> task_wf x /\ (no_counted_write k w -> ~ counted_write k x)) ->
  inv (Server.storage (World.server w')) ->
  (no_counted_write k w ->
    entry k (Server.storage (World.server w')) = entry k (Server.storage (World.server w))) ->
  Server.versions (World.server w') = Server.versions (World.server w) -> watched_step k w w' [].
Proof.
  intros [Hi Hv Ht] HT Ho Hi' He Hver. split; [split| | |]; rewrite ?Hver; try done.
  - rewrite HT. apply safe_set; [done|]. intros x Hx. by apply Ho.
  - intros Hk. left. unfold no_counted_write. rewrite HT. apply safe_set; [done|].
    intros x Hx. by apply Ho.
  - intros j. unfold copies. simpl. by rewrite Z.add_0_r.
Qed.

Lemma begin_not_counted k x : Task.at_stage x = Begin -> ~ counted_write k x.
Proof. intros Hx [Hr _]. by rewrite Hx in Hr. Qed.

(** The counters: the write becomes counted. *)
Lemma watched_count k i x w : safe w -> World.tasks w !! i = Some x ->
  Task.at_stage x = Sent -> watched_step k w (advance i x w) (bumps (Task.cmd x)).
Proof.
  intros [Hi Hv Ht] Hx Hst. pose proof (Ht i x Hx) as Hwf. unfold advance. rewrite Hst.
  destruct (bump_all_version (bumps (Task.cmd x)) _ Hv (bumps_lt _)) as (v & Hb & Hwf' & Hver).
  rewrite <- bump_versions_bumps in Hb. rewrite Hb. split; simpl; [split| | |]; simpl; try done.
  - apply insert_wf; [done|]. apply set_stage_wf; [done| |done].
    unfold residual at 2. by rewrite Hst.
  - intros Hk.
    destruct (decide (is_write_command (Task.cmd x) = true /\ k ∈ footprint (Task.cmd x))) as [[Hw Hf]|Hn].
    + right. apply touched_bumps. by rewrite <- footprint_touched.
    + left. intros j y. simpl. intros [[-> <-]|[Hj Hy]]%lookup_insert_Some; [by intros [_ ?] | by eapply Hk].
Qed.

(** The storage operation: of [k], only in a counted write. *)
Lemma watched_run k i x w p : safe w -> World.tasks w !! i = Some x ->
  Task.at_stage x = Running p -> watched_step k w (advance i x w) [].
Proof.
  intros Hs Hx Hst. pose proof Hs as [Hi Hv Ht]. pose proof (Ht i x Hx) as Hwf. unfold advance. rewrite Hst.
  destruct p as [r|k' body].
  - eapply watched_same; try done. intros y Hy. destruct (next_wf _ _ _ Hwf Hy) as [Hy1 Hy2].
    split; [done|]. intros _. apply begin_not_counted. unfold late_log in Hy2. by destruct (Task.at_stage y).
  - destruct (body (entry k' _)) as [v p] eqn:Hb.
    pose proof (scope_wf x k' body (entry k' (Server.storage (World.server w))) Hwf Hst) as Hp.
    rewrite Hb in Hp. simpl in Hp.
    eapply (watched_same _ _ _ i (Some (Task.set_stage (Running p) x))); simpl; try done.
    + intros y [= <-]. split; [done|]. intros Hk [_ Hc]. apply (Hk i x Hx). split; [by rewrite Hst | done].
    + by apply set_entry_inv.
    + intros Hk. rewrite entry_set_entry by done. case_decide as E; [subst k'|done].
      destruct (is_write_command (Task.cmd x)) eqn:Hw; [|by apply (reader_keeps (Server.storage (World.server w)) x k body v p)].
      exfalso. apply (Hk i x Hx). split_and!; [by rewrite Hst | done | by eapply scope_key].
Qed.

Lemma watched_begin k i e cmd q w : safe w -> lockable e cmd = true ->
  forallb (fun '(e, cmd) => lockable e cmd) q = true ->
  watched_step k w (World.set_task i (Task.mk e cmd Begin q) w) [].
Proof.
  intros Hs Hc Hq.
  eapply (watched_same _ _ _ i (Some (Task.mk e cmd Begin q))); simpl; try done; [|apply Hs].
  intros x [= <-]. split; [by apply begin_wf | intros _; by apply begin_not_counted].
Qed.

Lemma step_watch k ev w w' : safe w -> step ev w = Some w' -> watched_step k w w' (bumped_by ev w).
Proof.
  intros Hs. destruct ev as [i e cmd|i es tx|i]; simpl.
  - destruct (bool_decide (World.tasks w !! i = None)) eqn:Hi; [|done].
    destruct (lockable e cmd) eqn:Hc; [|done]. intros [= <-]. by apply watched_begin.
  - destruct (bool_decide (World.tasks w !! i = None)) eqn:Hi; [|done].
    assert (Hsame : watched_step k w w []).
    { split; [done..|by left|]. intros j. unfold copies. simpl. by rewrite Z.add_0_r. }
    destruct (TxState.any_watched_changed _ tx) as [[]| |]; try done; [by intros [= <-]|].
    destruct (forallb _ _) eqn:Hq; [|done]. intros [= <-].
    destruct (queued es _) as [|[e cmd] q]; [done|]. simpl in Hq. apply andb_true_iff in Hq as [Hc Hq].
    by apply watched_begin.
  - destruct (World.tasks w !! i) as [x|] eqn:Hx; [|done]. intros [= <-].
    pose proof (safe_tasks w Hs i x Hx) as Hwf. destruct (Task.at_stage x) eqn:Hst.
    + unfold advance. rewrite Hst. destruct (is_write_command (Task.cmd x)) eqn:Hc;
        (eapply (watched_same _ _ _ i (Some (Task.set_stage _ x))); simpl; try done; [|apply Hs]);
        intros y [= <-]; (split; [apply set_stage_wf; try done; unfold residual at 2; by rewrite Hst|]);
        intros _ [Hr [Hw _]]; [done | simpl in Hw; congruence].
    + unfold advance. rewrite Hst. pose proof (wf_stage x Hwf) as Hw. rewrite Hst in Hw.
      eapply (watched_same _ _ _ i (Some (Task.set_stage Sent x))); simpl; try done; [|apply Hs].
      intros y [= <-]. split; [apply set_stage_wf; try done; unfold residual at 2; by rewrite Hst|].
      by intros _ [Hr _].
    + by apply watched_count.
    + by eapply watched_run.
Qed.

Lemma steps_safe evs w w' : safe w -> steps evs w = Some w' ->
  safe w' /\ forall j, version j (Server.versions (World.server w')) mod 2 ^ 64 =
    (version j (Server.versions (World.server w)) + Z.of_nat (copies j (bumped evs w))) mod 2 ^ 64.
Proof.
  revert w. induction evs as [|ev evs IH]; intros w Hs; cbn [steps bumped].
  { intros [= <-]. split; [done|]. intros j. unfold copies. simpl. by rewrite Z.add_0_r. }
  destruct (step ev w) as [w1|] eqn:E; [|done]. simpl. intros Hw.
  destruct (step_watch [] ev w w1 Hs E) as [Hs1 _ _ Hv]. destruct (IH w1 Hs1 Hw) as [Hs' Hv'].
  split; [done|]. intros j. rewrite Hv', <- Zplus_mod_idemp_l, Hv, Zplus_mod_idemp_l. f_equal.
  unfold copies. rewrite filter_app, length_app. lia.
Qed.

Lemma steps_watch k evs w w' : safe w -> no_counted_write k w -> steps evs w = Some w' ->
  shard_index k ∉ bumped evs w ->
  entry k (Server.storage (World.server w')) = entry k (Server.storage (World.server w)) /\ no_counted_write k w'.
Proof.
  revert w. induction evs as [|ev evs IH]; intros w Hs Hk; cbn [steps bumped].
  { by intros [= <-]. }
  destruct (step ev w) as [w1|] eqn:E; [|done]. simpl. rewrite elem_of_app. intros Hw Hn.
  destruct (step_watch k ev w w1 Hs E) as [Hs1 He Hc _].
  destruct (Hc Hk) as [Hk1|Hin]; [|by destruct Hn; left].
  destruct (IH w1 Hs1 Hk1 Hw) as [E1 Hk']; [by intros Hin; apply Hn; right|]. by rewrite E1, He.
Qed.

End watch.

(** ** Executions *)

#[global] Instance response_eq_dec : EqDecision Response.t.
Proof. solve_decision. Defined.

Import Defaults.

Section executions.

(** A server with a log and replicas. *)
Definition fresh_server : Server.t ShardedMap boxes := Server.new (Some []) (Some []) None.
Definition tick : Env := {| now := 0; wall := 0; random := 0; append_ok := true; order := default_order; draws := first_choice |}.
Definition put (k v : string) : Command.t := Command.Set' (bs k) (bs v) None.
Definition the_string (k : string) (m : ShardedMap) : option bytes :=
  match entry (bs k) m with Some (CString v _) => Some v | _ => None end.

(** Two connections that set two keys and read a third, interleaved. *)
Definition calm : list event :=
  [Start 0 tick (put "a" "1"); Start 1 tick (put "b" "2"); Start 2 tick (Command.Get (bs "c"));
   Advance 0; Advance 1; Advance 2; Advance 1; Advance 0; Advance 0; Advance 1; Advance 2;
   Advance 0; Advance 1; Advance 2; Advance 1; Advance 0].

(** Two connections set one key: 0 is logged first and stored last. *)
Definition racing : list event :=
  [Start 0 tick (put "k" "old"); Start 1 tick (put "k" "new"); Advance 0; Advance 1;
   Advance 0; Advance 0; Advance 1; Advance 1; Advance 1; Advance 1; Advance 0; Advance 0].

Definition whole (i : nat) (cmd : Command.t) (n : nat) : list event := Start i tick cmd :: replicate n (Advance i).

Definition recovered (w : World.t ShardedMap boxes) : res ShardedMap :=
  replay (map (entry_in tick) (default [] (Server.wal (World.server w)))) empty_map.
Definition replicated (w : World.t ShardedMap boxes) : res ShardedMap :=
  replay (map (entry_in tick) (default [] (Server.replicator (World.server w)))) empty_map.
Definition holds (k v : string) (r : res ShardedMap) : bool :=
  match r with Ok m => bool_decide (the_string k m = Some (bs v)) | _ => false end.

(** A run with a look at the server on the way. *)
Definition moments (evs evs' : list event) (P : World.t ShardedMap boxes -> World.t ShardedMap boxes -> bool)
  : bool :=
  match steps evs (World.idle fresh_server) with
  | Some w => match steps evs' w with Some w' => P w w' | None => false end
  | None => false
  end.

Lemma moments_spec evs evs' P : moments evs evs' P = true ->
  exists w w', steps evs (World.idle fresh_server) = Some w /\ steps evs' w = Some w' /\ P w w' = true.
Proof.
  unfold moments. destruct (steps evs _) as [w|]; [|done]. destruct (steps evs' w) as [w'|] eqn:E; [|done].
  intros Hp. by exists w, w'.
Qed.

Definition idle_now (w : World.t ShardedMap boxes) : bool := bool_decide (map_to_list (World.tasks w) = []).
Lemma idle_now_spec w : idle_now w = true -> World.tasks w = ∅.
Proof. unfold idle_now. by intros ?%bool_decide_eq_true%map_to_list_empty_iff. Qed.

(** Races lose the order: two connections that set one key at the same time can
    leave the storage with the value of the first in the log, while the log and
    the replicas end with the value of the second; both connections were told
    [OK]. *)
Theorem racing_writes_diverge : exists w, steps racing (World.idle fresh_server) = Some w /\
  World.tasks w = ∅ /\
  World.replies w = [(1%nat, Ok Response.Ok); (0%nat, Ok Response.Ok)] /\
  the_string "k" (Server.storage (World.server w)) = Some (bs "old") /\
  holds "k" "new" (recovered w) = true /\ holds "k" "new" (replicated w) = true.
Proof.
  destruct (moments_spec [] racing (fun _ w => idle_now w &&
    bool_decide (World.replies w = [(1%nat, Ok Response.Ok); (0%nat, Ok Response.Ok)] /\
      the_string "k" (Server.storage (World.server w)) = Some (bs "old") /\
      holds "k" "new" (recovered w) = true /\ holds "k" "new" (replicated w) = true)))
    as (w0 & w & [= <-] & Hw & Hp); [by vm_compute|].
  apply andb_true_iff in Hp as [Ht%idle_now_spec Hp%bool_decide_eq_true]. exists w.
  exact (conj Hw (conj Ht Hp)).
Qed.

Definition shard_counter (k : string) (w : World.t ShardedMap boxes) : res Z :=
  ShardVersions.read (shard_index (bs k)) (Server.versions (World.server w)).

(** WATCH comes too late: between the increment of the counter and the change
    of the entry, a connection that watches the key and reads it gets the new
    counter with the old value, and the counter does not move any more when
    the value changes. *)
Theorem watch_misses_counted_write : exists w w',
  steps (whole 0 (put "k" "new") 3) (World.idle fresh_server) = Some w /\
  steps [Advance 0; Advance 0] w = Some w' /\
  shard_counter "k" w' = shard_counter "k" w /\
  the_string "k" (Server.storage (World.server w)) = None /\
  the_string "k" (Server.storage (World.server w')) = Some (bs "new").
Proof.
  destruct (moments_spec (whole 0 (put "k" "new") 3) [Advance 0; Advance 0] (fun w w' => bool_decide (
    shard_counter "k" w' = shard_counter "k" w /\
    the_string "k" (Server.storage (World.server w)) = None /\
    the_string "k" (Server.storage (World.server w')) = Some (bs "new")))) as (w & w' & Hw & Hw' & Hp);
    [by vm_compute|]. apply bool_decide_eq_true in Hp. exists w, w'. exact (conj Hw (conj Hw' Hp)).
Qed.

(** A transaction whose watched counters are those of a fresh server. *)
Definition optimistic : TxState.t :=
  TxState.mk (Some [put "k" "mine"]) false {[shard_index (bs "k") := 0]}.

(** EXEC is not atomic: it compares the counters, another connection writes the
    watched key, and then the transaction writes over it; the counter had
    moved before the transaction stored anything, and both were told [OK]. *)
Theorem exec_overwrites_watched_key : exists w w',
  steps (StartExec 0 (fun _ => tick) optimistic :: whole 1 (put "k" "theirs") 5) (World.idle fresh_server) = Some w /\
  steps (replicate 5 (Advance 0)) w = Some w' /\
  the_string "k" (Server.storage (World.server w)) = Some (bs "theirs") /\ shard_counter "k" w = Ok 1 /\
  the_string "k" (Server.storage (World.server w')) = Some (bs "mine") /\
  World.replies w' = [(1%nat, Ok Response.Ok); (0%nat, Ok Response.Ok)].
Proof.
  destruct (moments_spec (StartExec 0 (fun _ => tick) optimistic :: whole 1 (put "k" "theirs") 5)
    (replicate 5 (Advance 0)) (fun w w' => bool_decide (
    the_string "k" (Server.storage (World.server w)) = Some (bs "theirs") /\ shard_counter "k" w = Ok 1 /\
    the_string "k" (Server.storage (World.server w')) = Some (bs "mine") /\
    World.replies w' = [(1%nat, Ok Response.Ok); (0%nat, Ok Response.Ok)])))
    as (w & w' & Hw & Hw' & Hp); [by vm_compute|]. apply bool_decide_eq_true in Hp. exists w, w'. exact (conj Hw (conj Hw' Hp)).
Qed.

(** RENAME is seen half done: between its two locks neither key holds the
    value. *)
Theorem rename_loses_sight : exists w w',
  steps (whole 0 (put "a" "1") 5) (World.idle fresh_server) = Some w /\
  steps (whole 1 (Command.Rename (bs "a") (bs "b")) 4) w = Some w' /\
  the_string "a" (Server.storage (World.server w)) = Some (bs "1") /\
  the_string "a" (Server.storage (World.server w')) = None /\
  the_string "b" (Server.storage (World.server w')) = None.
Proof.
  destruct (moments_spec (whole 0 (put "a" "1") 5) (whole 1 (Command.Rename (bs "a") (bs "b")) 4)
    (fun w w' => bool_decide (
    the_string "a" (Server.storage (World.server w)) = Some (bs "1") /\
    the_string "a" (Server.storage (World.server w')) = None /\
    the_string "b" (Server.storage (World.server w')) = None))) as (w & w' & Hw & Hw' & Hp);
    [by vm_compute|]. apply bool_decide_eq_true in Hp. exists w, w'. exact (conj Hw (conj Hw' Hp)).
Qed.

(** MSET is seen half done. *)
Theorem mset_is_not_atomic : exists w,
  steps (whole 0 (Command.MSet [(bs "a", bs "1"); (bs "b", bs "2")]) 4) (World.idle fresh_server) = Some w /\
  the_string "a" (Server.storage (World.server w)) = Some (bs "1") /\
  the_string "b" (Server.storage (World.server w)) = None.
Proof.
  destruct (moments_spec [] (whole 0 (Command.MSet [(bs "a", bs "1"); (bs "b", bs "2")]) 4)
    (fun _ w => bool_decide (
    the_string "a" (Server.storage (World.server w)) = Some (bs "1") /\
    the_string "b" (Server.storage (World.server w)) = None))) as (w0 & w & [= <-] & Hw & Hp);
    [by vm_compute|]. apply bool_decide_eq_true in Hp. exists w. exact (conj Hw Hp).
Qed.
End executions.

(** ** Witnesses *)

Lemma fresh_inv : inv (Server.storage fresh_server).
Proof. exact new_inv. Qed.
Lemma fresh_versions : versions_wf (Server.versions fresh_server).
Proof. exact new_versions_wf. Qed.
Lemma idle_safe : safe (World.idle fresh_server).
Proof. split; [exact fresh_inv | exact fresh_versions | done]. Qed.

Lemma race_free_runs_are_linearizable_witness : exists w w',
  steps (take 10 calm) (World.idle fresh_server) = Some w /\ steps (drop 10 calm) w = Some w' /\
  (World.tasks w' = ∅ -> abs (Server.storage (World.server w')) =
    abs (fst (serial (World.order w') (Server.storage fresh_server)))).
Proof.
  destruct (race_free_runs_are_linearizable fresh_server (take 10 calm) (drop 10 calm) fresh_inv fresh_versions)
    as (w & w' & Hw & Hw' & _ & _ & Ha); [by vm_compute|].
  exists w, w'. exact (conj Hw (conj Hw' Ha)).
Defined.


