(* ===== verification/Isolation.v ===== *)
(** * Isolation: a transaction nobody interferes with is atomic

    Commands that do not conflict commute ([serial_swap]), so a serial execution
    may be regrouped: the commands of one connection can be put behind those of
    the others that came between them ([serial_regroup]).  With the
    linearizability of race-free runs this makes EXEC atomic when no other
    connection touches its keys while it runs; [exec_overwrites_watched_key] of
    [ConcurrencyTheorems] shows that it is not otherwise. *)

From S2P Require Import Prelude Text External Float64 BTree Values SortedSet SortedSetFacts Stream.
From S2P Require Import Keyspace ShardedMap Storage StorageTypes StorageFacts ListFacts SetFacts.
From S2P Require Import Resp Command Apply ApplyFacts ReplayClocks Ring Transactions Security.
From S2P Require Import PubSub Scripting Server ServerFacts Concurrency ConcurrencyFacts.
From S2P Require Import Serializability ConcurrencyTheorems.
#[local] Open Scope Z_scope.

Section commute.
Context `{KeyMapLaws M, Layout}.
Implicit Types (m : M) (q : list (nat * Env * Command.t)).

(** Maps with the same entries. *)
Record same m m' : Prop := {
  same_l : inv m;
  same_r : inv m';
  same_entry : forall k, entry k m = entry k m';
}.

#[local] Instance same_trans : Transitive same.
Proof. intros a b c [Ha Hb E] [Hb' Hc E']. split; [done..|]. intros k. by rewrite E. Qed.

Abbreviation locks x := (lockable x.1.2 x.2 = true).

(** Commands do not tell maps with the same entries apart. *)
Lemma perform_same e cmd m m' : lockable e cmd = true -> same m m' ->
  same (fst (perform e cmd m)) (fst (perform e cmd m')) /\ snd (perform e cmd m) = snd (perform e cmd m').
Proof.
  intros Hl [Hm Hm' He]. destruct (lockable_scopes _ _ Hl) as [p Hp].
  rewrite !(perform_scopes e cmd p) by done. pose proof (within_scopes _ _ _ _ Hp) as Hw.
  destruct (run_local _ p m m' Hw Hm Hm' (fun k _ => He k)) as [Hr Hk]. split; [|done].
  split; [by apply run_inv..|]. intros k. destruct (decide (k ∈ footprint cmd)); [by apply Hk|].
  by rewrite !(run_frame (footprint cmd)).
Qed.

Lemma serial_same q m m' : Forall (fun x => locks x) q -> same m m' ->
  same (fst (serial q m)) (fst (serial q m')) /\ snd (serial q m) = snd (serial q m').
Proof.
  intros Hq. revert m m'. induction Hq as [|[[i e] cmd] q Hc Hq IH]; intros m m' Hs; simpl; [done|].
  destruct (perform_same e cmd m m' Hc Hs) as [Hs1 Hr]. destruct (perform e cmd m) as [m1 r].
  destruct (perform e cmd m') as [m1' r']. simpl in *. destruct (IH m1 m1' Hs1) as [Hs2 Hrs].
  destruct (serial q m1), (serial q m1'). simpl in *. by subst.
Qed.

(** A command does not see one it does not conflict with. *)
Lemma perform_unseen e cmd e' cmd' m : inv m -> lockable e cmd = true -> lockable e' cmd' = true ->
  conflict cmd cmd' = false ->
  let m1 := fst (perform e cmd m) in
  snd (perform e' cmd' m1) = snd (perform e' cmd' m) /\
  forall k, k ∈ footprint cmd' -> entry k m1 = entry k m /\
    entry k (fst (perform e' cmd' m1)) = entry k (fst (perform e' cmd' m)).
Proof.
  intros Hm Hl Hl' Hc m1. destruct (lockable_scopes _ _ Hl) as [p Hp], (lockable_scopes _ _ Hl') as [p' Hp'].
  assert (Hi : inv m1) by (unfold m1; rewrite (perform_scopes e cmd p) by done; by apply run_inv).
  assert (Hk : forall k, k ∈ footprint cmd' -> entry k m1 = entry k m).
  { intros k Hk. unfold m1. rewrite (perform_scopes e cmd p) by done.
    destruct (is_write_command cmd || is_write_command cmd') eqn:Hw.
    - apply (run_frame (footprint cmd)); [by eapply within_scopes|done|]. intros Hk'.
      by eapply (conflict_apart cmd cmd' k).
    - apply orb_false_iff in Hw as [Hw _]. by rewrite run_readonly by (done || by eapply readonly_scopes). }
  rewrite !(perform_scopes e' cmd' p') by done.
  destruct (run_local _ p' m1 m (within_scopes _ _ _ _ Hp') Hi Hm Hk) as [Hr He]. split; [done|]. auto.
Qed.

Lemma conflict_sym c c' : conflict c c' = conflict c' c.
Proof.
  unfold conflict. rewrite (orb_comm (is_write_command c)). f_equal. apply eq_true_iff_eq.
  rewrite !existsb_exists. setoid_rewrite bool_decide_eq_true. setoid_rewrite <- list_elem_of_In. naive_solver.
Qed.

Lemma perform_inv e cmd m : inv m -> lockable e cmd = true -> inv (fst (perform e cmd m)).
Proof.
  intros Hm Hl. destruct (lockable_scopes _ _ Hl) as [p Hp]. rewrite (perform_scopes e cmd p) by done.
  by apply run_inv.
Qed.

Lemma perform_frame e cmd m k : inv m -> lockable e cmd = true -> k ∉ footprint cmd ->
  entry k (fst (perform e cmd m)) = entry k m.
Proof.
  intros Hm Hl Hk. destruct (lockable_scopes _ _ Hl) as [p Hp]. rewrite (perform_scopes e cmd p) by done.
  apply (run_frame (footprint cmd)); [by eapply within_scopes | done..].
Qed.

(** Commands that do not conflict commute. *)
Lemma perform_swap e cmd e' cmd' m : inv m -> lockable e cmd = true -> lockable e' cmd' = true ->
  conflict cmd cmd' = false ->
  let m1 := fst (perform e cmd m) in let m2 := fst (perform e' cmd' m) in
  same (fst (perform e' cmd' m1)) (fst (perform e cmd m2)) /\
  snd (perform e' cmd' m1) = snd (perform e' cmd' m) /\ snd (perform e cmd m2) = snd (perform e cmd m).
Proof.
  intros Hm Hl Hl' Hc. cbv zeta. assert (Hc' : conflict cmd' cmd = false) by by rewrite conflict_sym.
  destruct (perform_unseen e cmd e' cmd' m Hm Hl Hl' Hc) as [Hr1 Hk1].
  destruct (perform_unseen e' cmd' e cmd m Hm Hl' Hl Hc') as [Hr2 Hk2].
  cbv zeta in Hk1, Hk2. pose proof (perform_inv e cmd m Hm Hl) as Hi1. pose proof (perform_inv e' cmd' m Hm Hl') as Hi2.
  split; [|done]. split; [by apply perform_inv..|]. intros k.
  destruct (decide (k ∈ footprint cmd)) as [Ha|Ha], (decide (k ∈ footprint cmd')) as [Hb|Hb].
  - destruct (Hk1 k Hb) as [E1 ->], (Hk2 k Ha) as [E2 ->]. congruence.
  - destruct (Hk2 k Ha) as [_ ->]. by apply perform_frame.
  - destruct (Hk1 k Hb) as [_ ->]. symmetry. by apply perform_frame.
  - by rewrite !perform_frame.
Qed.

(** ** Orders that give the same *)

Definition equiv q q' : Prop := forall m, inv m ->
  same (fst (serial q m)) (fst (serial q' m)) /\
  forall j, replies_of j (snd (serial q m)) = replies_of j (snd (serial q' m)).

Lemma equiv_refl q : Forall (fun x => locks x) q -> equiv q q.
Proof. intros Hq m Hm. split; [|done]. by split; [apply serial_inv..|]. Qed.

Lemma equiv_trans q1 q2 q3 : equiv q1 q2 -> equiv q2 q3 -> equiv q1 q3.
Proof.
  intros H12 H23 m Hm. destruct (H12 m Hm) as [S1 R1], (H23 m Hm) as [S2 R2].
  split; [by etrans|]. intros j. by rewrite R1.
Qed.

Lemma equiv_cons x q q' : locks x -> equiv q q' -> equiv (x :: q) (x :: q').
Proof.
  destruct x as [[i e] cmd]. intros Hl Hq m Hm. simpl. pose proof (perform_inv e cmd m Hm Hl) as Hi.
  destruct (perform e cmd m) as [m1 r]. destruct (Hq m1 Hi) as [Hs Hr].
  destruct (serial q m1) as [m2 rs], (serial q' m1) as [m2' rs']. simpl in *. split; [done|].
  intros j. change (replies_of j ([(i, r)] ++ rs) = replies_of j ([(i, r)] ++ rs')).
  rewrite !replies_of_app. by rewrite Hr.
Qed.

Lemma serial_swap x y q : x.1.1 <> y.1.1 -> locks x -> locks y -> Forall (fun x => locks x) q ->
  conflict x.2 y.2 = false -> equiv (x :: y :: q) (y :: x :: q).
Proof.
  destruct x as [[i e] cmd], y as [[j e'] cmd']. simpl. intros Hij Hx Hy Hq Hc m Hm. simpl.
  destruct (perform_swap e cmd e' cmd' m Hm Hx Hy Hc) as (Hs & Hr1 & Hr2).
  destruct (perform e cmd m) as [m1 r1], (perform e' cmd' m) as [m2 r2]. simpl in *.
  destruct (perform e' cmd' m1) as [m12 r12], (perform e cmd m2) as [m21 r21]. simpl in *. subst.
  destruct (serial_same q m12 m21 Hq Hs) as [Hs' Hrs].
  destruct (serial q m12) as [m3 rs], (serial q m21) as [m3' rs']. simpl in *. subst. split; [done|]. intros z.
  change (replies_of z ([(i, r1)] ++ [(j, r2)] ++ rs') = replies_of z ([(j, r2)] ++ [(i, r1)] ++ rs')).
  rewrite !replies_of_app, !app_assoc. f_equal. destruct (decide (z = i)) as [->|Hz].
  - by rewrite (replies_of_other i j), app_nil_r.
  - rewrite (replies_of_other z i) by done. by rewrite app_nil_r.
Qed.

(** A command moves behind commands it does not conflict with. *)
Lemma serial_move x l q : locks x -> Forall (fun x => locks x) (l ++ q) ->
  Forall (fun y => x.1.1 <> y.1.1 /\ conflict x.2 y.2 = false) l -> equiv (x :: l ++ q) (l ++ x :: q).
Proof.
  intros Hx. induction l as [|y l IH]; intros Hl Hd; simpl; [apply equiv_refl; by constructor|].
  simpl in Hl. apply Forall_cons in Hl as [Hy Hl], Hd as [[Hn Hc] Hd].
  eapply equiv_trans; [by apply serial_swap|]. apply equiv_cons; [done|]. by apply IH.
Qed.

(** The commands of connection [i] and those of the others. *)
Definition mine (i : nat) q := filter (fun x => x.1.1 = i) q.
Definition others (i : nat) q := filter (fun x => x.1.1 <> i) q.

(** Nothing of the others conflicts with a command of [i]. *)
Definition isolated (i : nat) q : bool :=
  forallb (fun x => forallb (fun y => negb (conflict x.2 y.2)) (others i q)) (mine i q).

Lemma serial_regroup i q : Forall (fun x => locks x) q -> isolated i q = true ->
  equiv q (others i q ++ mine i q).
Proof.
  intros Hq Hiso.
  assert (Hc : forall x y, x ∈ q -> y ∈ q -> x.1.1 = i -> y.1.1 <> i -> conflict x.2 y.2 = false).
  { intros x y Hx Hy Hxi Hyi. unfold isolated in Hiso. rewrite forallb_forall in Hiso.
    specialize (Hiso x). rewrite <- list_elem_of_In in Hiso. unfold mine in Hiso.
    rewrite list_elem_of_filter in Hiso. specialize (Hiso (conj Hxi Hx)). rewrite forallb_forall in Hiso.
    specialize (Hiso y). rewrite <- list_elem_of_In in Hiso. unfold others in Hiso.
    rewrite list_elem_of_filter in Hiso. by apply negb_true_iff, Hiso. }
  clear Hiso. induction Hq as [|x q Hx Hq IH]; [by apply equiv_refl|].
  assert (Hrest : equiv q (others i q ++ mine i q)).
  { apply IH. intros y z Hy Hz. apply Hc; by right. }
  eapply equiv_trans; [apply equiv_cons; [done|exact Hrest]|]. unfold others, mine. rewrite !filter_cons.
  assert (Hl : Forall (fun x => locks x) (filter (fun x => x.1.1 <> i) q ++ filter (fun x => x.1.1 = i) q)).
  { apply Forall_app. split; by apply Forall_filter. }
  destruct (decide (x.1.1 = i)) as [Hi|Hi].
  - rewrite decide_False by (by intros ?). apply serial_move; [done..|]. apply Forall_forall. intros y.
    rewrite list_elem_of_filter. intros [Hy Hin]. split; [congruence|]. apply Hc; [by left | by right | done..].
  - rewrite decide_True by done. simpl. apply equiv_refl. by constructor.
Qed.
End commute.

(** ** EXEC *)

Section exec.
Context `{KeyMapLaws M, Mpsc B, Layout, Xxh3}.
Implicit Types (w : World.t M B) (s : Server.t M B).

(** The commands of a queue, as connection [i] executes them. *)
Definition as_run (i : nat) (q : list (Env * Command.t)) : list (nat * Env * Command.t) :=
  map (fun x => (i, x.1, x.2)) q.

(** What a task has still to begin. *)
Definition to_begin (x : Task.t) : list (Env * Command.t) :=
  match Task.at_stage x with
  | Begin => (Task.env x, Task.cmd x) :: Task.queue x
  | _ => Task.queue x
  end.

(** The transaction [q] of connection [i] is under way, or all its commands have
    begun; [w] is where it started. *)
Definition exec_at (i : nat) q0 w w' : Prop :=
  exists l, World.order w' = World.order w ++ l /\
  ((exists x, World.tasks w' !! i = Some x /\ mine i l ++ as_run i (to_begin x) = q0) \/ q0 `prefix_of` mine i l).

Definition answered_ok w : bool := forallb (fun r => is_ok r.2) (World.replies w).

Lemma mine_app i l l' : mine i (l ++ l') = mine i l ++ mine i l'.
Proof. apply filter_app. Qed.

(** What a step of a task begins. *)
Definition begun (x : Task.t) : list (Env * Command.t) :=
  match Task.at_stage x with Begin => [(Task.env x, Task.cmd x)] | _ => [] end.

Lemma advance_order i x w : World.order (advance i x w) = World.order w ++ as_run i (begun x).
Proof. unfold advance, begun. repeat case_match; simpl; by rewrite ?app_nil_r. Qed.

Lemma advance_other i j y w : j <> i -> World.tasks (advance j y w) !! i = World.tasks w !! i.
Proof.
  intros Hij. unfold advance. repeat case_match; simpl;
    by rewrite ?lookup_insert_ne, ?lookup_partial_alter_ne.
Qed.

Lemma mine_as_run i j q : mine i (as_run j q) = if decide (j = i) then as_run j q else [].
Proof.
  induction q as [|[e cmd] q IH]; simpl; [by case_decide|]. unfold mine in *.
  rewrite filter_cons. simpl. rewrite IH. by case_decide.
Qed.

Lemma answered_snoc l r : forallb (fun x : nat * res Response.t => is_ok x.2) (l ++ [r]) = true ->
  is_ok r.2 = true.
Proof. rewrite forallb_app. simpl. by intros [_ [? _]%andb_true_iff]%andb_true_iff. Qed.

(** A task that does not panic begins its commands one after the other. *)
Lemma advance_begin i x w : answered_ok (advance i x w) = true ->
  match World.tasks (advance i x w) !! i with
  | Some x' => to_begin x = begun x ++ to_begin x'
  | None => to_begin x = []
  end.
Proof.
  unfold answered_ok, advance, to_begin, begun. destruct (Task.at_stage x) as [| | |[r|key body]] eqn:Hst.
  - destruct (is_write_command _); simpl; by rewrite lookup_insert_eq.
  - simpl. by rewrite lookup_insert_eq.
  - destruct (bump_versions_for _ _); simpl; intros Hok; [by rewrite lookup_insert_eq|..];
      by apply answered_snoc in Hok.
  - simpl. intros Hok%answered_snoc. rewrite lookup_partial_alter_eq. unfold next_task.
    destruct r as [r| |]; [|done..]. by destruct (Task.queue x) as [|[e cmd] q].
  - destruct (body _) as [v p]. simpl. by rewrite lookup_insert_eq.
Qed.

(** Another connection that starts leaves the task of [i] alone. *)
Lemma start_other i x ev w w' : World.tasks w !! i = Some x -> (forall j, ev <> Advance j) ->
  step ev w = Some w' -> World.tasks w' !! i = Some x /\ World.order w' = World.order w.
Proof.
  intros Hx Hev. destruct ev as [j e cmd|j es tx|j]; simpl; [| |by destruct (Hev j)].
  - case_match eqn:Hc; [|done]. apply andb_true_iff in Hc as [Hn%bool_decide_eq_true _]. intros [= <-].
    split; [|done]. simpl. rewrite lookup_insert_ne; congruence.
  - case_match eqn:Hc; [|done]. apply bool_decide_eq_true in Hc. assert (Hij : j <> i) by congruence.
    repeat case_match; intros [= <-]; simpl; rewrite ?lookup_insert_ne by done; done.
Qed.

Lemma step_exec_at i q0 ev w w1 w2 : exec_at i q0 w w1 -> step ev w1 = Some w2 -> answered_ok w2 = true ->
  exec_at i q0 w w2.
Proof.
  intros (l & Hl & Hq) Hs Hok. destruct (step_order _ _ _ Hs) as [l' Hl']. exists (l ++ l').
  split; [by rewrite Hl', Hl, app_assoc|]. rewrite mine_app.
  destruct Hq as [(x & Hx & Hq)|Hp]; [|right; by apply prefix_app_r].
  assert (Hsame : World.order w2 = World.order w1 -> l' = []).
  { intros E. apply (app_inv_head (World.order w1)). by rewrite app_nil_r, <- Hl'. }
  assert (Hev : (exists j, ev = Advance j) \/ forall j, ev <> Advance j) by (destruct ev; naive_solver).
  destruct Hev as [(j & ->)|Hn].
  - simpl in Hs. destruct (World.tasks w1 !! j) as [y|] eqn:Hy; [|done]. injection Hs as <-.
    rewrite advance_order in Hl'. apply app_inv_head in Hl' as <-. rewrite mine_as_run.
    case_decide as Hij; [subst j|left; exists x; rewrite app_nil_r; by rewrite advance_other].
    rewrite Hx in Hy. injection Hy as <-. pose proof (advance_begin i x w1 Hok) as Hb. subst q0.
    case_match; [left; eexists; split; [done|]|right]; rewrite Hb.
    + unfold as_run. by rewrite map_app, app_assoc.
    + rewrite app_nil_r. by apply prefix_app_r.
  - destruct (start_other i x ev w1 w2 Hx) as [Hx2 Ho]; [done..|]. left. exists x.
    by rewrite (Hsame Ho), app_nil_r.
Qed.
Lemma step_answered ev w w' : step ev w = Some w' -> answered_ok w' = true -> answered_ok w = true.
Proof.
  unfold answered_ok. destruct ev as [i e cmd|i es tx|i]; simpl.
  - case_match; intros [= <-]. done.
  - repeat case_match; intros [= <-]; done.
  - destruct (World.tasks w !! i) as [x|]; [|done]. intros [= <-]. unfold advance.
    repeat case_match; simpl; try done; rewrite forallb_app; by intros [? _]%andb_true_iff.
Qed.

Lemma steps_answered evs w w' : steps evs w = Some w' -> answered_ok w' = true -> answered_ok w = true.
Proof.
  revert w. induction evs as [|ev evs IH]; intros w; simpl; [by intros [= <-]|].
  destruct (step ev w) as [w1|] eqn:Hs; [|done]. intros Hw Hok. eapply step_answered; [done|]. by eapply IH.
Qed.

Lemma steps_exec_at i q0 evs w w1 w2 : exec_at i q0 w w1 -> steps evs w1 = Some w2 -> answered_ok w2 = true ->
  exec_at i q0 w w2.
Proof.
  revert w1. induction evs as [|ev evs IH]; intros w1 Ha; simpl; [by intros [= <-]|].
  destruct (step ev w1) as [w3|] eqn:Hs; [|done]. intros Hw Hok. eapply IH; [|done..].
  eapply step_exec_at; [done..|]. by eapply steps_answered.
Qed.

(** The queued commands, in their order, are the first that the connection runs. *)
Lemma exec_runs_queue i es tx evs w w' : steps (StartExec i es tx :: evs) w = Some w' ->
  TxState.any_watched_changed (Server.versions (World.server w)) tx = Ok false ->
  World.tasks w' = ∅ -> answered_ok w' = true ->
  as_run i (queued es (default [] (TxState.queue tx))) `prefix_of`
    mine i (drop (length (World.order w)) (World.order w')).
Proof.
  cbn [steps step]. intros Hs Hn Ht Hok. rewrite Hn in Hs. case_match; [|done].
  set (q := queued es _) in *. destruct (forallb _ q); [|done]. cbn in Hs.
  assert (Ha : exec_at i (as_run i q) w (match q with [] => w | (e, cmd) :: q =>
    World.set_task i (Task.mk e cmd Begin q) w end)).
  { exists []. rewrite app_nil_r. destruct q as [|[e cmd] q']; [split; [done|right; apply prefix_nil]|].
    split; [done|]. left. eexists. simpl. by rewrite lookup_insert_eq. }
  destruct (steps_exec_at _ _ _ _ _ _ Ha Hs Hok) as (l & Hl & [(x & Hx & _)|Hp]).
  - by rewrite Ht, lookup_empty in Hx.
  - by rewrite Hl, drop_app_length.
Qed.

(** C22. EXEC is atomic when nobody interferes.  Connection [i] runs the
    transaction [tx], whose watched keys are unchanged, in a run that is free of
    races from beginning to end, without scripts, and in which nobody panics;
    while it runs, no other connection executes a command that
    conflicts with one of [i].  Then the queued commands are the first that [i]
    runs from there on, in their order, and the storage that is left and the
    answers of every connection are those of a serial execution in which these
    commands come directly one after the other, behind those of the others that
    were executed in between. *)
Theorem isolated_transaction_is_atomic s i es tx pre evs w w' : inv (Server.storage s) ->
  versions_wf (Server.versions s) -> quiet (pre ++ StartExec i es tx :: evs) (World.idle s) = true ->
  steps pre (World.idle s) = Some w -> steps (StartExec i es tx :: evs) w = Some w' ->
  TxState.any_watched_changed (Server.versions (World.server w)) tx = Ok false ->
  World.tasks w' = ∅ -> answered_ok w' = true ->
  let during := drop (length (World.order w)) (World.order w') in
  isolated i during = true ->
  exists more,
    mine i during = as_run i (queued es (default [] (TxState.queue tx))) ++ more /\
    let l := World.order w ++ others i during ++ mine i during in
    abs (Server.storage (World.server w')) = abs (fst (serial l (Server.storage s))) /\
    forall j, replies_of j (World.replies w') = replies_of j (snd (serial l (Server.storage s))).
Proof.
  intros Hi Hv Hq Hw Hw' Hwatch Ht Hok during Hiso.
  destruct (exec_runs_queue _ _ _ _ _ _ Hw' Hwatch Ht Hok) as [more Hmore]. exists more. split; [done|].
  clear Hmore. intros l. pose proof (steps_order _ _ _ Hw') as [rest Hrest].
  assert (during = rest) as Hd by (unfold during; by rewrite Hrest, drop_app_length).
  assert (Hall : steps (pre ++ StartExec i es tx :: evs) (World.idle s) = Some w')
    by (rewrite steps_app, Hw; exact Hw').
  destruct (quiet_world s Hi _ _ (world_start s Hi Hv) Hq) as (w'' & Hs & Hwok).
  rewrite Hall in Hs. injection Hs as <-. pose proof (ok_order _ _ Hwok) as Ho.
  pose proof (tr_lockable _ _ _ _ _ _ Ho) as Hl. rewrite Ht in Ho.
  destruct (quiescent _ _ _ _ _ Hi Ho) as [Ha Hr]. rewrite Ha. setoid_rewrite Hr.
  rewrite Hrest in Hl |- *. apply Forall_app in Hl as [Hlo Hlr]. rewrite Hd in Hiso. subst l. rewrite Hd.
  pose proof (serial_inv (World.order w) _ Hi Hlo) as Hmid.
  rewrite (serial_app _ rest), (serial_app _ (others i rest ++ mine i rest)).
  destruct (serial (World.order w) (Server.storage s)) as [m rs]. simpl in Hmid.
  destruct (serial_regroup i rest Hlr Hiso m Hmid) as [[Hl1 Hl2 He] Hrr].
  destruct (serial rest m) as [m1 rs1]. destruct (serial (others i rest ++ mine i rest) m) as [m2 rs2]. simpl in *.
  split; [by apply abs_ext|]. intros j. rewrite !replies_of_app. by rewrite Hrr.
Qed.
End exec.

(** ** Witnesses *)

(** SET a, GET a under a WATCH, with a writer of another key in between. *)
Definition both : TxState.t :=
  TxState.mk (Some [put "a" "2"; Command.Get (bs "a")]) false {[shard_index (bs "a") := 0]}.
Definition undisturbed : list event :=
  replicate 3 (Advance 0) ++ whole 1 (put "b" "3") 5 ++ replicate 5 (Advance 0).

Lemma isolated_transaction_is_atomic_witness : exists w', steps (StartExec 0 (fun _ => tick) both :: undisturbed)
    (World.idle fresh_server) = Some w' /\
  let during := World.order w' in
  mine 0 during ++ others 0 during <> during /\ others 0 during ++ mine 0 during <> during /\
  abs (Server.storage (World.server w')) =
    abs (fst (serial (others 0 during ++ mine 0 during) (Server.storage fresh_server))).
Proof.
  destruct (moments_spec [] (StartExec 0 (fun _ => tick) both :: undisturbed) (fun w w' => idle_now w' &&
    (answered_ok w' && (isolated 0 (World.order w') && bool_decide (
       map (fun x : nat * Env * Command.t => x.1.1) (mine 0 (World.order w') ++ others 0 (World.order w')) <>
         map (fun x => x.1.1) (World.order w') /\
       map (fun x : nat * Env * Command.t => x.1.1) (others 0 (World.order w') ++ mine 0 (World.order w')) <>
         map (fun x => x.1.1) (World.order w'))))))
    as (w0 & w' & Hw0 & Hw & Hp); [by vm_compute|].
  injection Hw0 as <-. apply andb_true_iff in Hp as [Hid Hp]. apply andb_true_iff in Hp as [Hok Hp].
  apply andb_true_iff in Hp as [Hiso Hne]. apply bool_decide_eq_true in Hne as [Hne1 Hne2]. exists w'.
  split; [exact Hw|]. cbv zeta. split; [exact (fun E => Hne1 (f_equal (map _) E))|].
  split; [exact (fun E => Hne2 (f_equal (map _) E))|].
  destruct (isolated_transaction_is_atomic fresh_server 0 (fun _ => tick) both [] undisturbed
    (World.idle fresh_server) w' fresh_inv fresh_versions) as (more & _ & Ha & _);
    [by vm_compute | done | exact Hw | by vm_compute | by apply idle_now_spec | exact Hok | exact Hiso | exact Ha].
Defined.
