(* ===== verification/ClusterTheorems.v ===== *)
(** * ClusterTheorems: what the hash ring guarantees *)

From S2P Require Import Prelude Text External BTree Ring.
#[local] Open Scope Z_scope.

Section theorems.
Context `{Xxh3}.

(** C37. Rebalancing: adding a node moves keys to the new node only, removing
    a node moves only the keys it owned, and in the ring that results every
    key that has an owner is routed to the record of its owner. *)
Theorem ring_moves_few_keys n id key r : ring_wf r ->
  (get_node key (add_node n r) = Some (Node.id n) \/ get_node key (add_node n r) = get_node key r) /\
  (get_node key r <> Some id -> get_node key (remove_node id r) = get_node key r) /\
  (forall r', r' = add_node n r \/ r' = remove_node id r -> ring_wf r' /\
     match get_node key r' with
     | Some i => exists nd, node_for_key key r' = Some nd /\ Node.id nd = i
     | None => ring r' = []
     end).
Proof.
  intros Hr. rewrite !get_node_owner. split; [|split].
  - apply owner_insert_virtual, Hr.
  - apply owner_filter.
  - intros r' Hr'. assert (Hw : ring_wf r')
      by (destruct Hr' as [-> | ->]; auto using add_node_wf, remove_node_wf).
    split; [done|]. pose proof (node_for_key_owner key r' Hw) as Ho.
    destruct (get_node key r'); [|done]. destruct Ho as (nd & ? & ? & _). by exists nd.
Qed.

Lemma length_firsts (l : list NodeId) : length (firsts ∅ l) = size (list_to_set l : gset NodeId).
Proof.
  rewrite <- (size_list_to_set (C:=gset NodeId) (firsts ∅ l)) by apply NoDup_firsts.
  f_equal. apply set_eq. intros x. rewrite !elem_of_list_to_set, elem_of_firsts.
  split; [tauto|]. intros. split; [done | apply not_elem_of_empty].
Qed.

Lemma range_then_ring h r :
  list_to_set (bt_range_from Z.compare h (ring r) ++ ring r).*2 =
  (list_to_set (ring r).*2 : gset NodeId).
Proof.
  apply set_eq. intros x. rewrite !elem_of_list_to_set, fmap_app, elem_of_app.
  split; [|by right]. intros [Hx|Hx]; [|done].
  apply list_elem_of_fmap in Hx as (e & -> & [_ He]%list_elem_of_filter).
  apply list_elem_of_fmap. by exists e.
Qed.

(** Replicas: the nodes chosen for a key are distinct nodes of the ring,
    the owner of the key first, and as many as asked for while there are that
    many; at least one is chosen, also when none is asked for. *)
Theorem replicas_are_distinct key count r :
  let rs := get_nodes_for_replication key count r in
  NoDup rs /\ head rs = get_node key r /\
  (forall id, id ∈ rs -> id ∈ (ring r).*2) /\
  len rs = Z.min (Z.max 1 count) (Z.of_nat (size (list_to_set (ring r).*2 : gset NodeId))).
Proof.
  intros rs. unfold rs. split; [|split; [apply head_replicas|split]]; rewrite replicas_firsts.
  - eapply sublist_NoDup; [apply NoDup_firsts | apply sublist_take].
  - intros id (i & Hid%list_elem_of_lookup_2 & _)%elem_of_take. apply elem_of_firsts in Hid as [Hid _].
    apply (elem_of_list_to_set (C:=gset NodeId)).
    rewrite <- (range_then_ring (xxh3_64 key)). by apply elem_of_list_to_set.
  - unfold len. rewrite length_take, length_firsts, range_then_ring. lia.
Qed.
End theorems.

(** ** Witnesses *)

Definition node_a : Node.t := Node.new 0 0 (bs "a") (bs "127.0.0.1:7001") (bs "127.0.0.1:17001").
Definition node_b : Node.t := Node.new 0 0 (bs "b") (bs "127.0.0.1:7002") (bs "127.0.0.1:17002").
Definition ring_a : ConsistentHashRing := add_node node_a (with_virtual_nodes 4).

Lemma ring_moves_few_keys_witness :
  get_node (bs "k") ring_a = Some (bs "a") /\
  (get_node (bs "k") (add_node node_b ring_a) = Some (bs "b") \/
   get_node (bs "k") (add_node node_b ring_a) = get_node (bs "k") ring_a).
Proof.
  split; [by vm_compute|].
  apply (ring_moves_few_keys node_b (bs "b") (bs "k") ring_a).
  apply add_node_wf, with_virtual_nodes_wf.
Defined.
