(* ===== verification/ConnectionTheorems.v ===== *)
(** * ConnectionTheorems: from bytes on sockets to the storage and back

    What clients see of the server through its connections: a request is
    answered however the network cuts it and its reply, whatever the bytes the
    log gives the storage back, and published messages reach the sockets. *)

From S2P Require Import Prelude Text External Float64 Values SortedSet Stream Keyspace Storage StorageFacts.
From S2P Require Import StorageTypes ShardedMap Resp RespFacts Framing Command CommandFacts Apply ApplyFacts ReplayClocks.
From S2P Require Import Ring Transactions Security PubSub Scripting Server ServerFacts Connection.
From S2P Require Import ConnectionFacts ProtocolTheorems ServerTheorems FileSystem Client.
#[local] Open Scope Z_scope.

Section theorems.
Context `{KeyMapLaws M, Mpsc B, !Receiver B}.
Context `{Layout, Xxh3, UnicodeCase, Argon2, Lua, Sha1, RespDebug}.
Implicit Types (s : Server.t M B) (c : Conn.t) (k : Connection.t) (y : System M B).

(** ** Commands that pass the gates *)

(** Not queued, not redirected, not refused. *)
Definition passes (cmd : Command.t) c s : Prop :=
  TxState.in_multi (Conn.tx c) = false /\ moved cmd s = None /\ denied cmd c s = None.

Lemma execute_passes es cmd c s : passes cmd c s ->
  execute_command es cmd c s =
    match (if is_write_command cmd then record_write (es 0%nat) cmd s else Ok s) with
    | Ok s1 => dispatch (execute_fuel 1) es cmd c s1
    | Err e => Err e
    | Panic => Panic
    end.
Proof.
  intros (Hm & Hv & Hd). unfold execute_command. cbn [execute_fuel]. unfold execute_with at 1.
  by rewrite Hm, Hv, Hd.
Qed.

Lemma execute_get es key c s : passes (Command.Get key) c s ->
  execute_command es (Command.Get key) c s
  = Ok (s, c, value_or_nil (get (now (es 0%nat)) key (Server.storage s))).
Proof.
  intros Hp. rewrite execute_passes by done. simpl. unfold dispatch. simpl. by rewrite set_storage_id.
Qed.

Lemma execute_set es key v ttl m b c s :
  passes (Command.Set' key v ttl) c s -> versions_wf (Server.versions s) ->
  set (now (es 0%nat)) key v (from_secs <$> ttl) (Server.storage s) = (m, Ok b) ->
  exists s1, execute_command es (Command.Set' key v ttl) c s = Ok (s1, c, Response.Ok) /\
    Server.storage s1 = m /\ Server.ring s1 = Server.ring s /\
    Server.local_node_id s1 = Server.local_node_id s /\ Server.auth s1 = Server.auth s.
Proof.
  intros Hp Hv Hs. rewrite execute_passes by done. cbn [is_write_command].
  unfold record_write. rewrite bump_versions_bumps.
  destruct (bump_all_version (bumps (Command.Set' key v ttl)) (Server.versions s) Hv (bumps_lt _))
    as (v' & -> & _). cbn [mbind res_bind].
  unfold dispatch. cbn [execute_storage execute_strings or_else]. simpl. rewrite Hs. simpl.
  eexists. split; [done|]. done.
Qed.

Lemma passes_same cmd c s s' : Server.ring s' = Server.ring s ->
  Server.local_node_id s' = Server.local_node_id s -> Server.auth s' = Server.auth s ->
  passes cmd c s -> passes cmd c s'.
Proof.
  intros E1 E2 E3 (Hm & Hv & Hd). split; [done|]. unfold moved, denied in *. by rewrite E1, E2, E3.
Qed.

Lemma get_after_set now1 key v secs m m' b now2 : inv m ->
  set now1 key v (from_secs <$> secs) m = (m', Ok b) ->
  get now2 key m' = if past now2 ((fun d => now1 + from_secs d) <$> secs) then None else Some v.
Proof.
  intros Hm [_ ->]%set_Ok. rewrite get_live, entry_set_entry, decide_True by done.
  unfold live. rewrite is_expired_past. cbn [expires_at_ref].
  replace ((fun d => now1 + d) <$> (from_secs <$> secs)) with ((fun d => now1 + from_secs d) <$> secs)
    by by destruct secs.
  by destruct (past now2 _).
Qed.

(** ** A client and the server *)

(** The client reads a reply of one frame, however it is cut. *)
Lemma client_reads (r : Response.t) chunks : framed_reply r = true ->
  Forall (fun p => p <> []) chunks -> concat chunks = serialize_response r ->
  FerricClient.read_response chunks FerricClient.new = Some (FerricClient.new, [], Done (client_view r)).
Proof.
  intros Hr Hne Hc.
  assert (Hs : serialize_response r = write_resp (Response.to_resp r)) by by destruct r.
  assert (Hw : wf_resp (Response.to_resp r) = true) by by destruct r.
  destruct (read_response_chunks (Response.to_resp r) chunks [] []) as (b & cs & Hb & Hf & Hread);
    [done|done|by rewrite app_nil_r, <- Hs|].
  apply app_eq_nil in Hb as [-> Hb]. destruct Hf as [|p cs Hp _]; [|by destruct p].
  unfold FerricClient.new. rewrite Hread. unfold FerricClient.response_of.
  pose proof (client_reply_roundtrip r [] Hr) as Hp. rewrite app_nil_r, Hs in Hp. by rewrite Hp.
Qed.

Lemma client_request i l clock chunk cmd c y s' c' reply :
  client_command cmd = true -> len (serialize_command cmd) <= buffer_limit ->
  concat (map snd l) ++ chunk = serialize_command cmd ->
  Forall (fun p => snd p <> []) l -> chunk <> [] ->
  conns y !! i = Some (Connection.mk c None []) ->
  execute_command (clock 0%nat) cmd c (server y) = Ok (s', c', reply) ->
  SubscriberState.rx (Conn.sub c') = None ->
  exists y', run_system (polls i (l ++ [(clock, chunk)])) y = Some y' /\ server y' = s' /\
    conns y' !! i = Some (Connection.mk c' None []) /\
    written i y' = written i y ++ serialize_response reply.
Proof.
  intros Hcmd Hlen Hb Hl Hc Hk Hx Hrx. unfold serialize_command in Hlen, Hb.
  destruct (polls_request i l clock chunk (command_to_resp cmd) cmd c c' [] y s' reply)
    as (y' & Hr & Hs & Hk' & _ & Hw); try done; [| |by exists y'].
  - unfold accepted. rewrite client_command_wf by done. apply Z.leb_le. exact Hlen.
  - apply parse_command_to_resp. destruct cmd; try done. destruct ttl_secs; [|done].
    simpl in Hcmd. by apply andb_true_iff in Hcmd as [_ ?].
Qed.

Lemma client_set_sizes key v ttl : client_command (FerricClient.set_command key v ttl) = true ->
  (len key <=? isize_max) = true /\ (len v <=? isize_max) = true.
Proof. destruct ttl; simpl; rewrite !andb_true_iff; tauto. Qed.

(** C5. End to end: a client that sets a key over an idle connection and then
    gets it receives the value until the time to live has passed and nothing
    afterwards, through serialization, framing, parsing, execution and the
    replies, however the network cuts the four messages into pieces. *)
Theorem client_set_then_get i c y key v ttl l1 clock1 p1 l2 clock2 p2 m b :
  let set_cmd := FerricClient.set_command key v ttl in
  let get_cmd := FerricClient.get_command key in
  let secs := (fun d => as_u32 (d / ns_per_sec)) <$> ttl in
  inv (Server.storage (server y)) -> versions_wf (Server.versions (server y)) ->
  conns y !! i = Some (Connection.mk c None []) -> SubscriberState.rx (Conn.sub c) = None ->
  passes set_cmd c (server y) -> passes get_cmd c (server y) ->
  client_command set_cmd = true -> len (serialize_command set_cmd) <= buffer_limit ->
  len (serialize_command get_cmd) <= buffer_limit ->
  concat (map snd l1) ++ p1 = serialize_command set_cmd ->
  concat (map snd l2) ++ p2 = serialize_command get_cmd ->
  Forall (fun p => snd p <> []) (l1 ++ l2) -> p1 <> [] -> p2 <> [] ->
  set (now (clock1 0%nat 0%nat)) key v (from_secs <$> secs) (Server.storage (server y)) = (m, Ok b) ->
  exists y1 y2 reply1 reply2,
    run_system (polls i (l1 ++ [(clock1, p1)])) y = Some y1 /\
    run_system (polls i (l2 ++ [(clock2, p2)])) y1 = Some y2 /\
    written i y1 = written i y ++ reply1 /\ written i y2 = written i y1 ++ reply2 /\
    (forall chunks, Forall (fun p => p <> []) chunks -> concat chunks = reply1 ->
       snd (FerricClient.set_with_ttl key v ttl chunks FerricClient.new)
       = Some (FerricClient.new, [], Done tt)) /\
    (forall chunks, Forall (fun p => p <> []) chunks -> concat chunks = reply2 ->
       snd (FerricClient.get key chunks FerricClient.new)
       = Some (FerricClient.new, [],
           Done (if past (now (clock2 0%nat 0%nat)) ((fun d => now (clock1 0%nat 0%nat) + from_secs d) <$> secs)
                 then None else Some v))).
Proof.
  intros set_cmd get_cmd secs Hi Hv Hk Hrx Hp1 Hp2 Hcc Hlen1 Hlen2 Hc1 Hc2 [Hl1 Hl2]%Forall_app Hn1 Hn2 Hset.
  destruct (execute_set (clock1 0%nat) key v secs m b c (server y) Hp1 Hv Hset)
    as (s1 & Hx & Hst & E1 & E2 & E3).
  destruct (client_request i l1 clock1 p1 set_cmd c y s1 c Response.Ok) as (y1 & R1 & S1 & K1 & W1);
    [done..|].
  assert (Hp2' : passes get_cmd c (server y1)) by (rewrite S1; by eapply passes_same).
  pose proof (execute_get (clock2 0%nat) key c (server y1) Hp2') as Hg.
  destruct (client_set_sizes _ _ _ Hcc) as [Hsk Hsv].
  destruct (client_request i l2 clock2 p2 get_cmd c y1 (server y1) c
    (value_or_nil (get (now (clock2 0%nat 0%nat)) key (Server.storage (server y1)))))
    as (y2 & R2 & _ & _ & W2); [done..|].
  rewrite S1, Hst in W2. exists y1, y2, (serialize_response Response.Ok), (serialize_response
    (value_or_nil (get (now (clock2 0%nat 0%nat)) key m))). split_and!; [done..| |].
  - intros chunks Hne Hc. unfold FerricClient.set_with_ttl, FerricClient.call. simpl.
    rewrite (client_reads Response.Ok) by done. done.
  - intros chunks Hne Hc. unfold FerricClient.get, FerricClient.call. simpl.
    rewrite (get_after_set (now (clock1 0%nat 0%nat)) key v secs (Server.storage (server y)) m b) in Hc by done.
    destruct (past _ _).
    + rewrite (client_reads (value_or_nil None) chunks) by done. done.
    + rewrite (client_reads (value_or_nil (Some v)) chunks Hsv Hne Hc). done.
Qed.

(** ** Any bytes on any connections *)

(** C6. Recovery from the network's side: bytes arrive on however many
    connections, cut in whatever way, malformed or not, with transactions,
    scripts, subscriptions and hang-ups, at a server that started empty.  As long
    as the commands that were executed replay as they executed and the log took
    every append, the log and the stream to the replicas hold the same commands;
    and if none of these sets a deadline, reads the clock for an id, draws at
    random or depends on the order of a hash table, replaying them into an empty
    storage gives the storage of the server, whatever clocks, orders and random
    numbers the replay meets. *)
Theorem network_recovers es s y :
  Server.storage s = empty_map -> Server.wal s = Some [] -> Server.replicator s = Some [] ->
  run_system es (boot s) = Some y -> Forall appends_ok es ->
  forallb (fun p => replayable (snd p)) (executed y) = true ->
  exists ws, Server.wal (server y) = Some ws /\ Server.replicator (server y) = Some ws /\
    (forallb timeless ws = true -> forall log, map command log = ws ->
     replay log (empty_map : M) = Ok (Server.storage (server y))).
Proof.
  intros E1 E2 E3 Hr Hes Hp. pose proof (system_appended es (boot s) y Hes Hr) as Ha.
  apply system_logged in Hr as [_ Hl]. destruct Hl as (new & Hl & _).
  - apply clean_split; [apply Ha; constructor|done].
  - simpl. rewrite E1. apply empty_inv.
  - intros i k. simpl. by rewrite lookup_empty.
  - destruct (logged_recovers s _ _ Hl) as (ws & Hw & Hpr & Hlog); [done|]. exists ws. auto.
Qed.

(** ** Messages *)

Lemma passes_publish es ch x c s : passes (Command.Publish ch x) c s ->
  let '(b, n) := PubSub.publish ch x (Server.pubsub s) (Server.boxes s) in
  execute_command es (Command.Publish ch x) c s
  = Ok (Server.set_pubsub (Server.pubsub s) b s, c, Response.Integer n).
Proof.
  intros Hp. destruct (PubSub.publish _ _ _ _) as [b n] eqn:E. rewrite execute_passes by done.
  simpl. unfold dispatch. simpl. by rewrite E.
Qed.

(** C12. Delivery to the socket: when a connection publishes, in a request
    however cut, the next turns of a subscriber's loop write to its socket all
    messages that waited in its mailbox and then this one, as often as it is
    registered for the channel, in order and before anything is read from the
    subscriber; the publisher's reply is the number of open registrations. *)
Theorem published_messages_reach_socket i j k c rx q v ch x l clock p turns y :
  i <> j -> conns y !! i = Some k -> Connection.subs_rx k = Some rx ->
  mailbox rx (Server.boxes (server y)) = Some q ->
  conns y !! j = Some (Connection.mk c None []) -> SubscriberState.rx (Conn.sub c) = None ->
  parse_command v = Ok (Command.Publish ch x) -> passes (Command.Publish ch x) c (server y) ->
  accepted v = true -> concat (map snd l) ++ p = serialize_resp v ->
  Forall (fun p => snd p <> []) l -> p <> [] ->
  let ms := q ++ replicate (copies rx (registered ch (server y))) (msg ch x) in
  length turns = length ms ->
  exists y', run_system (polls j (l ++ [(clock, p)]) ++ map (fun '(clock, input) => Poll clock i input) turns) y
      = Some y' /\
    written i y' = written i y ++ concat (map format_pubsub_message ms) /\
    written j y' = written j y ++ serialize_response (Response.Integer (len (listening ch (server y)))) /\
    conns y' !! i = Some k /\ mailbox rx (Server.boxes (server y')) = Some [].
Proof.
  intros Hij Hi Hk Hm Hj Hrx Hp Hpass Hv Hb Hl Hne ms Hlen.
  pose proof (passes_publish (clock 0%nat) ch x c (server y) Hpass) as Hx.
  pose proof (publish_count ch x (Server.pubsub (server y)) (Server.boxes (server y))) as Hn.
  pose proof (publish_mailbox ch x (Server.pubsub (server y)) (Server.boxes (server y)) rx) as Hmb.
  destruct (PubSub.publish _ _ _ _) as [b n]. simpl in Hn, Hmb.
  destruct (polls_request j l clock p v (Command.Publish ch x) c c [] y _ _ Hv Hb Hl Hne Hj Hp Hx Hrx)
    as (y1 & R1 & S1 & K1 & O1 & W1).
  assert (Hi1 : conns y1 !! i = Some k) by by rewrite O1.
  destruct (deliver i rx k turns ms [] y1 Hi1 Hk) as (y' & R2 & C2 & _ & W2 & M2 & _ & V2);
    [rewrite S1; simpl; rewrite Hmb, Hm, app_nil_r; done|done|].
  exists y'. split; [by rewrite run_system_app, R1|].
  split; [rewrite W2; f_equal; by eapply polls_other|].
  split; [rewrite V2, W1, Hn by done; done|]. split; [by rewrite C2|done].
Qed.
End theorems.

(** ** Witnesses *)

Definition at_time (t : Z) : nat -> nat -> Env := fun n => clock (t + Z.of_nat n).

(** A server with two idle connections. *)
Definition two_conns : System ShardedMap boxes :=
  default (boot (demo None)) (run_system [Accept 0; Accept 1] (boot (demo None))).

Lemma client_set_then_get_witness :
  let key := bs "k" in let v := [x0d; x0a; xff] in
  let ttl := Some (5 * ns_per_sec + 7) in
  let req1 := serialize_command (FerricClient.set_command key v ttl) in
  let req2 := serialize_command (FerricClient.get_command key) in
  exists y1 y2 reply2,
    run_system (polls 1 [(at_time 1, take 9 req1); (at_time 2, drop 9 req1)]) two_conns = Some y1 /\
    run_system (polls 1 [(at_time (3 * ns_per_sec), req2)]) y1 = Some y2 /\
    written 1 y2 = written 1 y1 ++ reply2 /\
    (forall chunks, Forall (fun p => p <> []) chunks -> concat chunks = reply2 ->
       snd (FerricClient.get key chunks FerricClient.new) = Some (FerricClient.new, [], Done (Some v))).
Proof.
  intros key v ttl req1 req2.
  destruct (client_set_then_get 1 Conn.new two_conns key v ttl [(at_time 1, take 9 req1)] (at_time 2) (drop 9 req1)
    [] (at_time (3 * ns_per_sec)) req2
    (fst (set 2 key v (Some (5 * ns_per_sec)) (Server.storage (server two_conns)))) true)
    as (y1 & y2 & r1 & r2 & R1 & R2 & _ & W2 & _ & Hget).
  - apply empty_inv.
  - exact new_versions_wf.
  - reflexivity.
  - reflexivity.
  - repeat split; vm_compute; reflexivity.
  - repeat split; vm_compute; reflexivity.
  - vm_compute. reflexivity.
  - vm_compute. congruence.
  - vm_compute. congruence.
  - vm_compute. reflexivity.
  - vm_compute. reflexivity.
  - repeat constructor. vm_compute. congruence.
  - vm_compute. congruence.
  - vm_compute. congruence.
  - reflexivity.
  - exists y1, y2, r2. split; [exact R1|]. split; [exact R2|]. split; [exact W2|]. exact Hget.
Defined.

Definition request (words : list bytes) : bytes :=
  serialize_resp (Array (map (fun w => BulkString (Some w)) words)).

(** A subscriber over TLS that hangs up, a write cut in two, a frame that is no command,
    a pipelined publish and a transaction. *)
Definition busy_network : list event :=
  let set_req := request [bs "SET"; bs "a"; bs "1"] in
  [Accept 0; Accept 1;
   Poll (at_time 1) 0 (Some (take 10 set_req));
   PollTls (at_time 2) 1 (Some (request [bs "SUBSCRIBE"; bs "news"]));
   Poll (at_time 3) 0 (Some (drop 10 set_req ++ request [bs "BOGUS"] ++ request [bs "PUBLISH"; bs "news"; bs "hi"]));
   PollTls (at_time 4) 1 (Some (request [bs "SET"; bs "b"; bs "2"]));
   PollTls (at_time 5) 1 (Some []);
   Poll (at_time 6) 0 (Some (request [bs "MULTI"] ++ request [bs "INCR"; bs "a"] ++ request [bs "EXEC"]))].

Lemma busy_network_runs :
  match run_system busy_network (boot (demo None)) with
  | Some y => forallb (fun p => replayable (snd p)) (executed y) = true /\
              get 9 (bs "a") (Server.storage (server y)) = Some (bs "2") /\
              bool_decide (is_Some (conns y !! 1%nat)) = false /\
              written 1 y = subscribe_frame (bs "news") 1 ++ format_pubsub_message (msg (bs "news") (bs "hi")) /\
              forallb timeless (default [] (Server.wal (server y))) = true
  | None => False
  end.
Proof. vm_compute. repeat split. Qed.

Lemma network_recovers_witness : exists y ws,
  run_system busy_network (boot (demo None)) = Some y /\ Server.wal (server y) = Some ws /\
  replay (map (read_at 1000) ws) (empty_map : ShardedMap) = Ok (Server.storage (server y)) /\
  get 9 (bs "a") (Server.storage (server y)) = Some (bs "2").
Proof.
  pose proof busy_network_runs as Hr.
  destruct (run_system busy_network (boot (demo None))) as [y|] eqn:E; [|destruct Hr].
  destruct Hr as (Hc & Hget & _ & _ & Ht).
  destruct (network_recovers busy_network (demo None) y) as (ws & Hw & _ & Hrep).
  - reflexivity.
  - reflexivity.
  - reflexivity.
  - exact E.
  - repeat constructor.
  - exact Hc.
  - exists y, ws. split; [reflexivity|]. split; [exact Hw|]. split; [|exact Hget].
    rewrite Hw in Ht. apply (Hrep Ht). rewrite map_map. apply map_id.
Defined.

(** The subscriber has one message waiting; its next request is not read. *)
Definition subscribed_twice : System ShardedMap boxes :=
  default two_conns (run_system
    [Poll (at_time 1) 1 (Some (request [bs "SUBSCRIBE"; bs "news"]));
     Poll (at_time 2) 1 (Some (request [bs "SUBSCRIBE"; bs "news"]));
     Poll (at_time 3) 0 (Some (request [bs "PUBLISH"; bs "news"; bs "early"]))] two_conns).

Lemma published_messages_reach_socket_witness :
  let early := msg (bs "news") (bs "early") in let late := msg (bs "news") (bs "late") in
  let req := request [bs "PUBLISH"; bs "news"; bs "late"] in
  let turn := (at_time 9, Some (request [bs "PING"])) in
  exists y', run_system (polls 0 [(at_time 4, take 7 req); (at_time 5, drop 7 req)]
      ++ map (fun '(clock, input) => Poll clock 1 input) [turn; turn; turn; turn]) subscribed_twice = Some y' /\
    written 1 y' = written 1 subscribed_twice
      ++ concat (map format_pubsub_message [early; early; late; late]) /\
    written 0 y' = written 0 subscribed_twice ++ bs ":2" ++ crlf.
Proof.
  intros early late req turn.
  destruct (published_messages_reach_socket 1 0
    (Connection.mk (Conn.mk None (SubscriberState.mk (Some 0%nat) None [bs "news"]) TxState.new) (Some 0%nat) [])
    Conn.new 0 [early; early] (Array (map (fun w => BulkString (Some w)) [bs "PUBLISH"; bs "news"; bs "late"]))
    (bs "news") (bs "late") [(at_time 4, take 7 req)] (at_time 5) (drop 7 req) [turn; turn; turn; turn]
    subscribed_twice) as (y' & Hr & Hw1 & Hw0 & _ & _).
  - discriminate.
  - vm_compute. reflexivity.
  - reflexivity.
  - vm_compute. reflexivity.
  - vm_compute. reflexivity.
  - reflexivity.
  - vm_compute. reflexivity.
  - repeat split; vm_compute; reflexivity.
  - vm_compute. reflexivity.
  - vm_compute. reflexivity.
  - repeat constructor. vm_compute. congruence.
  - vm_compute. congruence.
  - vm_compute. reflexivity.
  - exists y'. split; [exact Hr|]. split; [exact Hw1 | exact Hw0].
Defined.
