(* ===== verification/PersistenceTheorems.v ===== *)
(** * PersistenceTheorems: what survives a restart

    Stated over any serializer and checksum; the witnesses run the log and the
    snapshot on concrete commands. *)

From S2P Require Import Prelude Text External Float64 BTree Values SortedSet SortedSetFacts Stream.
From S2P Require Import Keyspace Storage StorageTypes StorageFacts ShardedMap Command Apply.
From S2P Require Import FileSystem Wal WalFacts Snapshot SnapshotFacts.
#[local] Open Scope Z_scope.

Section log.
Context `{Bincode Command.t, Crc32}.

(** C39. The log gives back what was appended: whatever the sync policy and
    however often the log rotated, a process that is killed and started again
    opens the log and replays a run of consecutive appended commands, in order.
    No recent command is missing when every append was flushed or the last step
    was a sync; no old command is missing while the entries together are
    smaller than one more segment than is kept. *)
Theorem log_recovers_commands config d0 steps :
  fresh config d0 -> in_u32 (PersistenceConfig.wal_backup_count config) = true ->
  PersistenceConfig.max_wal_size_bytes config <= i64_max ->
  Forall loggable (appended steps) -> len (appended steps) <= u64_max ->
  exists d l, WriteAheadLog.new config d0 = (d, Done l) /\
  exists d' l', run_steps steps d l = (d', l') /\
  exists l2, WriteAheadLog.new config d' = (d', Done l2) /\
  exists es old recent, appended steps = old ++ map WALEntry.command es ++ recent /\
    (forall S (cb : WALEntry.t -> S -> S * res unit) s,
       WriteAheadLog.replay cb d' l2 s = run_entries cb es 0 s) /\
    (durable (PersistenceConfig.wal_sync_policy config) steps -> recent = []) /\
    (total_size (appended steps) <
       (Z.max (PersistenceConfig.wal_backup_count config) 1 + 1) * PersistenceConfig.max_wal_size_bytes config -> old = []).
Proof. apply log_recovery. Qed.

(** C40. A torn write: when the active file ends in a part of an entry, the
    log opens only if not even the header of that entry is whole; otherwise
    opening it fails, and so does the start of the server.  The entries before
    it are replayed either way. *)
Theorem torn_entry_stops_the_log config d es e (n : nat) :
  Forall fits es -> fits e -> (n < length (frame e))%nat ->
  d !! PersistenceConfig.wal_path config = Some (render es ++ take n (frame e)) ->
  (forall i, d !! segment_of (PersistenceConfig.wal_path config) i = None) ->
  (forall S (cb : WALEntry.t -> S -> S * res unit) s s' k,
     run_entries cb es 0 s = (s', Done k) ->
     replay_file cb (PersistenceConfig.wal_path config) d s =
       (s', if (n <? 20)%nat then Done k else Failed (IoError UnexpectedEof))) /\
  if (n <? 20)%nat then exists l, WriteAheadLog.new config d = (d, Done l)
  else WriteAheadLog.new config d = (d, Failed (IoError UnexpectedEof)).
Proof.
  intros Hes He Hn Hd Hseg. unfold render in *. pose proof (serialize_framed e He) as Hfr.
  assert (Hstop : forall A (a : A), stop (take n (frame e)) a =
    if (n <? 20)%nat then Done a else Failed (IoError UnexpectedEof)).
  { intros A a. unfold stop. rewrite next_frame_torn by done. by destruct (n <? 20)%nat. }
  assert (Hno : no_frame (take n (frame e))).
  { unfold no_frame. rewrite next_frame_torn by done. destruct (n <? 20)%nat; [by left|right; by eexists]. }
  pose proof (framed_length _ (framed_frames es Hes)) as Hlen.
  assert (Hfuel : (length (map frame es) < S (length (concat (map frame es) ++ take n (frame e))))%nat).
  { rewrite length_app. lia. }
  split.
  - intros S cb s s' k Hrun. unfold replay_file. rewrite Hd.
    rewrite replay_loop_frames, decoded_frames, Hrun, Hstop by auto using framed_frames.
    done.
  - unfold WriteAheadLog.new, File.open_append. rewrite Hd. cbn [default]. rewrite insert_id by done.
    unfold WriteAheadLog.read_last_sequence. cbn [last_sequence_files]. rewrite Hd.
    rewrite last_sequence_loop_frames, Hstop by auto using framed_frames.
    destruct (n <? 20)%nat; [|done]. cbn [mbind outcome_bind].
    rewrite last_sequence_files_missing by (apply Forall_map, Forall_forall; intros; apply Hseg).
    cbn [mbind outcome_bind]. by eexists.
Qed.
End log.

Section snapshot.
Context `{KeyMapLaws M, HashOrder, Layout, Bincode (list SnapshotRecord.t), Crc32}.

(** What a snapshot of [m], collected at [now] and [wall], is when it is loaded
    with [readings] and at [wall2]: every key that was neither expired nor empty, and
    whose deadline has not passed in between, has the same contents and the same
    deadline on the wall clock, rounded down to a millisecond; there is nothing
    else. *)
Definition reloads (now wall : Z) (later readings : bytes -> Reading) (wall2 : Z) (m m' : M) : Prop :=
  forall k, match entry k m with
  | Some v =>
      if persisted now (read_now (later k)) v && negb (run_out now wall wall2 v) then
        exists v', entry k m' = Some v' /\ same_contents v v' /\
          (expires_at_ref v = None -> expires_at_ref v' = None) /\
          (forall e, expires_at_ref v = Some e -> now <= e -> (e - now) / ns_per_ms <= u64_max - wall ->
             exists e', expires_at_ref v' = Some e' /\
               e' - read_now (readings k) <= (e - now) - from_millis (wall2 - wall) < e' - read_now (readings k) + ns_per_ms)
      else entry k m' = None
  | None => entry k m' = None
  end.

Lemma load_snapshot_file path now wall later ts readings wall2 (m : M) d blob :
  inv m -> (forall k v, entry k m = Some v -> storable v) ->
  (forall k, read_now (readings k) + from_millis u64_max <= instant_max) ->
  0 <= wall <= u64_max -> 0 <= wall2 <= u64_max ->
  bin_serialize (SnapshotManager.create_snapshot now wall later m) = inr blob -> len blob <= isize_max ->
  d !! path = Some (snapshot_file ts (SnapshotManager.create_snapshot now wall later m) blob) ->
  exists m' n, SnapshotManager.load_snapshot_from_path path readings wall2 d empty_map = Done (m', n) /\
    reloads now wall later readings wall2 m m'.
Proof.
  intros Hm Hst Hclock Hw Hw2 Hb Hlen Hfile.
  assert (He : forall k, entry k (empty_map : M) = None).
  { intros k. rewrite entry_abs by apply empty_inv. by rewrite empty_abs, lookup_empty. }
  destruct (load_records_spec now wall later readings wall2 Hclock (get_all_entries m) 0 (empty_map : M))
    as (m' & n & Hload & _ & Hall & Hother).
  { apply empty_inv. }
  { by apply NoDup_get_all_entries. }
  { apply Forall_forall. intros [k v] Hin. apply elem_of_get_all_entries in Hin; [|done].
    split; [by eapply Hst | apply He]. }
  exists m', n. split.
  - unfold SnapshotManager.load_snapshot_from_path. rewrite Hfile, read_saved by done.
    cbn [mbind outcome_bind]. unfold SnapshotManager.create_snapshot. by rewrite Hload.
  - intros k. destruct (entry k m) as [v|] eqn:Ek.
    + apply elem_of_get_all_entries, Hall in Ek; [|done]. unfold reloaded in Ek.
      destruct (persisted _ _ _ && _); [|done]. destruct Ek as (v' & -> & Hs & Hx).
      exists v'. split_and!; [done | done | by rewrite Hx; intros -> |].
      intros e Hev Hne Hr. rewrite Hx, Hev. eexists. split; [done|].
      pose proof (deadline_kept now wall wall2 e Hw Hw2 Hne Hr) as Hd. cbv zeta in Hd. cbv beta. lia.
    + rewrite Hother; [apply He|]. intros Hin. apply list_elem_of_fmap in Hin as ([k' v] & -> & Hin).
      apply elem_of_get_all_entries in Hin; [|done]. simpl in Ek. congruence.
Qed.

(** C15. What a snapshot restores, exactly: saved and loaded into an empty
    storage, it gives every string, every non-empty list, hash, set, sorted set
    and stream that had not expired when it was visited, and whose deadline has
    not passed in between, the same contents and the same deadline on the wall
    clock, rounded down to a millisecond.  It gives nothing else: a collection
    from which everything was removed is still a live key, and is dropped.
    The orders of the hash tables are the saver's and the loader's own. *)
Theorem snapshot_restores path now wall later saved_at readings wall2 (m : M) d blob :
  inv m -> (forall k v, entry k m = Some v -> storable v) ->
  (forall k, read_now (readings k) + from_millis u64_max <= instant_max) ->
  0 <= wall <= u64_max -> 0 <= wall2 <= u64_max ->
  bin_serialize (SnapshotManager.create_snapshot now wall later m) = inr blob -> len blob <= isize_max ->
  exists d' m' n,
    SnapshotManager.save_snapshot_to_path path now wall later saved_at m d = (d', Done tt) /\
    SnapshotManager.load_snapshot_from_path path readings wall2 d' empty_map = Done (m', n) /\
    forall k, match entry k m with
    | Some v =>
        if persisted now (read_now (later k)) v && negb (run_out now wall wall2 v) then
          exists v', entry k m' = Some v' /\ same_contents v v' /\
            (expires_at_ref v = None -> expires_at_ref v' = None) /\
            (forall e, expires_at_ref v = Some e -> now <= e -> (e - now) / ns_per_ms <= u64_max - wall ->
               exists e', expires_at_ref v' = Some e' /\
                 e' - read_now (readings k) <= (e - now) - from_millis (wall2 - wall) < e' - read_now (readings k) + ns_per_ms)
        else entry k m' = None
    | None => entry k m' = None
    end.
Proof.
  intros Hm Hst Hclock Hw Hw2 Hb Hlen.
  destruct (save_snapshot_file path now wall later saved_at m d blob Hb) as (d' & Hsave & Hfile & _).
  destruct (load_snapshot_file path now wall later _ readings wall2 m d' blob Hm Hst Hclock Hw Hw2 Hb Hlen Hfile)
    as (m' & n & Hload & Hk). by exists d', m', n.
Qed.
End snapshot.

Section truncation.
Context `{KeyMap M, HashOrder, Bincode Command.t, Bincode (list SnapshotRecord.t), Crc32}.

(** A snapshot that was saved: the file holds it, and the log that is opened
    next holds the rotated segments. *)
Lemma saved_and_truncated config d l segs fl now wall later saved_at (m : M) d' s' blob :
  bin_serialize (SnapshotManager.create_snapshot now wall later m) = inr blob ->
  log_rep d l segs fl [] -> opened_with config l ->
  (forall p, p = PersistenceConfig.snapshot_path config \/ p = PersistenceConfig.snapshot_path config ++ bs ".tmp" ->
     p <> WriteAheadLog.file_path l /\ forall i, p <> WriteAheadLog.segment_path i l) ->
  SnapshotManager.save_snapshot now wall later saved_at m d (SnapshotManager.with_wal config l) = (d', s', Done tt) ->
  exists l2, WriteAheadLog.new config d' = (d', Done l2) /\
    (forall S (cb : WALEntry.t -> S -> S * res unit) s,
      WriteAheadLog.replay cb d' l2 s = run_entries cb (concat (rev segs)) 0 s) /\
    d' !! PersistenceConfig.snapshot_path config = Some (snapshot_file (Z.max 0 saved_at / 1000)
      (SnapshotManager.create_snapshot now wall later m) blob).
Proof.
  intros Eb Hrep Ho Hpath Hsave. unfold SnapshotManager.save_snapshot in Hsave.
  cbn [SnapshotManager.config SnapshotManager.with_wal SnapshotManager.wal] in Hsave.
  destruct (save_snapshot_file (PersistenceConfig.snapshot_path config) now wall later saved_at m d blob Eb)
    as (d1 & E1 & Hfile & Hq). rewrite E1 in Hsave.
  destruct (Hpath _ (or_introl eq_refl)) as [P1 P2], (Hpath _ (or_intror eq_refl)) as [P3 P4].
  assert (Hrep1 : log_rep d1 l segs fl []).
  { apply (log_rep_frame d); [done | apply Hq; congruence | intros i].
    specialize (P2 i). specialize (P4 i). apply Hq; congruence. }
  destruct (truncate_rep _ _ _ _ Hrep1) as (d3 & l3 & Ht & Hr3 & Hset & _ & Hother). rewrite Ht in Hsave.
  injection Hsave as <- _. destruct (new_rep config _ _ _ _ _ Hr3) as (l2 & Hn & Hr2 & _).
  { unfold opened_with in *. congruence. }
  exists l2. split; [done|]. split.
  - intros S cb s. by rewrite (replay_rep cb _ _ _ _ _ s Hr2), app_nil_r.
  - by rewrite Hother.
Qed.

(** After a snapshot the start-up replays exactly the rotated segments:
    the active file is emptied, but the segments, whose effects the snapshot
    has as well, are kept and will be applied on top of it. *)
Theorem snapshot_leaves_rotated_entries config d l segs fl now wall later saved_at (m : M) d' s' :
  log_rep d l segs fl [] -> opened_with config l ->
  (forall p, p = PersistenceConfig.snapshot_path config \/ p = PersistenceConfig.snapshot_path config ++ bs ".tmp" ->
     p <> WriteAheadLog.file_path l /\ forall i, p <> WriteAheadLog.segment_path i l) ->
  SnapshotManager.save_snapshot now wall later saved_at m d (SnapshotManager.with_wal config l) = (d', s', Done tt) ->
  exists l2, WriteAheadLog.new config d' = (d', Done l2) /\
    forall S (cb : WALEntry.t -> S -> S * res unit) s,
      WriteAheadLog.replay cb d' l2 s = run_entries cb (concat (rev segs)) 0 s.
Proof.
  intros Hrep Ho Hpath Hsave.
  destruct (bin_serialize (SnapshotManager.create_snapshot now wall later m)) as [msg|blob] eqn:Eb.
  { unfold SnapshotManager.save_snapshot, SnapshotManager.save_snapshot_to_path in Hsave.
    by rewrite Eb in Hsave. }
  destruct (saved_and_truncated _ _ _ _ _ _ _ _ _ _ _ _ _ Eb Hrep Ho Hpath Hsave) as (l2 & Hn & Hr & _).
  by exists l2.
Qed.
End truncation.

Section restart.
Context `{KeyMapLaws M, HashOrder, Layout, Bincode Command.t, Bincode (list SnapshotRecord.t), Crc32}.

(** What a start makes of the storage [m] that a snapshot gave and of the rotated
    segments [segs], the last one first: their entries are applied again. *)
Definition with_segments (entries : WALEntry.t -> Reading) (segs : list (list WALEntry.t)) (m : M)
    : M * outcome LoadError unit :=
  match run_entries (apply_entry entries) (concat (rev segs)) 0 m with
  | (m, Done _) => (m, Done tt)
  | (m, Failed e) => (m, Failed (LoadWal e))
  | (m, Crashed) => (m, Crashed)
  end.

(** A restart after a snapshot: the active file of the log is emptied after the
    snapshot is written, so the next start loads exactly the keys of the
    storage [m] that was read, whatever entries [fl] the log held at that time,
    and applies the rotated segments to them once more; without segments that
    is all.  A write that was logged while the snapshot was being saved is
    lost. *)
Theorem restart_after_snapshot config d l segs fl now wall later saved_at readings wall2 entries (m : M) blob d' s' :
  inv m -> (forall k v, entry k m = Some v -> storable v) ->
  (forall k, read_now (readings k) + from_millis u64_max <= instant_max) ->
  0 <= wall <= u64_max -> 0 <= wall2 <= u64_max ->
  bin_serialize (SnapshotManager.create_snapshot now wall later m) = inr blob -> len blob <= isize_max ->
  log_rep d l segs fl [] -> opened_with config l ->
  (forall p, p = PersistenceConfig.snapshot_path config \/ p = PersistenceConfig.snapshot_path config ++ bs ".tmp" ->
     p <> WriteAheadLog.file_path l /\ forall i, p <> WriteAheadLog.segment_path i l) ->
  SnapshotManager.save_snapshot now wall later saved_at m d (SnapshotManager.with_wal config l) = (d', s', Done tt) ->
  exists l2 m', WriteAheadLog.new config d' = (d', Done l2) /\
    load_from_persistence readings wall2 entries (Some (SnapshotManager.with_wal config l2)) (Some l2) d' empty_map =
      with_segments entries segs m' /\
    reloads now wall later readings wall2 m m'.
Proof.
  intros Hm Hst Hclock Hw Hw2 Hb Hlen Hrep Ho Hpath Hsave.
  destruct (saved_and_truncated _ _ _ _ _ _ _ _ _ _ _ _ _ Hb Hrep Ho Hpath Hsave) as (l2 & Hn & Hreplay & Hfile).
  destruct (load_snapshot_file _ now wall later _ readings wall2 m d' blob Hm Hst Hclock Hw Hw2 Hb Hlen Hfile)
    as (m' & n & Hload & Hk).
  exists l2, m'. split; [done|]. split; [|done]. unfold load_from_persistence, SnapshotManager.load_snapshot.
  simpl. rewrite Hload. simpl. rewrite Hreplay. done.
Qed.
End restart.

Section damage.
Context `{Bincode Command.t, Crc32}.

(** Entries still in the buffer when a snapshot truncates the log are
    written after the truncation, and the next entries over them from the
    start of the file: what a sync then leaves is the new entry followed by
    the rest of the old ones, which need not be entries. *)
Theorem unsynced_entries_damage_the_log d l segs fl bu wall cmd d1 l1 :
  log_rep d l segs fl bu -> File.append (BufWriter.inner (WriteAheadLog.writer l)) = true ->
  WriteAheadLog.truncate_after_snapshot d l = (d1, l1) ->
  let e := WALEntry.new (WriteAheadLog.sequence l) wall cmd in
  fits e -> len (frame e) < BufWriter.capacity -> BufWriter.capacity <= WriteAheadLog.max_size l ->
  WriteAheadLog.sync_policy l <> WALSyncPolicy.Always ->
  exists d2 l2, WriteAheadLog.append_command wall cmd d1 l1 = (d2, l2, Done (WriteAheadLog.sequence l)) /\
    fst (WriteAheadLog.sync d2 l2) !! WriteAheadLog.file_path l =
      Some (frame e ++ drop (length (frame e)) (render bu)).
Proof.
  intros Hrep Ha Ht e Hfit Hlen Hmax Hpol.
  destruct (truncate_buffered _ _ _ _ _ Hrep Ha) as (d1' & l1' & Ht' & Hf & Hset & Hseq & Hsz & Hw).
  rewrite Ht in Ht'. injection Ht' as <- <-. injection Hset as Hp1 Hp2 Hp3 Hp4.
  rewrite <- Hseq, <- Hp3, <- Hp1 in *.
  destruct (append_sync_at_cursor d1 l1 wall cmd _ Hw) as (d2 & l2 & Happ & Hs); try done.
  { unfold e in Hfit. by rewrite Hseq. }
  { by rewrite Hseq. }
  exists d2, l2. rewrite Happ. split; [congruence|]. rewrite Hs. unfold File.write_all.
  rewrite Hseq. fold e. destruct (serialize_framed e Hfit) as [Hl _].
  destruct (frame e) as [|b r] eqn:Ef; [unfold len in Hl; simpl in Hl; lia|].
  cbn [fst File.path File.append File.cursor]. rewrite lookup_insert_eq, Hf. done.
Qed.
End damage.

(** ** Witnesses *)

Import Defaults.

Definition ex_config (policy : WALSyncPolicy.t) (max : Z) : PersistenceConfig.t := {|
  PersistenceConfig.mode := PersistenceMode.Both;
  PersistenceConfig.wal_sync_policy := policy;
  PersistenceConfig.snapshot_interval_secs := 300;
  PersistenceConfig.max_wal_size_bytes := max;
  PersistenceConfig.wal_path := bs "w";
  PersistenceConfig.snapshot_path := bs "s";
  PersistenceConfig.wal_backup_count := 1;
|}.

Lemma ex_fresh policy max : fresh (ex_config policy max) ∅.
Proof. split; [done|]. intros n. apply lookup_empty. Qed.

Lemma incr_loggable : loggable (Command.Incr (bs "c")).
Proof. eexists. split; [done|]. vm_compute. congruence. Qed.

Definition ex_steps : list step :=
  [Append 5 (Command.Incr (bs "c")); Append 6 (Command.Incr (bs "c")); Sync].

Definition keep_command (e : WALEntry.t) (l : list Command.t) : list Command.t * res unit :=
  (l ++ [WALEntry.command e], Ok tt).

Lemma log_recovers_commands_witness :
  exists d l d' l' l2, WriteAheadLog.new (ex_config WALSyncPolicy.Manual 30) ∅ = (d, Done l) /\
    run_steps ex_steps d l = (d', l') /\
    WriteAheadLog.new (ex_config WALSyncPolicy.Manual 30) d' = (d', Done l2) /\
    exists es, map WALEntry.command es = [Command.Incr (bs "c"); Command.Incr (bs "c")] /\
      WriteAheadLog.replay keep_command d' l2 [] = run_entries keep_command es 0 [].
Proof.
  destruct (log_recovers_commands (ex_config WALSyncPolicy.Manual 30) ∅ ex_steps) as
    (d & l & Hn & d' & l' & Hr & l2 & Hn2 & es & old & recent & Happ & Hrep & Hdur & Hold).
  - apply ex_fresh.
  - done.
  - vm_compute. congruence.
  - repeat constructor; apply incr_loggable.
  - vm_compute. congruence.
  - exists d, l, d', l', l2. split_and!; [done | done | done |]. exists es. split; [|apply Hrep].
    rewrite Hold, Hdur in Happ by (first [vm_compute; reflexivity | right; by eexists [_; _]]).
    rewrite app_nil_r in Happ. symmetry. exact Happ.
Defined.

Definition ex_entry : WALEntry.t := WALEntry.new 0 5 (Command.Incr (bs "c")).

Lemma ex_entry_fits : fits ex_entry.
Proof. apply loggable_fits; [apply incr_loggable | done]. Qed.

Lemma torn_entry_stops_the_log_witness :
  let d := <[bs "w" := take 21 (frame ex_entry)]> ∅ in
  WriteAheadLog.new (ex_config WALSyncPolicy.Always 30) d = (d, Failed (IoError UnexpectedEof)).
Proof.
  apply (torn_entry_stops_the_log (ex_config WALSyncPolicy.Always 30) _ [] ex_entry 21).
  - constructor.
  - apply ex_entry_fits.
  - vm_compute. lia.
  - done.
  - intros i. rewrite lookup_insert_ne; [apply lookup_empty|]. intros E. symmetry in E.
    by apply segment_of_ne in E.
Defined.

Definition ex_store : table := {[bs "k" := CString (bs "v") (Some 7000000)]}.

Lemma snapshot_restores_witness : exists d m n e,
  SnapshotManager.save_snapshot_to_path (bs "s") 0 100 (fun _ => clocks_at 1 1) 100 ex_store ∅ = (d, Done tt) /\
  SnapshotManager.load_snapshot_from_path (bs "s") (fun _ => clocks_at 50 103) 103 d (empty_map : table) = Done (m, n) /\
  m !! bs "k" = Some (CString (bs "v") (Some e)) /\ e - 50 <= 4000000 < e - 50 + 1000000.
Proof.
  destruct (snapshot_restores (bs "s") 0 100 (fun _ => clocks_at 1 1) 100 (fun _ => clocks_at 50 103) 103 ex_store ∅
    (match bin_serialize (SnapshotManager.create_snapshot 0 100 (fun _ => clocks_at 1 1) ex_store) with
     | inr b => b | inl b => b end)) as (d & m & n & Hs & Hl & Hk).
  - done.
  - intros k v Hv. change (ex_store !! k = Some v) in Hv.
    unfold ex_store in Hv. apply lookup_singleton_Some in Hv as [_ <-]. done.
  - intros _. vm_compute. congruence.
  - vm_compute. split; congruence.
  - vm_compute. split; congruence.
  - vm_compute. reflexivity.
  - vm_compute. congruence.
  - specialize (Hk (bs "k")). destruct Hk as (v' & Hv & Hsame & _ & He).
    destruct v' as [b slot| | | | |]; [|destruct Hsame..]. simpl in Hsame. subst b.
    destruct (He 7000000) as (e & Hslot & Hb); [done | lia | vm_compute; congruence |].
    simpl in Hslot. subst slot. exists d, m, n, e.
    split; [exact Hs|]. split; [exact Hl|]. split; [exact Hv|].
    unfold from_millis, ns_per_ms in Hb. cbn [read_now clocks_at] in Hb. lia.
Defined.

(** A list from which its only element was taken exists, and the snapshot drops
    it. *)
Example emptied_list_is_dropped :
  let m := fst (lpop (bs "l") (fst (rpush (bs "l") [bs "x"] (∅ : table)))) in
  exists' 5 [bs "l"] m = 1 /\
  match SnapshotManager.save_snapshot_to_path (bs "s") 5 100 (fun _ => clocks_at 5 100) 100 m ∅ with
  | (d, Done _) =>
      SnapshotManager.load_snapshot_from_path (bs "s") (fun _ => clocks_at 50 103) 103 d (empty_map : table)
      = Done (∅, 0)
  | _ => False
  end.
Proof. vm_compute. split; reflexivity. Qed.

(** A log that rotates at every append: the entry goes to the segment. *)
Definition ex_rotated : fs * WriteAheadLog.t :=
  match WriteAheadLog.new (ex_config WALSyncPolicy.Always 10) ∅ with
  | (d, Done l) =>
      let '(d, l, _) := WriteAheadLog.append_command 5 (Command.Incr (bs "c")) d l in (d, l)
  | (d, _) => (d, WriteAheadLog.mk (BufWriter.new (File.mk [] true 0)) 0 WALSyncPolicy.Always [] 0 0 0)
  end.

Lemma ex_rotated_rep :
  log_rep (fst ex_rotated) (snd ex_rotated) [[ex_entry]] [] [] /\
  opened_with (ex_config WALSyncPolicy.Always 10) (snd ex_rotated).
Proof.
  destruct (new_fresh (ex_config WALSyncPolicy.Always 10) ∅) as (l & Hn & Hh & Ho & Hs);
    [apply ex_fresh | done |].
  injection (Ho) as Hpol Hpath Hmax Hbk. pose proof (hist_rep _ _ _ _ _ Hh) as Hrep.
  rewrite take_nil in Hrep.
  destruct (append_rep _ _ _ _ _ 5 (Command.Incr (bs "c")) Hrep) as
    (d' & l' & fl & bu & Ha & Hr & Happ & Hset & _).
  { rewrite Hs. apply ex_entry_fits. }
  unfold WriteAheadLog.segments_to_keep in Hr, Happ. rewrite Hs, Hmax, Hbk in Hr, Happ.
  assert (Hadd : added 10 (Z.max 1 1) ex_entry [] [] = ([[ex_entry]], [])) by (vm_compute; reflexivity).
  change (WALEntry.new 0 5 (Command.Incr (bs "c"))) with ex_entry in Hr, Happ.
  cbn [PersistenceConfig.max_wal_size_bytes PersistenceConfig.wal_backup_count ex_config app] in Hr, Happ.
  rewrite Hadd in Hr, Happ. simpl in Happ. apply app_eq_nil in Happ as [-> ->].
  unfold ex_rotated. rewrite Hn, Ha. split; [exact Hr|]. cbn [snd].
  unfold opened_with in *. rewrite Hset. exact Ho.
Qed.

Lemma ex_rotated_paths p :
  p = bs "s" \/ p = bs "s" ++ bs ".tmp" ->
  p <> WriteAheadLog.file_path (snd ex_rotated) /\
  forall i, p <> WriteAheadLog.segment_path i (snd ex_rotated).
Proof.
  assert (Hp : WriteAheadLog.file_path (snd ex_rotated) = bs "w") by (vm_compute; reflexivity).
  unfold WriteAheadLog.segment_path. rewrite Hp. intros [-> | ->]; by split.
Qed.

(** A counter that is 1 in the snapshot, after its INCR was rotated, is 2 after
    the restart. *)
Lemma snapshot_leaves_rotated_entries_witness : exists d s l2,
  SnapshotManager.save_snapshot 0 100 (fun _ => clocks_at 1 1) 100 ({[bs "c" := CString (bs "1") None]} : table)
    (fst ex_rotated) (SnapshotManager.with_wal (ex_config WALSyncPolicy.Always 10) (snd ex_rotated))
    = (d, s, Done tt) /\
  WriteAheadLog.new (ex_config WALSyncPolicy.Always 10) d = (d, Done l2) /\
  let m := fst (WriteAheadLog.replay (apply_entry (fun _ => clocks_at 0 0)) d l2
                  ({[bs "c" := CString (bs "1") None]} : table)) in
  m !! bs "c" = Some (CString (bs "2") None).
Proof.
  destruct ex_rotated_rep as [Hr Ho].
  destruct (SnapshotManager.save_snapshot 0 100 (fun _ => clocks_at 1 1) 100 ({[bs "c" := CString (bs "1") None]} : table)
    (fst ex_rotated) (SnapshotManager.with_wal (ex_config WALSyncPolicy.Always 10) (snd ex_rotated)))
    as [[d s] r] eqn:E.
  assert (r = Done tt) as ->.
  { assert (Hr' : snd (SnapshotManager.save_snapshot 0 100 (fun _ => clocks_at 1 1) 100 ({[bs "c" := CString (bs "1") None]} : table)
      (fst ex_rotated) (SnapshotManager.with_wal (ex_config WALSyncPolicy.Always 10) (snd ex_rotated))) = Done tt)
      by (vm_compute; reflexivity). by rewrite E in Hr'. }
  destruct (snapshot_leaves_rotated_entries _ _ _ _ _ _ _ _ _ _ _ _ Hr Ho ex_rotated_paths E) as (l2 & Hn & Hrep).
  exists d, s, l2. split; [done|]. split; [done|]. cbv zeta. rewrite Hrep. vm_compute. reflexivity.
Defined.

(** A log with one long entry in its buffer. *)
Definition ex_long : Command.t :=
  Command.Set' (bs "key") (bs "a value that is a good deal longer than the next entry") None.

Definition ex_buffered : fs * WriteAheadLog.t :=
  match WriteAheadLog.new (ex_config WALSyncPolicy.EverySecond 100000) ∅ with
  | (d, Done l) => let '(d, l, _) := WriteAheadLog.append_command 5 ex_long d l in (d, l)
  | (d, _) => (d, WriteAheadLog.mk (BufWriter.new (File.mk [] true 0)) 0 WALSyncPolicy.Always [] 0 0 0)
  end.

Definition ex_damaged : fs :=
  let '(d, l) := WriteAheadLog.truncate_after_snapshot (fst ex_buffered) (snd ex_buffered) in
  let '(d, l, _) := WriteAheadLog.append_command 6 (Command.Incr (bs "c")) d l in
  fst (WriteAheadLog.sync d l).

Lemma ex_buffered_rep :
  log_rep (fst ex_buffered) (snd ex_buffered) [] [] [WALEntry.new 0 5 ex_long].
Proof.
  assert (Hfit : fits (WALEntry.new 0 5 ex_long)).
  { apply loggable_fits; [|done]. eexists. split; [done|]. vm_compute. congruence. }
  split.
  - vm_compute. reflexivity.
  - eexists. split; [vm_compute; reflexivity|]. by left.
  - vm_compute. reflexivity.
  - vm_compute. reflexivity.
  - intros [|i] Hi; [vm_compute; reflexivity|].
    assert (Hk : WriteAheadLog.segments_to_keep (snd ex_buffered) = 1) by (vm_compute; reflexivity).
    rewrite Hk in Hi. lia.
  - vm_compute. congruence.
  - split; [constructor|]. by constructor.
  - vm_compute. reflexivity.
  - vm_compute. reflexivity.
Qed.

(** The log no longer opens after the entry that followed the snapshot. *)
Lemma unsynced_entries_damage_the_log_witness : exists d1 l1 d2 l2,
  WriteAheadLog.truncate_after_snapshot (fst ex_buffered) (snd ex_buffered) = (d1, l1) /\
  WriteAheadLog.append_command 6 (Command.Incr (bs "c")) d1 l1 = (d2, l2, Done 1) /\
  fst (WriteAheadLog.sync d2 l2) !! bs "w" =
    Some (frame (WALEntry.new 1 6 (Command.Incr (bs "c")))
          ++ drop 26 (render [WALEntry.new 0 5 ex_long])) /\
  snd (WriteAheadLog.new (ex_config WALSyncPolicy.EverySecond 100000) ex_damaged)
    = Failed (IoError UnexpectedEof).
Proof.
  destruct (WriteAheadLog.truncate_after_snapshot (fst ex_buffered) (snd ex_buffered)) as [d1 l1] eqn:E.
  destruct (unsynced_entries_damage_the_log _ _ _ _ _ 6 (Command.Incr (bs "c")) d1 l1 ex_buffered_rep)
    as (d2 & l2 & Ha & Hf).
  - vm_compute. reflexivity.
  - exact E.
  - apply loggable_fits; [apply incr_loggable | vm_compute; reflexivity].
  - vm_compute. reflexivity.
  - vm_compute. congruence.
  - vm_compute. congruence.
  - exists d1, l1, d2, l2. split; [done|]. split; [exact Ha|]. split; [exact Hf|].
    vm_compute. reflexivity.
Defined.

(** A log whose active file holds an INCR of ["c"]. *)
Definition ex_logged : fs * WriteAheadLog.t :=
  match WriteAheadLog.new (ex_config WALSyncPolicy.Always 100000) ∅ with
  | (d, Done l) =>
      let '(d, l, _) := WriteAheadLog.append_command 5 (Command.Incr (bs "c")) d l in (d, l)
  | (d, _) => (d, WriteAheadLog.mk (BufWriter.new (File.mk [] true 0)) 0 WALSyncPolicy.Always [] 0 0 0)
  end.

Lemma ex_logged_rep : log_rep (fst ex_logged) (snd ex_logged) [] [ex_entry] [].
Proof.
  split.
  - vm_compute. reflexivity.
  - eexists. split; [vm_compute; reflexivity|]. by left.
  - vm_compute. reflexivity.
  - vm_compute. reflexivity.
  - intros [|i] Hi; [vm_compute; reflexivity|].
    assert (Hk : WriteAheadLog.segments_to_keep (snd ex_logged) = 1) by (vm_compute; reflexivity).
    rewrite Hk in Hi. lia.
  - vm_compute. congruence.
  - split; [constructor|]. constructor; [|constructor]. exact ex_entry_fits.
  - vm_compute. reflexivity.
  - vm_compute. reflexivity.
Qed.

Definition ex_saved : fs * SnapshotManager.t * outcome SnapshotError unit :=
  SnapshotManager.save_snapshot 0 100 (fun _ => clocks_at 1 1) 100 (∅ : table) (fst ex_logged)
    (SnapshotManager.with_wal (ex_config WALSyncPolicy.Always 100000) (snd ex_logged)).

(** The storage was collected empty, the INCR of ["c"] was logged while it was
    saved, and after the restart there is no ["c"]. *)
Lemma restart_after_snapshot_witness : exists d' s' l2 m', ex_saved = (d', s', Done tt) /\
  WriteAheadLog.new (ex_config WALSyncPolicy.Always 100000) d' = (d', Done l2) /\
  load_from_persistence (fun _ => clocks_at 50 103) 103 (fun _ => clocks_at 0 0)
    (Some (SnapshotManager.with_wal (ex_config WALSyncPolicy.Always 100000) l2)) (Some l2) d' (empty_map : table) =
    (m', Done tt) /\
  entry (bs "c") m' = None.
Proof.
  destruct ex_saved as [[d' s'] r] eqn:E.
  assert (Hr : snd ex_saved = Done tt) by (vm_compute; reflexivity). rewrite E in Hr. simpl in Hr. subst r.
  destruct (restart_after_snapshot (ex_config WALSyncPolicy.Always 100000) (fst ex_logged) (snd ex_logged) [] [ex_entry]
    0 100 (fun _ => clocks_at 1 1) 100 (fun _ => clocks_at 50 103) 103 (fun _ => clocks_at 0 0) (∅ : table)
    (match bin_serialize (SnapshotManager.create_snapshot 0 100 (fun _ => clocks_at 1 1) (∅ : table)) with
     | inr b => b | inl b => b end) d' s') as (l2 & m' & Hn & Hl & Hk).
  - done.
  - intros k v Hv. change ((∅ : table) !! k = Some v) in Hv. by rewrite lookup_empty in Hv.
  - intros _. vm_compute. congruence.
  - vm_compute. split; congruence.
  - vm_compute. split; congruence.
  - vm_compute. reflexivity.
  - vm_compute. congruence.
  - exact ex_logged_rep.
  - vm_compute. reflexivity.
  - intros p Hp. assert (Hw : WriteAheadLog.file_path (snd ex_logged) = bs "w") by (vm_compute; reflexivity).
    unfold WriteAheadLog.segment_path. rewrite Hw. destruct Hp as [-> | ->]; by split.
  - exact E.
  - exists d', s', l2, m'. split; [reflexivity|]. split; [exact Hn|]. split; [exact Hl|].
    exact (Hk (bs "c")).
Defined.
