(* ===== verification/GossipTheorems.v ===== *)
(** * GossipTheorems: failure detection

    Over any interleaving of received datagrams and health checks. *)

From S2P Require Import Prelude Text FileSystem External BTree Values Ring Gossip.
Import GossipProtocol.
#[local] Open Scope Z_scope.

Section theorems.
Context `{Xxh3}.
Implicit Types (g : t) (id : NodeId).

Lemma run_events_app es1 es2 g : run_events (es1 ++ es2) g = run_events es2 (run_events es1 g).
Proof. apply fold_left_app. Qed.

(** What a health check makes of a node that was last seen at [seen]. *)
Lemma check_node_spec now n :
  Node.last_seen (fst (check_node now n)) = Node.last_seen n /\
  (snd (check_node now n) = true <->
     FAILED_TIMEOUT < now - Node.last_seen n /\ Node.status n <> Failed) /\
  (Node.status (fst (check_node now n)) = Failed <->
     Node.status n = Failed \/ FAILED_TIMEOUT < now - Node.last_seen n).
Proof.
  unfold check_node, Node.time_since_last_seen, FAILED_TIMEOUT, SUSPICIOUS_TIMEOUT, ns_per_sec.
  destruct (Z.ltb_spec (10 * 1000000000) (Z.max 0 (now - Node.last_seen n))) as [H1|H1];
    destruct (Z.ltb_spec (5 * 1000000000) (Z.max 0 (now - Node.last_seen n))) as [H2|H2];
    destruct (Node.status n) eqn:E; simpl; rewrite ?E; split_and!; try done; intuition (try done; lia).
Qed.

(** The events do not mention [id] as alive. *)
Definition silent id (es : list event) : Prop :=
  Forall (fun e => match e with Received _ _ msg _ => silent_about id msg | HealthCheck _ _ => True end) es.

(** Failed nodes are off the ring. *)
Definition failed_off id (n : Node.t) g : Prop := Node.status n = Failed -> off_ring id (ring g).

Lemma silent_step id e g n :
  match e with Received _ _ msg _ => silent_about id msg | HealthCheck _ _ => True end ->
  known_nodes g !! id = Some n ->
  exists n', known_nodes (gossip_step e g) !! id = Some n' /\ Node.last_seen n' = Node.last_seen n /\
    (Node.status n = Failed -> Node.status n' = Failed) /\
    (failed_off id n g -> failed_off id n' (gossip_step e g)).
Proof.
  intros He Hn. destruct e as [now wall msg addr|now order]; cbn [gossip_step].
  - destruct (silent_message now wall msg addr g id He) as [Hk Ho]. exists n. rewrite Hk.
    split_and!; [done..|]. unfold failed_off. auto.
  - destruct (health_check_node now g id) as (Hk & Ho & Hr). rewrite Hk, Hn. eexists. split; [done|].
    destruct (check_node_spec now n) as (Hl & Hc & Hf). split_and!; [done | intros; apply Hf; by left |].
    intros Hoff Hfail. apply Hf in Hfail. destruct (decide (Node.status n = Failed)) as [E|E]; [auto|].
    destruct Hfail as [|Hlt]; [done|]. eapply Hr; [done|]. by apply Hc.
Qed.

(** A silent node: what the events leave of it. *)
Lemma silent_run id es g n : silent id es -> known_nodes g !! id = Some n ->
  exists n', known_nodes (run_events es g) !! id = Some n' /\ Node.last_seen n' = Node.last_seen n /\
    (Node.status n = Failed -> Node.status n' = Failed) /\
    (failed_off id n g -> failed_off id n' (run_events es g)).
Proof.
  intros Hs. revert g n. induction Hs as [|e es He _ IH]; intros g n Hn.
  { exists n. by split_and!. }
  destruct (silent_step id e g n He Hn) as (n1 & Hk1 & Hl1 & Hs1 & Hf1).
  destruct (IH _ _ Hk1) as (n' & Hk & Hl & Hs' & Hf).
  exists n'. split_and!; [done | congruence | auto | auto].
Qed.

Lemma merge_keeps_ring n g id : is_Some (nodes (ring g) !! id) ->
  is_Some (nodes (ring (merge_node n g)) !! id).
Proof.
  intros Hr. unfold merge_node. case_match; [|done]. simpl. rewrite lookup_insert_is_Some'. by right.
Qed.

(** No message takes a node off the ring. *)
Lemma message_keeps_ring now wall msg addr g id : is_Some (nodes (ring g) !! id) ->
  is_Some (nodes (ring (fst (handle_message now wall msg addr g))) !! id).
Proof.
  destruct msg as [from v|from v|n|ns]; cbn [handle_message fst]; intros Hr; try done.
  - by apply merge_keeps_ring.
  - revert g Hr. induction ns as [|n ns IH]; intros g Hr; [done|]. by apply IH, merge_keeps_ring.
Qed.

(** A node that is known at this version is not merged again. *)
Lemma merge_stale v m g id n : (Node.id m = id -> Node.version m = v) ->
  known_nodes g !! id = Some n -> Node.version n = v -> off_ring id (ring g) ->
  known_nodes (merge_node m g) !! id = Some n /\ off_ring id (ring (merge_node m g)).
Proof.
  intros Hm Hn Hv Ho. destruct (decide (Node.id m = id)) as [E|E].
  - unfold merge_node. rewrite E, Hn, Hv, (Hm E), Z.ltb_irrefl. done.
  - destruct (merge_node_other m g id E) as [Hk Hoff]. rewrite Hk. auto.
Qed.

Lemma heard_from_version now wall from w g id n : (from = id -> w = Node.version n) ->
  known_nodes g !! id = Some n ->
  exists n', known_nodes (heard_from now wall from w g) !! id = Some n' /\ Node.version n' = Node.version n.
Proof.
  intros Hw Hn. destruct (decide (from = id)) as [->|E].
  - simpl. rewrite lookup_alter_eq, Hn. eexists. split; [done|]. simpl. auto.
  - rewrite heard_from_known by done. by exists n.
Qed.

(** C19. Failure detection is complete: a known node from which nothing is
    heard is marked failed, and owns no key, once a health check has run more
    than ten seconds after it was last seen; and it stays so as long as nothing
    is heard of it, whatever the other nodes send. *)
Theorem silent_node_is_removed id es g n now order :
  known_nodes g !! id = Some n -> Node.status n <> Failed -> silent id es ->
  HealthCheck now order ∈ es -> FAILED_TIMEOUT < now - Node.last_seen n ->
  exists n', known_nodes (run_events es g) !! id = Some n' /\ Node.status n' = Failed /\
    forall key, get_node key (ring (run_events es g)) <> Some id.
Proof.
  intros Hn Hst Hs Hin Hlate. apply list_elem_of_split in Hin as (es1 & es2 & ->).
  apply Forall_app in Hs as [Hs1 Hs2]. rewrite run_events_app.
  destruct (silent_run id es1 g n Hs1 Hn) as (n1 & Hk1 & Hl1 & _ & Hf1).
  destruct (silent_step id (HealthCheck now order) (run_events es1 g) n1) as (n2 & Hk2 & _ & _ & Hf2); [done..|].
  assert (Hfail : Node.status n2 = Failed).
  { cbn [gossip_step] in Hk2. destruct (health_check_node now (run_events es1 g) id) as (Hk & _).
    rewrite Hk, Hk1 in Hk2. injection Hk2 as <-. apply check_node_spec. right. by rewrite Hl1. }
  apply Forall_cons in Hs2 as [_ Hs2].
  destruct (silent_run id es2 _ n2 Hs2 Hk2) as (n' & Hk & _ & Hs' & Hf).
  exists n'. split_and!; [done | auto |]. intros key. apply off_ring_owner.
  apply Hf; [|auto]. apply Hf2, Hf1. intros ?. done.
Qed.

(** *** Signs of life *)

(** The clock of an event. *)
Definition time_of (e : event) : Z :=
  match e with Received now _ _ _ | HealthCheck now _ => now end.

(** The clock of one process does not run backwards. *)
Fixpoint clocked (t : Z) (es : list event) : Prop :=
  match es with
  | [] => True
  | e :: es => t <= time_of e /\ clocked (time_of e) es
  end.

(** The nodes of a message carry the time of its arrival, as [decode] makes
    them. *)
Definition arrived (e : event) : Prop :=
  match e with
  | Received now _ msg _ => Forall (fun n => Node.last_seen n = now) (carried msg)
  | HealthCheck _ _ => True
  end.

Lemma decode_arrived `{Json} now wall data addr msg : decode now data = Some msg ->
  arrived (Received now wall msg addr).
Proof.
  unfold decode. intros (m & _ & ->)%fmap_Some. destruct m as [| |n|ns]; simpl; try by constructor.
  apply Forall_map, Forall_forall. done.
Qed.

(** A ping or pong of [id] that arrives at [t]. *)
Definition sign_of_life id (t : Z) (e : event) : Prop :=
  match e with
  | Received now _ (Ping from _) _ | Received now _ (Pong from _) _ => from = id /\ now = t
  | _ => False
  end.

(** At every health check the last sign of life, or what was known at first,
    is at most ten seconds old. *)
Definition heard_in_time id (seen : Z) (es : list event) : Prop :=
  forall es1 now order es2, es = es1 ++ HealthCheck now order :: es2 ->
    now - seen <= FAILED_TIMEOUT \/
    exists e t, e ∈ es1 /\ sign_of_life id t e /\ now - t <= FAILED_TIMEOUT.

Lemma merge_seen t n g id n0 : Node.last_seen n = t -> known_nodes g !! id = Some n0 ->
  exists n1, known_nodes (merge_node n g) !! id = Some n1 /\
    (Node.last_seen n1 = Node.last_seen n0 \/ Node.last_seen n1 = t).
Proof.
  intros Ht Hn. destruct (decide (Node.id n = id)) as [E|E].
  - unfold merge_node. case_match; [|eauto]. simpl. rewrite E, lookup_insert_eq. eauto.
  - destruct (merge_node_other n g id E) as [-> _]. eauto.
Qed.

Lemma merge_all_seen t ns g id n0 : Forall (fun n => Node.last_seen n = t) ns ->
  known_nodes g !! id = Some n0 ->
  exists n1, known_nodes (fold_left (fun g n => merge_node n g) ns g) !! id = Some n1 /\
    (Node.last_seen n1 = Node.last_seen n0 \/ Node.last_seen n1 = t).
Proof.
  intros Hns. revert g n0. induction Hns as [|n ns Hn _ IH]; intros g n0 Hk; simpl; [eauto|].
  destruct (merge_seen t n g id n0 Hn Hk) as (n1 & Hk1 & H1).
  destruct (IH _ _ Hk1) as (n2 & Hk2 & H2). exists n2. split; [done|].
  destruct H2 as [->|H2]; [done | by right].
Qed.

Lemma heard_from_seen now wall from v g id n0 : known_nodes g !! id = Some n0 ->
  exists n1, known_nodes (heard_from now wall from v g) !! id = Some n1 /\
    Node.last_seen n1 = if decide (from = id) then now else Node.last_seen n0.
Proof.
  intros Hk. case_decide as E.
  - subst from. simpl. rewrite lookup_alter_eq, Hk. by eexists.
  - rewrite heard_from_known by done. by exists n0.
Qed.

(** What a message leaves of a known node: it was last seen as before or just
    now, and just now if the message is a sign of life. *)
Lemma message_seen now wall msg addr g id n0 : arrived (Received now wall msg addr) ->
  known_nodes g !! id = Some n0 ->
  exists n1, known_nodes (fst (handle_message now wall msg addr g)) !! id = Some n1 /\
    (Node.last_seen n1 = Node.last_seen n0 \/ Node.last_seen n1 = now) /\
    (forall t, sign_of_life id t (Received now wall msg addr) -> Node.last_seen n1 = t).
Proof.
  intros Ha Hk. destruct msg as [from v|from v|n|ns]; cbn [handle_message fst].
  1,2: destruct (heard_from_seen now wall from v g id n0 Hk) as (n1 & Hk1 & H1); exists n1;
    (split; [done|]); split; [case_decide; auto|]; intros t [-> <-]; by rewrite decide_True in H1.
  - apply Forall_cons in Ha as [Ha _]. destruct (merge_seen now n g id n0 Ha Hk) as (n1 & Hk1 & H1). by exists n1.
  - destruct (merge_all_seen now ns g id n0 Ha Hk) as (n1 & Hk1 & H1). by exists n1.
Qed.

(** C29. Failure detection is accurate: a known node on the ring from which
    pings or pongs arrive stays on the ring through any events, if at every
    health check the last of them (or what was known of it at the start) is at
    most ten seconds old.  Nothing is asked of the stored time stamps: the clock
    does not run backwards, and nodes in messages are stamped on arrival. *)
Theorem seen_node_stays_on_ring id es g n :
  known_nodes g !! id = Some n -> is_Some (nodes (ring g) !! id) ->
  clocked (Node.last_seen n) es -> Forall arrived es -> heard_in_time id (Node.last_seen n) es ->
  is_Some (nodes (ring (run_events es g)) !! id).
Proof.
  intros Hk Hr Hc. assert (Ht : Node.last_seen n <= Node.last_seen n) by lia. revert Ht Hc.
  generalize (Node.last_seen n) at 2 3 as t. revert g n Hk Hr.
  induction es as [|e es IH]; intros g n Hk Hr t Ht Hc Ha Hh; [done|].
  destruct Hc as [Hte Hc]. apply Forall_cons in Ha as [Ha Has].
  destruct e as [now wall msg addr|now order]; cbn [time_of] in *.
  - destruct (message_seen now wall msg addr g id n Ha Hk) as (n1 & Hk1 & H1 & Hl1).
    apply (IH (gossip_step (Received now wall msg addr) g) n1 Hk1 (message_keeps_ring _ _ _ _ _ _ Hr) now);
      [lia|done|done|].
    intros es1 now' order es2 ->. destruct (Hh (Received now wall msg addr :: es1) now' order es2 eq_refl)
      as [Hle|(e & u & [->|He]%elem_of_cons & Hs & Hle)]; [left; lia | left; rewrite (Hl1 u Hs); lia |].
    right. by exists e, u.
  - destruct (health_check_node now g id) as (Hk1 & _). rewrite Hk in Hk1.
    destruct (check_node_spec now n) as (Hl & Hf & _).
    apply (IH (gossip_step (HealthCheck now order) g) (fst (check_node now n)) Hk1) with (t := now);
      rewrite ?Hl; [|lia|done|done|].
    + cbn [gossip_step]. rewrite health_check_keeps; [done|]. intros n' Hn'.
      assert (n' = n) as -> by congruence. apply not_true_is_false. intros [Hlt _]%Hf.
      destruct (Hh [] now order es eq_refl) as [Hle|(e & u & He & _)]; [lia|]. by apply elem_of_nil in He.
    + intros es1 now' order' es2 ->. destruct (Hh (HealthCheck now order :: es1) now' order' es2 eq_refl)
        as [Hle|(e & u & [->|He]%elem_of_cons & Hs & Hle)]; [by left | done |].
      right. by exists e, u.
Qed.

(** The version that messages carry for [id]. *)
Definition at_version (v : Z) id (e : event) : Prop :=
  match e with
  | Received _ _ (Ping from w) _ | Received _ _ (Pong from w) _ => from = id -> w = v
  | Received _ _ msg _ => Forall (fun n => Node.id n = id -> Node.version n = v) (carried msg)
  | HealthCheck _ _ => True
  end.

Lemma stale_step v id e g n : at_version v id e -> known_nodes g !! id = Some n ->
  Node.version n = v -> off_ring id (ring g) ->
  exists n', known_nodes (gossip_step e g) !! id = Some n' /\ Node.version n' = v /\
    off_ring id (ring (gossip_step e g)).
Proof.
  intros He Hn Hv Ho. destruct e as [now wall [from w|from w|m|ms] addr|now order]; cbn [gossip_step handle_message fst].
  - destruct (heard_from_version now wall from w g id n) as (n' & Hk & Hv'); [by rewrite Hv | done |].
    exists n'. split_and!; [done | congruence | done].
  - destruct (heard_from_version now wall from w g id n) as (n' & Hk & Hv'); [by rewrite Hv | done |].
    exists n'. split_and!; [done | congruence | done].
  - apply Forall_cons in He as [Hm _]. exists n. by destruct (merge_stale v m g id n).
  - exists n. cbn [at_version carried] in He. revert g Hn Ho. induction He as [|m ms' Hm _ IH]; intros g Hn Ho; [by split_and!|]. simpl.
    destruct (merge_stale v m g id n) as [Hk Hoff]; [done..|]. by apply IH.
  - destruct (health_check_node now g id) as (Hk & Hoff & _). rewrite Hk, Hn. eexists. split_and!; [done | | auto].
    unfold check_node. rewrite <- Hv. by repeat case_match.
Qed.

(** C7. A node that failed does not come back: versions never change in this
    program, and as long as they do not, a known node that is off the ring owns
    no key after any events, even after its own pings and after it has joined
    again. *)
Theorem failed_node_never_returns id es g n :
  known_nodes g !! id = Some n -> off_ring id (ring g) ->
  Forall (at_version (Node.version n) id) es ->
  forall key, get_node key (ring (run_events es g)) <> Some id.
Proof.
  intros Hn Ho Hes key. apply off_ring_owner. set (v := Node.version n) in Hes.
  assert (Hv : Node.version n = v) by done. clearbody v. revert g n Hn Hv Ho.
  induction Hes as [|e es He _ IH]; intros g n Hn Hv Ho; [done|].
  destruct (stale_step v id e g n He Hn Hv Ho) as (n' & Hk & Hv' & Ho'). by apply (IH _ n').
Qed.

Context `{Json}.

Lemma decode_encode now (msg : GossipMessage) data : encode msg = Some data ->
  decode now data = Some (map_nodes (fun n => NodeData.deserialize now (NodeData.serialize n)) msg).
Proof.
  unfold encode, decode. intros Hd. apply json_round_trip in Hd. rewrite Hd. simpl. f_equal.
  destruct msg; simpl; try done. by rewrite map_map.
Qed.

(** Joining works one way: the seed that receives the two datagrams of
    [join_cluster] knows the new node, as active and seen just now, has it on
    its ring, and answers; but its answer tells the new node nothing, which
    still knows no one and has only itself on the ring. *)
Theorem join_is_one_way g s seed_addr addr now wall now2 wall2 d1 d2 :
  known_nodes g = ∅ -> known_nodes s !! Node.id (local_node g) = None ->
  Node.status (local_node g) = Active ->
  map (fun m => encode m.2) (join_cluster seed_addr g) = [Some d1; Some d2] ->
  let s1 := fst (receive now wall d1 addr s) in
  let '(s2, replies) := receive now2 wall2 d2 addr s1 in
  (exists n, known_nodes s2 !! Node.id (local_node g) = Some n /\ Node.status n = Active /\
     Node.last_seen n = now2 /\ Node.addr n = Node.addr (local_node g)) /\
  is_Some (nodes (ring s2) !! Node.id (local_node g)) /\
  replies = [(addr, pong s)] /\
  forall now3 wall3, handle_message now3 wall3 (pong s) seed_addr g = (g, []).
Proof.
  intros Hg Hs Ha Hd. cbn [map join_cluster snd] in Hd. injection Hd as Hd1 Hd2. cbv zeta.
  unfold receive at 2. rewrite (decode_encode now _ _ Hd1). cbn [map_nodes handle_message fst].
  unfold receive. rewrite (decode_encode now2 _ _ Hd2). cbn [map_nodes ping handle_message].
  set (n := NodeData.deserialize now (NodeData.serialize (local_node g))).
  assert (Hm : merge_node n s = mk (local_node s) (add_node n (ring s)) (<[Node.id n := n]> (known_nodes s))).
  { unfold merge_node. change (Node.id n) with (Node.id (local_node g)). by rewrite Hs. }
  rewrite Hm. change (Node.id n) with (Node.id (local_node g)). split_and!.
  - simpl. rewrite lookup_alter_eq, lookup_insert_eq. eexists. split; [done|]. by split_and!.
  - simpl. rewrite lookup_insert_eq. by eexists.
  - done.
  - intros now3 wall3. unfold handle_message, pong, heard_from. rewrite Hg. f_equal.
    destruct g as [ln r k]. simpl in *. subst k. unfold set_known. simpl. f_equal.
Qed.
End theorems.

(** ** Witnesses *)

Import Defaults.

Definition ex_node (id : string) (v : Z) : Node.t := Node.mk (bs id) (bs "a") (bs "c") Active 0 0 v.

(** A node that knows [b], which is on its ring of two virtual nodes each. *)
Definition ex_gossip : t :=
  fst (handle_message 0 0 (NodeState (ex_node "b" 0)) (bs "c")
         (GossipProtocol.new (ex_node "a" 0) (add_node (ex_node "a" 0) (with_virtual_nodes 2)))).

Lemma ex_gossip_knows : known_nodes ex_gossip !! bs "b" = Some (ex_node "b" 0).
Proof. vm_compute. reflexivity. Qed.

Definition ex_events : list event :=
  [Received 1 1 (Ping (bs "x") 0) (bs "c"); HealthCheck 6000000000 default_order; HealthCheck 10000000001 default_order].

Lemma silent_node_is_removed_witness : exists n',
  known_nodes (run_events ex_events ex_gossip) !! bs "b" = Some n' /\ Node.status n' = Failed /\
  get_node (bs "some key") (ring (run_events ex_events ex_gossip)) <> Some (bs "b").
Proof.
  destruct (silent_node_is_removed (bs "b") ex_events ex_gossip (ex_node "b" 0) 10000000001 default_order)
    as (n' & Hk & Hf & Ho).
  - apply ex_gossip_knows.
  - done.
  - repeat constructor. done.
  - unfold ex_events. set_solver.
  - vm_compute. reflexivity.
  - exists n'. split_and!; [done | done | apply Ho].
Defined.

(** Twelve seconds with a ping after eight. *)
Definition ex_alive : list event :=
  [HealthCheck 6000000000 default_order; Received 8000000000 8000 (Ping (bs "b") 0) (bs "c");
   HealthCheck 12000000000 default_order].

Lemma seen_node_stays_on_ring_witness :
  is_Some (nodes (ring (run_events ex_alive ex_gossip)) !! bs "b").
Proof.
  apply (seen_node_stays_on_ring (bs "b") ex_alive ex_gossip (ex_node "b" 0)).
  - exact ex_gossip_knows.
  - vm_compute. by eexists.
  - vm_compute. repeat split; congruence.
  - repeat constructor.
  - intros [|e [|e' [|e'' es1]]] now order es2 Heq; unfold ex_alive in Heq.
    + injection Heq as <- _ _. left. vm_compute. congruence.
    + discriminate Heq.
    + injection Heq as _ <- <- _ _. right. eexists _, 8000000000.
      split; [right; left|]. split; [done|]. vm_compute. congruence.
    + injection Heq as _ _ _ Heq. by destruct es1.
Defined.

Lemma failed_node_never_returns_witness :
  let g := run_events ex_events ex_gossip in
  let again := [Received 2 2 (NodeState (ex_node "b" 0)) (bs "c"); Received 2 2 (Ping (bs "b") 0) (bs "c")] in
  get_node (bs "some key") (ring (run_events again g)) <> Some (bs "b").
Proof.
  cbv zeta. destruct (known_nodes (run_events ex_events ex_gossip) !! bs "b") as [n|] eqn:E.
  2:{ assert (Hs : is_Some (known_nodes (run_events ex_events ex_gossip) !! bs "b"))
        by (vm_compute; by eexists). rewrite E in Hs. destruct Hs as [x Hx]. discriminate Hx. }
  apply (failed_node_never_returns (bs "b") _ _ n E).
  - split; [vm_compute; reflexivity|].
    assert (Hb : forallb (fun e => negb (bool_decide (e.2 = bs "b")))
      (Ring.ring (ring (run_events ex_events ex_gossip))) = true) by (vm_compute; reflexivity).
    apply Forall_forall. intros e He. apply list_elem_of_In in He.
    rewrite forallb_forall in Hb. apply Hb, negb_true_iff, bool_decide_eq_false in He. exact He.
  - assert (Hv : Node.version <$> known_nodes (run_events ex_events ex_gossip) !! bs "b" = Some 0)
      by (vm_compute; reflexivity).
    rewrite E in Hv. injection Hv as Hv. rewrite Hv. repeat constructor; done.
Defined.

(** JSON for pings, pongs and the state of a node with short names. *)
Definition example_to_vec (m : message NodeData.t) : option bytes :=
  match m with
  | Ping from v => if in_u64 v then Some (x00 :: u64_bytes v ++ from) else None
  | Pong from v => if in_u64 v then Some (x01 :: u64_bytes v ++ from) else None
  | NodeState (NodeData.mk [i] [a] [c] Active ts v) =>
      if in_u64 ts && in_u64 v then Some (x02 :: u64_bytes ts ++ u64_bytes v ++ [i; a; c]) else None
  | _ => None
  end.

Definition example_from_slice (l : bytes) : option (message NodeData.t) :=
  match l with
  | x00 :: l => Some (Ping (drop 8 l) (from_be_bytes (take 8 l)))
  | x01 :: l => Some (Pong (drop 8 l) (from_be_bytes (take 8 l)))
  | x02 :: l =>
      match drop 16 l with
      | [i; a; c] =>
          Some (NodeState (NodeData.mk [i] [a] [c] Active (from_be_bytes (take 8 l))
                             (from_be_bytes (take 8 (drop 8 l)))))
      | _ => None
      end
  | _ => None
  end.

#[export] Instance example_json : Json.
Proof.
  refine {| to_vec := example_to_vec; from_slice := example_from_slice |}.
  intros [from v|from v|[[|i [|? ?]] [|a [|? ?]] [|c [|? ?]] [| |] ts v]|ns] out; unfold example_to_vec; try done.
  - destruct (in_u64 v) eqn:E; [|done]. intros [= <-]. unfold example_from_slice.
    change (take 8 _) with (u64_bytes v). by rewrite from_u64_bytes.
  - destruct (in_u64 v) eqn:E; [|done]. intros [= <-]. unfold example_from_slice.
    change (take 8 _) with (u64_bytes v). by rewrite from_u64_bytes.
  - destruct (in_u64 ts) eqn:E1; [|done]. destruct (in_u64 v) eqn:E2; [|done]. intros [= <-].
    change (Some (NodeState (NodeData.mk [i] [a] [c] Active (from_be_bytes (u64_bytes ts))
      (from_be_bytes (u64_bytes v)))) = Some (NodeState (NodeData.mk [i] [a] [c] Active ts v))).
    by rewrite !from_u64_bytes.
Defined.

Lemma join_is_one_way_witness :
  let g := GossipProtocol.new (ex_node "z" 0) (add_node (ex_node "z" 0) (with_virtual_nodes 2)) in
  let d1 := default [] (encode (NodeState (local_node g))) in
  let d2 := default [] (encode (ping g)) in
  let '(s2, replies) := receive 5 5 d2 (bs "z:1") (fst (receive 4 4 d1 (bs "z:1") ex_gossip)) in
  is_Some (nodes (ring s2) !! bs "z") /\ replies = [(bs "z:1", pong ex_gossip)].
Proof.
  cbv zeta.
  set (g := GossipProtocol.new (ex_node "z" 0) (add_node (ex_node "z" 0) (with_virtual_nodes 2))).
  pose proof (join_is_one_way g ex_gossip (bs "s:1") (bs "z:1") 4 4 5 5
    (default [] (encode (NodeState (local_node g)))) (default [] (encode (ping g)))) as Hj.
  cbv zeta in Hj. destruct (receive 5 5 _ _ _) as [s2 replies].
  destruct Hj as (_ & Hr & Hp & _); [done | vm_compute; reflexivity | done | vm_compute; reflexivity |].
  split; [exact Hr | exact Hp].
Defined.
