(* ===== verification/ReplicationTheorems.v ===== *)
(** * ReplicationTheorems: what a replica applies *)

From S2P Require Import Prelude Text External Float64 Values SortedSet Stream Keyspace Storage.
From S2P Require Import StorageTypes Command Apply ApplyFacts FileSystem WalFacts Replication.
#[local] Open Scope Z_scope.

Section theorems.
Context `{KeyMap M, Layout}.
Context `{Bincode ReplicationCommand.t, Bincode ReplicationResponse.t}.

(** ** Frames *)

Lemma read_send_frame (l r : bytes) : len l <= u32_max -> read_frame (send_frame l ++ r) = Done (l, r).
Proof.
  intros Hl. pose proof (len_nonneg l). unfold read_frame, send_frame. rewrite <- app_assoc.
  rewrite (read_exact_app (u32_bytes _) (l ++ r) : read_exact 4 _ = _). cbn [mbind outcome_bind].
  unfold as_u32. rewrite Z.mod_small by (widths; lia).
  rewrite from_u32_bytes by (apply in_u32_spec; lia). apply read_exact_app.
Qed.

(** Writes that reach the wire whole. *)
Definition sendable (c : Command.t) : Prop :=
  exists l, bin_serialize (ReplicationCommand.Write c) = inr l /\ len l <= u32_max.

Definition write_frame (c : Command.t) : bytes :=
  send_frame (ReplicationCommand.serialize (ReplicationCommand.Write c)).

Lemma read_write_frame c r : sendable c -> exists l,
  read_frame (write_frame c ++ r) = Done (l, r) /\
  ReplicationCommand.deserialize l = inr (ReplicationCommand.Write c).
Proof.
  intros (l & Hl & Hlen). exists l. unfold write_frame, ReplicationCommand.serialize. rewrite Hl.
  split; [by apply read_send_frame|]. by apply bin_round_trip.
Qed.

(** ** The channel and the socket of a replica *)

Lemma connection_inv id m cs m' conn : master_steps id m cs m' ->
  MasterReplicator.replicas m !! id = Some conn -> ReplicaConnection.tx conn = [] ->
  exists sent queued conn', cs = sent ++ queued /\
    MasterReplicator.replicas m' !! id = Some conn' /\
    ReplicaConnection.tx conn' = map ReplicationCommand.Write queued /\
    ReplicaConnection.stream conn' = ReplicaConnection.stream conn ++ concat (map write_frame sent).
Proof.
  intros Hs Hc Htx. induction Hs as [m|m cs m1 c m2 Hs IH Hw|m cs m1 j Hs IH|m cs m1 j w Hs IH Hj].
  { exists [], [], conn. simpl. by rewrite app_nil_r. }
  all: destruct (IH Hc) as (sent & queued & conn1 & -> & Hc1 & Htx1 & Hst1); clear IH.
  - unfold MasterReplicator.replicate_write in Hw. case_match; [|done]. injection Hw as <-.
    exists sent, (queued ++ [c]), (MasterReplicator.push (ReplicationCommand.Write c) conn1). simpl.
    rewrite lookup_fmap, Hc1. split_and!; [by rewrite app_assoc | done | by rewrite Htx1, map_app | done].
  - destruct (decide (j = id)) as [->|Hj].
    + simpl. rewrite lookup_alter_eq, Hc1. simpl. rewrite Htx1. destruct queued as [|c queued]; simpl.
      * exists sent, [], conn1. by rewrite Htx1.
      * exists (sent ++ [c]), queued. eexists. split; [by rewrite <- app_assoc|]. split; [done|].
        split; [done|]. simpl. rewrite Hst1, map_app, concat_app. simpl.
        by rewrite app_nil_r, <- app_assoc.
    + exists sent, queued, conn1. simpl. by rewrite lookup_alter_ne.
  - exists sent, queued, conn1. simpl. by rewrite lookup_insert_ne.
Qed.

Lemma offset_counts id m cs m' : master_steps id m cs m' ->
  wrap_u64 (MasterReplicator.get_offset m') = wrap_u64 (MasterReplicator.get_offset m + len cs).
Proof.
  unfold MasterReplicator.get_offset.
  induction 1 as [m|m cs m1 c m2 Hs IH Hw|m cs m1 j Hs IH|m cs m1 j w Hs IH Hj]; try done.
  - unfold len. simpl. by rewrite Z.add_0_r.
  - unfold MasterReplicator.replicate_write in Hw. case_match; [|done]. injection Hw as <-. simpl.
    rewrite len_app. change (len [c]) with 1. unfold wrap_u64 in *. rewrite Z.mod_mod by lia.
    rewrite <- Zplus_mod_idemp_l, IH, Zplus_mod_idemp_l. f_equal. lia.
Qed.

(** ** The replica *)

(** The commands with what the replica meets. *)
Fixpoint received (readings : nat -> Reading) (n : nat) (cs : list Command.t) : list log_entry :=
  match cs with
  | [] => []
  | c :: cs => meeting (readings n) c :: received readings (S n) cs
  end.

Lemma command_received readings n cs : map command (received readings n cs) = cs.
Proof. revert n. induction cs as [|c cs IH]; intros n; simpl; [done|]. by rewrite IH. Qed.

Lemma sync_loop_writes readings cs fuel n (r : ReplicaClient.t M) st : Forall sendable cs ->
  (length cs < fuel)%nat -> replay (received readings n cs) (ReplicaClient.storage r) = Ok st ->
  ReplicaClient.sync_loop readings fuel n (concat (map write_frame cs)) r =
  (ReplicaClient.mk (ReplicaClient.replica_id r) (ReplicaClient.master_addr r) st
     (match cs with [] => ReplicaClient.replication_offset r
      | _ => wrap_u64 (ReplicaClient.replication_offset r + len cs) end),
   Failed (ReplicaIo UnexpectedEof)).
Proof.
  intros Hs. revert fuel n r. induction Hs as [|c cs Hc _ IH]; intros [|fuel] n r Hf Hr;
    simpl in Hf; try lia.
  { injection Hr as <-. by destruct r. }
  cbn [map concat ReplicaClient.sync_loop].
  destruct (read_write_frame c (concat (map write_frame cs)) Hc) as (l & -> & ->).
  cbn [received replay] in Hr. unfold ReplicaClient.apply_command.
  apply bind_Ok in Hr as (st1 & Ha & Hr). rewrite Ha. cbn [mbind res_bind].
  rewrite (IH fuel (S n)); [|lia|exact Hr]. cbn [ReplicaClient.replica_id ReplicaClient.master_addr
    ReplicaClient.replication_offset]. do 2 f_equal. rewrite len_cons. unfold wrap_u64.
  destruct cs as [|c' cs].
  - unfold len. simpl. f_equal; lia.
  - rewrite Zplus_mod_idemp_l. f_equal. lia.
Qed.

(** The writes fit the loop's fuel. *)
Lemma length_write_frames cs : (length cs <= length (concat (map write_frame cs)))%nat.
Proof.
  assert (Hc : forall c, (1 <= length (write_frame c))%nat).
  { intros c. unfold write_frame, send_frame. simpl. lia. }
  induction cs as [|c cs IH]; simpl; [lia|]. rewrite length_app. specialize (Hc c). lia.
Qed.

Lemma replica_prefix m0 m1 m' input id written cs :
  MasterReplicator.greet input m0 = Done (id, written) ->
  (exists l, bin_serialize (ReplicationResponse.Connected (MasterReplicator.master_id m0)
     (MasterReplicator.get_offset m0)) = inr l /\ len l <= u32_max) ->
  master_steps id (MasterReplicator.register id written m1) cs m' -> Forall sendable cs ->
  wrap_u64 (MasterReplicator.get_offset m') = wrap_u64 (MasterReplicator.get_offset m1 + len cs) /\
  exists sent queued conn, cs = sent ++ queued /\
    MasterReplicator.replicas m' !! id = Some conn /\
    ReplicaConnection.tx conn = map ReplicationCommand.Write queued /\
    forall readings (r : ReplicaClient.t M) st,
      replay (received readings 0 sent) (ReplicaClient.storage r) = Ok st ->
      exists r', ReplicaClient.connect_and_sync readings (ReplicaConnection.stream conn) r =
          (r', Failed (ReplicaIo UnexpectedEof)) /\
        ReplicaClient.storage r' = st /\
        wrap_u64 (ReplicaClient.get_offset r') = wrap_u64 (MasterReplicator.get_offset m0 + len sent).
Proof.
  intros Hg (resp & Hresp & Hlen) Hsteps Hsend. split; [by eapply offset_counts in Hsteps|].
  destruct (connection_inv id _ cs m' (ReplicaConnection.mk id [] written) Hsteps) as
    (sent & queued & conn & -> & Hc & Htx & Hst); [by simpl; rewrite lookup_insert_eq | done |].
  exists sent, queued, conn. split_and!; [done..|]. intros readings r st Hr.
  apply Forall_app in Hsend as [Hsend _]. simpl in Hst.
  assert (Hw : written = send_frame resp).
  { unfold MasterReplicator.greet in Hg. repeat (case_match; try done). injection Hg as _ <-.
    unfold ReplicationResponse.serialize. unfold MasterReplicator.get_offset in Hresp. by rewrite Hresp. }
  unfold ReplicaClient.connect_and_sync. rewrite Hst, Hw, read_send_frame by done.
  unfold ReplicationResponse.deserialize. rewrite (bin_round_trip _ _ Hresp).
  rewrite (sync_loop_writes readings sent _ 0 _ st); [|done|pose proof (length_write_frames sent); lia|exact Hr].
  eexists. split; [done|]. split; [done|]. unfold ReplicaClient.get_offset. simpl. destruct sent.
  - unfold len. simpl. by rewrite Z.add_0_r.
  - unfold wrap_u64. by rewrite Z.mod_mod.
Qed.
(** C21. A replica applies a prefix of the master's writes since it was
    registered, in order, and nothing else: if it was greeted by [m0] and
    registered with [m1], then after any further steps of the master the bytes
    sent to it make it apply some first part of the writes [cs], and the rest
    waits in its channel.  Its offset is that of [m0] plus what it applied,
    whatever its storage held before and whatever clocks, orders of hash
    tables and random numbers it meets: writes before the registration never
    reach it. *)
Theorem replica_applies_prefix m0 m1 m' input id written cs :
  MasterReplicator.greet input m0 = Done (id, written) ->
  (exists l, bin_serialize (ReplicationResponse.Connected (MasterReplicator.master_id m0)
     (MasterReplicator.get_offset m0)) = inr l /\ len l <= u32_max) ->
  master_steps id (MasterReplicator.register id written m1) cs m' -> Forall sendable cs ->
  wrap_u64 (MasterReplicator.get_offset m') = wrap_u64 (MasterReplicator.get_offset m1 + len cs) /\
  exists sent queued conn, cs = sent ++ queued /\
    MasterReplicator.replicas m' !! id = Some conn /\
    ReplicaConnection.tx conn = map ReplicationCommand.Write queued /\
    forall readings (r : ReplicaClient.t M) st,
      replay (received readings 0 sent) (ReplicaClient.storage r) = Ok st ->
      exists r', ReplicaClient.connect_and_sync readings (ReplicaConnection.stream conn) r =
          (r', Failed (ReplicaIo UnexpectedEof)) /\
        ReplicaClient.storage r' = st /\
        wrap_u64 (ReplicaClient.get_offset r') = wrap_u64 (MasterReplicator.get_offset m0 + len sent).
Proof. apply replica_prefix. Qed.
End theorems.

(** ** Witness *)

Import Defaults.

Definition example_replication_serialize (c : ReplicationCommand.t) : bytes + bytes :=
  match c with
  | ReplicationCommand.Connect id => inr (x00 :: id)
  | ReplicationCommand.Write cmd =>
      match example_serialize cmd with inr l => inr (x02 :: l) | inl msg => inl msg end
  | ReplicationCommand.Ping => inr [x03]
  | ReplicationCommand.Sync _ => inl (bs "unsupported")
  end.

Definition example_replication_deserialize (l : bytes) : bytes + ReplicationCommand.t :=
  match l with
  | x00 :: id => inr (ReplicationCommand.Connect id)
  | x02 :: l =>
      match example_deserialize l with
      | inr cmd => inr (ReplicationCommand.Write cmd)
      | inl msg => inl msg
      end
  | [x03] => inr ReplicationCommand.Ping
  | _ => inl (bs "unsupported")
  end.

#[export] Instance example_replication_bincode : Bincode ReplicationCommand.t.
Proof.
  refine {| bin_serialize := example_replication_serialize;
            bin_deserialize := example_replication_deserialize |}.
  intros [id|o|cmd|] l; unfold example_replication_serialize; try done.
  - by intros [= <-].
  - destruct (example_serialize cmd) as [|c] eqn:E; [done|]. intros [= <-].
    unfold example_replication_deserialize. pose proof (bin_round_trip cmd c E) as Hr.
    cbn [bin_deserialize example_bincode] in Hr. by rewrite Hr.
  - by intros [= <-].
Defined.

Definition example_response_serialize (r : ReplicationResponse.t) : bytes + bytes :=
  match r with
  | ReplicationResponse.Connected id offset =>
      if in_u64 offset then inr (u64_bytes offset ++ id) else inl (bs "too large")
  | _ => inl (bs "unsupported")
  end.

#[export] Instance example_response_bincode : Bincode ReplicationResponse.t.
Proof.
  refine {| bin_serialize := example_response_serialize;
            bin_deserialize := fun l => inr (ReplicationResponse.Connected (drop 8 l) (from_be_bytes (take 8 l))) |}.
  intros [id o|o|o| |msg] l; unfold example_response_serialize; try done.
  destruct (in_u64 o) eqn:E; [|done]. intros [= <-].
  change (take 8 _) with (u64_bytes o). rewrite from_u64_bytes by done. done.
Defined.

Definition ex_master : MasterReplicator.t := MasterReplicator.mk ∅ 7 (bs "m").
Definition ex_incr : Command.t := Command.Incr (bs "c").

(** A replica that connects when the master is at offset 7 and gets one INCR
    is at offset 8 with a counter of 1. *)
Lemma replica_applies_prefix_witness : exists written m' conn r',
  MasterReplicator.greet (send_frame (x00 :: bs "r")) ex_master = Done (bs "r", written) /\
  MasterReplicator.replicate_write ex_incr (MasterReplicator.register (bs "r") written ex_master) = Some m' /\
  MasterReplicator.replicas (MasterReplicator.forward (bs "r") m') !! bs "r" = Some conn /\
  ReplicaClient.connect_and_sync (fun _ => clocks_at 0 0) (ReplicaConnection.stream conn)
    (ReplicaClient.new (bs "r") (bs "m:1") (∅ : table)) = (r', Failed (ReplicaIo UnexpectedEof)) /\
  ReplicaClient.storage r' !! bs "c" = Some (CString (bs "1") None) /\
  wrap_u64 (ReplicaClient.get_offset r') = 8.
Proof.
  set (written := send_frame (u64_bytes 7 ++ bs "m")).
  destruct (MasterReplicator.replicate_write ex_incr (MasterReplicator.register (bs "r") written ex_master))
    as [m'|] eqn:Ew; [|by vm_compute in Ew].
  assert (Hstep : master_steps (bs "r") (MasterReplicator.register (bs "r") written ex_master) [ex_incr]
    (MasterReplicator.forward (bs "r") m')).
  { apply steps_forward. apply (steps_write _ _ [] (MasterReplicator.register (bs "r") written ex_master)).
    - apply steps_none.
    - exact Ew. }
  assert (Hg : MasterReplicator.greet (send_frame (x00 :: bs "r")) ex_master = Done (bs "r", written))
    by (vm_compute; reflexivity).
  destruct (replica_applies_prefix (M := table) ex_master ex_master
    (MasterReplicator.forward (bs "r") m') _ (bs "r") written [ex_incr] Hg) as
    (_ & sent & queued & conn & Happ & Hc & Htx & Hr).
  - eexists. split; [reflexivity|]. vm_compute. congruence.
  - exact Hstep.
  - constructor; [|constructor]. eexists. split; [reflexivity|]. vm_compute. congruence.
  - assert (Hq : queued = []).
    { simpl in Hc. rewrite lookup_alter_eq in Hc.
      unfold MasterReplicator.replicate_write in Ew. simpl in Ew. case_match; [|done]. injection Ew as <-.
      simpl in Hc. rewrite lookup_fmap, lookup_insert_eq in Hc. simpl in Hc. injection Hc as <-.
      simpl in Htx. by destruct queued. }
    subst queued. rewrite app_nil_r in Happ. subst sent.
    destruct (Hr (fun _ => clocks_at 0 0) (ReplicaClient.new (bs "r") (bs "m:1") (∅ : table))
      (<[bs "c" := CString (bs "1") None]> ∅)) as (r' & Hsync & Hst & Ho).
    { vm_compute. reflexivity. }
    exists written, m', conn, r'. split; [exact Hg|]. split; [done|]. split; [exact Hc|].
    split; [exact Hsync|]. split; [by rewrite Hst|]. rewrite Ho. vm_compute. reflexivity.
Defined.
