(* ===== verification/RecoveryTheorems.v ===== *)
(** * RecoveryTheorems: the server, its log on disk and its replicas together

    What the connections did to a server, the files of its log and the stream to
    a replica give the storage back: the theorems of [ServerFacts], [WalFacts]
    and [ReplicationTheorems] composed. *)

From S2P Require Import Prelude Text External Float64 Values SortedSet Stream Keyspace Storage.
From S2P Require Import StorageTypes ShardedMap Resp Command Apply ApplyFacts ReplayClocks Ring.
From S2P Require Import Transactions Security PubSub Scripting Server ServerFacts ServerTheorems.
From S2P Require Import FileSystem Wal WalFacts Snapshot SnapshotFacts Replication ReplicationTheorems.
#[local] Open Scope Z_scope.

Section theorems.
Context `{KeyMapLaws M, Mpsc B, Layout, Xxh3, UnicodeCase, Argon2, Lua, Sha1}.
Context `{Bincode Command.t, Bincode (list SnapshotRecord.t), Crc32}.
Implicit Types (s : Server.t M B).

(** The entries with what the start-up meets. *)
Definition reread (entries : WALEntry.t -> Reading) (es : list WALEntry.t) : list log_entry :=
  map (fun e => meeting (entries e) (WALEntry.command e)) es.

Lemma run_entries_replay entries es n (m m' : M) : replay (reread entries es) m = Ok m' ->
  exists k, run_entries (apply_entry entries) es n m = (m', Done k).
Proof.
  revert n m. induction es as [|e es IH]; intros n m; simpl.
  { intros [= <-]. by exists n. }
  intros Hr. inv_bind Hr. unfold apply_entry at 1. rewrite Ha. by apply IH.
Qed.

Lemma command_reread entries es : map command (reread entries es) = map WALEntry.command es.
Proof. unfold reread. rewrite map_map. done. Qed.

(** What the server hands to the log, command by command, with the wall clock
    [wall] of each entry. *)
Definition to_steps (wall : nat -> Z) (log : list Command.t) : list step :=
  imap (fun i c => Append (wall i) c) log ++ [Sync].

Lemma appended_to_steps wall log : appended (to_steps wall log) = log.
Proof.
  unfold to_steps. rewrite appended_app. simpl. rewrite app_nil_r.
  revert wall. induction log as [|c log IH]; intros wall; simpl; [done|]. f_equal. apply (IH (wall ∘ S)).
Qed.

(** The log restores the storage: whatever the connections did to a
    server that started empty, if what it logged went to the log on disk and
    was synced, and is within what the kept segments hold, then the process that
    starts next opens the log and loads the storage the server had, whatever it
    meets; provided the executed commands replay as they execute and their
    appends succeed ([clean]), and the logged commands are [timeless]. *)
Lemma log_restores_storage h conns' s s' log config wall d0 :
  clean h -> Server.storage s = empty_map -> Server.wal s = Some [] ->
  run_history h (fun _ => Conn.new) s = Ok (conns', s') -> Server.wal s' = Some log ->
  forallb timeless log = true ->
  fresh config d0 -> in_u32 (PersistenceConfig.wal_backup_count config) = true ->
  PersistenceConfig.max_wal_size_bytes config <= i64_max ->
  Forall loggable log -> len log <= u64_max ->
  total_size log <
    (Z.max (PersistenceConfig.wal_backup_count config) 1 + 1) * PersistenceConfig.max_wal_size_bytes config ->
  exists d l d' l' l2, WriteAheadLog.new config d0 = (d, Done l) /\
    run_steps (to_steps wall log) d l = (d', l') /\ WriteAheadLog.new config d' = (d', Done l2) /\
    forall readings wall2 entries,
      load_from_persistence readings wall2 entries None (Some l2) d' (empty_map : M)
        = (Server.storage s', Done tt).
Proof.
  intros Hh E1 E2 Hr E3 Htl Hf Hk Hmax Hlog Hlen Hsize.
  apply history_recovers in Hr as (ws & Hws & _ & Hall); [|done..].
  specialize (Hws E2). rewrite E3 in Hws. injection Hws as <-.
  rewrite <- (appended_to_steps wall log) in Hlog, Hlen, Hsize.
  destruct (log_recovery config d0 (to_steps wall log) Hf Hk Hmax Hlog Hlen) as
    (d & l & Hn & d' & l' & Hrun & l2 & Hn2 & es & old & recent & Happ & Hrep & Hdur & Hold).
  exists d, l, d', l', l2. split_and!; [done..|]. intros readings wall2 entries.
  rewrite Hold, Hdur, app_nil_r, appended_to_steps in Happ by (done || (right; by eexists)).
  simpl in Happ. unfold load_from_persistence. rewrite Hrep.
  destruct (run_entries_replay entries es 0 (empty_map : M) (Server.storage s')) as [k ->]; [|done].
  apply Hall; [done|]. by rewrite command_reread.
Qed.

Context `{Bincode ReplicationCommand.t, Bincode ReplicationResponse.t}.

(** C14. A replica that has caught up equals its master: if it connected
    before the first write, and everything the server replicated has left its
    channel, then the bytes sent to it give an empty replica the storage and the
    offset of the master, whatever clocks, orders of hash tables and random
    numbers the replica meets; provided the executed commands replay as they
    execute and their appends succeed ([clean]), and none of the replicated ones
    sets a deadline, reads the clock for an id, draws at random or depends on
    the order of a hash table ([timeless]). *)
Theorem caught_up_replica_equals_master h conns' s s' writes m0 m' input id written conn readings
    (r : ReplicaClient.t M) :
  clean h -> Server.storage s = empty_map -> Server.replicator s = Some [] ->
  run_history h (fun _ => Conn.new) s = Ok (conns', s') -> Server.replicator s' = Some writes ->
  forallb timeless writes = true -> Forall sendable writes ->
  MasterReplicator.greet input m0 = Done (id, written) ->
  (exists l, bin_serialize (ReplicationResponse.Connected (MasterReplicator.master_id m0)
     (MasterReplicator.get_offset m0)) = inr l /\ len l <= u32_max) ->
  master_steps id (MasterReplicator.register id written m0) writes m' ->
  MasterReplicator.replicas m' !! id = Some conn -> ReplicaConnection.tx conn = [] ->
  ReplicaClient.storage r = empty_map ->
  exists r', ReplicaClient.connect_and_sync readings (ReplicaConnection.stream conn) r =
      (r', Failed (ReplicaIo UnexpectedEof)) /\
    ReplicaClient.storage r' = Server.storage s' /\
    wrap_u64 (ReplicaClient.get_offset r') = wrap_u64 (MasterReplicator.get_offset m').
Proof.
  intros Hh E1 E2 Hr E3 Htl Hsend Hg Hresp Hsteps Hconn Htx Er.
  apply history_recovers in Hr as (ws & _ & Hws & Hall); [|done..].
  specialize (Hws E2). rewrite E3 in Hws. injection Hws as <-.
  destruct (replica_prefix m0 m0 m' input id written writes Hg Hresp Hsteps Hsend)
    as (Hoff & sent & queued & conn' & Happ & Hc & Htx' & Hsync).
  rewrite Hconn in Hc. injection Hc as <-. rewrite Htx in Htx'. destruct queued; [|done].
  rewrite app_nil_r in Happ. subst sent.
  destruct (Hsync readings r (Server.storage s')) as (r' & Hcs & Hst & Ho).
  { rewrite Er. apply Hall; [done|]. apply command_received. }
  exists r'. split_and!; [done | done |]. by rewrite Ho, Hoff.
Qed.
End theorems.

(** ** Witnesses *)

Import Defaults.

Definition small_writes : list Command.t :=
  [Command.Set' (bs "a") (bs "1") None; Command.Set' (bs "b") (bs "2") None; Command.Incr (bs "a")].

Lemma small_run :
  match run_history small_history (fun _ => Conn.new) (demo None) with
  | Ok (_, s') => Server.wal s' = Some small_writes /\
                  Server.replicator s' = Some small_writes /\
                  get 9 (bs "a") (Server.storage s') = Some (bs "2")
  | _ => False
  end.
Proof. vm_compute. done. Qed.

Definition wal_config : PersistenceConfig.t := {|
  PersistenceConfig.mode := PersistenceMode.WAL;
  PersistenceConfig.wal_sync_policy := WALSyncPolicy.EverySecond;
  PersistenceConfig.snapshot_interval_secs := 300;
  PersistenceConfig.max_wal_size_bytes := 60;
  PersistenceConfig.wal_path := bs "w";
  PersistenceConfig.snapshot_path := bs "s";
  PersistenceConfig.wal_backup_count := 1;
|}.

(** The log rotates at the second entry; all three are replayed. *)
Lemma log_restores_storage_witness : exists d' l2 (s' : Server.t ShardedMap boxes),
  WriteAheadLog.new wal_config d' = (d', Done l2) /\
  load_from_persistence (fun _ => clocks_at 0 0) 0 (fun _ => clocks_at 77 88) None (Some l2) d' (empty_map : ShardedMap)
    = (Server.storage s', Done tt) /\
  get 9 (bs "a") (Server.storage s') = Some (bs "2").
Proof.
  pose proof small_run as Hg.
  destruct (run_history small_history (fun _ => Conn.new) (demo None)) as [[conns' s']|e|] eqn:E;
    [|destruct Hg..].
  destruct Hg as (Hw & _ & Hget). destruct (Server.wal s') as [log|] eqn:Ew; [|discriminate Hw].
  injection Hw as Hw.
  destruct (log_restores_storage small_history conns' (demo None) s' log wal_config Z.of_nat ∅)
    as (d & l & d' & l' & l2 & _ & _ & Hn & Hload).
  - exact small_history_clean.
  - reflexivity.
  - reflexivity.
  - exact E.
  - exact Ew.
  - rewrite Hw. vm_compute. reflexivity.
  - split; [done|]. intros n. apply lookup_empty.
  - reflexivity.
  - vm_compute. congruence.
  - rewrite Hw. repeat constructor; (eexists; split; [reflexivity|]; vm_compute; congruence).
  - rewrite Hw. vm_compute. congruence.
  - rewrite Hw. vm_compute. reflexivity.
  - exists d', l2, s'. split; [exact Hn|]. split; [apply Hload | exact Hget].
Defined.

(** The master's side: each write is sent at once. *)
Fixpoint send_all (id : bytes) (cs : list Command.t) (m : MasterReplicator.t) : MasterReplicator.t :=
  match cs with
  | [] => m
  | c :: cs =>
      send_all id cs (MasterReplicator.forward id (default m (MasterReplicator.replicate_write c m)))
  end.

Lemma send_all_steps id m pre cs m0 : master_steps id m0 pre m ->
  forallb (fun m => bool_decide (is_Some (MasterReplicator.replicate_write (Command.Incr []) m)))
    (map (fun n => send_all id (take n cs) m) (seq 0 (length cs))) = true ->
  master_steps id m0 (pre ++ cs) (send_all id cs m).
Proof.
  revert m pre. induction cs as [|c cs IH]; intros m pre Hs Hok; cbn [send_all].
  { by rewrite app_nil_r. }
  cbn [length seq map forallb] in Hok. apply andb_true_iff in Hok as [Hc Hok].
  replace (pre ++ c :: cs) with ((pre ++ [c]) ++ cs) by by rewrite <- app_assoc.
  apply bool_decide_eq_true in Hc. cbn [take send_all] in Hc.
  assert (Hw : is_Some (MasterReplicator.replicate_write c m)).
  { unfold MasterReplicator.replicate_write in *. by case_match; [eexists|destruct Hc]. }
  destruct Hw as [m1 Hw]. rewrite Hw in *. cbn [default] in *. apply IH.
  - apply steps_forward. by eapply steps_write.
  - rewrite <- seq_shift, map_map in Hok. cbn [take send_all] in Hok. rewrite Hw in Hok. exact Hok.
Qed.

Lemma caught_up_replica_equals_master_witness : exists conn r' (s' : Server.t ShardedMap boxes),
  MasterReplicator.replicas (send_all (bs "r") small_writes
    (MasterReplicator.register (bs "r") (send_frame (u64_bytes 7 ++ bs "m")) ex_master)) !! bs "r" = Some conn /\
  ReplicaClient.connect_and_sync (fun _ => clocks_at 77 88) (ReplicaConnection.stream conn)
    (ReplicaClient.new (bs "r") (bs "m:1") (empty_map : ShardedMap)) = (r', Failed (ReplicaIo UnexpectedEof)) /\
  ReplicaClient.storage r' = Server.storage s' /\ get 9 (bs "a") (Server.storage s') = Some (bs "2").
Proof.
  pose proof small_run as Hg.
  destruct (run_history small_history (fun _ => Conn.new) (demo None)) as [[conns' s']|e|] eqn:E;
    [|destruct Hg..].
  destruct Hg as (_ & Hw & Hget).
  set (m1 := MasterReplicator.register (bs "r") (send_frame (u64_bytes 7 ++ bs "m")) ex_master).
  assert (Hconn : match MasterReplicator.replicas (send_all (bs "r") small_writes m1) !! bs "r" with
                  | Some conn => ReplicaConnection.tx conn = [] | None => False end)
    by (vm_compute; reflexivity).
  destruct (MasterReplicator.replicas (send_all (bs "r") small_writes m1) !! bs "r") as [conn|] eqn:Ec;
    [|destruct Hconn].
  destruct (caught_up_replica_equals_master small_history conns' (demo None) s' small_writes ex_master
    (send_all (bs "r") small_writes m1) (send_frame (x00 :: bs "r")) (bs "r")
    (send_frame (u64_bytes 7 ++ bs "m")) conn (fun _ => clocks_at 77 88)
    (ReplicaClient.new (bs "r") (bs "m:1") (empty_map : ShardedMap))) as (r' & Hs & Hst & _).
  - exact small_history_clean.
  - reflexivity.
  - reflexivity.
  - exact E.
  - exact Hw.
  - vm_compute. reflexivity.
  - repeat constructor; (eexists; split; [reflexivity|]; vm_compute; congruence).
  - vm_compute. reflexivity.
  - eexists. split; [reflexivity|]. vm_compute. congruence.
  - apply (send_all_steps (bs "r") m1 [] small_writes m1); [apply steps_none | vm_compute; reflexivity].
  - exact Ec.
  - exact Hconn.
  - reflexivity.
  - exists conn, r', s'. split; [reflexivity|]. split; [exact Hs|]. split; [exact Hst | exact Hget].
Defined.
