(* ===== verification/StartupTheorems.v ===== *)
(** * StartupTheorems: what a configuration and a restart guarantee

    The configuration file, the security section and the persistence section,
    followed from the text of the file through [main] to the server that the
    connections see. *)

From S2P Require Import Prelude Text External Float64 Values SortedSet Stream Keyspace Storage.
From S2P Require Import StorageTypes ShardedMap Resp RespFacts Framing Command Apply ApplyFacts ReplayClocks.
From S2P Require Import Ring Transactions Security PubSub Scripting Server ServerFacts ServerTheorems.
From S2P Require Import Connection ConnectionFacts ConnectionTheorems FileSystem Wal WalFacts Snapshot SnapshotFacts.
From S2P Require Import Gossip Replication RecoveryTheorems Config ConfigFacts Startup.
#[local] Open Scope Z_scope.

(** ** The configuration file *)

(** The size limit of the log is exact up to 16 EiB; beyond, it wraps, and at
    2^44 MiB it is zero: every append rotates the log. *)
Lemma wal_size_limit `{UnicodeCase} c p :
  AppConfig.to_persistence_config c = Some p ->
  let mb := PersistenceConfigJson.max_wal_size_mb (AppConfig.persistence c) in
  (0 <= mb < 2 ^ 44 -> PersistenceConfig.max_wal_size_bytes p = mb * 2 ^ 20) /\
  (mb = 2 ^ 44 -> PersistenceConfig.max_wal_size_bytes p = 0).
Proof.
  unfold AppConfig.to_persistence_config. destruct (PersistenceConfigJson.enabled _); [|done]. simpl.
  intros [= <-]. simpl. set (mb := PersistenceConfigJson.max_wal_size_mb _). unfold wrap_u64. split.
  - intros Hmb. rewrite (Z.mod_small (mb * 1024)), Z.mod_small; lia.
  - intros ->. reflexivity.
Qed.

(** ** The security section *)

Section security.
Context `{KeyMapLaws M, Mpsc B, !Receiver B}.
Context `{Layout, Xxh3, UnicodeCase, Argon2, Lua, Sha1, RespDebug, Rustls}.
Context `{SerdeJson AppConfig.t AppConfig.typed}.
Context `{Bincode Command.t, Bincode (list SnapshotRecord.t), Crc32}.
Implicit Types (s : CacheServer.t M) (c : Conn.t).

Lemma main_auth h args d d' s sent : main h args d = (d', Done (s, sent)) ->
  AppConfig.to_auth_manager (salts h) (load_config h args d) = None \/
  AppConfig.to_auth_manager (salts h) (load_config h args d) = CacheServer.auth s.
Proof.
  unfold main. destruct (create_server h args _ d) as [d1 [[s1 sent1]|e|]]; simpl; [|done..].
  intros [= <- <- <-]. unfold configure_auth.
  destruct (AppConfig.to_auth_manager _ _) as [a|]; [by right|by left].
Qed.

Lemma to_auth_manager_requires salts cfg a : AppConfig.to_auth_manager salts cfg = Some a ->
  AuthManager.require_auth a = true.
Proof. unfold AppConfig.to_auth_manager. destruct (SecurityConfig.enabled _); by intros [= <-]. Qed.

Lemma main_serving h args d d' s sent : main h args d = (d', Done (s, sent)) ->
  SecurityConfig.enabled (AppConfig.security (load_config h args d)) = true ->
  exists a, Server.auth (serving s : Server.t M B) = Some a /\ AuthManager.require_auth a = true /\
    forall name, AuthManager.users a !! name =
      (fun p => AppConfig.to_user (salts h (fst p)) (snd p)) <$> configured name (load_config h args d).
Proof.
  intros Hm He. destruct (AppConfig.to_auth_manager (salts h) (load_config h args d)) as [a|] eqn:Ea.
  - exists a. split; [|split; [by eapply to_auth_manager_requires|]].
    + destruct (main_auth _ _ _ _ _ _ Hm) as [E|E]; rewrite Ea in E; [done|]. simpl. congruence.
    + intros name. by apply to_auth_manager_lookup.
  - unfold AppConfig.to_auth_manager in Ea. by rewrite He in Ea.
Qed.

(** *** A server without users *)

(** Nobody is authenticated, nothing is queued and nobody is subscribed. *)
Definition outsider (k : Connection.t) : Prop :=
  Conn.authed_user (Connection.conn k) = None /\ TxState.queue (Conn.tx (Connection.conn k)) = None /\
  Connection.subs_rx k = None /\ SubscriberState.rx (Conn.sub (Connection.conn k)) = None.

Definition locked (y : Server.t M B) : Prop :=
  exists a, Server.auth y = Some a /\ AuthManager.require_auth a = true /\ AuthManager.users a = ∅.

Lemma locked_step es cmd c y y' c' r : locked y -> TxState.queue (Conn.tx c) = None ->
  Conn.authed_user c = None -> execute_command es cmd c y = Ok (y', c', r) -> y' = y /\ c' = c.
Proof.
  intros (a & Ha & Hreq & Hu) Hq Hn Hx.
  destruct (unauthenticated_step es cmd c y y' c' r a Ha Hreq Hn Hq Hx) as [?|(u & p & user & _ & E & _)];
    [done|]. by rewrite Hu, lookup_empty in E.
Qed.

Definition stays_out (w w' : Work M B) : Prop :=
  locked (w_server w) -> outsider (Connection.mk (w_conn w) (w_rx w) []) ->
  w_server w' = w_server w /\ w_conn w' = w_conn w /\ w_rx w' = w_rx w.

#[local] Instance stays_out_refl : Reflexive stays_out.
Proof. by intros w ? ?. Qed.
#[local] Instance stays_out_trans : Transitive stays_out.
Proof.
  intros w1 w2 w3 R1 R2 Hl Ho. destruct (R1 Hl Ho) as (E1 & E2 & E3).
  destruct R2 as (F1 & F2 & F3); [by rewrite E1|by rewrite E2, E3|]. by rewrite F1, F2, F3.
Qed.

Lemma frame_stays_out clock v w w' o : on_frame clock v w = Some (w', o) -> stays_out w w'.
Proof.
  unfold on_frame, handle_frame. set (es := clock _). clearbody es.
  intros Hf Hl (Hn & Hq & Hrx & Hr). simpl in *.
  assert (Hh : hoist (w_conn w) (w_rx w) = (w_conn w, w_rx w)) by (unfold hoist; by rewrite Hrx, Hr).
  destruct (parse_command v) as [cmd|e|]; [| |done].
  - destruct (execute_command es cmd (w_conn w) (w_server w)) as [[[y c] r]|e|] eqn:Ex; [|done..].
    apply locked_step in Ex as [-> ->]; [|done..]. simpl in Hf. rewrite Hh in Hf. by injection Hf as <- _.
  - simpl in Hf. rewrite Hh in Hf. by injection Hf as <- _.
Qed.

Lemma select_stays_out clock input k y r : locked y -> outsider k -> select clock input k y = Some r ->
  t_server r = y /\ forall k', t_conn r = Some k' -> outsider k'.
Proof.
  intros Hl Ho. pose proof Ho as (Hn & Hq & Hrx & Hr). unfold select, mailbox_arm. rewrite Hrx. simpl.
  destruct input as [[|x chunk]|]; simpl.
  - rewrite Hrx. by intros [= <-].
  - rewrite Hrx. destruct (drain (on_frame clock) _ _) as [[[w b] out]|e|] eqn:Ed; [|done..].
    apply (drain_rel (on_frame clock) stays_out) in Ed; [|apply _|apply _|apply frame_stays_out].
    destruct Ed as (E1 & E2 & E3); [done|done|]. simpl in E1, E2, E3.
    destruct (buffer_limit <? len b); intros [= <-]; simpl; rewrite ?E3, E1; split; try done.
    intros k' [= <-]. rewrite E2. done.
  - intros [= <-]. simpl. split; [done|]. by intros k' [= <-].
Qed.

Definition all_outside (y : System M B) : Prop := forall i k, conns y !! i = Some k -> outsider k.

Lemma poll_stays_out clock input i y y' : locked (server y) -> all_outside y ->
  poll (select clock input) i y = Some y' -> server y' = server y /\ all_outside y'.
Proof.
  intros Hl Ho. unfold poll. destruct (conns y !! i) as [k|] eqn:Ek; [|by intros [= <-]].
  destruct (select clock input k (server y)) as [r|] eqn:Es; simpl; [|done]. intros [= <-].
  apply select_stays_out in Es as [Es Hk]; [|done|by eapply Ho]. split; [done|].
  intros j k'. simpl. destruct (decide (j = i)) as [->|Hj].
  - rewrite lookup_partial_alter_eq. apply Hk.
  - rewrite lookup_partial_alter_ne by done. apply Ho.
Qed.

Lemma locked_system es y y' : locked (server y) -> all_outside y ->
  run_system es y = Some y' -> server y' = server y.
Proof.
  revert y. induction es as [|e es IH]; intros y Hl Ho; simpl; [by intros [= <-]|].
  destruct (system_step e y) as [y1|] eqn:E; simpl; [|done]. intros Hr.
  assert (Hy : server y1 = server y /\ all_outside y1).
  { destruct e as [i|clock i input|clock i input]; cbn [system_step] in E; [|by eapply poll_stays_out..].
    destruct (conns y !! i) as [k|] eqn:Ek; injection E as <-; [by split|]. split; [done|].
    intros j k. simpl. intros [[<- <-]|[_ Hk]]%lookup_insert_Some; [done|by eapply Ho]. }
  destruct Hy as [E1 O1]. rewrite <- E1. apply IH; [by rewrite E1|done|done].
Qed.

(** *** The configured users *)

Lemma execute_auth es u p c (y : Server.t M B) a : Server.auth y = Some a ->
  Conn.authed_user c = None -> TxState.queue (Conn.tx c) = None ->
  execute_command es (Command.Auth u p) c y = auth_command (es 0%nat) u p c y.
Proof.
  intros Ha Hn Hq. rewrite execute_passes; [done|]. split; [|split].
  - unfold TxState.in_multi. by rewrite Hq.
  - unfold moved. by repeat case_match.
  - unfold denied. rewrite Ha, Hn. simpl. by rewrite andb_false_r.
Qed.

(** C28. The security section is enforced: on the server that [main] starts
    with security enabled, AUTH on a fresh connection succeeds exactly when the
    file configures a user of that name (the last of that name) whose password
    hash verifies the given one, so with the configured password it does;
    otherwise it changes nothing.  With an empty list of users nobody gets in:
    whatever bytes arrive on however many connections, the server stays exactly
    as it started. *)
Theorem security_is_enforced h args d d' s sent :
  let config := load_config h args d in
  main h args d = (d', Done (s, sent)) -> SecurityConfig.enabled (AppConfig.security config) = true ->
  (forall es u p, exists y' c' r,
     execute_command es (Command.Auth u p) Conn.new (serving s : Server.t M B) = Ok (y', c', r) /\
     match configured (login u) config with
     | Some (i, uc) =>
         if argon2_verify (argon2_hash (salts h i) (UserConfig.password uc)) (from_utf8_lossy p)
         then r = Response.Ok /\ Conn.authed_user c' = Some (login u)
         else y' = serving s /\ c' = Conn.new
     | None => y' = serving s /\ c' = Conn.new
     end) /\
  (SecurityConfig.users (AppConfig.security config) = [] ->
   forall es y, run_system es (boot (serving s : Server.t M B)) = Some y -> server y = serving s).
Proof.
  intros config Hm He. destruct (main_serving h args d d' s sent Hm He) as (a & Ha & Hreq & Hu).
  fold config in Hu. split.
  - intros es u p. rewrite (execute_auth es u p Conn.new _ a) by done.
    unfold auth_command, AuthManager.authenticate. rewrite Ha. fold (login u). rewrite Hu.
    destruct (configured (login u) config) as [[i uc]|]; simpl.
    + unfold User.verify_password. rewrite to_user_fields. simpl.
      destruct (argon2_verify _ _); do 3 eexists; (split; [done|]); simpl; [done|].
      by rewrite set_auth_id.
    + do 3 eexists. split; [done|]. by rewrite set_auth_id.
  - intros Hnone es y Hr. apply (locked_system es (boot (serving s))); [|by intros i k|done].
    exists a. split; [done|]. split; [done|]. apply map_empty. intros name. rewrite Hu.
    unfold configured. by rewrite Hnone.
Qed.
End security.

(** ** The persistence section *)

Section restart.
Context `{KeyMapLaws M, Mpsc B, Layout, Xxh3, UnicodeCase, Argon2, Lua, Sha1, Rustls}.
Context `{Bincode Command.t, Bincode (list SnapshotRecord.t), Crc32}.
Implicit Types (s : Server.t M B).

(** A standalone server in the mode [wal] opens its log and loads it. *)
Lemma create_with_log host args app config d l (m : M) :
  Args.cluster_port args = None -> AppConfig.to_persistence_config app = Some config ->
  PersistenceConfig.mode config = PersistenceMode.WAL ->
  WriteAheadLog.new config d = (d, Done l) ->
  load_from_persistence (load_readings host) (host_wall host) (entry_readings host) None (Some l) d empty_map
    = (m, Done tt) ->
  exists s2 : CacheServer.t M, create_server host args app d = (d, Done (s2, [])) /\ CacheServer.storage s2 = m /\
    CacheServer.wal s2 = Some l.
Proof.
  intros Hc Hp Hmode Hn Hl. unfold create_server. rewrite Hc, Hp.
  unfold CacheServer.with_persistence, CacheServer.setup_persistence. rewrite Hmode, Hn. simpl.
  unfold load_existing. simpl. rewrite Hl. by eexists.
Qed.

(** C17. A restart restores the storage: take a server that started empty and
    whose connections executed, one command after the other, commands that
    replay as they execute and whose appends succeeded ([clean]); if what it
    logged went to the log on disk and was synced, and is within what the kept
    segments hold, and no logged command sets a deadline, reads the clock for an
    id, draws at random or depends on the order of a hash table ([timeless]),
    then the next process that is started with this persistence configuration
    in the mode [wal] opens the log and serves the storage the server had,
    whatever clocks, orders and random numbers it meets. *)
Theorem restart_restores_storage h conns' s s' log config wall d0 :
  clean h -> Server.storage s = empty_map -> Server.wal s = Some [] ->
  run_history h (fun _ => Conn.new) s = Ok (conns', s') -> Server.wal s' = Some log ->
  forallb timeless log = true ->
  fresh config d0 -> in_u32 (PersistenceConfig.wal_backup_count config) = true ->
  PersistenceConfig.max_wal_size_bytes config <= i64_max ->
  Forall loggable log -> len log <= u64_max ->
  total_size log <
    (Z.max (PersistenceConfig.wal_backup_count config) 1 + 1) * PersistenceConfig.max_wal_size_bytes config ->
  PersistenceConfig.mode config = PersistenceMode.WAL ->
  exists d l d' l', WriteAheadLog.new config d0 = (d, Done l) /\
    run_steps (to_steps wall log) d l = (d', l') /\
    forall host args app, Args.cluster_port args = None -> AppConfig.to_persistence_config app = Some config ->
      exists s2 : CacheServer.t M, create_server host args app d' = (d', Done (s2, [])) /\
        Server.storage (serving s2 : Server.t M B) = Server.storage s' /\
        is_Some (Server.wal (serving s2 : Server.t M B)).
Proof.
  intros Hh E1 E2 Hr E3 Htl Hf Hk Hmax Hlog Hlen Hsize Hmode.
  destruct (log_restores_storage h conns' s s' log config wall d0 Hh E1 E2 Hr E3 Htl Hf Hk Hmax Hlog Hlen Hsize)
    as (d & l & d' & l' & l2 & Hn & Hrun & Hn2 & Hload).
  exists d, l, d', l'. split; [done|]. split; [done|]. intros host args app Hc Hp.
  destruct (create_with_log host args app config d' l2 (Server.storage s') Hc Hp Hmode Hn2 (Hload _ _ _))
    as (s2 & Hcs & Hst & Hw).
  exists s2. split; [done|]. split; [done|]. unfold serving. simpl. rewrite Hw. by eexists.
Qed.

(** A snapshot that cannot be read hides the log: the server in the mode [both]
    starts empty, without replaying the log. *)
Lemma corrupt_snapshot_hides_log host args app config d l file e :
  Args.cluster_port args = None -> AppConfig.to_persistence_config app = Some config ->
  PersistenceConfig.mode config = PersistenceMode.Both ->
  WriteAheadLog.new config d = (d, Done l) ->
  d !! PersistenceConfig.snapshot_path config = Some file ->
  SnapshotManager.read_snapshot file = Failed e ->
  exists s2 : CacheServer.t M, create_server host args app d = (d, Done (s2, [])) /\
    CacheServer.storage s2 = empty_map /\
    CacheServer.snapshot_manager s2 = Some (SnapshotManager.with_wal config l).
Proof.
  intros Hc Hp Hmode Hn Hs He. unfold create_server. rewrite Hc, Hp.
  unfold CacheServer.with_persistence, CacheServer.setup_persistence. rewrite Hmode, Hn. simpl.
  unfold load_existing, load_from_persistence, SnapshotManager.load_snapshot,
    SnapshotManager.load_snapshot_from_path. simpl. rewrite Hs, He. by eexists.
Qed.

(** The first tick of the snapshots then replaces the snapshot and empties the
    log's active file: what the log held is gone. *)
Lemma first_tick_empties_log `{HashOrder} now wall later saved_at (m : M) config d l blob :
  0 < PersistenceConfig.snapshot_interval_secs config -> WriteAheadLog.new config d = (d, Done l) ->
  bin_serialize (SnapshotManager.create_snapshot now wall later m) = inr blob ->
  fst (SnapshotManager.snapshot_tick now wall later saved_at m d (SnapshotManager.with_wal config l))
    !! PersistenceConfig.wal_path config = Some [].
Proof.
  intros Hi Hn Hb. unfold SnapshotManager.snapshot_tick. cbn [SnapshotManager.config SnapshotManager.with_wal].
  replace (0 <? _) with true by lia. unfold SnapshotManager.save_snapshot.
  cbn [SnapshotManager.config SnapshotManager.wal SnapshotManager.with_wal].
  destruct (save_snapshot_file (PersistenceConfig.snapshot_path config) now wall later saved_at m d blob Hb)
    as (d' & -> & _).
  assert (Hl : WriteAheadLog.file_path l = PersistenceConfig.wal_path config /\
               BufWriter.buf (WriteAheadLog.writer l) = []).
  { unfold WriteAheadLog.new in Hn. simpl in Hn.
    destruct (WriteAheadLog.read_last_sequence _ _) as [seq|e|]; [|done..]. by injection Hn as _ <-. }
  destruct Hl as [Hp Hbuf]. unfold WriteAheadLog.truncate_after_snapshot, BufWriter.flush. simpl.
  rewrite Hbuf, Hp. simpl. apply lookup_insert_eq.
Qed.
End restart.

(** ** Witnesses *)

Import Defaults.

#[export] Instance no_tls : Rustls := {|
  Certificate := unit; PrivateKey := unit; ClientVerifier := unit; TlsAcceptor := unit;
  certs := fun _ => Some [tt]; pkcs8_private_keys := fun _ => Some [tt]; rsa_private_keys := fun _ => Some [];
  is_trust_anchor := fun _ => true; client_verifier := fun _ => Some tt;
  with_single_cert := fun _ _ _ => Some tt;
|}.

Definition some_host : Host := {|
  config_path_var := None;
  parse_socket_addr := Some;
  can_bind := fun _ => true;
  load_readings := fun _ => clocks_at 7 6;
  entry_readings := fun _ => clocks_at 77 88;
  host_now := 5;
  host_wall := 6;
  salts := fun i => [x01];
  random_u32 := 9;
|}.
Definition plain_args : Args.t := Args.mk 7777 None None None (bs "config.json").

(** The shape of [config.secure.json], with the users [us]. *)
Definition secure_config (us : list UserConfig.t) : AppConfig.t := {|
  AppConfig.server := ServerConfig.default_server;
  AppConfig.persistence := PersistenceConfigJson.default;
  AppConfig.performance := PerformanceConfig.default;
  AppConfig.tls := TlsConfig.default;
  AppConfig.replication := ReplicationConfig.default;
  AppConfig.security := SecurityConfig.mk true us;
|}.

Lemma main_secure us : AppConfig.typed (secure_config us) = true ->
  let d := AppConfig.save (bs "config.json") ∅ (secure_config us) in
  load_config some_host plain_args d = secure_config us /\
  exists s, main (M := ShardedMap) some_host plain_args d = (d, Done (s, [])).
Proof.
  intros Ht d. assert (E : load_config some_host plain_args d = secure_config us).
  { unfold load_config. change (default _ _) with (bs "config.json").
    unfold AppConfig.load, d. by rewrite load_saved. }
  split; [done|]. eexists. unfold main. rewrite E. reflexivity.
Qed.

(** A configured password opens the server, another one does not; without users
    nothing does. *)
Lemma security_is_enforced_witness :
  let us := [UserConfig.mk (bs "ann") (bs "pw") false []] in
  let d us := AppConfig.save (bs "config.json") ∅ (secure_config us) in
  (exists s y' c' r, main (M := ShardedMap) some_host plain_args (d us) = (d us, Done (s, [])) /\
     execute_command (clock 1) (Command.Auth (Some (bs "ann")) (bs "pw")) Conn.new
       (serving s : Server.t ShardedMap boxes) = Ok (y', c', r) /\ r = Response.Ok) /\
  (exists s, main (M := ShardedMap) some_host plain_args (d []) = (d [], Done (s, [])) /\
     forall es y, run_system es (boot (serving s : Server.t ShardedMap boxes)) = Some y -> server y = serving s).
Proof.
  intros us d. split.
  - destruct (main_secure us) as [Hl [s Hm]]; [reflexivity|].
    destruct (security_is_enforced (B := boxes) some_host plain_args (d us) (d us) s [] Hm) as [Hauth _].
    { unfold d. rewrite Hl. reflexivity. }
    destruct (Hauth (clock 1) (Some (bs "ann")) (bs "pw")) as (y' & c' & r & Hx & Hc).
    unfold d in Hc. rewrite Hl in Hc. exists s, y', c', r. split; [exact Hm|]. split; [exact Hx|].
    exact (proj1 Hc).
  - destruct (main_secure []) as [Hl [s Hm]]; [reflexivity|].
    destruct (security_is_enforced (B := boxes) some_host plain_args (d []) (d []) s [] Hm) as [_ Hnone].
    { unfold d. rewrite Hl. reflexivity. }
    exists s. split; [exact Hm|]. apply Hnone. unfold d. rewrite Hl. reflexivity.
Defined.

(** The application's section for [wal_config]; the log rotates at the second
    entry, and all three are replayed. *)
Definition wal_app : AppConfig.t := {|
  AppConfig.server := ServerConfig.default_server;
  AppConfig.persistence :=
    PersistenceConfigJson.mk true (bs "WAL") (bs "everysecond") 300 1 (bs ".") 1;
  AppConfig.performance := PerformanceConfig.default;
  AppConfig.tls := TlsConfig.default;
  AppConfig.replication := ReplicationConfig.default;
  AppConfig.security := SecurityConfig.default;
|}.
Definition wal_section : PersistenceConfig.t :=
  default PersistenceConfig.default (AppConfig.to_persistence_config wal_app).

Lemma restart_restores_storage_witness : exists d' s2,
  create_server (M := ShardedMap) some_host plain_args wal_app d' = (d', Done (s2, [])) /\
  get 9 (bs "a") (CacheServer.storage s2) = Some (bs "2").
Proof.
  pose proof small_run as Hg.
  destruct (run_history small_history (fun _ => Conn.new) (demo None)) as [[conns' s']|e|] eqn:E;
    [|destruct Hg..].
  destruct Hg as (Hw & _ & Hget). destruct (Server.wal s') as [log|] eqn:Ew; [|discriminate Hw].
  injection Hw as Hw.
  destruct (restart_restores_storage small_history conns' (demo None) s' log wal_section Z.of_nat ∅)
    as (d & l & d' & l' & _ & _ & Hnext).
  - exact small_history_clean.
  - reflexivity.
  - reflexivity.
  - exact E.
  - exact Ew.
  - rewrite Hw. vm_compute. reflexivity.
  - split; [done|]. intros n. apply lookup_empty.
  - reflexivity.
  - vm_compute. congruence.
  - rewrite Hw. repeat constructor; (eexists; split; [reflexivity|]; vm_compute; congruence).
  - rewrite Hw. vm_compute. congruence.
  - rewrite Hw. vm_compute. reflexivity.
  - reflexivity.
  - destruct (Hnext some_host plain_args wal_app) as (s2 & Hc & Hst & _); [reflexivity|reflexivity|].
    exists d', s2. split; [exact Hc|].
    change (CacheServer.storage s2) with (Server.storage (serving s2 : Server.t ShardedMap boxes)).
    rewrite Hst. exact Hget.
Defined.
