(* ===== verification/WalkTheorems.v ===== *)
(** * WalkTheorems: walks over the shards while commands run

    A walk sees every key as it was at one moment, but not all keys at the same
    moment: a snapshot that is collected under load restores each key in a
    state it had during the collection, and what was not touched exactly; a
    value that moves against the walk escapes it. *)

From S2P Require Import Prelude Text External Float64 BTree Values SortedSet SortedSetFacts Stream.
From S2P Require Import Keyspace ShardedMap Storage StorageTypes StorageFacts ListFacts SetFacts.
From S2P Require Import Resp Command Apply ApplyFacts ReplayClocks Ring Transactions Security.
From S2P Require Import PubSub Scripting Server ServerFacts.
From S2P Require Import FileSystem Wal WalFacts Snapshot SnapshotFacts PersistenceTheorems.
From S2P Require Import Concurrency ConcurrencyFacts Serializability ConcurrencyTheorems Walks.
#[local] Open Scope Z_scope.

Section reading.
Context `{Mpsc B, HashOrder, Layout, Xxh3}.
Implicit Types (w : World.t ShardedMap B) (runs : list (list event)).

(** A moment of the run [evs] from [w]. *)
Definition moment (evs : list event) w w1 : Prop :=
  exists evs1 evs2, evs = evs1 ++ evs2 /\ steps evs1 w = Some w1.

Lemma visit_spec i runs w ts w' : visit i runs w = Some (ts, w') ->
  length ts = length runs /\ steps (concat runs) w = Some w' /\
  forall j t, ts !! j = Some t -> exists w1, moment (concat runs) w w1 /\ t = guard (i + j) w1.
Proof.
  revert i w ts. induction runs as [|evs runs IH]; intros i w ts; simpl.
  { intros [= <- <-]. split_and!; [done..|]. intros j t Hj. by rewrite lookup_nil in Hj. }
  destruct (steps evs w) as [w1|] eqn:Hw; [|done]. simpl.
  destruct (visit (S i) runs w1) as [[ts1 w2]|] eqn:Hv; [|done]. intros [= <- <-].
  destruct (IH _ _ _ Hv) as (Hl & Hs & Ht). split_and!.
  - simpl. by rewrite Hl.
  - rewrite steps_app, Hw. exact Hs.
  - intros [|j] t Hj; simpl in Hj.
    + injection Hj as <-. exists w. split; [|by rewrite Nat.add_0_r]. by exists [], (evs ++ concat runs).
    + destruct (Ht j t Hj) as (w3 & (e1 & e2 & He & Hs3) & ->). exists w3. split; [|f_equal; lia].
      exists (evs ++ e1), e2. rewrite He, app_assoc. split; [done|]. rewrite steps_app, Hw. exact Hs3.
Qed.

Lemma moment_safe evs w w1 : safe w -> moment evs w w1 -> safe w1.
Proof. intros Hs (e1 & e2 & _ & Hw). by eapply steps_safe. Qed.

Lemma bumped_app evs evs' w w1 : steps evs w = Some w1 -> bumped (evs ++ evs') w = bumped evs w ++ bumped evs' w1.
Proof.
  revert w. induction evs as [|ev evs IH]; intros w; cbn [app bumped steps]; [by intros [= <-]|].
  destruct (step ev w) as [w2|]; [|done]. cbn. intros Hw. by rewrite (IH w2 Hw), app_assoc.
Qed.

(** What a walk finds is a map, with each key as it was at one moment. *)
Lemma walk_moments runs w m w' : safe w -> walk runs w = Some (m, w') ->
  inv m /\ steps (concat runs) w = Some w' /\
  forall k, exists w1, moment (concat runs) w w1 /\ entry k m = entry k (Server.storage (World.server w1)).
Proof.
  intros Hsafe. unfold walk. case_bool_decide as Hlen; [|done].
  destruct (visit 0 runs w) as [[ts w2]|] eqn:Hv; [|done]. intros [= <- <-].
  destruct (visit_spec _ _ _ _ _ Hv) as (Hl & Hs & Ht). split_and!; [|done|].
  - split; simpl; [by rewrite Hl|]. intros i t k Hi [v Hk].
    destruct (Ht i t Hi) as (w1 & Hm & ->). apply moment_safe in Hm as [Hi1 _ _]; [|done].
    unfold guard in Hk. simpl in Hk. destruct (tables _ !! i) as [t|] eqn:E; [|done].
    eapply inv_home; [exact Hi1|exact E|by exists v].
  - intros k. pose proof (shard_index_lt k) as Hlt.
    destruct (lookup_lt_is_Some_2 ts (shard_index k)) as [t Hk]; [by rewrite Hl, Hlen|].
    destruct (Ht _ _ Hk) as (w1 & Hm & ->). exists w1. split; [done|].
    simpl. unfold shard. simpl. by rewrite Hk.
Qed.

(** A key whose shard no write was counted for is found as it is. *)
Lemma walk_untouched runs w m w' k : safe w -> walk runs w = Some (m, w') -> no_counted_write k w ->
  shard_index k ∉ bumped (concat runs) w ->
  entry k m = entry k (Server.storage (World.server w)) /\
  entry k (Server.storage (World.server w')) = entry k (Server.storage (World.server w)).
Proof.
  intros Hsafe Hwalk Hk Hn. destruct (walk_moments _ _ _ _ Hsafe Hwalk) as (_ & Hs & Hm).
  split; [|by eapply steps_watch]. destruct (Hm k) as (w1 & (e1 & e2 & He & Hs1) & ->).
  eapply steps_watch; [done..|]. rewrite He, (bumped_app _ _ _ w1), elem_of_app in Hn by done. tauto.
Qed.

(** Alone, a walk finds the storage. *)
Theorem walk_alone w : inv (Server.storage (World.server w)) ->
  walk (replicate shard_number []) w = Some (Server.storage (World.server w), w).
Proof.
  intros [Hc _]. unfold walk. rewrite bool_decide_eq_true_2 by apply length_replicate.
  destruct (Server.storage (World.server w)) as [ts0] eqn:E. simpl in Hc. change (Z.to_nat SHARD_COUNT) with shard_number in Hc.
  assert (Hv : forall n i, (i + n)%nat = shard_number -> visit i (replicate n []) w = Some (drop i ts0, w)).
  { induction n as [|n IH]; intros i Hi; simpl; [by rewrite drop_ge by lia|].
    rewrite IH by lia. simpl. unfold guard. rewrite E. simpl.
    destruct (lookup_lt_is_Some_2 ts0 i) as [t Ht]; [lia|]. rewrite Ht. simpl.
    by rewrite (drop_S ts0 t i Ht). }
  by rewrite Hv.
Qed.

(** C36. KEYS * and DBSIZE under load: while other connections run commands
    other than scripts between the visits of the shards, every key that is listed was live at one
    moment, none is listed twice, DBSIZE counts as many, and a key that is not
    touched (no write of it is in flight at the start, and none is counted for
    its shard meanwhile) is listed exactly if it is live. *)
Theorem keys_under_load now runs w m w' : safe w -> walk runs w = Some (m, w') ->
  exists ks, keys_walk now (bs "*") runs w = Some (ks, w') /\ dbsize_walk now runs w = Some (len ks, w') /\
    NoDup ks /\
    (forall k, k ∈ ks -> exists w1, moment (concat runs) w w1 /\
      is_Some (live now (entry k (Server.storage (World.server w1))))) /\
    (forall k, no_counted_write k w -> shard_index k ∉ bumped (concat runs) w ->
      k ∈ ks <-> is_Some (live now (entry k (Server.storage (World.server w))))).
Proof.
  intros Hsafe Hwalk. destruct (walk_moments _ _ _ _ Hsafe Hwalk) as (Hm & Hs & Hk).
  exists (keys now (bs "*") m). unfold keys_walk, dbsize_walk. rewrite Hwalk. simpl.
  assert (Hin : forall k, k ∈ keys now (bs "*") m <-> is_Some (live now (entry k m))).
  { intros k. rewrite keys_star, list_elem_of_fmap. split.
    - intros ([k' v] & -> & Hv). apply elem_of_live_entries in Hv; [|done]. by exists v.
    - intros [v Hv]. exists (k, v). split; [done|]. by apply elem_of_live_entries. }
  split; [done|]. split; [by rewrite dbsize_live, keys_star; unfold len; rewrite length_fmap|].
  split; [rewrite keys_star; by apply NoDup_live_entries|]. split.
  - intros k Hkk%Hin. destruct (Hk k) as (w1 & Hmo & E). exists w1. by rewrite E in Hkk.
  - intros k Hc Hn. destruct (walk_untouched _ _ _ _ k Hsafe Hwalk Hc Hn) as [E _]. by rewrite Hin, E.
Qed.
End reading.

(** ** A snapshot under load *)

Section snapshot.
Context `{Mpsc B, HashOrder, Layout, Xxh3, Bincode Command.t, Bincode (list SnapshotRecord.t), Crc32}.
Implicit Types (w : World.t ShardedMap B) (runs : list (list event)).

(** C38. A snapshot under load: the entries are collected shard by shard while
    other connections run commands other than scripts, in whatever interleaving,
    the file is written and the active file of the log, which is flushed, is
    emptied, whatever entries [fl] it held by then.  The next start loads every
    key as [reloads] says from the state it had at one moment of the collection,
    and nothing else, and then applies the entries of the rotated segments
    [segs] once more ([with_segments]): with no segments
    that is all.  A key for whose shard no write was counted meanwhile, or
    before and not yet finished, is loaded from the state in which the
    collection found it and left it. *)
Theorem snapshot_under_load runs w m w' config d l segs fl now wall later saved_at readings wall2 entries blob d' s' :
  safe w -> walk runs w = Some (m, w') -> (forall k v, entry k m = Some v -> storable v) ->
  (forall k, read_now (readings k) + from_millis u64_max <= instant_max) ->
  0 <= wall <= u64_max -> 0 <= wall2 <= u64_max ->
  bin_serialize (SnapshotManager.create_snapshot now wall later m) = inr blob -> len blob <= isize_max ->
  log_rep d l segs fl [] -> opened_with config l ->
  (forall p, p = PersistenceConfig.snapshot_path config \/ p = PersistenceConfig.snapshot_path config ++ bs ".tmp" ->
     p <> WriteAheadLog.file_path l /\ forall i, p <> WriteAheadLog.segment_path i l) ->
  SnapshotManager.save_snapshot now wall later saved_at m d (SnapshotManager.with_wal config l) = (d', s', Done tt) ->
  exists l2 m', WriteAheadLog.new config d' = (d', Done l2) /\
    load_from_persistence readings wall2 entries (Some (SnapshotManager.with_wal config l2)) (Some l2) d' empty_map =
      with_segments entries segs m' /\ (segs = [] -> with_segments entries segs m' = (m', Done tt)) /\
    reloads now wall later readings wall2 m m' /\
    forall k, (exists w1, moment (concat runs) w w1 /\ entry k m = entry k (Server.storage (World.server w1))) /\
      (no_counted_write k w -> shard_index k ∉ bumped (concat runs) w ->
       entry k m = entry k (Server.storage (World.server w')) /\
       entry k m = entry k (Server.storage (World.server w))).
Proof.
  intros Hsafe Hwalk Hst Hclock Hw Hw2 Hb Hlen Hrep Ho Hpath Hsave.
  destruct (walk_moments _ _ _ _ Hsafe Hwalk) as (Hm & _ & Hk).
  destruct (restart_after_snapshot config d l segs fl now wall later saved_at readings wall2 entries m blob d' s')
    as (l2 & m' & Hn & Hl & Hr); [done..|].
  exists l2, m'. split_and!; [done | done | by intros -> | done |]. intros k. split; [apply Hk|]. intros Hc Hb'.
  destruct (walk_untouched _ _ _ _ k Hsafe Hwalk Hc Hb') as [E E']. split; congruence.
Qed.
End snapshot.

(** ** Walks that write *)

Section writing.
Context `{Mpsc B, Layout, Xxh3}.
Implicit Types (w : World.t ShardedMap B) (runs : list (list event)).

(** What is done to the table is done to each entry of its own. *)
Variable f : table -> table.
Variable g : option CacheValue -> option CacheValue.
Hypothesis f_entry : forall t k, f t !! k = g (t !! k).
Hypothesis g_None : g None = None.

(** The shards whose counter is incremented during the walk. *)
Fixpoint bumped_from (i : nat) runs w : list nat :=
  match runs with
  | [] => []
  | evs :: runs =>
      bumped evs (update_shard f i w) ++
      match steps evs (update_shard f i w) with Some w => bumped_from (S i) runs w | None => [] end
  end.

Lemma update_shard_safe i w : safe w -> safe (update_shard f i w).
Proof.
  intros [[Hc Hh] Hv Ht]. split; [|done..]. split; simpl; [by rewrite length_alter|].
  intros j t k Hj [v Hk]. destruct (decide (i = j)) as [->|Hij].
  - rewrite list_lookup_alter_eq in Hj. apply fmap_Some in Hj as (t0 & Hj & ->).
    rewrite f_entry in Hk. eapply Hh; [done|]. destruct (t0 !! k) eqn:E; [by eexists|]. by rewrite g_None in Hk.
  - rewrite list_lookup_alter_ne in Hj by done. by eapply Hh.
Qed.

Lemma update_shard_entry i w k : inv (Server.storage (World.server w)) ->
  entry k (Server.storage (World.server (update_shard f i w))) =
  if decide (i = shard_index k) then g (entry k (Server.storage (World.server w)))
  else entry k (Server.storage (World.server w)).
Proof.
  intros Hi. simpl. unfold shard. simpl. case_decide as Hd.
  - subst i. rewrite list_lookup_alter_eq. pose proof (shard_lookup k _ Hi) as E. rewrite E. simpl.
    apply f_entry.
  - by rewrite list_lookup_alter_ne.
Qed.

Lemma update_from_entry k i runs w w' : safe w -> no_counted_write k w -> update_from f i runs w = Some w' ->
  (i + length runs)%nat = shard_number -> shard_index k ∉ bumped_from i runs w ->
  entry k (Server.storage (World.server w')) =
  if decide (i <= shard_index k)%nat then g (entry k (Server.storage (World.server w)))
  else entry k (Server.storage (World.server w)).
Proof.
  revert i w. induction runs as [|evs runs IH]; intros i w Hs Hk; simpl.
  { intros [= <-] Hi _. pose proof (shard_index_lt k). rewrite decide_False; [done|]. unfold shard_number in Hi. lia. }
  destruct (steps evs (update_shard f i w)) as [w1|] eqn:Hw; [|done]. simpl. intros Hu Hi Hn.
  rewrite elem_of_app in Hn. pose proof (update_shard_safe i w Hs) as Hs1.
  destruct (steps_safe _ _ _ Hs1 Hw) as [Hs2 _].
  destruct (steps_watch k evs _ w1 Hs1) as [E Hk1]; [exact Hk | done | tauto |].
  assert (Hn2 : shard_index k ∉ bumped_from (S i) runs w1) by tauto.
  pose proof (IH (S i) w1 Hs2 Hk1 Hu ltac:(lia) Hn2) as E'. rewrite update_shard_entry in E by apply Hs.
  rewrite E in E'.
  revert E'. repeat case_decide; intros E'; (exact E' || lia).
Qed.

(** A walk that writes has done its work to every key whose shard was not
    counted a write for, whatever ran in between. *)
Lemma update_walk_entry k runs w w' : safe w -> no_counted_write k w -> update_walk f runs w = Some w' ->
  shard_index k ∉ bumped_from 0 runs w ->
  entry k (Server.storage (World.server w')) = g (entry k (Server.storage (World.server w))).
Proof.
  unfold update_walk. case_bool_decide as Hl; [|done]. intros Hs Hk Hu Hn.
  pose proof (update_from_entry k 0 runs w w' Hs Hk Hu Hl Hn) as E. by rewrite decide_True in E by lia.
Qed.

Lemma tables_eta (m : ShardedMap) : ShardedMap.mk (tables m) = m.
Proof. by destruct m. Qed.

(** Alone it is the update of all shards. *)
Lemma update_walk_alone w : inv (Server.storage (World.server w)) ->
  update_walk f (replicate shard_number []) w =
  Some (World.set_server (Server.set_storage (map_shards f (Server.storage (World.server w))) (World.server w)) w).
Proof.
  intros [Hc _]. unfold update_walk. rewrite bool_decide_eq_true_2 by apply length_replicate.
  change (Z.to_nat SHARD_COUNT) with shard_number in Hc.
  assert (Hv : forall n i w, (i + n)%nat = shard_number ->
    length (tables (Server.storage (World.server w))) = shard_number ->
    update_from f i (replicate n []) w = Some (World.set_server (Server.set_storage (ShardedMap.mk
      (take i (tables (Server.storage (World.server w))) ++
       (f <$> drop i (tables (Server.storage (World.server w)))))) (World.server w)) w)).
  { clear w Hc. induction n as [|n IH]; intros i w Hi Hl; simpl.
    - rewrite drop_ge, take_ge, app_nil_r by lia. rewrite tables_eta, set_storage_same. by destruct w.
    - rewrite IH by (simpl; rewrite ?length_alter; lia). simpl. f_equal.
      destruct (lookup_lt_is_Some_2 (tables (Server.storage (World.server w))) i) as [t Ht]; [lia|].
      unfold World.set_server, Server.set_storage. simpl. do 3 f_equal.
      rewrite (drop_S _ t i Ht), (take_S_r _ _ (f t)) by (by rewrite list_lookup_alter_eq, Ht).
      rewrite take_alter_ge, drop_alter_lt by lia. simpl. by rewrite <- app_assoc. }
  rewrite Hv by done. simpl. by rewrite drop_0.
Qed.
End writing.

(** ** FLUSHALL and the sweep *)

Section updates.
Context `{Mpsc B, HashOrder, Rng, Layout, Xxh3}.
Implicit Types (w : World.t ShardedMap B) (runs : list (list event)).

(** FLUSHALL under load: a key whose shard no write was counted for while the
    shards were cleared is gone. *)
Theorem flushall_under_load runs w w' k : safe w -> no_counted_write k w -> flushall_walk runs w = Some w' ->
  shard_index k ∉ bumped_from (fun _ => ∅) 0 runs w ->
  entry k (Server.storage (World.server w')) = None.
Proof.
  intros Hs Hk Hw Hn.
  by apply (update_walk_entry (fun _ => ∅) (fun _ => None) (fun t j => lookup_empty j) eq_refl k runs w w').
Qed.

(** The sweep under load drops what has expired and nothing that is live. *)
Theorem cleanup_under_load now runs w w' k : safe w -> no_counted_write k w -> cleanup_walk now runs w = Some w' ->
  shard_index k ∉ bumped_from (filter (fun kv => negb (is_expired now kv.2) = true)) 0 runs w ->
  entry k (Server.storage (World.server w')) = live now (entry k (Server.storage (World.server w))).
Proof.
  intros Hs Hk Hw Hn. eapply (update_walk_entry _ (live now)); [|done..]. intros t j.
  rewrite map_lookup_filter. unfold live. destruct (t !! j) as [v|]; [|done]. simpl. by destruct (is_expired now v).
Qed.

Context `{UnicodeCase, Argon2, Lua, Sha1}.

#[local] Arguments bump_versions_for : simpl never.
#[local] Arguments replicate : simpl never.

(** Alone, the task of FLUSHALL is [execute_command]. *)
Theorem flushall_task_alone es c s s' c' r : inv (Server.storage s) ->
  TxState.in_multi (Conn.tx c) = false -> moved Command.FlushAll s = None ->
  denied Command.FlushAll c s = None -> execute_command es Command.FlushAll c s = Ok (s', c', r) ->
  exists w, flushall_task (es 0%nat) [] [] [] (replicate shard_number []) (World.idle s) = Some w /\
    World.server w = s' /\ r = Response.Ok /\ c' = c.
Proof.
  intros Hi Hm Hmv Hd Hx. rewrite execute_command_open in Hx by done. simpl in Hx.
  unfold record_write in Hx. unfold flushall_task. simpl.
  destruct (bump_versions_for Command.FlushAll (Server.versions s)) as [v| |]; [|done..]. simpl in *.
  injection Hx as <- <- <-. unfold flushall_walk. rewrite update_walk_alone by exact Hi. by eexists.
Qed.
End updates.

(** ** Executions *)

Import Defaults.

Section executions.

(** A walk during which [evs] run after shard 20 was visited. *)
Definition meanwhile (evs : list event) : list (list event) := replicate 20 [] ++ evs :: replicate 43 [].

Abbreviation world := (World.t ShardedMap boxes) (only parsing).

Definition collecting (evs : list event) (runs : list (list event)) (P : world -> ShardedMap -> world -> bool) : bool :=
  match steps evs (World.idle fresh_server) with
  | Some w => match walk runs w with Some (m, w') => P w m w' | None => false end
  | None => false
  end.

Lemma collecting_spec evs runs P : collecting evs runs P = true ->
  exists w m w', steps evs (World.idle fresh_server) = Some w /\ walk runs w = Some (m, w') /\ P w m w' = true.
Proof.
  unfold collecting. destruct (steps evs _) as [w|]; [|done]. destruct (walk runs w) as [[m w']|] eqn:E; [|done].
  intros Hp. by exists w, m, w'.
Qed.

(** A value that moves against a walk escapes it: RENAME takes it out of a shard
    that is still to be visited and puts it into one that has been.  The
    snapshot has neither key, although the value was there when the collection
    began and when it ended; since the log is emptied afterwards, the next start
    does not have it. *)
Theorem rename_escapes_snapshot : exists w m w',
  steps (whole 0 (put "b" "1") 5) (World.idle fresh_server) = Some w /\
  walk (meanwhile (whole 1 (Command.Rename (bs "b") (bs "a")) 6)) w = Some (m, w') /\
  the_string "b" (Server.storage (World.server w)) = Some (bs "1") /\
  the_string "a" (Server.storage (World.server w')) = Some (bs "1") /\
  map fst (get_all_entries m) = [].
Proof.
  destruct (collecting_spec (whole 0 (put "b" "1") 5) (meanwhile (whole 1 (Command.Rename (bs "b") (bs "a")) 6))
    (fun w m w' => bool_decide (the_string "b" (Server.storage (World.server w)) = Some (bs "1") /\
       the_string "a" (Server.storage (World.server w')) = Some (bs "1") /\
       map fst (get_all_entries m) = []))) as (w & m & w' & Hw & Hm & Hp); [by vm_compute|].
  apply bool_decide_eq_true in Hp. exists w, m, w'. exact (conj Hw (conj Hm Hp)).
Qed.

(** FLUSHALL races with a write: it is logged, and then a SET of another
    connection is logged, stored in a shard that is still to be cleared, and
    answered; the storage ends without the key, the log and the replicas with
    it. *)
Theorem flushall_diverges : exists w,
  flushall_task tick [] [] [] (meanwhile (whole 1 (put "b" "2") 5)) (World.idle fresh_server) = Some w /\
  the_string "b" (Server.storage (World.server w)) = None /\
  World.replies w = [(1%nat, Ok Response.Ok)] /\
  holds "b" "2" (recovered w) = true /\ holds "b" "2" (replicated w) = true.
Proof.
  assert (Hc : match flushall_task tick [] [] [] (meanwhile (whole 1 (put "b" "2") 5)) (World.idle fresh_server) with
    | Some w => bool_decide (the_string "b" (Server.storage (World.server w)) = None /\
        World.replies w = [(1%nat, Ok Response.Ok)] /\
        holds "b" "2" (recovered w) = true /\ holds "b" "2" (replicated w) = true)
    | None => false end = true) by by vm_compute.
  destruct (flushall_task _ _ _ _ _ _) as [w|]; [|done]. apply bool_decide_eq_true in Hc.
  exists w. exact (conj eq_refl Hc).
Qed.
End executions.

(** ** Witness *)

Definition ex_saved_shards : fs * SnapshotManager.t * outcome SnapshotError unit :=
  SnapshotManager.save_snapshot 0 100 (fun _ => clocks_at 1 1) 100 ShardedMap.new (fst ex_logged)
    (SnapshotManager.with_wal (ex_config WALSyncPolicy.Always 100000) (snd ex_logged)).

Lemma empty_shards m : size <$> tables m = replicate shard_number 0%nat -> m = ShardedMap.new.
Proof.
  destruct m as [ts]. unfold ShardedMap.new. change (Z.to_nat SHARD_COUNT) with shard_number. cbn [tables]. intros Hs. f_equal.
  revert Hs. generalize shard_number. induction ts as [|t ts IH]; intros [|n] Hs; [done|discriminate Hs..|].
  injection Hs as Ht Hts. simpl. f_equal; [by apply map_size_empty_iff | by apply IH].
Qed.

(** A SET that runs while the snapshot is collected, after its shard was visited,
    is not in the snapshot, and not in the log that is emptied: after the start
    there is no such key. *)
Lemma snapshot_under_load_witness : exists w' d' s' l2 m', ex_saved_shards = (d', s', Done tt) /\
  walk (meanwhile (whole 1 (put "k" "v") 5)) (World.idle fresh_server) = Some (ShardedMap.new, w') /\
  the_string "k" (Server.storage (World.server w')) = Some (bs "v") /\
  WriteAheadLog.new (ex_config WALSyncPolicy.Always 100000) d' = (d', Done l2) /\
  load_from_persistence (fun _ => clocks_at 50 103) 103 (fun _ => clocks_at 0 0)
    (Some (SnapshotManager.with_wal (ex_config WALSyncPolicy.Always 100000) l2)) (Some l2) d' (empty_map : ShardedMap) =
    (m', Done tt) /\
  entry (bs "k") m' = None.
Proof.
  destruct (collecting_spec [] (meanwhile (whole 1 (put "k" "v") 5)) (fun _ m w' =>
    bool_decide (size <$> tables m = replicate shard_number 0%nat /\ the_string "k" (Server.storage (World.server w')) = Some (bs "v"))))
    as (w & m & w' & Hw & Hwalk & Hp); [by vm_compute|].
  injection Hw as <-. apply bool_decide_eq_true in Hp as [Hm Hv].
  apply empty_shards in Hm as ->.
  destruct ex_saved_shards as [[d' s'] r] eqn:E.
  assert (Hr : snd ex_saved_shards = Done tt) by (vm_compute; reflexivity). rewrite E in Hr. simpl in Hr. subst r.
  destruct (snapshot_under_load (meanwhile (whole 1 (put "k" "v") 5)) (World.idle fresh_server) ShardedMap.new w'
    (ex_config WALSyncPolicy.Always 100000) (fst ex_logged) (snd ex_logged) [] [ex_entry]
    0 100 (fun _ => clocks_at 1 1) 100 (fun _ => clocks_at 50 103) 103 (fun _ => clocks_at 0 0)
    (match bin_serialize (SnapshotManager.create_snapshot 0 100 (fun _ => clocks_at 1 1) ShardedMap.new) with
     | inr b => b | inl b => b end) d' s') as (l2 & m' & Hn & Hl & _ & Hk & _).
  - exact idle_safe.
  - exact Hwalk.
  - intros k v Hkv. rewrite entry_new in Hkv. discriminate.
  - intros _. vm_compute. congruence.
  - vm_compute. split; congruence.
  - vm_compute. split; congruence.
  - vm_compute. reflexivity.
  - vm_compute. congruence.
  - exact ex_logged_rep.
  - vm_compute. reflexivity.
  - intros p Hp. assert (Hf : WriteAheadLog.file_path (snd ex_logged) = bs "w") by (vm_compute; reflexivity).
    unfold WriteAheadLog.segment_path. rewrite Hf. destruct Hp as [-> | ->]; by split.
  - exact E.
  - exists w', d', s', l2, m'. split; [reflexivity|]. split; [exact Hwalk|]. split; [exact Hv|].
    split; [exact Hn|]. split; [exact Hl|]. specialize (Hk (bs "k")). rewrite entry_new in Hk. exact Hk.
Defined.

(** A SET of another key that runs meanwhile: ["b"] is listed as before. *)
Lemma keys_under_load_witness : exists w w' ks,
  steps (whole 0 (put "b" "1") 5) (World.idle fresh_server) = Some w /\
  keys_walk 7 (bs "*") (meanwhile (whole 1 (put "k" "v") 5)) w = Some (ks, w') /\ bs "b" ∈ ks.
Proof.
  destruct (collecting_spec (whole 0 (put "b" "1") 5) (meanwhile (whole 1 (put "k" "v") 5)) (fun w m w' =>
    bool_decide (World.tasks w = ∅) && bool_decide (shard_index (bs "b") ∉ bumped (concat (meanwhile (whole 1 (put "k" "v") 5))) w) &&
    bool_decide (is_Some (live 7 (entry (bs "b") (Server.storage (World.server w)))))))
    as (w & m & w' & Hw & Hwalk & Hp); [by vm_compute|].
  apply andb_true_iff in Hp as [Hp Hl%bool_decide_eq_true].
  apply andb_true_iff in Hp as [Ht%bool_decide_eq_true Hb%bool_decide_eq_true].
  destruct (keys_under_load 7 (meanwhile (whole 1 (put "k" "v") 5)) w m w') as (ks & Hk & _ & _ & _ & Hin).
  - exact (proj1 (steps_safe _ _ _ idle_safe Hw)).
  - exact Hwalk.
  - exists w, w', ks. split; [exact Hw|]. split; [exact Hk|]. apply Hin; [|exact Hb|exact Hl].
    intros i x Hx. by rewrite Ht, lookup_empty in Hx.
Defined.
